(* ===== verification/_CoqProject ===== *)
-Q . S2P
Prelude.v
CoreTypes.v
Json.v
Persistence.v
EnvTables.v
Effects.v
Protocols.v
InstanceHandlers.v
DbInvariants.v
Scenarios.v
CoreProperties.v
Recovery.v
EnvHandlers.v
EnvWorkers.v
RuntimeHost.v
EnvProperties.v
DrainProperties.v
RetentionProperties.v
WakeExclusion.v
StartProperties.v
Races.v
SignalProperties.v
ResumeProperties.v
Dsl.v
GraphOrder.v
GraphOrderProperties.v
Dependencies.v
DependencyProperties.v
Text.v
Float64.v
GuestStore.v
GuestPaths.v
GuestExpr.v
GuestScenarios.v
GuestStoreProperties.v
GuestCompiled.v
GuestProperties.v
GuestSteps.v
GuestStepProperties.v
ValidationBase.v
ValidationGraph.v
ValidationText.v
ValidationRefs.v
ValidationTemplates.v
ValidationAgents.v
Validation.v
ValidationLemmas.v
ValidationProperties.v
DslJson.v
ConditionProperties.v
ValidationClosure.v
Schemas.v
SchemaProperties.v
EditDistance.v
ObjectSql.v
ObjectSqlProperties.v
ObjectExpr.v
ObjectExprProperties.v
ObjectDdl.v
GuestManifest.v
GuestKeys.v
GuestLoops.v
GuestSource.v
GuestCalls.v
AgentCall.v
AgentCallProperties.v
GuestKeyProperties.v
GuestLoopProperties.v
GuestManifestProperties.v
WorkflowFeatures.v
DirectManifest.v
DirectSupport.v
DirectSupportProperties.v
DirectManifestProperties.v
DirectPlan.v
DirectPlanProperties.v
DirectRunProperties.v
DirectPipeline.v
DirectScenarios.v
