(* ===== verification/Prelude.v ===== *)
(** * Runtara: a verification of its durable execution engine

    Runtara runs workflows.  A workflow definition (a graph of steps) is
    validated and compiled to a WebAssembly component; an _instance_ of it is a
    guest process that survives crashes, restarts and long waits, because every
    step it takes is checkpointed and every wait is a row in a database.  These
    parts of the program carry that promise, and they are what this library
    models:

    - _runtara-core_ keeps the instances: the Postgres tables, the operations on
      them ([persistence/]), and the handlers a running guest calls
      ([instance_handlers/]): register, checkpoint, sleep, report an event, poll
      and acknowledge signals.
    - _runtara-environment_ runs the processes: it starts, stops and resumes
      instances ([handlers.rs]), watches every process it launched, relaunches
      sleeping instances when they are due ([wake_scheduler.rs]), fails those
      that stopped reporting ([heartbeat_monitor.rs]), recovers those a restart
      killed ([recovery.rs], [runtime.rs]), drains before a shutdown
      ([runtime.rs]) and deletes what is old ([db_cleanup_worker.rs]).
    - _runtara-workflows_ with _runtara-dsl_ validates and compiles definitions:
      which of them are refused and with which issues ([validation.rs]), which
      inputs and outputs a schema allows ([input_validation.rs],
      [schema_validate.rs]), which order the steps of a graph are emitted in
      ([direct_wasm/graph_order.rs]), which workflows a definition depends on
      ([dependency_analysis.rs]), which tables the compiled guest carries
      ([workflow_features.rs], [direct_wasm/manifest.rs]), which definitions the
      compiler accepts ([direct_wasm/support.rs]) and which plan of runs it emits
      code from ([direct_wasm/plan.rs]).
    - _runtara-workflow-stdlib_ is linked into every guest: it builds the scope of
      every step, resolves references, evaluates conditions, runs the steps that
      need no service, gives the durable calls their keys, and keeps large values
      of the scope in an arena ([direct_json.rs], [conditions.rs], [template.rs],
      [switch_helpers.rs], [agent_input_validation.rs]).
    - _runtara-object-store_ keeps the records of users: it turns the conditions,
      expressions and aggregates of a query, which are user data, into SQL
      ([sql/condition.rs], [sql/expr.rs], [sql/aggregate.rs], [sql/sanitize.rs]), and
      makes and migrates the tables of their schemas ([sql/ddl.rs], [store.rs], with
      [schema_validator.rs] of the server in front).

    Core and environment share one database and run as concurrent tasks of one
    process (and of several processes, on one database); nothing but the
    statements of that database orders them.  The theorems about them are
    therefore about interleavings of tasks, with failing calls, and not only
    about handlers run alone.  Validation decides what the runtime may rely on:
    some theorems say what the runtime does with a workflow that was accepted.

    ** How the code is modelled

    - _Tables_.  [Persistence.v] has the core schema as the record [Db] (finite
      maps for tables with a key, a list for the append-only events, counters for
      generated ids), and one function per statement of [trait Persistence] as
      [common/ops/*.rs] and the Postgres dialect write it: guards, enum casts,
      foreign keys, [COALESCE], ordering and limits included.  [EnvTables.v] does
      the same for the environment's tables ([container_registry.rs],
      [image_registry.rs], [db.rs]).
    - _Handlers and workers_.  [Effects.v] defines programs: trees of effects, an
      effect for every [.await] on the database, the clock, the runner or a drain
      flag.  [InstanceHandlers.v] has one program per core handler; [EnvHandlers.v],
      [Recovery.v] and [EnvWorkers.v] (wake scheduler, heartbeat monitor, runtime,
      retention, parking) have the environment's, and [RuntimeHost.v] what a guest
      calls on the database of its instance ([runtime_host.rs]).  Early returns, [?]
      and logged-and-ignored errors are written out as in the source.  Log lines
      and metrics are left out.
    - _Time, faults and the runner_.  An effect is answered by [perform] from a
      [tick], which says how far the clock moves, whether a database call
      completes, is rejected, or is committed with its reply lost, and what the
      runner answers.  Theorems quantify over ticks; [calm] ticks have no fault.
    - _Execution_.  [run] executes one program alone; [pool_step] interleaves any
      number of programs one effect at a time; [run_schedule] follows a given
      schedule, for the witnesses.
    - _Workflow graphs_.  [Dsl.v] has the definition types, [Json.v] JSON values,
      [GraphOrder.v] and [Dependencies.v] the two analyses, as pure functions.
    - _Validation_.  A phase of [validate_workflow] is a function from the workflow
      to the issues it pushes, in order: [ValidationBase.v] (issues, texts and
      suggestions), [ValidationGraph.v] (reachability, names, edges, containers),
      [ValidationRefs.v], [ValidationRefs.v] and [ValidationTemplates.v] (references
      to steps, to data and variables, and in templates), [ValidationAgents.v]
      (agent steps and conditions), [Validation.v] (the whole, and closures of
      embedded workflows), [ValidationText.v] (the texts).  [Schemas.v] has the
      checks of values against schemas.
    - _The compiler_.  [WorkflowFeatures.v] has what a definition needs of the
      guest's imports; [DirectManifest.v] the tables of mappings, conditions and
      step configurations, allocated in one pass over the steps as in the code;
      [DirectSupport.v] the gate: every reason to refuse a definition, and the walk
      over its control flow; [DirectPlan.v] the plans of runs, with the regions a
      branch opens.  [DirectPlan.v] is the meaning of a plan: the runs it allows, as a
      relation on traces of steps; it stands for the emitted instructions.
    - _The guest's evaluator_.  [GuestStore.v] has the arena as a record that is
      passed explicitly, with interning, resolution and collection; [GuestPaths.v]
      the references, [GuestExpr.v] the interpreter of mappings and conditions,
      [GuestCompiled.v] their compiled form, [GuestSteps.v] the Filter and Switch
      steps and the retry delay.  Numbers are IEEE doubles ([Float64.v]).
    - _The guest's steps_.  [GuestManifest.v] has the tables of a compiled workflow,
      the caches of compiled expressions as a state that is passed explicitly, and
      the methods of the simple steps; [GuestSource.v] the scope of a step and of an
      embedded workflow; [GuestLoops.v] Split and While; [GuestKeys.v] the keys of
      checkpoints, sleeps and signals; [GuestCalls.v] waits, Log and Error steps,
      calls of agents with their errors, and the turns of AI agents.  A method on
      bytes decodes, calls the function on JSON values and encodes, as in the code.
    - _A call of an agent_.  [AgentCall.v] is the program the compiler emits for a
      durable call ([direct_wasm/compile/agent.rs], [agent_retry.rs],
      [checkpoint.rs]): its attempts, waits and checkpoints, on the runtime host.  What
      the agents answer comes from the ticks.
    - _Queries_.  [ObjectSql.v] builds the clause and the list of parameters as the
      code does, and says how the database reads such a text; [ObjectExpr.v] has the
      kinds and the SQL of expressions and the checks and the two queries of an
      aggregate request.
    - _Tables of records_.  [ObjectDdl.v] has every statement that makes, alters or
      drops a table as a value with its text, what PostgreSQL does with it on the
      catalogue, and the operations on schemas as transactions.

    ** The files

    - [Prelude]: integers at their widths, text, UTF-8, SQL ordering and limits,
      tactics and the hint database.  [Text] and [Float64]: [str] and [f64].
      [CoreTypes]: [error.rs], [types.rs], [mappers.rs].  [Json]:
      [serde_json::Value].
    - Reasoning: [Effects] (weakest preconditions [wp], effect-wise guarantees
      [Guarantees] and [DbGuarantees]), [Protocols] (one task among others that keep
      a rely relation, and the interface [TokenLaw]: the database hands out rights to
      launch; [WakeExclusion] and [StartProperties] implement it), [DbInvariants],
      [ValidationLemmas].
    - Concrete worlds, values and library functions for the witnesses:
      [Scenarios], [GuestScenarios], [DirectScenarios], the end of [Validation].
    - Theorems on core and environment: [CoreProperties], [Recovery],
      [EnvProperties], [DrainProperties], [RetentionProperties], [WakeExclusion],
      [StartProperties], [SignalProperties], [ResumeProperties], [Races]; on the
      compiler: [GraphOrderProperties], [DependencyProperties],
      [ValidationProperties], [ValidationClosure], [ConditionProperties] (with
      [DslJson]), [SchemaProperties], [EditDistance], [DirectManifestProperties],
      [DirectSupportProperties], [DirectPlanProperties], [DirectRunProperties],
      [DirectPipeline]; on the guest: [GuestStoreProperties], [GuestProperties],
      [GuestStepProperties], [GuestKeyProperties], [GuestLoopProperties],
      [GuestManifestProperties], [AgentCallProperties]; on queries:
      [ObjectSqlProperties], [ObjectExprProperties].

    ** What the theorems show

    - _Durability_: a checkpointed state is returned by every later call for it
      and is written once; an accepted signal is reported until it is consumed; a
      sleep, a parking or a drain makes the instance due exactly from the time it
      should be ([CoreProperties], [SignalProperties], [DrainProperties]).  The key
      of a durable call identifies the call: iterations of a loop never share one
      ([GuestKeyProperties]).  All lives of an instance together call agents at most
      as often as one life plus once for every relaunch, and a call that returned is
      answered from its checkpoint afterwards ([AgentCallProperties]).
    - _Exclusion_: concurrent wake schedulers launch a due instance at most once,
      and concurrent start requests an instance id at most once, whatever fails
      ([WakeExclusion], [StartProperties]).
    - _Outcomes_: no guarded task changes the outcome of an instance that is not
      running; a drain leaves none of its instances running; a crash loop ends
      after the configured number of restarts; retention removes exactly what
      expired ([EnvProperties], [DrainProperties], [ResumeProperties],
      [RetentionProperties]).
    - _Integrity_: every interleaving keeps the schema's constraints
      ([CoreProperties.any_interleaving_keeps_wf]).
    - _Validation_: the structural phases report no error exactly for well-formed
      graphs at every depth; in an accepted workflow references name steps that the
      plan runs before, and conditions evaluate without errors of their own; a
      closure is accepted only when every embedded workflow is there, gets its
      required inputs and embeds no cycle; suggestions are nearest names
      ([ValidationProperties], [ConditionProperties], [ValidationClosure],
      [EditDistance]).
    - _Schemas_: a value is accepted as structured output exactly when it conforms
      to the schema, and in accepted data a reference that validation resolves
      finds a value of the declared type ([SchemaProperties]).
    - _Compilation_: the execution order is complete and topological, merge points
      are the nearest common steps, the cycle search is exact and ends
      ([GraphOrderProperties], [DependencyProperties]).  A definition the gate accepts
      has only steps the compiler lowers, and no cycle ([DirectSupportProperties]);
      its plan exists or is refused with an error ([DirectPlanProperties]); every
      mapping, condition and configuration of a step is found by the guest under the
      name the compiler gave it ([DirectManifestProperties]); and every run of the
      plan of an accepted workflow without choices takes each step that can be
      reached once, each after the steps it depends on ([DirectRunProperties],
      [DirectPipeline]).  [DirectScenarios] also has the definitions where the gate
      and the plan disagree with what a reader expects.
    - _Evaluation_: compiled expressions agree with the interpreter on every input,
      errors included, and so do their caches; the arena is invisible to
      evaluation, and its collection frees exactly what is unreachable; Filter,
      Switch, Split, While and GroupBy steps do what their configuration says;
      nested references are resolved completely ([GuestProperties],
      [GuestStoreProperties], [GuestStepProperties], [GuestLoopProperties],
      [GuestManifestProperties]).
    - _Injection_: whatever JSON a condition carries, its clause is one balanced
      SQL expression whose names were checked and whose texts are those of the
      code ([ObjectSqlProperties]).  An aggregate request or a row expression is
      refused or rendered, never a panic, and its queries are read as one balanced
      statement of checked names, known texts and bound values
      ([ObjectExprProperties]).
    - _Limits of the above_: [Races] proves where a write is not guarded by owner
      or status, as concrete or general executions; the lemmas at the end of
      [GuestKeyProperties] and [GuestManifestProperties] show where keys of
      different sites collide and where data is taken for a reference; those at the
      end of [AgentCallProperties] where a call is repeated, waits too long or ends
      too early.

    ** Bounds and fuel

    - Integers are [Z], reduced or range-checked where the code casts, parses or
      adds at a machine width ([wrap_i32], [parse_i32] and the like); a time is
      a number of microseconds and is not bounded.
    - Loops of the source that end by data take a fuel that is proved enough: the
      traversals of [GraphOrder] (one round per edge and step,
      [execution_order_complete]), the cycle search (the number of parents plus one,
      [detect_cycles_exact]), the extraction of nested graphs (the depth of the
      JSON value, [embedded_workflows_all_found]), the search for embedding cycles
      (the number of workflows, [closure_cycles_exact]), the cleanup loop (one round
      more than there are instances, [retention_sweeps_expired]), the marking of the
      arena (the roots and all recorded references, [collection_keeps_reachable]),
      chains of handles (the number of ids given out, [materialize_enough]), the
      batches of a Split (the number of items, [split_batches]).  The drain's
      polling loop takes one round per 500 ms of its grace period and one more
      ([poll_rounds_suffice]).
    - The walk of the gate and the planning take a number of rounds, and answer
      [None] when it is too small.  Planning ends with an answer where no graph opens
      itself forever ([planning_ends]); [gate_never_ends] shows a definition for which
      the walk of the gate does not end, so the theorems on accepted definitions speak
      of walks that did.
    - The rewriting of nested references follows references found in data and need
      not end; its fuel is enough when what they resolve to has no references
      ([nested_references_settle]).
    - The attempts of a call of an agent are a loop with a number of rounds and the
      outcome [OutOfRounds]; the retries and the waited time bound it
      ([rounds_suffice]), except where an agent asks for waits of no time
      ([zero_wait_never_ends]).
    - Loop indices are [u32]; scopes of loops nested a thousand deep or more are
      left out of [iterations_share_no_key], because there the list of indices
      itself is moved to the arena.
    - Background workers loop for ever; one poll of each is modelled, and the
      theorems hold for pools with any number of polls.

    ** Parameters

    Code that is not in the repository is an argument: [Ext] (serde_json and
    base64 on bytes, chrono's millisecond conversions), [EnvVars] (the process
    environment), [TimeFormat] (chrono's display), [FloatDisplay] and
    [JsonDisplay] (the text of a float and of a JSON value), [SerdeText] (the
    texts of serde's errors and the lossy decoding of bytes), [ContentHash] (the
    unspecified hash of the standard library), [Minijinja] and [StaticTemplates]
    (the template engine and its static analysis), [UnicodeData] (the tables of
    Unicode), [ConditionCodec] and [ExprCodec] (serde's decoding of conditions and of
    computed expressions), [SqlTexts] (upper case, and texts of values in error
    messages), the rows of a table (which statements they make the database refuse), [ManifestExternals] (serde's
    form of a whole step and of a schema, the hash of a manifest, a version), and the ticks (operating system, network,
    runner).  That serde_json reads back what it writes, that it shows numbers in
    decimal, and that minijinja treats owned and borrowed templates alike, are
    hypotheses of the theorems that need them.  The scenario files have concrete
    instances for the witnesses.

    ** Not modelled

    The SQLite dialect of the persistence layer, listings of events and step
    summaries (JSON path queries), metrics and telemetry; image uploads and
    capability tests of the environment; the wasmtime host beyond the calls of a
    guest, parking and relaunch marking; the emitters of the compiler beyond calls
    of agents, which would need a semantics of the emitted instructions; the
    runtime's debug events; reading and writing the instances of the object store and
    its caches; the shared condition evaluator of forms and reports; the HTTP servers'
    routing and the product server, connections, reports, agents and SDKs, which are
    clients of the engine.  Next in line are the condition evaluator
    ([runtara-dsl/src/condition_eval.rs], whose types [Dsl] already has),
    compensation ([runtara-core/src/compensation.rs]) and image registration. *)

From Stdlib Require Export ZArith Lia Sorted.
From Stdlib Require Export Strings.Byte Strings.Ascii Strings.String.
From stdpp Require Export base option list gmap strings fin_maps sorting.

(** ** Scopes and basic types *)

Declare Scope runtara_scope.
Delimit Scope runtara_scope with rt.
Open Scope string_scope.
Open Scope list_scope.
Open Scope Z_scope.

(** [Vec<u8>] *)
Abbreviation bytes := (list Byte.byte).

(** [chrono::DateTime<Utc>], as a number of microseconds since the epoch. *)
Abbreviation time := Z.

(** [Result<T, E>] *)
Inductive result (E A : Type) : Type :=
| Ok (a : A)
| Err (e : E).

Arguments Ok {E A} a.
Arguments Err {E A} e.

(** The [?] operator and [Result::map]. *)
#[export] Instance result_bind {E} : MBind (result E) :=
  λ A B f r, match r with Ok a => f a | Err e => Err e end.
#[export] Instance result_map {E} : FMap (result E) :=
  λ A B f r, match r with Ok a => Ok (f a) | Err e => Err e end.

#[export] Instance byte_eq_dec : EqDecision Byte.byte := Byte.byte_eq_dec.

#[export] Instance result_eq_dec {E A} `{EqDecision E, EqDecision A} :
  EqDecision (result E A).
Proof. solve_decision. Defined.

Definition is_ok {E A} (r : result E A) : bool :=
  match r with Ok _ => true | Err _ => false end.

(** ** Machine integers *)

Definition i32_min : Z := - 2 ^ 31.
Definition i32_max : Z := 2 ^ 31 - 1.
Definition i64_min : Z := - 2 ^ 63.
Definition i64_max : Z := 2 ^ 63 - 1.
Definition u64_max : Z := 2 ^ 64 - 1.

(** Two's-complement wrap-around of an [i32] (release-mode [+], [as i32]). *)
Definition wrap_i32 (x : Z) : Z := (x + 2 ^ 31) mod 2 ^ 32 - 2 ^ 31.

Definition wrap_i64 (x : Z) : Z := (x + 2 ^ 63) mod 2 ^ 64 - 2 ^ 63.

(** Wrap-around of a [u64]. *)
Definition wrap_u64 (x : Z) : Z := x mod 2 ^ 64.
Definition wrap_u32 (x : Z) : Z := x mod 2 ^ 32.

(** ** Decimal rendering and parsing of integers ([to_string], [parse]) *)

(** The decimal digit [d]. *)
Definition digit_char (d : Z) : Ascii.ascii := Ascii.ascii_of_N (Z.to_N (48 + d)).

(** The digits of [n] in front of [acc]; [fuel] bounds the number of digits. *)
Fixpoint show_pos_aux (fuel : nat) (n : Z) (acc : string) : string :=
  match fuel with
  | O => acc
  | S f =>
      let acc' := String (digit_char (n mod 10)) acc in
      if n <? 10 then acc' else show_pos_aux f (n / 10) acc'
  end.

(** [i64::to_string]: an [i64] has at most 19 digits. *)
Definition show_Z (n : Z) : string :=
  if n <? 0 then String.append "-" (show_pos_aux 20 (- n) "")
  else show_pos_aux 20 n "".

(** The value of an ASCII digit. *)
Definition digit_val (c : Ascii.ascii) : option Z :=
  let n := Z.of_N (Ascii.N_of_ascii c) in
  if (48 <=? n) && (n <=? 57) then Some (n - 48) else None.

(** The value of a run of digits read after [acc]. *)
Fixpoint read_digits (s : string) (acc : Z) : option Z :=
  match s with
  | EmptyString => Some acc
  | String c rest =>
      match digit_val c with
      | Some d => read_digits rest (acc * 10 + d)
      | None => None
      end
  end.

(** [str::parse] for a signed integer of range [lo..=hi]: an optional sign,
    then at least one digit, then a range check. *)
Definition parse_int (lo hi : Z) (s : string) : option Z :=
  let in_range (z : Z) := if (lo <=? z) && (z <=? hi) then Some z else None in
  match s with
  | EmptyString => None
  | String c rest =>
      if Ascii.eqb c "-"%char then
        match rest with
        | EmptyString => None
        | _ => z ← read_digits rest 0; in_range (- z)
        end
      else if Ascii.eqb c "+"%char then
        match rest with
        | EmptyString => None
        | _ => z ← read_digits rest 0; in_range z
        end
      else z ← read_digits s 0; in_range z
  end.

Definition parse_i64 : string → option Z := parse_int i64_min i64_max.
Definition parse_i32 : string → option Z := parse_int i32_min i32_max.

(** [str::parse::<u64>]: an optional [+], then at least one digit. *)
Definition parse_u64 (s : string) : option Z :=
  let in_range (z : Z) := if z <=? u64_max then Some z else None in
  match s with
  | EmptyString => None
  | String c rest =>
      if Ascii.eqb c "+"%char then
        match rest with EmptyString => None | _ => z ← read_digits rest 0; in_range z end
      else z ← read_digits s 0; in_range z
  end.

(** ** Text ([str::trim], [to_ascii_lowercase], [chars]); strings are UTF-8 bytes *)

Definition chr (n : N) : Ascii.ascii := Ascii.ascii_of_N n.

Definition of_codes (l : list N) : string :=
  foldr (λ n s, String (chr n) s) EmptyString l.

(** The characters with the Unicode property White_Space, UTF-8 encoded. *)
Definition whitespace : list string :=
  of_codes <$>
    ([[9]; [10]; [11]; [12]; [13]; [32]; [194; 133]; [194; 160]; [225; 154; 128];
      [226; 128; 128]; [226; 128; 129]; [226; 128; 130]; [226; 128; 131]; [226; 128; 132];
      [226; 128; 133]; [226; 128; 134]; [226; 128; 135]; [226; 128; 136]; [226; 128; 137];
      [226; 128; 138]; [226; 128; 168]; [226; 128; 169]; [226; 128; 175]; [226; 129; 159];
      [227; 128; 128]])%N.

(** [s] without the prefix [p]. *)
Fixpoint strip_prefix (p s : string) : option string :=
  match p, s with
  | EmptyString, _ => Some s
  | String a p', String b s' => if Ascii.eqb a b then strip_prefix p' s' else None
  | String _ _, EmptyString => None
  end.

Fixpoint first_prefix (ps : list string) (s : string) : option string :=
  match ps with
  | [] => None
  | p :: ps' => match strip_prefix p s with Some r => Some r | None => first_prefix ps' s end
  end.

(** Removes the given non-empty prefixes; [fuel] is the length of [s]. *)
Fixpoint trim_with (ps : list string) (fuel : nat) (s : string) : string :=
  match fuel with
  | O => s
  | S f => match first_prefix ps s with Some r => trim_with ps f r | None => s end
  end.

Definition str_rev (s : string) : string :=
  string_of_list_ascii (reverse (list_ascii_of_string s)).

(** [str::trim] *)
Definition trim (s : string) : string :=
  let s1 := trim_with whitespace (String.length s) s in
  str_rev (trim_with (str_rev <$> whitespace) (String.length s1) (str_rev s1)).

Definition ascii_lower (c : Ascii.ascii) : Ascii.ascii :=
  let n := Ascii.N_of_ascii c in
  if ((65 <=? n) && (n <=? 90))%N then chr (n + 32) else c.

(** [str::to_ascii_lowercase] *)
Fixpoint to_ascii_lowercase (s : string) : string :=
  match s with
  | EmptyString => EmptyString
  | String c r => String (ascii_lower c) (to_ascii_lowercase r)
  end.

(** A UTF-8 continuation byte. *)
Definition is_cont_char (c : Ascii.ascii) : bool :=
  let n := Ascii.N_of_ascii c in ((128 <=? n) && (n <=? 191))%N.

(** [s.chars()], each character as its UTF-8 bytes. *)
Fixpoint chars (s : string) : list string :=
  match s with
  | EmptyString => []
  | String c r =>
      match chars r, r with
      | ch :: rest, String d _ =>
          if is_cont_char d then String c ch :: rest else String c EmptyString :: ch :: rest
      | rest, _ => String c EmptyString :: rest
      end
  end.

Definition concat_str (l : list string) : string := foldr String.append EmptyString l.

(** ** UTF-8 validation ([std::str::from_utf8]) *)

Definition byte_Z (b : Byte.byte) : Z := Z.of_N (Byte.to_N b).

Definition in_rng (lo hi : Z) (b : Byte.byte) : bool :=
  (lo <=? byte_Z b) && (byte_Z b <=? hi).

(** A continuation byte. *)
Definition is_cont (b : Byte.byte) : bool := in_rng 128 191 b.

(** The well-formed byte sequences of the Unicode standard (no overlong form,
    no surrogate, nothing above U+10FFFF), as the standard library checks them. *)
Fixpoint utf8_valid (l : bytes) : bool :=
  match l with
  | [] => true
  | b0 :: l1 =>
      if in_rng 0 127 b0 then utf8_valid l1
      else match l1 with
      | [] => false
      | b1 :: l2 =>
          if in_rng 194 223 b0 then is_cont b1 && utf8_valid l2
          else match l2 with
          | [] => false
          | b2 :: l3 =>
              if in_rng 224 224 b0 then in_rng 160 191 b1 && is_cont b2 && utf8_valid l3
              else if in_rng 225 236 b0 || in_rng 238 239 b0
              then is_cont b1 && is_cont b2 && utf8_valid l3
              else if in_rng 237 237 b0
              then in_rng 128 159 b1 && is_cont b2 && utf8_valid l3
              else match l3 with
              | [] => false
              | b3 :: l4 =>
                  if in_rng 240 240 b0
                  then in_rng 144 191 b1 && is_cont b2 && is_cont b3 && utf8_valid l4
                  else if in_rng 241 243 b0
                  then is_cont b1 && is_cont b2 && is_cont b3 && utf8_valid l4
                  else if in_rng 244 244 b0
                  then in_rng 128 143 b1 && is_cont b2 && is_cont b3 && utf8_valid l4
                  else false
              end
          end
      end
  end.

(** [std::str::from_utf8(payload).ok()] *)
Definition from_utf8 (l : bytes) : option string :=
  if utf8_valid l then Some (string_of_list_byte l) else None.

(** ** SQL helpers *)

(** [COALESCE(a, b)] *)
Definition coalesce {A} (a b : option A) : option A :=
  match a with Some _ => a | None => b end.

(** [LIMIT n] and [OFFSET n] on a result set. *)
Definition sql_limit {A} (n : Z) (l : list A) : list A := take (Z.to_nat n) l.
Definition sql_offset {A} (n : Z) (l : list A) : list A := drop (Z.to_nat n) l.

(** [ORDER BY key ASC].  SQL leaves the order of equal keys open; the model
    fixes one, and no theorem depends on it. *)
Definition le_key {A} (key : A → Z) (x y : A) : Prop := key x ≤ key y.

#[export] Instance le_key_dec {A} (key : A → Z) : RelDecision (le_key key).
Proof. intros x y. unfold le_key. apply _. Defined.

#[export] Instance le_key_total {A} (key : A → Z) : Total (le_key key).
Proof. intros x y. unfold le_key. lia. Qed.

#[export] Instance le_key_trans {A} (key : A → Z) : Transitive (le_key key).
Proof. intros x y z. unfold le_key. lia. Qed.

Definition order_by {A} (key : A → Z) (l : list A) : list A :=
  merge_sort (le_key key) l.

(** ** Tactics *)

(** Case on the first [match] or [if] scrutinee of the goal. *)
Ltac case_goal :=
  match goal with
  | |- context [match ?x with _ => _ end] =>
      lazymatch x with
      | context [match _ with _ => _ end] => fail
      | _ => destruct x eqn:?
      end
  end.

(** Case on the first [match] scrutinee of a hypothesis. *)
Ltac case_hyp H :=
  match type of H with
  | context [match ?x with _ => _ end] =>
      lazymatch x with
      | context [match _ with _ => _ end] => fail
      | _ => destruct x eqn:?
      end
  end.

Create HintDb runtara discriminated.

(** ** Generic lemmas *)

Lemma order_by_perm {A} (key : A → Z) (l : list A) : order_by key l ≡ₚ l.
Proof. apply merge_sort_Permutation. Qed.

Lemma elem_of_order_by {A} (key : A → Z) (l : list A) (x : A) :
  x ∈ order_by key l ↔ x ∈ l.
Proof. by rewrite order_by_perm. Qed.

Lemma order_by_sorted {A} (key : A → Z) (l : list A) :
  StronglySorted (le_key key) (order_by key l).
Proof. apply (StronglySorted_merge_sort (le_key key)). Qed.

Lemma length_order_by {A} (key : A → Z) (l : list A) :
  length (order_by key l) = length l.
Proof. by rewrite order_by_perm. Qed.

Lemma elem_of_sql_limit {A} n (l : list A) x : x ∈ sql_limit n l → x ∈ l.
Proof. unfold sql_limit. intros H. by eapply elem_of_take in H as (? & ? & _); apply list_elem_of_lookup; eauto. Qed.

Lemma wrap_i32_id x : i32_min ≤ x ≤ i32_max → wrap_i32 x = x.
Proof.
  unfold i32_min, i32_max, wrap_i32. intros H.
  rewrite Z.mod_small; lia.
Qed.

Lemma coalesce_None_r {A} (a : option A) : coalesce a None = a.
Proof. by destruct a. Qed.

Lemma filter_length_le {A} (P Q : A → Prop) `{∀ x, Decision (P x), ∀ x, Decision (Q x)} l :
  (∀ x, P x → Q x) → (length (filter P l) ≤ length (filter Q l))%nat.
Proof.
  intros HPQ. induction l as [|x l IH]; [done|].
  destruct (decide (P x)) as [HP|HP].
  - rewrite !filter_cons_True by auto. simpl. lia.
  - rewrite (filter_cons_False _ _ _ HP). destruct (decide (Q x)) as [HQ|HQ].
    + rewrite filter_cons_True by done. simpl. lia.
    + by rewrite filter_cons_False.
Qed.

(** Two disjoint classes of one class. *)
Lemma filter_length_split {A} (P Q S : A → Prop)
  `{∀ x, Decision (P x), ∀ x, Decision (Q x), ∀ x, Decision (S x)} l :
  (∀ x, P x → ¬ Q x) → (∀ x, P x ∨ Q x → S x) →
  (length (filter P l) + length (filter Q l) ≤ length (filter S l))%nat.
Proof.
  intros HPQ HS. induction l as [|x l IH]; [done|]. rewrite !filter_cons.
  repeat case_decide; simpl; try lia; exfalso; naive_solver.
Qed.

(** ** Filters, and lists of lists *)

Lemma filter_none {A} (P : A → Prop) `{∀ x, Decision (P x)} (l : list A) :
  (∀ x, x ∈ l → ¬ P x) → filter P l = [].
Proof.
  induction l as [|x l IH]; intros Hn; [done|]. rewrite filter_cons, decide_False by (apply Hn; left).
  apply IH. intros y Hy. apply Hn. by right.
Qed.

Lemma filter_all {A} (P : A → Prop) `{∀ x, Decision (P x)} (l : list A) :
  (∀ x, x ∈ l → P x) → filter P l = l.
Proof.
  induction l as [|x l IH]; intros Hp; [done|]. rewrite filter_cons, decide_True by (apply Hp; left).
  f_equal. apply IH. intros y Hy. apply Hp. by right.
Qed.

Lemma concat_elem {A} (ls : list (list A)) x : x ∈ List.concat ls ↔ ∃ i l, ls !! i = Some l ∧ x ∈ l.
Proof.
  rewrite list_elem_of_In, in_concat. split.
  - intros (l & Hl & Hx). apply list_elem_of_In, list_elem_of_lookup in Hl as [i Hi].
    exists i, l. split; [done|]. by apply list_elem_of_In.
  - intros (i & l & Hl & Hx). exists l. split; apply list_elem_of_In; [|done].
    by eapply list_elem_of_lookup_2.
Qed.

(** An element of disjoint lists is in one of them. *)
Lemma concat_index {A} (ls : list (list A)) i j l k x :
  NoDup (List.concat ls) → ls !! i = Some l → ls !! j = Some k → x ∈ l → x ∈ k → i = j.
Proof.
  revert i j. induction ls as [|l0 ls IH]; intros i j Hnd Hi Hj Hl Hk; [done|].
  apply NoDup_app in Hnd as (_ & Hd & Hnd).
  destruct i as [|i], j as [|j]; simpl in *; [done| | |f_equal; by eapply IH]; exfalso.
  - injection Hi as ->. apply (Hd x Hl). apply concat_elem. by exists j, k.
  - injection Hj as ->. apply (Hd x Hk). apply concat_elem. by exists i, l.
Qed.

(** Parts of disjoint lists are disjoint. *)
Lemma concat_sub_NoDup {A} (ls ks : list (list A)) :
  Forall2 (λ l k, NoDup l ∧ ∀ x, x ∈ l → x ∈ k) ls ks → NoDup (List.concat ks) → NoDup (List.concat ls).
Proof.
  induction 1 as [|l k ls ks [Hnd Hsub] Hall IH]; intros Hks; [done|]. simpl in *.
  apply NoDup_app in Hks as (_ & Hd & Hks). apply NoDup_app. split; [done|]. split; [|by apply IH].
  intros x Hx (i & l' & Hi & Hx')%concat_elem. apply (Hd x (Hsub x Hx)).
  destruct (Forall2_lookup_l _ _ _ _ _ Hall Hi) as (k' & Hk' & _ & Hsub').
  apply concat_elem. exists i, k'. auto.
Qed.

Lemma Forall2_impl_elem {A B} (P Q : A → B → Prop) l k :
  Forall2 P l k → (∀ x y, x ∈ l → y ∈ k → P x y → Q x y) → Forall2 Q l k.
Proof.
  intros Hall. induction Hall as [|x y l k Hxy Hall IH]; intros Hpq; constructor.
  - apply Hpq; [left|left|done].
  - apply IH. intros x' y' Hx Hy. apply Hpq; by right.
Qed.
