(* ===== verification/CoreTypes.v ===== *)
(** * runtara-core: error values, protocol types and enum mappings

    The error type of [runtara-core/src/error.rs], the request and response
    structures of [instance_handlers/types.rs], the string mappings of
    [instance_handlers/mappers.rs] and the persistence records and parameter
    structures of [persistence/mod.rs].  Integer fields are [Z] within their
    Rust width, timestamps are [time] (microseconds), payloads are [bytes]. *)

From S2P Require Import Prelude.

(** ** Errors *)

Inductive CoreError : Type :=
| InstanceNotFound (instance_id : string)
| InstanceAlreadyExists (instance_id : string)
| InvalidInstanceState (instance_id expected actual : string)
| CheckpointNotFound (instance_id : string) (checkpoint_id : option string)
| CheckpointSaveFailed (instance_id reason : string)
| SignalDeliveryFailed (instance_id signal_type reason : string)
| ValidationError (field message : string)
| DatabaseError (operation details : string).

#[export] Instance CoreError_eq_dec : EqDecision CoreError.
Proof. solve_decision. Defined.

Definition error_code (e : CoreError) : string :=
  match e with
  | InstanceNotFound _ => "INSTANCE_NOT_FOUND"
  | InstanceAlreadyExists _ => "INSTANCE_ALREADY_EXISTS"
  | InvalidInstanceState _ _ _ => "INVALID_INSTANCE_STATE"
  | CheckpointNotFound _ _ => "CHECKPOINT_NOT_FOUND"
  | CheckpointSaveFailed _ _ => "CHECKPOINT_SAVE_FAILED"
  | SignalDeliveryFailed _ _ _ => "SIGNAL_DELIVERY_FAILED"
  | ValidationError _ _ => "VALIDATION_ERROR"
  | DatabaseError _ _ => "DATABASE_ERROR"
  end.

(** [impl fmt::Display for CoreError] *)
Definition display_core_error (e : CoreError) : string :=
  match e with
  | InstanceNotFound i => "Instance '" +:+ i +:+ "' not found"
  | InstanceAlreadyExists i => "Instance '" +:+ i +:+ "' already exists"
  | InvalidInstanceState i ex ac =>
      "Instance '" +:+ i +:+ "' is in invalid state: expected '" +:+ ex
        +:+ "', got '" +:+ ac +:+ "'"
  | CheckpointNotFound i (Some c) =>
      "Checkpoint '" +:+ c +:+ "' not found for instance '" +:+ i +:+ "'"
  | CheckpointNotFound i None =>
      "No checkpoints found for instance '" +:+ i +:+ "'"
  | CheckpointSaveFailed i r =>
      "Failed to save checkpoint for instance '" +:+ i +:+ "': " +:+ r
  | SignalDeliveryFailed i s r =>
      "Failed to deliver " +:+ s +:+ " signal to instance '" +:+ i +:+ "': " +:+ r
  | ValidationError f m => "Validation error for '" +:+ f +:+ "': " +:+ m
  | DatabaseError o d => "Database error during '" +:+ o +:+ "': " +:+ d
  end.

(** [impl From<sqlx::Error> for CoreError]: the conversion behind a bare [?]. *)
Definition from_sqlx_error (details : string) : CoreError :=
  DatabaseError "query" details.

(** ** Protocol enums *)

Inductive SignalType := SignalCancel | SignalPause | SignalResume | SignalShutdown.

Inductive InstanceEventType :=
  EventHeartbeat | EventCompleted | EventFailed | EventSuspended | EventCustom.

Inductive InstanceStatus :=
  StatusUnknown | StatusPending | StatusRunning | StatusSuspended
| StatusCompleted | StatusFailed | StatusCancelled.

#[export] Instance SignalType_eq_dec : EqDecision SignalType.
Proof. solve_decision. Defined.
#[export] Instance InstanceEventType_eq_dec : EqDecision InstanceEventType.
Proof. solve_decision. Defined.
#[export] Instance InstanceStatus_eq_dec : EqDecision InstanceStatus.
Proof. solve_decision. Defined.

(** [impl From<SignalType> for i32] *)
Definition signal_type_to_i32 (s : SignalType) : Z :=
  match s with
  | SignalCancel => 0 | SignalPause => 1 | SignalResume => 2 | SignalShutdown => 3
  end.

(** [SignalAck::signal_type]: any unknown number reads as a cancel. *)
Definition signal_type_of_i32 (n : Z) : SignalType :=
  if n =? 0 then SignalCancel
  else if n =? 1 then SignalPause
  else if n =? 2 then SignalResume
  else if n =? 3 then SignalShutdown
  else SignalCancel.

(** [impl From<InstanceEventType> for i32] *)
Definition event_type_to_i32 (e : InstanceEventType) : Z :=
  match e with
  | EventHeartbeat => 0 | EventCompleted => 2 | EventFailed => 3
  | EventSuspended => 4 | EventCustom => 5
  end.

(** [InstanceEvent::event_type]: any unknown number reads as a custom event. *)
Definition event_type_of_i32 (n : Z) : InstanceEventType :=
  if n =? 0 then EventHeartbeat
  else if n =? 2 then EventCompleted
  else if n =? 3 then EventFailed
  else if n =? 4 then EventSuspended
  else if n =? 5 then EventCustom
  else EventCustom.

(** [impl From<InstanceStatus> for i32] *)
Definition instance_status_to_i32 (s : InstanceStatus) : Z :=
  match s with
  | StatusUnknown => 0 | StatusPending => 1 | StatusRunning => 2
  | StatusSuspended => 3 | StatusCompleted => 4 | StatusFailed => 5
  | StatusCancelled => 6
  end.

(** [InstanceStatus::try_from_i32] *)
Definition try_from_i32 (value : Z) : option InstanceStatus :=
  if value =? 0 then Some StatusUnknown
  else if value =? 1 then Some StatusPending
  else if value =? 2 then Some StatusRunning
  else if value =? 3 then Some StatusSuspended
  else if value =? 4 then Some StatusCompleted
  else if value =? 5 then Some StatusFailed
  else if value =? 6 then Some StatusCancelled
  else None.

(** ** Mappings to and from the database strings *)

Definition map_event_type (e : InstanceEventType) : string :=
  match e with
  | EventHeartbeat => "heartbeat"
  | EventCompleted => "completed"
  | EventFailed => "failed"
  | EventSuspended => "suspended"
  | EventCustom => "custom"
  end.

Definition map_status (status : string) : InstanceStatus :=
  if decide (status = "pending") then StatusPending
  else if decide (status = "running") then StatusRunning
  else if decide (status = "suspended") then StatusSuspended
  else if decide (status = "completed") then StatusCompleted
  else if decide (status = "failed") then StatusFailed
  else if decide (status = "cancelled") then StatusCancelled
  else StatusUnknown.

Definition map_signal_type (s : SignalType) : string :=
  match s with
  | SignalCancel => "cancel"
  | SignalPause => "pause"
  | SignalResume => "resume"
  | SignalShutdown => "shutdown"
  end.

(** The [match signal.signal_type.as_str()] the checkpoint and poll handlers
    share; they differ in what they do with an unknown string. *)
Definition parse_signal_type (s : string) : option SignalType :=
  if decide (s = "cancel") then Some SignalCancel
  else if decide (s = "pause") then Some SignalPause
  else if decide (s = "resume") then Some SignalResume
  else if decide (s = "shutdown") then Some SignalShutdown
  else None.

(** ** Requests and responses *)

Record RegisterInstanceRequest := {
  rr_instance_id : string;
  rr_tenant_id : string;
  rr_checkpoint_id : option string }.

Record RegisterInstanceResponse := { rresp_success : bool; rresp_error : string }.

Record CheckpointRequest := {
  cr_instance_id : string;
  cr_checkpoint_id : string;
  cr_state : bytes }.

Record Signal := {
  sg_instance_id : string;
  sg_signal_type : Z;
  sg_payload : bytes }.

Record CustomSignal := { cs_checkpoint_id : string; cs_payload : bytes }.

Record CheckpointErrorInfo := { cei_code : string; cei_message : string }.

Record CheckpointResponse := {
  cresp_found : bool;
  cresp_state : bytes;
  cresp_pending_signal : option Signal;
  cresp_custom_signal : option CustomSignal;
  cresp_last_error : option CheckpointErrorInfo }.

Record GetCheckpointRequest := { gcr_instance_id : string; gcr_checkpoint_id : string }.

Record GetCheckpointResponse := { gcresp_found : bool; gcresp_state : bytes }.

Record SleepRequest := {
  sr_instance_id : string;
  sr_duration_ms : Z;
  sr_checkpoint_id : string;
  sr_state : bytes }.

Record InstanceEvent := {
  ie_instance_id : string;
  ie_event_type : Z;
  ie_checkpoint_id : option string;
  ie_payload : bytes;
  ie_timestamp_ms : Z;
  ie_subtype : option string }.

Record InstanceEventResponse := { ier_success : bool; ier_error : option string }.

Record GetInstanceStatusResponse := {
  gs_instance_id : string;
  gs_status : Z;
  gs_checkpoint_id : option string;
  gs_started_at_ms : Z;
  gs_finished_at_ms : option Z;
  gs_output : option bytes;
  gs_error : option string }.

Record PollSignalsRequest := {
  psr_instance_id : string;
  psr_checkpoint_id : option string }.

Record PollSignalsResponse := {
  psresp_signal : option Signal;
  psresp_custom_signal : option CustomSignal }.

Record SignalAck := {
  sa_instance_id : string;
  sa_signal_type : Z;
  sa_acknowledged : bool }.

Record ErrorMetadata := {
  em_category : Z;
  em_severity : Z;
  em_retry_hint : Z;
  em_retry_after_ms : option Z;
  em_error_code : option string }.

Record RetryAttemptEvent := {
  ra_instance_id : string;
  ra_checkpoint_id : string;
  ra_attempt_number : Z;
  ra_timestamp_ms : Z;
  ra_error_message : option string;
  ra_error_metadata : option ErrorMetadata }.

Definition ERROR_SERVER_DRAINING : string := "server draining".
Definition ERROR_MAX_CONCURRENT_INSTANCES : string := "max concurrent instances reached".

(** ** Persistence records *)

Record InstanceRecord := {
  ir_instance_id : string;
  ir_tenant_id : string;
  ir_definition_version : Z;
  ir_status : string;
  ir_checkpoint_id : option string;
  ir_attempt : Z;
  ir_max_attempts : Z;
  ir_created_at : time;
  ir_started_at : option time;
  ir_finished_at : option time;
  ir_input : option bytes;
  ir_output : option bytes;
  ir_error : option string;
  ir_sleep_until : option time;
  ir_termination_reason : option string;
  ir_exit_code : option Z;
  ir_recovery_attempts : Z;
  ir_recovery_marker : option string }.

Record CheckpointRecord := {
  cp_id : Z;
  cp_instance_id : string;
  cp_checkpoint_id : string;
  cp_state : bytes;
  cp_created_at : time;
  cp_is_compensatable : bool;
  cp_compensation_step_id : option string;
  cp_compensation_data : option bytes;
  cp_compensation_state : option string;
  cp_compensation_order : Z }.

Record EventRecord := {
  ev_id : option Z;
  ev_instance_id : string;
  ev_event_type : string;
  ev_checkpoint_id : option string;
  ev_payload : option bytes;
  ev_created_at : time;
  ev_subtype : option string }.

Record SignalRecord := {
  sig_instance_id : string;
  sig_signal_type : string;
  sig_payload : option bytes;
  sig_created_at : time;
  sig_acknowledged_at : option time }.

Record CustomSignalRecord := {
  csr_instance_id : string;
  csr_checkpoint_id : string;
  csr_payload : option bytes;
  csr_created_at : time }.

Inductive CompleteInstanceGuard := Any | OnlyRunning.

#[export] Instance CompleteInstanceGuard_eq_dec : EqDecision CompleteInstanceGuard.
Proof. solve_decision. Defined.

Record CompleteInstanceParams := {
  cip_instance_id : string;
  cip_status : string;
  cip_guard : CompleteInstanceGuard;
  cip_output : option bytes;
  cip_error : option string;
  cip_stderr : option string;
  cip_checkpoint_id : option string;
  cip_termination_reason : option string;
  cip_exit_code : option Z }.

(** [CompleteInstanceParams::new] *)
Definition params_new (instance_id status : string) : CompleteInstanceParams :=
  {| cip_instance_id := instance_id;
     cip_status := status;
     cip_guard := Any;
     cip_output := None;
     cip_error := None;
     cip_stderr := None;
     cip_checkpoint_id := None;
     cip_termination_reason := None;
     cip_exit_code := None |}.

Definition if_running (p : CompleteInstanceParams) : CompleteInstanceParams :=
  {| p with cip_guard := OnlyRunning |}.

Definition with_output (o : bytes) (p : CompleteInstanceParams) : CompleteInstanceParams :=
  {| p with cip_output := Some o |}.

Definition with_error (e : string) (p : CompleteInstanceParams) : CompleteInstanceParams :=
  {| p with cip_error := Some e |}.

Definition with_stderr (e : string) (p : CompleteInstanceParams) : CompleteInstanceParams :=
  {| p with cip_stderr := Some e |}.

Definition with_checkpoint (c : string) (p : CompleteInstanceParams) : CompleteInstanceParams :=
  {| p with cip_checkpoint_id := Some c |}.

Definition with_termination (r : string) (x : option Z) (p : CompleteInstanceParams) :
  CompleteInstanceParams :=
  {| p with cip_termination_reason := Some r; cip_exit_code := x |}.

(** ** Lemmas *)

Lemma parse_map_signal_type s : parse_signal_type (map_signal_type s) = Some s.
Proof. by destruct s. Qed.

Lemma signal_type_of_to_i32 s : signal_type_of_i32 (signal_type_to_i32 s) = s.
Proof. by destruct s. Qed.

Lemma event_type_of_to_i32 e : event_type_of_i32 (event_type_to_i32 e) = e.
Proof. by destruct e. Qed.

Lemma try_from_to_i32 s : try_from_i32 (instance_status_to_i32 s) = Some s.
Proof. by destruct s. Qed.

Lemma try_from_i32_Some n s :
  try_from_i32 n = Some s → n = instance_status_to_i32 s.
Proof.
  unfold try_from_i32. repeat case_goal; intros; simplify_eq; simpl; lia.
Qed.
