(* ===== verification/Json.v ===== *)
(** * JSON values ([serde_json::Value])

    The value type the sources pass around, with the accessors they use.  A
    number keeps serde_json's three representations.  An object is the entry
    list of a [BTreeMap]: distinct keys in increasing byte order. *)

From S2P Require Import Prelude.
From Stdlib Require Import Floats.SpecFloat.

(** [serde_json::Number]: [PosInt(u64)], [NegInt(i64)] or [Float(f64)]. *)
Inductive jnum : Type :=
| PosInt (n : Z)
| NegInt (n : Z)
| Float (f : spec_float).

#[warnings="-register-all"]
Inductive json : Type :=
| JNull
| JBool (b : bool)
| JNumber (n : jnum)
| JString (s : string)
| JArray (l : list json)
| JObject (m : list (string * json)).

#[export] Instance spec_float_eq_dec : EqDecision spec_float.
Proof. solve_decision. Defined.

#[export] Instance jnum_eq_dec : EqDecision jnum.
Proof. solve_decision. Defined.

#[export] Instance json_inhabited : Inhabited json := populate JNull.

(** [Map::get] *)
Fixpoint assoc_get (k : string) (m : list (string * json)) : option json :=
  match m with
  | [] => None
  | (k', v) :: m' => if decide (k' = k) then Some v else assoc_get k m'
  end.

(** The byte order of [str]. *)
Definition str_ltb (a b : string) : bool := String.ltb a b.

(** [f] on [Map::get], for recursive functions [f]. *)
Section assoc_with.
Context {A : Type} (f : json → A).

Fixpoint assoc_with (k : string) (m : list (string * json)) : option A :=
  match m with
  | [] => None
  | (k', v) :: m' => if decide (k' = k) then Some (f v) else assoc_with k m'
  end.
End assoc_with.

(** [Map::insert]: replaces the value of [k], else adds the key at its place. *)
Fixpoint assoc_set (k : string) (v : json) (m : list (string * json)) :
  list (string * json) :=
  match m with
  | [] => [(k, v)]
  | (k', v') :: m' =>
      if decide (k' = k) then (k, v) :: m'
      else if str_ltb k k' then (k, v) :: (k', v') :: m'
      else (k', v') :: assoc_set k v m'
  end.

(** [map.entry(k).or_insert_with(|| v)] *)
Definition assoc_or_insert (k : string) (v : json) (m : list (string * json)) :
  list (string * json) :=
  match assoc_get k m with Some _ => m | None => assoc_set k v m end.

(** [serde_json::json!({ ... })] *)
Definition json_object (l : list (string * json)) : json :=
  JObject (foldl (λ m kv, assoc_set kv.1 kv.2 m) [] l).

(** A map with string keys as a JSON object. *)
Definition map_object {A} (f : A → json) (m : gmap string A) : json :=
  JObject (foldr (λ kv acc, assoc_set kv.1 (f kv.2) acc) [] (map_to_list m)).

Definition num (n : Z) : json := JNumber (PosInt n).
Definition num_nat (n : nat) : json := num (Z.of_nat n).

(** [Value::get(&str)] *)
Definition json_get (k : string) (j : json) : option json :=
  match j with JObject m => assoc_get k m | _ => None end.

(** [Value::as_object], [Value::as_str], [Value::as_bool], [Value::as_i64],
    [Value::as_u64] and [Value::as_array] *)
Definition as_object (j : json) : option (list (string * json)) :=
  match j with JObject m => Some m | _ => None end.

Definition as_str (j : json) : option string :=
  match j with JString s => Some s | _ => None end.

Definition as_bool (j : json) : option bool :=
  match j with JBool b => Some b | _ => None end.

Definition as_i64 (j : json) : option Z :=
  match j with
  | JNumber (PosInt n) => if n <=? i64_max then Some n else None
  | JNumber (NegInt n) => Some n
  | _ => None
  end.

Definition as_u64 (j : json) : option Z :=
  match j with JNumber (PosInt n) => Some n | _ => None end.

Definition as_array (j : json) : option (list json) :=
  match j with JArray l => Some l | _ => None end.

(** [is_i64() || is_u64()], [is_number] and the like *)
Definition is_integer (v : json) : bool :=
  match v with JNumber (PosInt _) | JNumber (NegInt _) => true | _ => false end.
Definition is_number (v : json) : bool := match v with JNumber _ => true | _ => false end.
Definition is_string (v : json) : bool := match v with JString _ => true | _ => false end.
Definition is_boolean (v : json) : bool := match v with JBool _ => true | _ => false end.
Definition is_array (v : json) : bool := match v with JArray _ => true | _ => false end.
Definition is_object (v : json) : bool := match v with JObject _ => true | _ => false end.
Definition is_null (v : json) : bool := match v with JNull => true | _ => false end.

(** [j.get(k).and_then(|v| v.as_object())] *)
Definition get_object (k : string) (j : json) : option (list (string * json)) :=
  match json_get k j with Some v => as_object v | None => None end.

(** [key.starts_with('_')] *)
Definition starts_with_underscore (k : string) : bool :=
  match k with String c _ => Ascii.eqb c "_"%char | EmptyString => false end.

(** ** Lemmas *)

(** Induction with hypotheses for the elements of arrays and objects. *)
Section json_ind.
Context (P : json → Prop).
Context (HNull : P JNull) (HBool : ∀ b, P (JBool b)) (HNum : ∀ n, P (JNumber n))
  (HStr : ∀ s, P (JString s)) (HArr : ∀ l, Forall P l → P (JArray l))
  (HObj : ∀ m, Forall (λ kv, P kv.2) m → P (JObject m)).

Fixpoint json_nested_ind (j : json) : P j :=
  match j with
  | JNull => HNull
  | JBool b => HBool b
  | JNumber n => HNum n
  | JString s => HStr s
  | JArray l =>
      HArr l ((fix go l : Forall P l :=
                 match l with
                 | [] => List.Forall_nil _
                 | x :: l => List.Forall_cons _ x l (json_nested_ind x) (go l)
                 end) l)
  | JObject m =>
      HObj m ((fix go m : Forall (λ kv, P kv.2) m :=
                 match m with
                 | [] => List.Forall_nil _
                 | kv :: m => List.Forall_cons _ kv m (json_nested_ind kv.2) (go m)
                 end) m)
  end.
End json_ind.

(** The immediate parts of a value, and induction over all its parts. *)
Definition json_child (u v : json) : Prop :=
  match v with
  | JArray l => u ∈ l
  | JObject m => ∃ k, (k, u) ∈ m
  | _ => False
  end.

Lemma json_tc_child u v :
  tc json_child u v → ∃ w, json_child w v ∧ (u = w ∨ tc json_child u w).
Proof.
  induction 1 as [u v Huv|u x v Hux _ (w & Hw & Hx)]; [by exists u; auto|].
  exists w. split; [done|]. right.
  destruct Hx as [->|Hx]; [by apply tc_once|by eapply tc_l].
Qed.

Lemma json_deep_ind (P : json → Prop) :
  (∀ v, (∀ u, tc json_child u v → P u) → P v) → ∀ v, P v.
Proof.
  intros HP. assert (H : ∀ v u, u = v ∨ tc json_child u v → P u); [|by eauto].
  assert (Hstep : ∀ v, (∀ w, json_child w v → ∀ u, u = w ∨ tc json_child u w → P u) →
                    ∀ u, u = v ∨ tc json_child u v → P u).
  { intros v IH u [->|(w & Hw & Hu)%json_tc_child]; [|by eapply IH].
    apply HP. intros x (w & Hw & Hx)%json_tc_child. by eapply IH. }
  intros v. induction v as [| | | |l IH|m IH] using json_nested_ind; apply Hstep; try done.
  - intros w Hw. by eapply (Forall_forall _ l) in IH.
  - intros w [k Hw]. by eapply (Forall_forall _ m) in IH; [|done].
Qed.

Lemma assoc_get_member k m v : assoc_get k m = Some v → (k, v) ∈ m.
Proof.
  induction m as [|[k' v'] m IH]; simpl; [done|].
  case_decide; [intros [= ->]; subst; by left|right; auto].
Qed.

Lemma assoc_get_child k m v : assoc_get k m = Some v → json_child v (JObject m).
Proof. intros Hv%assoc_get_member. by exists k. Qed.

Lemma assoc_with_get {A} (f : json → A) k m : assoc_with f k m = f <$> assoc_get k m.
Proof. induction m as [|[k' v'] m IH]; simpl; [done|]. by case_decide. Qed.

Lemma assoc_get_map (f : json → json) k m :
  assoc_get k (map (λ kv, (kv.1, f kv.2)) m) = f <$> assoc_get k m.
Proof. induction m as [|[k' v'] m IH]; simpl; [done|]. by case_decide. Qed.

Lemma assoc_get_set_eq k v m : assoc_get k (assoc_set k v m) = Some v.
Proof.
  induction m as [|[k' v'] m IH]; simpl; [by rewrite decide_True|].
  case_decide; simpl; [by rewrite decide_True|].
  destruct (str_ltb k k'); simpl; [by rewrite decide_True|by rewrite decide_False].
Qed.

Lemma assoc_get_set_ne k k' v m : k ≠ k' → assoc_get k (assoc_set k' v m) = assoc_get k m.
Proof.
  intros Hne. induction m as [|[k1 v1] m IH]; simpl; [by rewrite decide_False by done|].
  destruct (decide (k1 = k')) as [->|Hk]; simpl; [by rewrite !decide_False by done|].
  destruct (str_ltb k' k1); simpl; [by rewrite (decide_False (P := k' = k)) by done|].
  by rewrite IH.
Qed.

Lemma assoc_set_set k v w m : assoc_set k v (assoc_set k w m) = assoc_set k v m.
Proof.
  induction m as [|[k1 v1] m IH]; simpl; [by rewrite decide_True|].
  destruct (decide (k1 = k)) as [->|Hk]; simpl; [by rewrite decide_True|].
  destruct (str_ltb k k1) eqn:Hlt; simpl; [by rewrite decide_True|].
  rewrite decide_False, Hlt by done. by rewrite IH.
Qed.

Lemma assoc_get_filter (P : string → Prop) `{∀ k, Decision (P k)} k m :
  assoc_get k (filter (λ kv, P kv.1) m) = if decide (P k) then assoc_get k m else None.
Proof.
  induction m as [|[k' v'] m IH]; simpl; [by case_decide|].
  rewrite filter_cons; simpl.
  destruct (decide (P k')) as [HP|HP]; simpl; destruct (decide (k' = k)) as [->|Hne];
    rewrite ?IH; repeat case_decide; done.
Qed.
