(* ===== verification/Persistence.v ===== *)
(** * runtara-core: the persistence layer

    The tables of the core schema (migrations/postgresql) as the record [Db],
    and one definition per operation of [trait Persistence] as the Postgres
    backend implements it ([persistence/common/ops/*.rs] with the SQL text of
    [persistence/dialect/postgres.rs], and the inline operations of
    [persistence/postgres.rs]).

    An operation is one SQL statement, so it is one atomic function from a
    database to a result and a database.  It takes the statement's context:
    the database clock ([NOW()]) and the driver's error text.  Constraint
    violations (primary keys, foreign keys, CHECK constraints and enum casts)
    are errors and leave the database as it was. *)

From S2P Require Import Prelude.
From S2P Require Import CoreTypes.

(** ** Tables *)

Record instances_row := {
  i_tenant_id : string;
  i_definition_version : Z;
  i_status : string;
  i_checkpoint_id : option string;
  i_attempt : Z;
  i_max_attempts : Z;
  i_created_at : time;
  i_started_at : option time;
  i_finished_at : option time;
  i_sleep_until : option time;
  i_input : option bytes;
  i_output : option bytes;
  i_error : option string;
  i_stderr : option string;
  i_memory_peak_bytes : option Z;
  i_cpu_usage_usec : option Z;
  i_termination_reason : option string;
  i_exit_code : option Z;
  i_recovery_attempts : Z;
  i_recovery_marker : option string }.

Record checkpoints_row := {
  c_id : Z;
  c_state : bytes;
  c_created_at : time;
  c_is_retry_attempt : bool;
  c_attempt_number : option Z;
  c_error_message : option string }.

Record events_row := {
  e_id : Z;
  e_instance_id : string;
  e_event_type : string;
  e_checkpoint_id : option string;
  e_payload : option bytes;
  e_created_at : time;
  e_subtype : option string }.

Record signals_row := {
  s_signal_type : string;
  s_payload : option bytes;
  s_created_at : time;
  s_acknowledged_at : option time }.

Record csignals_row := { x_payload : option bytes; x_created_at : time }.

(** The core schema.  The two sequences are the [BIGSERIAL] counters. *)
Record Db := {
  instances : gmap string instances_row;
  checkpoints : gmap (string * string) checkpoints_row;
  checkpoints_seq : Z;
  instance_events : list events_row;
  events_seq : Z;
  pending_signals : gmap string signals_row;
  pending_checkpoint_signals : gmap (string * string) csignals_row }.

Definition empty_db : Db :=
  {| instances := ∅; checkpoints := ∅; checkpoints_seq := 1;
     instance_events := []; events_seq := 1;
     pending_signals := ∅; pending_checkpoint_signals := ∅ |}.

(** The values of the schema's enum types. *)
Definition instance_status_values : list string :=
  ["pending"; "running"; "suspended"; "completed"; "failed"; "cancelled"].

Definition instance_event_type_values : list string :=
  ["started"; "progress"; "completed"; "failed"; "suspended"; "heartbeat"; "custom"].

Definition signal_type_values : list string := ["cancel"; "pause"; "resume"; "shutdown"].

Definition termination_reason_values : list string :=
  ["completed"; "application_error"; "crashed"; "timeout"; "heartbeat_timeout";
   "cancelled"; "paused"; "sleeping"; "orphaned"; "shutdown_requested";
   "environment_restart"; "waiting_signal"].

(** [x::enum_type] on a text parameter. *)
Definition enum_ok (values : list string) (s : string) : bool :=
  bool_decide (s ∈ values).

Definition enum_ok_opt (values : list string) (s : option string) : bool :=
  match s with None => true | Some s => enum_ok values s end.

(** The context of a statement: the database clock and the driver's error text. *)
Record stmt := { now : time; msg : string }.

(** The columns [op_get_instance] selects; [exit_code] is not among them and
    takes its [#[sqlx(default)]]. *)
Definition record_of_row (id : string) (r : instances_row) : InstanceRecord :=
  {| ir_instance_id := id;
     ir_tenant_id := i_tenant_id r;
     ir_definition_version := i_definition_version r;
     ir_status := i_status r;
     ir_checkpoint_id := i_checkpoint_id r;
     ir_attempt := i_attempt r;
     ir_max_attempts := i_max_attempts r;
     ir_created_at := i_created_at r;
     ir_started_at := i_started_at r;
     ir_finished_at := i_finished_at r;
     ir_input := i_input r;
     ir_output := i_output r;
     ir_error := i_error r;
     ir_sleep_until := i_sleep_until r;
     ir_termination_reason := i_termination_reason r;
     ir_exit_code := None;
     ir_recovery_attempts := i_recovery_attempts r;
     ir_recovery_marker := i_recovery_marker r |}.

(** The columns the listing queries select: no [input], no recovery counters. *)
Definition listing_of_row (id : string) (r : instances_row) : InstanceRecord :=
  {| (record_of_row id r) with
     ir_input := None; ir_recovery_attempts := 0; ir_recovery_marker := None |}.

(** ** Instance operations *)

Definition op_register_instance (c : stmt) (instance_id tenant_id : string) (db : Db) :
  result CoreError unit * Db :=
  if decide (instance_id = "") then
    (Err (DatabaseError "register_instance" (msg c)), db)
  else match instances db !! instance_id with
  | Some _ => (Err (DatabaseError "register_instance" (msg c)), db)
  | None =>
      (Ok tt,
       {| db with instances := <[instance_id :=
          {| i_tenant_id := tenant_id;
             i_definition_version := 1;
             i_status := "pending";
             i_checkpoint_id := None;
             i_attempt := 1;
             i_max_attempts := 3;
             i_created_at := now c;
             i_started_at := None;
             i_finished_at := None;
             i_sleep_until := None;
             i_input := None;
             i_output := None;
             i_error := None;
             i_stderr := None;
             i_memory_peak_bytes := None;
             i_cpu_usage_usec := None;
             i_termination_reason := None;
             i_exit_code := None;
             i_recovery_attempts := 0;
             i_recovery_marker := None |}]> (instances db) |})
  end.

Definition op_get_instance (instance_id : string) (db : Db) :
  result CoreError (option InstanceRecord) :=
  Ok (record_of_row instance_id <$> instances db !! instance_id).

(** [UPDATE instances SET f WHERE instance_id = $1], and the number of rows. *)
Definition update_instance (instance_id : string) (f : instances_row → instances_row)
  (db : Db) : Z * Db :=
  match instances db !! instance_id with
  | Some r => (1, {| db with instances := <[instance_id := f r]> (instances db) |})
  | None => (0, db)
  end.

(** [common::error::not_found_if_empty] *)
Definition not_found_if_empty (rows_affected : Z) (instance_id : string) :
  result CoreError unit :=
  if rows_affected =? 0 then Err (InstanceNotFound instance_id) else Ok tt.

(** [common::error::wrap_checkpoint_save] *)
Definition wrap_checkpoint_save (err instance_id : string) : CoreError :=
  CheckpointSaveFailed instance_id err.

(** The enum cast is evaluated for a row the statement updates. *)
Definition op_update_instance_status (c : stmt) (instance_id status : string)
  (started_at : option time) (db : Db) : result CoreError unit * Db :=
  match instances db !! instance_id with
  | None => (Err (InstanceNotFound instance_id), db)
  | Some _ =>
      if negb (enum_ok instance_status_values status) then
        (Err (DatabaseError "update_instance_status" (msg c)), db)
      else
        let '(n, db') :=
          match started_at with
          | Some ts =>
              update_instance instance_id (λ r,
                {| r with i_status := status; i_started_at := Some ts;
                          i_finished_at := None; i_termination_reason := None |}) db
          | None => update_instance instance_id (λ r, {| r with i_status := status |}) db
          end in
        (not_found_if_empty n instance_id, db')
  end.

Definition op_update_instance_checkpoint (instance_id checkpoint_id : string) (db : Db) :
  result CoreError unit * Db :=
  let '(n, db') :=
    update_instance instance_id (λ r, {| r with i_checkpoint_id := Some checkpoint_id |}) db in
  (not_found_if_empty n instance_id, db').

(** The statuses for which [complete_instance] stamps [finished_at]. *)
Definition stamps_finished (status : string) : bool :=
  bool_decide (status ∈ ["completed"; "failed"; "cancelled"; "suspended"]).

(** The SET clause of [op_complete_instance_unified]. *)
Definition complete_row (c : stmt) (p : CompleteInstanceParams) (r : instances_row) :
  instances_row :=
  {| r with
     i_status := cip_status p;
     i_termination_reason := coalesce (cip_termination_reason p) (i_termination_reason r);
     i_exit_code := coalesce (cip_exit_code p) (i_exit_code r);
     i_output := cip_output p;
     i_error := cip_error p;
     i_stderr := coalesce (cip_stderr p) (i_stderr r);
     i_checkpoint_id := coalesce (cip_checkpoint_id p) (i_checkpoint_id r);
     i_finished_at := if stamps_finished (cip_status p) then Some (now c)
                      else i_finished_at r |}.

(** The WHERE clause of [op_complete_instance_unified]. *)
Definition complete_guard (p : CompleteInstanceParams) (r : instances_row) : bool :=
  match cip_guard p with
  | Any => true
  | OnlyRunning => bool_decide (i_status r = "running")
  end.

Definition op_complete_instance_unified (c : stmt) (p : CompleteInstanceParams) (db : Db) :
  result CoreError bool * Db :=
  let miss :=
    match cip_guard p with
    | OnlyRunning => Ok false
    | Any => Err (InstanceNotFound (cip_instance_id p))
    end in
  match instances db !! cip_instance_id p with
  | None => (miss, db)
  | Some r =>
      if negb (complete_guard p r) then (miss, db)
      else if negb (enum_ok instance_status_values (cip_status p)
                    && enum_ok_opt termination_reason_values (cip_termination_reason p))
      then (Err (DatabaseError "complete_instance" (msg c)), db)
      else (Ok true, snd (update_instance (cip_instance_id p) (complete_row c p) db))
  end.

Definition op_mark_for_recovery (c : stmt) (instance_id : string) (attempt : Z)
  (marker : option string) (db : Db) : result CoreError unit * Db :=
  (Ok tt,
   snd (update_instance instance_id (λ r,
     {| r with i_status := "suspended";
               i_termination_reason := Some "environment_restart";
               i_sleep_until := Some (now c);
               i_recovery_attempts := attempt;
               i_recovery_marker := marker |}) db)).

Definition op_store_instance_input (instance_id : string) (input : bytes) (db : Db) :
  result CoreError unit * Db :=
  (Ok tt, snd (update_instance instance_id (λ r, {| r with i_input := Some input |}) db)).

(** [LIMIT]/[OFFSET] of a query: Postgres rejects a negative one. *)
Definition bounds_ok (limit offset : Z) : bool := (0 <=? limit) && (0 <=? offset).

(** The status cast fails on a string that is not an [instance_status]. *)
Definition op_list_instances (c : stmt) (tenant_id status : option string)
  (limit offset : Z) (db : Db) : result CoreError (list InstanceRecord) :=
  if negb (bounds_ok limit offset && enum_ok_opt instance_status_values status) then
    Err (from_sqlx_error (msg c))
  else
    let keep (ir : string * instances_row) : bool :=
      match tenant_id with None => true | Some t => bool_decide (i_tenant_id ir.2 = t) end
      && match status with None => true | Some s => bool_decide (i_status ir.2 = s) end in
    Ok (sql_limit limit (sql_offset offset
      ((λ ir, listing_of_row ir.1 ir.2) <$>
         order_by (λ ir, - i_created_at ir.2)
           (filter (λ ir, keep ir = true) (map_to_list (instances db)))))).

Definition op_count_active_instances (db : Db) : result CoreError Z :=
  Ok (Z.of_nat (size (filter (λ ir : string * instances_row,
        i_status ir.2 ∈ ["running"; "suspended"]) (instances db)))).

(** [u64 as i64] on the way in; an already recorded metric is kept. *)
Definition op_update_instance_metrics (instance_id : string)
  (memory_peak_bytes cpu_usage_usec : option Z) (db : Db) : result CoreError unit * Db :=
  (Ok tt,
   snd (update_instance instance_id (λ r,
     {| r with
        i_memory_peak_bytes := coalesce (i_memory_peak_bytes r) (wrap_i64 <$> memory_peak_bytes);
        i_cpu_usage_usec := coalesce (i_cpu_usage_usec r) (wrap_i64 <$> cpu_usage_usec) |}) db)).

Definition op_update_instance_stderr (instance_id stderr : string) (db : Db) :
  result CoreError unit * Db :=
  (Ok tt,
   snd (update_instance instance_id (λ r,
     {| r with i_stderr := coalesce (i_stderr r) (Some stderr) |}) db)).

(** ** Sleep and wake operations *)

Definition op_set_instance_sleep (instance_id : string) (sleep_until : time) (db : Db) :
  result CoreError unit * Db :=
  let '(n, db') :=
    update_instance instance_id (λ r, {| r with i_sleep_until := Some sleep_until |}) db in
  (not_found_if_empty n instance_id, db').

Definition op_clear_instance_sleep (instance_id : string) (db : Db) :
  result CoreError unit * Db :=
  let '(n, db') := update_instance instance_id (λ r, {| r with i_sleep_until := None |}) db in
  (not_found_if_empty n instance_id, db').

(** The WHERE clause of the claim. *)
Definition claimable (r : instances_row) : bool :=
  bool_decide (is_Some (i_sleep_until r)) && bool_decide (i_status r = "suspended").

Definition op_claim_sleeping_instance (instance_id : string) (db : Db) :
  result CoreError bool * Db :=
  match instances db !! instance_id with
  | Some r =>
      if claimable r then
        let '(n, db') := update_instance instance_id (λ r, {| r with i_sleep_until := None |}) db in
        (Ok (n =? 1), db')
      else (Ok false, db)
  | None => (Ok false, db)
  end.

(** [sleep_until IS NOT NULL AND sleep_until <= NOW() AND status = 'suspended'] *)
Definition sleep_due (t : time) (r : instances_row) : bool :=
  match i_sleep_until r with
  | Some s => (s <=? t) && bool_decide (i_status r = "suspended")
  | None => false
  end.

(** The sort key [sleep_until]; rows without one are never selected. *)
Definition sleep_key (ir : string * instances_row) : Z := default 0 (i_sleep_until ir.2).

Definition op_get_sleeping_instances_due (c : stmt) (limit : Z) (db : Db) :
  result CoreError (list InstanceRecord) :=
  if limit <? 0 then Err (from_sqlx_error (msg c))
  else Ok ((λ ir, listing_of_row ir.1 ir.2) <$>
         sql_limit limit
           (order_by sleep_key
              (filter (λ ir, sleep_due (now c) ir.2 = true) (map_to_list (instances db))))).

(** ** Checkpoint operations *)

Definition op_save_checkpoint (c : stmt) (instance_id checkpoint_id : string) (state : bytes)
  (db : Db) : result CoreError unit * Db :=
  match instances db !! instance_id with
  | None => (Err (wrap_checkpoint_save (msg c) instance_id), db)
  | Some _ =>
      let row :=
        match checkpoints db !! (instance_id, checkpoint_id) with
        | Some r => {| r with c_state := state; c_created_at := now c |}
        | None =>
            {| c_id := checkpoints_seq db; c_state := state; c_created_at := now c;
               c_is_retry_attempt := false; c_attempt_number := None;
               c_error_message := None |}
        end in
      (Ok tt,
       {| db with checkpoints := <[(instance_id, checkpoint_id) := row]> (checkpoints db);
                  checkpoints_seq := checkpoints_seq db + 1 |})
  end.

(** The columns the checkpoint queries select. *)
Definition checkpoint_of_row (key : string * string) (r : checkpoints_row) : CheckpointRecord :=
  {| cp_id := c_id r;
     cp_instance_id := key.1;
     cp_checkpoint_id := key.2;
     cp_state := c_state r;
     cp_created_at := c_created_at r;
     cp_is_compensatable := false;
     cp_compensation_step_id := None;
     cp_compensation_data := None;
     cp_compensation_state := None;
     cp_compensation_order := 0 |}.

Definition op_load_checkpoint (instance_id checkpoint_id : string) (db : Db) :
  result CoreError (option CheckpointRecord) :=
  Ok (checkpoint_of_row (instance_id, checkpoint_id)
        <$> checkpoints db !! (instance_id, checkpoint_id)).

(** The WHERE clause [list_checkpoints] and [count_checkpoints] share. *)
Definition checkpoint_matches (instance_id : string) (checkpoint_id : option string)
  (created_after created_before : option time)
  (kr : (string * string) * checkpoints_row) : bool :=
  bool_decide (kr.1.1 = instance_id)
  && match checkpoint_id with None => true | Some c => bool_decide (kr.1.2 = c) end
  && match created_after with None => true | Some t => t <=? c_created_at kr.2 end
  && match created_before with None => true | Some t => c_created_at kr.2 <? t end.

Definition matching_checkpoints (instance_id : string) (checkpoint_id : option string)
  (created_after created_before : option time) (db : Db) :
  list ((string * string) * checkpoints_row) :=
  filter (λ kr, checkpoint_matches instance_id checkpoint_id created_after created_before kr
                = true) (map_to_list (checkpoints db)).

Definition op_list_checkpoints (c : stmt) (instance_id : string) (checkpoint_id : option string)
  (limit offset : Z) (created_after created_before : option time) (db : Db) :
  result CoreError (list CheckpointRecord) :=
  if negb (bounds_ok limit offset) then Err (from_sqlx_error (msg c))
  else Ok ((λ kr, checkpoint_of_row kr.1 kr.2) <$>
         sql_limit limit (sql_offset offset
           (order_by (λ kr, - c_created_at kr.2)
              (matching_checkpoints instance_id checkpoint_id created_after created_before db)))).

Definition op_count_checkpoints (instance_id : string) (checkpoint_id : option string)
  (created_after created_before : option time) (db : Db) : result CoreError Z :=
  Ok (Z.of_nat (length
        (matching_checkpoints instance_id checkpoint_id created_after created_before db))).

(** [postgres::load_latest_checkpoint] *)
Definition op_load_latest_checkpoint (instance_id : string) (db : Db) :
  result CoreError (option CheckpointRecord) :=
  Ok ((λ kr, checkpoint_of_row kr.1 kr.2) <$>
        head (order_by (λ kr, - c_created_at kr.2)
                (matching_checkpoints instance_id None None None db))).

(** The key of a retry-attempt row: [format!("{}::retry::{}", id, n)]. *)
Definition retry_checkpoint_id (checkpoint_id : string) (attempt_number : Z) : string :=
  checkpoint_id +:+ "::retry::" +:+ show_Z attempt_number.

Definition op_save_retry_attempt (c : stmt) (instance_id checkpoint_id : string)
  (attempt_number : Z) (error_message : option string) (db : Db) :
  result CoreError unit * Db :=
  let key := (instance_id, retry_checkpoint_id checkpoint_id attempt_number) in
  match instances db !! instance_id with
  | None => (Err (CheckpointSaveFailed instance_id (msg c)), db)
  | Some _ =>
      let row :=
        match checkpoints db !! key with
        | Some r =>
            {| r with c_attempt_number := Some attempt_number;
                      c_error_message := error_message; c_created_at := now c |}
        | None =>
            {| c_id := checkpoints_seq db; c_state := []; c_created_at := now c;
               c_is_retry_attempt := true; c_attempt_number := Some attempt_number;
               c_error_message := error_message |}
        end in
      (Ok tt, {| db with checkpoints := <[key := row]> (checkpoints db);
                         checkpoints_seq := checkpoints_seq db + 1 |})
  end.

(** ** Event and signal operations *)

Definition op_insert_event (c : stmt) (event : EventRecord) (db : Db) :
  result CoreError unit * Db :=
  match instances db !! ev_instance_id event with
  | None => (Err (from_sqlx_error (msg c)), db)
  | Some _ =>
      if negb (enum_ok instance_event_type_values (ev_event_type event)) then
        (Err (from_sqlx_error (msg c)), db)
      else
        let row :=
          {| e_id := events_seq db;
             e_instance_id := ev_instance_id event;
             e_event_type := ev_event_type event;
             e_checkpoint_id := ev_checkpoint_id event;
             e_payload := ev_payload event;
             e_created_at := ev_created_at event;
             e_subtype := ev_subtype event |} in
        (Ok tt, {| db with instance_events := instance_events db ++ [row];
                           events_seq := events_seq db + 1 |})
  end.

(** [if payload.is_empty() { None } else { Some(payload) }] *)
Definition payload_opt (payload : bytes) : option bytes :=
  match payload with [] => None | _ => Some payload end.

Definition op_insert_signal (c : stmt) (instance_id signal_type : string) (payload : bytes)
  (db : Db) : result CoreError unit * Db :=
  match instances db !! instance_id with
  | None => (Err (from_sqlx_error (msg c)), db)
  | Some _ =>
      if negb (enum_ok signal_type_values signal_type) then
        (Err (from_sqlx_error (msg c)), db)
      else
        (Ok tt,
         {| db with pending_signals := <[instance_id :=
              {| s_signal_type := signal_type; s_payload := payload_opt payload;
                 s_created_at := now c; s_acknowledged_at := None |}]> (pending_signals db) |})
  end.

Definition op_get_pending_signal (instance_id : string) (db : Db) :
  result CoreError (option SignalRecord) :=
  Ok (r ← pending_signals db !! instance_id;
      match s_acknowledged_at r with
      | None =>
          Some {| sig_instance_id := instance_id; sig_signal_type := s_signal_type r;
                  sig_payload := s_payload r; sig_created_at := s_created_at r;
                  sig_acknowledged_at := s_acknowledged_at r |}
      | Some _ => None
      end).

Definition op_acknowledge_signal (c : stmt) (instance_id : string) (db : Db) :
  result CoreError unit * Db :=
  match pending_signals db !! instance_id with
  | Some r =>
      match s_acknowledged_at r with
      | None =>
          (Ok tt, {| db with pending_signals :=
                       <[instance_id := {| r with s_acknowledged_at := Some (now c) |}]>
                         (pending_signals db) |})
      | Some _ => (Ok tt, db)
      end
  | None => (Ok tt, db)
  end.

Definition op_insert_custom_signal (c : stmt) (instance_id checkpoint_id : string)
  (payload : bytes) (db : Db) : result CoreError unit * Db :=
  match instances db !! instance_id with
  | None => (Err (from_sqlx_error (msg c)), db)
  | Some _ =>
      (Ok tt,
       {| db with pending_checkpoint_signals := <[(instance_id, checkpoint_id) :=
            {| x_payload := payload_opt payload; x_created_at := now c |}]>
            (pending_checkpoint_signals db) |})
  end.

(** A plain SELECT: the row stays. *)
Definition op_take_pending_custom_signal (instance_id checkpoint_id : string) (db : Db) :
  result CoreError (option CustomSignalRecord) :=
  Ok ((λ r, {| csr_instance_id := instance_id; csr_checkpoint_id := checkpoint_id;
               csr_payload := x_payload r; csr_created_at := x_created_at r |})
        <$> pending_checkpoint_signals db !! (instance_id, checkpoint_id)).

(** ** Retention operations *)

(** [status IN ('completed','failed','cancelled') AND finished_at < $1] *)
Definition terminal_older_than (t : time) (r : instances_row) : bool :=
  bool_decide (i_status r ∈ ["completed"; "failed"; "cancelled"])
  && match i_finished_at r with Some f => f <? t | None => false end.

Definition op_get_terminal_instances_older_than (c : stmt) (older_than : time) (limit : Z)
  (db : Db) : result CoreError (list string) :=
  if limit <? 0 then Err (from_sqlx_error (msg c))
  else Ok (fst <$> sql_limit limit
         (order_by (λ ir, default 0 (i_finished_at ir.2))
            (filter (λ ir, terminal_older_than older_than ir.2 = true)
               (map_to_list (instances db))))).

(** [DELETE FROM instances WHERE instance_id = ANY($1)], with the
    [ON DELETE CASCADE] of the child tables. *)
Definition delete_cascade (ids : list string) (db : Db) : Db :=
  {| db with
     instances := filter (λ ir : string * instances_row, ir.1 ∉ ids) (instances db);
     checkpoints :=
       filter (λ kr : (string * string) * checkpoints_row, kr.1.1 ∉ ids) (checkpoints db);
     instance_events := filter (λ e, e_instance_id e ∉ ids) (instance_events db);
     pending_signals :=
       filter (λ ir : string * signals_row, ir.1 ∉ ids) (pending_signals db);
     pending_checkpoint_signals :=
       filter (λ kr : (string * string) * csignals_row, kr.1.1 ∉ ids)
         (pending_checkpoint_signals db) |}.

Definition op_delete_instances_batch (instance_ids : list string) (db : Db) :
  result CoreError Z * Db :=
  match instance_ids with
  | [] => (Ok 0, db)
  | _ =>
      let db' := delete_cascade instance_ids db in
      (Ok (Z.of_nat (size (instances db)) - Z.of_nat (size (instances db'))), db')
  end.
