(* ===== verification/EnvTables.v ===== *)
(** * runtara-environment: its own tables

    The environment schema (images, instance-image associations, the
    container registry with its cancellation, status and heartbeat tables)
    and the queries of [container_registry.rs], [image_registry.rs] and the
    instance-image part of [db.rs].  Queries return the driver's error text;
    like the core operations each one is a single atomic statement (or, for
    [cleanup], one transaction). *)

From S2P Require Import Prelude.
From S2P Require Import CoreTypes.
From S2P Require Import Json.
From S2P Require Import Persistence.

(** ** Data *)

Inductive RunnerType := Wasm.

Record Image := {
  img_image_id : string;
  img_tenant_id : string;
  img_name : string;
  img_description : option string;
  img_binary_path : string;
  img_bundle_path : option string;
  img_runner_type : RunnerType;
  img_created_at : time;
  img_updated_at : time;
  img_metadata : option json }.

Record ContainerInfo := {
  ci_container_id : string;
  ci_instance_id : string;
  ci_tenant_id : string;
  ci_binary_path : string;
  ci_bundle_path : option string;
  ci_started_at : time;
  ci_pid : option Z;
  ci_timeout_seconds : option Z;
  ci_process_killed : bool }.

Record CancellationRequest := {
  cq_instance_id : string;
  cq_requested_at : time;
  cq_grace_period_seconds : Z;
  cq_reason : string }.

Inductive ContainerStatus :=
| CsRunning (updated_at : time)
| CsCompleted (updated_at : time) (output : option json)
| CsFailed (updated_at : time) (error : string)
| CsCancelled (updated_at : time).

Definition cs_is_terminal (s : ContainerStatus) : bool :=
  match s with
  | CsCompleted _ _ | CsFailed _ _ | CsCancelled _ => true
  | CsRunning _ => false
  end.

Definition cs_status_str (s : ContainerStatus) : string :=
  match s with
  | CsRunning _ => "running"
  | CsCompleted _ _ => "completed"
  | CsFailed _ _ => "failed"
  | CsCancelled _ => "cancelled"
  end.

Definition cs_updated_at (s : ContainerStatus) : time :=
  match s with
  | CsRunning t => t
  | CsCompleted t _ => t
  | CsFailed t _ => t
  | CsCancelled t => t
  end.

(** A row of [instance_images]; the JSONB [env] column holds a string map. *)
Record iimage_row := {
  ii_image_id : string;
  ii_tenant_id : string;
  ii_env : option (gmap string string);
  ii_timeout_seconds : option Z;
  ii_created_at : time }.

Record EnvDb := {
  images : gmap string Image;
  instance_images : gmap string iimage_row;
  container_registry : gmap string ContainerInfo;
  container_cancellations : gmap string CancellationRequest;
  container_status : gmap string ContainerStatus;
  container_heartbeats : gmap string time }.

Definition empty_env : EnvDb :=
  {| images := ∅; instance_images := ∅; container_registry := ∅;
     container_cancellations := ∅; container_status := ∅; container_heartbeats := ∅ |}.

(** ** Images *)

(** The row another registration of the same [(tenant_id, name)] left. *)
Definition image_named (tenant_id name : string) (db : EnvDb) : option Image :=
  snd <$> head (filter (λ ki : string * Image,
                  img_tenant_id ki.2 = tenant_id ∧ img_name ki.2 = name)
                (map_to_list (images db))).

(** Upsert on [(tenant_id, name)]: the first registration's [image_id] and
    [created_at] are kept.  A clash on the primary key alone is an error. *)
Definition image_register (c : stmt) (image : Image) (db : EnvDb) : result string unit * EnvDb :=
  match image_named (img_tenant_id image) (img_name image) db with
  | Some old =>
      let new :=
        {| image with img_image_id := img_image_id old;
                      img_created_at := img_created_at old |} in
      (Ok tt, {| db with images := <[img_image_id old := new]> (images db) |})
  | None =>
      match images db !! img_image_id image with
      | Some _ => (Err (msg c), db)
      | None => (Ok tt, {| db with images := <[img_image_id image := image]> (images db) |})
      end
  end.

Definition image_get (image_id : string) (db : EnvDb) : result string (option Image) :=
  Ok (images db !! image_id).

Definition image_get_by_name (tenant_id name : string) (db : EnvDb) :
  result string (option Image) :=
  Ok (image_named tenant_id name db).

(** ** Instance images *)

(** [env.filter(|e| !e.is_empty())] *)
Definition nonempty_env (env : option (gmap string string)) : option (gmap string string) :=
  match env with
  | Some e => if decide (e = ∅) then None else Some e
  | None => None
  end.

Definition associate_instance_image (c : stmt) (instance_id image_id tenant_id : string)
  (env : option (gmap string string)) (timeout_seconds : option Z) (db : EnvDb) :
  result string unit * EnvDb :=
  match images db !! image_id with
  | None => (Err (msg c), db)
  | Some _ =>
      let row :=
        {| ii_image_id := image_id; ii_tenant_id := tenant_id; ii_env := nonempty_env env;
           ii_timeout_seconds := timeout_seconds;
           ii_created_at := match instance_images db !! instance_id with
                            | Some r => ii_created_at r
                            | None => now c
                            end |} in
      (Ok tt, {| db with instance_images := <[instance_id := row]> (instance_images db) |})
  end.

Definition get_instance_timeout_seconds (instance_id : string) (db : EnvDb) :
  result string (option Z) :=
  Ok (r ← instance_images db !! instance_id; ii_timeout_seconds r).

Definition get_instance_image_id (instance_id : string) (db : EnvDb) :
  result string (option string) :=
  Ok (ii_image_id <$> instance_images db !! instance_id).

Definition get_instance_image_with_env (instance_id : string) (db : EnvDb) :
  result string (option (string * gmap string string)) :=
  Ok ((λ r, (ii_image_id r, default ∅ (ii_env r))) <$> instance_images db !! instance_id).

Definition remove_instance_image (instance_id : string) (db : EnvDb) :
  result string unit * EnvDb :=
  (Ok tt, {| db with instance_images := delete instance_id (instance_images db) |}).

(** ** Container registry *)

(** On conflict every column but [tenant_id] is replaced. *)
Definition registry_register (info : ContainerInfo) (db : EnvDb) : result string unit * EnvDb :=
  let tenant :=
    match container_registry db !! ci_instance_id info with
    | Some old => ci_tenant_id old
    | None => ci_tenant_id info
    end in
  let row := {| info with ci_tenant_id := tenant; ci_process_killed := false |} in
  (Ok tt,
   {| db with container_registry := <[ci_instance_id info := row]> (container_registry db) |}).

Definition registry_unregister (instance_id : string) (db : EnvDb) : result string unit * EnvDb :=
  (Ok tt, {| db with container_registry := delete instance_id (container_registry db) |}).

Definition registry_list (tenant_id : string) (db : EnvDb) : result string (list ContainerInfo) :=
  Ok (filter (λ ci, ci_tenant_id ci = tenant_id)
        (snd <$> map_to_list (container_registry db))).

Definition registry_list_all (db : EnvDb) : result string (list ContainerInfo) :=
  Ok (snd <$> map_to_list (container_registry db)).

Definition registry_get (instance_id : string) (db : EnvDb) :
  result string (option ContainerInfo) :=
  Ok (container_registry db !! instance_id).

Definition registry_update_pid (instance_id : string) (pid : Z) (db : EnvDb) :
  result string unit * EnvDb :=
  (Ok tt,
   {| db with container_registry :=
        alter (λ ci, {| ci with ci_pid := Some pid |}) instance_id (container_registry db) |}).

(** [grace_period.as_secs() as i32] *)
Definition request_cancellation (c : stmt) (instance_id : string) (grace_secs : Z)
  (reason : string) (db : EnvDb) : result string unit * EnvDb :=
  (Ok tt,
   {| db with container_cancellations := <[instance_id :=
        {| cq_instance_id := instance_id; cq_requested_at := now c;
           cq_grace_period_seconds := wrap_i32 grace_secs; cq_reason := reason |}]>
        (container_cancellations db) |}).

Definition check_cancellation (instance_id : string) (db : EnvDb) :
  result string (option CancellationRequest) :=
  Ok (container_cancellations db !! instance_id).

Definition clear_cancellation (instance_id : string) (db : EnvDb) :
  result string unit * EnvDb :=
  (Ok tt,
   {| db with container_cancellations := delete instance_id (container_cancellations db) |}).

Definition report_status (instance_id : string) (status : ContainerStatus) (db : EnvDb) :
  result string unit * EnvDb :=
  (Ok tt, {| db with container_status := <[instance_id := status]> (container_status db) |}).

Definition get_status (instance_id : string) (db : EnvDb) :
  result string (option ContainerStatus) :=
  Ok (container_status db !! instance_id).

Definition clear_status (instance_id : string) (db : EnvDb) : result string unit * EnvDb :=
  (Ok tt, {| db with container_status := delete instance_id (container_status db) |}).

Definition send_heartbeat (c : stmt) (instance_id : string) (db : EnvDb) :
  result string unit * EnvDb :=
  (Ok tt, {| db with container_heartbeats := <[instance_id := now c]> (container_heartbeats db) |}).

(** Within the last 60 seconds. *)
Definition has_heartbeat (c : stmt) (instance_id : string) (db : EnvDb) : result string bool :=
  Ok (match container_heartbeats db !! instance_id with
      | Some t => now c - 60 * 1000000 <? t
      | None => false
      end).

Definition get_heartbeat (instance_id : string) (db : EnvDb) : result string (option time) :=
  Ok (container_heartbeats db !! instance_id).

Definition clear_heartbeat (instance_id : string) (db : EnvDb) : result string unit * EnvDb :=
  (Ok tt, {| db with container_heartbeats := delete instance_id (container_heartbeats db) |}).

Definition mark_process_killed (instance_id : string) (db : EnvDb) :
  result string unit * EnvDb :=
  (Ok tt,
   {| db with container_registry :=
        alter (λ ci, {| ci with ci_process_killed := true |}) instance_id
          (container_registry db) |}).

Definition get_unkilled_containers (db : EnvDb) : result string (list ContainerInfo) :=
  Ok (filter (λ ci, is_Some (ci_pid ci) ∧ ci_process_killed ci = false)
        (snd <$> map_to_list (container_registry db))).

(** One transaction over the four container tables. *)
Definition registry_cleanup (instance_id : string) (db : EnvDb) : result string unit * EnvDb :=
  (Ok tt,
   {| db with container_registry := delete instance_id (container_registry db);
              container_status := delete instance_id (container_status db);
              container_cancellations := delete instance_id (container_cancellations db);
              container_heartbeats := delete instance_id (container_heartbeats db) |}).

(** The stale rows [cleanup_stale] selects: no heartbeat, or one older than 24 hours. *)
Definition stale_registered (cutoff : time) (db : EnvDb) : list string :=
  fst <$> filter (λ kc : string * ContainerInfo,
            match container_heartbeats db !! kc.1 with
            | None => true
            | Some t => t <? cutoff
            end = true) (map_to_list (container_registry db)).

(** ** The retention worker's transaction over the environment tables *)

Definition delete_environment_rows (ids : list string) (db : EnvDb) :
  result string unit * EnvDb :=
  let drop {A} (m : gmap string A) : gmap string A :=
    filter (λ ka : string * A, ka.1 ∉ ids) m in
  (Ok tt,
   {| db with container_registry := drop (container_registry db);
              container_status := drop (container_status db);
              container_cancellations := drop (container_cancellations db);
              container_heartbeats := drop (container_heartbeats db);
              instance_images := drop (instance_images db) |}).

(** ** The heartbeat monitor's join *)

Record StaleContainer := {
  sc_instance_id : string;
  sc_container_id : string;
  sc_tenant_id : string;
  sc_started_at : time;
  sc_last_activity : option time;
  sc_pid : option Z }.

(** [SELECT MAX(created_at) FROM instance_events WHERE instance_id = ...] *)
Definition last_activity (instance_id : string) (db : Db) : option time :=
  foldr (λ e acc,
    if decide (e_instance_id e = instance_id) then
      Some (match acc with None => e_created_at e | Some t => Z.max t (e_created_at e) end)
    else acc) None (instance_events db).

(** The WHERE clause of [get_stale_containers]. *)
Definition container_stale (cutoff : time) (db : Db) (ci : ContainerInfo) : bool :=
  match last_activity (ci_instance_id ci) db with
  | None => ci_started_at ci <? cutoff
  | Some t => t <? cutoff
  end.

Definition stale_containers (cutoff : time) (db : Db) (edb : EnvDb) :
  result string (list StaleContainer) :=
  Ok ((λ ci, {| sc_instance_id := ci_instance_id ci; sc_container_id := ci_container_id ci;
                sc_tenant_id := ci_tenant_id ci; sc_started_at := ci_started_at ci;
                sc_last_activity := last_activity (ci_instance_id ci) db;
                sc_pid := ci_pid ci |})
        <$> filter (λ ci, container_stale cutoff db ci = true)
              (snd <$> map_to_list (container_registry edb))).

(** [SELECT instance_id FROM container_registry] *)
Definition tracked_ids (edb : EnvDb) : result string (list string) :=
  Ok (fst <$> map_to_list (container_registry edb)).
