(* ===== verification/Effects.v ===== *)
(** * Programs with effects

    Handlers and background workers are asynchronous Rust functions whose only
    shared state is the database, two drain flags and the processes the runner
    starts.  Each [.await] on one of those is a place where another task may
    run and where the call may fail, so a handler is modelled as a program
    [prog A]: a tree of effects [eff X], each answered before the program
    goes on.

    - [pop] lists the operations of [trait Persistence]; [exec_pop] is the
      Postgres implementation of Persistence.v and [pop_failure] the error
      each operation returns when the driver fails.
    - [eop] lists the environment's own queries.
    - The remaining effects are the clock, the drain flags, the runner, the
      process table and the calls of agents.

    What the model does not decide (time passing between effects, driver
    failures, the answers of the runner and of agents) is read from a [tick].  A failing database
    call either had no effect ([Rejected]) or was committed with its reply lost
    ([LostReply]).  [run] executes a program alone on a stream of ticks;
    [pool_step] interleaves any number of programs, one effect at a time. *)

From S2P Require Import Prelude.
From S2P Require Import CoreTypes.
From S2P Require Import Json.
From S2P Require Import Persistence.
From S2P Require Import EnvTables.

(** ** Effects *)

(** [trait Persistence] (and the free function [load_latest_checkpoint]). *)
Inductive pop : Type → Type :=
| RegisterInstance (instance_id tenant_id : string) : pop unit
| GetInstance (instance_id : string) : pop (option InstanceRecord)
| UpdateInstanceStatus (instance_id status : string) (started_at : option time) : pop unit
| UpdateInstanceCheckpoint (instance_id checkpoint_id : string) : pop unit
| CompleteInstance (params : CompleteInstanceParams) : pop bool
| SaveCheckpoint (instance_id checkpoint_id : string) (state : bytes) : pop unit
| LoadCheckpoint (instance_id checkpoint_id : string) : pop (option CheckpointRecord)
| ListCheckpoints (instance_id : string) (checkpoint_id : option string) (limit offset : Z)
    (created_after created_before : option time) : pop (list CheckpointRecord)
| CountCheckpoints (instance_id : string) (checkpoint_id : option string)
    (created_after created_before : option time) : pop Z
| LoadLatestCheckpoint (instance_id : string) : pop (option CheckpointRecord)
| SaveRetryAttempt (instance_id checkpoint_id : string) (attempt : Z)
    (error_message : option string) : pop unit
| InsertEvent (event : EventRecord) : pop unit
| InsertSignal (instance_id signal_type : string) (payload : bytes) : pop unit
| GetPendingSignal (instance_id : string) : pop (option SignalRecord)
| AcknowledgeSignal (instance_id : string) : pop unit
| InsertCustomSignal (instance_id checkpoint_id : string) (payload : bytes) : pop unit
| TakePendingCustomSignal (instance_id checkpoint_id : string) : pop (option CustomSignalRecord)
| ListInstances (tenant_id status : option string) (limit offset : Z) : pop (list InstanceRecord)
| HealthCheckDb : pop bool
| CountActiveInstances : pop Z
| SetInstanceSleep (instance_id : string) (sleep_until : time) : pop unit
| ClearInstanceSleep (instance_id : string) : pop unit
| ClaimSleepingInstance (instance_id : string) : pop bool
| MarkForRecovery (instance_id : string) (attempt : Z) (marker : option string) : pop unit
| GetSleepingInstancesDue (limit : Z) : pop (list InstanceRecord)
| UpdateInstanceMetrics (instance_id : string) (memory cpu : option Z) : pop unit
| UpdateInstanceStderr (instance_id stderr : string) : pop unit
| StoreInstanceInput (instance_id : string) (input : bytes) : pop unit
| GetTerminalInstancesOlderThan (older_than : time) (limit : Z) : pop (list string)
| DeleteInstancesBatch (instance_ids : list string) : pop Z.

(** The environment's own queries. *)
Inductive eop : Type → Type :=
| ImageRegister (image : Image) : eop unit
| ImageGet (image_id : string) : eop (option Image)
| ImageGetByName (tenant_id name : string) : eop (option Image)
| AssociateInstanceImage (instance_id image_id tenant_id : string)
    (env : option (gmap string string)) (timeout : option Z) : eop unit
| InstanceTimeoutSeconds (instance_id : string) : eop (option Z)
| InstanceImageId (instance_id : string) : eop (option string)
| InstanceImageWithEnv (instance_id : string) : eop (option (string * gmap string string))
| EnvGetInstance (instance_id : string) : eop (option InstanceRecord)
| RegistryRegister (info : ContainerInfo) : eop unit
| RegistryGet (instance_id : string) : eop (option ContainerInfo)
| RegistryListAll : eop (list ContainerInfo)
| RegistryCleanup (instance_id : string) : eop unit
| RequestCancellation (instance_id : string) (grace_secs : Z) (reason : string) : eop unit
| MarkProcessKilled (instance_id : string) : eop unit
| GetUnkilledContainers : eop (list ContainerInfo)
| GetStaleContainers (cutoff : time) : eop (list StaleContainer)
| TrackedIds : eop (list string)
| DeleteEnvironmentRows (ids : list string) : eop unit.

(** [runner::LaunchOptions]; durations are whole seconds here. *)
Record LaunchOptions := {
  lo_instance_id : string;
  lo_tenant_id : string;
  lo_bundle_path : string;
  lo_input : json;
  lo_timeout : Z;
  lo_core_addr : string;
  lo_checkpoint_id : option string;
  lo_env : gmap string string }.

(** [runner::RunnerHandle] without the child and metrics handles. *)
Record RunnerHandle := {
  rh_handle_id : string;
  rh_instance_id : string;
  rh_tenant_id : string;
  rh_started_at : time;
  rh_spawned_pid : option Z }.

(** [runner::ContainerMetrics], the two fields that are persisted. *)
Record ContainerMetrics := {
  cm_memory_peak_bytes : option Z;
  cm_cpu_usage_usec : option Z }.

(** [error-info] of the agent interface: what a failed call of an agent says. *)
Record ErrorInfo := {
  ei_code : string;
  ei_message : string;
  ei_category : string;
  ei_severity : string;
  ei_retryable : bool;
  ei_retry_after_ms : option Z;
  ei_attributes : option string }.

(** What [spawn_container_monitor] captures. *)
Record MonitorArgs := {
  ma_handle : RunnerHandle;
  ma_timeout : Z;
  ma_pid : option Z }.

Inductive eff : Type → Type :=
| Pers {A} (o : pop A) : eff (result CoreError A)
| Env {A} (o : eop A) : eff (result string A)
| UtcNow : eff time
| CoreDraining : eff bool
| EnvDraining : eff bool
| SetEnvDraining : eff unit
| SetCoreDraining : eff unit
| NewUuid : eff string
| IsFile (path : string) : eff bool
| LaunchDetached (o : LaunchOptions) : eff (result string RunnerHandle)
| GetPid (h : RunnerHandle) : eff (option Z)
| StopRunner (h : RunnerHandle) : eff (result string unit)
| ExitBeforeTimeout (h : RunnerHandle) (timeout : Z) : eff bool
| CollectResult (h : RunnerHandle) : eff (option string * ContainerMetrics)
| SpawnMonitor (m : MonitorArgs) : eff unit
| KillPid (pid : Z) : eff bool
| PidAlive (pid : Z) : eff bool
| Sleep (ms : Z) : eff unit
| InvokeAgent (instance_id component capability_id : string) (input : bytes) :
    eff (result ErrorInfo bytes).

(** ** Programs *)

Inductive prog (A : Type) : Type :=
| Ret (a : A)
| Vis {X : Type} (e : eff X) (k : X → prog A).

Arguments Ret {A} a.
Arguments Vis {A X} e k.

Fixpoint bind {A B} (p : prog A) (f : A → prog B) : prog B :=
  match p with
  | Ret a => f a
  | Vis e k => Vis e (λ x, bind (k x) f)
  end.

Definition trigger {X} (e : eff X) : prog X := Vis e Ret.

(** Sequencing, and the [?] operator on a fallible step. *)
Notation "'let!' x ':=' p 'in' q" := (bind p (λ x, q))
  (at level 10, x pattern, p at level 100, q at level 200) : runtara_scope.

Definition bind_ok {E A B} (p : prog (result E A)) (f : A → prog (result E B)) :
  prog (result E B) :=
  bind p (λ r, match r with Ok a => f a | Err e => Ret (Err e) end).

Notation "'let?' x ':=' p 'in' q" := (bind_ok p (λ x, q))
  (at level 10, x pattern, p at level 100, q at level 200) : runtara_scope.

Definition pers {A} (o : pop A) : prog (result CoreError A) := trigger (Pers o).
Definition env {A} (o : eop A) : prog (result string A) := trigger (Env o).

Definition ok {E A} (a : A) : prog (result E A) := Ret (Ok a).
Definition err {E A} (e : E) : prog (result E A) := Ret (Err e).

(** ** The world *)

(** Observable actions on processes. *)
Inductive obs : Type :=
| Launched (o : LaunchOptions) (h : RunnerHandle)
| Stopped (h : RunnerHandle)
| MonitorSpawned (m : MonitorArgs)
| Killed (pid : Z)
| Invoked (instance_id component capability_id : string) (input : bytes).

Record world := {
  w_db : Db;
  w_env : EnvDb;
  w_now : time;
  w_core_draining : bool;
  w_env_draining : bool;
  w_log : list obs }.

Inductive fault := Completes | Rejected | LostReply.

(** What the environment of a program decides at one effect. *)
Record tick := {
  t_fault : fault;
  t_dt : N;
  t_msg : string;
  t_flag : bool;
  t_str : string;
  t_pid : option Z;
  t_stderr : option string;
  t_metrics : ContainerMetrics;
  t_answer : result ErrorInfo bytes }.

Definition quiet : tick :=
  {| t_fault := Completes; t_dt := 1%N; t_msg := ""; t_flag := true; t_str := "uuid";
     t_pid := None; t_stderr := None;
     t_metrics := {| cm_memory_peak_bytes := None; cm_cpu_usage_usec := None |};
     t_answer := Ok [] |}.

(** ** Interpretation *)

Definition exec_pop (c : stmt) {A} (o : pop A) (db : Db) : result CoreError A * Db :=
  match o in pop A return result CoreError A * Db with
  | RegisterInstance i t => op_register_instance c i t db
  | GetInstance i => (op_get_instance i db, db)
  | UpdateInstanceStatus i s t => op_update_instance_status c i s t db
  | UpdateInstanceCheckpoint i k => op_update_instance_checkpoint i k db
  | CompleteInstance p => op_complete_instance_unified c p db
  | SaveCheckpoint i k st => op_save_checkpoint c i k st db
  | LoadCheckpoint i k => (op_load_checkpoint i k db, db)
  | ListCheckpoints i k l o a b => (op_list_checkpoints c i k l o a b db, db)
  | CountCheckpoints i k a b => (op_count_checkpoints i k a b db, db)
  | LoadLatestCheckpoint i => (op_load_latest_checkpoint i db, db)
  | SaveRetryAttempt i k n m => op_save_retry_attempt c i k n m db
  | InsertEvent e => op_insert_event c e db
  | InsertSignal i s p => op_insert_signal c i s p db
  | GetPendingSignal i => (op_get_pending_signal i db, db)
  | AcknowledgeSignal i => op_acknowledge_signal c i db
  | InsertCustomSignal i k p => op_insert_custom_signal c i k p db
  | TakePendingCustomSignal i k => (op_take_pending_custom_signal i k db, db)
  | ListInstances t s l o => (op_list_instances c t s l o db, db)
  | HealthCheckDb => (Ok true, db)
  | CountActiveInstances => (op_count_active_instances db, db)
  | SetInstanceSleep i t => op_set_instance_sleep i t db
  | ClearInstanceSleep i => op_clear_instance_sleep i db
  | ClaimSleepingInstance i => op_claim_sleeping_instance i db
  | MarkForRecovery i a m => op_mark_for_recovery c i a m db
  | GetSleepingInstancesDue l => (op_get_sleeping_instances_due c l db, db)
  | UpdateInstanceMetrics i m u => op_update_instance_metrics i m u db
  | UpdateInstanceStderr i s => op_update_instance_stderr i s db
  | StoreInstanceInput i x => op_store_instance_input i x db
  | GetTerminalInstancesOlderThan t l => (op_get_terminal_instances_older_than c t l db, db)
  | DeleteInstancesBatch ids => op_delete_instances_batch ids db
  end.

(** The result of an operation whose driver call fails with text [m]. *)
Definition pop_failure (m : string) {A} (o : pop A) : result CoreError A :=
  match o in pop A return result CoreError A with
  | RegisterInstance _ _ => Err (DatabaseError "register_instance" m)
  | GetInstance _ => Err (DatabaseError "get_instance" m)
  | UpdateInstanceStatus _ _ _ => Err (DatabaseError "update_instance_status" m)
  | CompleteInstance _ => Err (DatabaseError "complete_instance" m)
  | SaveCheckpoint i _ _ => Err (wrap_checkpoint_save m i)
  | LoadCheckpoint _ _ => Err (DatabaseError "load_checkpoint" m)
  | SaveRetryAttempt i _ _ _ => Err (CheckpointSaveFailed i m)
  | GetPendingSignal _ => Err (DatabaseError "get_pending_signal" m)
  | AcknowledgeSignal _ => Err (DatabaseError "acknowledge_signal" m)
  | HealthCheckDb => Ok false
  | SetInstanceSleep _ _ => Err (DatabaseError "set_instance_sleep" m)
  | ClaimSleepingInstance _ => Err (DatabaseError "claim_sleeping_instance" m)
  | MarkForRecovery _ _ _ => Err (DatabaseError "mark_for_recovery" m)
  | _ => Err (from_sqlx_error m)
  end.

Definition exec_eop (c : stmt) {A} (o : eop A) (db : Db) (edb : EnvDb) :
  result string A * EnvDb :=
  match o in eop A return result string A * EnvDb with
  | ImageRegister i => image_register c i edb
  | ImageGet i => (image_get i edb, edb)
  | ImageGetByName t n => (image_get_by_name t n edb, edb)
  | AssociateInstanceImage i im t e s => associate_instance_image c i im t e s edb
  | InstanceTimeoutSeconds i => (get_instance_timeout_seconds i edb, edb)
  | InstanceImageId i => (get_instance_image_id i edb, edb)
  | InstanceImageWithEnv i => (get_instance_image_with_env i edb, edb)
  | EnvGetInstance i => (Ok (record_of_row i <$> instances db !! i), edb)
  | RegistryRegister i => registry_register i edb
  | RegistryGet i => (registry_get i edb, edb)
  | RegistryListAll => (registry_list_all edb, edb)
  | RegistryCleanup i => registry_cleanup i edb
  | RequestCancellation i g r => request_cancellation c i g r edb
  | MarkProcessKilled i => mark_process_killed i edb
  | GetUnkilledContainers => (get_unkilled_containers edb, edb)
  | GetStaleContainers t => (stale_containers t db edb, edb)
  | TrackedIds => (tracked_ids edb, edb)
  | DeleteEnvironmentRows ids => delete_environment_rows ids edb
  end.

(** The clock moves on before every effect. *)
Definition advance (t : tick) (w : world) : world :=
  {| w with w_now := w_now w + Z.of_N (t_dt t) |}.

Definition stmt_of (t : tick) (w : world) : stmt := {| now := w_now w; msg := t_msg t |}.

(** A database call: what it returns and what it leaves, under a fault. *)
Definition faulty {R S} (f : fault) (failure : R) (s : S) (rs : R * S) : R * S :=
  match f with
  | Completes => rs
  | Rejected => (failure, s)
  | LostReply => (failure, rs.2)
  end.

Definition perform_now (t : tick) (w : world) {X} (e : eff X) : X * world :=
  match e in eff X return X * world with
  | Pers o =>
      let '(r, db) := faulty (t_fault t) (pop_failure (t_msg t) o) (w_db w)
                        (exec_pop (stmt_of t w) o (w_db w)) in
      (r, {| w with w_db := db |})
  | Env o =>
      let '(r, edb) := faulty (t_fault t) (Err (t_msg t)) (w_env w)
                         (exec_eop (stmt_of t w) o (w_db w) (w_env w)) in
      (r, {| w with w_env := edb |})
  | UtcNow => (w_now w, w)
  | CoreDraining => (w_core_draining w, w)
  | EnvDraining => (w_env_draining w, w)
  | SetEnvDraining => (tt, {| w with w_env_draining := true |})
  | SetCoreDraining => (tt, {| w with w_core_draining := true |})
  | NewUuid => (t_str t, w)
  | IsFile _ => (t_flag t, w)
  | LaunchDetached o =>
      match t_fault t with
      | Completes =>
          let h := {| rh_handle_id := t_str t; rh_instance_id := lo_instance_id o;
                      rh_tenant_id := lo_tenant_id o; rh_started_at := w_now w;
                      rh_spawned_pid := t_pid t |} in
          (Ok h, {| w with w_log := w_log w ++ [Launched o h] |})
      | _ => (Err (t_msg t), w)
      end
  | GetPid _ => (t_pid t, w)
  | StopRunner h =>
      match t_fault t with
      | Completes => (Ok tt, {| w with w_log := w_log w ++ [Stopped h] |})
      | _ => (Err (t_msg t), w)
      end
  | ExitBeforeTimeout _ _ => (t_flag t, w)
  | CollectResult _ => ((t_stderr t, t_metrics t), w)
  | SpawnMonitor m => (tt, {| w with w_log := w_log w ++ [MonitorSpawned m] |})
  | KillPid p => (t_flag t, {| w with w_log := w_log w ++ [Killed p] |})
  | PidAlive _ => (t_flag t, w)
  | Sleep ms => (tt, {| w with w_now := w_now w + 1000 * Z.max ms 0 |})
  | InvokeAgent i a c x => (t_answer t, {| w with w_log := w_log w ++ [Invoked i a c x] |})
  end.

Definition perform (t : tick) (w : world) {X} (e : eff X) : X * world :=
  perform_now t (advance t w) e.

(** A program on its own; the stream of ticks answers its effects in order. *)
Fixpoint run {A} (p : prog A) (ts : nat → tick) (w : world) : A * world :=
  match p with
  | Ret a => (a, w)
  | Vis e k => let '(x, w') := perform (ts O) w e in run (k x) (λ n, ts (S n)) w'
  end.

(** Some task of a pool performs its next effect. *)
Inductive pool_step : list (prog unit) * world → list (prog unit) * world → Prop :=
| step_task (l1 l2 : list (prog unit)) X (e : eff X) k t w x w' :
    perform t w e = (x, w') →
    pool_step (l1 ++ Vis e k :: l2, w) (l1 ++ k x :: l2, w').

(** A schedule: which task moves next, and the tick of its effect.  Entries
    that name no task or a finished one are skipped. *)
Fixpoint run_schedule (sched : list (nat * tick)) (c : list (prog unit) * world) :
  list (prog unit) * world :=
  match sched with
  | [] => c
  | (n, t) :: rest =>
      match c.1 !! n with
      | Some (Vis e k) =>
          let '(x, w') := perform t c.2 e in run_schedule rest (<[n := k x]> c.1, w')
      | _ => run_schedule rest c
      end
  end.

(** A task of any result type, as a pool entry. *)
Definition task {A} (p : prog A) : prog unit := bind p (λ _, Ret tt).

(** ** Reasoning principles *)

(** Every effect a program can perform, whatever the answers, satisfies [P]. *)
Fixpoint all_effs (P : ∀ X, eff X → Prop) {A} (p : prog A) : Prop :=
  match p with
  | Ret _ => True
  | Vis e k => P _ e ∧ ∀ x, all_effs P (k x)
  end.

(** The weakest precondition over every stream of ticks that satisfy [T]. *)
Fixpoint wp (T : tick → Prop) {A} (p : prog A) (Q : A → world → Prop) (w : world) : Prop :=
  match p with
  | Ret a => Q a w
  | Vis e k => ∀ t, T t → wp T (k (perform t w e).1) Q (perform t w e).2
  end.

(** Any tick, and a tick without a fault. *)
Definition anytime (_ : tick) : Prop := True.
Definition calm (t : tick) : Prop := t_fault t = Completes.

(** An effect takes the world along [R], whatever its tick. *)
Class Guarantees (R : world → world → Prop) {X} (e : eff X) : Prop :=
  guarantees t w : R w (perform t w e).2.

(** A persistence operation takes the core database along [R]. *)
Class DbGuarantees (R : Db → Db → Prop) {A} (o : pop A) : Prop :=
  db_guarantees c db : R db (exec_pop c o db).2.

(** A relation on databases, lifted to worlds. *)
Definition on_db (R : Db → Db → Prop) (w w' : world) : Prop := R (w_db w) (w_db w').

(** Preservation of an invariant as a relation. *)
Definition preserving {S} (I : S → Prop) (s s' : S) : Prop := I s → I s'.

(** Effects other than the core database. *)
Definition not_pers {X} (e : eff X) : Prop :=
  match e with Pers _ => False | _ => True end.

Lemma preserving_refl {S} (I : S → Prop) : Reflexive (preserving I).
Proof. firstorder. Qed.

Lemma preserving_trans {S} (I : S → Prop) : Transitive (preserving I).
Proof. firstorder. Qed.

#[export] Instance preserving_preorder {S} (I : S → Prop) : PreOrder (preserving I).
Proof. split; [apply preserving_refl|apply preserving_trans]. Qed.

#[export] Instance on_db_preorder R : PreOrder R → PreOrder (on_db R).
Proof. intros HR. split; unfold on_db; [intros w|intros w1 w2 w3]; [reflexivity|apply transitivity]. Qed.

Lemma all_effs_bind P {A B} (p : prog A) (f : A → prog B) :
  all_effs P p → (∀ a, all_effs P (f a)) → all_effs P (bind p f).
Proof.
  intros Hp Hf. induction p as [a|X e k IH]; simpl in *; [apply Hf|].
  destruct Hp as [He Hk]. split; [done|]. intros x. by apply IH.
Qed.

Lemma all_effs_impl (P Q : ∀ X, eff X → Prop) {A} (p : prog A) :
  (∀ X (e : eff X), P X e → Q X e) → all_effs P p → all_effs Q p.
Proof.
  intros HPQ. induction p as [a|X e k IH]; simpl; [done|].
  intros [He Hk]. split; [by apply HPQ|]. intros x. by apply IH.
Qed.

Lemma all_effs_trigger (P : ∀ X, eff X → Prop) {X} (e : eff X) :
  P X e → all_effs P (trigger e).
Proof. intros He. by split. Qed.

Lemma all_effs_bind_ok P {E A B} (p : prog (result E A)) (f : A → prog (result E B)) :
  all_effs P p → (∀ a, all_effs P (f a)) → all_effs P (bind_ok p f).
Proof.
  intros Hp Hf. apply all_effs_bind; [done|]. intros [a|e]; [apply Hf|done].
Qed.

(** What [wp] proves holds of every run. *)
Lemma wp_run T {A} (p : prog A) Q w :
  wp T p Q w → ∀ ts, (∀ n, T (ts n)) → Q (run p ts w).1 (run p ts w).2.
Proof.
  revert w. induction p as [a|X e k IH]; intros w; simpl; [done|].
  intros H ts HT. specialize (H (ts O) (HT O)).
  destruct (perform (ts O) w e) as [x w'] eqn:He. simpl in *. by apply IH.
Qed.

Lemma wp_mono T {A} (p : prog A) (Q Q' : A → world → Prop) w :
  (∀ a w', Q a w' → Q' a w') → wp T p Q w → wp T p Q' w.
Proof.
  intros HQ. revert w. induction p as [a|X e k IH]; intros w; simpl; [apply HQ|].
  intros H t Ht. apply IH; auto.
Qed.

Lemma wp_bind T {A B} (p : prog A) (f : A → prog B) Q w :
  wp T (bind p f) Q w ↔ wp T p (λ a w', wp T (f a) Q w') w.
Proof.
  revert w. induction p as [a|X e k IH]; intros w; simpl; [done|].
  split; intros H t Ht; apply IH; auto.
Qed.

Lemma wp_conj T {A} (p : prog A) (Q Q' : A → world → Prop) w :
  wp T p Q w → wp T p Q' w → wp T p (λ a w', Q a w' ∧ Q' a w') w.
Proof.
  revert w. induction p as [a|X e k IH]; intros w; simpl; [done|].
  intros H H' t Ht. apply IH; auto.
Qed.

Lemma wp_ret T {A} (a : A) (Q : A → world → Prop) w : Q a w → wp T (Ret a) Q w.
Proof. done. Qed.

(** One database call without a fault, at some later time [n]. *)
Lemma wp_pers_calm {A B} (o : pop A) (k : result CoreError A → prog B) Q w :
  (∀ n m, w_now w ≤ n →
     wp calm (k (exec_pop {| now := n; msg := m |} o (w_db w)).1) Q
       {| w with w_now := n; w_db := (exec_pop {| now := n; msg := m |} o (w_db w)).2 |}) →
  wp calm (Vis (Pers o) k) Q w.
Proof.
  intros H t Ht. unfold perform. simpl. rewrite Ht. simpl. unfold stmt_of. simpl.
  specialize (H (w_now w + Z.of_N (t_dt t)) (t_msg t) ltac:(lia)).
  by destruct (exec_pop _ o (w_db w)) as [r db].
Qed.

Lemma wp_env_calm {A B} (o : eop A) (k : result string A → prog B) Q w :
  (∀ n m, w_now w ≤ n →
     wp calm (k (exec_eop {| now := n; msg := m |} o (w_db w) (w_env w)).1) Q
       {| w with w_now := n;
                 w_env := (exec_eop {| now := n; msg := m |} o (w_db w) (w_env w)).2 |}) →
  wp calm (Vis (Env o) k) Q w.
Proof.
  intros H t Ht. unfold perform. simpl. rewrite Ht. simpl. unfold stmt_of. simpl.
  specialize (H (w_now w + Z.of_N (t_dt t)) (t_msg t) ltac:(lia)).
  by destruct (exec_eop _ o (w_db w) (w_env w)) as [r db].
Qed.

Lemma wp_utcnow_calm {B} (k : time → prog B) Q w :
  (∀ n, w_now w ≤ n → wp calm (k n) Q {| w with w_now := n |}) →
  wp calm (Vis UtcNow k) Q w.
Proof. intros H t Ht. apply H. simpl. lia. Qed.

Lemma wp_core_draining_calm {B} (k : bool → prog B) Q w :
  (∀ n, w_now w ≤ n → wp calm (k (w_core_draining w)) Q {| w with w_now := n |}) →
  wp calm (Vis CoreDraining k) Q w.
Proof. intros H t Ht. apply H. simpl. lia. Qed.

Lemma wp_env_draining_calm {B} (k : bool → prog B) Q w :
  (∀ n, w_now w ≤ n → wp calm (k (w_env_draining w)) Q {| w with w_now := n |}) →
  wp calm (Vis EnvDraining k) Q w.
Proof. intros H t Ht. apply H. simpl. lia. Qed.

(** Any other effect: its answer and its world come from a fault-free tick. *)
Lemma wp_vis T {X B} (e : eff X) (k : X → prog B) Q w :
  (∀ t, T t → wp T (k (perform t w e).1) Q (perform t w e).2) → wp T (Vis e k) Q w.
Proof. done. Qed.

(** One database call under any fault: it answers with its failure or its
    result, and was executed or not. *)
Lemma wp_pers_any T {A B} (o : pop A) (k : result CoreError A → prog B) Q w :
  (∀ n m, w_now w ≤ n →
     let c := {| now := n; msg := m |} in
     wp T (k (pop_failure m o)) Q {| w with w_now := n |} ∧
     wp T (k (pop_failure m o)) Q {| w with w_now := n; w_db := (exec_pop c o (w_db w)).2 |} ∧
     wp T (k (exec_pop c o (w_db w)).1) Q
       {| w with w_now := n; w_db := (exec_pop c o (w_db w)).2 |}) →
  wp T (Vis (Pers o) k) Q w.
Proof.
  intros H t Ht. unfold perform. simpl. unfold stmt_of. simpl.
  destruct (H (w_now w + Z.of_N (t_dt t)) (t_msg t) ltac:(lia)) as (H1 & H2 & H3).
  destruct (exec_pop _ o (w_db w)) as [r db]. simpl in *. by destruct (t_fault t).
Qed.

(** From here on programs are stepped with the lemmas above only. *)
#[global] Arguments wp T {A} p Q w : simpl never.

(** Results of programs: a bind inherits what its continuation guarantees. *)
Lemma run_bind {A B} (p : prog A) (f : A → prog B) ts w :
  ∃ ts', run (bind p f) ts w = run (f (run p ts w).1) ts' (run p ts w).2.
Proof.
  revert ts w. induction p as [a|X e k IH]; intros ts w; simpl; [by exists ts|].
  destruct (perform (ts O) w e) as [x w']. apply IH.
Qed.

Section guarantee.
Context (R : world → world → Prop) `{!PreOrder R}.

Lemma run_guarantee {A} (p : prog A) :
  all_effs (λ _, Guarantees R) p → ∀ ts w, R w (run p ts w).2.
Proof.
  induction p as [a|X e k IH]; intros Hp ts w; simpl; [done|].
  destruct Hp as [He Hk]. pose proof (He (ts O) w) as HR.
  destruct (perform (ts O) w e) as [x w']. simpl in *.
  etrans; [exact HR|]. by apply IH.
Qed.

Lemma wp_guarantee T {A} (p : prog A) (I : world → Prop) w :
  (∀ w1 w2, R w1 w2 → I w1 → I w2) →
  all_effs (λ _, Guarantees R) p → I w → wp T p (λ _ w', I w') w.
Proof.
  intros HI. revert w. induction p as [a|X e k IH]; intros w Hp Hw; [done|].
  intros t Ht. destruct Hp as [He Hk]. apply IH; [done|]. eapply HI; [apply He|done].
Qed.

(** Any interleaving of programs that each guarantee [R]. *)
Lemma pool_guarantee c c' :
  rtc pool_step c c' →
  Forall (all_effs (λ _, Guarantees R)) c.1 →
  R c.2 c'.2 ∧ Forall (all_effs (λ _, Guarantees R)) c'.1.
Proof.
  induction 1 as [c|c1 c2 c3 Hstep Hrest IH]; intros Hall; [done|].
  destruct Hstep as [l1 l2 X e k t w x w' Hperf]. simpl in *.
  apply Forall_app in Hall as [H1 H2]. apply Forall_cons in H2 as [[He Hk] H2].
  destruct IH as [HR Hall'].
  { apply Forall_app. split; [done|]. constructor; [apply Hk|done]. }
  split; [|done]. etrans; [|exact HR].
  pose proof (He t w) as Hw. by rewrite Hperf in Hw.
Qed.
End guarantee.

(** What a schedule computes is reachable. *)
Lemma run_schedule_reachable sched c : rtc pool_step c (run_schedule sched c).
Proof.
  revert c. induction sched as [|[n t] sched IH]; intros [l w]; simpl; [done|].
  destruct (l !! n) as [p|] eqn:Hn; [|apply IH].
  destruct p as [a|X e k]; [apply IH|].
  destruct (perform t w e) as [x w'] eqn:Hp. eapply rtc_l; [|apply IH].
  assert (Hlen : (n < length l)%nat) by by eapply lookup_lt_Some.
  rewrite insert_take_drop by done.
  rewrite <-(take_drop_middle l n (Vis e k) Hn) at 1. by econstructor.
Qed.

(** An invariant of the database along any interleaving. *)
Lemma pool_invariant (P : Db → Prop) l w l' w' :
  rtc pool_step (l, w) (l', w') →
  Forall (all_effs (λ _, Guarantees (on_db (preserving P)))) l →
  P (w_db w) → P (w_db w').
Proof.
  intros Hpool Hall. exact (proj1 (pool_guarantee _ _ _ Hpool Hall)).
Qed.

Lemma w_db_advance t w : w_db (advance t w) = w_db w.
Proof. done. Qed.

(** A persistence effect either leaves the database or runs the operation. *)
Lemma perform_pers_db t w {A} (o : pop A) :
  w_db (perform t w (Pers o)).2 = w_db w ∨
  w_db (perform t w (Pers o)).2 = (exec_pop (stmt_of t (advance t w)) o (w_db w)).2.
Proof.
  unfold perform. simpl.
  destruct (exec_pop (stmt_of t (advance t w)) o (w_db w)) as [r db].
  destruct (t_fault t); simpl; auto.
Qed.

#[export] Instance guarantees_pers R {A} (o : pop A) :
  PreOrder R → DbGuarantees R o → Guarantees (on_db R) (Pers o).
Proof.
  intros HR Ho t w. unfold on_db. destruct (perform_pers_db t w o) as [->| ->];
    [done|apply Ho].
Qed.

Lemma perform_not_pers t w {X} (e : eff X) :
  not_pers e → w_db (perform t w e).2 = w_db w.
Proof.
  unfold perform. destruct e; simpl; try done; intros _;
    repeat case_goal; simplify_eq/=; done.
Qed.

Lemma guarantees_not_pers R {X} (e : eff X) :
  PreOrder R → not_pers e → Guarantees (on_db R) e.
Proof. intros HR He t w. unfold on_db. by rewrite perform_not_pers. Qed.

(** A class of operations that each guarantee [R] lifts to effects. *)
Lemma guarantees_op_class (P : ∀ A, pop A → Prop) R :
  PreOrder R → (∀ A (o : pop A), P A o → DbGuarantees R o) →
  ∀ X (e : eff X), match e with Pers o => P _ o | _ => True end → Guarantees (on_db R) e.
Proof.
  intros HR HP X e He. destruct e; try by apply guarantees_not_pers.
  apply guarantees_pers; [done|]. by apply HP.
Qed.

#[export] Hint Extern 5 (Guarantees (on_db _) _) =>
  simple apply guarantees_not_pers; [typeclasses eauto | exact I] : typeclass_instances.

(** Decomposes [all_effs P p] for a program built from effects, binds and
    matches; leaves the goals [P e] that type-class search does not close. *)
Ltac effs_step :=
  lazymatch goal with
  | |- ∀ _, _ => intro
  | |- all_effs _ (Ret _) => exact I
  | |- all_effs _ (Vis _ _) => split
  | |- all_effs _ (pers _) => apply all_effs_trigger
  | |- all_effs _ (env _) => apply all_effs_trigger
  | |- all_effs _ (trigger _) => apply all_effs_trigger
  | |- all_effs _ (ok _) => exact I
  | |- all_effs _ (err _) => exact I
  | |- all_effs _ (bind_ok _ _) => apply all_effs_bind_ok
  | |- all_effs _ (bind _ _) => apply all_effs_bind
  | |- all_effs _ (match ?x with _ => _ end) =>
      lazymatch x with
      | context [match ?y with _ => _ end] => destruct y
      | _ => destruct x
      end
  | |- all_effs _ (task _) => apply all_effs_bind
  | |- Guarantees _ _ => apply _
  end.

Ltac solve_effs := repeat effs_step.

(** Performs the next effect of a fault-free execution. *)
Ltac step_calm :=
  first [ apply wp_pers_calm; intros ? ? ?
        | apply wp_env_calm; intros ? ? ?
        | apply wp_utcnow_calm; intros ? ?
        | apply wp_core_draining_calm; intros ? ?
        | apply wp_env_draining_calm; intros ? ?
        | apply wp_ret ]; simpl.
