(* ===== verification/Protocols.v ===== *)
(** * One task among others

    [focus_step] follows one distinguished task while any number of other tasks
    interleave with it; only the distinguished task's own effects are restricted
    to ticks of a given kind.  [wpr] is the weakest precondition of a task whose
    environment moves the world along a relation [R] between any two of its
    effects, and [focus_sound] connects the two: what [wpr] proves against [R]
    holds when the task finishes, in every interleaving with tasks that
    guarantee [R].

    [TokenLaw] is the interface between the statements that hand out a right to
    launch and the programs that take it: each right is taken at most once. *)

From S2P Require Import Prelude.
From S2P Require Import CoreTypes.
From S2P Require Import Json.
From S2P Require Import Persistence.
From S2P Require Import EnvTables.
From S2P Require Import Effects.

(** The distinguished task moves on a tick satisfying [T], or another one moves. *)
Inductive focus_step (T : tick → Prop) {A} :
  prog A * list (prog unit) * world → prog A * list (prog unit) * world → Prop :=
| focus_own X (e : eff X) k l t w :
    T t → focus_step T (Vis e k, l, w) (k (perform t w e).1, l, (perform t w e).2)
| focus_other p l w l' w' :
    pool_step (l, w) (l', w') → focus_step T (p, l, w) (p, l', w').

(** A schedule for [focus_step]: [None] moves the distinguished task. *)
Fixpoint run_focus {A} (sched : list (option nat * tick))
  (c : prog A * list (prog unit) * world) : prog A * list (prog unit) * world :=
  match sched with
  | [] => c
  | (None, t) :: rest =>
      match c.1.1 with
      | Vis e k => run_focus rest (k (perform t c.2 e).1, c.1.2, (perform t c.2 e).2)
      | Ret _ => run_focus rest c
      end
  | (Some n, t) :: rest =>
      let '(l, w) := run_schedule [(n, t)] (c.1.2, c.2) in
      run_focus rest (c.1.1, l, w)
  end.

Fixpoint wpr (R : world → world → Prop) (T : tick → Prop) {A} (p : prog A)
  (Q : A → world → Prop) (w : world) : Prop :=
  match p with
  | Ret a => ∀ w', R w w' → Q a w'
  | Vis e k => ∀ w1 t, R w w1 → T t → wpr R T (k (perform t w1 e).1) Q (perform t w1 e).2
  end.

#[global] Arguments wpr R T {A} p Q w : simpl never.

(** [J] survives every move along [R]. *)
Definition stable (R : world → world → Prop) (J : world → Prop) : Prop :=
  ∀ w w', R w w' → J w → J w'.

Section rely.
Context (R : world → world → Prop) `{!PreOrder R} (T : tick → Prop).

Lemma wpr_rely {A} (p : prog A) Q w w' : R w w' → wpr R T p Q w → wpr R T p Q w'.
Proof.
  intros HR. destruct p as [a|X e k]; intros H.
  - intros w2 H2. apply H. by etrans.
  - intros w1 t H1 Ht. apply H; [by etrans|done].
Qed.

Lemma wpr_mono {A} (p : prog A) (Q Q' : A → world → Prop) w :
  (∀ a w', Q a w' → Q' a w') → wpr R T p Q w → wpr R T p Q' w.
Proof.
  intros HQ. revert w. induction p as [a|X e k IH]; intros w H.
  - intros w' Hw. apply HQ. by apply H.
  - intros w1 t H1 Ht. apply IH. by apply H.
Qed.

Lemma wpr_bind {A B} (p : prog A) (f : A → prog B) Q w :
  wpr R T p (λ a w', wpr R T (f a) Q w') w → wpr R T (bind p f) Q w.
Proof.
  revert w. induction p as [a|X e k IH]; intros w H; simpl.
  - eapply wpr_rely; [reflexivity|]. by apply H.
  - intros w1 t H1 Ht. apply IH. by apply H.
Qed.

Lemma wpr_ret {A} (a : A) (Q : A → world → Prop) w :
  stable R (Q a) → Q a w → wpr R T (Ret a) Q w.
Proof. intros Hs HQ w' Hw. by eapply Hs. Qed.

(** One effect, from a world where the stable [J] holds. *)
Lemma wpr_vis {X B} (J : world → Prop) (e : eff X) (k : X → prog B) Q w :
  stable R J → J w →
  (∀ w1 t, J w1 → T t → wpr R T (k (perform t w1 e).1) Q (perform t w1 e).2) →
  wpr R T (Vis e k) Q w.
Proof. intros HJ Hw H w1 t H1 Ht. apply H; [by eapply HJ|done]. Qed.

(** A task whose effects stay within [R] keeps what is stable. *)
Lemma wpr_stable {A} (J : world → Prop) (p : prog A) w :
  stable R J → all_effs (λ _, Guarantees R) p → J w → wpr R T p (λ _, J) w.
Proof.
  intros HJ. revert w. induction p as [a|X e k IH]; intros w Hp Hw.
  - intros w' Hw'. by eapply HJ.
  - destruct Hp as [He Hk]. intros w1 t H1 Ht. apply IH; [done|].
    eapply HJ; [apply He|]. by eapply HJ.
Qed.

(** A pool of tasks that each guarantee [R] moves along [R]. *)
Lemma pool_step_guarantee l w l' w' :
  pool_step (l, w) (l', w') → Forall (all_effs (λ _, Guarantees R)) l →
  R w w' ∧ Forall (all_effs (λ _, Guarantees R)) l'.
Proof. intros H Hl. exact (pool_guarantee R _ _ (rtc_once _ _ H) Hl). Qed.

Lemma focus_sound {A} (p p' : prog A) l l' w w' Q :
  rtc (focus_step T) (p, l, w) (p', l', w') →
  Forall (all_effs (λ _, Guarantees R)) l →
  wpr R T p Q w → wpr R T p' Q w'.
Proof.
  intros Hrtc. remember (p, l, w) as c eqn:Ec. remember (p', l', w') as c' eqn:Ec'.
  revert p l w Ec. induction Hrtc as [c|c1 c2 c3 Hs Hrest IH]; intros p l w -> Hl Hp.
  - simplify_eq. done.
  - inversion Hs as [X e k l0 t w0 Ht|p0 l0 w0 l1 w1 Hpool]; simplify_eq.
    + eapply IH; [done|done|done|]. apply Hp; [reflexivity|done].
    + destruct (pool_step_guarantee _ _ _ _ Hpool Hl) as [HR Hl1].
      eapply IH; [done|done|done|]. by eapply wpr_rely.
Qed.

(** When the distinguished task has returned, its postcondition holds. *)
Lemma focus_result {A} (p : prog A) a l l' w w' Q :
  rtc (focus_step T) (p, l, w) (Ret a, l', w') →
  Forall (all_effs (λ _, Guarantees R)) l →
  wpr R T p Q w → Q a w'.
Proof.
  intros Hrtc Hl Hp. by apply (focus_sound _ _ _ _ _ _ _ Hrtc Hl Hp w').
Qed.
End rely.

(** ** Interrupted tasks

    [wpi] is [wpr] with an invariant [J] of the world that holds whenever the task is
    left, finished or not. *)

Fixpoint wpi (R : world → world → Prop) (T : tick → Prop) (J : world → Prop) {A} (p : prog A)
  (Q : A → world → Prop) (w : world) : Prop :=
  J w ∧
  match p with
  | Ret a => ∀ w', R w w' → Q a w'
  | Vis e k => ∀ w1 t, R w w1 → T t → wpi R T J (k (perform t w1 e).1) Q (perform t w1 e).2
  end.

#[global] Arguments wpi R T J {A} p Q w : simpl never.

(** Every result of a program satisfies [P]. *)
Fixpoint returns {A} (P : A → Prop) (p : prog A) : Prop :=
  match p with
  | Ret a => P a
  | Vis e k => ∀ x, returns P (k x)
  end.

Lemma returns_bind {A B} (P : B → Prop) (Q : A → Prop) (p : prog A) (f : A → prog B) :
  returns Q p → (∀ a, Q a → returns P (f a)) → returns P (bind p f).
Proof.
  intros Hp Hf. induction p as [a|X e k IH]; simpl in *; [by apply Hf|]. intros x. by apply IH.
Qed.

Lemma returns_any {A} (p : prog A) : returns (λ _, True) p.
Proof. induction p as [a|X e k IH]; simpl; [done|]. intros x. apply IH. Qed.

Section interrupted.
Context (R : world → world → Prop) `{!PreOrder R} (T : tick → Prop) (J : world → Prop).
Context (HJ : stable R J).

Lemma wpi_left {A} (p : prog A) Q w : wpi R T J p Q w → J w.
Proof. destruct p; by intros [? _]. Qed.

Lemma wpi_rely {A} (p : prog A) Q w w' : R w w' → wpi R T J p Q w → wpi R T J p Q w'.
Proof.
  intros HR. destruct p as [a|X e k]; intros [Hw H]; (split; [by eapply HJ|]).
  - intros w2 H2. apply H. by etrans.
  - intros w1 t H1 Ht. apply H; [by etrans|done].
Qed.

Lemma wpi_mono {A} (p : prog A) (Q Q' : A → world → Prop) w :
  (∀ a w', Q a w' → Q' a w') → wpi R T J p Q w → wpi R T J p Q' w.
Proof.
  intros HQ. revert w. induction p as [a|X e k IH]; intros w [Hw H]; (split; [done|]).
  - intros w' Hw'. apply HQ. by apply H.
  - intros w1 t H1 Ht. apply IH. by apply H.
Qed.

Lemma wpi_bind {A B} (p : prog A) (f : A → prog B) Q w :
  wpi R T J p (λ a w', wpi R T J (f a) Q w') w → wpi R T J (bind p f) Q w.
Proof.
  revert w. induction p as [a|X e k IH]; intros w [Hw H]; simpl.
  - by apply H.
  - split; [done|]. intros w1 t H1 Ht. apply IH. by apply H.
Qed.

(** A fallible step: what follows runs when it succeeds. *)
Lemma wpi_bind_ok {E A B} (p : prog (result E A)) (f : A → prog (result E B)) Q w :
  (∀ e, stable R (Q (Err e))) →
  wpi R T J p (λ r w', match r with
                       | Ok a => wpi R T J (f a) Q w'
                       | Err e => J w' ∧ Q (Err e) w'
                       end) w →
  wpi R T J (bind_ok p f) Q w.
Proof.
  intros HE Hp. apply wpi_bind. eapply wpi_mono; [|exact Hp].
  intros [a|e] w' H; [done|]. destruct H as [Hw HQ]. split; [done|].
  intros w2 H2. by eapply HE.
Qed.

Lemma wpi_ret {A} (a : A) (Q : A → world → Prop) w :
  J w → stable R (Q a) → Q a w → wpi R T J (Ret a) Q w.
Proof. intros Hw Hs HQ. split; [done|]. intros w' Hw'. by eapply Hs. Qed.

Lemma wpi_vis {X B} (I : world → Prop) (e : eff X) (k : X → prog B) Q w :
  J w → stable R I → I w →
  (∀ w1 t, I w1 → J w1 → T t → wpi R T J (k (perform t w1 e).1) Q (perform t w1 e).2) →
  wpi R T J (Vis e k) Q w.
Proof.
  intros Hw HI HIw Hk. split; [done|]. intros w1 t H1 Ht.
  apply Hk; [by eapply HI|by eapply HJ|done].
Qed.

(** A task whose effects stay within a relation that keeps [J] and [I], with a fact about
    its result. *)
Lemma wpi_stable {A} (R' : world → world → Prop) (I : world → Prop) (P : A → Prop)
  (p : prog A) w :
  stable R' J → stable R' I → stable R I →
  all_effs (λ _, Guarantees R') p → returns P p → J w → I w →
  wpi R T J p (λ a w', P a ∧ I w') w.
Proof.
  intros HJ' HI' HI. revert w. induction p as [a|X e k IH]; intros w Hp HP Hw HIw.
  - split; [done|]. intros w' Hw'. split; [done|]. by eapply HI.
  - destruct Hp as [He Hk]. split; [done|]. intros w1 t H1 Ht.
    apply IH; [done|done| |]; (eapply HJ' || eapply HI'); try apply He.
    + by eapply HJ.
    + by eapply HI.
Qed.

(** Wherever the task is left, in any interleaving, the invariant holds. *)
Lemma focus_interrupted {A} (p p' : prog A) l l' w w' Q :
  rtc (focus_step T) (p, l, w) (p', l', w') →
  Forall (all_effs (λ _, Guarantees R)) l →
  wpi R T J p Q w → wpi R T J p' Q w'.
Proof.
  intros Hrtc. remember (p, l, w) as c eqn:Ec. remember (p', l', w') as c' eqn:Ec'.
  revert p l w Ec. induction Hrtc as [c|c1 c2 c3 Hs Hrest IH]; intros p l w -> Hl Hp.
  - simplify_eq. done.
  - inversion Hs as [X e k l0 t w0 Ht|p0 l0 w0 l1 w1 Hpool]; simplify_eq.
    + eapply IH; [done|done|done|]. apply Hp; [reflexivity|done].
    + destruct (pool_step_guarantee R _ _ _ _ Hpool Hl) as [HR Hl1].
      eapply IH; [done|done|done|]. by eapply wpi_rely.
Qed.
End interrupted.

(** What a focused schedule computes is reachable when the distinguished
    task's ticks satisfy [T]. *)
Lemma run_focus_reachable (T : tick → Prop) {A} sched (c : prog A * list (prog unit) * world) :
  Forall (λ ot, ot.1 = None → T ot.2) sched → rtc (focus_step T) c (run_focus sched c).
Proof.
  revert c. induction sched as [|[[n|] t] sched IH]; intros [[p l] w] Hall; [done| |];
    apply Forall_cons in Hall as [Ht Hall]; cbn [run_focus fst snd].
  - destruct (run_schedule [(n, t)] (l, w)) as [l' w'] eqn:E.
    etrans; [|by apply IH].
    pose proof (run_schedule_reachable [(n, t)] (l, w)) as Hr. rewrite E in Hr.
    remember (l, w) as c eqn:Ec. remember (l', w') as c' eqn:Ec'. clear E.
    revert l w Ec. induction Hr as [c|c1 c2 c3 Hs Hrest IHr]; intros l w ->.
    + simplify_eq. done.
    + destruct c2 as [l2 w2]. eapply rtc_l; [by apply focus_other|]. by eapply IHr.
  - destruct p as [a|X e k]; [by apply IH|].
    eapply rtc_l; [|by apply IH]. apply focus_own. by apply Ht.
Qed.

(** * Launch rights as tokens

    A launch of an instance must be paid for by a right that the database hands
    out once: a won claim (wake scheduler) or a successful reservation (start).
    A [TokenLaw] says how many rights the database still has to give and when
    an answered operation gives one to the program or takes one back; [tokens]
    tracks at most one right through a program, and [pool_tokens] shows that
    launches plus rights never grow along any interleaving. *)

(** The action is a launch of [i]. *)
Definition is_launch (i : string) (o : obs) : bool :=
  match o with Launched lo _ => bool_decide (lo_instance_id lo = i) | _ => false end.

(** Launches of [i] so far. *)
Definition launches (i : string) (w : world) : nat :=
  length (filter (λ o, is_launch i o = true) (w_log w)).

(** What the database promises about the rights to launch one instance. *)
Class TokenLaw := {
  tl_instance : string;
  (** rights the database can still give *)
  avail : Db → nat;
  (** the program's right after an answered operation *)
  after_op : ∀ {A}, pop A → result CoreError A → bool → bool;
  (** operations a program may perform with or without a right *)
  ok_op : ∀ {A}, pop A → bool → Prop;
  op_law c {A} (o : pop A) db b :
    ok_op o b →
    (avail (exec_pop c o db).2 + Nat.b2n (after_op o (exec_pop c o db).1 b)
     ≤ avail db + Nat.b2n b)%nat;
  failure_law m {A} (o : pop A) r b :
    (Nat.b2n (after_op o (pop_failure m o) b) ≤ Nat.b2n b)%nat ∧
    (Nat.b2n (after_op o (pop_failure m o) b) ≤ Nat.b2n (after_op o r b))%nat }.

Section tokens.
Context `{TokenLaw}.
#[local] Abbreviation i := tl_instance.

Definition token_after {X} (e : eff X) : X → bool → bool :=
  match e in eff X return X → bool → bool with
  | Pers o => after_op o
  | LaunchDetached o => λ r b,
      match r with
      | Ok _ => if decide (lo_instance_id o = i) then false else b
      | Err _ => b
      end
  | _ => λ _ b, b
  end.

Definition token_ok {X} (e : eff X) (b : bool) : Prop :=
  match e with
  | Pers o => ok_op o b
  | LaunchDetached o => lo_instance_id o = i → b = true
  | _ => True
  end.

(** A program that starts with right [b] and ends in [Q]. *)
Fixpoint tokens {A} (p : prog A) (Q : bool → A → Prop) (b : bool) : Prop :=
  match p with
  | Ret a => Q b a
  | Vis e k => token_ok e b ∧ ∀ x, tokens (k x) Q (token_after e x b)
  end.

(** The amount an interleaving cannot increase: launches, and rights to one. *)
Definition budget (w : world) : nat := (launches i w + avail (w_db w))%nat.

(** Rights held by the tasks of a pool. *)
Definition held (bs : list bool) : nat := sum_list (Nat.b2n <$> bs).

(** An effect that needs no right and brings none. *)
Definition rightless (X : Type) (e : eff X) : Prop :=
  token_ok e false ∧ ∀ x, token_after e x false = false.

(** ** Lemmas *)

Lemma tokens_bind {A B} (p : prog A) (f : A → prog B) Q b :
  tokens p (λ b' a, tokens (f a) Q b') b → tokens (bind p f) Q b.
Proof.
  revert b. induction p as [a|X e k IH]; intros b; simpl; [done|].
  intros [Hok Hk]. split; [done|]. intros x. by apply IH.
Qed.

Lemma tokens_mono {A} (p : prog A) (Q Q' : bool → A → Prop) b :
  (∀ b' a, Q b' a → Q' b' a) → tokens p Q b → tokens p Q' b.
Proof.
  intros HQ. revert b. induction p as [a|X e k IH]; intros b; simpl; [apply HQ|].
  intros [Hok Hk]. split; [done|]. intros x. by apply IH.
Qed.

Lemma launches_app j w o w' :
  w_log w' = w_log w ++ [o] → launches j w' = (launches j w + Nat.b2n (is_launch j o))%nat.
Proof.
  intros E. unfold launches. rewrite E, filter_app, length_app. f_equal.
  rewrite filter_cons, filter_nil. by destruct (is_launch j o).
Qed.

Lemma budget_log w o w' :
  w_db w' = w_db w → w_log w' = w_log w ++ [o] →
  budget w' = (budget w + Nat.b2n (is_launch i o))%nat.
Proof. intros Hdb Hlog. unfold budget. rewrite (launches_app i w o w' Hlog), Hdb. lia. Qed.

Lemma budget_same w w' :
  w_db w' = w_db w → w_log w' = w_log w → budget w' = budget w.
Proof. unfold budget, launches. by intros -> ->. Qed.

Lemma token_step t w {X} (e : eff X) b :
  token_ok e b →
  (budget (perform t w e).2 + Nat.b2n (token_after e (perform t w e).1 b)
   ≤ budget w + Nat.b2n b)%nat.
Proof.
  intros Hok. unfold perform.
  assert (Hadv : budget (advance t w) = budget w) by done. rewrite <-Hadv.
  generalize (advance t w). clear w Hadv. intros w.
  destruct e; simpl in *; try done.
  - pose proof (op_law (stmt_of t w) o (w_db w) b Hok) as Hop.
    destruct (failure_law (t_msg t) o (exec_pop (stmt_of t w) o (w_db w)).1 b)
      as [Hf1 Hf2].
    unfold budget. destruct (exec_pop (stmt_of t w) o (w_db w)) as [r db] eqn:He.
    destruct (t_fault t); simpl in *; unfold launches in *; simpl in *; lia.
  - destruct (exec_eop (stmt_of t w) o (w_db w) (w_env w)) as [r edb].
    destruct (t_fault t); apply Nat.le_refl.
  - destruct (t_fault t); simpl; [|done|done].
    erewrite (budget_log w); [|reflexivity|reflexivity]. simpl. case_decide as Hi.
    + rewrite Hok, bool_decide_true by done. simpl. lia.
    + rewrite bool_decide_false by done. simpl. lia.
  - destruct (t_fault t); simpl; [|done|done]. erewrite (budget_log w); [|reflexivity|reflexivity]. simpl. lia.
  - erewrite (budget_log w); [|reflexivity|reflexivity]. simpl. lia.
  - erewrite (budget_log w); [|reflexivity|reflexivity]. simpl. lia.
  - erewrite (budget_log w); [|reflexivity|reflexivity]. simpl. lia.
Qed.

Lemma pool_tokens c c' bs :
  rtc pool_step c c' → Forall2 (λ b p, tokens p (λ _ _, True) b) bs c.1 →
  ∃ bs', Forall2 (λ b p, tokens p (λ _ _, True) b) bs' c'.1 ∧
    (budget c'.2 + held bs' ≤ budget c.2 + held bs)%nat.
Proof.
  intros Hsteps. revert bs.
  induction Hsteps as [c|c1 c2 c3 Hstep Hrest IH]; intros bs Hall; [eauto|].
  destruct Hstep as [l1 l2 X e k t w x w' Hperf]. simpl in *.
  apply Forall2_app_inv_r in Hall as (bs1 & bs2 & H1 & H2 & ->).
  apply Forall2_cons_inv_r in H2 as (b & bs2' & [Hok Hk] & H2 & ->).
  pose proof (token_step t w e b Hok) as Hle. rewrite Hperf in Hle. simpl in Hle.
  destruct (IH (bs1 ++ token_after e x b :: bs2')) as (bs' & Hall' & Hb).
  { apply Forall2_app; [done|]. constructor; [apply Hk|done]. }
  exists bs'. split; [done|]. unfold held in *.
  rewrite !fmap_app, !fmap_cons, !sum_list_with_app in *.
  simpl in *. lia.
Qed.

Lemma held_none n : held (replicate n false) = 0%nat.
Proof. unfold held. by induction n. Qed.

Lemma tokens_rightless {A} (p : prog A) :
  all_effs rightless p → tokens p (λ b _, b = false) false.
Proof.
  induction p as [a|X e k IH]; [done|]. intros [[Hok Haf] Hk]. split; [done|].
  intros x. rewrite Haf. by apply IH.
Qed.
End tokens.
