(* ===== verification/InstanceHandlers.v ===== *)
(** * runtara-core: instance protocol handlers

    One program per handler of [instance_handlers/*.rs], over the effects of
    Effects.v.  The library functions the handlers call (JSON and base64
    decoding, conversion of milliseconds to a timestamp) are the fields of the
    class [Ext]. *)

From S2P Require Import Prelude.
From S2P Require Import CoreTypes.
From S2P Require Import Json.
From S2P Require Import Persistence.
From S2P Require Import EnvTables.
From S2P Require Import Effects.
Open Scope runtara_scope.

(** Library functions: [serde_json::from_slice], [serde_json::to_vec], base64
    [STANDARD.decode], [DateTime::from_timestamp_millis] and
    [DateTime::timestamp_millis]. *)
Class Ext := {
  json_from_slice : bytes → option json;
  json_to_vec : json → option bytes;
  base64_decode : string → option bytes;
  from_timestamp_millis : Z → option time;
  timestamp_millis : time → Z }.

(** [InstanceHandlerState] without the persistence handle and the drain flag,
    which are effects; [with_limits] sets the cap, [new] leaves it at 0. *)
Record InstanceHandlerState := { max_concurrent_instances : Z }.

Definition state_new : InstanceHandlerState := {| max_concurrent_instances := 0 |}.

Definition with_limits (cap : Z) : InstanceHandlerState :=
  {| max_concurrent_instances := cap |}.

(** ** Registration *)

Definition register_refused (e : string) : RegisterInstanceResponse :=
  {| rresp_success := false; rresp_error := e |}.

Definition handle_register_instance (state : InstanceHandlerState)
  (request : RegisterInstanceRequest) : prog (result CoreError RegisterInstanceResponse) :=
  if decide (rr_instance_id request = "") then
    ok (register_refused "instance_id is required")
  else if decide (rr_tenant_id request = "") then
    ok (register_refused "tenant_id is required")
  else
  let! found := pers (GetInstance (rr_instance_id request)) in
  let instance_exists := match found with Ok (Some _) => true | _ => false end in
  let! draining := if instance_exists then Ret false else trigger CoreDraining in
  if draining then ok (register_refused ERROR_SERVER_DRAINING) else
  let! checkpoint_error :=
    match rr_checkpoint_id request with
    | None => Ret None
    | Some cp_id =>
        let! checkpoint := pers (LoadCheckpoint (rr_instance_id request) cp_id) in
        Ret (match checkpoint with
             | Ok (Some _) => None
             | Ok None => Some ("Checkpoint '" +:+ cp_id +:+ "' not found")
             | Err e => Some ("Failed to verify checkpoint: " +:+ display_core_error e)
             end)
    end in
  match checkpoint_error with
  | Some e => ok (register_refused e)
  | None =>
  let! over_cap :=
    if negb instance_exists && (0 <? max_concurrent_instances state) then
      let! active := pers CountActiveInstances in
      Ret (match active with
           | Ok n => max_concurrent_instances state <=? n
           | Err _ => false
           end)
    else Ret false in
  if over_cap then ok (register_refused ERROR_MAX_CONCURRENT_INSTANCES) else
  let! created :=
    if instance_exists then Ret (Ok tt)
    else pers (RegisterInstance (rr_instance_id request) (rr_tenant_id request)) in
  match created with
  | Err e => ok (register_refused ("Failed to create instance: " +:+ display_core_error e))
  | Ok _ =>
  let! started_at := trigger UtcNow in
  let! updated :=
    pers (UpdateInstanceStatus (rr_instance_id request) "running" (Some started_at)) in
  match updated with
  | Err e => ok (register_refused ("Failed to update instance status: " +:+ display_core_error e))
  | Ok _ =>
  let! _ := pers (InsertEvent
    {| ev_id := None; ev_instance_id := rr_instance_id request;
       ev_event_type := "started"; ev_checkpoint_id := rr_checkpoint_id request;
       ev_payload := None; ev_created_at := started_at; ev_subtype := None |}) in
  ok {| rresp_success := true; rresp_error := "" |}
  end end end.

(** ** Checkpoints *)

(** The pending instance-wide signal; errors and unknown kinds read as none. *)
Definition get_pending_signal (instance_id : string) : prog (option Signal) :=
  let! r := pers (GetPendingSignal instance_id) in
  Ret (match r with
       | Ok (Some signal) =>
           match parse_signal_type (sig_signal_type signal) with
           | Some ty =>
               Some {| sg_instance_id := instance_id;
                       sg_signal_type := signal_type_to_i32 ty;
                       sg_payload := default [] (sig_payload signal) |}
           | None => None
           end
       | _ => None
       end).

(** [.map(|sig| CustomSignal { checkpoint_id, payload })] *)
Definition custom_signal_for (checkpoint_id : string) (s : option CustomSignalRecord) :
  option CustomSignal :=
  (λ sig, {| cs_checkpoint_id := checkpoint_id; cs_payload := default [] (csr_payload sig) |})
    <$> s.

Definition handle_checkpoint (request : CheckpointRequest) :
  prog (result CoreError CheckpointResponse) :=
  let i := cr_instance_id request in
  let k := cr_checkpoint_id request in
  let? instance := pers (GetInstance i) in
  match instance with
  | None => err (InstanceNotFound i)
  | Some inst =>
  if negb (bool_decide (ir_status inst = "running")) then
    err (InvalidInstanceState i "running" (ir_status inst))
  else
  let? loaded := pers (LoadCheckpoint i k) in
  match loaded with
  | Some existing =>
      let! pending_signal := get_pending_signal i in
      let? custom := pers (TakePendingCustomSignal i k) in
      ok {| cresp_found := true;
            cresp_state := cp_state existing;
            cresp_pending_signal := pending_signal;
            cresp_custom_signal := custom_signal_for k custom;
            cresp_last_error := None |}
  | None =>
  if bool_decide (cr_state request = []) then
    let! pending_signal := get_pending_signal i in
    ok {| cresp_found := false;
          cresp_state := [];
          cresp_pending_signal := pending_signal;
          cresp_custom_signal := None;
          cresp_last_error := None |}
  else
  let? _ := pers (SaveCheckpoint i k (cr_state request)) in
  let? _ := pers (UpdateInstanceCheckpoint i k) in
  let! pending_signal := get_pending_signal i in
  let? custom := pers (TakePendingCustomSignal i k) in
  ok {| cresp_found := false;
        cresp_state := [];
        cresp_pending_signal := pending_signal;
        cresp_custom_signal := custom_signal_for k custom;
        cresp_last_error := None |}
  end end.

Definition handle_get_checkpoint (request : GetCheckpointRequest) :
  prog (result CoreError GetCheckpointResponse) :=
  let? instance := pers (GetInstance (gcr_instance_id request)) in
  match instance with
  | None => err (InstanceNotFound (gcr_instance_id request))
  | Some _ =>
      let? loaded :=
        pers (LoadCheckpoint (gcr_instance_id request) (gcr_checkpoint_id request)) in
      match loaded with
      | Some checkpoint => ok {| gcresp_found := true; gcresp_state := cp_state checkpoint |}
      | None => ok {| gcresp_found := false; gcresp_state := [] |}
      end
  end.

Definition handle_sleep (request : SleepRequest) : prog (result CoreError unit) :=
  let i := sr_instance_id request in
  let? _ :=
    if decide (sr_checkpoint_id request = "") then ok tt
    else
      let? _ := pers (SaveCheckpoint i (sr_checkpoint_id request) (sr_state request)) in
      pers (UpdateInstanceCheckpoint i (sr_checkpoint_id request)) in
  let! _ := trigger (Sleep (sr_duration_ms request)) in
  ok tt.

(** ** Signals *)

Definition poll_signal (instance_id : string) (sig : SignalRecord) : Signal :=
  {| sg_instance_id := instance_id;
     sg_signal_type :=
       signal_type_to_i32 (default SignalCancel (parse_signal_type (sig_signal_type sig)));
     sg_payload := default [] (sig_payload sig) |}.

Definition handle_poll_signals (request : PollSignalsRequest) :
  prog (result CoreError PollSignalsResponse) :=
  let i := psr_instance_id request in
  let? pending := pers (GetPendingSignal i) in
  let? custom :=
    match psr_checkpoint_id request with
    | Some k => pers (TakePendingCustomSignal i k)
    | None => ok None
    end in
  ok {| psresp_signal := poll_signal i <$> pending;
        psresp_custom_signal :=
          (λ sig, {| cs_checkpoint_id := csr_checkpoint_id sig;
                     cs_payload := default [] (csr_payload sig) |}) <$> custom |}.

Definition handle_signal_ack (ack : SignalAck) : prog (result CoreError unit) :=
  let i := sa_instance_id ack in
  if negb (sa_acknowledged ack) then ok tt
  else
    let? _ := pers (AcknowledgeSignal i) in
    match signal_type_of_i32 (sa_signal_type ack) with
    | SignalCancel =>
        let? _ := pers (CompleteInstance (params_new i "cancelled")) in
        ok tt
    | SignalPause =>
        let? _ := pers (UpdateInstanceStatus i "suspended" None) in
        ok tt
    | SignalResume => ok tt
    | SignalShutdown =>
        let? _ := pers (CompleteInstance
          (with_termination "shutdown_requested" None (params_new i "suspended"))) in
        let! wake_at := trigger UtcNow in
        let! _ := pers (SetInstanceSleep i wake_at) in
        ok tt
    end.

(** ** Status *)

Definition map_status_i32 (s : string) : Z := instance_status_to_i32 (map_status s).

Definition handle_get_instance_status `{Ext} (instance_id : string) :
  prog (result CoreError GetInstanceStatusResponse) :=
  let? instance := pers (GetInstance instance_id) in
  match instance with
  | Some inst =>
      ok {| gs_instance_id := instance_id;
            gs_status := map_status_i32 (ir_status inst);
            gs_checkpoint_id := ir_checkpoint_id inst;
            gs_started_at_ms := default 0 (timestamp_millis <$> ir_started_at inst);
            gs_finished_at_ms := timestamp_millis <$> ir_finished_at inst;
            gs_output := ir_output inst;
            gs_error := ir_error inst |}
  | None =>
      ok {| gs_instance_id := instance_id;
            gs_status := instance_status_to_i32 StatusUnknown;
            gs_checkpoint_id := None;
            gs_started_at_ms := 0;
            gs_finished_at_ms := None;
            gs_output := None;
            gs_error := Some "Instance not found" |}
  end.

(** ** Events *)

Record SleepPayload := { sp_wake_at : option time; sp_state : bytes }.

Definition parse_sleep_payload `{Ext} (payload : bytes) : option SleepPayload :=
  json ← json_from_slice payload;
  wake_at_ms ← json_get "wake_at_ms" json ≫= as_i64;
  state_b64 ← json_get "state" json ≫= as_str;
  state ← base64_decode state_b64;
  Some {| sp_wake_at := from_timestamp_millis wake_at_ms; sp_state := state |}.

Definition suspend_if_running (i : string) : prog (result CoreError unit) :=
  let? _ := pers (CompleteInstance (if_running (params_new i "suspended"))) in
  ok tt.

(** The error text of a failed event. *)
Definition failure_text (payload : bytes) : string :=
  match payload with
  | [] => "Unknown error"
  | _ => default "Unknown error (binary payload)" (from_utf8 payload)
  end.

(** Step 5 of [handle_instance_event]: the status update for the event type. *)
Definition event_status_update `{Ext} (event : InstanceEvent) : prog (result CoreError unit) :=
  let i := ie_instance_id event in
  match event_type_of_i32 (ie_event_type event) with
  | EventHeartbeat => ok tt
  | EventCompleted =>
      let params := if_running (params_new i "completed") in
      let? _ := pers (CompleteInstance
        (match payload_opt (ie_payload event) with
         | Some o => with_output o params
         | None => params
         end)) in
      ok tt
  | EventFailed =>
      let? _ := pers (CompleteInstance
        (with_error (failure_text (ie_payload event)) (if_running (params_new i "failed")))) in
      ok tt
  | EventSuspended =>
      match payload_opt (ie_payload event), ie_checkpoint_id event with
      | Some payload, Some checkpoint_id =>
          match parse_sleep_payload payload with
          | Some sleep_data =>
              let? _ := pers (SaveCheckpoint i checkpoint_id (sp_state sleep_data)) in
              let? _ := pers (UpdateInstanceCheckpoint i checkpoint_id) in
              let? _ :=
                match sp_wake_at sleep_data with
                | Some wake_at => pers (SetInstanceSleep i wake_at)
                | None => ok tt
                end in
              let? _ := pers (CompleteInstance
                (with_checkpoint checkpoint_id
                   (with_termination "sleeping" None (if_running (params_new i "suspended"))))) in
              ok tt
          | None => suspend_if_running i
          end
      | _, _ => suspend_if_running i
      end
  | EventCustom => ok tt
  end.

Definition handle_instance_event `{Ext} (event : InstanceEvent) :
  prog (result CoreError InstanceEventResponse) :=
  let event_type := map_event_type (event_type_of_i32 (ie_event_type event)) in
  if decide (ie_instance_id event = "") then
    err (ValidationError "instance_id" "instance_id is required")
  else
  let! created_at :=
    match from_timestamp_millis (ie_timestamp_ms event) with
    | Some t => Ret t
    | None => trigger UtcNow
    end in
  let? _ := pers (InsertEvent
    {| ev_id := None;
       ev_instance_id := ie_instance_id event;
       ev_event_type := event_type;
       ev_checkpoint_id := ie_checkpoint_id event;
       ev_payload := payload_opt (ie_payload event);
       ev_created_at := created_at;
       ev_subtype := ie_subtype event |}) in
  let? _ := event_status_update event in
  ok {| ier_success := true; ier_error := None |}.

(** [event.attempt_number as i32] *)
Definition handle_retry_attempt (event : RetryAttemptEvent) : prog (result CoreError unit) :=
  let? _ := pers (SaveRetryAttempt (ra_instance_id event) (ra_checkpoint_id event)
                    (wrap_i32 (ra_attempt_number event)) (ra_error_message event)) in
  ok tt.
