(* ===== verification/DbInvariants.v ===== *)
(** * Invariants of the core database

    [wf_db] collects what the schema promises: enum columns hold values of
    their types, identifiers are non-empty, child rows (checkpoints, events,
    signals) belong to an existing instance, and the generated ids are unique
    and below their sequences.  Every persistence operation preserves it, so
    every program does, alone or interleaved with any others, whatever the
    faults. *)

From S2P Require Import Prelude.
From S2P Require Import CoreTypes.
From S2P Require Import Json.
From S2P Require Import Persistence.
From S2P Require Import EnvTables.
From S2P Require Import Effects.

(** ** Well-formedness *)

Definition row_ok (id : string) (r : instances_row) : Prop :=
  id ≠ "" ∧
  i_status r ∈ instance_status_values ∧
  enum_ok_opt termination_reason_values (i_termination_reason r) = true.

Record wf_db (db : Db) : Prop := {
  wf_rows : map_Forall row_ok (instances db);
  wf_checkpoints : map_Forall (λ k r,
    is_Some (instances db !! k.1) ∧ c_id r < checkpoints_seq db) (checkpoints db);
  wf_checkpoint_ids : ∀ k1 k2 r1 r2,
    checkpoints db !! k1 = Some r1 → checkpoints db !! k2 = Some r2 →
    c_id r1 = c_id r2 → k1 = k2;
  wf_events : Forall (λ e,
    is_Some (instances db !! e_instance_id e) ∧
    e_event_type e ∈ instance_event_type_values ∧
    e_id e < events_seq db) (instance_events db);
  wf_event_ids : StronglySorted Z.lt (e_id <$> instance_events db);
  wf_signals : map_Forall (λ i r,
    is_Some (instances db !! i) ∧ s_signal_type r ∈ signal_type_values) (pending_signals db);
  wf_csignals : map_Forall (λ k _, is_Some (instances db !! k.1))
    (pending_checkpoint_signals db) }.

(** The database a world is in. *)
Definition wf_world (w : world) : Prop := wf_db (w_db w).

(** Unfolds the state-changing operations. *)
Ltac unfold_ops :=
  unfold op_register_instance, op_update_instance_status, op_update_instance_checkpoint,
    op_complete_instance_unified, op_mark_for_recovery, op_store_instance_input,
    op_update_instance_metrics, op_update_instance_stderr,
    op_save_checkpoint, op_save_retry_attempt, op_insert_event,
    op_insert_signal, op_acknowledge_signal, op_insert_custom_signal, op_set_instance_sleep,
    op_clear_instance_sleep, op_claim_sleeping_instance, op_delete_instances_batch.

(** ** Lemmas *)

Lemma enum_ok_spec vs s : enum_ok vs s = true ↔ s ∈ vs.
Proof. apply bool_decide_eq_true. Qed.

Lemma wf_empty : wf_db empty_db.
Proof. split; simpl; try apply map_Forall_empty; try constructor; set_solver. Qed.

Lemma update_instance_db i f db :
  (update_instance i f db).2 =
  {| db with instances := alter f i (instances db) |}.
Proof.
  unfold update_instance. destruct (instances db !! i) as [r|] eqn:Hi; simpl.
  - destruct db as [ins]; simpl in *. f_equal. apply map_eq. intros j.
    destruct (decide (i = j)) as [<-|Hj].
    + by rewrite lookup_insert_eq, lookup_alter_eq, Hi.
    + by rewrite lookup_insert_ne, lookup_alter_ne by done.
  - destruct db as [ins]; simpl in *. f_equal. apply map_eq. intros j.
    destruct (decide (i = j)) as [<-|Hj];
      [by rewrite lookup_alter_eq, Hi|by rewrite lookup_alter_ne].
Qed.

Lemma update_instance_rows i f db :
  (update_instance i f db).1 = if decide (is_Some (instances db !! i)) then 1 else 0.
Proof.
  unfold update_instance. destruct (instances db !! i) eqn:Hi;
    [by rewrite decide_True|rewrite decide_False; [done|by intros []]].
Qed.

Lemma is_Some_alter {A} (f : A → A) i j (m : gmap string A) :
  is_Some (alter f i m !! j) ↔ is_Some (m !! j).
Proof.
  destruct (decide (i = j)) as [<-|Hj]; [|by rewrite lookup_alter_ne].
  rewrite lookup_alter_eq, fmap_is_Some. done.
Qed.

(** An UPDATE of [instances] that keeps the row's columns well formed. *)
Lemma wf_update_instance i f db :
  (∀ r, row_ok i r → row_ok i (f r)) → wf_db db → wf_db (update_instance i f db).2.
Proof.
  intros Hf [H1 H2 H3 H4 H5 H6 H7]. rewrite update_instance_db.
  split; simpl; try done.
  - intros j r. destruct (decide (i = j)) as [<-|Hj].
    + rewrite lookup_alter_eq. intros (r' & Hr & ->)%fmap_Some. eauto.
    + rewrite lookup_alter_ne by done. apply H1.
  - intros k r Hk. rewrite is_Some_alter. by apply H2.
  - eapply Forall_impl; [exact H4|]. intros e. simpl. by rewrite is_Some_alter.
  - intros k r Hk. rewrite is_Some_alter. by apply H6.
  - intros k r Hk. rewrite is_Some_alter. by eapply H7.
Qed.

Lemma row_ok_complete c p i r :
  enum_ok instance_status_values (cip_status p) = true →
  enum_ok_opt termination_reason_values (cip_termination_reason p) = true →
  row_ok i r → row_ok i (complete_row c p r).
Proof.
  intros Hs%enum_ok_spec Ht (Hi & _ & Hr). split; [done|]. split; [done|]. simpl.
  by destruct (cip_termination_reason p).
Qed.

Lemma wf_put_checkpoint db key f row :
  wf_db db → is_Some (instances db !! key.1) →
  (∀ r, checkpoints db !! key = Some r → c_id (f r) = c_id r) →
  c_id row = checkpoints_seq db →
  wf_db {| db with
    checkpoints := <[key := match checkpoints db !! key with
                            | Some r => f r | None => row end]> (checkpoints db);
    checkpoints_seq := checkpoints_seq db + 1 |}.
Proof.
  intros [H1 H2 H3 H4 H5 H6 H7] Hi Hf Hrow. split; simpl; try done.
  - intros k r. destruct (decide (key = k)) as [<-|Hk].
    + rewrite lookup_insert_eq. intros [= <-]. split; [done|].
      destruct (checkpoints db !! key) as [r'|] eqn:Hr; [|lia].
      rewrite Hf by done. destruct (H2 _ _ Hr) as [_ ?]. lia.
    + rewrite lookup_insert_ne by done. intros Hr. destruct (H2 _ _ Hr). split; [done|lia].
  - set (m' := <[key := _]> _).
    assert (Hold : ∀ k r, m' !! k = Some r →
              (∃ r0, checkpoints db !! k = Some r0 ∧ c_id r0 = c_id r) ∨
              (k = key ∧ c_id r = checkpoints_seq db)).
    { intros k r. unfold m'. destruct (decide (key = k)) as [<-|Hk].
      - rewrite lookup_insert_eq. intros [= <-].
        destruct (checkpoints db !! key) as [r'|] eqn:Hr; [left|by right].
        exists r'. split; [done|]. by rewrite Hf.
      - rewrite lookup_insert_ne by done. eauto. }
    intros k1 k2 r1 r2 [(r1' & Hk1 & E1)|[-> E1]]%Hold [(r2' & Hk2 & E2)|[-> E2]]%Hold Heq;
      [eapply H3; eauto; congruence| | |done].
    + destruct (H2 _ _ Hk1) as [_ ?]. lia.
    + destruct (H2 _ _ Hk2) as [_ ?]. lia.
Qed.

Lemma wf_register c i t db : wf_db db → wf_db (op_register_instance c i t db).2.
Proof.
  intros Hwf. unfold op_register_instance.
  destruct (decide (i = "")) as [|Hne]; [done|].
  destruct (instances db !! i) as [|] eqn:Hi; [done|]. simpl.
  assert (Hmono : ∀ r j, is_Some (instances db !! j) →
                    is_Some (<[i := r]> (instances db) !! j)).
  { intros r j Hj. by apply lookup_insert_is_Some'; right. }
  destruct Hwf as [H1 H2 H3 H4 H5 H6 H7]. split; simpl; try done.
  - apply map_Forall_insert_2; [|done]. split; [done|]. split; [|done]. simpl. set_solver.
  - intros k r Hk. destruct (H2 _ _ Hk). eauto.
  - eapply Forall_impl; [exact H4|]. intros e (?&?&?). eauto.
  - intros k r Hk. destruct (H6 _ _ Hk). eauto.
  - intros k r Hk. eapply Hmono, H7, Hk.
Qed.

Lemma wf_insert_event c e db : wf_db db → wf_db (op_insert_event c e db).2.
Proof.
  intros Hwf. unfold op_insert_event.
  destruct (instances db !! ev_instance_id e) as [r|] eqn:Hi; [|done].
  destruct (enum_ok instance_event_type_values (ev_event_type e)) eqn:Hty; simpl; [|done].
  apply enum_ok_spec in Hty. destruct Hwf as [H1 H2 H3 H4 H5 H6 H7].
  split; simpl; try done.
  - apply Forall_app. split.
    + eapply Forall_impl; [exact H4|]. intros e' (?&?&?). repeat split; try done. lia.
    + constructor; [|done]. simpl. rewrite Hi. repeat split; try done. lia.
  - rewrite fmap_app. apply StronglySorted_app. split; [|split; [done|by repeat constructor]].
    intros x y (e' & -> & He')%list_elem_of_fmap Hy%list_elem_of_singleton. simpl in Hy. subst.
    by destruct (proj1 (Forall_forall _ _) H4 e' He') as (_ & _ & ?).
Qed.

Lemma wf_put_signal i r db :
  wf_db db → is_Some (instances db !! i) → s_signal_type r ∈ signal_type_values →
  wf_db {| db with pending_signals := <[i := r]> (pending_signals db) |}.
Proof. intros [] ??. split; simpl; try done. by apply map_Forall_insert_2. Qed.

Lemma wf_put_csignal k r db :
  wf_db db → is_Some (instances db !! k.1) →
  wf_db {| db with pending_checkpoint_signals := <[k := r]> (pending_checkpoint_signals db) |}.
Proof. intros [] ?. split; simpl; try done. by apply map_Forall_insert_2. Qed.

Lemma filter_ids_is_Some (ids : list string) j (m : gmap string instances_row) :
  j ∉ ids → is_Some (m !! j) → is_Some (filter (λ ir : string * instances_row, ir.1 ∉ ids) m !! j).
Proof. intros Hj [r Hr]. exists r. by apply map_lookup_filter_Some. Qed.

Lemma StronglySorted_filter {A B} (R : B → B → Prop) (f : A → B) (P : A → Prop)
  `{∀ x, Decision (P x)} (l : list A) :
  StronglySorted R (f <$> l) → StronglySorted R (f <$> filter P l).
Proof.
  induction l as [|x l IH]; intros Hs; [done|].
  rewrite fmap_cons in Hs. apply StronglySorted_inv in Hs as [Hs Hx]. specialize (IH Hs).
  rewrite filter_cons. case_decide; [|done]. rewrite fmap_cons. constructor; [done|].
  apply Forall_fmap, Forall_forall. intros y [_ Hy]%list_elem_of_filter.
  rewrite Forall_fmap in Hx. by eapply Forall_forall in Hx.
Qed.

Lemma wf_delete_cascade ids db : wf_db db → wf_db (delete_cascade ids db).
Proof.
  intros [H1 H2 H3 H4 H5 H6 H7]. split; simpl.
  - intros j r [Hr _]%map_lookup_filter_Some. eauto.
  - intros k r [Hr Hk]%map_lookup_filter_Some. destruct (H2 _ _ Hr).
    split; [by apply filter_ids_is_Some|done].
  - intros k1 k2 r1 r2 [? _]%map_lookup_filter_Some [? _]%map_lookup_filter_Some. eauto.
  - apply Forall_forall. intros e [He Hin]%list_elem_of_filter.
    eapply Forall_forall in H4 as (? & ? & ?); [|exact Hin].
    split; [by apply filter_ids_is_Some|done].
  - by apply StronglySorted_filter.
  - intros i r [Hr Hi]%map_lookup_filter_Some. destruct (H6 _ _ Hr).
    split; [by apply filter_ids_is_Some|done].
  - intros k r [Hr Hk]%map_lookup_filter_Some. apply filter_ids_is_Some; [done|].
    eapply H7, Hr.
Qed.

(** The UPDATE-shaped operations: enum columns stay valid. *)
Lemma wf_update_status c i s t db : wf_db db → wf_db (op_update_instance_status c i s t db).2.
Proof.
  intros Hwf. unfold op_update_instance_status.
  destruct (instances db !! i); [|done].
  destruct (enum_ok instance_status_values s) eqn:Hs; simpl; [|done].
  apply enum_ok_spec in Hs.
  destruct t; simpl;
    match goal with |- context [update_instance i ?f db] =>
      assert (Hf : wf_db (update_instance i f db).2)
        by (apply wf_update_instance; [intros r (? & _ & ?); by repeat split|done])
    end; by destruct (update_instance _ _ _).
Qed.

Lemma wf_complete c p db : wf_db db → wf_db (op_complete_instance_unified c p db).2.
Proof.
  intros Hwf. unfold op_complete_instance_unified.
  destruct (instances db !! cip_instance_id p) as [r|]; [|done].
  destruct (complete_guard p r); simpl; [|done].
  destruct (enum_ok instance_status_values (cip_status p)) eqn:Hs; simpl; [|done].
  destruct (enum_ok_opt termination_reason_values (cip_termination_reason p)) eqn:Ht;
    simpl; [|done].
  apply wf_update_instance; [|done]. intros r'. by apply row_ok_complete.
Qed.

Lemma wf_simple_update i f db {A} (r : Z → A) :
  (∀ r, row_ok i r → row_ok i (f r)) → wf_db db →
  wf_db (let '(n, db') := update_instance i f db in (r n, db')).2.
Proof.
  intros Hf Hwf. pose proof (wf_update_instance i f db Hf Hwf) as H.
  by destruct (update_instance i f db).
Qed.

Lemma wf_acknowledge c i db : wf_db db → wf_db (op_acknowledge_signal c i db).2.
Proof.
  intros Hwf. unfold op_acknowledge_signal.
  destruct (pending_signals db !! i) as [r|] eqn:Hr; [|done].
  destruct (s_acknowledged_at r); simpl; [done|].
  destruct (wf_signals _ Hwf i r Hr). by apply wf_put_signal.
Qed.

Lemma wf_save_checkpoint c i k st db : wf_db db → wf_db (op_save_checkpoint c i k st db).2.
Proof.
  intros Hwf. unfold op_save_checkpoint. destruct (instances db !! i) eqn:Hi; simpl; [|done].
  by apply (wf_put_checkpoint db (i, k) (λ r, {| r with c_state := st; c_created_at := now c |})).
Qed.

Lemma wf_save_retry c i k n e db : wf_db db → wf_db (op_save_retry_attempt c i k n e db).2.
Proof.
  intros Hwf. unfold op_save_retry_attempt. destruct (instances db !! i) eqn:Hi; simpl; [|done].
  by apply (wf_put_checkpoint db (i, _)
         (λ r, {| r with c_attempt_number := Some n; c_error_message := e;
                         c_created_at := now c |})).
Qed.

Lemma wf_insert_signal c i s p db : wf_db db → wf_db (op_insert_signal c i s p db).2.
Proof.
  intros Hwf. unfold op_insert_signal. destruct (instances db !! i) eqn:Hi; [|done].
  destruct (enum_ok signal_type_values s) eqn:Hs; simpl; [|done].
  apply wf_put_signal; [done|by eexists|by apply enum_ok_spec].
Qed.

Lemma wf_insert_custom_signal c i k p db :
  wf_db db → wf_db (op_insert_custom_signal c i k p db).2.
Proof.
  intros Hwf. unfold op_insert_custom_signal. destruct (instances db !! i) eqn:Hi; simpl; [|done].
  apply wf_put_csignal; [done|by eexists].
Qed.

Lemma wf_claim i db : wf_db db → wf_db (op_claim_sleeping_instance i db).2.
Proof.
  intros Hwf. unfold op_claim_sleeping_instance. destruct (instances db !! i) as [r|]; [|done].
  destruct (claimable r); [|done].
  apply wf_simple_update; [|done]. intros r' (?&?&?). by repeat split.
Qed.

Lemma wf_mark_for_recovery c i n m db : wf_db db → wf_db (op_mark_for_recovery c i n m db).2.
Proof.
  intros Hwf. unfold op_mark_for_recovery. apply wf_update_instance; [|done].
  intros r (?&?&?). split; [done|]. split; [|done]. apply enum_ok_spec. reflexivity.
Qed.

Lemma wf_delete_batch ids db : wf_db db → wf_db (op_delete_instances_batch ids db).2.
Proof.
  intros Hwf. unfold op_delete_instances_batch. destruct ids; simpl; [done|].
  by apply wf_delete_cascade.
Qed.

#[export] Hint Resolve wf_register wf_update_status wf_complete wf_save_checkpoint
  wf_save_retry wf_insert_event wf_insert_signal wf_acknowledge wf_insert_custom_signal
  wf_claim wf_mark_for_recovery wf_delete_batch : runtara.

(** Every operation of the persistence interface preserves well-formedness. *)
#[export] Instance wf_preserved {A} (o : pop A) : DbGuarantees (preserving wf_db) o.
Proof.
  intros c db Hwf.
  destruct o; cbn [exec_pop]; auto with runtara; simpl; try done;
    try (apply wf_simple_update; [|done]; intros r (?&?&?); by repeat split);
    (apply wf_update_instance; [|done]; intros r (?&?&?); by repeat split).
Qed.

(** Hence every program preserves it, under any interleaving and any faults. *)
Lemma wf_program {A} (p : prog A) : all_effs (λ _, Guarantees (on_db (preserving wf_db))) p.
Proof.
  induction p as [a|X e k IH]; simpl; [done|]. split; [|done].
  destruct e; apply _.
Qed.
