(* ===== verification/Scenarios.v ===== *)
(** * Concrete worlds

    Small databases and library functions on which the theorems of the other
    files are instantiated. *)

From S2P Require Import Prelude.
From S2P Require Import CoreTypes.
From S2P Require Import Json.
From S2P Require Import Persistence.
From S2P Require Import EnvTables.
From S2P Require Import Effects.
From S2P Require Import InstanceHandlers.

(** A row as [register_instance] creates it, with the given status. *)
Definition row_with (status : string) : instances_row :=
  {| i_tenant_id := "acme"; i_definition_version := 1; i_status := status;
     i_checkpoint_id := None; i_attempt := 1; i_max_attempts := 3; i_created_at := 10;
     i_started_at := Some 20; i_finished_at := None; i_sleep_until := None;
     i_input := None; i_output := None; i_error := None; i_stderr := None;
     i_memory_peak_bytes := None; i_cpu_usage_usec := None; i_termination_reason := None;
     i_exit_code := None; i_recovery_attempts := 0; i_recovery_marker := None |}.

(** A database with one instance ["i"]. *)
Definition db_with (r : instances_row) : Db :=
  {| empty_db with instances := {["i" := r]} |}.

Definition world_of (db : Db) : world :=
  {| w_db := db; w_env := empty_env; w_now := 100; w_core_draining := false;
     w_env_draining := false; w_log := [] |}.

Definition running_world : world := world_of (db_with (row_with "running")).

(** The registry entry of a process of ["i"]. *)
Definition demo_container : ContainerInfo :=
  {| ci_container_id := "h"; ci_instance_id := "i"; ci_tenant_id := "acme";
     ci_binary_path := "/bin/i"; ci_bundle_path := None; ci_started_at := 20;
     ci_pid := Some 7; ci_timeout_seconds := Some 3600; ci_process_killed := false |}.

Definition env_with (c : ContainerInfo) : EnvDb :=
  {| empty_env with container_registry := {[ci_instance_id c := c]} |}.

(** Library functions over the trivial encodings: a one-byte payload is a fixed
    sleep request, milliseconds become microseconds. *)
Definition sleep_json : json :=
  JObject [("wake_at_ms", JNumber (PosInt 5)); ("state", JString "c3RhdGU=")].

#[export] Instance demo_ext : Ext :=
  {| json_from_slice := λ l, match l with [] => None | _ => Some sleep_json end;
     json_to_vec := λ _, Some ["123"%byte; "125"%byte];
     base64_decode := λ s, Some (list_byte_of_string s);
     from_timestamp_millis := λ ms, Some (ms * 1000);
     timestamp_millis := λ t, t / 1000 |}.

Definition calm_ticks : nat → tick := λ _, quiet.

Lemma calm_ticks_calm n : calm (calm_ticks n).
Proof. reflexivity. Qed.
