(* ===== verification/CoreProperties.v ===== *)
(** * Properties of the core handlers

    [instance_handlers/*.rs] over [persistence/]: registration and its cap,
    checkpoints as write-once values that are replayed, the wake scan, sleep and
    terminal reports, the acknowledgement of a shutdown, and the schema's
    constraints under every interleaving. *)

From S2P Require Import Prelude.
From S2P Require Import CoreTypes.
From S2P Require Import Json.
From S2P Require Import Persistence.
From S2P Require Import EnvTables.
From S2P Require Import Effects.
From S2P Require Import InstanceHandlers.
From S2P Require Import DbInvariants.
From S2P Require Import Scenarios.

(** ** Vocabulary of the statements *)

(** The instance [i] is registered and running. *)
Definition running (i : string) (db : Db) : Prop :=
  ∃ r, instances db !! i = Some r ∧ i_status r = "running".

(** The checkpoint [key] holds the state [s]. *)
Definition holds_state (key : string * string) (s : bytes) (db : Db) : Prop :=
  ∃ r, checkpoints db !! key = Some r ∧ c_state r = s.

(** The operations that can change the checkpoint row [key]. *)
Definition writes_checkpoint (key : string * string) {A} (o : pop A) : Prop :=
  match o with
  | SaveCheckpoint i k _ => key = (i, k)
  | SaveRetryAttempt i k n _ => key = (i, retry_checkpoint_id k n)
  | DeleteInstancesBatch ids => key.1 ∈ ids
  | _ => False
  end.

(** An effect that leaves the checkpoint [key] alone. *)
Definition leaves_checkpoint (key : string * string) (X : Type) (e : eff X) : Prop :=
  match e with Pers o => ¬ writes_checkpoint key o | _ => True end.

(** What is recorded of how an instance ended or stopped. *)
Definition outcome (r : instances_row) :
  string * option bytes * option string * option time * option string * option Z :=
  (i_status r, i_output r, i_error r, i_finished_at r, i_termination_reason r, i_exit_code r).

(** The outcome of an instance that is not running is kept. *)
Definition outcome_kept (db db' : Db) : Prop :=
  ∀ i r, instances db !! i = Some r → i_status r ≠ "running" →
    ∃ r', instances db' !! i = Some r' ∧ outcome r' = outcome r.

(** Operations that move an instance's status only when it is running. *)
Definition guarded_op {A} (o : pop A) : Prop :=
  match o with
  | UpdateInstanceStatus _ _ _ | MarkForRecovery _ _ _ | DeleteInstancesBatch _ => False
  | CompleteInstance p => cip_guard p = OnlyRunning
  | _ => True
  end.

Definition guarded (X : Type) (e : eff X) : Prop :=
  match e with Pers o => guarded_op o | _ => True end.

(** "Running rows have no [finished_at]", nor a termination reason. *)
Definition running_clean (db : Db) : Prop :=
  map_Forall (λ _ r, i_status r = "running" →
    i_finished_at r = None ∧ i_termination_reason r = None) (instances db).

(** Operations that enter [running] only with a fresh [started_at]. *)
Definition clean_op {A} (o : pop A) : Prop :=
  match o with
  | UpdateInstanceStatus _ s t => s = "running" → is_Some t
  | CompleteInstance p => cip_status p ≠ "running"
  | _ => True
  end.

Definition clean (X : Type) (e : eff X) : Prop :=
  match e with Pers o => clean_op o | _ => True end.

(** The row [i] is due for a wake at time [t]. *)
Definition due (t : time) (i : string) (db : Db) : Prop :=
  ∃ r, instances db !! i = Some r ∧ sleep_due t r = true.

(** The rows the wake scan selects, before LIMIT and projection. *)
Definition due_rows (t : time) (db : Db) : list (string * instances_row) :=
  order_by sleep_key (filter (λ ir, sleep_due t ir.2 = true) (map_to_list (instances db))).

(** A first registration: no instance and no checkpoint named. *)
Definition fresh_request (req : RegisterInstanceRequest) (db : Db) : Prop :=
  rr_instance_id req ≠ "" ∧ rr_tenant_id req ≠ "" ∧ rr_checkpoint_id req = None ∧
  instances db !! rr_instance_id req = None.

(** ** Checkpoints *)

Lemma instances_update i f db r :
  instances db !! i = Some r →
  update_instance i f db = (1, {| db with instances := <[i := f r]> (instances db) |}).
Proof. intros Hr. unfold update_instance. by rewrite Hr. Qed.

Lemma checkpoint_fresh_wp req w r :
  instances (w_db w) !! cr_instance_id req = Some r → i_status r = "running" →
  checkpoints (w_db w) !! (cr_instance_id req, cr_checkpoint_id req) = None →
  cr_state req ≠ [] →
  wp calm (handle_checkpoint req) (λ res w',
    (∃ resp, res = Ok resp ∧ cresp_found resp = false) ∧
    holds_state (cr_instance_id req, cr_checkpoint_id req) (cr_state req) (w_db w') ∧
    instances (w_db w') !! cr_instance_id req =
      Some {| r with i_checkpoint_id := Some (cr_checkpoint_id req) |}) w.
Proof.
  intros Hr Hrun Hno Hne. unfold handle_checkpoint, bind_ok. simpl.
  step_calm. rewrite Hr. simpl. rewrite bool_decide_true by done. simpl.
  step_calm. rewrite Hno. simpl. rewrite bool_decide_false by done.
  step_calm. unfold op_save_checkpoint. rewrite Hr. simpl. rewrite Hno.
  step_calm. unfold op_update_instance_checkpoint. rewrite (instances_update _ _ _ r) by done. simpl.
  step_calm. step_calm. step_calm.
  split; [eauto|]. split.
  - eexists. split; [apply lookup_insert_eq|done].
  - by rewrite lookup_insert_eq.
Qed.

Lemma checkpoint_found_wp req w s :
  running (cr_instance_id req) (w_db w) →
  holds_state (cr_instance_id req, cr_checkpoint_id req) s (w_db w) →
  wp calm (handle_checkpoint req) (λ res w',
    (∃ resp, res = Ok resp ∧ cresp_found resp = true ∧ cresp_state resp = s) ∧
    w_db w' = w_db w) w.
Proof.
  intros (r & Hr & Hrun) (cp & Hcp & <-). unfold handle_checkpoint, bind_ok. simpl.
  step_calm. rewrite Hr. simpl. rewrite bool_decide_true by done. simpl.
  step_calm. rewrite Hcp. simpl.
  step_calm. step_calm. step_calm. split; [eauto|done].
Qed.

(** ** Guarantees of operations *)

Lemma leaves_checkpoint_op key r {A} (o : pop A) :
  ¬ writes_checkpoint key o →
  DbGuarantees (preserving (λ db, checkpoints db !! key = Some r)) o.
Proof.
  intros Hw c db Hr.
  assert (Hupd : ∀ i f, checkpoints (update_instance i f db).2 = checkpoints db).
  { intros i f. by rewrite update_instance_db. }
  destruct o; simpl in *; try done; unfold_ops;
    repeat (case_goal; simplify_eq/=; try done);
    try (by rewrite Hupd);
    try (match goal with H : update_instance ?i ?f db = _ |- _ =>
           by rewrite <-(Hupd i f), H in Hr end);
    try (rewrite lookup_insert_ne; [done|]; intros Heq; by apply Hw).
  apply map_lookup_filter_Some. by split.
Qed.

Lemma outcome_kept_refl : Reflexive outcome_kept.
Proof. intros db i r Hr _. eauto. Qed.

Lemma outcome_kept_trans : Transitive outcome_kept.
Proof.
  intros db1 db2 db3 H12 H23 i r Hr Hs. destruct (H12 i r Hr Hs) as (r' & Hr' & Ho).
  assert (Hst : i_status r' = i_status r) by (unfold outcome in Ho; congruence).
  destruct (H23 i r' Hr') as (r'' & ? & ?); [congruence|].
  exists r''. split; [done|congruence].
Qed.

#[export] Instance outcome_kept_preorder : PreOrder outcome_kept.
Proof. split; [apply outcome_kept_refl|apply outcome_kept_trans]. Qed.

(** An UPDATE that keeps the outcome columns of rows that are not running. *)
Lemma outcome_kept_update i f db :
  (∀ r, instances db !! i = Some r → i_status r ≠ "running" → outcome (f r) = outcome r) →
  outcome_kept db (update_instance i f db).2.
Proof.
  intros Hf j r Hj Hs. rewrite update_instance_db. simpl.
  destruct (decide (i = j)) as [<-|Hne].
  - exists (f r). rewrite lookup_alter_eq, Hj. simpl. split; [done|by apply Hf].
  - exists r. by rewrite lookup_alter_ne.
Qed.

Lemma outcome_kept_same db db' : instances db' = instances db → outcome_kept db db'.
Proof. intros E i r Hr _. rewrite E. eauto. Qed.

Lemma guarded_op_keeps_outcome {A} (o : pop A) : guarded_op o → DbGuarantees outcome_kept o.
Proof.
  intros Hg c db.
  destruct o; simpl in *; try done; unfold_ops;
    repeat (case_goal; simplify_eq/=; try done);
    try (by apply outcome_kept_same);
    try (by apply outcome_kept_update);
    try (match goal with H : update_instance ?i ?f db = _ |- _ =>
           pose proof (outcome_kept_update i f db ltac:(done)) as Hk; by rewrite H in Hk end).
  - intros j r Hj _. simpl. exists r. split; [|done].
    rewrite lookup_insert_ne; [done|]. intros ->. congruence.
  - apply outcome_kept_update. intros r' Hr' Hs. exfalso. apply Hs.
    unfold complete_guard in *. rewrite Hg in *.
    apply negb_false_iff, bool_decide_eq_true in Heqb. congruence.
Qed.

Lemma running_clean_update i f db :
  (∀ r, instances db !! i = Some r →
     (i_status r = "running" → i_finished_at r = None ∧ i_termination_reason r = None) →
     i_status (f r) = "running" → i_finished_at (f r) = None ∧ i_termination_reason (f r) = None) →
  running_clean db → running_clean (update_instance i f db).2.
Proof.
  intros Hf Hc j r. rewrite update_instance_db. simpl.
  destruct (decide (i = j)) as [<-|Hne].
  - rewrite lookup_alter_eq. intros (r' & Hr' & ->)%fmap_Some. apply Hf; [done|].
    by apply (Hc i).
  - rewrite lookup_alter_ne by done. apply Hc.
Qed.

Lemma clean_op_keeps_clean {A} (o : pop A) :
  clean_op o → DbGuarantees (preserving running_clean) o.
Proof.
  intros Hg c db Hc.
  destruct o; simpl in *; try done; unfold_ops;
    repeat (case_goal; simplify_eq/=; try done);
    try (by apply running_clean_update);
    try (match goal with H : update_instance ?i ?f db = _ |- _ =>
           pose proof (running_clean_update i f db ltac:(naive_solver) Hc) as Hk;
           by rewrite H in Hk end).
  - apply map_Forall_insert_2; [done|]. exact Hc.
  - intros i r [Hr _]%map_lookup_filter_Some. by apply (Hc i).
Qed.

Lemma leaves_checkpoint_guarantees key r X (e : eff X) :
  leaves_checkpoint key X e →
  Guarantees (on_db (preserving (λ db, checkpoints db !! key = Some r))) e.
Proof.
  apply (guarantees_op_class (λ A o, ¬ writes_checkpoint key o)); [apply _|].
  intros A o. apply leaves_checkpoint_op.
Qed.

Lemma guarded_guarantees X (e : eff X) : guarded X e → Guarantees (on_db outcome_kept) e.
Proof.
  apply (guarantees_op_class (λ A o, guarded_op o)); [apply _|].
  intros A o. apply guarded_op_keeps_outcome.
Qed.

Lemma clean_guarantees X (e : eff X) :
  clean X e → Guarantees (on_db (preserving running_clean)) e.
Proof.
  apply (guarantees_op_class (λ A o, clean_op o)); [apply _|].
  intros A o. apply clean_op_keeps_clean.
Qed.

(** ** The wake scan *)

Lemma StronglySorted_take_drop {A} (R : A → A → Prop) n (l : list A) x y :
  StronglySorted R l → x ∈ take n l → y ∈ drop n l → R x y.
Proof.
  intros Hs Hx Hy. rewrite <-(take_drop n l) in Hs.
  apply StronglySorted_app in Hs as (H & _ & _). by apply H.
Qed.

Lemma StronglySorted_take {A} (R : A → A → Prop) n (l : list A) :
  StronglySorted R l → StronglySorted R (take n l).
Proof.
  intros Hs. rewrite <-(take_drop n l) in Hs.
  by apply StronglySorted_app in Hs as (_ & ? & _).
Qed.

Lemma StronglySorted_fmap {A B} (R : A → A → Prop) (S : B → B → Prop) (f : A → B) l :
  (∀ x y, R x y → S (f x) (f y)) → StronglySorted R l → StronglySorted S (f <$> l).
Proof.
  intros Hf. induction 1 as [|x l Hs IH Hx]; [constructor|]. simpl. constructor; [done|].
  apply Forall_fmap. eapply Forall_impl; [exact Hx|]. intros y. apply Hf.
Qed.

Lemma elem_of_due_rows t db i r :
  (i, r) ∈ due_rows t db ↔ instances db !! i = Some r ∧ sleep_due t r = true.
Proof.
  unfold due_rows. rewrite elem_of_order_by, list_elem_of_filter, elem_of_map_to_list.
  simpl. tauto.
Qed.

Lemma due_ok c limit db :
  0 ≤ limit →
  op_get_sleeping_instances_due c limit db =
    Ok ((λ ir, listing_of_row ir.1 ir.2) <$> take (Z.to_nat limit) (due_rows (now c) db)).
Proof.
  intros Hl. unfold op_get_sleeping_instances_due.
  destruct (Z.ltb_spec limit 0) as [|_]; [lia|done].
Qed.

Lemma sleep_key_due t ir :
  sleep_due t ir.2 = true → i_sleep_until ir.2 = Some (sleep_key ir) ∧ sleep_key ir ≤ t.
Proof.
  unfold sleep_due, sleep_key. destruct (i_sleep_until ir.2) as [s|]; [|done].
  intros [Hs _]%andb_true_iff. simpl. split; [done|lia].
Qed.

(** Everything the scan returns is suspended and due, in order of its deadline,
    and there are at most [limit]. *)
Lemma wake_scan_sound c limit db :
  0 ≤ limit →
  ∃ l, op_get_sleeping_instances_due c limit db = Ok l ∧
    (∀ rec, rec ∈ l → due (now c) (ir_instance_id rec) db ∧ ir_status rec = "suspended") ∧
    StronglySorted (le_key (λ rec, default 0 (ir_sleep_until rec))) l ∧
    Z.of_nat (length l) ≤ limit.
Proof.
  intros Hl. eexists. split; [by apply due_ok|]. split; [|split].
  - intros rec ([i r] & -> & Hin)%list_elem_of_fmap. simpl.
    apply elem_of_take in Hin as (n & Hn & _). apply list_elem_of_lookup_2, elem_of_due_rows in Hn.
    destruct Hn as [Hr Hd]. split; [by exists r|].
    unfold sleep_due in Hd. destruct (i_sleep_until r); [|done].
    apply andb_true_iff in Hd as [_ Hd]. by apply bool_decide_eq_true in Hd.
  - eapply (StronglySorted_fmap (le_key sleep_key)); [by intros [] []|].
    apply StronglySorted_take, order_by_sorted.
  - rewrite length_fmap, length_take. lia.
Qed.

(** A due row the scan leaves out is no earlier than every row it returns, and
    it is left out only because the batch is full. *)
Lemma wake_scan_complete c limit db l i r :
  0 ≤ limit →
  op_get_sleeping_instances_due c limit db = Ok l →
  instances db !! i = Some r → sleep_due (now c) r = true →
  (∃ rec, rec ∈ l ∧ ir_instance_id rec = i) ∨
  (Z.of_nat (length l) = limit ∧
   ∀ rec, rec ∈ l → default 0 (ir_sleep_until rec) ≤ default 0 (i_sleep_until r)).
Proof.
  intros Hl Hop Hr Hd. rewrite due_ok in Hop by done. injection Hop as <-.
  assert (Hin : (i, r) ∈ due_rows (now c) db) by by apply elem_of_due_rows.
  rewrite <-(take_drop (Z.to_nat limit) (due_rows _ _)) in Hin.
  apply elem_of_app in Hin as [Hin|Hin].
  - left. exists (listing_of_row i r). split; [|done].
    apply list_elem_of_fmap. by exists (i, r).
  - right. split.
    + rewrite length_fmap, length_take.
      destruct (drop (Z.to_nat limit) (due_rows (now c) db)) eqn:Hdrop; [by apply not_elem_of_nil in Hin|].
      assert (length (drop (Z.to_nat limit) (due_rows (now c) db)) ≠ 0%nat) by by rewrite Hdrop.
      rewrite length_drop in *. lia.
    + intros rec ([j r'] & -> & Hj)%list_elem_of_fmap. simpl.
      change (le_key sleep_key (j, r') (i, r)).
      eapply StronglySorted_take_drop; [apply order_by_sorted|exact Hj|exact Hin].
Qed.

(** ** Events *)

(** A completion report on a running instance. *)
Lemma event_complete_wp `{Ext} ev w r p :
  instances (w_db w) !! ie_instance_id ev = Some r → i_status r = "running" →
  ie_instance_id ev ≠ "" →
  event_status_update ev =
    bind_ok (pers (CompleteInstance p)) (λ _, ok tt) →
  cip_instance_id p = ie_instance_id ev → 
  enum_ok instance_status_values (cip_status p) = true →
  enum_ok_opt termination_reason_values (cip_termination_reason p) = true →
  wp calm (handle_instance_event ev) (λ res w',
    res = Ok {| ier_success := true; ier_error := None |} ∧
    ∃ c, w_now w ≤ now c ≤ w_now w' ∧
      instances (w_db w') !! ie_instance_id ev = Some (complete_row c p r)) w.
Proof.
  intros Hr Hrun Hne Hupd Hid Hs Ht. unfold handle_instance_event.
  rewrite decide_False by done. rewrite Hupd.
  assert (Hev : ∀ e, enum_ok instance_event_type_values (map_event_type e) = true)
    by (intros []; reflexivity).
  unfold bind_ok.
  destruct (from_timestamp_millis (ie_timestamp_ms ev)) as [t|]; simpl.
  2: step_calm.
  all: step_calm; unfold op_insert_event; simpl; rewrite Hr, Hev; simpl.
  all: step_calm; unfold op_complete_instance_unified, complete_guard; simpl;
    rewrite Hid; simpl; rewrite Hr, bool_decide_true, Hs, Ht by done; simpl.
  all: rewrite (instances_update _ _ _ r) by done; simpl.
  all: destruct (cip_guard p); simpl; apply wp_ret; simpl.
  all: split; [done|]; eexists; (split; [|apply lookup_insert_eq]); simpl in *; lia.
Qed.

Lemma lookup_insert_due i r (m : gmap string instances_row) db t :
  instances db = <[i := r]> m → due t i db ↔ sleep_due t r = true.
Proof.
  intros E. unfold due. rewrite E, lookup_insert_eq. split; [|eauto].
  by intros (r' & [= <-] & ?).
Qed.

Lemma sleep_event_wp `{Ext} ev w r k s t :
  instances (w_db w) !! ie_instance_id ev = Some r → i_status r = "running" →
  ie_instance_id ev ≠ "" →
  event_type_of_i32 (ie_event_type ev) = EventSuspended →
  ie_payload ev ≠ [] → ie_checkpoint_id ev = Some k →
  parse_sleep_payload (ie_payload ev) = Some {| sp_wake_at := Some t; sp_state := s |} →
  wp calm (handle_instance_event ev) (λ res w',
    res = Ok {| ier_success := true; ier_error := None |} ∧
    holds_state (ie_instance_id ev, k) s (w_db w') ∧
    (∃ r', instances (w_db w') !! ie_instance_id ev = Some r' ∧
       i_status r' = "suspended" ∧ i_checkpoint_id r' = Some k ∧
       i_termination_reason r' = Some "sleeping" ∧ i_sleep_until r' = Some t)) w.
Proof.
  intros Hr Hrun Hne Hty Hpl Hk Hparse. unfold handle_instance_event.
  rewrite decide_False by done. unfold event_status_update. rewrite Hty, Hk.
  destruct (ie_payload ev) as [|b pl]; [done|]. cbn [payload_opt]. rewrite Hparse.
  unfold bind_ok. simpl.
  destruct (from_timestamp_millis (ie_timestamp_ms ev)) as [t0|]; simpl.
  2: step_calm.
  all: step_calm; unfold op_insert_event; simpl; rewrite Hr; simpl.
  all: step_calm; unfold op_save_checkpoint; simpl; rewrite Hr; simpl.
  all: step_calm; unfold op_update_instance_checkpoint;
    rewrite (instances_update _ _ _ r) by done; simpl.
  all: step_calm; unfold op_set_instance_sleep;
    erewrite instances_update by apply lookup_insert_eq; simpl.
  all: step_calm; unfold op_complete_instance_unified, complete_guard; simpl;
    rewrite lookup_insert_eq; simpl; rewrite bool_decide_true by done; simpl.
  all: erewrite instances_update by apply lookup_insert_eq; simpl.
  all: apply wp_ret; simpl; split; [done|]; split;
    [eexists; split; [apply lookup_insert_eq|by case_goal]
    |eexists; split; [apply lookup_insert_eq|done]].
Qed.

(** ** Signals *)

Lemma shutdown_ack_wp ack w r :
  instances (w_db w) !! sa_instance_id ack = Some r →
  sa_acknowledged ack = true → signal_type_of_i32 (sa_signal_type ack) = SignalShutdown →
  wp calm (handle_signal_ack ack) (λ res w',
    res = Ok tt ∧ ∃ r', instances (w_db w') !! sa_instance_id ack = Some r' ∧
      i_status r' = "suspended" ∧ i_termination_reason r' = Some "shutdown_requested" ∧
      ∃ t, i_sleep_until r' = Some t ∧ w_now w ≤ t ≤ w_now w') w.
Proof.
  intros Hr Hack Hty. unfold handle_signal_ack. rewrite Hack, Hty. unfold bind_ok. simpl.
  step_calm.
  assert (Hins : ∀ c i db, instances (op_acknowledge_signal c i db).2 = instances db).
  { intros c i db. unfold op_acknowledge_signal. repeat (case_goal; simpl; try done). }
  assert (Hok : ∀ c i db, (op_acknowledge_signal c i db).1 = Ok tt).
  { intros c i db. unfold op_acknowledge_signal. repeat (case_goal; simpl; try done). }
  rewrite Hok. simpl.
  step_calm. unfold op_complete_instance_unified, complete_guard. simpl.
  rewrite Hins, Hr. simpl. erewrite instances_update by (by rewrite Hins). simpl.
  step_calm. step_calm. unfold op_set_instance_sleep.
  erewrite instances_update by apply lookup_insert_eq. simpl.
  apply wp_ret. simpl. split; [done|]. eexists. split; [apply lookup_insert_eq|]. simpl.
  split; [done|]. split; [done|]. eexists. split; [done|]. simpl in *. lia.
Qed.

Lemma sleep_due_suspended t r u :
  i_sleep_until r = Some u → i_status r = "suspended" → sleep_due t r = (u <=? t).
Proof.
  intros E Hs. unfold sleep_due. rewrite E, Hs. by rewrite bool_decide_true, andb_true_r.
Qed.

(** ** Registration *)

Lemma register_over_cap_wp st req w n :
  fresh_request req (w_db w) → w_core_draining w = false →
  op_count_active_instances (w_db w) = Ok n →
  0 < max_concurrent_instances st ≤ n →
  wp calm (handle_register_instance st req) (λ res w',
    res = Ok (register_refused ERROR_MAX_CONCURRENT_INSTANCES) ∧ w_db w' = w_db w) w.
Proof.
  intros (H1 & H2 & H3 & H4) Hdr Hn Hcap. unfold handle_register_instance.
  rewrite !decide_False by done. simpl.
  step_calm. rewrite H4. simpl. step_calm. rewrite Hdr, H3. simpl.
  destruct (Z.ltb_spec 0 (max_concurrent_instances st)) as [_|]; [|lia]. simpl.
  injection Hn as <-. step_calm.
  match goal with |- context [?a <=? ?b] => destruct (Z.leb_spec a b) as [_|]; [|lia] end.
  by apply wp_ret.
Qed.

(** The steps of a registration once it has been admitted. *)
Ltac register_tail :=
  step_calm; unfold op_register_instance; rewrite decide_False by done;
  match goal with H : instances _ !! _ = None |- _ => rewrite H end; simpl;
  step_calm; step_calm; unfold op_update_instance_status; simpl; rewrite lookup_insert_eq; simpl;
  erewrite instances_update by apply lookup_insert_eq; simpl;
  step_calm; unfold op_insert_event; simpl; rewrite lookup_insert_eq; simpl;
  apply wp_ret; split; [done|]; eexists; split; [apply lookup_insert_eq|];
  simpl; repeat split; eauto.

Lemma register_success_wp st req w :
  fresh_request req (w_db w) → w_core_draining w = false →
  (∀ n, op_count_active_instances (w_db w) = Ok n → n < max_concurrent_instances st) →
  wp calm (handle_register_instance st req) (λ res w',
    res = Ok {| rresp_success := true; rresp_error := "" |} ∧
    ∃ r, instances (w_db w') !! rr_instance_id req = Some r ∧
      i_status r = "running" ∧ i_tenant_id r = rr_tenant_id req ∧
      i_finished_at r = None ∧ is_Some (i_started_at r)) w.
Proof.
  intros (H1 & H2 & H3 & H4) Hdr Hcap. unfold handle_register_instance.
  rewrite !decide_False by done. simpl.
  step_calm. rewrite H4. simpl. step_calm. rewrite Hdr, H3. simpl.
  destruct (0 <? max_concurrent_instances st); simpl.
  { specialize (Hcap _ eq_refl). step_calm.
    match goal with |- context [?a <=? ?b] => destruct (Z.leb_spec a b); [lia|] end. simpl.
    register_tail. }
  register_tail.
Qed.

(** ** A checkpoint is written once by the checkpoint handler *)

Lemma leaves_checkpoint_handle_checkpoint key req :
  key ≠ (cr_instance_id req, cr_checkpoint_id req) →
  all_effs (leaves_checkpoint key) (handle_checkpoint req).
Proof.
  intros Hne. unfold handle_checkpoint, get_pending_signal. solve_effs; simpl; tauto.
Qed.

Lemma checkpoint_write_once_wp req w key r :
  checkpoints (w_db w) !! key = Some r →
  wp anytime (handle_checkpoint req)
    (λ _ w', checkpoints (w_db w') !! key = Some r) w.
Proof.
  intros Hr. destruct (decide (key = (cr_instance_id req, cr_checkpoint_id req))) as [->|Hne].
  - unfold handle_checkpoint, get_pending_signal, bind_ok. simpl.
    apply wp_pers_any. intros n m _. simpl. split; [by apply wp_ret|]. split; [by apply wp_ret|].
    destruct (instances (w_db w) !! cr_instance_id req) as [row|]; simpl; [|by apply wp_ret].
    destruct (bool_decide (i_status row = "running")); simpl; [|by apply wp_ret].
    apply wp_pers_any. intros n' m' _. simpl.
    split; [by apply wp_ret|]. split; [by apply wp_ret|]. rewrite Hr. simpl.
    apply wp_pers_any. intros n2 m2 _. simpl.
    split; [|split]; apply wp_pers_any; intros n3 m3 _; simpl;
      (split; [|split]); by apply wp_ret.
  - apply (wp_guarantee (on_db (preserving (λ db, checkpoints db !! key = Some r))));
      [intros w1 w2 H; apply H| |done].
    eapply all_effs_impl; [apply leaves_checkpoint_guarantees|].
    by apply leaves_checkpoint_handle_checkpoint.
Qed.

(** ** Theorems *)

(** C3: Durable replay.  When a running instance stores a non-empty state under a
    fresh checkpoint, the handler answers "not found"; and as long as nobody
    saves that checkpoint again or deletes the instance, whatever other tasks
    interleave and whatever faults they meet, every later call for the same
    checkpoint (with any state) answers "found" with the state stored first. *)
Theorem checkpoint_replay i k s s' ts ts' w l l' w2 :
  running i (w_db w) → checkpoints (w_db w) !! (i, k) = None → s ≠ [] →
  (∀ n, calm (ts n)) → (∀ n, calm (ts' n)) →
  let first :=
    run (handle_checkpoint {| cr_instance_id := i; cr_checkpoint_id := k; cr_state := s |}) ts w in
  rtc pool_step (l, first.2) (l', w2) →
  Forall (all_effs (leaves_checkpoint (i, k))) l →
  running i (w_db w2) →
  let again :=
    run (handle_checkpoint {| cr_instance_id := i; cr_checkpoint_id := k; cr_state := s' |})
      ts' w2 in
  (∃ resp, first.1 = Ok resp ∧ cresp_found resp = false) ∧
  (∃ resp, again.1 = Ok resp ∧ cresp_found resp = true ∧ cresp_state resp = s) ∧
  w_db again.2 = w_db w2.
Proof.
  intros (r & Hr & Hrun) Hno Hne Hts Hts' first Hpool Hall Hrun2 again.
  set (req := {| cr_instance_id := i; cr_checkpoint_id := k; cr_state := s |}).
  destruct (wp_run _ _ _ _ (checkpoint_fresh_wp req w r Hr Hrun Hno Hne) ts Hts)
    as (Hfirst & (cp & Hcp & Hs) & _).
  assert (Hcp2 : checkpoints (w_db w2) !! (i, k) = Some cp).
  { apply (pool_invariant (λ db, checkpoints db !! (i, k) = Some cp) _ _ _ _ Hpool);
      [|exact Hcp].
    eapply Forall_impl; [exact Hall|]. intros p. apply all_effs_impl.
    intros X e. apply leaves_checkpoint_guarantees. }
  split; [exact Hfirst|].
  apply (wp_run _ _ _ _ (checkpoint_found_wp
    {| cr_instance_id := i; cr_checkpoint_id := k; cr_state := s' |} w2 s Hrun2
    (ex_intro _ cp (conj Hcp2 Hs))) ts' Hts').
Qed.

Lemma checkpoint_replay_witness :
  let req s := {| cr_instance_id := "i"; cr_checkpoint_id := "k"; cr_state := s |} in
  let first := run (handle_checkpoint (req ["1"%byte])) calm_ticks running_world in
  ∃ resp, (run (handle_checkpoint (req ["2"%byte])) calm_ticks first.2).1 = Ok resp ∧
    cresp_found resp = true ∧ cresp_state resp = ["1"%byte].
Proof.
  intros req first.
  assert (Hrun : ∀ db, instances db !! "i" ≫= (λ r, Some (i_status r)) = Some "running" →
                   running "i" db).
  { intros db. destruct (instances db !! "i") as [r|] eqn:E; [|done]. simpl. intros [= Hr].
    by exists r. }
  destruct (checkpoint_replay "i" "k" ["1"%byte] ["2"%byte] calm_ticks calm_ticks running_world
              [] [] first.2) as (_ & H & _);
    [apply Hrun; reflexivity|reflexivity|done|apply calm_ticks_calm|apply calm_ticks_calm
    |apply rtc_refl|constructor|apply Hrun; vm_compute; reflexivity|exact H].
Defined.

(** Write once.  Whatever its request, and whichever of its database calls
    fail or lose their reply, the checkpoint handler never alters a checkpoint
    row that exists when it is called. *)
Lemma checkpoint_write_once req ts w key r :
  checkpoints (w_db w) !! key = Some r →
  checkpoints (w_db (run (handle_checkpoint req) ts w).2) !! key = Some r.
Proof.
  intros Hr. by apply (wp_run _ _ _ _ (checkpoint_write_once_wp req w key r Hr)).
Qed.

(** The running world after it stored one checkpoint. *)
Lemma checkpoint_write_once_witness :
  let req s := {| cr_instance_id := "i"; cr_checkpoint_id := "k"; cr_state := s |} in
  let w := (run (handle_checkpoint (req ["1"%byte])) calm_ticks running_world).2 in
  ∃ r, checkpoints (w_db w) !! ("i", "k") = Some r ∧
    checkpoints (w_db (run (handle_checkpoint (req ["2"%byte]))
      (λ _, {| quiet with t_fault := LostReply |}) w).2) !! ("i", "k") = Some r.
Proof.
  intros req w. eexists. split; [vm_compute; reflexivity|].
  apply checkpoint_write_once. vm_compute. reflexivity.
Defined.

(** Schema integrity.  Every reachable database is well formed: starting from
    a well-formed one, any number of tasks running any programs over the
    persistence interface, interleaved one statement at a time and with any
    failing or lost statements, keep enum columns in range, child rows attached
    to existing instances and generated ids unique. *)
Lemma any_interleaving_keeps_wf l w l' w' :
  rtc pool_step (l, w) (l', w') → wf_db (w_db w) → wf_db (w_db w').
Proof.
  intros Hpool. apply (pool_invariant wf_db _ _ _ _ Hpool).
  apply Forall_forall. intros p _. apply wf_program.
Qed.

Lemma any_interleaving_keeps_wf_witness :
  wf_db (w_db (perform quiet (world_of empty_db)
    (Pers (RegisterInstance "i" "acme"))).2).
Proof.
  eapply (any_interleaving_keeps_wf [Vis (Pers (RegisterInstance "i" "acme")) (λ _, Ret tt)]
            (world_of empty_db) [Ret tt] _); [|apply wf_empty].
  apply rtc_once. apply (step_task [] []
    _ (Pers (RegisterInstance "i" "acme")) (λ _, Ret tt) quiet _ (Ok tt)).
  reflexivity.
Defined.

(** The wake scan is sound, ordered and fair: it returns only suspended
    instances whose deadline has passed, in order of their deadlines and at most
    [limit] of them; and a due instance is left out only when the batch is full
    of instances with deadlines no later than its own. *)
Lemma wake_scan_earliest_first c limit db :
  0 ≤ limit →
  ∃ l, op_get_sleeping_instances_due c limit db = Ok l ∧
    (∀ rec, rec ∈ l → due (now c) (ir_instance_id rec) db ∧ ir_status rec = "suspended") ∧
    StronglySorted (le_key (λ rec, default 0 (ir_sleep_until rec))) l ∧
    Z.of_nat (length l) ≤ limit ∧
    (∀ i r, instances db !! i = Some r → sleep_due (now c) r = true →
       (∃ rec, rec ∈ l ∧ ir_instance_id rec = i) ∨
       (Z.of_nat (length l) = limit ∧
        ∀ rec, rec ∈ l → default 0 (ir_sleep_until rec) ≤ default 0 (i_sleep_until r))).
Proof.
  intros Hl. destruct (wake_scan_sound c limit db Hl) as (l & Hop & H1 & H2 & H3).
  exists l. repeat (split; [done|]). intros i r. by apply (wake_scan_complete c).
Qed.

Lemma wake_scan_earliest_first_witness :
  ∃ l, op_get_sleeping_instances_due {| now := 50; msg := "" |} 10
    (db_with {| (row_with "suspended") with i_sleep_until := Some 40 |}) = Ok l ∧
    Z.of_nat (length l) ≤ 10.
Proof.
  destruct (wake_scan_earliest_first {| now := 50; msg := "" |} 10
    (db_with {| (row_with "suspended") with i_sleep_until := Some 40 |}) ltac:(lia))
    as (l & H1 & _ & _ & H2 & _). by exists l.
Defined.

(** Terminal events.  A completion or failure report for a running instance
    sets exactly its status, its output or error, and a finish time taken during
    the call, keeping every other column (error text that is not UTF-8 is
    replaced); a report with an empty payload has no output. *)
Lemma terminal_event_recorded `{Ext} ev ts w r :
  instances (w_db w) !! ie_instance_id ev = Some r → i_status r = "running" →
  ie_instance_id ev ≠ "" → (∀ n, calm (ts n)) →
  event_type_of_i32 (ie_event_type ev) = EventCompleted ∨
  event_type_of_i32 (ie_event_type ev) = EventFailed →
  let final := run (handle_instance_event ev) ts w in
  final.1 = Ok {| ier_success := true; ier_error := None |} ∧
  ∃ t, w_now w ≤ t ≤ w_now final.2 ∧
    instances (w_db final.2) !! ie_instance_id ev =
      Some (if decide (event_type_of_i32 (ie_event_type ev) = EventCompleted) then
              {| r with i_status := "completed"; i_output := payload_opt (ie_payload ev);
                        i_error := None; i_finished_at := Some t |}
            else
              {| r with i_status := "failed"; i_output := None;
                        i_error := Some (failure_text (ie_payload ev));
                        i_finished_at := Some t |}).
Proof.
  intros Hr Hrun Hne Hts Hty final.
  destruct Hty as [Hty|Hty]; rewrite Hty; simpl.
  - set (p := match payload_opt (ie_payload ev) with
              | Some o => with_output o (if_running (params_new (ie_instance_id ev) "completed"))
              | None => if_running (params_new (ie_instance_id ev) "completed")
              end).
    assert (Hupd : event_status_update ev = bind_ok (pers (CompleteInstance p)) (λ _, ok tt))
      by (unfold event_status_update; by rewrite Hty).
    assert (Hid : cip_instance_id p = ie_instance_id ev ∧ cip_status p = "completed" ∧
                  cip_termination_reason p = None)
      by (unfold p; by destruct (payload_opt (ie_payload ev))).
    destruct Hid as (Hid & Hst & Htr).
    destruct (wp_run _ _ _ _ (event_complete_wp ev w r p Hr Hrun Hne Hupd Hid
      ltac:(by rewrite Hst) ltac:(by rewrite Htr)) ts Hts) as (Hres & c & Hc & Hrow).
    split; [done|]. exists (now c). split; [done|]. unfold final. rewrite Hrow. unfold p.
    by destruct (payload_opt (ie_payload ev)).
  - destruct (wp_run _ _ _ _ (event_complete_wp ev w r
      (with_error (failure_text (ie_payload ev))
         (if_running (params_new (ie_instance_id ev) "failed")))
      Hr Hrun Hne ltac:(unfold event_status_update; by rewrite Hty)
      eq_refl eq_refl eq_refl) ts Hts) as (Hres & c & Hc & Hrow).
    split; [done|]. exists (now c). split; [done|]. unfold final. by rewrite Hrow.
Qed.

Lemma terminal_event_recorded_witness :
  let ev := {| ie_instance_id := "i"; ie_event_type := 2; ie_checkpoint_id := None;
               ie_payload := ["1"%byte]; ie_timestamp_ms := 7; ie_subtype := None |} in
  ∃ r t, instances (w_db (run (handle_instance_event ev) calm_ticks running_world).2) !! "i"
    = Some {| r with i_status := "completed"; i_output := Some ["1"%byte];
                     i_error := None; i_finished_at := Some t |}.
Proof.
  intros ev. destruct (terminal_event_recorded ev calm_ticks running_world (row_with "running"))
    as (_ & t & _ & H); [reflexivity|reflexivity|done|apply calm_ticks_calm|by left|].
  exists (row_with "running"), t. exact H.
Defined.

(** Durable sleep.  A suspend report that carries a wake time and a state
    stores the state under the event's checkpoint, suspends the instance with
    reason "sleeping", and makes the wake scan select it exactly from the wake
    time on. *)
Lemma sleep_event_schedules_wake `{Ext} ev ts w r k s t :
  instances (w_db w) !! ie_instance_id ev = Some r → i_status r = "running" →
  ie_instance_id ev ≠ "" → (∀ n, calm (ts n)) →
  event_type_of_i32 (ie_event_type ev) = EventSuspended →
  ie_payload ev ≠ [] → ie_checkpoint_id ev = Some k →
  parse_sleep_payload (ie_payload ev) = Some {| sp_wake_at := Some t; sp_state := s |} →
  let final := run (handle_instance_event ev) ts w in
  final.1 = Ok {| ier_success := true; ier_error := None |} ∧
  holds_state (ie_instance_id ev, k) s (w_db final.2) ∧
  ∀ t', due t' (ie_instance_id ev) (w_db final.2) ↔ t ≤ t'.
Proof.
  intros Hr Hrun Hne Hts Hty Hpl Hk Hparse final.
  destruct (wp_run _ _ _ _ (sleep_event_wp ev w r k s t Hr Hrun Hne Hty Hpl Hk Hparse) ts Hts)
    as (Hres & Hst & r' & Hr' & Hs & _ & _ & Hu).
  split; [done|]. split; [done|]. intros t'. unfold due. split.
  - intros (r1 & Hr1 & Hd). unfold final in Hr1. rewrite Hr' in Hr1. injection Hr1 as <-.
    rewrite (sleep_due_suspended _ _ t) in Hd by done. lia.
  - intros Ht. exists r'. split; [done|]. rewrite (sleep_due_suspended _ _ t) by done. lia.
Qed.

Lemma sleep_event_schedules_wake_witness :
  let ev := {| ie_instance_id := "i"; ie_event_type := 4; ie_checkpoint_id := Some "k";
               ie_payload := ["1"%byte]; ie_timestamp_ms := 7; ie_subtype := None |} in
  let final := run (handle_instance_event ev) calm_ticks running_world in
  due 5000 "i" (w_db final.2) ∧ ¬ due 4999 "i" (w_db final.2).
Proof.
  intros ev final.
  destruct (sleep_event_schedules_wake ev calm_ticks running_world (row_with "running") "k"
    (list_byte_of_string "c3RhdGU=") 5000) as (_ & _ & H);
    [reflexivity|reflexivity|done|apply calm_ticks_calm|reflexivity|done|reflexivity
    |vm_compute; reflexivity|].
  split; [apply H; lia|]. intros Hd. apply H in Hd. lia.
Defined.

(** Shutdown acknowledgement.  When an instance acknowledges a shutdown
    signal it ends suspended with reason "shutdown_requested" and is due for the
    wake scan from then on, so that it is relaunched after the restart. *)
Lemma shutdown_ack_due ack ts w r :
  instances (w_db w) !! sa_instance_id ack = Some r →
  sa_acknowledged ack = true → signal_type_of_i32 (sa_signal_type ack) = SignalShutdown →
  (∀ n, calm (ts n)) →
  let final := run (handle_signal_ack ack) ts w in
  final.1 = Ok tt ∧
  ∀ t, w_now final.2 ≤ t → due t (sa_instance_id ack) (w_db final.2).
Proof.
  intros Hr Hack Hty Hts final.
  destruct (wp_run _ _ _ _ (shutdown_ack_wp ack w r Hr Hack Hty) ts Hts)
    as (Hres & r' & Hr' & Hs & _ & u & Hu & Hle).
  split; [done|]. intros t Ht. exists r'. split; [done|].
  rewrite (sleep_due_suspended _ _ u) by done. unfold final in Ht. lia.
Qed.

Lemma shutdown_ack_due_witness :
  let ack := {| sa_instance_id := "i"; sa_signal_type := 3; sa_acknowledged := true |} in
  let final := run (handle_signal_ack ack) calm_ticks running_world in
  due (w_now final.2) "i" (w_db final.2).
Proof.
  intros ack final.
  destruct (shutdown_ack_due ack calm_ticks running_world (row_with "running")) as [_ H];
    [reflexivity|reflexivity|reflexivity|apply calm_ticks_calm|].
  apply H. apply Z.le_refl.
Defined.

(** Admission control.  A first registration of an instance is refused, with
    the database unchanged, when the number of running and suspended instances
    has reached a non-zero cap; below the cap it succeeds and leaves the
    instance running under its tenant, started and not finished. *)
Lemma registration_respects_cap st req ts w n :
  fresh_request req (w_db w) → w_core_draining w = false → (∀ n, calm (ts n)) →
  op_count_active_instances (w_db w) = Ok n →
  let final := run (handle_register_instance st req) ts w in
  (0 < max_concurrent_instances st ≤ n →
     final.1 = Ok (register_refused ERROR_MAX_CONCURRENT_INSTANCES) ∧ w_db final.2 = w_db w) ∧
  (n < max_concurrent_instances st →
     final.1 = Ok {| rresp_success := true; rresp_error := "" |} ∧
     ∃ r, instances (w_db final.2) !! rr_instance_id req = Some r ∧
       i_status r = "running" ∧ i_tenant_id r = rr_tenant_id req ∧
       i_finished_at r = None ∧ is_Some (i_started_at r)).
Proof.
  intros Hreq Hdr Hts Hn final. split; intros Hcap.
  - apply (wp_run _ _ _ _ (register_over_cap_wp st req w n Hreq Hdr Hn Hcap) ts Hts).
  - apply (wp_run _ _ _ _ (register_success_wp st req w Hreq Hdr
      ltac:(intros n' Hn'; congruence)) ts Hts).
Qed.

Lemma registration_respects_cap_witness :
  let req := {| rr_instance_id := "j"; rr_tenant_id := "acme"; rr_checkpoint_id := None |} in
  (run (handle_register_instance (with_limits 1) req) calm_ticks running_world).1 =
    Ok (register_refused ERROR_MAX_CONCURRENT_INSTANCES) ∧
  (run (handle_register_instance (with_limits 2) req) calm_ticks running_world).1 =
    Ok {| rresp_success := true; rresp_error := "" |}.
Proof.
  intros req. split.
  - destruct (registration_respects_cap (with_limits 1) req calm_ticks running_world 1)
      as [H _]; [by repeat split|reflexivity|apply calm_ticks_calm|reflexivity|].
    apply H. simpl. lia.
  - destruct (registration_respects_cap (with_limits 2) req calm_ticks running_world 1)
      as [_ H]; [by repeat split|reflexivity|apply calm_ticks_calm|reflexivity|].
    apply H. simpl. lia.
Defined.
