(* ===== verification/Recovery.v ===== *)
(** * runtara-environment: automatic recovery after a restart

    [recovery.rs]: the crash-loop decision, the environment variables that
    configure it, and [recover_or_fail]. *)

From S2P Require Import Prelude.
From S2P Require Import CoreTypes.
From S2P Require Import Json.
From S2P Require Import Persistence.
From S2P Require Import EnvTables.
From S2P Require Import Effects.
From S2P Require Import InstanceHandlers.
From S2P Require Import DbInvariants.
From S2P Require Import Scenarios.
From S2P Require Import CoreProperties.
Open Scope runtara_scope.

(** [std::env::var(name).ok()] *)
Class EnvVars := env_var : string → option string.

Definition DEFAULT_MAX_AUTO_RESTARTS : Z := 5.

Definition max_auto_restarts `{EnvVars} : Z :=
  default DEFAULT_MAX_AUTO_RESTARTS
    (v ← env_var "RUNTARA_MAX_AUTO_RESTARTS";
     n ← parse_i32 v;
     if 1 <=? n then Some n else None).

Definition auto_recover_enabled `{EnvVars} : bool :=
  match env_var "RUNTARA_AUTO_RECOVER" with
  | Some v => negb (bool_decide (to_ascii_lowercase (trim v) ∈ ["false"; "0"; "no"]))
  | None => true
  end.

Inductive RecoveryOutcome := Recovered | Failed.

Inductive RecoveryDecision :=
| Recover (attempt : Z)
| Fail (error : string).

(** [decide]; the increment of the [i32] counter wraps. *)
Definition recovery_decide (prev_attempts : Z) (prev_marker : option string) (progress cap : Z)
  (auto_recover : bool) : RecoveryDecision :=
  let made_progress :=
    default true ((λ p, p <? progress) <$> (prev_marker ≫= parse_i64)) in
  let attempt := if made_progress then 1 else wrap_i32 (prev_attempts + 1) in
  if negb auto_recover then
    Fail "Killed by Environment restart; automatic recovery is disabled for this workflow"
  else if cap <? attempt then
    Fail ("Killed by Environment restart; exceeded automatic restart limit ("
            +:+ show_Z cap +:+ ")")
  else Recover attempt.

Definition recover_or_fail `{EnvVars} (instance_id : string) (auto_recover : bool) :
  prog RecoveryOutcome :=
  let! counted := pers (CountCheckpoints instance_id None None None) in
  let progress := match counted with Ok n => n | Err _ => 0 end in
  let marker := show_Z progress in
  let! read := pers (GetInstance instance_id) in
  let '(prev_attempts, prev_marker) :=
    match read with
    | Ok (Some inst) => (ir_recovery_attempts inst, ir_recovery_marker inst)
    | _ => (0, None)
    end in
  match recovery_decide prev_attempts prev_marker progress max_auto_restarts auto_recover with
  | Fail e =>
      let! _ := pers (CompleteInstance
        (with_error e
           (with_termination "environment_restart" None
              (if_running (params_new instance_id "failed"))))) in
      Ret Failed
  | Recover attempt =>
      let! marked := pers (MarkForRecovery instance_id attempt (Some marker)) in
      Ret (match marked with Err _ => Failed | Ok _ => Recovered end)
  end.

(** The number of restarts, newest first, since the progress count last grew:
    the length of the longest prefix in which no count exceeds its predecessor. *)
Fixpoint stuck_restarts (counts : list Z) : Z :=
  match counts with
  | [] => 0
  | p :: older =>
      match older with
      | q :: _ => if q <? p then 1 else 1 + stuck_restarts older
      | [] => 1
      end
  end.

(** The counters a history of recoveries (newest first) leaves on the row. *)
Definition counters_after (counts : list Z) : Z * option string :=
  (stuck_restarts counts, show_Z <$> head counts).

(** An environment without variables. *)
#[export] Instance no_env_vars : EnvVars := λ _, None.

(** ** Decimal round trip *)

Lemma digit_val_char d : 0 ≤ d < 10 → digit_val (digit_char d) = Some d.
Proof.
  intros Hd.
  assert (d = 0 ∨ d = 1 ∨ d = 2 ∨ d = 3 ∨ d = 4 ∨ d = 5 ∨ d = 6 ∨ d = 7 ∨ d = 8 ∨ d = 9) by lia.
  by repeat match goal with H : _ ∨ _ |- _ => destruct H as [->|H] end; subst.
Qed.

Lemma read_show_aux fuel n acc :
  0 ≤ n < 10 ^ Z.of_nat fuel → (0 < fuel)%nat →
  ∃ c s', show_pos_aux fuel n acc = String c s' ∧ is_Some (digit_val c) ∧
    read_digits (show_pos_aux fuel n acc) 0 = read_digits acc n.
Proof.
  revert n acc. induction fuel as [|f IH]; intros n acc Hn Hf; [lia|].
  assert (Hm : 0 ≤ n mod 10 < 10) by (apply Z.mod_pos_bound; lia).
  simpl. destruct (Z.ltb_spec n 10) as [Hlt|Hge].
  - rewrite Z.mod_small by lia. eexists _, _. split; [done|]. simpl.
    rewrite digit_val_char by lia. split; [eauto|]. f_equal.
  - assert (Hdiv : 0 ≤ n / 10 < 10 ^ Z.of_nat f).
    { rewrite Nat2Z.inj_succ, Z.pow_succ_r in Hn by lia.
      split; [apply Z.div_pos; lia|apply Z.div_lt_upper_bound; lia]. }
    assert (Hf0 : (0 < f)%nat) by (destruct f; [simpl in Hdiv; pose proof (Z.div_le_lower_bound n 10 1); lia|lia]).
    destruct (IH (n / 10) (String (digit_char (n mod 10)) acc) Hdiv Hf0)
      as (c & s' & E & Hc & Hread).
    exists c, s'. split; [done|]. split; [done|]. rewrite Hread. simpl.
    rewrite digit_val_char by lia. f_equal.
    pose proof (Z.div_mod n 10 ltac:(lia)). lia.
Qed.

Lemma digit_not_sign c : is_Some (digit_val c) → Ascii.eqb c "-" = false ∧ Ascii.eqb c "+" = false.
Proof.
  intros [d Hd]. split; apply Ascii.eqb_neq; intros ->; vm_compute in Hd; discriminate.
Qed.

Lemma parse_show n : 0 ≤ n ≤ i64_max → parse_i64 (show_Z n) = Some n.
Proof.
  intros Hn. unfold parse_i64, parse_int, show_Z.
  destruct (Z.ltb_spec n 0) as [|_]; [lia|].
  destruct (read_show_aux 20 n "") as (c & s' & E & Hc & Hread).
  { split; [lia|]. unfold i64_max in Hn. change (10 ^ Z.of_nat 20) with 100000000000000000000. lia. }
  { lia. }
  destruct (digit_not_sign c Hc) as [Hm Hp]. rewrite E in *. rewrite Hm, Hp, Hread. simpl.
  unfold i64_min, i64_max in *.
  by destruct (Z.leb_spec (- 2 ^ 63) n), (Z.leb_spec n (2 ^ 63 - 1)); simpl; try lia.
Qed.

(** ** The decision *)

Lemma stuck_restarts_pos p l : 1 ≤ stuck_restarts (p :: l).
Proof.
  revert p. induction l as [|q l IH]; intros p; simpl; [lia|].
  destruct (q <? p); [lia|]. specialize (IH q). simpl in IH. lia.
Qed.

(** Crash-loop cap.  Let [counts] be the checkpoint counts of the recoveries
    so far (newest first, counters as those recoveries left them, none of them
    past the cap).  The next restart at [p] checkpoints is recovered, with the
    number of consecutive restarts without progress as its attempt number, as
    long as that number is within the cap, and failed otherwise; the [i32]
    counter never overflows. *)
Lemma decide_counts_stuck_restarts counts p cap :
  0 ≤ p ≤ i64_max → Forall (λ c, 0 ≤ c ≤ i64_max) counts →
  stuck_restarts counts ≤ cap → 1 ≤ cap < i32_max →
  let '(attempts, marker) := counters_after counts in
  recovery_decide attempts marker p cap true =
    (if stuck_restarts (p :: counts) <=? cap then Recover (stuck_restarts (p :: counts))
     else Fail ("Killed by Environment restart; exceeded automatic restart limit ("
                  +:+ show_Z cap +:+ ")")).
Proof.
  intros Hp Hall Hcap Hc. unfold counters_after, recovery_decide. simpl negb. cbn iota.
  destruct counts as [|q counts].
  - simpl. destruct (Z.ltb_spec cap 1), (Z.leb_spec 1 cap); try lia. done.
  - apply Forall_cons in Hall as [Hq _].
    replace (show_Z <$> head (q :: counts)) with (Some (show_Z q)) by done.
    cbn [mbind option_bind]. rewrite parse_show by done.
    change (stuck_restarts (p :: q :: counts)) with
      (if q <? p then 1 else 1 + stuck_restarts (q :: counts)).
    pose proof (stuck_restarts_pos q counts) as Hpos.
    cbn [fmap option_fmap option_map default from_option id].
    destruct (Z.ltb_spec q p).
    + destruct (Z.ltb_spec cap 1), (Z.leb_spec 1 cap); try lia. done.
    + rewrite wrap_i32_id by (unfold i32_min, i32_max in *; lia).
      rewrite (Z.add_comm (stuck_restarts _) 1).
      destruct (Z.ltb_spec cap (1 + stuck_restarts (q :: counts))),
        (Z.leb_spec (1 + stuck_restarts (q :: counts)) cap); try lia; done.
Qed.

Lemma decide_counts_stuck_restarts_witness :
  recovery_decide 5 (Some "3") 3 5 true =
    Fail ("Killed by Environment restart; exceeded automatic restart limit ("
            +:+ show_Z 5 +:+ ")") ∧
  recovery_decide 5 (Some "3") 4 5 true = Recover 1.
Proof.
  split.
  - apply (decide_counts_stuck_restarts [3; 3; 3; 3; 3] 3 5); [done|by repeat constructor|done|done].
  - apply (decide_counts_stuck_restarts [3; 3; 3; 3; 3] 4 5); [done|by repeat constructor|done|done].
Defined.
