(* ===== verification/EnvHandlers.v ===== *)
(** * runtara-environment: start, stop, resume and the container monitor

    [handlers.rs]: the request handlers that launch and stop instances, and the
    task [spawn_container_monitor] leaves behind for every launched process. *)

From S2P Require Import Prelude.
From S2P Require Import CoreTypes.
From S2P Require Import Json.
From S2P Require Import Persistence.
From S2P Require Import EnvTables.
From S2P Require Import Effects.
From S2P Require Import InstanceHandlers.
From S2P Require Import Recovery.
Open Scope runtara_scope.

(** ** Configuration and errors *)

(** The fields of [EnvironmentHandlerState] the handlers use as values. *)
Record EnvironmentHandlerState := { core_addr : string }.

Definition FALLBACK_INSTANCE_TIMEOUT_SECS : Z := 3600.

Definition default_instance_timeout `{EnvVars} : Z :=
  default FALLBACK_INSTANCE_TIMEOUT_SECS
    (v ← env_var "RUNTARA_DEFAULT_INSTANCE_TIMEOUT_SECS";
     s ← parse_u64 v;
     if 0 <? s then Some s else None).

(** The variants of [crate::error::Error] the modelled code builds. *)
Inductive EnvError : Type :=
| EDatabase (details : string)
| ERunner (details : string)
| ECore (e : CoreError)
| EImageNotFound (image_id : string)
| EOther (message : string).

Definition display_env_error (e : EnvError) : string :=
  match e with
  | EDatabase d => "Database error: " +:+ d
  | ERunner d => "Runner error: " +:+ d
  | ECore c => "Core error: " +:+ display_core_error c
  | EImageNotFound i => "Image not found: " +:+ i
  | EOther m => m
  end.

(** [?] on a query and on a persistence call. *)
Definition db_call {A} (o : eop A) : prog (result EnvError A) :=
  let! r := env o in
  Ret (match r with Ok a => Ok a | Err d => Err (EDatabase d) end).

Definition core_call {A} (o : pop A) : prog (result EnvError A) :=
  let! r := pers o in
  Ret (match r with Ok a => Ok a | Err e => Err (ECore e) end).

(** [chrono::Duration::from_std] on whole seconds, in microseconds: an error
    beyond [i64::MAX] milliseconds. *)
Definition duration_from_std (secs : Z) : result EnvError Z :=
  if secs <=? 9223372036854775 then Ok (secs * 1000000)
  else Err (EOther "Invalid duration: Source duration value is out of range for the target type").

(** [tail_chars]: the last [max] characters behind an ellipsis. *)
Definition tail_chars (s : string) (max : nat) : string :=
  let cs := chars s in
  if bool_decide (length cs ≤ max)%nat then s
  else "…" +:+ concat_str (drop (length cs - max) cs).

(** ** Start *)

Record StartInstanceRequest := {
  si_image_id : string;
  si_tenant_id : string;
  si_instance_id : option string;
  si_input : option json;
  si_timeout_seconds : option Z;
  si_env : gmap string string }.

Record StartInstanceResponse := {
  sresp_success : bool;
  sresp_instance_id : string;
  sresp_deduplicated : bool;
  sresp_error : option string }.

Definition start_refused (e : string) : StartInstanceResponse :=
  {| sresp_success := false; sresp_instance_id := ""; sresp_deduplicated := false;
     sresp_error := Some e |}.

Definition already_exists (instance_id : string) : StartInstanceResponse :=
  start_refused ("Instance '" +:+ instance_id +:+ "' already exists").

Definition existing_start_response (instance_id tenant_id image_id : string) :
  prog (result EnvError (option StartInstanceResponse)) :=
  let? existing := core_call (GetInstance instance_id) in
  match existing with
  | None => ok None
  | Some existing =>
      if negb (bool_decide (ir_tenant_id existing = tenant_id)) then
        ok (Some (already_exists instance_id))
      else
        let? existing_image := db_call (InstanceImageId instance_id) in
        match existing_image with
        | Some existing_image_id =>
            if bool_decide (existing_image_id = image_id) then
              ok (Some {| sresp_success := true; sresp_instance_id := instance_id;
                          sresp_deduplicated := true; sresp_error := None |})
            else ok (Some (already_exists instance_id))
        | None => ok (Some (already_exists instance_id))
        end
  end.

(** [enrich_input_for_storage]: merge the image's variable defaults, then strip
    variables that start with an underscore.  [None] is the panic of [expect]
    on an input that is not an object. *)
Definition enrich_input_for_storage (input : json) (image : Image) : option json :=
  let strip (j : json) : json :=
    match get_object "variables" j, j with
    | Some vars, JObject m =>
        JObject (assoc_set "variables"
          (JObject (filter (λ kv, starts_with_underscore kv.1 = false) vars)) m)
    | _, _ => j
    end in
  let defaults :=
    match img_metadata image with
    | Some metadata => get_object "variables" metadata
    | None => None
    end in
  match defaults with
  | None => Some (strip input)
  | Some default_vars =>
      match input with
      | JObject m =>
          let m1 := assoc_or_insert "variables" (JObject []) m in
          let m2 :=
            match get_object "variables" (JObject m1) with
            | Some vars =>
                assoc_set "variables"
                  (JObject (foldl (λ acc kv,
                     if starts_with_underscore kv.1 then acc
                     else assoc_or_insert kv.1 kv.2 acc) vars default_vars)) m1
            | None => m1
            end in
          Some (strip (JObject m2))
      | _ => None
      end
  end.

(** What follows a successful launch in [handle_start_instance]. *)
Definition start_launched (request : StartInstanceRequest) (image : Image)
  (instance_id : string) (timeout : Z) (handle : RunnerHandle) :
  prog (result EnvError StartInstanceResponse) :=
  let pid := wrap_i32 <$> rh_spawned_pid handle in
  let! _ := env (RegistryRegister
    {| ci_container_id := rh_handle_id handle; ci_instance_id := instance_id;
       ci_tenant_id := si_tenant_id request; ci_binary_path := img_binary_path image;
       ci_bundle_path := img_bundle_path image; ci_started_at := rh_started_at handle;
       ci_pid := pid; ci_timeout_seconds := Some (wrap_i64 timeout);
       ci_process_killed := false |}) in
  let! t := trigger UtcNow in
  let! _ := pers (UpdateInstanceStatus instance_id "running" (Some t)) in
  let! _ := trigger (SpawnMonitor
    {| ma_handle := handle; ma_timeout := timeout; ma_pid := pid |}) in
  ok {| sresp_success := true; sresp_instance_id := instance_id;
        sresp_deduplicated := false; sresp_error := None |}.

(** The instance is reserved: store the input, associate the image, launch. *)
Definition start_reserved `{Ext, EnvVars} (state : EnvironmentHandlerState)
  (request : StartInstanceRequest) (image : Image) (instance_id : string) (stored : json) :
  prog (result EnvError StartInstanceResponse) :=
  let input := default (JObject []) (si_input request) in
  let! _ :=
    match json_to_vec stored with
    | Some input_data => pers (StoreInstanceInput instance_id input_data)
    | None => Ret (Ok tt)
    end in
  let timeout := default default_instance_timeout (si_timeout_seconds request) in
  let! associated := env (AssociateInstanceImage instance_id (si_image_id request)
    (si_tenant_id request) (nonempty_env (Some (si_env request))) (Some (wrap_i64 timeout))) in
  match associated with
  | Err e => ok (start_refused ("Failed to create instance: " +:+ e))
  | Ok _ =>
      let! launched := trigger (LaunchDetached
        {| lo_instance_id := instance_id; lo_tenant_id := si_tenant_id request;
           lo_bundle_path := img_binary_path image; lo_input := input;
           lo_timeout := timeout; lo_core_addr := core_addr state;
           lo_checkpoint_id := None; lo_env := si_env request |}) in
      match launched with
      | Ok handle => start_launched request image instance_id timeout handle
      | Err e =>
          let launch_error := "Launch failed: " +:+ e in
          let! _ := pers (CompleteInstance
            (with_error launch_error (params_new instance_id "failed"))) in
          ok {| sresp_success := false; sresp_instance_id := instance_id;
                sresp_deduplicated := false; sresp_error := Some launch_error |}
      end
  end.

(** The image and the tenant check out: reserve the instance id. *)
Definition start_image `{Ext, EnvVars} (state : EnvironmentHandlerState)
  (request : StartInstanceRequest) (image : Image) :
  prog (result EnvError StartInstanceResponse) :=
  let! instance_id :=
    match si_instance_id request with
    | Some s => if decide (s = "") then trigger NewUuid else Ret s
    | None => trigger NewUuid
    end in
  let existing := existing_start_response instance_id (si_tenant_id request)
                    (si_image_id request) in
  let? response := existing in
  match response with
  | Some response => ok response
  | None =>
  let! is_file := trigger (IsFile (img_binary_path image)) in
  if negb is_file then
    ok (start_refused ("Image '" +:+ si_image_id request +:+ "' artifact not found"))
  else
  match enrich_input_for_storage (default (JObject []) (si_input request)) image with
  | None => err (EOther "input should be a JSON object")
  | Some stored =>
  let! registered := pers (RegisterInstance instance_id (si_tenant_id request)) in
  match registered with
  | Ok _ => start_reserved state request image instance_id stored
  | Err e =>
      let? response := existing in
      match response with
      | Some response => ok response
      | None =>
          ok (start_refused ("Failed to create instance: " +:+ display_core_error e))
      end
  end end end.

Definition handle_start_instance `{Ext, EnvVars} (state : EnvironmentHandlerState)
  (request : StartInstanceRequest) : prog (result EnvError StartInstanceResponse) :=
  if decide (si_image_id request = "") then ok (start_refused "image_id is required")
  else
  let! looked_up := db_call (ImageGet (si_image_id request)) in
  match looked_up with
  | Err e => ok (start_refused ("Database error: " +:+ display_env_error e))
  | Ok None => ok (start_refused ("Image '" +:+ si_image_id request +:+ "' not found"))
  | Ok (Some image) =>
      if negb (bool_decide (img_tenant_id image = si_tenant_id request)) then
        ok (start_refused ("Image '" +:+ si_image_id request +:+ "' not found"))
      else start_image state request image
  end.

(** ** Stop *)

Record StopInstanceRequest := {
  st_instance_id : string;
  st_reason : string;
  st_grace_period_seconds : Z }.

Record StopInstanceResponse := { stresp_success : bool; stresp_error : option string }.

(** The handle the registry entry of a container describes ([pid as u32]). *)
Definition handle_of_container (c : ContainerInfo) (instance_id : string) : RunnerHandle :=
  {| rh_handle_id := ci_container_id c; rh_instance_id := instance_id;
     rh_tenant_id := ci_tenant_id c; rh_started_at := ci_started_at c;
     rh_spawned_pid := (λ p, p mod 2 ^ 32) <$> ci_pid c |}.

Definition handle_stop_instance (request : StopInstanceRequest) :
  prog (result EnvError StopInstanceResponse) :=
  let i := st_instance_id request in
  let! looked_up := db_call (RegistryGet i) in
  match looked_up with
  | Err e =>
      ok {| stresp_success := false;
            stresp_error := Some ("Database error: " +:+ display_env_error e) |}
  | Ok None =>
      ok {| stresp_success := false;
            stresp_error := Some ("Instance '" +:+ i +:+ "' not found in container registry") |}
  | Ok (Some container) =>
      let grace_period := Z.max (st_grace_period_seconds request) 1 in
      let! _ := env (RequestCancellation i grace_period (st_reason request)) in
      let! _ := trigger (StopRunner (handle_of_container container i)) in
      let! _ := pers (CompleteInstance (params_new i "cancelled")) in
      let! _ := env (RegistryCleanup i) in
      ok {| stresp_success := true; stresp_error := None |}
  end.

(** ** Resume *)

Record ResumeInstanceResponse := { rsresp_success : bool; rsresp_error : option string }.

Definition resume_refused (e : string) : ResumeInstanceResponse :=
  {| rsresp_success := false; rsresp_error := Some e |}.

Definition resumable (status : string) : bool :=
  bool_decide (status ∈ ["suspended"; "failed"; "cancelled"]).

(** The timeout persisted at first launch ([s as u64]), or the default. *)
Definition persisted_timeout `{EnvVars} (r : result string (option Z)) : Z :=
  match r with
  | Ok (Some s) => s mod 2 ^ 64
  | _ => default_instance_timeout
  end.

(** Registers the launched process and leaves a monitor, as resume and wake do. *)
Definition register_launch (instance_id tenant_id : string) (image : Image) (timeout : Z)
  (handle : RunnerHandle) : prog unit :=
  let! pid := trigger (GetPid handle) in
  let pid := wrap_i32 <$> pid in
  let! _ := env (RegistryRegister
    {| ci_container_id := rh_handle_id handle; ci_instance_id := instance_id;
       ci_tenant_id := tenant_id; ci_binary_path := img_binary_path image;
       ci_bundle_path := img_bundle_path image; ci_started_at := rh_started_at handle;
       ci_pid := pid; ci_timeout_seconds := Some (wrap_i64 timeout);
       ci_process_killed := false |}) in
  trigger (SpawnMonitor {| ma_handle := handle; ma_timeout := timeout; ma_pid := pid |}).

(** From the old registry entry's removal to the launch. *)
Definition resume_image `{EnvVars} (state : EnvironmentHandlerState) (instance : InstanceRecord)
  (checkpoint_id : option string) (image : Image) (stored_env : gmap string string) :
  prog (result EnvError ResumeInstanceResponse) :=
  let i := ir_instance_id instance in
  let! persisted := env (InstanceTimeoutSeconds i) in
  let timeout := persisted_timeout persisted in
  let! _ := env (RegistryCleanup i) in
  let! t := trigger UtcNow in
  let! _ := pers (UpdateInstanceStatus i "running" (Some t)) in
  let! _ :=
    match checkpoint_id with
    | Some cp_id => pers (UpdateInstanceCheckpoint i cp_id)
    | None => Ret (Ok tt)
    end in
  let! _ := pers (ClearInstanceSleep i) in
  let! launched := trigger (LaunchDetached
    {| lo_instance_id := i; lo_tenant_id := ir_tenant_id instance;
       lo_bundle_path := img_binary_path image; lo_input := JObject [];
       lo_timeout := timeout; lo_core_addr := core_addr state;
       lo_checkpoint_id := checkpoint_id; lo_env := stored_env |}) in
  match launched with
  | Ok handle =>
      let! _ := register_launch i (ir_tenant_id instance) image timeout handle in
      ok {| rsresp_success := true; rsresp_error := None |}
  | Err e => ok (resume_refused ("Resume failed: " +:+ e))
  end.

Definition handle_resume_instance `{EnvVars} (state : EnvironmentHandlerState)
  (instance_id : string) : prog (result EnvError ResumeInstanceResponse) :=
  let? found := db_call (EnvGetInstance instance_id) in
  match found with
  | None => ok (resume_refused ("Instance '" +:+ instance_id +:+ "' not found"))
  | Some instance =>
  if negb (resumable (ir_status instance)) then
    ok (resume_refused ("Cannot resume instance in '" +:+ ir_status instance
          +:+ "' state (must be suspended, failed, or cancelled)"))
  else
  let! checkpoint_id :=
    match ir_checkpoint_id instance with
    | Some id => Ret (Some id)
    | None =>
        let! latest := pers (LoadLatestCheckpoint instance_id) in
        Ret (match latest with Ok (Some r) => Some (cp_checkpoint_id r) | _ => None end)
    end in
  let? image_with_env := db_call (InstanceImageWithEnv instance_id) in
  match image_with_env with
  | None => ok (resume_refused "Instance has no associated image")
  | Some (image_id, stored_env) =>
  let? image := db_call (ImageGet image_id) in
  match image with
  | None => ok (resume_refused ("Image '" +:+ image_id +:+ "' not found"))
  | Some image =>
  if negb (bool_decide (img_tenant_id image = ir_tenant_id instance)) then
    ok (resume_refused ("Image '" +:+ image_id +:+ "' not found"))
  else resume_image state instance checkpoint_id image stored_env
  end end end.

(** ** The container monitor *)

Definition detect_stale_monitor (instance_id monitor_handle_id : string) : prog bool :=
  let! r := env (RegistryGet instance_id) in
  Ret (match r with
       | Ok (Some current) => negb (bool_decide (ci_container_id current = monitor_handle_id))
       | Ok None => true
       | Err _ => false
       end).

Definition reported_by_sdk (status : string) : bool :=
  bool_decide (status ∈ ["completed"; "failed"; "cancelled"; "suspended"]).

(** The error text of a process that died without a terminal report. *)
Definition crash_error (draining : bool) (stderr : option string) : string :=
  let default_error :=
    if draining then "Process terminated during graceful shutdown"
    else "Process terminated without SDK event" in
  match trim <$> stderr with
  | Some reason =>
      if negb draining && negb (bool_decide (reason = "")) then
        default_error +:+ ": " +:+ tail_chars reason 2000
      else default_error
  | None => default_error
  end.

(** The process died and nobody reported why. *)
Definition monitor_crash (i : string) (stderr : option string) : prog unit :=
  let! draining := trigger EnvDraining in
  let '(status, termination_reason) :=
    if draining then ("suspended", "shutdown_requested") else ("failed", "crashed") in
  let params :=
    with_error (crash_error draining stderr)
      (with_termination termination_reason None (if_running (params_new i status))) in
  let params := match stderr with Some s => with_stderr s params | None => params end in
  let! applied := pers (CompleteInstance params) in
  match applied with
  | Ok true =>
      let! still_draining := trigger EnvDraining in
      if still_draining then
        let! t := trigger UtcNow in
        let! _ := pers (SetInstanceSleep i t) in
        Ret tt
      else Ret tt
  | _ => Ret tt
  end.

(** Steps 3 to 5 of the exit branch: unless another monitor owns the instance or
    the SDK reported its end, record the crash; then clean up. *)
Definition monitor_settle (h : RunnerHandle) (stderr : option string) : prog unit :=
  let i := rh_instance_id h in
  let! is_stale := detect_stale_monitor i (rh_handle_id h) in
  let! _ :=
    if is_stale then Ret tt
    else
      let! current_status := pers (GetInstance i) in
      match current_status with
      | Ok (Some inst) =>
          if reported_by_sdk (ir_status inst) then Ret tt else monitor_crash i stderr
      | _ => monitor_crash i stderr
      end in
  let! _ := env (RegistryCleanup i) in
  Ret tt.

(** The branch of the monitor's [select!] taken when the process exits: collect
    the metrics and the error output, then settle. *)
Definition monitor_exit (h : RunnerHandle) : prog unit :=
  let i := rh_instance_id h in
  let! collected := trigger (CollectResult h) in
  let '(stderr, metrics) := collected in
  let! _ :=
    if bool_decide (is_Some (cm_memory_peak_bytes metrics))
       || bool_decide (is_Some (cm_cpu_usage_usec metrics)) then
      pers (UpdateInstanceMetrics i (cm_memory_peak_bytes metrics) (cm_cpu_usage_usec metrics))
    else Ret (Ok tt) in
  let! _ :=
    match stderr with
    | Some s => pers (UpdateInstanceStderr i s)
    | None => Ret (Ok tt)
    end in
  monitor_settle h stderr.

(** The branch taken when the timeout fires first. *)
Definition monitor_timeout (h : RunnerHandle) : prog unit :=
  let i := rh_instance_id h in
  let! _ := trigger (StopRunner h) in
  let! _ := pers (CompleteInstance
    (with_error "Execution timed out"
       (with_termination "timeout" None (if_running (params_new i "failed"))))) in
  let! _ := env (RegistryCleanup i) in
  Ret tt.

(** The task [spawn_container_monitor] spawns. *)
Definition container_monitor (m : MonitorArgs) : prog unit :=
  let h := ma_handle m in
  let! _ := trigger (Sleep 50) in
  let! exited := trigger (ExitBeforeTimeout h (ma_timeout m)) in
  if exited then monitor_exit h else monitor_timeout h.
