(* ===== verification/EnvWorkers.v ===== *)
(** * runtara-environment: the background workers and the runtime

    One poll of each worker, and what the runtime does around them: the wake
    scheduler ([wake_scheduler.rs]: a poll, and the wake of one instance with its
    claim), the heartbeat monitor ([heartbeat_monitor.rs]), the runtime ([runtime.rs]:
    start, drain and shutdown), retention ([db_cleanup_worker.rs]) and the parking of
    instances that wait. *)

From S2P Require Import Prelude.
From S2P Require Import CoreTypes.
From S2P Require Import Json.
From S2P Require Import Persistence.
From S2P Require Import EnvTables.
From S2P Require Import Effects.
From S2P Require Import InstanceHandlers.
From S2P Require Import Recovery.
From S2P Require Import EnvHandlers.
From S2P Require Import DbInvariants.

Open Scope runtara_scope.

Record WakeSchedulerConfig := {
  wc_batch_size : Z;
  wc_core_addr : string }.

(** The claim was won: launch, and on failure put the wake back. *)
Definition wake_claimed (options : LaunchOptions) (image : Image) :
  prog (result EnvError unit) :=
  let i := lo_instance_id options in
  let! launched := trigger (LaunchDetached options) in
  match launched with
  | Ok handle =>
      let! _ := register_launch i (lo_tenant_id options) image (lo_timeout options) handle in
      ok tt
  | Err e =>
      let! t := trigger UtcNow in
      let! _ := pers (SetInstanceSleep i t) in
      err (ERunner e)
  end.

Definition wake_instance `{EnvVars} (config : WakeSchedulerConfig) (instance : InstanceRecord) :
  prog (result EnvError unit) :=
  let i := ir_instance_id instance in
  let? image_with_env := db_call (InstanceImageWithEnv i) in
  match image_with_env with
  | None => err (EOther ("No image association found for instance '" +:+ i +:+ "'"))
  | Some (image_id, stored_env) =>
  let? image := db_call (ImageGet image_id) in
  match image with
  | None => err (EImageNotFound image_id)
  | Some image =>
  let! persisted := env (InstanceTimeoutSeconds i) in
  let options :=
    {| lo_instance_id := i; lo_tenant_id := ir_tenant_id instance;
       lo_bundle_path := img_binary_path image; lo_input := JObject [];
       lo_timeout := persisted_timeout persisted; lo_core_addr := wc_core_addr config;
       lo_checkpoint_id := ir_checkpoint_id instance; lo_env := stored_env |} in
  let! claimed := pers (ClaimSleepingInstance i) in
  match claimed with
  | Ok true => wake_claimed options image
  | Ok false => ok tt
  | Err e => err (ECore e)
  end
  end end.

(** The [for] loop over the scanned instances; errors are logged. *)
Fixpoint wake_all `{EnvVars} (config : WakeSchedulerConfig) (l : list InstanceRecord) :
  prog unit :=
  match l with
  | [] => Ret tt
  | instance :: rest =>
      let! _ := wake_instance config instance in
      wake_all config rest
  end.

Definition process_pending_wakes `{EnvVars} (config : WakeSchedulerConfig) :
  prog (result EnvError unit) :=
  let! draining := trigger EnvDraining in
  if draining then ok tt
  else
    let! scanned := pers (GetSleepingInstancesDue (wc_batch_size config)) in
    match scanned with
    | Err e => err (EOther ("Core persistence error: " +:+ display_core_error e))
    | Ok sleeping_instances =>
        let! _ := wake_all config sleeping_instances in
        ok tt
    end.

(** * runtara-environment: the heartbeat monitor

    [heartbeat_monitor.rs]: the stale-instance scan, the orphan scan, the
    start-up kill of surviving processes.  [format_time] stands for chrono's
    [format("%Y-%m-%d %H:%M:%S UTC")]. *)

Open Scope runtara_scope.

Class TimeFormat := format_time : time → string.

(** A concrete rendering, for the witnesses. *)
#[export] Instance demo_time_format : TimeFormat := show_Z.

(** The heartbeat timeout in seconds. *)
Record HeartbeatMonitorConfig := { hc_heartbeat_timeout : Z }.

(** [{:?}] of an [Option<i32>] and [{}] of a [bool]. *)
Definition debug_pid (pid : option Z) : string :=
  match pid with Some p => "Some(" +:+ show_Z p +:+ ")" | None => "None" end.

Definition show_bool (b : bool) : string := if b then "true" else "false".

(** [kill(pid, SIGKILL)] then a look at [/proc/{pid}]; the kill effect answers
    [false] for "no such process". *)
Definition kill_and_confirm_pid (pid : option Z) : prog bool :=
  match pid with
  | None => Ret false
  | Some pid =>
      let! delivered := trigger (KillPid pid) in
      if negb delivered then Ret true
      else
        let! _ := trigger (Sleep 200) in
        let! alive := trigger (PidAlive pid) in
        Ret (negb alive)
  end.

Definition handle_of_stale (c : StaleContainer) : RunnerHandle :=
  {| rh_handle_id := sc_container_id c; rh_instance_id := sc_instance_id c;
     rh_tenant_id := sc_tenant_id c; rh_started_at := sc_started_at c;
     rh_spawned_pid := (λ p, p mod 2 ^ 32) <$> sc_pid c |}.

Definition stale_message `{TimeFormat} (config : HeartbeatMonitorConfig) (c : StaleContainer)
  (runner_stopped pid_confirmed_dead : bool) : string :=
  let base :=
    match sc_last_activity c with
    | Some last_event =>
        "Instance stale: no activity since " +:+ format_time last_event
    | None =>
        "Instance stale: no activity received since start at " +:+ format_time (sc_started_at c)
    end +:+ " (timeout: " +:+ show_Z (hc_heartbeat_timeout config) +:+ "s)" in
  base +:+ " [pid=" +:+ debug_pid (sc_pid c) +:+ ", container_id=" +:+ sc_container_id c
    +:+ ", runner_stopped=" +:+ show_bool runner_stopped
    +:+ ", pid_confirmed_dead=" +:+ show_bool pid_confirmed_dead +:+ "]".

(** [persistence.complete_instance(..).map_err(Error::Other)] *)
Definition complete_or_other (p : CompleteInstanceParams) : prog (result EnvError bool) :=
  let! r := pers (CompleteInstance p) in
  Ret (match r with
       | Ok b => Ok b
       | Err e => Err (EOther ("Core persistence error: " +:+ display_core_error e))
       end).

Definition fail_stale_instance `{TimeFormat} (config : HeartbeatMonitorConfig)
  (container : StaleContainer) : prog (result EnvError unit) :=
  let i := sc_instance_id container in
  let! stopped := trigger (StopRunner (handle_of_stale container)) in
  let! confirmed := kill_and_confirm_pid (sc_pid container) in
  let? _ := db_call (MarkProcessKilled i) in
  let? _ := complete_or_other
    (with_error (stale_message config container (is_ok stopped) confirmed)
       (with_termination "heartbeat_timeout" None (if_running (params_new i "failed")))) in
  let? _ := db_call (RegistryCleanup i) in
  ok tt.

(** The filter of [get_orphaned_running_instances]. *)
Definition orphaned (cutoff : time) (tracked : list string) (inst : InstanceRecord) : bool :=
  negb (bool_decide (ir_instance_id inst ∈ tracked))
  && (default (ir_created_at inst) (ir_started_at inst) <? cutoff).

Definition get_orphaned_running_instances (cutoff : time) :
  prog (result EnvError (list InstanceRecord)) :=
  let! listed := pers (ListInstances None (Some "running") 1000 0) in
  match listed with
  | Err e => err (EOther ("Core persistence error: " +:+ display_core_error e))
  | Ok [] => ok []
  | Ok running_instances =>
      let? tracked := db_call TrackedIds in
      ok (filter (λ inst, orphaned cutoff tracked inst = true) running_instances)
  end.

Definition recover_orphaned_instance `{EnvVars} (inst : InstanceRecord) : prog unit :=
  let! _ := recover_or_fail (ir_instance_id inst) auto_recover_enabled in
  Ret tt.

Fixpoint fail_all_stale `{TimeFormat} (config : HeartbeatMonitorConfig)
  (l : list StaleContainer) : prog unit :=
  match l with
  | [] => Ret tt
  | c :: rest => let! _ := fail_stale_instance config c in fail_all_stale config rest
  end.

Fixpoint recover_all `{EnvVars} (l : list InstanceRecord) : prog unit :=
  match l with
  | [] => Ret tt
  | inst :: rest => let! _ := recover_orphaned_instance inst in recover_all rest
  end.

Definition check_stale_instances `{EnvVars, TimeFormat} (config : HeartbeatMonitorConfig) :
  prog (result EnvError unit) :=
  let! t := trigger UtcNow in
  let? age := Ret (duration_from_std (hc_heartbeat_timeout config)) in
  let cutoff := t - age in
  let? stale_containers := db_call (GetStaleContainers cutoff) in
  let? orphaned_instances := get_orphaned_running_instances cutoff in
  let! _ := fail_all_stale config stale_containers in
  let! _ := recover_all orphaned_instances in
  ok tt.

(** One turn of the monitor's loop: no scan while draining. *)
Definition heartbeat_poll `{EnvVars, TimeFormat} (config : HeartbeatMonitorConfig) : prog unit :=
  let! draining := trigger EnvDraining in
  if draining then Ret tt
  else let! _ := check_stale_instances config in Ret tt.

Definition kill_surviving_one (container : ContainerInfo) : prog (result EnvError unit) :=
  let i := ci_instance_id container in
  let! confirmed := kill_and_confirm_pid (ci_pid container) in
  let? _ := db_call (MarkProcessKilled i) in
  let? _ := complete_or_other
    (with_error ("Process killed on startup (previous run) [pid=" +:+ debug_pid (ci_pid container)
        +:+ ", container_id=" +:+ ci_container_id container
        +:+ ", pid_confirmed_dead=" +:+ show_bool confirmed +:+ "]")
       (with_termination "crashed" None (if_running (params_new i "failed")))) in
  db_call (RegistryCleanup i).

(** Stops at the first error. *)
Fixpoint kill_surviving_all (l : list ContainerInfo) : prog (result EnvError unit) :=
  match l with
  | [] => ok tt
  | c :: rest => let? _ := kill_surviving_one c in kill_surviving_all rest
  end.

Definition kill_surviving_processes : prog (result EnvError unit) :=
  let? unkilled := db_call GetUnkilledContainers in
  kill_surviving_all unkilled.

(** * runtara-environment: graceful drain and start-up recovery

    [runtime.rs]: [drain] with its polling loop, [filter_non_terminal] and
    [recover_orphaned_containers]. *)

Open Scope runtara_scope.

(** ** Drain *)

(** The shutdown signal and the cancellation token of every active instance. *)
Fixpoint signal_all (grace_secs : Z) (active : list ContainerInfo) : prog unit :=
  match active with
  | [] => Ret tt
  | info :: rest =>
      let! _ := pers (InsertSignal (ci_instance_id info) "shutdown" []) in
      let! _ := env (RequestCancellation (ci_instance_id info) grace_secs "shutdown_requested") in
      signal_all grace_secs rest
  end.

Fixpoint filter_non_terminal (candidates : list ContainerInfo) : prog (list ContainerInfo) :=
  match candidates with
  | [] => Ret []
  | info :: rest =>
      let! r := pers (GetInstance (ci_instance_id info)) in
      let keep :=
        match r with
        | Ok (Some inst) => negb (reported_by_sdk (ir_status inst))
        | Ok None => false
        | Err _ => true
        end in
      let! still_active := filter_non_terminal rest in
      Ret (if keep then info :: still_active else still_active)
  end.

(** The polling loop; [polls] bounds its rounds.  The clock is compared with the
    deadline before every round and each round sleeps 500 ms, so the bound of
    [drain] is reached only after the deadline (proved in DrainProperties.v). *)
Fixpoint poll_drained (polls : nat) (deadline : time) (remaining : list ContainerInfo) :
  prog (list ContainerInfo) :=
  match remaining, polls with
  | [], _ => Ret []
  | _, O => let! _ := trigger UtcNow in Ret remaining
  | _, S polls' =>
      let! t := trigger UtcNow in
      if deadline <=? t then Ret remaining
      else
        let! remaining := filter_non_terminal remaining in
        match remaining with
        | [] => Ret []
        | _ =>
            let! _ := trigger (Sleep 500) in
            poll_drained polls' deadline remaining
        end
  end.

Definition force_stop (info : ContainerInfo) : prog unit :=
  let i := ci_instance_id info in
  let! _ := trigger (StopRunner (handle_of_container info i)) in
  let! applied := pers (CompleteInstance
    (with_error "Force-stopped after grace period expired during shutdown"
       (with_termination "shutdown_requested" None (if_running (params_new i "suspended"))))) in
  match applied with
  | Ok true =>
      let! t := trigger UtcNow in
      let! _ := pers (SetInstanceSleep i t) in
      Ret tt
  | _ => Ret tt
  end.

Fixpoint force_stop_all (l : list ContainerInfo) : prog unit :=
  match l with
  | [] => Ret tt
  | info :: rest => let! _ := force_stop info in force_stop_all rest
  end.

(** The number of rounds of 500 ms that fit in the grace period, plus one. *)
Definition drain_polls (grace_secs : Z) : nat := Z.to_nat (2 * grace_secs + 1).

(** [embedded_core] says whether a [CoreRuntime] runs in this process. *)
Definition drain (embedded_core : bool) (grace_secs : Z) : prog unit :=
  let! _ := trigger SetEnvDraining in
  let! _ := if embedded_core then trigger SetCoreDraining else Ret tt in
  let! listed := env RegistryListAll in
  match listed with
  | Err _ | Ok [] => Ret tt
  | Ok active =>
      let! _ := signal_all grace_secs active in
      let! t := trigger UtcNow in
      let! remaining :=
        poll_drained (drain_polls grace_secs) (t + grace_secs * 1000000) active in
      force_stop_all remaining
  end.

(** ** Start-up recovery *)

(** One registered container; [is_process_alive] is a look at the process table. *)
Definition recover_container `{EnvVars} (container : ContainerInfo) : prog unit :=
  let i := ci_instance_id container in
  let! is_alive :=
    match ci_pid container with
    | Some pid => trigger (PidAlive pid)
    | None => Ret false
    end in
  if is_alive then Ret tt
  else
    let! r := pers (GetInstance i) in
    match r with
    | Ok (Some inst) =>
        if reported_by_sdk (ir_status inst) then
          let! _ := env (RegistryCleanup i) in Ret tt
        else
          let! _ := recover_or_fail i auto_recover_enabled in
          let! _ := env (RegistryCleanup i) in
          Ret tt
    | Ok None => let! _ := env (RegistryCleanup i) in Ret tt
    | Err _ => Ret tt
    end.

Fixpoint recover_containers `{EnvVars} (l : list ContainerInfo) : prog unit :=
  match l with
  | [] => Ret tt
  | c :: rest => let! _ := recover_container c in recover_containers rest
  end.

Definition recover_orphaned_containers `{EnvVars} : prog (result EnvError unit) :=
  let? containers := db_call RegistryListAll in
  let! _ := recover_containers containers in
  ok tt.

(** * runtara-environment: retention of old instances

    [db_cleanup_worker.rs]: the batched deletion of terminal instances older
    than the configured age. *)

Open Scope runtara_scope.

Record DbCleanupWorkerConfig := {
  dc_enabled : bool;
  dc_max_age : Z;
  dc_batch_size : Z }.

Definition cleanup_environment_tables (instance_ids : list string) :
  prog (result EnvError unit) :=
  match instance_ids with
  | [] => ok tt
  | _ => db_call (DeleteEnvironmentRows instance_ids)
  end.

(** The loop of [cleanup_old_instances], with the total it has deleted; [None]
    when [fuel] runs out. *)
Fixpoint cleanup_loop (fuel : nat) (config : DbCleanupWorkerConfig) (cutoff : time)
  (total_deleted : Z) : prog (option (result EnvError Z)) :=
  match fuel with
  | O => Ret None
  | S fuel' =>
      let! selected := core_call (GetTerminalInstancesOlderThan cutoff (dc_batch_size config)) in
      match selected with
      | Err e => Ret (Some (Err e))
      | Ok [] => Ret (Some (Ok total_deleted))
      | Ok instance_ids =>
          let! cleaned := cleanup_environment_tables instance_ids in
          match cleaned with
          | Err _ => Ret (Some (Ok total_deleted))
          | Ok _ =>
              let! deleted := core_call (DeleteInstancesBatch instance_ids) in
              match deleted with
              | Err e => Ret (Some (Err e))
              | Ok n =>
                  let total := total_deleted + n in
                  if Z.of_nat (length instance_ids) <? dc_batch_size config mod 2 ^ 64
                  then Ret (Some (Ok total))
                  else cleanup_loop fuel' config cutoff total
              end
          end
      end
  end.

Definition cleanup_old_instances (fuel : nat) (config : DbCleanupWorkerConfig) :
  prog (option (result EnvError Z)) :=
  let! t := trigger UtcNow in
  match duration_from_std (dc_max_age config) with
  | Err e => Ret (Some (Err e))
  | Ok age => cleanup_loop fuel config (t - age) 0
  end.

(** * runtara-environment: parking, signals and relaunch

    [runner/embedded.rs]: how an instance that returned "suspended" is parked
    and how a relaunched one is marked running; [http_server.rs]: the signal
    endpoints and the on-signal waker. *)

Open Scope runtara_scope.

(** ** Parking *)

(** [WorkflowWake]; a deadline is in milliseconds since the epoch ([u64]). *)
Inductive WorkflowWake :=
| At (ms : Z)
| OnSignal (deadline_ms : option Z)
| OnResume.

Definition WAITING_SIGNAL_TERMINATION : string := "waiting_signal".

Definition wake_deadline (w : WorkflowWake) : option Z :=
  match w with
  | At ms => Some ms
  | OnSignal d => d
  | OnResume => None
  end.

(** [iter.filter_map(..).min()] *)
Definition earliest_wake_deadline_ms (wakes : list WorkflowWake) : option Z :=
  foldr (λ w acc,
    match wake_deadline w, acc with
    | Some d, Some m => Some (Z.min d m)
    | Some d, None => Some d
    | None, _ => acc
    end) None wakes.

Definition has_on_signal_wake (wakes : list WorkflowWake) : bool :=
  existsb (λ w, match w with OnSignal _ => true | _ => false end) wakes.

Definition park_invoke_suspend `{Ext} (instance_id : string) (wakes : list WorkflowWake) :
  prog unit :=
  let deadline_ms := earliest_wake_deadline_ms wakes in
  if bool_decide (deadline_ms = None) && negb (has_on_signal_wake wakes) then Ret tt
  else
  let wake_marker :=
    if has_on_signal_wake wakes then WAITING_SIGNAL_TERMINATION else "sleeping" in
  let! parked := pers (CompleteInstance
    (with_termination wake_marker None (if_running (params_new instance_id "suspended")))) in
  match parked with
  | Ok false => Ret tt
  | _ =>
      match deadline_ms with
      | None => Ret tt
      | Some ms =>
          match from_timestamp_millis (wrap_i64 ms) with
          | None => Ret tt
          | Some deadline =>
              let! _ := pers (SetInstanceSleep instance_id deadline) in
              Ret tt
          end
      end
  end.

(** The detached launch of an invoke-shaped artifact reads the stored input and
    marks the instance running before the guest starts. *)
Definition invoke_launch (instance_id : string) : prog bytes :=
  let! r := pers (GetInstance instance_id) in
  let input :=
    match r with
    | Ok (Some inst) => default ["123"%byte; "125"%byte] (ir_input inst)
    | _ => ["123"%byte; "125"%byte]
    end in
  let! _ := pers (UpdateInstanceStatus instance_id "running" None) in
  Ret input.

(** ** Signal endpoints *)

(** An HTTP answer: the status code and the error text, if any. *)
Record HttpResponse := { http_status : Z; http_error : option string }.

Definition http_ok : HttpResponse := {| http_status := 200; http_error := None |}.

Definition http_fail (status : Z) (e : string) : HttpResponse :=
  {| http_status := status; http_error := Some e |}.

Definition handle_send_signal (instance_id signal_type : string) (payload : bytes) :
  prog HttpResponse :=
  let! r := pers (GetInstance instance_id) in
  match r with
  | Err e => Ret (http_fail 500 (display_env_error (ECore e)))
  | Ok None => Ret (http_fail 404 ("Instance '" +:+ instance_id +:+ "' not found"))
  | Ok (Some inst) =>
      if negb (bool_decide (ir_status inst ∈ ["running"; "suspended"; "pending"])) then
        Ret (http_fail 409
          ("Cannot send signal to instance in '" +:+ ir_status inst +:+ "' state"))
      else if negb (bool_decide (signal_type ∈ ["cancel"; "pause"; "resume"])) then
        Ret (http_fail 400 ("Unknown signal type: " +:+ signal_type))
      else
        let! sent := pers (InsertSignal instance_id signal_type payload) in
        Ret (match sent with
             | Ok _ => http_ok
             | Err e => http_fail 500 (display_env_error (ECore e))
             end)
  end.

Definition wake_suspended_on_signal (instance_id : string) : prog unit :=
  let! r := pers (GetInstance instance_id) in
  match r with
  | Ok (Some inst) =>
      if bool_decide (ir_status inst = "suspended")
         && bool_decide (ir_termination_reason inst = Some WAITING_SIGNAL_TERMINATION) then
        let! t := trigger UtcNow in
        let! _ := pers (SetInstanceSleep instance_id t) in
        Ret tt
      else Ret tt
  | _ => Ret tt
  end.

Definition handle_send_custom_signal (instance_id checkpoint_id : string) (payload : bytes) :
  prog HttpResponse :=
  let! r := pers (GetInstance instance_id) in
  match r with
  | Err e => Ret (http_fail 500 (display_env_error (ECore e)))
  | Ok None => Ret (http_fail 404 ("Instance '" +:+ instance_id +:+ "' not found"))
  | Ok (Some _) =>
      if decide (checkpoint_id = "") then Ret (http_fail 400 "checkpoint_id is required")
      else
        let! sent := pers (InsertCustomSignal instance_id checkpoint_id payload) in
        match sent with
        | Ok _ =>
            let! _ := wake_suspended_on_signal instance_id in
            Ret http_ok
        | Err e => Ret (http_fail 500 (display_env_error (ECore e)))
        end
  end.
