(* ===== verification/RuntimeHost.v ===== *)
(** * runtara-environment: the durable runtime host

    [runtime_host.rs]: what a guest's imports of [runtara:workflow-runtime/runtime] do.
    Every method calls the core handlers of InstanceHandlers.v for the instance of the
    run; the host itself keeps a flag that a cancel or shutdown was consumed, and the
    time of its last poll of signals.  A method that writes one of the two takes the host
    and returns it.  [SystemTime] and [Instant] read the clock of the world. *)

From S2P Require Import Prelude.
From S2P Require Import CoreTypes.
From S2P Require Import Json.
From S2P Require Import Persistence.
From S2P Require Import EnvTables.
From S2P Require Import Effects.
From S2P Require Import InstanceHandlers.

(** ** Types *)

(** The signals as the guest sees them. *)
Record RuntimeSignalInfo := {
  rsi_signal_type : string;
  rsi_payload : bytes;
  rsi_checkpoint_id : option string }.

Record RuntimeCustomSignalInfo := {
  rcsi_checkpoint_id : string;
  rcsi_payload : bytes }.

Record RuntimeCheckpointResult := {
  rcr_found : bool;
  rcr_state : bytes;
  rcr_pending_signal : option RuntimeSignalInfo;
  rcr_custom_signal : option RuntimeCustomSignalInfo }.

Definition DEFAULT_SIGNAL_POLL_INTERVAL : Z := 1000.
Definition DURABLE_SLEEP_CHECKPOINT_ID : string := "__direct_workflow_runtime_durable_sleep".

Record PersistenceRuntimeHost := {
  host_instance_id : string;
  host_debug_mode : bool;
  host_cancelled : bool;
  host_last_signal_poll : option time;
  host_signal_poll_interval : Z }.

Definition host_new (instance_id : string) (debug_mode : bool) : PersistenceRuntimeHost :=
  {| host_instance_id := instance_id; host_debug_mode := debug_mode; host_cancelled := false;
     host_last_signal_poll := None; host_signal_poll_interval := DEFAULT_SIGNAL_POLL_INTERVAL |}.

Definition with_signal_poll_interval (interval : Z) (host : PersistenceRuntimeHost) :
  PersistenceRuntimeHost :=
  {| host with host_signal_poll_interval := interval |}.

(** [.map_err(Self::err)] *)
Definition guest_visible {A} (r : result CoreError A) : result string A :=
  match r with Ok a => Ok a | Err e => Err (display_core_error e) end.

Definition signal_type_of (value : Z) : option SignalType :=
  if value =? 0 then Some SignalCancel
  else if value =? 1 then Some SignalPause
  else if value =? 2 then Some SignalResume
  else if value =? 3 then Some SignalShutdown
  else None.

Definition signal_type_name (signal_type : Z) : string :=
  match signal_type_of signal_type with
  | Some SignalCancel => "cancel"
  | Some SignalPause => "pause"
  | Some SignalResume => "resume"
  | Some SignalShutdown => "shutdown"
  | None => "cancel"
  end.

Definition runtime_signal (signal : Signal) : RuntimeSignalInfo :=
  {| rsi_signal_type := signal_type_name (sg_signal_type signal);
     rsi_payload := sg_payload signal; rsi_checkpoint_id := None |}.

Definition set_cancelled (host : PersistenceRuntimeHost) : PersistenceRuntimeHost :=
  {| host with host_cancelled := true |}.

(** The result of a method that may have changed the host. *)
Abbreviation hosted A := (prog (PersistenceRuntimeHost * result string A)).

(** ** Signals *)

Section host.
Context `{Ext}.

(** No second poll within the interval. *)
Definition poll_lifecycle_signal (host : PersistenceRuntimeHost) : hosted (option Signal) :=
  let! limited :=
    match host_last_signal_poll host with
    | Some at_ =>
        let! now_ := trigger UtcNow in
        Ret (now_ - at_ <? 1000 * host_signal_poll_interval host)
    | None => Ret false
    end in
  if limited then Ret (host, Ok None)
  else
    let! now_ := trigger UtcNow in
    let host := {| host with host_last_signal_poll := Some now_ |} in
    let! response :=
      handle_poll_signals
        {| psr_instance_id := host_instance_id host; psr_checkpoint_id := None |} in
    Ret (host, psresp_signal <$> guest_visible response).

(** A failing acknowledgement is logged and ignored. *)
Definition ack_signal (host : PersistenceRuntimeHost) (signal_type : SignalType) : prog unit :=
  let! _ :=
    handle_signal_ack
      {| sa_instance_id := host_instance_id host;
         sa_signal_type := signal_type_to_i32 signal_type; sa_acknowledged := true |} in
  Ret tt.

Definition host_event (host : PersistenceRuntimeHost) (event_type : InstanceEventType)
  (checkpoint_id : option string) (payload : bytes) (subtype : option string) :
  prog (result string unit) :=
  let! now_ := trigger UtcNow in
  let! r :=
    handle_instance_event
      {| ie_instance_id := host_instance_id host;
         ie_event_type := event_type_to_i32 event_type;
         ie_checkpoint_id := checkpoint_id; ie_payload := payload;
         ie_timestamp_ms := timestamp_millis now_; ie_subtype := subtype |} in
  Ret ((λ _, tt) <$> guest_visible r).

Definition suspended_event (host : PersistenceRuntimeHost) : prog (result string unit) :=
  host_event host EventSuspended None [] None.

(** Acknowledge, report the suspension, and tell the guest to return. *)
Definition suspend_for (host : PersistenceRuntimeHost) (signal_type : SignalType) : hosted bool :=
  let! _ := ack_signal host signal_type in
  let! r := suspended_event host in
  Ret (host, (λ _, true) <$> r).

(** What a stop signal does, in [check_signals] and in [handle_checkpoint_signal]. *)
Definition obey_signal (host : PersistenceRuntimeHost) (signal_type : SignalType) : hosted bool :=
  match signal_type with
  | SignalCancel =>
      let! _ := ack_signal (set_cancelled host) SignalCancel in
      Ret (set_cancelled host, Ok true)
  | SignalPause => suspend_for host SignalPause
  | SignalShutdown => suspend_for (set_cancelled host) SignalShutdown
  | SignalResume => Ret (host, Ok false)
  end.

(** ** The methods of [trait RuntimeHost] *)

Definition host_load_input (host : PersistenceRuntimeHost) : prog (result string (option bytes)) :=
  let! r := pers (GetInstance (host_instance_id host)) in
  Ret (instance ← guest_visible r;
       match instance with
       | Some inst => Ok (ir_input inst)
       | None => Err ("instance " +:+ host_instance_id host +:+ " not found")
       end).

(** The import [load-input]: an instance without input loads [{}]. *)
Definition load_input (host : PersistenceRuntimeHost) : prog (result string bytes) :=
  let! r := host_load_input host in
  Ret (default (list_byte_of_string "{}") <$> r).

Definition host_complete (host : PersistenceRuntimeHost) (output : bytes) :
  prog (result string unit) := host_event host EventCompleted None output None.

Definition host_fail (host : PersistenceRuntimeHost) (error : bytes) :
  prog (result string unit) := host_event host EventFailed None error None.

Definition host_custom_event (host : PersistenceRuntimeHost) (kind : string) (payload : bytes) :
  prog (result string unit) := host_event host EventCustom None payload (Some kind).

Definition breakpoint_pause (host : PersistenceRuntimeHost) : prog (result string unit) :=
  let! _ := ack_signal host SignalPause in
  suspended_event host.

Definition host_heartbeat (host : PersistenceRuntimeHost) : prog (result string unit) :=
  host_event host EventHeartbeat None [] None.

Definition is_cancelled (host : PersistenceRuntimeHost) : hosted bool :=
  if host_cancelled host then Ret (host, Ok true)
  else
    let! (host, polled) := poll_lifecycle_signal host in
    match polled with
    | Err e => Ret (host, Err e)
    | Ok None => Ret (host, Ok false)
    | Ok (Some signal) =>
        if bool_decide (signal_type_of (sg_signal_type signal) = Some SignalCancel) then
          let! _ := ack_signal (set_cancelled host) SignalCancel in
          Ret (set_cancelled host, Ok true)
        else Ret (host, Ok false)
    end.

Definition check_signals (host : PersistenceRuntimeHost) : hosted bool :=
  let! (host, polled) := poll_lifecycle_signal host in
  match polled with
  | Err e => Ret (host, Err e)
  | Ok None => Ret (host, Ok false)
  | Ok (Some signal) =>
      match signal_type_of (sg_signal_type signal) with
      | Some ty => obey_signal host ty
      | None => Ret (host, Ok false)
      end
  end.

Definition poll_custom_signal (host : PersistenceRuntimeHost) (checkpoint_id : string) :
  prog (result string (option bytes)) :=
  let! r :=
    handle_poll_signals
      {| psr_instance_id := host_instance_id host; psr_checkpoint_id := Some checkpoint_id |} in
  Ret ((λ response, cs_payload <$> psresp_custom_signal response) <$> guest_visible r).

Definition get_checkpoint (host : PersistenceRuntimeHost) (checkpoint_id : string) :
  prog (result string (option bytes)) :=
  let! r :=
    handle_get_checkpoint
      {| gcr_instance_id := host_instance_id host; gcr_checkpoint_id := checkpoint_id |} in
  Ret ((λ response, if gcresp_found response then Some (gcresp_state response) else None)
         <$> guest_visible r).

Definition checkpoint_result (response : CheckpointResponse) : RuntimeCheckpointResult :=
  {| rcr_found := cresp_found response; rcr_state := cresp_state response;
     rcr_pending_signal := runtime_signal <$> cresp_pending_signal response;
     rcr_custom_signal :=
       (λ s, {| rcsi_checkpoint_id := cs_checkpoint_id s; rcsi_payload := cs_payload s |})
         <$> cresp_custom_signal response |}.

Definition checkpoint (host : PersistenceRuntimeHost) (checkpoint_id : string) (state : bytes) :
  prog (result string RuntimeCheckpointResult) :=
  let! r :=
    handle_checkpoint
      {| cr_instance_id := host_instance_id host; cr_checkpoint_id := checkpoint_id;
         cr_state := state |} in
  Ret (checkpoint_result <$> guest_visible r).

Definition handle_checkpoint_signal (host : PersistenceRuntimeHost) (signal_type : string) :
  hosted bool :=
  if decide (signal_type = "cancel") then obey_signal host SignalCancel
  else if decide (signal_type = "pause") then obey_signal host SignalPause
  else if decide (signal_type = "shutdown") then obey_signal host SignalShutdown
  else Ret (host, Ok false).

Definition record_retry_attempt (host : PersistenceRuntimeHost) (checkpoint_id : string)
  (attempt_number : Z) (error_message : option string) : prog (result string unit) :=
  let! now_ := trigger UtcNow in
  let! r :=
    handle_retry_attempt
      {| ra_instance_id := host_instance_id host; ra_checkpoint_id := checkpoint_id;
         ra_attempt_number := attempt_number; ra_timestamp_ms := timestamp_millis now_;
         ra_error_message := error_message; ra_error_metadata := None |} in
  Ret ((λ _, tt) <$> guest_visible r).

Definition durable_sleep_checkpoint (host : PersistenceRuntimeHost) (checkpoint_id : string)
  (state : bytes) (ms : Z) : prog (result string unit) :=
  let! r :=
    handle_sleep
      {| sr_instance_id := host_instance_id host; sr_duration_ms := ms;
         sr_checkpoint_id := checkpoint_id; sr_state := state |} in
  Ret ((λ _, tt) <$> guest_visible r).

(** The imports [durable-sleep] and [blocking-sleep]. *)
Definition durable_sleep (host : PersistenceRuntimeHost) (ms : Z) : prog (result string unit) :=
  durable_sleep_checkpoint host DURABLE_SLEEP_CHECKPOINT_ID [] ms.

Definition blocking_sleep (ms : Z) : prog (result string unit) :=
  let! _ := trigger (Sleep ms) in Ret (Ok tt).
End host.
