(* ===== verification/EnvProperties.v ===== *)
(** * Properties of the environment's handlers and workers

    Which tasks move a status only while the instance is running ([respectful])
    and which enter [running] only with a fresh start ([clean]), what the exit
    of a monitored process records, and what follows for any pool of such
    tasks. *)

From S2P Require Import Prelude.
From S2P Require Import CoreTypes.
From S2P Require Import Json.
From S2P Require Import Persistence.
From S2P Require Import EnvTables.
From S2P Require Import Effects.
From S2P Require Import InstanceHandlers.
From S2P Require Import DbInvariants.
From S2P Require Import Scenarios.
From S2P Require Import CoreProperties.
From S2P Require Import Recovery.
From S2P Require Import EnvHandlers.
From S2P Require Import EnvWorkers.

(** ** Vocabulary of the statements *)

(** An effect that moves a status only while the instance is running, and
    enters [running] only with a start time. *)
Definition respectful (X : Type) (e : eff X) : Prop := guarded X e ∧ clean X e.

(** The worlds differ in the clock, the metrics and the error output of [i]. *)
Definition collected (i : string) (w w' : world) : Prop :=
  w_env w' = w_env w ∧ w_env_draining w' = w_env_draining w ∧ w_now w ≤ w_now w' ∧
  (∀ r, instances (w_db w) !! i = Some r →
     ∃ r', instances (w_db w') !! i = Some r' ∧ outcome r' = outcome r) ∧
  (instances (w_db w) !! i = None → instances (w_db w') !! i = None).

Section tasks.
Context `{Ext, EnvVars, TimeFormat}.

(** The tasks that may change an instance's status only while it is running:
    the instance protocol except registration and acknowledgements, the
    container monitor, the stale scan, the drain, the wake scheduler, parking
    and the signal endpoints. *)
Inductive respectful_task : prog unit → Prop :=
| rt_event ev : respectful_task (task (handle_instance_event ev))
| rt_checkpoint req : respectful_task (task (handle_checkpoint req))
| rt_get_checkpoint req : respectful_task (task (handle_get_checkpoint req))
| rt_sleep req : respectful_task (task (handle_sleep req))
| rt_poll req : respectful_task (task (handle_poll_signals req))
| rt_status i : respectful_task (task (handle_get_instance_status i))
| rt_retry ev : respectful_task (task (handle_retry_attempt ev))
| rt_monitor m : respectful_task (container_monitor m)
| rt_stale config c : respectful_task (task (fail_stale_instance config c))
| rt_kill_surviving : respectful_task (task kill_surviving_processes)
| rt_drain core grace : respectful_task (drain core grace)
| rt_wake config : respectful_task (task (process_pending_wakes config))
| rt_park i wakes : respectful_task (park_invoke_suspend i wakes)
| rt_signal i s p : respectful_task (task (handle_send_signal i s p))
| rt_custom_signal i k p : respectful_task (task (handle_send_custom_signal i k p)).

(** The tasks of the whole system except the embedded runner's launch, which
    marks an instance running without a start time. *)
Inductive clean_task : prog unit → Prop :=
| ct_respectful p : respectful_task p → clean_task p
| ct_register st req : clean_task (task (handle_register_instance st req))
| ct_ack ack : clean_task (task (handle_signal_ack ack))
| ct_start st req : clean_task (task (handle_start_instance st req))
| ct_stop req : clean_task (task (handle_stop_instance req))
| ct_resume st i : clean_task (task (handle_resume_instance st i))
| ct_heartbeat config : clean_task (heartbeat_poll config)
| ct_recover : clean_task (task recover_orphaned_containers)
| ct_retention fuel config : clean_task (task (cleanup_old_instances fuel config)).
End tasks.

(** ** What the tasks do *)

Ltac unfold_calls := unfold db_call, core_call, complete_or_other.

(** Decomposes a program and closes the effects that satisfy the predicate by
    computation; recursive parts are left. *)
Ltac effs_done :=
  unfold_calls; solve_effs; try done; try (split; simpl; by repeat case_goal);
  try (simpl; by repeat case_goal); try (intros _; by eexists).

Lemma respectful_wake_all `{EnvVars} config l : all_effs respectful (wake_all config l).
Proof.
  induction l as [|inst l IH]; [done|]. cbn [wake_all].
  unfold wake_instance, wake_claimed, register_launch. effs_done.
Qed.

Lemma respectful_signal_all g l : all_effs respectful (signal_all g l).
Proof. induction l as [|info l IH]; [done|]. cbn [signal_all]. effs_done. Qed.

Lemma respectful_filter l : all_effs respectful (filter_non_terminal l).
Proof. induction l as [|info l IH]; [done|]. cbn [filter_non_terminal]. effs_done. Qed.

Lemma respectful_poll_drained n d l : all_effs respectful (poll_drained n d l).
Proof.
  revert l. induction n as [|n IH]; intros [|info l]; simpl; [done|by split|done|].
  split; [done|]. intros t. destruct (d <=? t); [done|].
  apply (all_effs_bind _ (filter_non_terminal (info :: l))); [apply respectful_filter|].
  intros [|i' l']; [done|]. split; [done|]. intros _. apply IH.
Qed.

Lemma respectful_force_stop_all l : all_effs respectful (force_stop_all l).
Proof. induction l as [|info l IH]; [done|]. cbn [force_stop_all]. unfold force_stop. effs_done. Qed.

Lemma respectful_kill_surviving_all l : all_effs respectful (kill_surviving_all l).
Proof.
  induction l as [|c l IH]; [done|]. cbn [kill_surviving_all].
  unfold kill_surviving_one, kill_and_confirm_pid. effs_done.
Qed.

Lemma respectful_drain core g : all_effs respectful (drain core g).
Proof.
  unfold drain. effs_done;
    [apply respectful_signal_all|apply respectful_poll_drained|apply respectful_force_stop_all].
Qed.

Lemma respectful_monitor m : all_effs respectful (container_monitor m).
Proof.
  unfold container_monitor, monitor_exit, monitor_settle, monitor_timeout, monitor_crash, detect_stale_monitor.
  effs_done.
Qed.

Lemma respectful_tasks `{Ext, EnvVars, TimeFormat} p :
  respectful_task p → all_effs respectful p.
Proof.
  intros [].
  - unfold handle_instance_event, event_status_update, suspend_if_running. effs_done.
  - unfold handle_checkpoint, get_pending_signal. effs_done.
  - unfold handle_get_checkpoint. effs_done.
  - unfold handle_sleep. effs_done.
  - unfold handle_poll_signals. effs_done.
  - unfold handle_get_instance_status. effs_done.
  - unfold handle_retry_attempt. effs_done.
  - apply respectful_monitor.
  - unfold fail_stale_instance, kill_and_confirm_pid. effs_done.
  - unfold kill_surviving_processes. effs_done. apply respectful_kill_surviving_all.
  - apply respectful_drain.
  - unfold process_pending_wakes. effs_done. apply respectful_wake_all.
  - unfold park_invoke_suspend. effs_done.
  - unfold handle_send_signal. effs_done.
  - unfold handle_send_custom_signal, wake_suspended_on_signal. effs_done.
Qed.

Lemma respectful_clean {A} (p : prog A) : all_effs respectful p → all_effs clean p.
Proof. apply all_effs_impl. by intros X e []. Qed.

Lemma respectful_guarded {A} (p : prog A) : all_effs respectful p → all_effs guarded p.
Proof. apply all_effs_impl. by intros X e []. Qed.

Lemma clean_recover `{EnvVars} i b : all_effs clean (recover_or_fail i b).
Proof. unfold recover_or_fail. effs_done. Qed.

Lemma clean_recover_all `{EnvVars} l : all_effs clean (recover_all l).
Proof.
  induction l as [|inst l IH]; [done|]. cbn [recover_all].
  unfold recover_orphaned_instance. effs_done. apply clean_recover.
Qed.

Lemma clean_recover_containers `{EnvVars} l : all_effs clean (recover_containers l).
Proof.
  induction l as [|c l IH]; [done|]. cbn [recover_containers].
  unfold recover_container. effs_done; apply clean_recover.
Qed.

Lemma clean_fail_all_stale `{TimeFormat} config l : all_effs clean (fail_all_stale config l).
Proof.
  induction l as [|c l IH]; [done|]. cbn [fail_all_stale].
  unfold fail_stale_instance, kill_and_confirm_pid. effs_done.
Qed.

Lemma clean_cleanup_loop fuel config cutoff n : all_effs clean (cleanup_loop fuel config cutoff n).
Proof.
  revert n. induction fuel as [|fuel IH]; intros n; [done|]. cbn [cleanup_loop].
  unfold cleanup_environment_tables. effs_done.
Qed.

Lemma clean_start `{Ext, EnvVars} st req : all_effs clean (handle_start_instance st req).
Proof.
  unfold handle_start_instance, start_image, existing_start_response, start_reserved,
    start_launched. effs_done.
Qed.

Lemma clean_resume `{EnvVars} st i : all_effs clean (handle_resume_instance st i).
Proof.
  unfold handle_resume_instance, resume_image, register_launch. effs_done.
Qed.

Lemma clean_tasks `{Ext, EnvVars, TimeFormat} p : clean_task p → all_effs clean p.
Proof.
  intros []; try (unfold task; apply all_effs_bind; [|done]).
  - by apply respectful_clean, respectful_tasks.
  - unfold handle_register_instance. effs_done.
  - unfold handle_signal_ack. effs_done.
  - apply clean_start.
  - unfold handle_stop_instance. effs_done.
  - apply clean_resume.
  - unfold heartbeat_poll, check_stale_instances, get_orphaned_running_instances.
    effs_done; [apply clean_fail_all_stale|apply clean_recover_all].
  - unfold recover_orphaned_containers. effs_done. apply clean_recover_containers.
  - unfold cleanup_old_instances. effs_done. apply clean_cleanup_loop.
Qed.

(** ** The first half of the monitor's exit branch *)

Lemma collected_trans i w1 w2 w3 : collected i w1 w2 → collected i w2 w3 → collected i w1 w3.
Proof.
  intros (A1 & A2 & A3 & A4 & A5) (B1 & B2 & B3 & B4 & B5). unfold collected.
  split; [congruence|]. split; [congruence|]. split; [lia|]. split; [|auto].
  intros r Hr. destruct (A4 r Hr) as (r2 & Hr2 & E2). destruct (B4 r2 Hr2) as (r3 & Hr3 & E3).
  exists r3. split; [done|congruence].
Qed.

Lemma collected_refl i w : collected i w w.
Proof. repeat split; [lia|eauto|done]. Qed.

(** A best-effort write of columns outside the outcome. *)
Lemma collected_update {B} i (o : pop unit) f w (k : prog B) Q :
  (∀ c db, (exec_pop c o db).2 = (update_instance i f db).2) →
  (∀ r, outcome (f r) = outcome r) →
  (∀ w', collected i w w' → wp calm k Q w') →
  wp calm (bind (pers o) (λ _, k)) Q w.
Proof.
  intros Ho Hf Hk. cbn [bind pers trigger]. apply wp_pers_calm. intros n m Hn.
  apply Hk. rewrite Ho, update_instance_db. repeat split; simpl; [done| |].
  - intros r Hr. exists (f r). rewrite lookup_alter_eq, Hr. by split.
  - intros Hr. by rewrite lookup_alter_eq, Hr.
Qed.

Lemma monitor_exit_wp h Q w :
  (∀ stderr w', collected (rh_instance_id h) w w' → wp calm (monitor_settle h stderr) Q w') →
  wp calm (monitor_exit h) Q w.
Proof.
  intros Hk. unfold monitor_exit. cbn [bind trigger]. apply wp_vis. intros t Ht.
  unfold perform. cbn [perform_now fst snd].
  assert (H1 : collected (rh_instance_id h) w (advance t w)).
  { repeat split; simpl; [lia|eauto|done]. }
  revert H1. generalize (t_stderr t) (t_metrics t) (advance t w). clear t Ht.
  intros stderr metrics w1 H1. set (i := rh_instance_id h) in *.
  assert (Hstderr : ∀ w2, collected i w w2 → wp calm (bind match stderr with
    | Some s => pers (UpdateInstanceStderr i s) | None => Ret (Ok tt) end
    (λ _, monitor_settle h stderr)) Q w2).
  { intros w2 H2. destruct stderr as [s|]; [|by apply Hk].
    eapply collected_update; [done|done|]. intros w3 H3. apply Hk. by eapply collected_trans. }
  case_goal; [|by apply Hstderr].
  eapply collected_update; [done|done|]. intros w2 H2. apply Hstderr. by eapply collected_trans.
Qed.

(** ** Theorems *)

(** C4: Settled outcomes.  Once an instance is not running, no interleaving of the tasks of
    [respectful_task], with any faults, changes its status, output, error, finish time,
    termination reason or exit code: a late report never overwrites what was recorded first.
    These tasks are the instance's events, checkpoints and checkpoint reads, sleeps, signal
    polls, status reads and retry reports, the container monitor, the failing of one stale
    container, the start-up kill of surviving processes, drains, wake schedulers, the parking
    of an invocation, and the sending of signals and custom signals.  The tasks whose work it
    is to move an instance that is not running are not among them: registration,
    acknowledgement of a signal, start, stop and resume requests, and the recovery of orphans
    by a poll of the heartbeat monitor or at start-up; nor is retention, which deletes the row. *)
Theorem settled_outcome_stable `{Ext, EnvVars, TimeFormat} l w l' w' i r :
  rtc pool_step (l, w) (l', w') → Forall respectful_task l →
  instances (w_db w) !! i = Some r → i_status r ≠ "running" →
  ∃ r', instances (w_db w') !! i = Some r' ∧ outcome r' = outcome r.
Proof.
  intros Hpool Hall Hr Hs.
  refine (proj1 (pool_guarantee (on_db outcome_kept) _ _ Hpool _) i r Hr Hs).
  eapply Forall_impl; [exact Hall|]. intros p Hp%respectful_tasks.
  eapply all_effs_impl; [|by apply respectful_guarded]. apply guarded_guarantees.
Qed.

(** A failure report races a drain after the instance completed. *)
Lemma settled_outcome_stable_witness :
  let ev := {| ie_instance_id := "i"; ie_event_type := 3; ie_checkpoint_id := None;
               ie_payload := []; ie_timestamp_ms := 7; ie_subtype := None |} in
  let final := run_schedule ((λ n, (Nat.modulo n 2, quiet)) <$> seq 0 20)
    ([task (handle_instance_event ev); drain true 1],
     world_of (db_with (row_with "completed"))) in
  ∃ r', instances (w_db final.2) !! "i" = Some r' ∧ outcome r' = outcome (row_with "completed").
Proof.
  intros ev final.
  apply (settled_outcome_stable [task (handle_instance_event ev); drain true 1]
    (world_of (db_with (row_with "completed"))) final.1 final.2);
    [|repeat constructor|reflexivity|done].
  replace (final.1, final.2) with final by by destruct final.
  apply run_schedule_reachable.
Defined.

(** Running rows are not finished.  Every task of the system except the
    embedded runner's relaunch keeps the invariant that a running row has
    neither a finish time nor a termination reason, under any interleaving and
    any faults. *)
Lemma running_rows_not_finished `{Ext, EnvVars, TimeFormat} l w l' w' :
  rtc pool_step (l, w) (l', w') → Forall clean_task l →
  running_clean (w_db w) → running_clean (w_db w').
Proof.
  intros Hpool Hall. apply (pool_invariant running_clean _ _ _ _ Hpool).
  eapply Forall_impl; [exact Hall|]. intros p Hp%clean_tasks.
  eapply all_effs_impl; [|exact Hp]. apply clean_guarantees.
Qed.

Lemma running_rows_not_finished_witness :
  let req := {| rr_instance_id := "i"; rr_tenant_id := "acme"; rr_checkpoint_id := None |} in
  let w0 := world_of (db_with {| (row_with "suspended") with i_finished_at := Some 30 |}) in
  let final := run_schedule ((λ _, (0%nat, quiet)) <$> seq 0 20)
    ([task (handle_register_instance state_new req)], w0) in
  (i_status <$> instances (w_db final.2) !! "i") = Some "running" ∧
  running_clean (w_db final.2).
Proof.
  intros req w0 final. split; [vm_compute; reflexivity|].
  apply (running_rows_not_finished [task (handle_register_instance state_new req)] w0
    final.1 final.2); [|constructor; [apply ct_register|constructor]|].
  - replace (final.1, final.2) with final by by destruct final. apply run_schedule_reachable.
  - intros j r. simpl. rewrite lookup_singleton_Some. by intros [<- <-].
Defined.
