(* ===== verification/DrainProperties.v ===== *)
(** * Properties of the graceful drain

    [runtime.rs]: the polling loop's bound, and what holds of every registered
    instance when [drain] returns, with other tasks interleaved. *)

From S2P Require Import Prelude.
From S2P Require Import CoreTypes.
From S2P Require Import Json.
From S2P Require Import Persistence.
From S2P Require Import EnvTables.
From S2P Require Import Effects.
From S2P Require Import Protocols.
From S2P Require Import InstanceHandlers.
From S2P Require Import DbInvariants.
From S2P Require Import Scenarios.
From S2P Require Import CoreProperties.
From S2P Require Import Recovery.
From S2P Require Import EnvHandlers.
From S2P Require Import EnvWorkers.
From S2P Require Import EnvProperties.

(** ** Vocabulary of the statements *)

(** No instance enters [running]. *)
Definition none_restarted (db db' : Db) : Prop :=
  ∀ i, running i db' → running i db.

(** The instance [i] has a registry entry. *)
Definition registered (i : string) (edb : EnvDb) : Prop :=
  ∃ c, container_registry edb !! i = Some c ∧ ci_instance_id c = i.

(** A query that does not remove the registry entry of [i]. *)
Definition keeps_entry (i : string) (X : Type) (e : eff X) : Prop :=
  match e with
  | Env (RegistryCleanup j) => j ≠ i
  | Env (DeleteEnvironmentRows ids) => i ∉ ids
  | _ => True
  end.

(** What the drain relies on: nobody restarts an instance or forgets [i]. *)
Definition drain_rely (i : string) (w w' : world) : Prop :=
  none_restarted (w_db w) (w_db w') ∧
  (registered i (w_env w) → registered i (w_env w')).

(** An effect of a task that may run beside the drain. *)
Definition beside_drain (i : string) (X : Type) (e : eff X) : Prop :=
  respectful X e ∧ keeps_entry i X e.

(** The instance is not running. *)
Definition not_running (i : string) (w : world) : Prop := ¬ running i (w_db w).

(** The instance is settled, or still on the list. *)
Definition covered (i : string) (l : list ContainerInfo) (w : world) : Prop :=
  not_running i w ∨ Exists (λ c, ci_instance_id c = i) l.

(** The row [i] is suspended for the shutdown, and due. *)
Definition shut (i : string) (w : world) : Prop :=
  ∃ r, instances (w_db w) !! i = Some r ∧ i_status r = "suspended" ∧
    i_termination_reason r = Some "shutdown_requested" ∧
    ∃ t, i_sleep_until r = Some t ∧ t ≤ w_now w.

(** The clock does not go back. *)
Definition clock_mono (w w' : world) : Prop := w_now w ≤ w_now w'.

(** The ticks a program leaves to its continuation. *)
Fixpoint ticks_left {A} (p : prog A) (ts : nat → tick) (w : world) : nat → tick :=
  match p with
  | Ret _ => ts
  | Vis e k => ticks_left (k (perform (ts O) w e).1) (λ n, ts (S n)) (perform (ts O) w e).2
  end.

(** ** The bound of the polling loop *)

#[export] Instance clock_mono_preorder : PreOrder clock_mono.
Proof. split; unfold clock_mono; [intros ?|intros ? ? ?]; lia. Qed.

Lemma perform_clock t w {X} (e : eff X) : w_now w ≤ w_now (perform t w e).2.
Proof.
  unfold perform. destruct e; simpl; repeat case_goal; simplify_eq/=; lia.
Qed.

Lemma run_clock {A} (p : prog A) ts w : w_now w ≤ w_now (run p ts w).2.
Proof.
  apply (run_guarantee clock_mono).
  induction p as [a|X e k IH]; [done|]. split; [|done]. intros t w'. apply perform_clock.
Qed.

Lemma run_bind_left {A B} (p : prog A) (f : A → prog B) ts w :
  run (bind p f) ts w = run (f (run p ts w).1) (ticks_left p ts w) (run p ts w).2.
Proof.
  revert ts w. induction p as [a|X e k IH]; intros ts w; simpl; [done|].
  destruct (perform (ts O) w e) as [x w']. apply IH.
Qed.

Lemma poll_drained_more n m d l ts w :
  d ≤ w_now w + Z.of_nat n * 500000 →
  run (poll_drained (n + m) d l) ts w = run (poll_drained n d l) ts w.
Proof.
  revert l ts w. induction n as [|n IH]; intros [|c l] ts w Hd.
  - by destruct m.
  - destruct m as [|m]; [done|]. simpl.
    destruct (Z.leb_spec d (w_now w + Z.of_N (t_dt (ts 0%nat)))); [done|lia].
  - done.
  - cbn [poll_drained Nat.add]. simpl.
    destruct (Z.leb_spec d (w_now w + Z.of_N (t_dt (ts 0%nat)))); [done|].
    set (ts1 := λ k, ts (S k)). set (w1 := advance (ts 0%nat) w).
    change (run (bind (filter_non_terminal (c :: l)) (λ rem, match rem with
      | [] => Ret []
      | _ => bind (trigger (Sleep 500)) (λ _, poll_drained (n + m) d rem) end)) ts1 w1 =
      run (bind (filter_non_terminal (c :: l)) (λ rem, match rem with
      | [] => Ret []
      | _ => bind (trigger (Sleep 500)) (λ _, poll_drained n d rem) end)) ts1 w1).
    rewrite !run_bind_left.
    pose proof (run_clock (filter_non_terminal (c :: l)) ts1 w1) as Hclock.
    destruct (run (filter_non_terminal (c :: l)) ts1 w1) as [[|c' l'] w2]; [done|].
    simpl in *. apply IH. simpl. lia.
Qed.

(** ** What the drain relies on *)

#[export] Instance none_restarted_preorder : PreOrder none_restarted.
Proof. split; unfold none_restarted; [intros db i|intros a b c Hab Hbc i]; auto. Qed.

#[export] Instance drain_rely_preorder i : PreOrder (drain_rely i).
Proof.
  split; unfold drain_rely.
  - intros w. split; [reflexivity|done].
  - intros w1 w2 w3 [H1 H2] [H3 H4]. split; [by etrans|auto].
Qed.

Lemma none_restarted_same db db' : instances db' = instances db → none_restarted db db'.
Proof. intros E i. unfold running. by rewrite E. Qed.

(** An UPDATE that does not enter [running]. *)
Lemma none_restarted_update i f db :
  (∀ r, instances db !! i = Some r → i_status (f r) = "running" → i_status r = "running") →
  none_restarted db (update_instance i f db).2.
Proof.
  intros Hf j (r & Hr & Hs). rewrite update_instance_db in Hr. simpl in Hr.
  destruct (decide (i = j)) as [<-|Hne].
  - rewrite lookup_alter_eq in Hr. apply fmap_Some in Hr as (r0 & Hr0 & ->).
    exists r0. split; [done|]. by apply Hf.
  - rewrite lookup_alter_ne in Hr by done. by exists r.
Qed.

Lemma respectful_op_none_restarted {A} (o : pop A) :
  guarded_op o → clean_op o → DbGuarantees none_restarted o.
Proof.
  intros Hg Hc c db.
  destruct o; simpl in *; try done; unfold_ops;
    repeat (case_goal; simplify_eq/=; try done);
    try (by apply none_restarted_same);
    try (by apply none_restarted_update);
    try (match goal with H : update_instance ?i ?f db = _ |- _ =>
           pose proof (none_restarted_update i f db ltac:(done)) as Hk; by rewrite H in Hk end).
  intros j (r & Hr & Hs). simpl in Hr. apply lookup_insert_Some in Hr as [[<- <-]|[_ Hr]]; [done|].
  by exists r.
Qed.

Lemma perform_env_same t w {X} (e : eff X) :
  match e with Env _ => False | _ => True end → w_env (perform t w e).2 = w_env w.
Proof.
  unfold perform. destruct e; simpl; try done; intros _;
    repeat case_goal; simplify_eq/=; done.
Qed.

Lemma exec_eop_registered i c {A} (o : eop A) db edb :
  keeps_entry i _ (Env o) → registered i edb → registered i (exec_eop c o db edb).2.
Proof.
  intros Hk (ci & Hci & Hid). destruct o; simpl in *; unfold registered;
    try (by exists ci).
  - unfold image_register. repeat (case_goal; simpl; eauto).
  - unfold associate_instance_image. repeat (case_goal; simpl; eauto).
  - simpl. destruct (decide (ci_instance_id info = i)) as [<-|Hne].
    + eexists. split; [apply lookup_insert_eq|done].
    + exists ci. by rewrite lookup_insert_ne.
  - exists ci. simpl. by rewrite lookup_delete_ne.
  - simpl. destruct (decide (instance_id = i)) as [->|Hne].
    + eexists. split; [rewrite lookup_alter_eq, Hci; done|done].
    + exists ci. by rewrite lookup_alter_ne.
  - exists ci. split; [|done]. simpl. apply map_lookup_filter_Some. by split.
Qed.

Lemma beside_guarantees i X (e : eff X) :
  beside_drain i X e → Guarantees (drain_rely i) e.
Proof.
  intros [[Hg Hc] Hk] t w. split.
  - destruct e; try by (apply none_restarted_same; rewrite perform_not_pers).
    destruct (perform_pers_db t w o) as [->| ->]; [reflexivity|].
    by apply respectful_op_none_restarted.
  - intros Hreg. destruct e as [| A o | | | | | | | | | | | | | | | | |];
      try by rewrite perform_env_same.
    unfold perform. simpl.
    pose proof (exec_eop_registered i (stmt_of t (advance t w)) o (w_db w) (w_env w) Hk Hreg) as H.
    destruct (exec_eop (stmt_of t (advance t w)) o (w_db w) (w_env w)) as [r edb].
    destruct (t_fault t); simpl in *; done.
Qed.

Lemma stable_not_running i : stable (drain_rely i) (not_running i).
Proof. intros w w' [H _] Hn Hr. by apply Hn, H. Qed.

Lemma stable_registered i : stable (drain_rely i) (λ w, registered i (w_env w)).
Proof. intros w w' [_ H]. exact H. Qed.

(** ** The drain *)

Lemma all_effs_conj (P Q : ∀ X, eff X → Prop) {A} (p : prog A) :
  all_effs P p → all_effs Q p → all_effs (λ X e, P X e ∧ Q X e) p.
Proof.
  induction p as [a|X e k IH]; [done|]. intros [HP HPk] [HQ HQk]. split; [done|].
  intros x. by apply IH.
Qed.

(** A respectful task that makes no registry-removing query keeps the rely. *)
Lemma beside_all_effs i {A} (p : prog A) :
  all_effs respectful p → all_effs (keeps_entry i) p →
  all_effs (λ _, Guarantees (drain_rely i)) p.
Proof.
  intros H1 H2. eapply all_effs_impl; [apply (beside_guarantees i)|].
  by apply all_effs_conj.
Qed.

Lemma keeps_filter i l : all_effs (keeps_entry i) (filter_non_terminal l).
Proof. induction l as [|c l IH]; [done|]. cbn [filter_non_terminal]. effs_done. Qed.

Lemma keeps_signal_all i g l : all_effs (keeps_entry i) (signal_all g l).
Proof. induction l as [|c l IH]; [done|]. cbn [signal_all]. effs_done. Qed.

Lemma keeps_force_stop i c : all_effs (keeps_entry i) (force_stop c).
Proof. unfold force_stop. effs_done. Qed.

Lemma respectful_force_stop c : all_effs respectful (force_stop c).
Proof. unfold force_stop. effs_done. Qed.

Lemma keeps_force_stop_all i l : all_effs (keeps_entry i) (force_stop_all l).
Proof.
  induction l as [|c l IH]; [done|]. cbn [force_stop_all].
  apply all_effs_bind; [apply keeps_force_stop|done].
Qed.

Section drain.
Context (i : string).
#[local] Abbreviation covered := (covered i).

Lemma stable_covered l : stable (drain_rely i) (covered l).
Proof. intros w w' HR [H|H]; [left|by right]. by eapply stable_not_running. Qed.

Lemma covered_mono l l' w :
  (Exists (λ c, ci_instance_id c = i) l → Exists (λ c, ci_instance_id c = i) l') →
  covered l w → covered l' w.
Proof. intros H [Hn|Hl]; [by left|right; auto]. Qed.

Lemma filter_covers l w :
  covered l w → wpr (drain_rely i) calm (filter_non_terminal l) covered w.
Proof.
  revert w. induction l as [|c l IH]; intros w Hw; cbn [filter_non_terminal].
  { apply wpr_ret; [apply stable_covered|done]. }
  apply (wpr_vis _ _ (covered (c :: l))); [apply stable_covered|done|].
  clear w Hw. intros w t Hw Ht. unfold perform. simpl. rewrite Ht. simpl.
  match goal with |- wpr _ _ _ _ ?W => set (w1 := W) end.
  match goal with |- context [Ret (if ?K then c :: _ else _)] => set (keep := K) end.
  assert (Hkeep : covered (if keep then c :: l else l) w1).
  { destruct Hw as [Hn|[Hc|Hl]%Exists_cons]; [by left| |right; by destruct keep; [right|]].
    destruct keep eqn:Ek; [right; by left|]. left. intros (r & Hr & Hs).
    subst keep. simpl in Hr. rewrite Hc, Hr in Ek. simpl in Ek.
    unfold reported_by_sdk in Ek. rewrite Hs in Ek. done. }
  clearbody keep w1. clear Hw Ht t w. apply wpr_bind; [apply _|].
  eapply (wpr_mono _ _ _ (λ rest w', covered rest w' ∨ keep = true ∧ ci_instance_id c = i)).
  - intros rest w' H. apply wpr_ret; [apply stable_covered|].
    destruct H as [H|[-> Hc]]; [|right; by left].
    eapply covered_mono; [|exact H]. destruct keep; [by right|done].
  - destruct (decide (keep = true ∧ ci_instance_id c = i)) as [Hd|Hd].
    + eapply wpr_mono; [|apply (wpr_stable _ _ (λ _, True))]; [by right|done| |done].
      apply beside_all_effs; [apply respectful_filter|apply keeps_filter].
    + eapply wpr_mono; [|apply IH]; [by left|]. eapply covered_mono; [|exact Hkeep].
      destruct keep; [|done]. intros [Hc|Hl]%Exists_cons; [tauto|done].
Qed.

Lemma poll_covers n d l w :
  covered l w → wpr (drain_rely i) calm (poll_drained n d l) covered w.
Proof.
  revert l w. induction n as [|n IH]; intros [|c l] w Hw; cbn [poll_drained];
    try (apply wpr_ret; [apply stable_covered|done]).
  - apply (wpr_vis _ _ (covered (c :: l))); [apply stable_covered|done|].
    intros w1 t H1 _. apply wpr_ret; [apply stable_covered|exact H1].
  - apply (wpr_vis _ _ (covered (c :: l))); [apply stable_covered|done|].
    intros w1 t H1 _. cbn [bind]. destruct (d <=? _).
    { apply wpr_ret; [apply stable_covered|exact H1]. }
    apply wpr_bind; [apply _|]. eapply wpr_mono; [|apply (filter_covers (c :: l)); exact H1].
    intros [|c' l'] w2 H2; [apply wpr_ret; [apply stable_covered|done]|].
    apply (wpr_vis _ _ (covered (c' :: l'))); [apply stable_covered|done|].
    intros w3 t3 H3 _. apply IH. exact H3.
Qed.

Lemma force_stop_one c w :
  ci_instance_id c = i → wpr (drain_rely i) calm (force_stop c) (λ _, not_running i) w.
Proof.
  intros Hc. unfold force_stop. simpl.
  apply (wpr_vis _ _ (λ _, True)); [done|done|]. intros w1 t1 _ Ht1.
  apply (wpr_vis _ _ (λ _, True)); [done|done|]. intros w2 t2 _ Ht2.
  assert (Hn : not_running i (perform t2 w2 (Pers (CompleteInstance
    (with_error "Force-stopped after grace period expired during shutdown"
       (with_termination "shutdown_requested" None
          (if_running (params_new (ci_instance_id c) "suspended"))))))).2).
  { unfold perform. simpl. rewrite Ht2, Hc. simpl. unfold not_running, running.
    unfold op_complete_instance_unified, complete_guard. simpl.
    destruct (instances (w_db w2) !! i) as [r|] eqn:Hr; simpl.
    - destruct (decide (i_status r = "running")) as [Hs|Hs].
      + rewrite bool_decide_true by done. simpl. rewrite update_instance_db. simpl.
        rewrite lookup_alter_eq, Hr. simpl. by intros (r' & [= <-] & H).
      + rewrite bool_decide_false by done. simpl. rewrite Hr. by intros (r' & [= <-] & H).
    - rewrite Hr. by intros (r' & ? & H). }
  apply wpr_stable; [apply stable_not_running| |exact Hn].
  apply beside_all_effs; effs_done.
Qed.

Lemma force_stop_covers l w :
  covered l w → wpr (drain_rely i) calm (force_stop_all l) (λ _, not_running i) w.
Proof.
  revert w. induction l as [|c l IH]; intros w Hw; cbn [force_stop_all].
  { apply wpr_ret; [apply stable_not_running|]. destruct Hw as [H|H%Exists_nil]; done. }
  apply wpr_bind; [apply _|].
  assert (Hstable : ∀ J : world → Prop, stable (drain_rely i) J → J w →
    wpr (drain_rely i) calm (force_stop c) (λ _, J) w).
  { intros J HJ Hj. apply wpr_stable; [done| |done].
    apply beside_all_effs; [apply respectful_force_stop|apply keeps_force_stop]. }
  destruct Hw as [Hn|[Hc|Hl]%Exists_cons].
  - eapply wpr_mono; [|apply (Hstable (not_running i)); [apply stable_not_running|done]].
    intros u w' Hw'. apply IH. by left.
  - eapply wpr_mono; [|by apply force_stop_one]. intros u w' Hw'. apply IH. by left.
  - eapply wpr_mono; [|apply (Hstable (λ _, True)); done]. intros u w' _. apply IH. by right.
Qed.

Lemma drain_covers core g w :
  registered i (w_env w) → wpr (drain_rely i) calm (drain core g) (λ _, not_running i) w.
Proof.
  intros Hw. unfold drain.
  apply (wpr_vis _ _ (λ w, registered i (w_env w))); [apply stable_registered|done|].
  clear w Hw. intros w t0 Hw _. apply wpr_bind; [apply _|].
  eapply (wpr_mono _ _ _ (λ _ w, registered i (w_env w))).
  2: { apply wpr_stable; [apply stable_registered| |exact Hw].
       apply beside_all_effs; destruct core; effs_done. }
  clear w Hw. intros _ w Hw.
  apply (wpr_vis _ _ (λ w, registered i (w_env w))); [apply stable_registered|done|].
  clear w Hw. intros w t (c & Hreg & Hc) Ht. unfold perform. simpl. rewrite Ht. simpl.
  assert (Hin : c ∈ (snd <$> map_to_list (container_registry (w_env w)))).
  { apply list_elem_of_fmap. exists (i, c). split; [done|]. by apply elem_of_map_to_list. }
  destruct (snd <$> map_to_list (container_registry (w_env w))) as [|c0 l] eqn:El;
    [by apply not_elem_of_nil in Hin|].
  assert (Hex : Exists (λ c, ci_instance_id c = i) (c0 :: l)) by (apply Exists_exists; eauto).
  clear Hreg El. apply wpr_bind; [apply _|].
  eapply (wpr_mono _ _ _ (λ _ _, True)).
  2: { apply wpr_stable; [done| |done].
       apply beside_all_effs; [apply respectful_signal_all|apply keeps_signal_all]. }
  intros _ w1 _.
  apply (wpr_vis _ _ (λ _, True)); [done|done|]. intros w2 t2 _ Ht2.
  apply wpr_bind; [apply _|]. eapply wpr_mono; [|apply (poll_covers _ _ (c0 :: l)); by right].
  intros rem w3 H3. by apply force_stop_covers.
Qed.
End drain.

(** ** The drain on its own *)

Section alone.
Context (c : ContainerInfo) (r : instances_row).
#[local] Abbreviation i := (ci_instance_id c).
Hypothesis Hrun : i_status r = "running".

(** The rows the drain reads are those of the start. *)
#[local] Abbreviation untouched := (λ w, instances (w_db w) !! i = Some r).

Lemma signal_all_alone g l w :
  untouched w → wp calm (signal_all g l) (λ _ w', untouched w') w.
Proof.
  revert w. induction l as [|d l IH]; intros w Hw; cbn [signal_all]; [by apply wp_ret|].
  simpl. step_calm. step_calm. apply IH. simpl.
  unfold op_insert_signal. by repeat case_goal.
Qed.

Lemma filter_alone l w :
  untouched w → c ∈ l →
  wp calm (filter_non_terminal l) (λ rem w', untouched w' ∧ c ∈ rem) w.
Proof.
  intros Hw Hin.
  assert (Hrow : ∀ l w, untouched w → wp calm (filter_non_terminal l) (λ _ w', untouched w') w).
  { clear l w Hw Hin. induction l as [|d l IH]; intros w Hw; [by apply wp_ret|].
    cbn [filter_non_terminal]. simpl. step_calm. apply wp_bind.
    eapply wp_mono; [|by apply IH]. done. }
  revert w Hw Hin. induction l as [|d l IH]; intros w Hw Hin; [by apply not_elem_of_nil in Hin|].
  cbn [filter_non_terminal]. simpl. step_calm. apply wp_bind.
  apply elem_of_cons in Hin as [<-|Hin].
  - eapply wp_mono; [|by apply Hrow]. intros rem w' Hw'. apply wp_ret. split; [done|].
    rewrite Hw. simpl. unfold reported_by_sdk. rewrite Hrun. simpl. left.
  - eapply wp_mono; [|by apply IH]. intros rem w' [Hw' Hrem]. apply wp_ret. split; [done|].
    by repeat case_goal; try right.
Qed.

Lemma poll_alone n d l w :
  untouched w → c ∈ l → wp calm (poll_drained n d l) (λ rem w', untouched w' ∧ c ∈ rem) w.
Proof.
  revert l w. induction n as [|n IH]; intros [|d' l] w Hw Hin; cbn [poll_drained];
    try (by apply not_elem_of_nil in Hin).
  - cbn [bind trigger]. apply wp_utcnow_calm. intros t Ht. by apply wp_ret.
  - cbn [bind trigger]. apply wp_utcnow_calm. intros t Ht. case_goal; [by apply wp_ret|].
    apply wp_bind. eapply wp_mono; [|by apply filter_alone].
    intros [|d1 l1] w1 [H1 H2]; [by apply not_elem_of_nil in H2|].
    apply wp_vis. intros t' _. apply IH; [exact H1|done].
Qed.

Lemma force_stop_alone w : untouched w → wp calm (force_stop c) (λ _ w', shut i w') w.
Proof.
  intros Hw. unfold force_stop. simpl. apply wp_vis. intros t Ht.
  unfold perform. simpl. rewrite Ht. simpl.
  step_calm. unfold op_complete_instance_unified, complete_guard. simpl.
  rewrite Hw, bool_decide_true by done. simpl. rewrite (instances_update _ _ _ r) by done. simpl.
  step_calm. step_calm. unfold op_set_instance_sleep.
  erewrite instances_update by apply lookup_insert_eq. simpl.
  apply wp_ret. eexists. split; [apply lookup_insert_eq|]. split; [done|]. split; [done|].
  eexists. split; [done|]. simpl in *. lia.
Qed.
End alone.

(** Stopping another container, or the same one again, changes nothing. *)
Lemma force_stop_shut j d w : shut j w → wp calm (force_stop d) (λ _ w', shut j w') w.
Proof.
  intros (r & Hr & Hs & Ht & u & Hu & Hle). unfold force_stop. simpl.
  apply wp_vis. intros t Hcalm. unfold perform. simpl. rewrite Hcalm. simpl.
  step_calm. unfold op_complete_instance_unified, complete_guard. simpl.
  destruct (instances (w_db w) !! ci_instance_id d) as [rd|] eqn:Hd; simpl.
  2: { apply wp_ret. exists r. split; [done|]. repeat split; try done. exists u.
       split; [done|]. simpl in *. lia. }
  destruct (decide (i_status rd = "running")) as [Hrun|Hrun].
  - rewrite bool_decide_true by done. simpl. rewrite (instances_update _ _ _ rd) by done. simpl.
    assert (Hne : ci_instance_id d ≠ j) by (intros <-; congruence).
    step_calm. step_calm. unfold op_set_instance_sleep.
    erewrite instances_update by apply lookup_insert_eq. simpl. apply wp_ret.
    exists r. split; [simpl; by rewrite !lookup_insert_ne|]. repeat split; try done.
    exists u. split; [done|]. simpl in *. lia.
  - rewrite bool_decide_false by done. simpl. apply wp_ret.
    exists r. split; [done|]. repeat split; try done. exists u. split; [done|]. simpl in *. lia.
Qed.

(** Stopping a container touches no other instance. *)
Lemma force_stop_other j r d w :
  ci_instance_id d ≠ j → instances (w_db w) !! j = Some r →
  wp calm (force_stop d) (λ _ w', instances (w_db w') !! j = Some r) w.
Proof.
  intros Hne Hr. unfold force_stop. simpl.
  apply wp_vis. intros t Hcalm. unfold perform. simpl. rewrite Hcalm. simpl.
  step_calm. unfold op_complete_instance_unified. simpl.
  destruct (instances (w_db w) !! ci_instance_id d) as [rd|] eqn:Hd; simpl; [|by apply wp_ret].
  case_goal; simpl; [by apply wp_ret|]. rewrite (instances_update _ _ _ rd) by done. simpl.
  step_calm. step_calm. unfold op_set_instance_sleep.
  erewrite instances_update by apply lookup_insert_eq. simpl. apply wp_ret.
  simpl. by rewrite !lookup_insert_ne.
Qed.

Lemma force_stop_all_shut j l w : shut j w → wp calm (force_stop_all l) (λ _ w', shut j w') w.
Proof.
  revert w. induction l as [|d l IH]; intros w Hw; [by apply wp_ret|].
  cbn [force_stop_all]. apply wp_bind. eapply wp_mono; [|by apply force_stop_shut].
  intros u w'. apply IH.
Qed.

Lemma force_stop_all_alone c r l w :
  i_status r = "running" → instances (w_db w) !! ci_instance_id c = Some r → c ∈ l →
  wp calm (force_stop_all l) (λ _ w', shut (ci_instance_id c) w') w.
Proof.
  intros Hrun. revert w. induction l as [|d l IH]; intros w Hw Hin;
    [by apply not_elem_of_nil in Hin|]. cbn [force_stop_all]. apply wp_bind.
  destruct (decide (ci_instance_id d = ci_instance_id c)) as [Heq|Hne].
  - eapply wp_mono; [|eapply force_stop_alone; [exact Hrun|by rewrite Heq]].
    rewrite Heq. intros u w'. apply force_stop_all_shut.
  - eapply wp_mono; [|by apply force_stop_other]. intros u w' Hw'. apply IH; [done|].
    by apply elem_of_cons in Hin as [->|].
Qed.

Lemma drain_alone core g c r w :
  container_registry (w_env w) !! ci_instance_id c = Some c →
  instances (w_db w) !! ci_instance_id c = Some r → i_status r = "running" →
  wp calm (drain core g) (λ _ w', shut (ci_instance_id c) w') w.
Proof.
  intros Hreg Hr Hrun. unfold drain.
  assert (Hgo : ∀ w', w_env w' = w_env w → w_db w' = w_db w →
    wp calm (bind (env RegistryListAll) (λ listed,
      match listed with
      | Err _ | Ok [] => Ret tt
      | Ok active =>
          bind (signal_all g active) (λ _, bind (trigger UtcNow) (λ t,
            bind (poll_drained (drain_polls g) (t + g * 1000000) active) force_stop_all))
      end)) (λ _ w', shut (ci_instance_id c) w') w').
  { intros w' He Hd. cbn [bind env trigger]. apply wp_env_calm. intros n m Hn.
    cbn [exec_eop fst]. unfold registry_list_all. rewrite He.
    assert (Hin : c ∈ (snd <$> map_to_list (container_registry (w_env w)))).
    { apply list_elem_of_fmap. exists (ci_instance_id c, c). split; [done|].
      by apply elem_of_map_to_list. }
    destruct (snd <$> map_to_list (container_registry (w_env w))) as [|d l];
      [by apply not_elem_of_nil in Hin|].
    apply wp_bind. eapply wp_mono; [|apply (signal_all_alone c r); simpl; by rewrite Hd].
    intros u w1 H1. cbn [bind trigger]. apply wp_utcnow_calm. intros t Ht. apply wp_bind.
    eapply wp_mono; [|by apply (poll_alone c r)]. intros rem w2 [H2 H3].
    by eapply force_stop_all_alone. }
  cbn [bind trigger]. apply wp_vis. intros t Ht. destruct core; cbn [bind trigger].
  - apply wp_vis. intros t' Ht'. by apply Hgo.
  - by apply Hgo.
Qed.

(** ** Theorems *)

(** C6: Nothing runs after a drain.  Let a [drain] whose own calls all go through run beside
    any number of tasks that settle instances only while they are running, restart none and
    leave the registry entry of [i] in place (a container monitor of [i] is not such a task:
    it removes the entry when it ends); the database calls of those tasks may fail.  When the
    [drain] has returned, an instance [i] registered at its start is not running: it reported
    by itself within the grace period or was force-stopped, and no race between the two leaves
    it running. *)
Theorem drain_leaves_none_running core grace others w others' w' i :
  rtc (focus_step calm) (drain core grace, others, w) (Ret tt, others', w') →
  Forall (all_effs (beside_drain i)) others →
  registered i (w_env w) → ¬ running i (w_db w').
Proof.
  intros Hsteps Hothers Hreg.
  apply (focus_result (drain_rely i) calm _ _ _ _ _ _ (λ _, not_running i) Hsteps);
    [|by apply drain_covers].
  eapply Forall_impl; [exact Hothers|]. intros p. apply all_effs_impl, beside_guarantees.
Qed.

(** The instance completes by itself while the drain polls. *)
Lemma drain_leaves_none_running_witness :
  let ev := {| ie_instance_id := "i"; ie_event_type := 2; ie_checkpoint_id := None;
               ie_payload := []; ie_timestamp_ms := 7; ie_subtype := None |} in
  let sched := ((λ _ : nat, (None, quiet)) <$> seq 0 8) ++
               ((λ _ : nat, (Some 0%nat, quiet)) <$> seq 0 4) ++
               ((λ _ : nat, (None, quiet)) <$> seq 0 8) in
  let final := run_focus sched
    (drain true 1, [task (handle_instance_event ev)],
     {| running_world with w_env := env_with demo_container |}) in
  final.1.1 = Ret tt ∧ ¬ running "i" (w_db final.2).
Proof.
  intros ev sched final. assert (Hret : final.1.1 = Ret tt) by reflexivity.
  split; [done|].
  apply (drain_leaves_none_running true 1 [task (handle_instance_event ev)]
    {| running_world with w_env := env_with demo_container |} final.1.2 final.2).
  - rewrite <-Hret.
    replace (final.1.1, final.1.2, final.2) with final by by destruct final as [[]].
    apply run_focus_reachable. by repeat constructor.
  - constructor; [|constructor]. apply all_effs_conj; [apply respectful_tasks, rt_event|].
    unfold handle_instance_event, event_status_update, suspend_if_running. effs_done.
  - exists demo_container. split; reflexivity.
Defined.

(** A forced stop is resumable.  When the registered instance does not react
    to the shutdown signal, the drain (alone, with its calls going through)
    leaves it suspended with reason "shutdown_requested" and due for the wake
    scan, so that it is relaunched after the restart. *)
Lemma drain_schedules_relaunch core grace c r ts w :
  container_registry (w_env w) !! ci_instance_id c = Some c →
  instances (w_db w) !! ci_instance_id c = Some r → i_status r = "running" →
  (∀ n, calm (ts n)) →
  let final := run (drain core grace) ts w in
  ∃ r', instances (w_db final.2) !! ci_instance_id c = Some r' ∧
    i_termination_reason r' = Some "shutdown_requested" ∧
    sleep_due (w_now final.2) r' = true.
Proof.
  intros Hreg Hr Hrun Hts final.
  destruct (wp_run _ _ _ _ (drain_alone core grace c r w Hreg Hr Hrun) ts Hts)
    as (r' & Hr' & Hs & Ht & u & Hu & Hle).
  exists r'. split; [done|]. split; [done|]. rewrite (sleep_due_suspended _ _ u) by done.
  by apply Z.leb_le.
Qed.

Lemma drain_schedules_relaunch_witness :
  let final := run (drain true 1) calm_ticks
    {| running_world with w_env := env_with demo_container |} in
  ∃ r', instances (w_db final.2) !! "i" = Some r' ∧
    i_termination_reason r' = Some "shutdown_requested" ∧
    sleep_due (w_now final.2) r' = true.
Proof.
  apply (drain_schedules_relaunch true 1 demo_container (row_with "running"));
    [reflexivity|reflexivity|reflexivity|apply calm_ticks_calm].
Defined.

(** The polling loop ends by its deadline.  The number of rounds [drain] gives
    the loop is never what ends it: from a clock at most the grace period before
    the deadline, any larger number of rounds gives the same result and the same
    world, whatever the answers and faults. *)
Lemma poll_rounds_suffice grace m l ts w :
  0 ≤ grace →
  let deadline := w_now w + grace * 1000000 in
  run (poll_drained (drain_polls grace + m) deadline l) ts w =
  run (poll_drained (drain_polls grace) deadline l) ts w.
Proof. intros Hg deadline. apply poll_drained_more. unfold drain_polls, deadline. lia. Qed.

Lemma poll_rounds_suffice_witness :
  let w := {| running_world with w_env := env_with demo_container |} in
  run (poll_drained 1000 2000100 [demo_container]) calm_ticks w =
  run (poll_drained 5 2000100 [demo_container]) calm_ticks w.
Proof. intros w. apply (poll_rounds_suffice 2 995 [demo_container] calm_ticks w). lia. Defined.
