(* ===== verification/RetentionProperties.v ===== *)
(** * Properties of the retention worker

    [db_cleanup_worker.rs]: a cleanup cycle ends, and removes exactly the
    terminal instances that finished before its cutoff, with all their rows. *)

From S2P Require Import Prelude.
From S2P Require Import CoreTypes.
From S2P Require Import Json.
From S2P Require Import Persistence.
From S2P Require Import EnvTables.
From S2P Require Import Effects.
From S2P Require Import InstanceHandlers.
From S2P Require Import DbInvariants.
From S2P Require Import Scenarios.
From S2P Require Import CoreProperties.
From S2P Require Import Recovery.
From S2P Require Import EnvHandlers.
From S2P Require Import EnvWorkers.
Open Scope runtara_scope.

(** ** Vocabulary of the statements

    What the worker means by an expired instance and by removing it, written out without
    the predicates and the deletions of the code. *)

(** A terminal instance that finished before [cutoff]. *)
Definition finished_before (cutoff : time) (r : instances_row) : Prop :=
  (i_status r = "completed" ∨ i_status r = "failed" ∨ i_status r = "cancelled") ∧
  ∃ f, i_finished_at r = Some f ∧ f < cutoff.

Definition expired (cutoff : time) (i : string) (db : Db) : Prop :=
  ∃ r, instances db !! i = Some r ∧ finished_before cutoff r.

(** The table [m'] is [m] without the rows that [gone] own; every other row is as it was. *)
Definition rows_swept {K A} `{Countable K} (owner : K → string) (gone : list string)
  (m m' : gmap K A) : Prop :=
  ∀ k, m' !! k = if decide (owner k ∈ gone) then None else m !! k.

(** The world [w'] is [w] (at a later time) without the instances [gone] and without their
    rows in every table that refers to instances. *)
Definition swept (gone : list string) (w w' : world) : Prop :=
  let db := w_db w in let db' := w_db w' in
  let env := w_env w in let env' := w_env w' in
  rows_swept id gone (instances db) (instances db') ∧
  rows_swept fst gone (checkpoints db) (checkpoints db') ∧
  instance_events db' = filter (λ e, e_instance_id e ∉ gone) (instance_events db) ∧
  rows_swept id gone (pending_signals db) (pending_signals db') ∧
  rows_swept fst gone (pending_checkpoint_signals db) (pending_checkpoint_signals db') ∧
  checkpoints_seq db' = checkpoints_seq db ∧ events_seq db' = events_seq db ∧
  images env' = images env ∧
  rows_swept id gone (instance_images env) (instance_images env') ∧
  rows_swept id gone (container_registry env) (container_registry env') ∧
  rows_swept id gone (container_cancellations env) (container_cancellations env') ∧
  rows_swept id gone (container_status env) (container_status env') ∧
  rows_swept id gone (container_heartbeats env) (container_heartbeats env').

(** ** The deletions of the code *)

Definition deleted (gone : list string) (w w' : world) : Prop :=
  w_db w' = delete_cascade gone (w_db w) ∧
  w_env w' = (delete_environment_rows gone (w_env w)).2.

Lemma finished_before_exact cutoff r : terminal_older_than cutoff r = true ↔ finished_before cutoff r.
Proof.
  unfold terminal_older_than, finished_before. rewrite andb_true_iff, bool_decide_eq_true, !elem_of_cons.
  destruct (i_finished_at r) as [f|].
  - rewrite Z.ltb_lt. split; [|intros [H (f' & [= <-] & Hf)]; split; [tauto|done]].
    intros [[H|[H|[H|H%not_elem_of_nil]]] Hf]; (split; [tauto|by exists f]) || done.
  - split; [by intros [_ ?]|by intros [_ (f & ? & _)]].
Qed.

Lemma filter_swept {K A} `{Countable K} (owner : K → string) gone (m : gmap K A) :
  rows_swept owner gone m (filter (λ ka : K * A, owner ka.1 ∉ gone) m).
Proof.
  intros k. case_decide as Hk.
  - apply map_lookup_filter_None. right. intros a _ Hn. by apply Hn.
  - destruct (m !! k) as [a|] eqn:Ha.
    + apply map_lookup_filter_Some. by split.
    + apply map_lookup_filter_None. by left.
Qed.

Lemma deleted_swept gone w w' : deleted gone w w' → swept gone w w'.
Proof.
  intros [Hd He]. unfold swept. rewrite Hd, He. simpl.
  split_and!; try done; first [apply (filter_swept id)|apply (filter_swept fst)].
Qed.

(** The batch the worker selects. *)
Definition expired_batch (cutoff : time) (limit : Z) (db : Db) : list string :=
  fst <$> sql_limit limit
    (order_by (λ ir, default 0 (i_finished_at ir.2))
       (filter (λ ir, terminal_older_than cutoff ir.2 = true) (map_to_list (instances db)))).

(** What a cycle that started in [w] has reached: it removed some expired
    instances and counted them. *)
Definition cycle_result (cutoff : time) (total : Z) (w : world)
  (res : option (result EnvError Z)) (w' : world) : Prop :=
  ∃ gone n,
    res = Some (Ok (total + n)) ∧ deleted gone w w' ∧
    (∀ i, i ∈ gone ↔ expired cutoff i (w_db w)) ∧
    n = Z.of_nat (size (instances (w_db w))) - Z.of_nat (size (instances (w_db w'))) ∧
    w_now w ≤ w_now w'.

(** ** Sweeping *)

Lemma filter_not_nil {A} (m : gmap string A) :
  filter (λ ka : string * A, ka.1 ∉ []) m = m.
Proof. apply map_filter_id. intros k x _. apply not_elem_of_nil. Qed.

Lemma list_filter_true {A} (P : A → Prop) `{∀ x, Decision (P x)} (l : list A) :
  (∀ x, P x) → filter P l = l.
Proof. intros HP. induction l as [|x l IH]; [done|]. by rewrite filter_cons_True, IH. Qed.

Lemma map_filter_not_app {K} `{Countable K} {A} (f : K → string) (a b : list string)
  (m : gmap K A) :
  filter (λ ka : K * A, f ka.1 ∉ b) (filter (λ ka : K * A, f ka.1 ∉ a) m) =
  filter (λ ka : K * A, f ka.1 ∉ a ++ b) m.
Proof.
  rewrite map_filter_filter. apply map_filter_ext. intros k x _. simpl.
  rewrite not_elem_of_app. tauto.
Qed.

Lemma delete_cascade_app a b db :
  delete_cascade b (delete_cascade a db) = delete_cascade (a ++ b) db.
Proof.
  unfold delete_cascade. simpl. f_equal.
  - apply (map_filter_not_app id).
  - apply (map_filter_not_app fst).
  - rewrite list_filter_filter. apply list_filter_iff. intros e. rewrite not_elem_of_app. tauto.
  - apply (map_filter_not_app id).
  - apply (map_filter_not_app fst).
Qed.

Lemma delete_environment_rows_app a b edb :
  (delete_environment_rows b (delete_environment_rows a edb).2).2 =
  (delete_environment_rows (a ++ b) edb).2.
Proof. unfold delete_environment_rows. simpl. f_equal; apply (map_filter_not_app id). Qed.

Lemma deleted_trans a b w1 w2 w3 : deleted a w1 w2 → deleted b w2 w3 → deleted (a ++ b) w1 w3.
Proof.
  intros [H1 H2] [H3 H4]. unfold deleted.
  by rewrite H3, H1, H4, H2, delete_cascade_app, delete_environment_rows_app.
Qed.

Lemma delete_cascade_lookup ids i db :
  instances (delete_cascade ids db) !! i =
  if decide (i ∈ ids) then None else instances db !! i.
Proof.
  simpl. case_decide as Hi.
  - apply map_lookup_filter_None. right. intros r _ H. by apply H.
  - destruct (instances db !! i) as [r|] eqn:Hr.
    + apply map_lookup_filter_Some. by split.
    + apply map_lookup_filter_None. by left.
Qed.

Lemma expired_sweep cutoff ids i db :
  expired cutoff i (delete_cascade ids db) ↔ expired cutoff i db ∧ i ∉ ids.
Proof.
  unfold expired. rewrite delete_cascade_lookup. case_decide as Hi.
  - split; [by intros (r & ? & _)|by intros [_ Hn]].
  - split; [intros Hr; by split|by intros [Hr _]].
Qed.

(** Deleting a non-empty list of existing instances shrinks the table. *)
Lemma delete_cascade_smaller ids i db :
  i ∈ ids → is_Some (instances db !! i) →
  (size (instances (delete_cascade ids db)) < size (instances db))%nat.
Proof.
  intros Hi [r Hr]. apply map_subset_size. apply map_subset_alt. split.
  - apply map_filter_subseteq.
  - exists i. split; [|by exists r]. by rewrite delete_cascade_lookup, decide_True.
Qed.

(** ** The batch *)

Lemma expired_batch_sound cutoff limit db i :
  i ∈ expired_batch cutoff limit db → expired cutoff i db.
Proof.
  intros ([j r] & -> & Hin%elem_of_sql_limit)%list_elem_of_fmap.
  apply elem_of_order_by, list_elem_of_filter in Hin as [Hold%finished_before_exact Hin].
  apply elem_of_map_to_list in Hin. by exists r.
Qed.

(** A batch shorter than the limit holds every expired instance. *)
Lemma expired_batch_complete cutoff limit db i :
  Z.of_nat (length (expired_batch cutoff limit db)) < limit →
  expired cutoff i db → i ∈ expired_batch cutoff limit db.
Proof.
  unfold expired_batch, sql_limit. rewrite length_fmap. intros Hlen (r & Hr & Hold).
  apply list_elem_of_fmap. exists (i, r). split; [done|].
  rewrite take_ge by (rewrite length_take in Hlen; lia).
  apply elem_of_order_by, list_elem_of_filter. split; [by apply finished_before_exact|].
  by apply elem_of_map_to_list.
Qed.

(** ** The loop *)

Lemma deleted_nil w w' : w_db w' = w_db w → w_env w' = w_env w → deleted [] w w'.
Proof.
  intros Hd He. unfold deleted, delete_cascade, delete_environment_rows. rewrite Hd, He.
  destruct (w_db w), (w_env w). simpl. split; f_equal;
    try (symmetry; apply filter_not_nil);
    try (symmetry; apply map_filter_id; intros; apply not_elem_of_nil).
  symmetry. apply list_filter_true. intros. apply not_elem_of_nil.
Qed.

Lemma cycle_step cutoff total w ids w1 res w2 :
  deleted ids w w1 → (∀ i, i ∈ ids → expired cutoff i (w_db w)) → w_now w ≤ w_now w1 →
  cycle_result cutoff
    (total + (Z.of_nat (size (instances (w_db w))) - Z.of_nat (size (instances (w_db w1)))))
    w1 res w2 →
  cycle_result cutoff total w res w2.
Proof.
  intros Hsw Hids Hclock (gone & n & Hres & Hsw2 & Hgone & Hn & Hclock2).
  exists (ids ++ gone), (Z.of_nat (size (instances (w_db w)))
    - Z.of_nat (size (instances (w_db w2)))).
  split; [rewrite Hres; do 2 f_equal; lia|]. split; [by eapply deleted_trans|].
  split; [|split; [done|lia]]. intros i. rewrite elem_of_app, Hgone.
  destruct Hsw as [-> _]. rewrite expired_sweep.
  split; [intros [H|[H _]]; auto|]. intros H.
  destruct (decide (i ∈ ids)); [by left|right; by split].
Qed.

Lemma cleanup_loop_cycle fuel config cutoff total w :
  1 ≤ dc_batch_size config ≤ i64_max → (size (instances (w_db w)) < fuel)%nat →
  wp calm (cleanup_loop fuel config cutoff total) (cycle_result cutoff total w) w.
Proof.
  intros Hb. revert total w. induction fuel as [|fuel IH]; intros total w Hfuel; [lia|].
  cbn [cleanup_loop]. unfold core_call, cleanup_environment_tables, db_call. simpl.
  step_calm. unfold op_get_terminal_instances_older_than.
  destruct (Z.ltb_spec (dc_batch_size config) 0) as [|_]; [lia|].
  fold (expired_batch cutoff (dc_batch_size config) (w_db w)).
  set (ids := expired_batch cutoff (dc_batch_size config) (w_db w)).
  assert (Hsound : ∀ i, i ∈ ids → expired cutoff i (w_db w))
    by (intros i; apply expired_batch_sound).
  destruct ids as [|id ids'] eqn:Eids.
  { apply wp_ret. exists [], 0. split; [do 2 f_equal; lia|]. split; [by apply deleted_nil|].
    split; [|simpl; lia]. intros i. split; [by intros ?%not_elem_of_nil|]. intros Hex.
    apply (expired_batch_complete _ (dc_batch_size config)) in Hex;
      unfold ids in Eids; rewrite Eids in *; [done|simpl; lia]. }
  set (batch := id :: ids') in *.
  step_calm. step_calm. fold batch.
  match goal with |- wp _ _ _ ?W => set (w1 := W) end.
  assert (Hsw : deleted batch w w1) by by split.
  assert (Hclock : w_now w ≤ w_now w1) by (simpl in *; lia).
  change (S (length ids')) with (length batch).
  destruct (Z.ltb_spec (Z.of_nat (length batch)) (dc_batch_size config mod 2 ^ 64)) as [Hlt|Hge].
  - apply wp_ret. eapply (cycle_step _ _ _ batch w1); [done|done|done|].
    exists [], 0. rewrite Z.add_0_r. split; [done|]. split; [by apply deleted_nil|].
    split; [|simpl; lia]. intros i. split; [by intros ?%not_elem_of_nil|].
    destruct Hsw as [-> _]. intros [Hex Hin]%expired_sweep. exfalso. apply Hin.
    rewrite Z.mod_small in Hlt by (unfold i64_max in *; lia).
    apply (expired_batch_complete _ (dc_batch_size config)) in Hex; unfold ids in Eids;
      rewrite Eids in *; done.
  - eapply wp_mono; [|apply IH].
    + intros res w2 H2. by eapply (cycle_step _ _ _ batch w1).
    + destruct (Hsound id ltac:(left)) as (r & Hr & _).
      pose proof (delete_cascade_smaller batch id (w_db w) ltac:(left) ltac:(eauto)).
      simpl in *. lia.
Qed.

Lemma cleanup_old_wp fuel config w :
  1 ≤ dc_batch_size config ≤ i64_max → 0 ≤ dc_max_age config ≤ 9223372036854775 →
  (size (instances (w_db w)) < fuel)%nat →
  wp calm (cleanup_old_instances fuel config) (λ res w',
    ∃ t gone,
      w_now w ≤ t ≤ w_now w' ∧ deleted gone w w' ∧
      (∀ i, i ∈ gone ↔ expired (t - dc_max_age config * 1000000) i (w_db w)) ∧
      res = Some (Ok (Z.of_nat (size (instances (w_db w)))
                      - Z.of_nat (size (instances (w_db w')))))) w.
Proof.
  intros Hb Ha Hf. unfold cleanup_old_instances. cbn [bind trigger].
  apply wp_utcnow_calm. intros t Ht. unfold duration_from_std.
  destruct (Z.leb_spec (dc_max_age config) 9223372036854775) as [_|]; [|lia].
  eapply wp_mono; [|by apply cleanup_loop_cycle].
  intros res w' (gone & n & Hres & Hsw & Hg & Hn & Hclock). exists t, gone.
  split; [simpl in Hclock; lia|]. split; [done|]. split; [done|]. rewrite Hres, Hn. done.
Qed.

(** ** Theorems *)

(** C8: Retention is exact and ends.  With a positive batch size and more fuel
    than there are instances, a cleanup cycle whose calls go through returns
    normally; the instances it removes are exactly those that were terminal and
    had finished more than the configured age before its start, whatever the
    batch size; they go with their checkpoints, events, signals, registry,
    status, cancellation, heartbeat and image rows, every other row of these tables and
    every image stays as it was, and the count it reports is the number of instances
    removed. *)
Theorem retention_sweeps_expired fuel config ts w :
  1 ≤ dc_batch_size config ≤ i64_max → 0 ≤ dc_max_age config ≤ 9223372036854775 →
  (size (instances (w_db w)) < fuel)%nat → (∀ n, calm (ts n)) →
  let final := run (cleanup_old_instances fuel config) ts w in
  ∃ t gone,
    w_now w ≤ t ≤ w_now final.2 ∧ swept gone w final.2 ∧
    (∀ i, i ∈ gone ↔ expired (t - dc_max_age config * 1000000) i (w_db w)) ∧
    final.1 = Some (Ok (Z.of_nat (size (instances (w_db w)))
                        - Z.of_nat (size (instances (w_db final.2))))).
Proof.
  intros Hb Ha Hf Hts final.
  destruct (wp_run _ _ _ _ (cleanup_old_wp fuel config w Hb Ha Hf) ts Hts)
    as (t & gone & Ht & Hsw%deleted_swept & Hrest). by exists t, gone.
Qed.

(** Three instances, a batch size of one: two full batches and an empty one. *)
Lemma retention_sweeps_expired_witness :
  let old := {| (row_with "failed") with i_finished_at := Some 30 |} in
  let db := {| empty_db with
    instances := {["a" := old; "b" := row_with "running"; "c" := old]} |} in
  let config := {| dc_enabled := true; dc_max_age := 0; dc_batch_size := 1 |} in
  let final := run (cleanup_old_instances 4 config) calm_ticks (world_of db) in
  final.1 = Some (Ok 2) ∧
  ∃ t gone, swept gone (world_of db) final.2 ∧ (∀ i, i ∈ gone ↔ expired t i db).
Proof.
  intros old db config final. split; [vm_compute; reflexivity|].
  destruct (retention_sweeps_expired 4 config calm_ticks (world_of db))
    as (t & gone & _ & Hsw & Hg & _);
    [vm_compute; split; discriminate|vm_compute; split; discriminate|vm_compute; lia
    |apply calm_ticks_calm|].
  eexists _, gone. split; [exact Hsw|exact Hg].
Defined.
