(* ===== verification/WakeExclusion.v ===== *)
(** * A due instance is launched at most once

    The wake scheduler claims an instance before it launches it.  A claim is a
    right in the sense of Protocols.v: won from a claimable row, spent by a
    successful launch, returned to the row when a failed launch stamps it again. *)

From S2P Require Import Prelude.
From S2P Require Import CoreTypes.
From S2P Require Import Json.
From S2P Require Import Persistence.
From S2P Require Import EnvTables.
From S2P Require Import Effects.
From S2P Require Import Protocols.
From S2P Require Import InstanceHandlers.
From S2P Require Import DbInvariants.
From S2P Require Import Scenarios.
From S2P Require Import CoreProperties.
From S2P Require Import Recovery.
From S2P Require Import EnvHandlers.
From S2P Require Import EnvWorkers.

(** ** Claims as rights *)

(** 1 when a waker could claim [i] now. *)
Definition claimable_now (i : string) (db : Db) : nat :=
  match instances db !! i with
  | Some r => if claimable r then 1%nat else 0%nat
  | None => 0%nat
  end.

(** The right after an answered operation. *)
Definition token_after_op (i : string) {A} (o : pop A) : result CoreError A → bool → bool :=
  match o in pop A return result CoreError A → bool → bool with
  | ClaimSleepingInstance j => λ r b, b || (bool_decide (j = i) && bool_decide (r = Ok true))
  | SetInstanceSleep j _ => λ _ b, if decide (j = i) then false else b
  | _ => λ _ b, b
  end.

(** Operations a program may perform with or without the right. *)
Definition token_ok_op (i : string) {A} (o : pop A) (b : bool) : Prop :=
  match o with
  | SetInstanceSleep j _ => j = i → b = true
  | UpdateInstanceStatus j _ _ => j ≠ i
  | CompleteInstance p => cip_instance_id p ≠ i
  | MarkForRecovery j _ _ => j ≠ i
  | _ => True
  end.

(** A world in which ["i"] is due and its image exists. *)
Definition due_world : world :=
  {| (world_of (db_with {| (row_with "suspended") with i_sleep_until := Some 40 |})) with
     w_env := {| empty_env with
       images := {["img" := {| img_image_id := "img"; img_tenant_id := "acme"; img_name := "n";
                               img_description := None; img_binary_path := "/bin/wf";
                               img_bundle_path := None; img_runner_type := Wasm;
                               img_created_at := 1; img_updated_at := 1;
                               img_metadata := None |}]};
       instance_images := {["i" := {| ii_image_id := "img"; ii_tenant_id := "acme";
                                      ii_env := None; ii_timeout_seconds := None;
                                      ii_created_at := 1 |}]} |} |}.

(** Two schedulers scan the same due instance before either claims it. *)
Definition racing_schedule : list (nat * tick) :=
  (λ n, (Nat.modulo n 2, quiet)) <$> seq 0 40.

(** ** Lemmas *)

Lemma claimable_now_update i j f db :
  (∀ r, i = j → claimable (f r) = true → claimable r = true) →
  (claimable_now i (update_instance j f db).2 ≤ claimable_now i db)%nat.
Proof.
  intros Hf. rewrite update_instance_db. unfold claimable_now. simpl.
  destruct (decide (i = j)) as [<-|Hne].
  - rewrite lookup_alter_eq. destruct (instances db !! i) as [r|]; simpl; [|done].
    specialize (Hf r eq_refl).
    destruct (claimable (f r)), (claimable r); simpl; lia.
  - by rewrite lookup_alter_ne.
Qed.

(** Stamping a row makes it claimable at most once. *)
Lemma claimable_now_le i db : (claimable_now i db ≤ 1)%nat.
Proof. unfold claimable_now. destruct (instances db !! i) as [r|]; [destruct (claimable r)|]; lia. Qed.

Lemma claimable_now_same i db db' :
  instances db' = instances db → claimable_now i db' = claimable_now i db.
Proof. unfold claimable_now. by intros ->. Qed.

Lemma claimable_sleep_None r : claimable {| r with i_sleep_until := None |} = false.
Proof. reflexivity. Qed.

(** Operations other than the claim never give without taking. *)
Lemma op_tokens i c {A} (o : pop A) db b :
  token_ok_op i o b →
  (claimable_now i (exec_pop c o db).2 + Nat.b2n (token_after_op i o (exec_pop c o db).1 b)
   ≤ claimable_now i db + Nat.b2n b)%nat.
Proof.
  intros Hok.
  assert (Hsame : ∀ db', instances db' = instances db →
            (claimable_now i db' + Nat.b2n b ≤ claimable_now i db + Nat.b2n b)%nat).
  { intros db' E. by rewrite (claimable_now_same i db db'). }
  assert (Hupd : ∀ j f, (∀ r, i = j → claimable (f r) = true → claimable r = true) →
            (claimable_now i (update_instance j f db).2 + Nat.b2n b
             ≤ claimable_now i db + Nat.b2n b)%nat).
  { intros j f Hf. pose proof (claimable_now_update i j f db Hf). lia. }
  destruct o; simpl in *; try done; unfold_ops;
    try (by apply Hupd);
    try (repeat (case_goal; simplify_eq/=; try done); by apply Hsame).
  - repeat (case_goal; simplify_eq/=; try done). unfold claimable_now. simpl.
    destruct (decide (i = instance_id)) as [->|Hne].
    + by rewrite lookup_insert_eq, Heqo.
    + by rewrite lookup_insert_ne by done.
  - repeat (case_goal; simplify_eq/=; try done);
      match goal with H : update_instance ?j ?f db = _ |- _ =>
        pose proof (Hupd j f ltac:(intros r ->; done)) as Hk; by rewrite H in Hk end.
  - match goal with |- context [update_instance ?j ?f db] =>
      pose proof (Hupd j f ltac:(done)) as Hk; by destruct (update_instance j f db) end.
  - repeat (case_goal; simplify_eq/=; try done). apply Hupd. intros r' ->. done.
  - pose proof (claimable_now_le i (update_instance instance_id
      (λ r, {| r with i_sleep_until := Some sleep_until |}) db).2) as Hle.
    destruct (decide (instance_id = i)) as [->|Hne].
    + rewrite Hok by done. destruct (update_instance _ _ _). simpl in *. lia.
    + pose proof (Hupd instance_id (λ r, {| r with i_sleep_until := Some sleep_until |})
        ltac:(intros r ->; done)) as Hk. by destruct (update_instance _ _ _).
  - pose proof (Hupd instance_id (λ r, {| r with i_sleep_until := None |})
      ltac:(intros r _ Hc; discriminate Hc)) as Hk.
    by destruct (update_instance _ _ _).
  - destruct (instances db !! instance_id) as [r|] eqn:Hr; simpl;
      [|rewrite andb_false_r, orb_false_r; done].
    destruct (claimable r) eqn:Hc; simpl;
      [|rewrite andb_false_r, orb_false_r; done].
    unfold update_instance. rewrite Hr. simpl.
    destruct (decide (instance_id = i)) as [->|Hne].
    + unfold claimable_now. simpl. rewrite lookup_insert_eq, claimable_sleep_None, Hr, Hc.
      rewrite !bool_decide_true by done. rewrite orb_true_r. simpl. destruct b; simpl; lia.
    + rewrite (bool_decide_false (instance_id = i)) by done. simpl. rewrite orb_false_r.
      unfold claimable_now. simpl. by rewrite lookup_insert_ne.
  - destruct instance_ids as [|j ids]; [done|]. simpl. unfold claimable_now. simpl.
    destruct (filter _ (instances db) !! i) as [r|] eqn:Hf; [|lia].
    apply map_lookup_filter_Some in Hf as [-> _]. done.
Qed.

(** A failed call gives no right. *)
Lemma token_after_failure i m {A} (o : pop A) r b :
  (Nat.b2n (token_after_op i o (pop_failure m o) b) ≤ Nat.b2n b)%nat ∧
  (Nat.b2n (token_after_op i o (pop_failure m o) b) ≤ Nat.b2n (token_after_op i o r b))%nat.
Proof.
  destruct o; simpl; try done.
  - case_decide; [simpl; lia|done].
  - rewrite andb_false_r, orb_false_r. destruct b; simpl; lia.
Qed.

(** The claim obeys the token law. *)
Definition wake_law (i : string) : TokenLaw :=
  {| tl_instance := i; avail := claimable_now i; after_op := @token_after_op i;
     ok_op := @token_ok_op i; op_law := @op_tokens i; failure_law := @token_after_failure i |}.

Section wakers.
Context (i : string).
#[local] Abbreviation tokens := (Protocols.tokens (H := wake_law i)).

Lemma wake_claimed_tokens options image :
  lo_instance_id options = i →
  tokens (wake_claimed options image) (λ b _, b = false) true.
Proof.
  intros Hi. unfold wake_claimed. simpl. split; [done|]. intros [h|e].
  - rewrite decide_True by done. by repeat (split; [done|]; intros ?).
  - split; [done|]. intros t. split; [done|]. intros r. simpl. by rewrite decide_True.
Qed.

Lemma wake_claimed_tokens_other options image :
  lo_instance_id options ≠ i →
  tokens (wake_claimed options image) (λ b _, b = false) false.
Proof.
  intros Hi. unfold wake_claimed. simpl. split; [naive_solver|]. intros [h|e].
  - rewrite decide_False by done. by repeat (split; [done|]; intros ?).
  - split; [done|]. intros t. split; [naive_solver|]. intros r. simpl. by rewrite decide_False.
Qed.

#[local] Arguments wake_claimed : simpl never.

Lemma wake_instance_tokens `{EnvVars} config inst :
  tokens (wake_instance config inst) (λ b _, b = false) false.
Proof.
  unfold wake_instance, db_call, bind_ok. simpl. split; [done|].
  intros [[[image_id stored_env]|]|]; simpl; try done.
  split; [done|]. intros [[image|]|]; simpl; try done.
  split; [done|]. intros persisted. split; [done|]. intros claimed.
  destruct (decide (ir_instance_id inst = i)) as [Hi|Hi];
    [rewrite (bool_decide_true (ir_instance_id inst = i)) by done
    |rewrite (bool_decide_false (ir_instance_id inst = i)) by done];
    destruct claimed as [[]|]; try done.
  - by apply wake_claimed_tokens.
  - by apply wake_claimed_tokens_other.
Qed.

Lemma wake_all_tokens `{EnvVars} config l :
  tokens (wake_all config l) (λ b _, b = false) false.
Proof.
  induction l as [|inst l IH]; [done|]. cbn [wake_all]. apply tokens_bind.
  eapply tokens_mono; [|apply wake_instance_tokens]. by intros b' a ->.
Qed.

Lemma process_pending_wakes_tokens `{EnvVars} config :
  tokens (task (process_pending_wakes config)) (λ _ _, True) false.
Proof.
  unfold task. apply tokens_bind.
  apply (tokens_mono _ (λ b _, b = false)); [done|].
  unfold process_pending_wakes. simpl. split; [done|]. intros []; [done|].
  simpl. split; [done|]. intros [l|e]; [|done]. apply tokens_bind.
  eapply tokens_mono; [|apply wake_all_tokens]. by intros b' a ->.
Qed.

Lemma wakers_tokens `{EnvVars} configs :
  Forall2 (λ b p, tokens p (λ _ _, True) b) (replicate (length configs) false)
    ((λ config, task (process_pending_wakes config)) <$> configs).
Proof. induction configs; simpl; constructor; [apply process_pending_wakes_tokens|done]. Qed.

End wakers.

(** ** Theorem *)

(** C5: Exclusive wake.  However many wake schedulers (of one or several
    environments that share the database) poll at the same time, in whatever
    order their statements and launches interleave and whichever of them fail,
    they launch an instance at most once in total if it was due when they
    started, and not at all if it was not claimable. *)
Theorem wakers_launch_at_most_once `{EnvVars} i (configs : list WakeSchedulerConfig) w l' w' :
  rtc pool_step ((λ config, task (process_pending_wakes config)) <$> configs, w) (l', w') →
  (launches i w' ≤ launches i w + claimable_now i (w_db w))%nat.
Proof.
  intros Hpool.
  destruct (pool_tokens (H := wake_law i) _ _ _ Hpool (wakers_tokens i configs))
    as (bs' & _ & Hb).
  rewrite held_none in Hb. unfold budget in Hb. simpl in Hb. lia.
Qed.

Lemma wakers_launch_at_most_once_witness :
  let config := {| wc_batch_size := 10; wc_core_addr := "core" |} in
  let final := run_schedule racing_schedule
    ([task (process_pending_wakes config); task (process_pending_wakes config)], due_world) in
  launches "i" final.2 = 1%nat ∧ (launches "i" final.2 ≤ 0 + 1)%nat.
Proof.
  intros config final. split; [vm_compute; reflexivity|].
  apply (wakers_launch_at_most_once "i" [config; config] due_world final.1 final.2).
  assert (E : final = (final.1, final.2)) by (by destruct final). rewrite <-E.
  apply run_schedule_reachable.
Defined.
