(* ===== verification/StartProperties.v ===== *)
(** * Starting an instance

    [handlers.rs], [handle_start_instance]: a reservation wins the right to
    launch, so an instance is started at most once; an image is only launched
    for the tenant it belongs to. *)

From S2P Require Import Prelude.
From S2P Require Import CoreTypes.
From S2P Require Import Json.
From S2P Require Import Persistence.
From S2P Require Import EnvTables.
From S2P Require Import Effects.
From S2P Require Import Protocols.
From S2P Require Import InstanceHandlers.
From S2P Require Import DbInvariants.
From S2P Require Import Scenarios.
From S2P Require Import CoreProperties.
From S2P Require Import Recovery.
From S2P Require Import EnvHandlers.
From S2P Require Import WakeExclusion.
Open Scope runtara_scope.

(** ** Reservations as rights *)

(** 1 when the id is still free. *)
Definition unreserved (i : string) (db : Db) : nat :=
  match instances db !! i with Some _ => 0%nat | None => 1%nat end.

(** A successful reservation gives the right. *)
Definition reserve_after_op (i : string) {A} (o : pop A) : result CoreError A → bool → bool :=
  match o in pop A return result CoreError A → bool → bool with
  | RegisterInstance j _ => λ r b, b || (bool_decide (j = i) && is_ok r)
  | _ => λ _ b, b
  end.

(** Only a deletion frees the id again. *)
Definition reserve_ok_op (i : string) {A} (o : pop A) (b : bool) : Prop :=
  match o with DeleteInstancesBatch ids => i ∉ ids | _ => True end.

(** An effect that neither launches [i] nor deletes it. *)
Definition launch_free (i : string) (X : Type) (e : eff X) : Prop :=
  match e with
  | LaunchDetached o => lo_instance_id o ≠ i
  | Pers o => reserve_ok_op i o false
  | _ => True
  end.

(** A start request beside tasks that do not launch [i]. *)
Inductive starter `{Ext, EnvVars} (i : string) : prog unit → Prop :=
| starter_start st req : starter i (task (handle_start_instance st req))
| starter_other p : all_effs (launch_free i) p → starter i p.

(** The launches a start request may make: its own tenant's image. *)
Definition own_launch (request : StartInstanceRequest) (edb : EnvDb) (o : LaunchOptions) : Prop :=
  ∃ image, images edb !! si_image_id request = Some image ∧
    img_tenant_id image = si_tenant_id request ∧
    lo_bundle_path o = img_binary_path image ∧ lo_tenant_id o = si_tenant_id request.

Definition launches_only (P : LaunchOptions → Prop) (X : Type) (e : eff X) : Prop :=
  match e with LaunchDetached o => P o | _ => True end.

(** The log grew, and every new launch satisfies [P]. *)
Definition log_grows (P : LaunchOptions → Prop) (w w' : world) : Prop :=
  ∃ new, w_log w' = w_log w ++ new ∧
    Forall (λ a, match a with Launched o _ => P o | _ => True end) new.

(** A request for ["i"], and a world with its image. *)
Definition demo_start : StartInstanceRequest :=
  {| si_image_id := "img"; si_tenant_id := "acme"; si_instance_id := Some "i";
     si_input := None; si_timeout_seconds := None; si_env := ∅ |}.

Definition image_world : world :=
  {| (world_of empty_db) with w_env := {| (w_env due_world) with instance_images := ∅ |} |}.

Definition demo_state : EnvironmentHandlerState := {| core_addr := "core" |}.

(** ** The reservation *)

Lemma unreserved_update i j f db :
  unreserved i (update_instance j f db).2 = unreserved i db.
Proof.
  rewrite update_instance_db. unfold unreserved. simpl.
  destruct (decide (i = j)) as [<-|Hne].
  - rewrite lookup_alter_eq. by destruct (instances db !! i).
  - by rewrite lookup_alter_ne.
Qed.

Lemma unreserved_same i db db' : instances db' = instances db → unreserved i db' = unreserved i db.
Proof. unfold unreserved. by intros ->. Qed.

Lemma reserve_tokens i c {A} (o : pop A) db b :
  reserve_ok_op i o b →
  (unreserved i (exec_pop c o db).2 + Nat.b2n (reserve_after_op i o (exec_pop c o db).1 b)
   ≤ unreserved i db + Nat.b2n b)%nat.
Proof.
  intros Hok.
  assert (Hupd : ∀ j f n db', update_instance j f db = (n, db') →
    (unreserved i db' + Nat.b2n b ≤ unreserved i db + Nat.b2n b)%nat).
  { intros j f n db' E. pose proof (unreserved_update i j f db) as H.
    rewrite E in H. simpl in H. lia. }
  assert (Hsame : ∀ db', instances db' = instances db →
    (unreserved i db' + Nat.b2n b ≤ unreserved i db + Nat.b2n b)%nat).
  { intros db' E. by rewrite (unreserved_same i db db'). }
  destruct o; simpl in *; try done; unfold_ops;
    try (by rewrite unreserved_update);
    try (by (repeat (case_goal; simplify_eq/=; try done); eauto; by rewrite unreserved_update)).
  - case_decide; simpl; [rewrite andb_false_r, orb_false_r; done|].
    destruct (instances db !! instance_id) as [r|] eqn:Hr; simpl;
      [rewrite andb_false_r, orb_false_r; done|].
    destruct (decide (instance_id = i)) as [->|Hne].
    + rewrite bool_decide_true by done. rewrite orb_true_r. unfold unreserved at 1. simpl.
      rewrite lookup_insert_eq. unfold unreserved. rewrite Hr. simpl. lia.
    + rewrite bool_decide_false by done. rewrite orb_false_r. unfold unreserved. simpl.
      by rewrite lookup_insert_ne.
  - destruct instance_ids as [|j ids]; [done|]. simpl. unfold unreserved. simpl.
    destruct (instances db !! i) as [r|] eqn:Hr; [|by destruct (filter _ _ !! i); lia].
    rewrite (proj2 (map_lookup_filter_Some _ _ i r)); [done|]. by split.
Qed.

Lemma reserve_failure i m {A} (o : pop A) r b :
  (Nat.b2n (reserve_after_op i o (pop_failure m o) b) ≤ Nat.b2n b)%nat ∧
  (Nat.b2n (reserve_after_op i o (pop_failure m o) b) ≤ Nat.b2n (reserve_after_op i o r b))%nat.
Proof.
  destruct o; simpl; try done. rewrite andb_false_r, orb_false_r. destruct b; simpl; lia.
Qed.

(** The reservation obeys the token law. *)
Definition start_law (i : string) : TokenLaw :=
  {| tl_instance := i; avail := unreserved i; after_op := @reserve_after_op i;
     ok_op := @reserve_ok_op i; op_law := @reserve_tokens i;
     failure_law := @reserve_failure i |}.

Section start.
Context `{Ext, EnvVars} (i : string).
#[local] Abbreviation tokens := (Protocols.tokens (H := start_law i)).

(** A part that does not launch [i] may come first. *)
Lemma tokens_prefix {A B} (p : prog A) (f : A → prog B) :
  all_effs (launch_free i) p → (∀ a b, tokens (f a) (λ _ _, True) b) →
  ∀ b, tokens (bind p f) (λ _ _, True) b.
Proof.
  intros Hp Hf. induction p as [a|X e k IH]; intros b; [apply Hf|].
  destruct Hp as [He Hk]. split; [|intros x; by apply IH].
  destruct e; try done. by intros Hi.
Qed.

Lemma launch_free_tokens {A} (p : prog A) b :
  all_effs (launch_free i) p → tokens p (λ _ _, True) b.
Proof.
  intros Hp. pose proof (tokens_prefix p Ret Hp ltac:(done) b) as Ht.
  clear Hp. revert b Ht. induction p as [a|X e k IH]; intros b; [done|].
  intros [He Hk]. split; [done|]. intros x. apply IH, Hk.
Qed.

Lemma start_launched_free request image id timeout h :
  all_effs (launch_free i) (start_launched request image id timeout h).
Proof. unfold start_launched. solve_effs; done. Qed.

Lemma existing_free j t im : all_effs (launch_free i) (existing_start_response j t im).
Proof. unfold existing_start_response, db_call, core_call. solve_effs; done. Qed.

Lemma start_reserved_tokens st request image id stored b :
  (id = i → b = true) →
  tokens (start_reserved st request image id stored) (λ _ _, True) b.
Proof.
  intros Hb. destruct (decide (id = i)) as [Hi|Hi].
  - rewrite Hb by done. unfold start_reserved. destruct (json_to_vec stored); cbn [bind];
      repeat (split; [done|]; intros ?); cbn [bind].
    all: match goal with |- context [match ?x with Ok _ => _ | Err _ => _ end] => destruct x end;
      [|done]; split; [done|]; intros [h|e]; [|by repeat (split; [done|]; intros ?)].
    all: apply launch_free_tokens, start_launched_free.
  - apply launch_free_tokens. unfold start_reserved. solve_effs; done.
Qed.

Lemma start_image_tokens st request image b :
  tokens (start_image st request image) (λ _ _, True) b.
Proof.
  unfold start_image. revert b. apply tokens_prefix; [solve_effs; done|].
  intros id b. unfold bind_ok. revert b. apply tokens_prefix; [apply existing_free|].
  intros [[response|]|e] b; [done| |done]. revert b.
  apply tokens_prefix; [solve_effs; done|]. intros [] b; simpl negb; cbn iota; [|done].
  destruct (enrich_input_for_storage _ _) as [stored|]; [|done].
  split; [done|]. intros [u|e]; cbn [bind].
  - apply start_reserved_tokens. intros ->. simpl. by rewrite bool_decide_true, orb_true_r.
  - apply tokens_prefix; [apply existing_free|]. by intros [[]|].
Qed.

Lemma start_tokens st request b :
  tokens (task (handle_start_instance st request)) (λ _ _, True) b.
Proof.
  unfold task. apply tokens_bind. apply (tokens_mono _ (λ _ _, True)); [done|].
  unfold handle_start_instance. case_decide; [done|]. revert b.
  apply tokens_prefix; [unfold db_call; solve_effs; done|].
  intros [[image|]|e] b; [|done|done]. case_goal; [done|]. apply start_image_tokens.
Qed.

Lemma starters_tokens l :
  Forall (starter i) l →
  Forall2 (λ b p, tokens p (λ _ _, True) b) (replicate (length l) false) l.
Proof.
  induction 1 as [|p l [st req|p' Hp] Hl IH]; simpl; constructor; try done;
    [apply start_tokens|by apply launch_free_tokens].
Qed.
End start.

(** ** Tenants *)

#[export] Instance log_grows_preorder P : PreOrder (log_grows P).
Proof.
  split.
  - intros w. exists []. by rewrite app_nil_r.
  - intros w1 w2 w3 (n1 & E1 & H1) (n2 & E2 & H2). exists (n1 ++ n2).
    rewrite E2, E1, (assoc_L (++)). split; [done|]. by apply Forall_app.
Qed.

Lemma launches_only_guarantees P X (e : eff X) :
  launches_only P X e → Guarantees (log_grows P) e.
Proof.
  intros He t w. unfold perform.
  destruct e; simpl; repeat case_goal; simplify_eq/=;
    try (by exists []; rewrite app_nil_r); by (eexists; split; [done|]; repeat constructor).
Qed.

Lemma start_image_launches `{Ext, EnvVars} st request image edb :
  images edb !! si_image_id request = Some image →
  img_tenant_id image = si_tenant_id request →
  all_effs (launches_only (own_launch request edb)) (start_image st request image).
Proof.
  intros Him Ht. unfold start_image, existing_start_response, start_reserved, start_launched,
    core_call, db_call. solve_effs; try done. by exists image.
Qed.

(** ** A start request for an existing instance *)

Lemma start_existing_wp `{Ext, EnvVars} st request image id r w :
  si_image_id request ≠ "" → si_instance_id request = Some id → id ≠ "" →
  images (w_env w) !! si_image_id request = Some image →
  img_tenant_id image = si_tenant_id request →
  instances (w_db w) !! id = Some r →
  wp calm (handle_start_instance st request) (λ res w',
    res = Ok (if decide (i_tenant_id r = si_tenant_id request ∧
                         ii_image_id <$> instance_images (w_env w) !! id
                           = Some (si_image_id request))
              then {| sresp_success := true; sresp_instance_id := id;
                      sresp_deduplicated := true; sresp_error := None |}
              else already_exists id) ∧
    w_db w' = w_db w ∧ w_env w' = w_env w ∧ w_log w' = w_log w) w.
Proof.
  intros Hne Hid Hid0 Him Ht Hr. unfold handle_start_instance.
  rewrite decide_False by done. unfold db_call. simpl. step_calm. rewrite Him.
  rewrite Ht, bool_decide_true by done. simpl. unfold start_image. rewrite Hid.
  rewrite decide_False by done. unfold existing_start_response, core_call, db_call, bind_ok.
  simpl. step_calm. rewrite Hr. simpl.
  destruct (decide (i_tenant_id r = si_tenant_id request)) as [Hten|Hten].
  2: { rewrite bool_decide_false by done. simpl. apply wp_ret. rewrite decide_False by tauto.
       done. }
  rewrite bool_decide_true by done. simpl. step_calm.
  destruct (instance_images (w_env w) !! id) as [row|]; simpl.
  2: { apply wp_ret. rewrite decide_False by (by intros [_ ?]). done. }
  destruct (decide (ii_image_id row = si_image_id request)) as [Himg|Himg].
  - rewrite bool_decide_true by done. simpl. apply wp_ret. rewrite decide_True by (split; congruence).
    done.
  - rewrite bool_decide_false by done. simpl. apply wp_ret.
    rewrite decide_False by (intros [_ ?]; congruence). done.
Qed.

(** ** Theorems *)

(** C7: Started at most once.  Any number of concurrent start requests, for the
    same or different ids, interleaved with any tasks that neither launch nor
    delete [i], launch [i] at most once in total if the id was free, and never
    if the instance existed, whichever database calls and launches fail. *)
Theorem starters_launch_at_most_once `{Ext, EnvVars} i l w l' w' :
  rtc pool_step (l, w) (l', w') → Forall (starter i) l →
  (launches i w' ≤ launches i w + unreserved i (w_db w))%nat.
Proof.
  intros Hpool Hall.
  destruct (pool_tokens (H := start_law i) _ _ _ Hpool (starters_tokens i l Hall))
    as (bs' & _ & Hb).
  rewrite held_none in Hb. unfold budget in Hb. simpl in Hb. lia.
Qed.

(** Two racing requests for the same id: one launches. *)
Lemma starters_launch_at_most_once_witness :
  let final := run_schedule racing_schedule
    ([task (handle_start_instance demo_state demo_start);
      task (handle_start_instance demo_state demo_start)], image_world) in
  launches "i" final.2 = 1%nat ∧ (launches "i" final.2 ≤ 0 + 1)%nat.
Proof.
  intros final. split; [vm_compute; reflexivity|].
  apply (starters_launch_at_most_once "i"
    [task (handle_start_instance demo_state demo_start);
     task (handle_start_instance demo_state demo_start)] image_world final.1 final.2);
    [|by repeat constructor].
  replace (final.1, final.2) with final by by destruct final.
  apply run_schedule_reachable.
Defined.

(** Tenant isolation of start.  Whatever a start request asks for and whatever
    fails, it launches nothing but the binary of an image that is registered
    under the requested id and belongs to the requesting tenant, on behalf of that
    tenant. *)
Lemma start_launches_own_image `{Ext, EnvVars} st request ts w :
  log_grows (own_launch request (w_env w)) w (run (handle_start_instance st request) ts w).2.
Proof.
  unfold handle_start_instance. case_decide; [reflexivity|]. unfold db_call.
  cbn [bind env trigger run]. unfold perform. simpl.
  assert (Hrefused : ∀ w', w_log w' = w_log w → log_grows (own_launch request (w_env w)) w w').
  { intros w' Hw. exists []. by rewrite app_nil_r. }
  destruct (t_fault (ts 0%nat)); simpl; [|by apply Hrefused|by apply Hrefused].
  destruct (images (w_env w) !! si_image_id request) as [image|] eqn:Him; simpl;
    [|by apply Hrefused].
  case_bool_decide as Ht; simpl; [|by apply Hrefused].
  match goal with |- log_grows _ _ (run _ ?ts' ?w1).2 => set (w1' := w1); set (ts1 := ts') end.
  etrans; [by apply (Hrefused w1')|]. apply run_guarantee; [apply _|].
  eapply all_effs_impl; [apply launches_only_guarantees|]. by apply start_image_launches.
Qed.

(** Start is idempotent.  A start request for an instance that already exists
    changes nothing and launches nothing: it answers success with the
    "deduplicated" mark exactly when the instance belongs to the same tenant and
    was started from the same image, and "already exists" otherwise, so that
    another tenant learns nothing else. *)
Lemma start_existing_deduplicates `{Ext, EnvVars} st request image id r ts w :
  si_image_id request ≠ "" → si_instance_id request = Some id → id ≠ "" →
  images (w_env w) !! si_image_id request = Some image →
  img_tenant_id image = si_tenant_id request →
  instances (w_db w) !! id = Some r → (∀ n, calm (ts n)) →
  let final := run (handle_start_instance st request) ts w in
  final.1 = Ok (if decide (i_tenant_id r = si_tenant_id request ∧
                           ii_image_id <$> instance_images (w_env w) !! id
                             = Some (si_image_id request))
                then {| sresp_success := true; sresp_instance_id := id;
                        sresp_deduplicated := true; sresp_error := None |}
                else already_exists id) ∧
  w_db final.2 = w_db w ∧ w_env final.2 = w_env w ∧ w_log final.2 = w_log w.
Proof.
  intros Hne Hid Hid0 Him Ht Hr Hts final.
  exact (wp_run _ _ _ _ (start_existing_wp st request image id r w Hne Hid Hid0 Him Ht Hr) ts Hts).
Qed.

Lemma start_existing_deduplicates_witness :
  (run (handle_start_instance demo_state demo_start) calm_ticks due_world).1 =
  Ok {| sresp_success := true; sresp_instance_id := "i"; sresp_deduplicated := true;
        sresp_error := None |}.
Proof.
  destruct (start_existing_deduplicates demo_state demo_start
    {| img_image_id := "img"; img_tenant_id := "acme"; img_name := "n";
       img_description := None; img_binary_path := "/bin/wf";
       img_bundle_path := None; img_runner_type := Wasm;
       img_created_at := 1; img_updated_at := 1; img_metadata := None |} "i"
    {| (row_with "suspended") with i_sleep_until := Some 40 |} calm_ticks due_world) as [H _];
    [done|reflexivity|done|reflexivity|reflexivity|reflexivity|apply calm_ticks_calm|].
  rewrite H. reflexivity.
Defined.
