(* ===== verification/Races.v ===== *)
(** * Races and unguarded writes

    What the handlers and workers do outside the guarded paths of
    EnvProperties.v: writes that ignore the current owner or status of an
    instance, and the schedules on which they lose an outcome, a registry entry
    or a wake.  Every schedule below is free of faults unless it says otherwise. *)

From S2P Require Import Prelude.
From S2P Require Import CoreTypes.
From S2P Require Import Json.
From S2P Require Import Persistence.
From S2P Require Import EnvTables.
From S2P Require Import Effects.
From S2P Require Import Protocols.
From S2P Require Import InstanceHandlers.
From S2P Require Import DbInvariants.
From S2P Require Import Scenarios.
From S2P Require Import CoreProperties.
From S2P Require Import Recovery.
From S2P Require Import EnvHandlers.
From S2P Require Import EnvWorkers.
From S2P Require Import EnvProperties.
From S2P Require Import WakeExclusion.
From S2P Require Import StartProperties.
Open Scope runtara_scope.

(** ** Scenarios *)

(** [n] steps of task [k]. *)
Definition steps (k n : nat) : list (nat * tick) := replicate n (k, quiet).

(** A terminal report of ["i"] with a one-byte output. *)
Definition completion : InstanceEvent :=
  {| ie_instance_id := "i"; ie_event_type := 2; ie_checkpoint_id := None;
     ie_payload := ["1"%byte]; ie_timestamp_ms := 7; ie_subtype := None |}.

(** A running instance without a registry entry, old enough to be an orphan. *)
Definition orphan_world : world := {| running_world with w_now := 1000000000 |}.

Definition heartbeat_config : HeartbeatMonitorConfig :=
  {| hc_heartbeat_timeout := 1 |}.

(** A failed instance with an image, finished long ago. *)
Definition failed_world : world :=
  {| due_world with
     w_db := db_with {| (row_with "failed") with i_finished_at := Some 30 |} |}.

(** The handle of a process that no longer is the registered one. *)
Definition old_handle : RunnerHandle :=
  {| rh_handle_id := "old"; rh_instance_id := "i"; rh_tenant_id := "acme";
     rh_started_at := 5; rh_spawned_pid := None |}.

(** A pause acknowledgement of ["i"]. *)
Definition pause_ack : SignalAck :=
  {| sa_instance_id := "i"; sa_signal_type := 1; sa_acknowledged := true |}.

(** Programs run one after the other on quiet ticks. *)
Fixpoint run_all (l : list (prog unit)) (w : world) : world :=
  match l with
  | [] => w
  | p :: rest => run_all rest (run p calm_ticks w).2
  end.

(** Being due, computed. *)
Lemma due_compute t i db :
  sleep_due t <$> instances db !! i = Some true ↔ due t i db.
Proof.
  unfold due. destruct (instances db !! i) as [r|]; simpl.
  - split; [intros [= H]; eauto|intros (r' & [= <-] & H); by rewrite H].
  - split; [done|by intros (r & ? & _)].
Qed.

(** ** Unguarded writes *)

Lemma stop_overwrites_wp request c r w :
  container_registry (w_env w) !! st_instance_id request = Some c →
  instances (w_db w) !! st_instance_id request = Some r →
  wp calm (handle_stop_instance request) (λ res w',
    res = Ok {| stresp_success := true; stresp_error := None |} ∧
    ∃ t, instances (w_db w') !! st_instance_id request =
      Some {| r with i_status := "cancelled"; i_output := None; i_error := None;
                     i_finished_at := Some t |}) w.
Proof.
  intros Hc Hr. unfold handle_stop_instance, db_call. simpl.
  step_calm. rewrite Hc. simpl. step_calm. apply wp_vis. intros t Ht.
  unfold perform. simpl. rewrite Ht. simpl. step_calm.
  unfold op_complete_instance_unified, complete_guard. simpl. rewrite Hr. simpl.
  rewrite (instances_update _ _ _ r) by done. simpl. step_calm. apply wp_ret.
  split; [done|]. eexists. simpl. by rewrite lookup_insert_eq.
Qed.

Lemma stale_exit_wp h c w :
  container_registry (w_env w) !! rh_instance_id h = Some c →
  ci_container_id c ≠ rh_handle_id h →
  wp calm (monitor_exit h) (λ _ w',
    container_registry (w_env w') !! rh_instance_id h = None ∧
    i_status <$> instances (w_db w') !! rh_instance_id h =
      i_status <$> instances (w_db w) !! rh_instance_id h) w.
Proof.
  intros Hc Hne. apply monitor_exit_wp. intros stderr w1 (He & _ & _ & Hsome & Hnone).
  unfold monitor_settle, detect_stale_monitor. simpl. step_calm. rewrite He, Hc.
  rewrite bool_decide_false by done. simpl. step_calm. apply wp_ret. simpl.
  rewrite lookup_delete_eq. split; [done|].
  destruct (instances (w_db w) !! rh_instance_id h) as [r|] eqn:Hr.
  - destruct (Hsome r eq_refl) as (r' & -> & Ho). simpl. unfold outcome in Ho. congruence.
  - by rewrite Hnone.
Qed.

Lemma timeout_fails_wp h r w :
  instances (w_db w) !! rh_instance_id h = Some r → i_status r = "running" →
  wp calm (monitor_timeout h) (λ _ w',
    container_registry (w_env w') !! rh_instance_id h = None ∧
    ∃ r', instances (w_db w') !! rh_instance_id h = Some r' ∧
      i_status r' = "failed" ∧ i_termination_reason r' = Some "timeout") w.
Proof.
  intros Hr Hrun. unfold monitor_timeout. simpl. apply wp_vis. intros t Ht.
  unfold perform. simpl. rewrite Ht. simpl. step_calm.
  unfold op_complete_instance_unified, complete_guard. simpl. rewrite Hr.
  rewrite bool_decide_true by done. simpl. rewrite (instances_update _ _ _ r) by done. simpl.
  step_calm. apply wp_ret. simpl. rewrite lookup_delete_eq. split; [done|].
  eexists. by rewrite lookup_insert_eq.
Qed.

Lemma invoke_launch_wp i r w :
  instances (w_db w) !! i = Some r →
  wp calm (invoke_launch i) (λ _ w',
    instances (w_db w') !! i = Some {| r with i_status := "running" |}) w.
Proof.
  intros Hr. unfold invoke_launch. simpl. step_calm. step_calm.
  unfold op_update_instance_status. simpl. rewrite Hr. simpl.
  rewrite (instances_update _ _ _ r) by done. simpl. apply wp_ret. simpl.
  by rewrite lookup_insert_eq.
Qed.

(** ** Theorems *)

(** A stop request overwrites whatever it finds.  Stopping an instance that
    still has a registry entry marks it cancelled and erases its output and
    error, also when it had just completed: the write has no status guard. *)
Lemma stop_erases_outcome request c r ts w :
  container_registry (w_env w) !! st_instance_id request = Some c →
  instances (w_db w) !! st_instance_id request = Some r → (∀ n, calm (ts n)) →
  let final := run (handle_stop_instance request) ts w in
  final.1 = Ok {| stresp_success := true; stresp_error := None |} ∧
  ∃ t, instances (w_db final.2) !! st_instance_id request =
    Some {| r with i_status := "cancelled"; i_output := None; i_error := None;
                   i_finished_at := Some t |}.
Proof.
  intros Hc Hr Hts final. exact (wp_run _ _ _ _ (stop_overwrites_wp request c r w Hc Hr) ts Hts).
Qed.

(** The instance completed with an output between the user's look and the stop. *)
Lemma stop_erases_outcome_witness :
  let w := {| (run (handle_instance_event completion) calm_ticks running_world).2 with
              w_env := env_with demo_container |} in
  let request := {| st_instance_id := "i"; st_reason := "user"; st_grace_period_seconds := 5 |} in
  i_output <$> instances (w_db w) !! "i" = Some (Some ["1"%byte]) ∧
  ∃ r t, instances (w_db (run (handle_stop_instance request) calm_ticks w).2) !! "i" =
    Some {| r with i_status := "cancelled"; i_output := None; i_error := None;
                   i_finished_at := Some t |}.
Proof.
  intros w request. split; [vm_compute; reflexivity|].
  destruct (instances (w_db w) !! "i") as [r|] eqn:Hr; [|vm_compute in Hr; discriminate].
  exists r.
  destruct (stop_erases_outcome request demo_container r calm_ticks w) as [_ H];
    [reflexivity|exact Hr|apply calm_ticks_calm|exact H].
Defined.

(** A stale monitor forgets the new process.  When the process of an old
    monitor exits after the instance was resumed under a new container, the
    monitor leaves the status alone (it is stale) but still removes the registry
    entry, which is the new process's: afterwards the running process has no
    entry, so drain, stop and the stale scan no longer see it. *)
Lemma stale_monitor_forgets_process h c ts w :
  container_registry (w_env w) !! rh_instance_id h = Some c →
  ci_container_id c ≠ rh_handle_id h → (∀ n, calm (ts n)) →
  let final := run (monitor_exit h) ts w in
  container_registry (w_env final.2) !! rh_instance_id h = None ∧
  i_status <$> instances (w_db final.2) !! rh_instance_id h =
    i_status <$> instances (w_db w) !! rh_instance_id h.
Proof.
  intros Hc Hne Hts final. exact (wp_run _ _ _ _ (stale_exit_wp h c w Hc Hne) ts Hts).
Qed.

Lemma stale_monitor_forgets_process_witness :
  let final := run (monitor_exit old_handle) calm_ticks
    {| running_world with w_env := env_with demo_container |} in
  container_registry (w_env final.2) !! "i" = None ∧
  i_status <$> instances (w_db final.2) !! "i" = Some "running".
Proof.
  apply (stale_monitor_forgets_process old_handle demo_container calm_ticks
    {| running_world with w_env := env_with demo_container |});
    [reflexivity|done|apply calm_ticks_calm].
Defined.

(** A stale timeout fails the new run.  The timeout branch has no stale check:
    when the deadline of an old monitor passes while the instance runs under any
    other container, the running instance is marked failed with reason "timeout"
    and its registry entry is removed. *)
Lemma stale_timeout_fails_run h r ts w :
  instances (w_db w) !! rh_instance_id h = Some r → i_status r = "running" →
  (∀ n, calm (ts n)) →
  let final := run (monitor_timeout h) ts w in
  container_registry (w_env final.2) !! rh_instance_id h = None ∧
  ∃ r', instances (w_db final.2) !! rh_instance_id h = Some r' ∧
    i_status r' = "failed" ∧ i_termination_reason r' = Some "timeout".
Proof.
  intros Hr Hrun Hts final. exact (wp_run _ _ _ _ (timeout_fails_wp h r w Hr Hrun) ts Hts).
Qed.

(** The registered container is not the monitor's. *)
Lemma stale_timeout_fails_run_witness :
  let w := {| running_world with w_env := env_with demo_container |} in
  let final := run (monitor_timeout old_handle) calm_ticks w in
  ci_container_id <$> container_registry (w_env w) !! "i" = Some "h" ∧
  rh_handle_id old_handle = "old" ∧
  ∃ r', instances (w_db final.2) !! "i" = Some r' ∧ i_status r' = "failed" ∧
    i_termination_reason r' = Some "timeout".
Proof.
  intros w final. split; [reflexivity|]. split; [reflexivity|].
  apply (stale_timeout_fails_run old_handle (row_with "running") calm_ticks w);
    [reflexivity|reflexivity|apply calm_ticks_calm].
Defined.

(** A relaunch keeps the old end.  The embedded runner marks a relaunched
    instance running and leaves every other column as it was: the finish time and
    the termination reason of the earlier suspension stay on the running row. *)
Lemma relaunch_keeps_old_end i r ts w :
  instances (w_db w) !! i = Some r → (∀ n, calm (ts n)) →
  instances (w_db (run (invoke_launch i) ts w).2) !! i =
    Some {| r with i_status := "running" |}.
Proof. intros Hr Hts. exact (wp_run _ _ _ _ (invoke_launch_wp i r w Hr) ts Hts). Qed.

(** A parked wait, relaunched: a running row with a finish time and a reason. *)
Lemma relaunch_keeps_old_end_witness :
  let parked := {| (row_with "suspended") with i_finished_at := Some 30;
                   i_termination_reason := Some WAITING_SIGNAL_TERMINATION |} in
  let final := (run (invoke_launch "i") calm_ticks (world_of (db_with parked))).2 in
  instances (w_db final) !! "i" = Some {| parked with i_status := "running" |} ∧
  ¬ running_clean (w_db final).
Proof.
  intros parked final. assert (H : instances (w_db final) !! "i" =
    Some {| parked with i_status := "running" |}).
  { apply (relaunch_keeps_old_end "i" parked calm_ticks (world_of (db_with parked)));
      [reflexivity|apply calm_ticks_calm]. }
  split; [exact H|]. intros Hclean. destruct (Hclean "i" _ H eq_refl) as [Hf _]. discriminate Hf.
Defined.

(** A custom signal resumes a paused instance.  An instance waits for a signal,
    is relaunched, and is then paused by its user; the wait's termination reason
    is still on the row, so the next custom signal makes the paused instance due
    for the wake scan, as if the user had resumed it. *)
Lemma custom_signal_resumes_paused :
  let w1 := run_all [park_invoke_suspend "i" [OnSignal None]; task (invoke_launch "i");
                     task (handle_signal_ack pause_ack)] running_world in
  let w2 := run_all [task (handle_send_custom_signal "i" "k" [])] w1 in
  ¬ due (w_now w2) "i" (w_db w1) ∧ due (w_now w2) "i" (w_db w2).
Proof.
  intros w1 w2. split.
  - rewrite <-due_compute. vm_compute. discriminate.
  - apply due_compute. vm_compute. reflexivity.
Qed.

(** Recovery undoes a completion.  A heartbeat scan finds a running instance
    without a registry entry; the instance reports its completion before the scan
    marks it for recovery.  The mark has no status guard: the completed instance
    ends suspended and due, and will be run again. *)
Lemma recovery_undoes_completion :
  let pool := [heartbeat_poll heartbeat_config; task (handle_instance_event completion)] in
  let mid := run_schedule (steps 0 6 ++ steps 1 4) (pool, orphan_world) in
  let final := run_schedule (steps 0 4) mid in
  i_status <$> instances (w_db mid.2) !! "i" = Some "completed" ∧
  due (w_now final.2) "i" (w_db final.2).
Proof.
  intros pool mid final. split; [vm_compute; reflexivity|].
  apply due_compute. vm_compute. reflexivity.
Qed.

(** Retention deletes a resumed instance.  The worker selects a failed
    instance; before it deletes the batch, a user resumes the instance and its
    process is launched.  The deletion has no status guard: the row and the
    registry entry of the running process are gone. *)
Lemma retention_deletes_resumed :
  let config := {| dc_enabled := true; dc_max_age := 0; dc_batch_size := 10 |} in
  let pool := [task (cleanup_old_instances 3 config);
               task (handle_resume_instance demo_state "i")] in
  let mid := run_schedule (steps 0 2 ++ steps 1 12) (pool, failed_world) in
  let final := run_schedule (steps 0 3) mid in
  i_status <$> instances (w_db mid.2) !! "i" = Some "running" ∧
  launches "i" final.2 = 1%nat ∧
  instances (w_db final.2) !! "i" = None ∧
  container_registry (w_env final.2) !! "i" = None.
Proof. vm_compute. repeat split. Qed.

(** A lost claim reply strands the instance.  When the claim of a due instance
    is committed but its reply is lost, the scheduler reports an error and
    launches nothing; the row is left suspended without a wake time, so no number
    of wake schedulers ever launches it. *)
Lemma lost_claim_strands (configs : list WakeSchedulerConfig) l' w' :
  let config := {| wc_batch_size := 10; wc_core_addr := "core" |} in
  let ticks n := if decide (n = 5%nat) then {| quiet with t_fault := LostReply |} else quiet in
  let lost := (run (process_pending_wakes config) ticks due_world).2 in
  claimable_now "i" (w_db due_world) = 1%nat ∧
  i_status <$> instances (w_db lost) !! "i" = Some "suspended" ∧
  (rtc pool_step ((λ config, task (process_pending_wakes config)) <$> configs, lost) (l', w') →
   launches "i" w' = 0%nat).
Proof.
  intros config ticks lost. split; [reflexivity|]. split; [vm_compute; reflexivity|].
  intros Hpool.
  destruct (pool_tokens (H := wake_law "i") _ _ _ Hpool (wakers_tokens "i" configs))
    as (bs' & _ & Hb).
  rewrite held_none in Hb. unfold budget in Hb. simpl in Hb.
  assert (H0 : (launches "i" lost + claimable_now "i" (w_db lost))%nat = 0%nat)
    by (vm_compute; reflexivity). lia.
Qed.
