(* ===== verification/SignalProperties.v ===== *)
(** * Signals and parking

    [signal.rs], [http_server.rs] and [embedded.rs]: a signal sent to an instance
    is delivered until it is acknowledged, its acknowledgement has the effect of
    its kind, and a parked instance is due exactly when its wakes say so. *)

From S2P Require Import Prelude.
From S2P Require Import CoreTypes.
From S2P Require Import Json.
From S2P Require Import Persistence.
From S2P Require Import EnvTables.
From S2P Require Import Effects.
From S2P Require Import InstanceHandlers.
From S2P Require Import DbInvariants.
From S2P Require Import Scenarios.
From S2P Require Import CoreProperties.
From S2P Require Import Recovery.
From S2P Require Import EnvHandlers.
From S2P Require Import EnvWorkers.
Open Scope runtara_scope.

(** ** Vocabulary of the statements *)

(** Operations that can change the pending signal of [i]. *)
Definition writes_signal (i : string) {A} (o : pop A) : Prop :=
  match o with
  | InsertSignal j _ _ | AcknowledgeSignal j => j = i
  | DeleteInstancesBatch ids => i ∈ ids
  | _ => False
  end.

Definition leaves_signal (i : string) (X : Type) (e : eff X) : Prop :=
  match e with Pers o => ¬ writes_signal i o | _ => True end.

(** A signal a poll reports. *)
Definition delivered (i : string) (st : SignalType) (payload : bytes) : Signal :=
  {| sg_instance_id := i; sg_signal_type := signal_type_to_i32 st; sg_payload := payload |}.

Definition poll_of (i : string) : PollSignalsRequest :=
  {| psr_instance_id := i; psr_checkpoint_id := None |}.

(** The status an acknowledged signal leads to. *)
Definition acked_status (st : SignalType) (old : string) : string :=
  match st with
  | SignalCancel => "cancelled"
  | SignalPause => "suspended"
  | SignalResume => old
  | SignalShutdown => "suspended"
  end.

(** The deadlines among some wakes. *)
Definition deadlines (wakes : list WorkflowWake) : list Z := omap wake_deadline wakes.

(** The row is parked on a wait for a signal. *)
Definition waiting (r : instances_row) : bool :=
  bool_decide (i_status r = "suspended")
  && bool_decide (i_termination_reason r = Some WAITING_SIGNAL_TERMINATION).

(** ** Delivery *)

Lemma payload_opt_default p : default [] (payload_opt p) = p.
Proof. by destruct p. Qed.

Lemma send_signal_wp i st payload r w :
  instances (w_db w) !! i = Some r → i_status r ∈ ["running"; "suspended"; "pending"] →
  st ≠ SignalShutdown →
  wp calm (handle_send_signal i (map_signal_type st) payload) (λ res w',
    res = http_ok ∧ ∃ s, pending_signals (w_db w') !! i = Some s ∧
      s_signal_type s = map_signal_type st ∧ s_payload s = payload_opt payload ∧
      s_acknowledged_at s = None) w.
Proof.
  intros Hr Hs Hst. unfold handle_send_signal. simpl. step_calm. rewrite Hr. simpl.
  rewrite bool_decide_true by done. simpl.
  rewrite bool_decide_true by (destruct st; [repeat constructor..|done]). simpl.
  step_calm. unfold op_insert_signal. rewrite Hr.
  replace (enum_ok signal_type_values (map_signal_type st)) with true by by destruct st.
  simpl. apply wp_ret. split; [done|]. eexists. split; [apply lookup_insert_eq|done].
Qed.

Lemma poll_signal_wp i st payload s w :
  pending_signals (w_db w) !! i = Some s → s_signal_type s = map_signal_type st →
  s_payload s = payload_opt payload → s_acknowledged_at s = None →
  wp calm (handle_poll_signals (poll_of i)) (λ res w',
    (∃ resp, res = Ok resp ∧ psresp_signal resp = Some (delivered i st payload)) ∧
    w_db w' = w_db w) w.
Proof.
  intros Hs Ht Hp Ha. unfold handle_poll_signals, bind_ok. simpl.
  step_calm. rewrite Hs. simpl. rewrite Ha. simpl. apply wp_ret. split; [|done].
  eexists. split; [done|]. simpl. unfold poll_signal. simpl.
  by rewrite Ht, Hp, parse_map_signal_type, payload_opt_default.
Qed.

Lemma leaves_signal_op i s {A} (o : pop A) :
  ¬ writes_signal i o →
  DbGuarantees (preserving (λ db, pending_signals db !! i = Some s)) o.
Proof.
  intros Hw c db Hs.
  assert (Hupd : ∀ j f, pending_signals (update_instance j f db).2 = pending_signals db).
  { intros j f. by rewrite update_instance_db. }
  destruct o; simpl in *; try done; unfold_ops;
    repeat (case_goal; simplify_eq/=; try done);
    try (by rewrite Hupd);
    try (match goal with H : update_instance ?j ?f db = _ |- _ =>
           by rewrite <-(Hupd j f), H in Hs end);
    try (by rewrite lookup_insert_ne).
  apply map_lookup_filter_Some. by split.
Qed.

Lemma leaves_signal_guarantees i s X (e : eff X) :
  leaves_signal i X e →
  Guarantees (on_db (preserving (λ db, pending_signals db !! i = Some s))) e.
Proof.
  apply (guarantees_op_class (λ A o, ¬ writes_signal i o)); [apply _|].
  intros A o. apply leaves_signal_op.
Qed.

(** ** Acknowledgement *)

Lemma acknowledge_db c i db :
  (op_acknowledge_signal c i db).1 = Ok tt ∧
  instances (op_acknowledge_signal c i db).2 = instances db ∧
  op_get_pending_signal i (op_acknowledge_signal c i db).2 = Ok None.
Proof.
  unfold op_acknowledge_signal, op_get_pending_signal.
  destruct (pending_signals db !! i) as [s|] eqn:Hs; simpl.
  - destruct (s_acknowledged_at s) eqn:Ha; simpl.
    + rewrite Hs. simpl. by rewrite Ha.
    + rewrite lookup_insert_eq. done.
  - by rewrite Hs.
Qed.

Lemma signal_ack_wp ack r w :
  instances (w_db w) !! sa_instance_id ack = Some r → sa_acknowledged ack = true →
  wp calm (handle_signal_ack ack) (λ res w',
    res = Ok tt ∧ op_get_pending_signal (sa_instance_id ack) (w_db w') = Ok None ∧
    i_status <$> instances (w_db w') !! sa_instance_id ack =
      Some (acked_status (signal_type_of_i32 (sa_signal_type ack)) (i_status r))) w.
Proof.
  intros Hr Hack. unfold handle_signal_ack. rewrite Hack. unfold bind_ok. simpl. step_calm.
  match goal with |- context [op_acknowledge_signal ?c ?i ?db] =>
    destruct (acknowledge_db c i db) as (E1 & E2 & E3);
    destruct (op_acknowledge_signal c i db) as [res db'] end. simpl in *.
  rewrite E1. rewrite <-E2 in Hr. clear E1 E2.
  destruct (signal_type_of_i32 (sa_signal_type ack)); simpl.
  - step_calm. unfold op_complete_instance_unified, complete_guard. simpl. rewrite Hr. simpl.
    rewrite (instances_update _ _ _ r) by done. simpl. apply wp_ret. simpl.
    rewrite lookup_insert_eq. done.
  - step_calm. unfold op_update_instance_status. simpl. rewrite Hr. simpl.
    rewrite (instances_update _ _ _ r) by done. simpl. apply wp_ret. simpl.
    rewrite lookup_insert_eq. done.
  - apply wp_ret. simpl. by rewrite Hr.
  - step_calm. unfold op_complete_instance_unified, complete_guard. simpl. rewrite Hr. simpl.
    rewrite (instances_update _ _ _ r) by done. simpl. step_calm. step_calm.
    unfold op_set_instance_sleep. erewrite instances_update by apply lookup_insert_eq. simpl.
    apply wp_ret. simpl. rewrite lookup_insert_eq. done.
Qed.

(** ** Parking *)

Lemma earliest_spec wakes :
  match earliest_wake_deadline_ms wakes with
  | None => deadlines wakes = []
  | Some d => d ∈ deadlines wakes ∧ ∀ d', d' ∈ deadlines wakes → d ≤ d'
  end.
Proof.
  induction wakes as [|w wakes IH]; [done|].
  change (deadlines (w :: wakes)) with (match wake_deadline w with
    | Some d => d :: deadlines wakes | None => deadlines wakes end).
  cbn [earliest_wake_deadline_ms foldr]. fold (earliest_wake_deadline_ms wakes).
  destruct (wake_deadline w) as [d|]; [|exact IH].
  destruct (earliest_wake_deadline_ms wakes) as [m|].
  - destruct IH as [Hin Hmin]. split.
    + destruct (Z.min_spec d m) as [[_ ->]|[_ ->]]; [left|by right].
    + intros d' [->|Hd']%elem_of_cons; [lia|]. specialize (Hmin d' Hd'). lia.
  - rewrite IH. split; [left|]. intros d' [->|Hd']%elem_of_cons; [lia|].
    by apply not_elem_of_nil in Hd'.
Qed.

Lemma park_wp `{Ext} i wakes r w :
  instances (w_db w) !! i = Some r → i_status r = "running" →
  (deadlines wakes ≠ [] ∨ has_on_signal_wake wakes = true) →
  wp calm (park_invoke_suspend i wakes) (λ _ w',
    ∃ r', instances (w_db w') !! i = Some r' ∧ i_status r' = "suspended" ∧
      i_termination_reason r' =
        Some (if has_on_signal_wake wakes then WAITING_SIGNAL_TERMINATION else "sleeping") ∧
      i_sleep_until r' =
        coalesce (earliest_wake_deadline_ms wakes ≫= λ ms, from_timestamp_millis (wrap_i64 ms))
          (i_sleep_until r)) w.
Proof.
  intros Hr Hrun Hw. unfold park_invoke_suspend.
  pose proof (earliest_spec wakes) as He.
  replace (bool_decide (earliest_wake_deadline_ms wakes = None)
           && negb (has_on_signal_wake wakes)) with false.
  2: { symmetry. apply andb_false_iff. destruct Hw as [Hd| ->]; [left|by right].
       apply bool_decide_eq_false. intros E. by rewrite E in He. }
  cbn [bind pers trigger]. step_calm.
  unfold op_complete_instance_unified, complete_guard. simpl. rewrite Hr.
  rewrite bool_decide_true by done. simpl.
  replace (enum_ok termination_reason_values (if has_on_signal_wake wakes
    then WAITING_SIGNAL_TERMINATION else "sleeping")) with true
    by by destruct (has_on_signal_wake wakes).
  simpl. rewrite (instances_update _ _ _ r) by done. simpl.
  destruct (earliest_wake_deadline_ms wakes) as [ms|]; simpl.
  2: { apply wp_ret. eexists. split; [apply lookup_insert_eq|done]. }
  destruct (from_timestamp_millis (wrap_i64 ms)) as [t|]; simpl.
  2: { apply wp_ret. eexists. split; [apply lookup_insert_eq|done]. }
  step_calm. unfold op_set_instance_sleep.
  erewrite instances_update by apply lookup_insert_eq. simpl. apply wp_ret.
  eexists. split; [apply lookup_insert_eq|done].
Qed.

(** ** The on-signal waker *)

Lemma custom_signal_wp i k payload r w :
  instances (w_db w) !! i = Some r → k ≠ "" →
  wp calm (handle_send_custom_signal i k payload) (λ res w',
    res = http_ok ∧
    (∃ s, op_take_pending_custom_signal i k (w_db w') = Ok (Some s) ∧
       csr_payload s = payload_opt payload) ∧
    if waiting r then due (w_now w') i (w_db w')
    else instances (w_db w') = instances (w_db w)) w.
Proof.
  intros Hr Hk. unfold handle_send_custom_signal. simpl. step_calm. rewrite Hr. simpl.
  rewrite decide_False by done. simpl. step_calm. unfold op_insert_custom_signal. rewrite Hr.
  simpl. step_calm. rewrite Hr. simpl. fold (waiting r). destruct (waiting r) eqn:Hw.
  - simpl. step_calm. step_calm. unfold op_set_instance_sleep.
    rewrite (instances_update _ _ _ r) by done. simpl. apply wp_ret. simpl.
    split; [done|]. split.
    { eexists. unfold op_take_pending_custom_signal. simpl. by rewrite lookup_insert_eq. }
    apply andb_true_iff in Hw as [Hs _]. apply bool_decide_eq_true in Hs.
    eexists. split; [apply lookup_insert_eq|]. unfold sleep_due. simpl.
    rewrite Hs. rewrite bool_decide_true, andb_true_r by done. apply Z.leb_le. simpl in *. lia.
  - simpl. apply wp_ret. split; [done|]. split; [|done].
    eexists. unfold op_take_pending_custom_signal. simpl. by rewrite lookup_insert_eq.
Qed.

(** ** Theorems *)

(** C38: Signals are delivered.  A cancel, pause or resume signal accepted by the
    signal endpoint is reported, with its kind and payload, by every later poll of
    the instance, whatever other tasks interleave and whatever fails, until
    another signal replaces it, it is acknowledged or the instance is deleted. *)
Theorem signal_delivered i st payload r ts ts' w l l' w2 :
  instances (w_db w) !! i = Some r → i_status r ∈ ["running"; "suspended"; "pending"] →
  st ≠ SignalShutdown → (∀ n, calm (ts n)) → (∀ n, calm (ts' n)) →
  let sent := run (handle_send_signal i (map_signal_type st) payload) ts w in
  rtc pool_step (l, sent.2) (l', w2) → Forall (all_effs (leaves_signal i)) l →
  sent.1 = http_ok ∧
  ∃ resp, (run (handle_poll_signals (poll_of i)) ts' w2).1 = Ok resp ∧
    psresp_signal resp = Some (delivered i st payload).
Proof.
  intros Hr Hs Hst Hts Hts' sent Hpool Hall.
  destruct (wp_run _ _ _ _ (send_signal_wp i st payload r w Hr Hs Hst) ts Hts)
    as (Hok & s & Hsig & Ht & Hp & Ha).
  split; [done|].
  assert (Hsig2 : pending_signals (w_db w2) !! i = Some s).
  { apply (pool_invariant (λ db, pending_signals db !! i = Some s) _ _ _ _ Hpool);
      [|exact Hsig].
    eapply Forall_impl; [exact Hall|]. intros p. apply all_effs_impl.
    intros X e. apply leaves_signal_guarantees. }
  apply (wp_run _ _ _ _ (poll_signal_wp i st payload s w2 Hsig2 Ht Hp Ha) ts' Hts').
Qed.

Lemma signal_delivered_witness :
  let sent := run (handle_send_signal "i" "pause" ["7"%byte]) calm_ticks running_world in
  ∃ resp, (run (handle_poll_signals (poll_of "i")) calm_ticks sent.2).1 = Ok resp ∧
    psresp_signal resp = Some (delivered "i" SignalPause ["7"%byte]).
Proof.
  intros sent.
  apply (signal_delivered "i" SignalPause ["7"%byte] (row_with "running") calm_ticks calm_ticks
    running_world [] [] sent.2);
    [reflexivity|left|done|apply calm_ticks_calm|apply calm_ticks_calm|apply rtc_refl|constructor].
Defined.

(** Acknowledgement consumes a signal and applies it.  After an instance
    acknowledged a signal no poll reports one any more, and the instance is
    cancelled, suspended (pause and shutdown) or unchanged (resume) according to
    the signal's kind. *)
Lemma ack_consumes_signal ack r ts w :
  instances (w_db w) !! sa_instance_id ack = Some r → sa_acknowledged ack = true →
  (∀ n, calm (ts n)) →
  let final := run (handle_signal_ack ack) ts w in
  final.1 = Ok tt ∧ op_get_pending_signal (sa_instance_id ack) (w_db final.2) = Ok None ∧
  i_status <$> instances (w_db final.2) !! sa_instance_id ack =
    Some (acked_status (signal_type_of_i32 (sa_signal_type ack)) (i_status r)).
Proof.
  intros Hr Hack Hts final. exact (wp_run _ _ _ _ (signal_ack_wp ack r w Hr Hack) ts Hts).
Qed.

Lemma ack_consumes_signal_witness :
  let sent := (run (handle_send_signal "i" "pause" []) calm_ticks running_world).2 in
  let ack := {| sa_instance_id := "i"; sa_signal_type := 1; sa_acknowledged := true |} in
  let final := run (handle_signal_ack ack) calm_ticks sent in
  op_get_pending_signal "i" (w_db final.2) = Ok None ∧
  i_status <$> instances (w_db final.2) !! "i" = Some "suspended".
Proof.
  intros sent ack final.
  destruct (ack_consumes_signal ack (row_with "running") calm_ticks sent) as (_ & H1 & H2);
    [vm_compute; reflexivity|reflexivity|apply calm_ticks_calm|].
  split; [exact H1|exact H2].
Defined.

(** Parking.  A running instance that returns with a deadline or a signal wait
    is suspended with the marker of its wait, and is due exactly from the earliest
    of its deadlines on (when the calendar can represent it); without a deadline
    its wake time stays as it was. *)
Lemma park_due_at_earliest `{Ext} i wakes r ts w :
  instances (w_db w) !! i = Some r → i_status r = "running" →
  (deadlines wakes ≠ [] ∨ has_on_signal_wake wakes = true) → (∀ n, calm (ts n)) →
  let final := (run (park_invoke_suspend i wakes) ts w).2 in
  ∃ r', instances (w_db final) !! i = Some r' ∧ i_status r' = "suspended" ∧
    i_termination_reason r' =
      Some (if has_on_signal_wake wakes then WAITING_SIGNAL_TERMINATION else "sleeping") ∧
    match earliest_wake_deadline_ms wakes with
    | Some ms =>
        (ms ∈ deadlines wakes ∧ ∀ ms', ms' ∈ deadlines wakes → ms ≤ ms') ∧
        ∀ t t', from_timestamp_millis (wrap_i64 ms) = Some t →
          sleep_due t' r' = (t <=? t')
    | None => deadlines wakes = [] ∧ i_sleep_until r' = i_sleep_until r
    end.
Proof.
  intros Hr Hrun Hw Hts final.
  destruct (wp_run _ _ _ _ (park_wp i wakes r w Hr Hrun Hw) ts Hts) as (r' & Hr' & Hs & Ht & Hu).
  exists r'. split; [done|]. split; [done|]. split; [done|].
  pose proof (earliest_spec wakes) as He.
  destruct (earliest_wake_deadline_ms wakes) as [ms|]; [|done].
  split; [done|]. intros t t' Hms. cbn [mbind option_bind] in Hu. rewrite Hms in Hu.
  by apply sleep_due_suspended.
Qed.

Lemma park_due_at_earliest_witness :
  let final := (run (park_invoke_suspend "i" [At 9; OnSignal (Some 4); OnResume]) calm_ticks
    running_world).2 in
  ∃ r', instances (w_db final) !! "i" = Some r' ∧ sleep_due 3999 r' = false ∧
    sleep_due 4000 r' = true.
Proof.
  intros final.
  destruct (park_due_at_earliest "i" [At 9; OnSignal (Some 4); OnResume] (row_with "running")
    calm_ticks running_world) as (r' & Hr' & _ & _ & _ & H);
    [reflexivity|reflexivity|by right|apply calm_ticks_calm|].
  exists r'. split; [exact Hr'|].
  split; rewrite (H 4000); (vm_compute; reflexivity).
Defined.

(** A custom signal wakes exactly the instances that wait for one.  The
    endpoint stores the payload for the named checkpoint, where the instance reads
    it back; if the instance is parked on a signal wait it becomes due at once,
    otherwise no instance row changes. *)
Lemma custom_signal_wakes_waiter i k payload r ts w :
  instances (w_db w) !! i = Some r → k ≠ "" → (∀ n, calm (ts n)) →
  let final := run (handle_send_custom_signal i k payload) ts w in
  final.1 = http_ok ∧
  (∃ s, op_take_pending_custom_signal i k (w_db final.2) = Ok (Some s) ∧
     csr_payload s = payload_opt payload) ∧
  if waiting r then due (w_now final.2) i (w_db final.2)
  else instances (w_db final.2) = instances (w_db w).
Proof.
  intros Hr Hk Hts final. exact (wp_run _ _ _ _ (custom_signal_wp i k payload r w Hr Hk) ts Hts).
Qed.

Lemma custom_signal_wakes_waiter_witness :
  let r := {| (row_with "suspended") with
              i_termination_reason := Some WAITING_SIGNAL_TERMINATION |} in
  let final := run (handle_send_custom_signal "i" "k" []) calm_ticks (world_of (db_with r)) in
  due (w_now final.2) "i" (w_db final.2).
Proof.
  intros r final.
  destruct (custom_signal_wakes_waiter "i" "k" [] r calm_ticks (world_of (db_with r)))
    as (_ & _ & H); [reflexivity|done|apply calm_ticks_calm|exact H].
Defined.
