(* ===== verification/ResumeProperties.v ===== *)
(** * Resuming, recovering and monitoring an instance

    [handlers.rs] and [recovery.rs]: what a resume request launches and leaves,
    the end of a crash loop, and what the monitor of a dead process records. *)

From S2P Require Import Prelude.
From S2P Require Import CoreTypes.
From S2P Require Import Json.
From S2P Require Import Persistence.
From S2P Require Import EnvTables.
From S2P Require Import Effects.
From S2P Require Import InstanceHandlers.
From S2P Require Import DbInvariants.
From S2P Require Import Scenarios.
From S2P Require Import CoreProperties.
From S2P Require Import Recovery.
From S2P Require Import EnvHandlers.
From S2P Require Import EnvProperties.
From S2P Require Import WakeExclusion.
From S2P Require Import StartProperties.
Open Scope runtara_scope.

(** ** Vocabulary of the statements *)

(** The checkpoint a resumed instance continues from: the recorded one, or the
    latest saved one. *)
Definition resume_checkpoint (i : string) (r : instances_row) (db : Db) : option string :=
  match i_checkpoint_id r with
  | Some k => Some k
  | None =>
      match op_load_latest_checkpoint i db with
      | Ok (Some cp) => Some (cp_checkpoint_id cp)
      | _ => None
      end
  end.

(** The row of a resumed instance: running since [t], with nothing left of its
    earlier end. *)
Definition resumed_row (t : time) (cp : option string) (r : instances_row) : instances_row :=
  {| r with i_status := "running"; i_started_at := Some t; i_finished_at := None;
            i_termination_reason := None; i_checkpoint_id := coalesce cp (i_checkpoint_id r);
            i_sleep_until := None |}.

(** What a successful resume of [i] from [w] with image [image] leaves: the row
    runs again, one process was launched from [cp] and is registered under its
    own handle, with a monitor that enforces its timeout. *)
Definition resumed (i : string) (r : instances_row) (cp : option string) (image : Image)
  (stored_env : gmap string string) (w : world) (res : result EnvError ResumeInstanceResponse)
  (w' : world) : Prop :=
  res = Ok {| rsresp_success := true; rsresp_error := None |} ∧
  ∃ t o h m,
    w_now w ≤ t ∧ instances (w_db w') !! i = Some (resumed_row t cp r) ∧
    w_log w' = w_log w ++ [Launched o h; MonitorSpawned m] ∧
    lo_instance_id o = i ∧ lo_checkpoint_id o = cp ∧
    lo_bundle_path o = img_binary_path image ∧ lo_env o = stored_env ∧
    ma_handle m = h ∧ ma_timeout m = lo_timeout o ∧
    ci_container_id <$> container_registry (w_env w') !! i = Some (rh_handle_id h).

(** One crash and restart: recovery, then the relaunched guest registers again. *)
Definition restart `{EnvVars} (i : string) : prog RecoveryOutcome :=
  let! outcome := recover_or_fail i true in
  match outcome with
  | Failed => Ret Failed
  | Recovered =>
      let! t := trigger UtcNow in
      let! _ := pers (UpdateInstanceStatus i "running" (Some t)) in
      Ret Recovered
  end.

(** Up to [n] restarts, until one fails; the number that recovered. *)
Fixpoint restarts `{EnvVars} (n : nat) (i : string) : prog nat :=
  match n with
  | O => Ret O
  | S n' =>
      let! outcome := restart i in
      match outcome with
      | Failed => Ret O
      | Recovered => let! m := restarts n' i in Ret (S m)
      end
  end.

(** The instance row after its [k]-th consecutive restart without progress. *)
Definition stuck_row (r : instances_row) (k : Z) (count : Z) : Prop :=
  i_status r = "running" ∧
  (k = 0 ∧ i_recovery_marker r = None ∨
   1 ≤ k ∧ i_recovery_attempts r = k ∧ i_recovery_marker r = Some (show_Z count)).

(** The number of checkpoints of [i]. *)
Definition checkpoint_count (i : string) (db : Db) : Z :=
  Z.of_nat (length (matching_checkpoints i None None None db)).

(** ** Resume *)

Lemma update_checkpoint_wp {B} i cp r w (k : prog B) Q :
  instances (w_db w) !! i = Some r →
  (∀ n, w_now w ≤ n → wp calm k Q {| w with w_now := n;
     w_db := {| (w_db w) with instances := <[i := {| r with i_checkpoint_id :=
       coalesce cp (i_checkpoint_id r) |}]> (instances (w_db w)) |} |}) →
  wp calm (bind (match cp with
                 | Some cp_id => pers (UpdateInstanceCheckpoint i cp_id)
                 | None => Ret (Ok tt) end) (λ _, k)) Q w.
Proof.
  intros Hr Hk. destruct cp as [cp|]; simpl.
  - step_calm. unfold op_update_instance_checkpoint.
    rewrite (instances_update _ _ _ r) by done. simpl. by apply Hk.
  - specialize (Hk (w_now w) ltac:(lia)).
    replace {| w with w_now := w_now w; w_db := {| (w_db w) with instances := <[i := {| r with
       i_checkpoint_id := coalesce None (i_checkpoint_id r) |}]> (instances (w_db w)) |} |}
      with w in Hk; [done|].
    destruct w as [db]. simpl in *. f_equal. destruct db as [ins]. simpl in *. f_equal.
    rewrite insert_id; [done|]. rewrite Hr. by destruct r.
Qed.

Lemma resume_image_wp `{EnvVars} st inst cp image stored_env r w :
  instances (w_db w) !! ir_instance_id inst = Some r →
  wp calm (resume_image st inst cp image stored_env)
    (resumed (ir_instance_id inst) r cp image stored_env w) w.
Proof.
  intros Hr. unfold resume_image, register_launch. cbn [bind env pers trigger].
  step_calm. step_calm. step_calm. step_calm.
  unfold op_update_instance_status. rewrite Hr. simpl.
  rewrite (instances_update _ _ _ r) by done. simpl.
  eapply update_checkpoint_wp; [apply lookup_insert_eq|]. intros ? ?.
  cbn [bind trigger]. step_calm. unfold op_clear_instance_sleep.
  erewrite instances_update by apply lookup_insert_eq. simpl.
  apply wp_vis. intros tk Htk. unfold perform. simpl. rewrite Htk. simpl.
  apply wp_vis. intros tk' Htk'. simpl. step_calm.
  apply wp_vis. intros tk2 Htk2. simpl. apply wp_ret.
  split; [done|]. eexists _, _, _, _. split; [|split; [|split]]; simpl.
  2: { rewrite !lookup_insert_eq. by destruct r. }
  2: { by rewrite <-(assoc_L (++)). }
  - simpl in *. lia.
  - rewrite !lookup_insert_eq. done.
Qed.

(** The choice of the checkpoint reads only. *)
Lemma resume_checkpoint_wp i r w :
  wp calm (match i_checkpoint_id r with
           | Some id => Ret (Some id)
           | None =>
               let! latest := pers (LoadLatestCheckpoint i) in
               Ret (match latest with Ok (Some cp) => Some (cp_checkpoint_id cp) | _ => None end)
           end)
    (λ cp w', cp = resume_checkpoint i r (w_db w) ∧ w' = {| w with w_now := w_now w' |} ∧
       w_now w ≤ w_now w') w.
Proof.
  unfold resume_checkpoint. destruct (i_checkpoint_id r) as [k|].
  - apply wp_ret. split; [done|]. split; [by destruct w|lia].
  - cbn [bind pers trigger]. step_calm. apply wp_ret. done.
Qed.

Lemma resumed_later i r cp image e w n res w' :
  w_now w ≤ n → resumed i r cp image e {| w with w_now := n |} res w' →
  resumed i r cp image e w res w'.
Proof.
  intros Hn (Hres & t & o & h & m & Ht & H). split; [done|]. exists t, o, h, m.
  simpl in *. split; [lia|exact H].
Qed.

Lemma resume_wp `{EnvVars} st i r ii image w :
  instances (w_db w) !! i = Some r → resumable (i_status r) = true →
  instance_images (w_env w) !! i = Some ii →
  images (w_env w) !! ii_image_id ii = Some image → img_tenant_id image = i_tenant_id r →
  wp calm (handle_resume_instance st i)
    (resumed i r (resume_checkpoint i r (w_db w)) image (default ∅ (ii_env ii)) w) w.
Proof.
  intros Hr Hres Hii Him Hten. unfold handle_resume_instance, db_call, bind_ok.
  cbn [bind env trigger]. apply wp_env_calm. intros n m Hn. cbn [exec_eop fst snd].
  rewrite Hr. cbn [bind fmap option_fmap option_map]. 
  change (ir_status (record_of_row i r)) with (i_status r). rewrite Hres. cbn [negb].
  apply wp_bind. eapply wp_mono; [|apply (resume_checkpoint_wp i r)].
  intros cp w1 (-> & -> & Hle). cbn [bind w_db] in *. apply wp_env_calm. intros n1 m1 Hn1.
  cbn [exec_eop fst snd w_env w_db]. unfold get_instance_image_with_env. rewrite Hii.
  cbn [bind fmap option_fmap option_map]. apply wp_env_calm. intros n2 m2 Hn2.
  cbn [exec_eop fst snd w_env w_db]. unfold image_get. rewrite Him. cbn [bind].
  change (ir_tenant_id (record_of_row i r)) with (i_tenant_id r).
  rewrite Hten, bool_decide_true by done. cbn [negb].
  eapply wp_mono; [|by apply (resume_image_wp st (record_of_row i r) _ image _ r)].
  intros res w' Hpost. eapply (resumed_later _ _ _ _ _ _ n2); [|exact Hpost]. simpl in *. lia.
Qed.

(** A request for an instance that cannot be resumed only reads. *)
Lemma resume_refused_wp `{EnvVars} st i w :
  (∀ r, instances (w_db w) !! i = Some r → resumable (i_status r) = false) →
  wp anytime (handle_resume_instance st i) (λ res w',
    (∀ resp, res = Ok resp → rsresp_success resp = false) ∧
    w_db w' = w_db w ∧ w_env w' = w_env w ∧ w_log w' = w_log w) w.
Proof.
  intros Hst. unfold handle_resume_instance, db_call, bind_ok. cbn [bind env trigger].
  apply wp_vis. intros t _. unfold perform. simpl.
  destruct (t_fault t); simpl; try (apply wp_ret; done).
  destruct (instances (w_db w) !! i) as [r|]; simpl; [|apply wp_ret; naive_solver].
  rewrite (Hst r) by done. simpl. apply wp_ret. naive_solver.
Qed.

(** ** The crash loop *)

Lemma decide_stuck k count cap :
  0 ≤ count ≤ i64_max → 1 ≤ k < i32_max →
  recovery_decide k (Some (show_Z count)) count cap true =
    if cap <? k + 1
    then Fail ("Killed by Environment restart; exceeded automatic restart limit ("
                 +:+ show_Z cap +:+ ")")
    else Recover (k + 1).
Proof.
  intros Hc Hk. unfold recovery_decide. cbn [mbind option_bind]. rewrite parse_show by done.
  cbn [fmap option_fmap option_map default from_option id]. rewrite Z.ltb_irrefl. simpl.
  rewrite wrap_i32_id by (unfold i32_min, i32_max in *; lia). done.
Qed.

Lemma max_auto_restarts_pos `{EnvVars} : 1 ≤ max_auto_restarts.
Proof.
  unfold max_auto_restarts. destruct (env_var _) as [v|]; simpl; [|done].
  destruct (parse_i32 v) as [n|]; simpl; [|done].
  destruct (Z.leb_spec 1 n); simpl; [done|done].
Qed.

(** One more restart without progress: recovered within the cap, failed beyond. *)
Lemma restart_wp `{EnvVars} i r k w :
  instances (w_db w) !! i = Some r → stuck_row r k (checkpoint_count i (w_db w)) →
  0 ≤ k ≤ max_auto_restarts → max_auto_restarts < i32_max →
  checkpoint_count i (w_db w) ≤ i64_max →
  wp calm (restart i) (λ res w',
    checkpoint_count i (w_db w') = checkpoint_count i (w_db w) ∧
    if k <? max_auto_restarts
    then res = Recovered ∧ ∃ r', instances (w_db w') !! i = Some r' ∧
           stuck_row r' (k + 1) (checkpoint_count i (w_db w))
    else res = Failed ∧ ∃ r', instances (w_db w') !! i = Some r' ∧ i_status r' = "failed") w.
Proof.
  intros Hr [Hrun Hk] Hle Hcap Hcount. unfold restart, recover_or_fail. simpl.
  step_calm. step_calm. rewrite Hr. simpl.
  fold (checkpoint_count i (w_db w)). set (count := checkpoint_count i (w_db w)) in *.
  assert (Hc0 : 0 ≤ count) by (unfold count, checkpoint_count; lia).
  assert (Hdec : recovery_decide (i_recovery_attempts r) (i_recovery_marker r) count
    max_auto_restarts true =
    if k <? max_auto_restarts then Recover (k + 1)
    else Fail ("Killed by Environment restart; exceeded automatic restart limit ("
                 +:+ show_Z max_auto_restarts +:+ ")")).
  { pose proof max_auto_restarts_pos. destruct Hk as [[-> ->]|(Hk1 & -> & ->)].
    - unfold recovery_decide. simpl.
      destruct (Z.ltb_spec max_auto_restarts 1), (Z.ltb_spec 0 max_auto_restarts); try lia. done.
    - rewrite decide_stuck by lia.
      destruct (Z.ltb_spec max_auto_restarts (k + 1)), (Z.ltb_spec k max_auto_restarts); try lia;
        done. }
  rewrite Hdec. clear Hdec. destruct (Z.ltb_spec k max_auto_restarts); simpl.
  - step_calm. rewrite (instances_update _ _ _ r) by done. simpl. step_calm. step_calm.
    unfold op_update_instance_status. simpl. rewrite lookup_insert_eq. simpl.
    erewrite instances_update by apply lookup_insert_eq. simpl. apply wp_ret. simpl.
    split; [done|]. split; [done|]. eexists. split; [apply lookup_insert_eq|].
    split; [done|]. right. split; [lia|done].
  - step_calm. unfold op_complete_instance_unified, complete_guard. simpl. rewrite Hr.
    rewrite bool_decide_true by done. simpl. rewrite (instances_update _ _ _ r) by done. simpl.
    apply wp_ret. simpl. split; [done|]. split; [done|]. eexists. by rewrite lookup_insert_eq.
Qed.

Lemma restarts_wp `{EnvVars} n i r k w :
  instances (w_db w) !! i = Some r → stuck_row r k (checkpoint_count i (w_db w)) →
  0 ≤ k ≤ max_auto_restarts → max_auto_restarts < i32_max →
  checkpoint_count i (w_db w) ≤ i64_max →
  wp calm (restarts n i) (λ m w',
    Z.of_nat m = Z.min (Z.of_nat n) (max_auto_restarts - k) ∧
    (max_auto_restarts - k < Z.of_nat n →
     ∃ r', instances (w_db w') !! i = Some r' ∧ i_status r' = "failed")) w.
Proof.
  revert r k w. induction n as [|n IH]; intros r k w Hr Hk Hle Hcap Hcount.
  { apply wp_ret. split; [|intros ?]; lia. }
  cbn [restarts]. apply wp_bind. eapply wp_mono; [|by apply (restart_wp i r k)].
  intros res w' [Hcnt Hres]. destruct (Z.ltb_spec k max_auto_restarts) as [Hlt|Hge].
  - destruct Hres as (-> & r' & Hr' & Hk'). apply wp_bind.
    rewrite <-Hcnt in Hk'.
    eapply wp_mono; [|apply (IH r' (k + 1) w' Hr' Hk'); [lia|done|by rewrite Hcnt]].
    intros m w2 [Hm Hf]. apply wp_ret. split; [lia|]. intros. apply Hf. lia.
  - destruct Hres as (-> & r' & Hr' & Hs'). apply wp_ret. split; [lia|]. eauto.
Qed.

(** ** The monitor of a dead process *)

Lemma monitor_crash_wp i stderr r w :
  instances (w_db w) !! i = Some r → i_status r = "running" →
  wp calm (monitor_crash i stderr) (λ _ w',
    w_now w ≤ w_now w' ∧ w_env w' = w_env w ∧
    ∃ r', instances (w_db w') !! i = Some r' ∧
      i_error r' = Some (crash_error (w_env_draining w) stderr) ∧
      if w_env_draining w
      then i_termination_reason r' = Some "shutdown_requested" ∧ sleep_due (w_now w') r' = true
      else i_status r' = "failed" ∧ i_termination_reason r' = Some "crashed") w.
Proof.
  intros Hr Hrun. unfold monitor_crash. cbn [bind trigger]. step_calm.
  destruct (w_env_draining w) eqn:Hd; destruct stderr as [s|];
    cbn [bind pers trigger]; step_calm;
    unfold op_complete_instance_unified, complete_guard; simpl; rewrite Hr;
    rewrite bool_decide_true by done; simpl; rewrite (instances_update _ _ _ r) by done; simpl;
    step_calm; rewrite ?Hd.
  1,2: step_calm; step_calm; unfold op_set_instance_sleep;
    erewrite instances_update by apply lookup_insert_eq; simpl; apply wp_ret; simpl;
    (split; [simpl in *; lia|]; split; [done|]); eexists; (split; [apply lookup_insert_eq|]);
    (split; [done|]; split; [done|]); unfold sleep_due; simpl;
    rewrite andb_true_r; apply Z.leb_le; simpl in *; lia.
  all: apply wp_ret; simpl; (split; [simpl in *; lia|]; split; [done|]); eexists;
    by rewrite lookup_insert_eq.
Qed.

Lemma monitor_settle_wp h stderr c r w :
  container_registry (w_env w) !! rh_instance_id h = Some c →
  ci_container_id c = rh_handle_id h →
  instances (w_db w) !! rh_instance_id h = Some r → i_status r = "running" →
  wp calm (monitor_settle h stderr) (λ _ w',
    container_registry (w_env w') !! rh_instance_id h = None ∧
    ∃ r', instances (w_db w') !! rh_instance_id h = Some r' ∧
      i_error r' = Some (crash_error (w_env_draining w) stderr) ∧
      if w_env_draining w
      then i_termination_reason r' = Some "shutdown_requested" ∧ sleep_due (w_now w') r' = true
      else i_status r' = "failed" ∧ i_termination_reason r' = Some "crashed") w.
Proof.
  intros Hc Hid Hr Hrun. unfold monitor_settle, detect_stale_monitor.
  cbn [bind env trigger]. apply wp_env_calm. intros n m Hn. cbn [exec_eop fst snd].
  unfold registry_get. rewrite Hc, Hid, bool_decide_true by done. cbn [bind negb].
  cbn [pers trigger bind]. apply wp_pers_calm. intros n1 m1 Hn1. cbn [exec_pop fst snd bind].
  unfold op_get_instance. cbn [w_db]. rewrite Hr. cbn [fmap option_fmap option_map].
  change (ir_status (record_of_row (rh_instance_id h) r)) with (i_status r).
  rewrite Hrun. change (reported_by_sdk "running") with false. apply wp_bind.
  eapply wp_mono; [|apply (monitor_crash_wp _ _ r); [exact Hr|exact Hrun]].
  intros u w1 (Hle & He & r' & Hr' & Herr & Hif). step_calm. apply wp_ret. simpl in *.
  rewrite lookup_delete_eq. split; [done|]. exists r'. split; [done|]. split; [done|].
  destruct (w_env_draining w); [|done]. destruct Hif as [Ht Hd]. split; [done|].
  revert Hd. unfold sleep_due. destruct (i_sleep_until r'); [|done].
  intros [Hz Hb]%andb_true_iff. rewrite Hb, andb_true_r. lia.
Qed.

(** ** Theorems *)

(** Resume.  A suspended, failed or cancelled instance whose image belongs to
    its tenant is relaunched by a resume request: exactly one process starts,
    with the image's binary, the stored environment and the recorded checkpoint
    (or the latest saved one); the row is running with nothing left of its earlier
    end and no pending wake; the registry names the new process, and a monitor
    with the same timeout watches it. *)
Lemma resume_relaunches `{EnvVars} st i r ii image ts w :
  instances (w_db w) !! i = Some r → resumable (i_status r) = true →
  instance_images (w_env w) !! i = Some ii →
  images (w_env w) !! ii_image_id ii = Some image → img_tenant_id image = i_tenant_id r →
  (∀ n, calm (ts n)) →
  let final := run (handle_resume_instance st i) ts w in
  resumed i r (resume_checkpoint i r (w_db w)) image (default ∅ (ii_env ii)) w
    final.1 final.2.
Proof.
  intros Hr Hres Hii Him Hten Hts final.
  exact (wp_run _ _ _ _ (resume_wp st i r ii image w Hr Hres Hii Him Hten) ts Hts).
Qed.

Lemma resume_relaunches_witness :
  let r := {| (row_with "suspended") with i_sleep_until := Some 40 |} in
  let final := run (handle_resume_instance demo_state "i") calm_ticks due_world in
  ∃ t o h m, instances (w_db final.2) !! "i" = Some (resumed_row t None r) ∧
    w_log final.2 = [Launched o h; MonitorSpawned m].
Proof.
  intros r final.
  destruct (resume_relaunches demo_state "i" r
    {| ii_image_id := "img"; ii_tenant_id := "acme"; ii_env := None;
       ii_timeout_seconds := None; ii_created_at := 1 |}
    {| img_image_id := "img"; img_tenant_id := "acme"; img_name := "n";
       img_description := None; img_binary_path := "/bin/wf";
       img_bundle_path := None; img_runner_type := Wasm;
       img_created_at := 1; img_updated_at := 1; img_metadata := None |} calm_ticks due_world)
    as (_ & t & o & h & m & _ & Hr & Hlog & _);
    [reflexivity|reflexivity|reflexivity|reflexivity|reflexivity|apply calm_ticks_calm|].
  exists t, o, h, m. split; [exact Hr|exact Hlog].
Defined.

(** Resume refuses active and completed instances.  For an instance that is
    pending, running or completed, or does not exist, a resume request is never
    answered with success, launches nothing and changes nothing, whatever fails. *)
Lemma resume_refuses_active `{EnvVars} st i ts w :
  (∀ r, instances (w_db w) !! i = Some r → resumable (i_status r) = false) →
  let final := run (handle_resume_instance st i) ts w in
  (∀ resp, final.1 = Ok resp → rsresp_success resp = false) ∧
  w_db final.2 = w_db w ∧ w_env final.2 = w_env w ∧ w_log final.2 = w_log w.
Proof.
  intros Hst final. by apply (wp_run _ _ _ _ (resume_refused_wp st i w Hst) ts).
Qed.

Lemma resume_refuses_active_witness :
  (run (handle_resume_instance demo_state "i") calm_ticks running_world).1 =
    Ok (resume_refused
      "Cannot resume instance in 'running' state (must be suspended, failed, or cancelled)") ∧
  w_log (run (handle_resume_instance demo_state "i") calm_ticks running_world).2 = [].
Proof.
  split; [vm_compute; reflexivity|].
  apply (resume_refuses_active demo_state "i" calm_ticks running_world).
  intros r. simpl. rewrite lookup_singleton_Some. by intros [_ <-].
Defined.

(** C37: A crash loop ends.  An instance that keeps being restarted without saving
    a new checkpoint is recovered exactly [max_auto_restarts] times; the restart
    after that leaves it failed. *)
Theorem crash_loop_ends `{EnvVars} n i r ts w :
  instances (w_db w) !! i = Some r → i_status r = "running" → i_recovery_marker r = None →
  max_auto_restarts < i32_max → checkpoint_count i (w_db w) ≤ i64_max → (∀ n, calm (ts n)) →
  let final := run (restarts n i) ts w in
  Z.of_nat final.1 = Z.min (Z.of_nat n) max_auto_restarts ∧
  (max_auto_restarts < Z.of_nat n →
   ∃ r', instances (w_db final.2) !! i = Some r' ∧ i_status r' = "failed").
Proof.
  intros Hr Hrun Hm Hcap Hcount Hts final.
  assert (Hpos : 0 ≤ 0 ≤ max_auto_restarts) by (pose proof max_auto_restarts_pos; lia).
  pose proof (wp_run _ _ _ _ (restarts_wp n i r 0 w Hr (conj Hrun (or_introl (conj eq_refl Hm)))
    Hpos Hcap Hcount) ts Hts) as Hloop.
  by rewrite Z.sub_0_r in Hloop.
Qed.

(** Six restarts under the default cap of five. *)
Lemma crash_loop_ends_witness :
  let final := run (restarts 6 "i") calm_ticks running_world in
  final.1 = 5%nat ∧ ∃ r', instances (w_db final.2) !! "i" = Some r' ∧ i_status r' = "failed".
Proof.
  intros final. split; [vm_compute; reflexivity|].
  apply (crash_loop_ends 6 "i" (row_with "running") calm_ticks running_world);
    [reflexivity|reflexivity|reflexivity|vm_compute; reflexivity
    |vm_compute; discriminate|apply calm_ticks_calm|vm_compute; reflexivity].
Defined.

(** The monitor records a crash.  When the process of the owning monitor exits
    while its instance still is running, the instance is recorded as failed with
    reason "crashed" or, during a drain, as suspended for the shutdown and due for
    a relaunch; the error text says which, and the registry entry is removed. *)
Lemma monitor_records_crash h c r ts w :
  container_registry (w_env w) !! rh_instance_id h = Some c →
  ci_container_id c = rh_handle_id h →
  instances (w_db w) !! rh_instance_id h = Some r → i_status r = "running" →
  (∀ n, calm (ts n)) →
  let final := (run (monitor_exit h) ts w).2 in
  container_registry (w_env final) !! rh_instance_id h = None ∧
  ∃ r' stderr, instances (w_db final) !! rh_instance_id h = Some r' ∧
    i_error r' = Some (crash_error (w_env_draining w) stderr) ∧
    if w_env_draining w
    then i_termination_reason r' = Some "shutdown_requested" ∧
         sleep_due (w_now final) r' = true
    else i_status r' = "failed" ∧ i_termination_reason r' = Some "crashed".
Proof.
  intros Hc Hid Hr Hrun Hts final.
  apply (wp_run calm (monitor_exit h) (λ _ final,
    container_registry (w_env final) !! rh_instance_id h = None ∧
    ∃ r' stderr, instances (w_db final) !! rh_instance_id h = Some r' ∧
      i_error r' = Some (crash_error (w_env_draining w) stderr) ∧
      if w_env_draining w
      then i_termination_reason r' = Some "shutdown_requested" ∧
           sleep_due (w_now final) r' = true
      else i_status r' = "failed" ∧ i_termination_reason r' = Some "crashed"));
    [|done]. apply monitor_exit_wp. intros stderr w1 (He & Hd & _ & Hrow & _).
  destruct (Hrow r Hr) as (r1 & Hr1 & Ho). rewrite <-He in Hc. rewrite <-Hd.
  eapply wp_mono; [|apply (monitor_settle_wp h stderr c r1 w1 Hc Hid Hr1)].
  - intros u w' (? & r' & H'). split; [done|]. by exists r', stderr.
  - unfold outcome in Ho. congruence.
Qed.

Lemma monitor_records_crash_witness :
  let h := {| rh_handle_id := "h"; rh_instance_id := "i"; rh_tenant_id := "acme";
              rh_started_at := 20; rh_spawned_pid := None |} in
  let w := {| running_world with w_env := env_with demo_container; w_env_draining := true |} in
  let final := (run (monitor_exit h) calm_ticks w).2 in
  ∃ r', instances (w_db final) !! "i" = Some r' ∧ sleep_due (w_now final) r' = true.
Proof.
  intros h w final.
  destruct (monitor_records_crash h demo_container (row_with "running") calm_ticks w)
    as (_ & r' & stderr & Hr' & _ & _ & Hd);
    [reflexivity|reflexivity|reflexivity|reflexivity|apply calm_ticks_calm|].
  exists r'. split; [exact Hr'|exact Hd].
Defined.
