(* ===== verification/Dsl.v ===== *)
(** * runtara-dsl: the workflow definition types

    [schema_types.rs]: execution graphs, the fourteen step types, edges, schemas,
    mapping values and conditions, as the validator, the compiler and the condition
    evaluator read them.  Maps of the source ([HashMap]) are [gmap]s.  Steps and
    graphs are mutually inductive: a Split, a While and a WaitForSignal step hold
    subgraphs.  The structures carry every field that decides what a workflow does;
    what is left out is editor data (notes, node positions, the form-rendering
    hints of a schema field). *)

From S2P Require Import Prelude.
From S2P Require Import Json.
From Stdlib Require Import Floats.SpecFloat.

(** ** Mapping values *)

Inductive ValueType := VtString | VtInteger | VtNumber | VtBoolean | VtJson | VtFile.

Record ReferenceValue := {
  ref_value : string;
  ref_type_hint : option ValueType;
  ref_default : option json }.

(** [MappingValue], with the two inner values of a composite. *)
#[warnings="-register-all"]
Inductive MappingValue :=
| Reference (r : ReferenceValue)
| Immediate (value : json)
| CompositeObject (m : gmap string MappingValue)
| CompositeArray (l : list MappingValue)
| Template (value : string).

Definition InputMapping := gmap string MappingValue.

(** ** Variables and schemas *)

Inductive VariableType :=
| VarString | VarNumber | VarInteger | VarBoolean | VarArray | VarObject | VarFile.

Record GraphVariable := {
  var_type : VariableType;
  var_value : json;
  var_description : option string }.

Inductive SchemaFieldType :=
| FtString | FtInteger | FtNumber | FtBoolean | FtArray | FtObject | FtFile | FtConnection.

#[export] Instance schema_field_type_eq_dec : EqDecision SchemaFieldType.
Proof. solve_decision. Defined.

#[warnings="-register-all"]
Inductive SchemaField := {
  field_type : SchemaFieldType;
  field_description : option string;
  required : bool;
  field_default : option json;
  items : option SchemaField;
  enum_values : option (list json);
  field_min : option spec_float;
  field_max : option spec_float;
  field_pattern : option string;
  properties : option (gmap string SchemaField);
  nullable : option bool }.

(** ** Conditions *)

Inductive ConditionOperator :=
| OpAnd | OpOr | OpNot
| OpGt | OpGte | OpLt | OpLte | OpEq | OpNe
| OpStartsWith | OpEndsWith
| OpContains | OpIn | OpNotIn
| OpLength | OpIsDefined | OpIsEmpty | OpIsNotEmpty
| OpSimilarityGte | OpMatch | OpCosineDistanceLte | OpL2DistanceLte.

#[export] Instance condition_operator_eq_dec : EqDecision ConditionOperator.
Proof. solve_decision. Defined.

(** [ConditionExpression]; [ConditionArgument] is a nested expression or a value. *)
#[warnings="-register-all"]
Inductive ConditionExpression :=
| Operation (op : ConditionOperator) (arguments : list ConditionArgument)
| Value (v : MappingValue)
with ConditionArgument :=
| ArgExpression (e : ConditionExpression)
| ArgValue (v : MappingValue).

(** ** Switch configuration *)

Inductive SwitchMatchType :=
| MtGt | MtGte | MtLt | MtLte | MtEq | MtNe | MtStartsWith | MtEndsWith
| MtContains | MtIn | MtNotIn | MtIsDefined | MtIsEmpty | MtIsNotEmpty | MtBetween | MtRange.

Record SwitchCase := {
  case_match_type : SwitchMatchType;
  case_match_value : json;
  case_output : json;
  case_route : option string }.

Record SwitchConfig := {
  sw_value : MappingValue;
  sw_cases : list SwitchCase;
  sw_default : option json }.

Definition is_routing (c : SwitchConfig) : bool :=
  existsb (λ k, bool_decide (is_Some (case_route k))) (sw_cases c).

(** The byte order of [str]. *)
Definition str_le (a b : string) : Prop := String.leb a b = true.

#[export] Instance str_le_dec : RelDecision str_le.
Proof. intros a b. unfold str_le. apply _. Defined.

(** [Vec::dedup]: removes consecutive repetitions. *)
Fixpoint dedup (l : list string) : list string :=
  match l with
  | [] => []
  | x :: l' =>
      match l' with
      | y :: _ => if decide (x = y) then dedup l' else x :: dedup l'
      | [] => [x]
      end
  end.

Definition route_labels (c : SwitchConfig) : list string :=
  dedup (merge_sort str_le (omap case_route (sw_cases c))).

(** ** Steps *)

Record FinishStep := {
  finish_name : option string;
  finish_input_mapping : option InputMapping }.

Record CompensationConfig := {
  compensation_step : string;
  compensation_data : option InputMapping;
  trigger : option string;
  order : option Z }.

Record AgentStep := {
  agent_name : option string;
  agent_id : string;
  capability_id : string;
  agent_connection_id : option string;
  agent_connection_ref : option MappingValue;
  agent_input_mapping : option InputMapping;
  agent_max_retries : option Z;
  agent_retry_delay : option Z;
  agent_timeout : option Z;
  compensation : option CompensationConfig;
  agent_durable : option bool }.

Record ConditionalStep := {
  conditional_name : option string;
  conditional_condition : ConditionExpression }.

Record SplitConfig := {
  split_value : MappingValue;
  parallelism : option Z;
  sequential : option bool;
  dont_stop_on_failed : option bool;
  split_variables : option InputMapping;
  split_max_retries : option Z;
  split_retry_delay : option Z;
  split_timeout : option Z;
  allow_null : option bool;
  convert_single_value : option bool;
  batch_size : option Z }.

(** A Split step, over the type of its subgraph. *)
Record SplitStep (G : Type) := {
  split_name : option string;
  split_subgraph : G;
  split_config : option SplitConfig;
  split_input_schema : gmap string SchemaField;
  split_output_schema : gmap string SchemaField;
  split_durable : option bool }.
Arguments split_name {G}.
Arguments split_subgraph {G}.
Arguments split_config {G}.
Arguments split_input_schema {G}.
Arguments split_output_schema {G}.
Arguments split_durable {G}.

Record SwitchStep := {
  switch_name : option string;
  switch_config : option SwitchConfig }.

Inductive ChildVersion :=
| Latest (s : string)
| Specific (n : Z).

Record EmbedWorkflowStep := {
  embed_name : option string;
  child_workflow_id : string;
  child_version : ChildVersion;
  embed_input_mapping : option InputMapping;
  embed_max_retries : option Z;
  embed_retry_delay : option Z;
  embed_timeout : option Z;
  embed_durable : option bool }.

Record WhileConfig := {
  while_max_iterations : option Z;
  while_variables : option InputMapping;
  while_timeout : option Z }.

(** A While step, over the type of its subgraph. *)
Record WhileStep (G : Type) := {
  while_name : option string;
  while_condition : ConditionExpression;
  while_subgraph : G;
  while_config : option WhileConfig }.
Arguments while_name {G}.
Arguments while_condition {G}.
Arguments while_subgraph {G}.
Arguments while_config {G}.

Inductive LogLevel := LevelDebug | LevelInfo | LevelWarn | LevelError.

Record LogStep := {
  log_name : option string;
  log_level : LogLevel;
  log_message : string;
  log_context : option InputMapping }.

Inductive ErrorCategory := CategoryTransient | CategoryPermanent.

Inductive ErrorSeverity := SeverityInfo | SeverityWarning | SeverityError | SeverityCritical.

Record ErrorStep := {
  error_name : option string;
  error_category : ErrorCategory;
  error_step_code : string;
  error_message : string;
  error_severity : option ErrorSeverity;
  error_context : option InputMapping }.

Record FilterStep := {
  filter_name : option string;
  filter_value : MappingValue;
  filter_condition : ConditionExpression }.

Record GroupByStep := {
  group_name : option string;
  group_value : MappingValue;
  group_key : string;
  expected_keys : option (list string) }.

Record DelayStep := {
  delay_name : option string;
  duration_ms : MappingValue;
  delay_durable : option bool }.

Record WaitForSignalActionConfig := {
  action_key : option string;
  action_correlation : gmap string MappingValue;
  action_context : gmap string MappingValue }.

(** A WaitForSignal step, over the type of its [onWait] graph. *)
Record WaitForSignalStep (G : Type) := {
  wait_name : option string;
  on_wait : option G;
  timeout_ms : option MappingValue;
  poll_interval_ms : option Z;
  response_schema : option (gmap string SchemaField);
  action : option WaitForSignalActionConfig }.
Arguments wait_name {G}.
Arguments on_wait {G}.
Arguments timeout_ms {G}.
Arguments poll_interval_ms {G}.
Arguments response_schema {G}.
Arguments action {G}.

Inductive CompactionStrategy := Summarize | SlidingWindow.

Record CompactionConfig := {
  max_messages : option Z;
  strategy : option CompactionStrategy }.

Record AiAgentMemory := {
  conversation_id : MappingValue;
  compaction : option CompactionConfig }.

Record AiAgentConfig := {
  system_prompt : MappingValue;
  user_prompt : MappingValue;
  legacy_provider : option MappingValue;
  model : option MappingValue;
  ai_max_iterations : option Z;
  temperature : option MappingValue;
  max_tokens : option MappingValue;
  ai_max_retries : option Z;
  ai_retry_delay : option Z;
  turn_timeout : option Z;
  memory : option AiAgentMemory;
  ai_output_schema : option (gmap string SchemaField) }.

Record AiAgentStep := {
  ai_name : option string;
  ai_connection_id : option string;
  ai_connection_ref : option MappingValue;
  ai_config : option AiAgentConfig;
  ai_durable : option bool }.

(** ** Graphs *)

Record ExecutionPlanEdge := {
  from_step : string;
  to_step : string;
  label : option string;
  condition : option ConditionExpression;
  priority : option Z }.

(** The fields of [ExecutionGraph], over the type of its steps.  A step's [id] is its key
    in [gb_steps]; the [breakpoint] flags of the steps are beside the steps, by the id of
    the step. *)
Record GraphBody (S : Type) := {
  gb_steps : gmap string S;
  gb_entry_point : string;
  gb_execution_plan : list ExecutionPlanEdge;
  gb_variables : gmap string GraphVariable;
  gb_input_schema : gmap string SchemaField;
  gb_output_schema : gmap string SchemaField;
  gb_durable : option bool;
  gb_name : option string;
  gb_rate_limit_budget_ms : Z;
  gb_breakpoints : gmap string bool }.
Arguments gb_steps {S}.
Arguments gb_entry_point {S}.
Arguments gb_execution_plan {S}.
Arguments gb_variables {S}.
Arguments gb_input_schema {S}.
Arguments gb_output_schema {S}.
Arguments gb_durable {S}.
Arguments gb_name {S}.
Arguments gb_rate_limit_budget_ms {S}.
Arguments gb_breakpoints {S}.

#[warnings="-register-all"]
Inductive Step :=
| Finish (s : FinishStep)
| Agent (s : AgentStep)
| Conditional (s : ConditionalStep)
| Split (s : SplitStep ExecutionGraph)
| Switch (s : SwitchStep)
| EmbedWorkflow (s : EmbedWorkflowStep)
| While (s : WhileStep ExecutionGraph)
| Log (s : LogStep)
| Error (s : ErrorStep)
| Filter (s : FilterStep)
| GroupBy (s : GroupByStep)
| Delay (s : DelayStep)
| WaitForSignal (s : WaitForSignalStep ExecutionGraph)
| AiAgent (s : AiAgentStep)
with ExecutionGraph :=
| Graph (body : GraphBody Step).

Definition graph_body (graph : ExecutionGraph) : GraphBody Step := let 'Graph body := graph in body.
Definition steps (graph : ExecutionGraph) := gb_steps (graph_body graph).
Definition entry_point (graph : ExecutionGraph) := gb_entry_point (graph_body graph).
Definition execution_plan (graph : ExecutionGraph) := gb_execution_plan (graph_body graph).
Definition variables (graph : ExecutionGraph) := gb_variables (graph_body graph).
Definition input_schema (graph : ExecutionGraph) := gb_input_schema (graph_body graph).
Definition output_schema (graph : ExecutionGraph) := gb_output_schema (graph_body graph).
Definition graph_durable (graph : ExecutionGraph) := gb_durable (graph_body graph).
Definition graph_name (graph : ExecutionGraph) := gb_name (graph_body graph).
Definition rate_limit_budget_ms (graph : ExecutionGraph) := gb_rate_limit_budget_ms (graph_body graph).
Definition breakpoints (graph : ExecutionGraph) := gb_breakpoints (graph_body graph).

Definition default_rate_limit_budget_ms : Z := 60000.

(** A graph with nothing but its control flow. *)
Definition plain_graph (s : gmap string Step) (entry : string) (plan : list ExecutionPlanEdge) :
  ExecutionGraph :=
  Graph {| gb_steps := s; gb_entry_point := entry; gb_execution_plan := plan;
           gb_variables := ∅; gb_input_schema := ∅; gb_output_schema := ∅; gb_durable := None;
           gb_name := None; gb_rate_limit_budget_ms := default_rate_limit_budget_ms;
           gb_breakpoints := ∅ |}.

(** Steps with nothing configured, for small graphs. *)
Definition plain_agent : AgentStep :=
  {| agent_name := None; agent_id := "http"; capability_id := "request";
     agent_connection_id := None; agent_connection_ref := None; agent_input_mapping := None;
     agent_max_retries := None; agent_retry_delay := None; agent_timeout := None;
     compensation := None; agent_durable := None |}.

Definition plain_field (t : SchemaFieldType) : SchemaField :=
  {| field_type := t; field_description := None; required := false; field_default := None;
     items := None; enum_values := None; field_min := None; field_max := None;
     field_pattern := None; properties := None; nullable := None |}.

Definition plain_finish : FinishStep := {| finish_name := None; finish_input_mapping := None |}.

Definition always : ConditionExpression := Value (Immediate (JBool true)).

Definition plain_conditional : ConditionalStep :=
  {| conditional_name := None; conditional_condition := always |}.

(** Plain edges, and an edge with a condition. *)
Definition edge (x y : string) : ExecutionPlanEdge :=
  {| from_step := x; to_step := y; label := None; condition := None; priority := None |}.

Definition conditioned (x y : string) : ExecutionPlanEdge :=
  {| (edge x y) with condition := Some always |}.
