(* ===== verification/GraphOrder.v ===== *)
(** * runtara-workflows: execution order of a graph

    [direct_wasm/graph_order.rs]: the order in which the compiler emits the steps
    of a graph, the classification of branching steps and the point where
    branches merge.

    The two breadth-first loops and Kahn's loop are recursive on a number of
    rounds; every round takes one entry off a queue, and a step enters a queue
    at most once per edge of the plan that leads to it, so one round more than
    the plan has edges, plus one for the start, is enough (proved in
    GraphOrderProperties.v). *)

From S2P Require Import Prelude.
From S2P Require Import Json.
From S2P Require Import Dsl.

Definition is_normal_flow_edge (edge : ExecutionPlanEdge) : bool :=
  let label := default "" (label edge) in
  bool_decide (label = "") || bool_decide (label = "next").

Definition is_branching_step (step : Step) : bool :=
  match step with
  | Conditional _ => true
  | Switch s => match switch_config s with Some c => is_routing c | None => false end
  | _ => false
  end.

Definition branch_labels (step : Step) : list string :=
  match step with
  | Conditional _ => ["true"; "false"]
  | Switch s =>
      let labels := match switch_config s with Some c => route_labels c | None => [] end in
      if bool_decide ("default" ∈ labels) then labels else labels ++ ["default"]
  | _ => []
  end.

Definition has_conditioned_normal_flow_edges (step_id : string) (graph : ExecutionGraph) : bool :=
  existsb (λ edge, bool_decide (from_step edge = step_id) && is_normal_flow_edge edge
                   && bool_decide (is_Some (condition edge))) (execution_plan graph).

(** ** Reachability and merge points *)

(** The edges [collect_reachable_steps] follows from a step. *)
Definition follows (graph : ExecutionGraph) (current : string) (edge : ExecutionPlanEdge) : bool :=
  match steps graph !! current with
  | None => false
  | Some (Finish _) => false
  | Some step =>
      bool_decide (from_step edge = current)
      && (if is_branching_step step
          then existsb (λ l, bool_decide (l = default "" (label edge))) (branch_labels step)
          else is_normal_flow_edge edge)
  end.

(** The loop of [collect_reachable_steps]: [visited] is marked when a step is
    taken off the queue, and [reachable] lists the visited steps in order. *)
Fixpoint collect_loop (fuel : nat) (graph : ExecutionGraph) (reachable : list string)
  (visited : gset string) (queue : list string) : option (list string) :=
  match queue with
  | [] => Some reachable
  | current :: queue =>
      match fuel with
      | O => None
      | S fuel =>
          if decide (current ∈ visited) then collect_loop fuel graph reachable visited queue
          else
            let visited := {[current]} ∪ visited in
            let next :=
              to_step <$> filter (λ edge, follows graph current edge = true ∧
                                    to_step edge ∉ visited) (execution_plan graph) in
            collect_loop fuel graph (reachable ++ [current]) visited (queue ++ next)
      end
  end.

(** Enough rounds for any of the loops. *)
Definition rounds (graph : ExecutionGraph) : nat := S (length (execution_plan graph)).

Definition collect_reachable_steps (start_step_id : string) (graph : ExecutionGraph) :
  list string :=
  default [] (collect_loop (rounds graph) graph [] ∅ [start_step_id]).

(** The first step of the first branch that all other branches reach. *)
Definition find_merge_point_n (branch_starts : list (option string)) (graph : ExecutionGraph) :
  option string :=
  let starts := omap id branch_starts in
  if bool_decide (length starts < 2)%nat then None
  else
    match (λ start, collect_reachable_steps start graph) <$> starts with
    | [] => None
    | first_set :: others =>
        head (filter (λ step_id, Forall (λ set, step_id ∈ set) others) first_set)
    end.

(** ** Execution order *)

(** Traversal stops at an unknown step, at a branching step and at a step with
    conditioned normal-flow edges. *)
Definition stops (graph : ExecutionGraph) (step_id : string) : bool :=
  match steps graph !! step_id with
  | None => true
  | Some step => is_branching_step step || has_conditioned_normal_flow_edges step_id graph
  end.

(** The [for] loop over the plan in the discovery loop: unseen normal-flow
    successors are marked and appended, in the order of the plan. *)
Fixpoint discover_edges (step_id : string) (edges : list ExecutionPlanEdge)
  (reachable : gset string) (found : list string) : gset string * list string :=
  match edges with
  | [] => (reachable, found)
  | edge :: edges =>
      if bool_decide (from_step edge = step_id) && is_normal_flow_edge edge
         && bool_decide (to_step edge ∉ reachable)
      then discover_edges step_id edges ({[to_step edge]} ∪ reachable) (found ++ [to_step edge])
      else discover_edges step_id edges reachable found
  end.

Fixpoint discover_loop (fuel : nat) (graph : ExecutionGraph) (reachable : gset string)
  (discovery_order queue : list string) : option (gset string * list string) :=
  match queue with
  | [] => Some (reachable, discovery_order)
  | step_id :: queue =>
      match fuel with
      | O => None
      | S fuel =>
          if stops graph step_id then discover_loop fuel graph reachable discovery_order queue
          else
            let '(reachable, found) :=
              discover_edges step_id (execution_plan graph) reachable [] in
            discover_loop fuel graph reachable (discovery_order ++ found) (queue ++ found)
      end
  end.

(** The reachable set with the order of discovery. *)
Definition discover (graph : ExecutionGraph) : gset string * list string :=
  default (∅, [])
    (discover_loop (rounds graph) graph {[entry_point graph]} [entry_point graph]
       [entry_point graph]).

(** [*indegree.entry(to).or_insert(0) += 1] for every counted edge. *)
Fixpoint count_indegree (edges : list ExecutionPlanEdge) (reachable : gset string)
  (indegree : gmap string nat) : gmap string nat :=
  match edges with
  | [] => indegree
  | edge :: edges =>
      count_indegree edges reachable
        (if is_normal_flow_edge edge && bool_decide (from_step edge ∈ reachable)
            && bool_decide (to_step edge ∈ reachable)
         then <[to_step edge := S (default O (indegree !! to_step edge))]> indegree
         else indegree)
  end.

Definition initial_indegree (graph : ExecutionGraph) (reachable : gset string)
  (discovery_order : list string) : gmap string nat :=
  count_indegree (execution_plan graph) reachable
    (list_to_map ((λ s, (s, O)) <$> discovery_order)).

(** The [for] loop over the plan in Kahn's loop: counts go down, and steps whose
    count reaches zero are queued once. *)
Fixpoint release_edges (step_id : string) (edges : list ExecutionPlanEdge)
  (reachable : gset string) (indegree : gmap string nat) (queued : gset string)
  (released : list string) : gmap string nat * gset string * list string :=
  match edges with
  | [] => (indegree, queued, released)
  | edge :: edges =>
      if negb (bool_decide (from_step edge = step_id)) || negb (is_normal_flow_edge edge)
         || negb (bool_decide (to_step edge ∈ reachable))
      then release_edges step_id edges reachable indegree queued released
      else
        match indegree !! to_step edge with
        | None => release_edges step_id edges reachable indegree queued released
        | Some count =>
            let count := Nat.pred count in
            let indegree := <[to_step edge := count]> indegree in
            if bool_decide (count = O) && bool_decide (to_step edge ∉ queued)
            then release_edges step_id edges reachable indegree ({[to_step edge]} ∪ queued)
                   (released ++ [to_step edge])
            else release_edges step_id edges reachable indegree queued released
        end
  end.

Fixpoint kahn_loop (fuel : nat) (graph : ExecutionGraph) (reachable : gset string)
  (indegree : gmap string nat) (queued : gset string) (order ready : list string) :
  option (gset string * list string) :=
  match ready with
  | [] => Some (queued, order)
  | step_id :: ready =>
      match fuel with
      | O => None
      | S fuel =>
          let order := order ++ [step_id] in
          if stops graph step_id then kahn_loop fuel graph reachable indegree queued order ready
          else
            let '(indegree, queued, released) :=
              release_edges step_id (execution_plan graph) reachable indegree queued [] in
            kahn_loop fuel graph reachable indegree queued order (ready ++ released)
      end
  end.

Definition build_execution_order (graph : ExecutionGraph) : list string :=
  let '(reachable, discovery_order) := discover graph in
  let indegree := initial_indegree graph reachable discovery_order in
  let '(ready, queued) :=
    if decide (entry_point graph ∈ reachable)
    then ([entry_point graph], {[entry_point graph]} : gset string) else ([], ∅) in
  let '(queued, order) :=
    default (∅, []) (kahn_loop (rounds graph) graph reachable indegree queued [] ready) in
  order ++ filter (λ s, s ∉ queued) discovery_order.
