(* ===== verification/GraphOrderProperties.v ===== *)
(** * Properties of the execution order

    [direct_wasm/graph_order.rs]: the traversals end and are exact, the merge
    point is the nearest common step, and the execution order is a topological
    order of the reachable normal flow. *)

From S2P Require Import Prelude.
From S2P Require Import Json.
From S2P Require Import Dsl.
From S2P Require Import GraphOrder.

(** ** Vocabulary of the statements *)

(** One step of [collect_reachable_steps]. *)
Definition branch_edge (g : ExecutionGraph) (x y : string) : Prop :=
  ∃ e, e ∈ execution_plan g ∧ follows g x e = true ∧ to_step e = y.

(** A normal-flow edge of the plan. *)
Definition normal_edge (g : ExecutionGraph) (x y : string) : Prop :=
  ∃ e, e ∈ execution_plan g ∧ is_normal_flow_edge e = true ∧ from_step e = x ∧ to_step e = y.

(** A normal-flow edge the traversal follows. *)
Definition flow (g : ExecutionGraph) (x y : string) : Prop :=
  stops g x = false ∧ normal_edge g x y.

(** The steps the order is about. *)
Definition in_flow (g : ExecutionGraph) (x : string) : Prop := rtc (flow g) (entry_point g) x.

(** A normal-flow edge between two reachable steps, as the in-degrees count it. *)
Definition depends (g : ExecutionGraph) (x y : string) : Prop :=
  normal_edge g x y ∧ in_flow g x ∧ in_flow g y.

(** [x] comes before [y] in [l]. *)
Definition before (l : list string) (x y : string) : Prop :=
  ∃ l1 l2, l = l1 ++ l2 ∧ x ∈ l1 ∧ y ∈ l2.

(** Plan edges that leave an unvisited step, or lead to one. *)
Definition edges_from (g : ExecutionGraph) (visited : gset string) : nat :=
  length (filter (λ e, from_step e ∉ visited) (execution_plan g)).

Definition edges_to (es : list ExecutionPlanEdge) (seen : gset string) : nat :=
  length (filter (λ e, to_step e ∉ seen) es).

(** The number of normal-flow edges from [s] to [t] in [es]. *)
Definition edges_between (s t : string) (es : list ExecutionPlanEdge) : nat :=
  length (filter (λ e, from_step e = s ∧ is_normal_flow_edge e = true ∧ to_step e = t) es).

(** The counted edges into [t] from steps that are not done. *)
Definition pending (g : ExecutionGraph) (R : gset string) (done : list string) (t : string) :
  nat :=
  length (filter (λ e, is_normal_flow_edge e = true ∧ from_step e ∈ R ∧ to_step e = t ∧
                       from_step e ∉ done) (execution_plan g)).

(** What holds between two rounds of [kahn_loop]. *)
Record queueing (R : gset string) (deg : gmap string nat) (Q : gset string)
  (order ready : list string) : Prop := {
  qu_nodup : NoDup (order ++ ready);
  qu_queued x : x ∈ Q ↔ x ∈ order ++ ready;
  qu_sub x : x ∈ order ++ ready → x ∈ R;
  qu_deg t : t ∈ R → is_Some (deg !! t) }.

(** No counted edge leaves a step at which the traversal stops. *)
Definition unbranched (g : ExecutionGraph) : Prop :=
  ∀ x y, depends g x y → stops g x = false.

(** The counts are exact, and what is queued waits for nothing. *)
Record sorting (g : ExecutionGraph) (R : gset string) (deg : gmap string nat)
  (order ready : list string) : Prop := {
  so_count t : t ∈ R → deg !! t = Some (pending g R order t);
  so_ready s t : t ∈ ready → t ≠ entry_point g → depends g s t → s ∈ order;
  so_before s t : t ∈ order → t ≠ entry_point g → depends g s t → before order s t;
  so_left t : t ∈ R → t ∉ order ++ ready → pending g R order t ≠ O }.

(** What holds between two rounds of [collect_loop] started at [start]. *)
Record collecting (g : ExecutionGraph) (start : string) (reachable : list string)
  (visited : gset string) (queue : list string) : Prop := {
  co_nodup : NoDup reachable;
  co_visited x : x ∈ visited ↔ x ∈ reachable;
  co_start : start ∈ visited ∨ start ∈ queue;
  co_closed x y : x ∈ visited → branch_edge g x y → y ∈ visited ∨ y ∈ queue;
  co_sound x : x ∈ visited ∨ x ∈ queue → rtc (branch_edge g) start x }.

(** What holds between two rounds of [discover_loop]. *)
Record discovering (g : ExecutionGraph) (reachable : gset string)
  (order processed queue : list string) : Prop := {
  di_order : order = processed ++ queue;
  di_nodup : NoDup order;
  di_reachable x : x ∈ reachable ↔ x ∈ order;
  di_start : entry_point g ∈ order;
  di_closed x y : x ∈ processed → flow g x y → y ∈ order;
  di_sound x : x ∈ order → in_flow g x }.

(** A diamond with a long and a short side, listed short side first. *)
Definition diamond : ExecutionGraph :=
  plain_graph {["a" := Agent plain_agent; "b" := Agent plain_agent; "c" := Agent plain_agent;
                "d" := Finish plain_finish]} "a"
    [edge "a" "d"; edge "a" "b"; edge "b" "c"; edge "c" "d"].

(** ["s"] leaves by conditioned edges; ["m"] is also reached around it, and
    ["z"] follows ["m"] but is discovered first. *)
Definition guarded_fan_in : ExecutionGraph :=
  plain_graph {["e" := Agent plain_agent; "s" := Agent plain_agent; "t" := Agent plain_agent;
                "m" := Agent plain_agent; "z" := Finish plain_finish]} "e"
    [edge "e" "z"; edge "e" "s"; edge "e" "t"; conditioned "s" "m"; edge "t" "m"; edge "m" "z"].

(** A conditional whose branches meet in ["j"]. *)
Definition branching : ExecutionGraph :=
  plain_graph {["c" := Conditional plain_conditional; "x" := Agent plain_agent;
                "y" := Agent plain_agent; "j" := Agent plain_agent;
                "f" := Finish plain_finish]} "c"
    [{| (edge "c" "x") with label := Some "true" |};
     {| (edge "c" "y") with label := Some "false" |};
     edge "x" "j"; edge "y" "j"; edge "j" "f"].

(** ** Breadth-first reachability *)

Lemma follows_from g x e : follows g x e = true → from_step e = x.
Proof.
  unfold follows. destruct (steps g !! x) as [[]|]; try done;
    intros [H _]%andb_true_iff; by apply bool_decide_eq_true in H.
Qed.

(** An empty queue: everything reachable was visited. *)
Lemma collected_all g start reachable visited :
  collecting g start reachable visited [] →
  NoDup reachable ∧ ∀ x, x ∈ reachable ↔ rtc (branch_edge g) start x.
Proof.
  intros [H1 H2 H3 H4 H5]. split; [done|]. intros x. rewrite <-H2.
  split; [intros Hx; apply H5; by left|].
  assert (Hstart : start ∈ visited) by (destruct H3 as [|H%not_elem_of_nil]; done).
  clear H1 H2 H3 H5. intros Hx. induction Hx as [a|a b c Hab Hbc IH]; [done|].
  apply IH. destruct (H4 a b Hstart Hab) as [|H%not_elem_of_nil]; done.
Qed.

Lemma collect_loop_exact fuel g start reachable visited queue :
  collecting g start reachable visited queue →
  (length queue + edges_from g visited ≤ fuel)%nat →
  ∃ l, collect_loop fuel g reachable visited queue = Some l ∧ NoDup l ∧
    ∀ x, x ∈ l ↔ rtc (branch_edge g) start x.
Proof.
  revert reachable visited queue. induction fuel as [|fuel IH];
    intros reachable visited [|x queue] Hc Hfuel; simpl in Hfuel; try lia.
  1,2: exists reachable; split; [done|]; by eapply collected_all.
  simpl. case_decide as Hx.
  - apply IH; [|lia]. destruct Hc as [H1 H2 H3 H4 H5].
    assert (Hq : ∀ y, y ∈ visited ∨ y ∈ x :: queue → y ∈ visited ∨ y ∈ queue) by set_solver.
    split; [done|done|by apply Hq|intros; apply Hq; eauto|].
    intros y [Hy|Hy]; apply H5; [by left|right; by right].
  - set (next := to_step <$> filter _ (execution_plan g)).
    assert (Hnext : ∀ y, y ∈ next ↔ branch_edge g x y ∧ y ∉ {[x]} ∪ visited).
    { intros y. unfold next. rewrite list_elem_of_fmap. setoid_rewrite list_elem_of_filter.
      unfold branch_edge. naive_solver. }
    apply IH.
    + destruct Hc as [H1 H2 H3 H4 H5]. split.
      * apply NoDup_app. split; [done|]. split; [|apply NoDup_singleton].
        intros y Hy Hyx%list_elem_of_singleton. subst y. apply Hx. by apply H2.
      * intros y. rewrite elem_of_union, elem_of_singleton, elem_of_app, list_elem_of_singleton.
        rewrite H2. tauto.
      * set_solver.
      * intros y z Hy Hyz. destruct (decide (z ∈ ({[x]} ∪ visited : gset string))) as [|Hz];
          [by left|]. right. apply elem_of_app.
        apply elem_of_union in Hy as [->%elem_of_singleton|Hy]; [right; by apply Hnext|].
        destruct (H4 y z Hy Hyz) as [Hv|[->|Hq]%elem_of_cons]; [set_solver|set_solver|by left].
      * assert (Hrx : rtc (branch_edge g) start x) by (apply H5; right; left).
        intros y [[->%elem_of_singleton|Hy]%elem_of_union|[Hy|Hy]%elem_of_app]; [done| | |].
        -- apply H5. by left.
        -- apply H5. right. by right.
        -- apply Hnext in Hy as [Hy _]. by eapply rtc_r.
    + unfold next. rewrite length_app, length_fmap.
      assert (Hle : (length (filter (λ edge, follows g x edge = true ∧
          to_step edge ∉ {[x]} ∪ visited) (execution_plan g))
        + edges_from g ({[x]} ∪ visited) ≤ edges_from g visited)%nat).
      { apply filter_length_split.
        - intros e [He _] Hn. apply follows_from in He. set_solver.
        - intros e [[He _]|He]; [apply follows_from in He; congruence|set_solver]. }
      simpl in *. lia.
Qed.

Lemma collect_exact g start :
  NoDup (collect_reachable_steps start g) ∧
  ∀ x, x ∈ collect_reachable_steps start g ↔ rtc (branch_edge g) start x.
Proof.
  destruct (collect_loop_exact (rounds g) g start [] ∅ [start]) as (l & Hl & H).
  - split; [constructor|set_solver|right; left|set_solver|].
    intros x [H|H]; [set_solver|]. apply list_elem_of_singleton in H as ->. apply rtc_refl.
  - unfold edges_from, rounds. simpl. apply le_n_S, length_filter.
  - unfold collect_reachable_steps. rewrite Hl. exact H.
Qed.

(** ** Discovery *)

Lemma discover_edges_spec step_id es reachable found :
  ∃ new reachable',
    discover_edges step_id es reachable found = (reachable', found ++ new) ∧ NoDup new ∧
    (∀ x, x ∈ new → x ∉ reachable) ∧ (∀ x, x ∈ reachable' ↔ x ∈ reachable ∨ x ∈ new) ∧
    (∀ e, e ∈ es → from_step e = step_id → is_normal_flow_edge e = true →
       to_step e ∈ reachable') ∧
    (∀ x, x ∈ new → ∃ e, e ∈ es ∧ from_step e = step_id ∧ is_normal_flow_edge e = true ∧
       to_step e = x) ∧
    (length new + edges_to es reachable' ≤ edges_to es reachable)%nat.
Proof.
  revert reachable found. induction es as [|e es IH]; intros reachable found; simpl.
  { exists [], reachable. rewrite app_nil_r. repeat split; try set_solver; try constructor. }
  destruct (bool_decide (from_step e = step_id) && is_normal_flow_edge e
            && bool_decide (to_step e ∉ reachable)) eqn:Hc.
  - apply andb_true_iff in Hc as [[Hf Hn]%andb_true_iff Ht].
    apply bool_decide_eq_true in Hf, Ht.
    destruct (IH ({[to_step e]} ∪ reachable) (found ++ [to_step e]))
      as (new & R & -> & Hnd & Hnew & HR & Hcl & Hsound & Hlen).
    exists (to_step e :: new), R. rewrite <-(assoc_L (++)). simpl.
    split; [done|]. split; [constructor; [set_solver|done]|].
    split; [set_solver|]. split; [set_solver|].
    split; [intros e' [->|He']%elem_of_cons; [set_solver|eauto]|].
    split; [intros x [->|Hx]%elem_of_cons; [exists e; set_solver|]; naive_solver set_solver|].
    unfold edges_to in *. rewrite (filter_cons_True (λ e', to_step e' ∉ reachable)) by done.
    rewrite filter_cons_False by set_solver. simpl.
    pose proof (filter_length_le (λ e', to_step e' ∉ {[to_step e]} ∪ reachable)
      (λ e', to_step e' ∉ reachable) es ltac:(set_solver)). lia.
  - destruct (IH reachable found) as (new & R & -> & Hnd & Hnew & HR & Hcl & Hsound & Hlen).
    exists new, R. split; [done|]. split; [done|]. split; [done|]. split; [done|].
    split; [|split].
    + intros e' [->|He']%elem_of_cons Hf Hn; [|eauto].
      destruct (decide (to_step e ∈ reachable)) as [Hr|Hr]; [apply HR; by left|].
      rewrite Hf, Hn, !bool_decide_true in Hc by done. done.
    + intros x Hx. destruct (Hsound x Hx) as (e' & ? & ?). exists e'. set_solver.
    + unfold edges_to in *. rewrite !filter_cons. repeat case_decide; simpl; try lia; set_solver.
Qed.

Lemma discover_loop_exact fuel g reachable order processed queue :
  discovering g reachable order processed queue →
  (length queue + edges_to (execution_plan g) reachable ≤ fuel)%nat →
  ∃ R l, discover_loop fuel g reachable order queue = Some (R, l) ∧ discovering g R l l [].
Proof.
  revert reachable order processed queue. induction fuel as [|fuel IH];
    intros reachable order processed [|x queue] Hd Hfuel; simpl in Hfuel; try lia.
  1,2: exists reachable, order; split; [done|]; destruct Hd as [-> H2 H3 H4 H5 H6];
    rewrite app_nil_r in *; split; by rewrite ?app_nil_r.
  destruct Hd as [-> H2 H3 H4 H5 H6]. simpl. destruct (stops g x) eqn:Hstop.
  - apply (IH _ _ (processed ++ [x])); [|lia]. split; try done; [by rewrite <-(assoc_L (++))|].
    intros a b [Ha| ->%list_elem_of_singleton]%elem_of_app Hab; [eauto|].
    destruct Hab as [Hs _]. congruence.
  - destruct (discover_edges_spec x (execution_plan g) reachable [])
      as (new & R & -> & Hnd & Hnew & HR & Hcl & Hsound & Hlen). simpl.
    apply (IH _ _ (processed ++ [x])); [|rewrite length_app; lia]. split.
    + by rewrite <-!(assoc_L (++)).
    + apply NoDup_app. split; [done|]. split; [|done]. intros y Hy Hn.
      apply (Hnew y Hn). by apply H3.
    + intros y. rewrite HR, H3, !elem_of_app. tauto.
    + apply elem_of_app. by left.
    + intros a b [Ha| ->%list_elem_of_singleton]%elem_of_app Hab.
      * apply elem_of_app. left. eauto.
      * destruct Hab as [_ (e & He & Hn & Hf & <-)].
        specialize (Hcl e He Hf Hn). rewrite HR, H3 in Hcl. by apply elem_of_app.
    + intros y [Hy|Hy]%elem_of_app; [by apply H6|].
      destruct (Hsound y Hy) as (e & He & Hf & Hn & Ht).
      assert (Hx : in_flow g x) by (apply H6; set_solver).
      unfold in_flow. eapply rtc_r; [exact Hx|]. split; [done|]. by exists e.
Qed.

Lemma discover_exact g :
  ∃ R l, discover g = (R, l) ∧ NoDup l ∧ (∀ x, x ∈ R ↔ in_flow g x) ∧
    (∀ x, x ∈ l ↔ in_flow g x).
Proof.
  destruct (discover_loop_exact (rounds g) g {[entry_point g]} [entry_point g] []
    [entry_point g]) as (R & l & Hl & [_ H2 H3 H4 H5 H6]).
  - split; try done; [apply NoDup_singleton|set_solver|set_solver|set_solver|].
    intros x ->%list_elem_of_singleton. apply rtc_refl.
  - unfold edges_to, rounds. simpl. apply le_n_S, length_filter.
  - exists R, l. unfold discover. rewrite Hl. split; [done|]. split; [done|].
    assert (Hin : ∀ x, x ∈ l ↔ in_flow g x); [|by split; [intros x; rewrite H3|]].
    intros x. split; [apply H6|]. intros Hx. unfold in_flow in Hx. clear - Hx H4 H5.
    induction Hx as [a|a b c Hab Hbc IH]; [done|]. apply IH; eauto.
Qed.

(** ** Kahn's loop *)

Lemma edges_between_cons s t e es :
  from_step e = s → is_normal_flow_edge e = true →
  edges_between s t (e :: es) =
    ((if decide (to_step e = t) then 1 else 0) + edges_between s t es)%nat.
Proof.
  intros Hf Hn. unfold edges_between. rewrite filter_cons.
  case_decide as H1; case_decide as H2; simpl; try done; exfalso; naive_solver.
Qed.

Lemma edges_between_skip s t e es :
  ¬ (from_step e = s ∧ is_normal_flow_edge e = true ∧ to_step e = t) →
  edges_between s t (e :: es) = edges_between s t es.
Proof. intros Hn. unfold edges_between. by rewrite filter_cons_False. Qed.

(** One decrement, then those of the remaining edges. *)
Lemma release_counts s e es (R : gset string) (deg d : gmap string nat) n0 :
  from_step e = s → is_normal_flow_edge e = true → deg !! to_step e = Some n0 →
  (∀ t n, t ∈ R → <[to_step e := Nat.pred n0]> deg !! t = Some n →
     d !! t = Some (n - edges_between s t es)%nat) →
  ∀ t n, t ∈ R → deg !! t = Some n → d !! t = Some (n - edges_between s t (e :: es))%nat.
Proof.
  intros Hf Hn Hn0 Hd t n Ht Hdeg. rewrite edges_between_cons by done. case_decide as Hu.
  - subst t. rewrite Hn0 in Hdeg. injection Hdeg as <-.
    rewrite (Hd _ (Nat.pred n0) Ht) by apply lookup_insert_eq. f_equal. lia.
  - by rewrite (Hd t n Ht) by (by rewrite lookup_insert_ne).
Qed.

Lemma release_complete s e es (R Q' : gset string) (deg d : gmap string nat) n0 :
  from_step e = s → is_normal_flow_edge e = true →
  (∀ t n, t ∈ R → <[to_step e := Nat.pred n0]> deg !! t = Some n →
     d !! t = Some (n - edges_between s t es)%nat) →
  to_step e ∈ Q' ∨ Nat.pred n0 ≠ O →
  (∀ t, t ∈ R → d !! t = Some O → (0 < edges_between s t es)%nat → t ∈ Q') →
  ∀ t, t ∈ R → d !! t = Some O → (0 < edges_between s t (e :: es))%nat → t ∈ Q'.
Proof.
  intros Hf Hn Hd Hu Hes t Ht Hz Hpos. rewrite edges_between_cons in Hpos by done.
  case_decide as Hut; [|by apply Hes]. subst t. destruct Hu as [Hu|Hu]; [done|].
  apply Hes; [done|done|].
  rewrite (Hd _ (Nat.pred n0) Ht) in Hz by apply lookup_insert_eq. injection Hz as Hz. lia.
Qed.

(** What releasing the edges of [s] does to the counts and the queue. *)
Lemma release_edges_spec s es R deg Q rel :
  (∀ t, t ∈ R → is_Some (deg !! t)) →
  ∃ deg' Q' new,
    release_edges s es R deg Q rel = (deg', Q', rel ++ new) ∧ NoDup new ∧
    (∀ x, x ∈ Q' ↔ x ∈ Q ∨ x ∈ new) ∧
    (∀ x, x ∈ new → (x ∉ Q) ∧ x ∈ R ∧ deg' !! x = Some O) ∧
    (∀ t n, t ∈ R → deg !! t = Some n → deg' !! t = Some (n - edges_between s t es)%nat) ∧
    (∀ t, t ∈ R → deg' !! t = Some O → (0 < edges_between s t es)%nat → t ∈ Q').
Proof.
  revert deg Q rel. induction es as [|e es IH]; intros deg Q rel Hdeg.
  { exists deg, Q, []. rewrite app_nil_r. unfold edges_between. simpl.
    split; [done|]. split; [constructor|]. split; [set_solver|]. split; [set_solver|].
    split; [intros t n _ H; by rewrite Nat.sub_0_r|]. intros. lia. }
  cbn [release_edges].
  destruct (negb (bool_decide (from_step e = s)) || negb (is_normal_flow_edge e)
    || negb (bool_decide (to_step e ∈ R))) eqn:Hc.
  { assert (Hskip : ∀ t, t ∈ R → edges_between s t (e :: es) = edges_between s t es).
    { intros t Ht. apply edges_between_skip. intros (H1 & H2 & <-).
      by rewrite H2, !bool_decide_true in Hc. }
    destruct (IH deg Q rel Hdeg) as (d & Q' & new & -> & H1 & H2 & H3 & H4 & H5).
    exists d, Q', new. split; [done|]. split; [done|]. split; [done|]. split; [done|].
    split; [intros t n Ht; rewrite Hskip by done; by apply H4|].
    intros t Ht. rewrite Hskip by done. by apply H5. }
  apply orb_false_iff in Hc as [[Hf Hn]%orb_false_iff HtR].
  apply negb_false_iff in Hf, Hn, HtR. apply bool_decide_eq_true in Hf, HtR.
  destruct (Hdeg (to_step e) HtR) as [n0 Hn0]. rewrite Hn0. cbn zeta.
  assert (Hdeg1 : ∀ t, t ∈ R → is_Some (<[to_step e := Nat.pred n0]> deg !! t)).
  { intros t Ht. destruct (decide (to_step e = t)) as [->|Hne];
      [rewrite lookup_insert_eq; eauto|rewrite lookup_insert_ne by done; by apply Hdeg]. }
  destruct (bool_decide (Nat.pred n0 = O) && bool_decide (to_step e ∉ Q)) eqn:Hz.
  - apply andb_true_iff in Hz as [Hz HQ]. apply bool_decide_eq_true in Hz, HQ.
    destruct (IH _ ({[to_step e]} ∪ Q) (rel ++ [to_step e]) Hdeg1)
      as (d & Q' & new & -> & H1 & H2 & H3 & H4 & H5).
    exists d, Q', (to_step e :: new). rewrite <-(assoc_L (++)). split; [done|].
    split; [constructor; [|done]; intros Hin; apply H3 in Hin; set_solver|].
    split; [set_solver|]. split.
    { intros x [->|Hx]%elem_of_cons; [|apply H3 in Hx; set_solver].
      split; [done|]. split; [done|].
      rewrite (H4 (to_step e) (Nat.pred n0)) by (done || apply lookup_insert_eq). f_equal. lia. }
    split; [by apply (release_counts s e es R deg d n0)|].
    apply (release_complete s e es R Q' deg d n0); try done. left. set_solver.
  - destruct (IH _ Q rel Hdeg1) as (d & Q' & new & -> & H1 & H2 & H3 & H4 & H5).
    exists d, Q', new. split; [done|]. split; [done|]. split; [done|]. split; [done|].
    split; [by apply (release_counts s e es R deg d n0)|].
    apply (release_complete s e es R Q' deg d n0); try done.
    apply andb_false_iff in Hz as [Hz|Hz]; apply bool_decide_eq_false in Hz; [by right|].
    left. apply H2. left. by destruct (decide (to_step e ∈ Q)).
Qed.

Lemma edges_between_pos g s t :
  (0 < edges_between s t (execution_plan g))%nat ↔ normal_edge g s t.
Proof.
  unfold edges_between, normal_edge. split.
  - intros Hpos. destruct (filter _ (execution_plan g)) as [|e l] eqn:E; [simpl in Hpos; lia|].
    assert (He : e ∈ e :: l) by left. rewrite <-E in He.
    apply list_elem_of_filter in He as [(? & ? & ?) ?]. by exists e.
  - intros (e & He & Hn & Hf & Ht).
    assert (He' : e ∈ filter (λ e, from_step e = s ∧ is_normal_flow_edge e = true ∧
      to_step e = t) (execution_plan g)) by by apply list_elem_of_filter.
    destruct (filter _ (execution_plan g)); [by apply not_elem_of_nil in He'|simpl; lia].
Qed.

Lemma pending_step g (R : gset string) order s t :
  s ∈ R → s ∉ order →
  pending g R order t = (edges_between s t (execution_plan g) + pending g R (order ++ [s]) t)%nat.
Proof.
  intros Hs Hn. unfold pending, edges_between.
  induction (execution_plan g) as [|e es IH]; [done|]. rewrite !filter_cons.
  repeat case_decide; simpl; rewrite ?IH; try lia; exfalso; set_solver.
Qed.

(** A step that waits has an unfinished predecessor. *)
Lemma pending_pos g (R : gset string) order t :
  (∀ x, x ∈ R ↔ in_flow g x) → t ∈ R → pending g R order t ≠ O →
  ∃ s, depends g s t ∧ s ∉ order.
Proof.
  intros HR Ht Hp. unfold pending in Hp.
  destruct (filter _ (execution_plan g)) as [|e l] eqn:E; [done|].
  assert (He : e ∈ e :: l) by left. rewrite <-E in He.
  apply list_elem_of_filter in He as [(? & ? & ? & ?) ?].
  exists (from_step e). split; [|done]. split; [by exists e|]. split; by apply HR.
Qed.

Lemma pending_none g (R : gset string) order t s :
  (∀ x, x ∈ R ↔ in_flow g x) → pending g R order t = O → depends g s t → s ∈ order.
Proof.
  intros HR Hp ((e & He & Hn & Hf & Ht) & Hs & _). destruct (decide (s ∈ order)) as [|Hd]; [done|].
  assert (He' : e ∈ filter (λ e, is_normal_flow_edge e = true ∧ from_step e ∈ R ∧
    to_step e = t ∧ from_step e ∉ order) (execution_plan g)).
  { apply list_elem_of_filter. rewrite Hf. split; [|done]. split; [done|].
    split; [by apply HR|done]. }
  unfold pending in Hp. destruct (filter _ (execution_plan g)); [by apply not_elem_of_nil in He'|done].
Qed.

Lemma before_app l k x y : before l x y → before (l ++ k) x y.
Proof.
  intros (l1 & l2 & -> & Hx & Hy). exists l1, (l2 ++ k). rewrite <-(assoc_L (++)).
  split; [done|]. split; [done|]. apply elem_of_app. by left.
Qed.

Lemma before_last l x y : x ∈ l → before (l ++ [y]) x y.
Proof. intros Hx. exists l, [y]. split; [done|]. split; [done|left]. Qed.

Section kahn.
Context (g : ExecutionGraph) (R : gset string) (found : list string).
Hypothesis HR : ∀ x, x ∈ R ↔ in_flow g x.
Hypothesis Hfound : ∀ x, x ∈ found ↔ in_flow g x.
Hypothesis Hnodup : NoDup found.

(** Steps that were never queued. *)
#[local] Abbreviation unqueued Q := (length (filter (λ x, x ∉ Q) found)).

Lemma unqueued_release (Q Q' : gset string) new :
  NoDup new → (∀ x, x ∈ Q' ↔ x ∈ Q ∨ x ∈ new) → (∀ x, x ∈ new → (x ∉ Q) ∧ x ∈ R) →
  (length new + unqueued Q' ≤ unqueued Q)%nat.
Proof.
  intros Hnd HQ Hnew. rewrite <-length_app. apply submseteq_length, NoDup_submseteq.
  - apply NoDup_app. split; [done|]. split; [|by apply NoDup_filter].
    intros x Hx [Hx' _]%list_elem_of_filter. apply Hx', HQ. by right.
  - intros x [Hx|[Hx Hf]%list_elem_of_filter]%elem_of_app; apply list_elem_of_filter.
    + destruct (Hnew x Hx). split; [done|]. by apply Hfound, HR.
    + split; [|done]. intros Hq. apply Hx, HQ. by left.
Qed.

(** Taking a step at which the traversal stops off the queue. *)
Lemma sorting_stop deg order x ready :
  unbranched g → x ∈ R → x ∉ order → stops g x = true →
  sorting g R deg order (x :: ready) → sorting g R deg (order ++ [x]) ready.
Proof.
  intros Hun Hx Hnew Hst [H1 H2 H3 H4].
  assert (Hpend : ∀ t, t ∈ R → pending g R order t = pending g R (order ++ [x]) t).
  { intros t Ht. rewrite (pending_step g R order x t Hx Hnew).
    destruct (decide (edges_between x t (execution_plan g) = O)) as [->|Hne]; [done|].
    assert (He : normal_edge g x t) by (apply edges_between_pos; lia).
    assert (Hd : depends g x t) by (split; [done|split; by apply HR]).
    specialize (Hun x t Hd). congruence. }
  split.
  - intros t Ht. rewrite <-Hpend by done. by apply H1.
  - intros s t Ht Hne Hd. apply elem_of_app. left. apply (H2 s t); [by right|done|done].
  - intros s t [Ht| ->%list_elem_of_singleton]%elem_of_app Hne Hd; [by apply before_app, H3|].
    apply before_last. apply (H2 s x); [left|done|done].
  - intros t Ht Hn. rewrite <-Hpend by done. apply H4; [done|].
    by rewrite <-(assoc_L (++)) in Hn.
Qed.

(** Taking any other step off the queue and releasing its edges. *)
Lemma sorting_release deg deg' (Q Q' : gset string) order x ready new :
  x ∈ R → x ∉ order → (∀ y, y ∈ Q ↔ y ∈ order ++ x :: ready) →
  (∀ y, y ∈ Q' ↔ y ∈ Q ∨ y ∈ new) →
  (∀ y, y ∈ new → (y ∉ Q) ∧ y ∈ R ∧ deg' !! y = Some O) →
  (∀ t n, t ∈ R → deg !! t = Some n →
     deg' !! t = Some (n - edges_between x t (execution_plan g))%nat) →
  (∀ t, t ∈ R → deg' !! t = Some O → (0 < edges_between x t (execution_plan g))%nat → t ∈ Q') →
  sorting g R deg order (x :: ready) → sorting g R deg' (order ++ [x]) (ready ++ new).
Proof.
  intros Hx Hnew HQ HQ' Hrel Hdeg Hcomp [H1 H2 H3 H4].
  assert (Hcount : ∀ t, t ∈ R → deg' !! t = Some (pending g R (order ++ [x]) t)).
  { intros t Ht. rewrite (Hdeg t _ Ht (H1 t Ht)), (pending_step g R order x t Hx Hnew).
    f_equal. lia. }
  split; [done| | |].
  - intros s t [Ht|Ht]%elem_of_app Hne Hd.
    + apply elem_of_app. left. apply (H2 s t); [by right|done|done].
    + destruct (Hrel t Ht) as (_ & HtR & Hz). rewrite Hcount in Hz by done. injection Hz as Hz.
      by apply (pending_none g R _ t s HR).
  - intros s t [Ht| ->%list_elem_of_singleton]%elem_of_app Hne Hd; [by apply before_app, H3|].
    apply before_last. apply (H2 s x); [left|done|done].
  - intros t Ht Hn Hz.
    assert (Hnq : t ∉ Q').
    { intros Hq. apply HQ' in Hq as [Hq|Hq]; [apply HQ in Hq|]; set_solver. }
    assert (Hno : edges_between x t (execution_plan g) = O).
    { destruct (edges_between x t (execution_plan g)) as [|k] eqn:E; [done|]. exfalso.
      apply Hnq, Hcomp; [done| |lia]. by rewrite Hcount, Hz. }
    apply (H4 t Ht); [set_solver|]. by rewrite (pending_step g R order x t Hx Hnew), Hno, Hz.
Qed.

Lemma kahn_loop_spec fuel deg Q order ready :
  queueing R deg Q order ready → (length ready + unqueued Q ≤ fuel)%nat →
  ∃ Q' order' deg', kahn_loop fuel g R deg Q order ready = Some (Q', order') ∧
    queueing R deg' Q' order' [] ∧ (∃ k, order' = order ++ ready ++ k) ∧
    (unbranched g → sorting g R deg order ready → sorting g R deg' order' []).
Proof.
  revert deg Q order ready. induction fuel as [|fuel IH];
    intros deg Q order [|x ready] Hq Hfuel; simpl in Hfuel; try lia.
  1,2: exists Q, order, deg; split; [done|]; split; [done|]; split;
    [exists []; by rewrite !app_nil_r|done].
  destruct Hq as [H1 H2 H3 H4]. simpl.
  assert (HxR : x ∈ R) by (apply H3; set_solver).
  assert (Hxo : x ∉ order) by (apply NoDup_app in H1 as (_ & H & _); intros Hx; by apply (H x Hx); left).
  destruct (stops g x) eqn:Hst.
  - destruct (IH deg Q (order ++ [x]) ready) as (Q' & o & d & -> & Hqu & [k Hk] & Hso);
      [|lia|].
    { split; try done; intros *; rewrite <-(assoc_L (++)); auto. }
    exists Q', o, d. split; [done|]. split; [done|].
    split; [exists k; by rewrite Hk, <-(assoc_L (++))|].
    intros Hun Hs. apply Hso; [done|]. by apply sorting_stop.
  - destruct (release_edges_spec x (execution_plan g) R deg Q [] H4)
      as (deg' & Q' & new & -> & Hnd & HQ' & Hrel & Hdeg & Hcomp). simpl.
    destruct (IH deg' Q' (order ++ [x]) (ready ++ new)) as (Q2 & o & d & -> & Hqu & [k Hk] & Hso).
    + split.
      * rewrite <-(assoc_L (++)). change (NoDup (order ++ (x :: ready) ++ new)).
        rewrite (assoc_L (++)).
        apply NoDup_app. split; [done|]. split; [|done].
        intros y Hy Hn. apply Hrel in Hn as [Hn _]. by apply Hn, H2.
      * intros y. rewrite HQ', H2. set_solver.
      * intros y Hy. assert (y ∈ order ++ x :: ready ∨ y ∈ new) as [Hy'|Hy'] by set_solver;
          [by apply H3|]. by apply Hrel.
      * intros t Ht. destruct (H4 t Ht) as [n Hn]. rewrite (Hdeg t n Ht Hn). eauto.
    + pose proof (unqueued_release Q Q' new Hnd HQ' ltac:(intros y Hy; split; by apply Hrel)).
      rewrite length_app. lia.
    + exists Q2, o, d. split; [done|]. split; [done|].
      split; [exists (new ++ k); rewrite Hk, <-!(assoc_L (++)); done|].
      intros Hun Hs. apply Hso; [done|]. by apply (sorting_release deg deg' Q Q').
Qed.
End kahn.

(** ** The whole order *)

Lemma count_indegree_lookup es (R : gset string) m t n :
  t ∈ R → m !! t = Some n →
  count_indegree es R m !! t =
    Some (n + length (filter (λ e, is_normal_flow_edge e = true ∧ from_step e ∈ R ∧
                                   to_step e = t) es))%nat.
Proof.
  intros Ht. revert m n. induction es as [|e es IH]; intros m n Hm; simpl.
  { by rewrite Nat.add_0_r. }
  rewrite filter_cons.
  destruct (decide (is_normal_flow_edge e = true ∧ from_step e ∈ R ∧ to_step e = t))
    as [(Hn & Hf & Het)|Hno].
  - rewrite Hn, !bool_decide_true by (done || by rewrite Het). simpl.
    rewrite (IH _ (S n)); [f_equal; lia|]. by rewrite Het, lookup_insert_eq, Hm.
  - apply IH. destruct (is_normal_flow_edge e && bool_decide (from_step e ∈ R)
      && bool_decide (to_step e ∈ R)) eqn:Hc; [|done].
    apply andb_true_iff in Hc as [[Hn Hf]%andb_true_iff _]. apply bool_decide_eq_true in Hf.
    rewrite lookup_insert_ne; [done|]. intros Het. by apply Hno.
Qed.

Lemma initial_indegree_lookup g R found t :
  NoDup found → t ∈ R → t ∈ found →
  initial_indegree g R found !! t = Some (pending g R [] t).
Proof.
  intros Hnd HtR Ht. unfold initial_indegree. rewrite (count_indegree_lookup _ _ _ t 0); [|done|].
  - unfold pending. simpl. do 2 f_equal. apply list_filter_iff. intros e.
    split; [|tauto]. intros (? & ? & ?). repeat split; try done. apply not_elem_of_nil.
  - apply elem_of_list_to_map_1.
    + rewrite <-list_fmap_compose. by rewrite list_fmap_id.
    + apply list_elem_of_fmap. by exists t.
Qed.

Lemma found_bound g found :
  NoDup found → (∀ x, x ∈ found ↔ in_flow g x) → (length found ≤ rounds g)%nat.
Proof.
  intros Hnd Hf. unfold rounds. rewrite <-(length_fmap to_step (execution_plan g)).
  apply (submseteq_length _ (entry_point g :: (to_step <$> execution_plan g))).
  apply NoDup_submseteq; [done|]. intros x Hx%Hf. apply rtc_inv_r in Hx as [<-|(y & _ & Hy)];
    [left|]. destruct Hy as [_ (e & He & _ & _ & <-)]. right. apply list_elem_of_fmap. eauto.
Qed.

(** Every reachable step but the entry has a counted edge into it. *)
Lemma sorting_start g R deg :
  (∀ x, x ∈ R ↔ in_flow g x) → (∀ t, t ∈ R → deg !! t = Some (pending g R [] t)) →
  sorting g R deg [] [entry_point g].
Proof.
  intros HR Hdeg. split; [done| | |].
  - intros s t ->%list_elem_of_singleton Hne. done.
  - intros s t H%not_elem_of_nil. done.
  - intros t Ht Hne Hz. apply HR in Ht. apply rtc_inv_r in Ht as [<-|(y & Hy & [Hst He])];
      [set_solver|].
    assert (Hd : depends g y t).
    { split; [done|]. split; [exact Hy|]. unfold in_flow. by eapply rtc_r. }
    apply (pending_none g R [] t y HR Hz) in Hd. by apply not_elem_of_nil in Hd.
Qed.

(** The loops of [build_execution_order] end in a state with an empty queue. *)
Lemma build_run g :
  ∃ (R : gset string) found deg (Q : gset string) order,
    (discover g = (R, found) ∧
     kahn_loop (rounds g) g R (initial_indegree g R found) {[entry_point g]} [] [entry_point g]
     = Some (Q, entry_point g :: order)) ∧
    build_execution_order g = (entry_point g :: order) ++ filter (λ s, s ∉ Q) found ∧
    NoDup found ∧ (∀ x, x ∈ R ↔ in_flow g x) ∧ (∀ x, x ∈ found ↔ in_flow g x) ∧
    queueing R deg Q (entry_point g :: order) [] ∧
    (unbranched g → sorting g R deg (entry_point g :: order) []).
Proof.
  destruct (discover_exact g) as (R & found & Hdisc & Hnd & HR & Hf).
  assert (Hentry : in_flow g (entry_point g)) by apply rtc_refl.
  assert (Hdeg : ∀ t, t ∈ R → initial_indegree g R found !! t = Some (pending g R [] t)).
  { intros t Ht. apply initial_indegree_lookup; [done|done|]. by apply Hf, HR. }
  destruct (kahn_loop_spec g R found HR Hf Hnd (rounds g) (initial_indegree g R found)
    {[entry_point g]} [] [entry_point g]) as (Q & order & deg & Hk & Hq & [k ->] & Hso).
  - split; [apply NoDup_singleton|set_solver|set_solver|]. intros t Ht. rewrite Hdeg by done. eauto.
  - etrans; [|by apply (found_bound g found)]. simpl.
    pose proof (filter_length_split (λ x, x = entry_point g)
      (λ x, x ∉ ({[entry_point g]} : gset string)) (λ _, True) found
      ltac:(set_solver) ltac:(done)) as Hle.
    pose proof (length_filter (λ _ : string, True) found).
    assert (Hin : entry_point g ∈ filter (λ x, x = entry_point g) found).
    { apply list_elem_of_filter. split; [done|by apply Hf]. }
    destruct (filter (λ x, x = entry_point g) found); [by apply not_elem_of_nil in Hin|].
    simpl in *. lia.
  - exists R, found, deg, Q, k. unfold build_execution_order. rewrite Hdisc.
    rewrite decide_True by (by apply HR). rewrite Hk. simpl.
    split; [done|]. split; [done|]. split; [done|]. split; [done|]. split; [done|]. split; [done|].
    intros Hun. apply Hso; [done|]. by apply sorting_start.
Qed.

Lemma build_spec g :
  ∃ (R : gset string) found deg (Q : gset string) order,
    build_execution_order g = (entry_point g :: order) ++ filter (λ s, s ∉ Q) found ∧
    NoDup found ∧ (∀ x, x ∈ R ↔ in_flow g x) ∧ (∀ x, x ∈ found ↔ in_flow g x) ∧
    queueing R deg Q (entry_point g :: order) [] ∧
    (unbranched g → sorting g R deg (entry_point g :: order) []).
Proof.
  destruct (build_run g) as (R & found & deg & Q & order & _ & H). by exists R, found, deg, Q, order.
Qed.

(** Every reachable step was queued if the counted edges have no cycle. *)
Lemma sorting_complete g (R : gset string) deg order :
  (∀ x, x ∈ R ↔ in_flow g x) → (∀ x, ¬ tc (depends g) x x) →
  sorting g R deg order [] → ∀ t, in_flow g t → t ∈ order.
Proof.
  intros HR Hac Hso t Ht.
  assert (Htc : ∀ x y, tc (flip (depends g)) x y → tc (depends g) y x).
  { intros x y. induction 1 as [x y Hxy|x y z Hxy _ IH]; [by apply tc_once|]. by eapply tc_r. }
  assert (Hsn : sn (flip (depends g)) t).
  { apply tc_finite_sn; [intros x Hx; by apply (Hac x), Htc|].
    apply (pred_finite_set (C := gset string)). exists R. intros x Hx%Htc. apply HR.
    destruct Hx as [x y Hxy|x y z Hxy _]; apply Hxy. }
  induction Hsn as [t _ IH]. destruct (decide (t ∈ order)) as [|Hn]; [done|].
  destruct (pending_pos g R order t HR) as (s & Hs & Hns); [by apply HR| |].
  { apply (so_left _ _ _ _ _ Hso); [by apply HR|]. by rewrite app_nil_r. }
  exfalso. apply Hns, IH; [exact Hs|apply Hs].
Qed.

(** A relation along which a number grows has no cycle. *)
Lemma ranked_acyclic {A} (rank : A → nat) (R : relation A) :
  (∀ x y, R x y → (rank x < rank y)%nat) → ∀ x, ¬ tc R x x.
Proof.
  intros HR x Hx. assert (Hlt : ∀ a b, tc R a b → (rank a < rank b)%nat).
  { intros a b. induction 1 as [a b Hab|a b c Hab _ IH]; [by apply HR|].
    specialize (HR _ _ Hab). lia. }
  specialize (Hlt _ _ Hx). lia.
Qed.

(** ** Merge points *)

Lemma head_filter_first {A} (P : A → Prop) `{∀ x, Decision (P x)} l :
  match head (filter P l) with
  | Some x => P x ∧ ∃ l1 l2, l = l1 ++ x :: l2 ∧ Forall (λ y, ¬ P y) l1
  | None => Forall (λ y, ¬ P y) l
  end.
Proof.
  induction l as [|y l IH]; [by constructor|]. rewrite filter_cons. case_decide as Hy.
  - simpl. split; [done|]. exists [], l. by repeat constructor.
  - destruct (head (filter P l)) as [x|].
    + destruct IH as (Hx & l1 & l2 & -> & Hl). split; [done|].
      exists (y :: l1), l2. split; [done|by constructor].
    + by constructor.
Qed.

(** ** The order *)

Lemma order_complete g :
  NoDup (build_execution_order g) ∧
  (∀ x, x ∈ build_execution_order g ↔ rtc (flow g) (entry_point g) x) ∧
  head (build_execution_order g) = Some (entry_point g).
Proof.
  destruct (build_spec g) as (R & found & deg & Q & order & -> & Hnd & HR & Hf & [H1 H2 H3 _] & _).
  rewrite app_nil_r in *.
  split; [|split; [|done]].
  - apply NoDup_app. split; [done|]. split; [|by apply NoDup_filter].
    intros x Hx [Hn _]%list_elem_of_filter. by apply Hn, H2.
  - intros x. rewrite elem_of_app, list_elem_of_filter, Hf. unfold in_flow. split.
    + intros [Hx|[_ Hx]]; [|done]. by apply HR, H3.
    + intros Hx. destruct (decide (x ∈ Q)) as [Hq|Hq]; [left; by apply H2|by right].
Qed.

Lemma order_topological g :
  unbranched g → (∀ x, ¬ tc (depends g) x x) →
  ∀ x y, depends g x y → before (build_execution_order g) x y.
Proof.
  intros Hun Hac x y Hd.
  destruct (build_spec g) as (R & found & deg & Q & order & -> & _ & HR & _ & _ & Hso).
  specialize (Hso Hun). apply before_app. apply (so_before _ _ _ _ _ Hso); [| |done].
  - apply (sorting_complete g R deg _ HR Hac Hso). apply Hd.
  - intros ->. destruct Hd as (Hxy & Hx & Hy).
    assert (Hall : ∀ z, rtc (flow g) (entry_point g) z → rtc (depends g) (entry_point g) z).
    { apply (rtc_ind_r (rtc (depends g) (entry_point g))); [done|]. intros z z' Hz Hzz' IH.
      eapply rtc_r; [exact IH|]. split; [apply Hzz'|]. split; [exact Hz|].
      unfold in_flow. by eapply rtc_r. }
    apply (Hac (entry_point g)). apply (tc_rtc_l _ x); [by apply Hall|by apply tc_once].
Qed.

(** ** Theorems *)

(** C29: The order is complete.  For every graph the execution order lists exactly
    the steps reachable from the entry point over the normal flow (which stops at
    unknown, branching and conditioned steps), each once, the entry point first;
    the traversal bounds are always sufficient. *)
Theorem execution_order_complete g :
  NoDup (build_execution_order g) ∧
  (∀ x, x ∈ build_execution_order g ↔ rtc (flow g) (entry_point g) x) ∧
  head (build_execution_order g) = Some (entry_point g).
Proof. apply order_complete. Qed.

(** C18: The order is topological.  If the normal flow between reachable steps has
    no cycle and none of it leaves a step at which the traversal stops, then every
    step comes after all its reachable normal-flow predecessors, whatever the
    order of the plan. *)
Theorem execution_order_topological g :
  unbranched g → (∀ x, ¬ tc (depends g) x x) →
  ∀ x y, depends g x y → before (build_execution_order g) x y.
Proof. apply order_topological. Qed.

(** The short side of the diamond does not bring its end forward. *)
Lemma execution_order_topological_witness :
  build_execution_order diamond = ["a"; "b"; "c"; "d"] ∧
  before (build_execution_order diamond) "c" "d".
Proof.
  split; [vm_compute; reflexivity|].
  assert (Hflow : ∀ e, e ∈ execution_plan diamond → flow diamond (from_step e) (to_step e)).
  { intros e He. split; [|exists e; split; [done|]; split; [|done]]; revert e He;
      apply Forall_forall; by repeat constructor. }
  apply (execution_order_topological diamond).
  - intros x y [(e & He & _ & <- & _) _]. apply (Hflow e He).
  - apply (ranked_acyclic (λ x, N.to_nat (match x with String c _ => Ascii.N_of_ascii c
      | EmptyString => 0%N end))).
    intros x y [(e & He & _ & <- & <-) _]. revert e He. apply Forall_forall.
    repeat constructor; vm_compute; lia.
  - assert (Hb : in_flow diamond "b").
    { apply rtc_once, (Hflow (edge "a" "b")). simpl. set_solver. }
    assert (Hc : in_flow diamond "c").
    { eapply rtc_r; [exact Hb|]. apply (Hflow (edge "b" "c")). simpl. set_solver. }
    assert (Hcd : flow diamond "c" "d") by (apply (Hflow (edge "c" "d")); simpl; set_solver).
    split; [apply Hcd|]. split; [exact Hc|]. eapply rtc_r; [exact Hc|exact Hcd].
Defined.

(** A conditioned edge disturbs the order.  With a conditioned edge into a step
    that is also reached around it, a fan-in step is emitted before one of its
    reachable normal-flow predecessors, although the flow has no cycle. *)
Lemma conditioned_fan_in_out_of_order :
  build_execution_order guarded_fan_in = ["e"; "s"; "t"; "z"; "m"] ∧
  normal_edge guarded_fan_in "m" "z".
Proof.
  split; [vm_compute; reflexivity|]. exists (edge "m" "z"). split; [|done].
  simpl. set_solver.
Qed.

(** Merge points.  For at least two branches the merge point is a step that
    every branch can reach, none of the steps the first branch visits before it
    is one, and there is none only if the branches have no step in common. *)
Lemma merge_point_is_first_common starts g :
  (2 ≤ length starts)%nat →
  let common x := ∀ s, s ∈ starts → rtc (branch_edge g) s x in
  match find_merge_point_n (Some <$> starts) g with
  | Some m =>
      common m ∧ ∃ l1 l2, collect_reachable_steps (hd m starts) g = l1 ++ m :: l2 ∧
        Forall (λ x, ¬ common x) l1
  | None => ∀ x, ¬ common x
  end.
Proof.
  intros Hlen common. unfold find_merge_point_n.
  replace (omap id (Some <$> starts)) with starts
    by (clear; induction starts as [|s l IH]; [done|]; simpl; by f_equal).
  rewrite bool_decide_false by lia. destruct starts as [|s0 rest]; [simpl in Hlen; lia|]. simpl.
  assert (Hcom : ∀ x, x ∈ collect_reachable_steps s0 g →
    Forall (λ set, x ∈ set) ((λ start, collect_reachable_steps start g) <$> rest) ↔ common x).
  { intros x Hx. rewrite Forall_fmap, Forall_forall. unfold common. simpl.
    apply collect_exact in Hx. split.
    - intros Hr s [->|Hs]%elem_of_cons; [done|]. by apply collect_exact, Hr.
    - intros Hr s Hs. apply collect_exact, Hr. by right. }
  pose proof (head_filter_first (λ x, Forall (λ set, x ∈ set)
    ((λ start, collect_reachable_steps start g) <$> rest)) (collect_reachable_steps s0 g)) as Hh.
  destruct (head (filter _ (collect_reachable_steps s0 g))) as [m|].
  - destruct Hh as (Hm & l1 & l2 & Hl & Hno). rewrite Forall_forall in Hno.
    split; [apply Hcom; [rewrite Hl; set_solver|done]|]. exists l1, l2. split; [done|].
    apply Forall_forall. intros x Hx Hc. apply (Hno x Hx), Hcom; [rewrite Hl; set_solver|done].
  - rewrite Forall_forall in Hh. intros x Hc.
    assert (Hx : x ∈ collect_reachable_steps s0 g) by (apply collect_exact, Hc; left).
    by apply (Hh x Hx), Hcom.
Qed.

Lemma merge_point_is_first_common_witness :
  find_merge_point_n [Some "x"; Some "y"] branching = Some "j" ∧
  ∀ s, s ∈ ["x"; "y"] → rtc (branch_edge branching) s "j".
Proof.
  split; [vm_compute; reflexivity|].
  pose proof (merge_point_is_first_common ["x"; "y"] branching ltac:(simpl; lia)) as H.
  cbv zeta in H. cbn [fmap list_fmap] in H.
  assert (E : find_merge_point_n [Some "x"; Some "y"] branching = Some "j")
    by (vm_compute; reflexivity).
  rewrite E in H. exact (proj1 H).
Defined.
