(* ===== verification/Dependencies.v ===== *)
(** * runtara-workflows: dependencies between workflows

    [dependency_analysis.rs]: which child workflows a definition embeds, how a
    version string is resolved, and the search for circular dependencies. *)

From S2P Require Import Prelude.
From S2P Require Import Json.

(** [WorkflowReference]; the version is an [i32]. *)
Record WorkflowReference := { workflow_id : string; version : Z }.

#[export] Instance workflow_reference_eq_dec : EqDecision WorkflowReference.
Proof. solve_decision. Defined.

#[export] Instance workflow_reference_countable : Countable WorkflowReference.
Proof.
  refine (inj_countable' (λ r, (workflow_id r, version r))
    (λ p, {| workflow_id := p.1; version := p.2 |}) _).
  by intros [].
Defined.

Record EmbedWorkflowStepInfo := {
  ew_step_id : string;
  ew_child_workflow_id : string;
  ew_child_version_requested : string }.

(** ** Embedded workflows *)

(** The shortest decimal rendering of a float ([ryu], used by [Number]'s
    [Display]). *)
Class FloatDisplay := float_display : SpecFloat.spec_float → string.

Definition number_to_string `{FloatDisplay} (n : jnum) : string :=
  match n with
  | PosInt n => show_Z n
  | NegInt n => show_Z n
  | Float f => float_display f
  end.

(** One entry of [steps]: not an EmbedWorkflow step, an error, or its info. *)
Definition embed_step `{FloatDisplay} (step_id : string) (step_def : json) :
  result string (option EmbedWorkflowStepInfo) :=
  if decide (json_get "stepType" step_def ≫= as_str = Some "EmbedWorkflow") then
    match json_get "childWorkflowId" step_def ≫= as_str with
    | None => Err ("EmbedWorkflow step '" +:+ step_id +:+ "' missing childWorkflowId")
    | Some child =>
        match json_get "childVersion" step_def with
        | None => Err ("EmbedWorkflow step '" +:+ step_id +:+ "' missing childVersion")
        | Some v =>
            let info s := {| ew_step_id := step_id; ew_child_workflow_id := child;
                             ew_child_version_requested := s |} in
            match v with
            | JString s => Ok (Some (info s))
            | JNumber n => Ok (Some (info (number_to_string n)))
            | _ => Err ("EmbedWorkflow step '" +:+ step_id +:+ "' has invalid childVersion type")
            end
        end
    end
  else Ok None.

(** The [for] loop; the first error ends it. *)
Fixpoint embed_steps `{FloatDisplay} (l : list (string * json)) :
  result string (list EmbedWorkflowStepInfo) :=
  match l with
  | [] => Ok []
  | (step_id, step_def) :: l =>
      match embed_step step_id step_def with
      | Err e => Err e
      | Ok found =>
          match embed_steps l with
          | Err e => Err e
          | Ok infos => Ok (match found with Some i => i :: infos | None => infos end)
          end
      end
  end.

Definition extract_embed_workflow_steps `{FloatDisplay} (execution_graph : json) :
  result string (list EmbedWorkflowStepInfo) :=
  match get_object "steps" execution_graph with
  | None => Err "Missing 'steps' object in execution graph"
  | Some steps_obj => embed_steps steps_obj
  end.

(** The nesting depth of a value: bounds the recursion into subgraphs. *)
Fixpoint json_depth (j : json) : nat :=
  match j with
  | JArray l => S (list_max (json_depth <$> l))
  | JObject m => S (list_max ((λ kv, json_depth kv.2) <$> m))
  | _ => 1
  end.

(** The recursion of [extract_embed_workflow_steps_recursive]; [None] when
    [fuel] runs out. *)
Fixpoint extract_recursive `{FloatDisplay} (fuel : nat) (execution_graph : json) :
  option (result string (list EmbedWorkflowStepInfo)) :=
  match fuel with
  | O => None
  | S fuel =>
      let fix extend (l : list (string * json)) (acc : list EmbedWorkflowStepInfo) :
        option (result string (list EmbedWorkflowStepInfo)) :=
        match l with
        | [] => Some (Ok acc)
        | (_, step_def) :: l =>
            match json_get "subgraph" step_def with
            | None => extend l acc
            | Some subgraph =>
                match extract_recursive fuel subgraph with
                | Some (Ok infos) => extend l (acc ++ infos)
                | other => other
                end
            end
        end in
      match extract_embed_workflow_steps execution_graph with
      | Err e => Some (Err e)
      | Ok all_steps =>
          match get_object "steps" execution_graph with
          | Some steps_obj => extend steps_obj all_steps
          | None => Some (Ok all_steps)
          end
      end
  end.

Definition extract_embed_workflow_steps_recursive `{FloatDisplay} (execution_graph : json) :
  option (result string (list EmbedWorkflowStepInfo)) :=
  extract_recursive (json_depth execution_graph) execution_graph.

(** ** Versions *)

Definition resolve_version (version_str : string) (latest_version : Z)
  (current_version : option Z) : result string Z :=
  if decide (version_str = "latest") then Ok latest_version
  else if decide (version_str = "current") then
    match current_version with
    | Some v => Ok v
    | None => Err "Cannot resolve 'current' version: workflow has no current_version set"
    end
  else
    match parse_i32 version_str with
    | Some v => Ok v
    | None => Err ("Invalid version string '" +:+ version_str
                     +:+ "': must be 'latest', 'current', or a number")
    end.

(** ** Circular dependencies *)

(** [DependencyGraph]: every parent with its children. *)
Abbreviation DependencyGraph := (gmap WorkflowReference (list WorkflowReference)).

Definition new_dependency_graph : DependencyGraph := ∅.

Definition add_edge (parent child : WorkflowReference) (edges : DependencyGraph) :
  DependencyGraph :=
  <[parent := default [] (edges !! parent) ++ [child]]> edges.

(** The part of the path from the first occurrence of [node] on. *)
Fixpoint from_node (node : WorkflowReference) (path : list WorkflowReference) :
  list WorkflowReference :=
  match path with
  | [] => []
  | n :: path' => if decide (n = node) then path else from_node node path'
  end.

(** [dfs]: the visited set, or the cycle found; [None] when [fuel] runs out.
    [path] is restored when a node is done, so it is an argument here. *)
Fixpoint dfs (fuel : nat) (edges : DependencyGraph) (node : WorkflowReference)
  (visited : gset WorkflowReference) (path : list WorkflowReference) :
  option (result (list WorkflowReference) (gset WorkflowReference)) :=
  match fuel with
  | O => None
  | S fuel =>
      if decide (node ∈ path) then Some (Err (from_node node path ++ [node]))
      else if decide (node ∈ visited) then Some (Ok visited)
      else
        let fix children (l : list WorkflowReference) (visited : gset WorkflowReference) :
          option (result (list WorkflowReference) (gset WorkflowReference)) :=
          match l with
          | [] => Some (Ok visited)
          | child :: l =>
              match dfs fuel edges child visited (path ++ [node]) with
              | Some (Ok visited) => children l visited
              | other => other
              end
          end in
        match children (default [] (edges !! node)) visited with
        | Some (Ok visited) => Some (Ok ({[node]} ∪ visited))
        | other => other
        end
  end.

(** [detect_cycles]: [Ok ()] or the cycle.  The path only holds nodes with
    children, so its length is at most the number of parents. *)
Definition detect_cycles (edges : DependencyGraph) (start : WorkflowReference) :
  option (result (list WorkflowReference) unit) :=
  match dfs (S (size edges)) edges start ∅ [] with
  | Some (Ok _) => Some (Ok tt)
  | Some (Err cycle) => Some (Err cycle)
  | None => None
  end.

(** One line of the cycle report. *)
Definition cycle_line (i last : nat) (node : WorkflowReference) : string :=
  (if decide (i = O) then "  " else "  → ")
    +:+ workflow_id node +:+ " (v" +:+ show_Z (version node) +:+ ")"
    +:+ (if decide (i = last) then "  ← Cycle!" else "")
    +:+ String (chr 10) "".

Definition format_cycle_error (cycle : list WorkflowReference) : string :=
  "Circular dependency detected:" +:+ String (chr 10) (String (chr 10) "Cycle path:")
    +:+ String (chr 10) ""
    +:+ concat_str (imap (λ i n, cycle_line i (length cycle - 1) n) cycle)
    +:+ String (chr 10) "To fix: Remove the EmbedWorkflow step that creates this cycle."
    +:+ String (chr 10) "".
