(* ===== verification/DependencyProperties.v ===== *)
(** * Properties of the dependency analysis

    [dependency_analysis.rs]: the cycle search is sound, complete and ends; the
    recursive extraction finds the embedded workflows at every depth. *)

From S2P Require Import Prelude.
From S2P Require Import Json.
From S2P Require Import Dependencies.

(** ** Vocabulary of the statements *)

Definition child_of (g : DependencyGraph) (x y : WorkflowReference) : Prop :=
  y ∈ default [] (g !! x).

(** Consecutive elements are parent and child. *)
Fixpoint linked (g : DependencyGraph) (l : list WorkflowReference) : Prop :=
  match l with
  | [] => True
  | x :: l' => match l' with [] => True | y :: _ => child_of g x y ∧ linked g l' end
  end.

(** A cycle reachable from [start], written with its first element repeated. *)
Definition is_cycle (g : DependencyGraph) (start : WorkflowReference)
  (c : list WorkflowReference) : Prop :=
  ∃ n l, c = n :: l ++ [n] ∧ linked g c ∧ rtc (child_of g) start n.

(** A set of fully explored nodes beside the current path. *)
Record explored (g : DependencyGraph) (V : gset WorkflowReference)
  (path : list WorkflowReference) : Prop := {
  ex_closed x y : x ∈ V → child_of g x y → y ∈ V;
  ex_acyclic x : x ∈ V → ¬ tc (child_of g) x x;
  ex_disjoint x : x ∈ path → x ∉ V }.

(** A path the search can be on when it looks at [node]. *)
Record on_path (g : DependencyGraph) (start node : WorkflowReference)
  (path : list WorkflowReference) : Prop := {
  op_nodup : NoDup path;
  op_parents x : x ∈ path → x ∈ dom g;
  op_linked : linked g (path ++ [node]);
  op_reach x : x ∈ path ++ [node] → rtc (child_of g) start x }.

(** What a search of [node] promises. *)
Definition searched (g : DependencyGraph) (start node : WorkflowReference)
  (V : gset WorkflowReference) (path : list WorkflowReference)
  (r : option (result (list WorkflowReference) (gset WorkflowReference))) : Prop :=
  match r with
  | None => False
  | Some (Ok V') => V ⊆ V' ∧ node ∈ V' ∧ explored g V' path
  | Some (Err c) => is_cycle g start c
  end.

(** [info] is an EmbedWorkflow step of the graph or of a nested subgraph. *)
Inductive embeds `{FloatDisplay} : json → EmbedWorkflowStepInfo → Prop :=
| embeds_here graph m id def info :
    get_object "steps" graph = Some m → (id, def) ∈ m → embed_step id def = Ok (Some info) →
    embeds graph info
| embeds_nested graph m id def sub info :
    get_object "steps" graph = Some m → (id, def) ∈ m → json_get "subgraph" def = Some sub →
    embeds sub info → embeds graph info.

(** The graph or a nested subgraph cannot be read, for the reason [e]. *)
Inductive unreadable `{FloatDisplay} : json → string → Prop :=
| unreadable_steps graph :
    get_object "steps" graph = None →
    unreadable graph "Missing 'steps' object in execution graph"
| unreadable_step graph m id def e :
    get_object "steps" graph = Some m → (id, def) ∈ m → embed_step id def = Err e →
    unreadable graph e
| unreadable_nested graph m id def sub e :
    get_object "steps" graph = Some m → (id, def) ∈ m → json_get "subgraph" def = Some sub →
    unreadable sub e → unreadable graph e.

(** A split whose body is a while loop that starts a child workflow. *)
Definition nested_graph : json :=
  let embed := JObject [("stepType", JString "EmbedWorkflow"); ("childWorkflowId", JString "w");
                        ("childVersion", JNumber (PosInt 3))] in
  let graph id step := JObject [("steps", JObject [(id, step)])] in
  graph "split" (JObject [("stepType", JString "Split");
    ("subgraph", graph "while" (JObject [("stepType", JString "While");
      ("subgraph", graph "call" embed)]))]).

(** ** Paths *)

Lemma linked_suffix g l1 l2 : linked g (l1 ++ l2) → linked g l2.
Proof.
  induction l1 as [|x l1 IH]; [done|]. simpl. intros H. apply IH.
  destruct (l1 ++ l2); [done|]. apply H.
Qed.

Lemma linked_snoc g l x y : linked g (l ++ [x]) → child_of g x y → linked g ((l ++ [x]) ++ [y]).
Proof.
  intros Hl Hxy. induction l as [|z l IH]; [by split|]. simpl in *.
  destruct l as [|z' l]; simpl in *; [tauto|]. destruct Hl as [Hz Hl]. split; [done|by apply IH].
Qed.

Lemma from_node_split node path :
  node ∈ path → ∃ l1 l2, path = l1 ++ node :: l2 ∧ from_node node path = node :: l2.
Proof.
  induction path as [|n path IH]; [by intros ?%not_elem_of_nil|]. simpl. intros Hin.
  case_decide as Hn; [subst n; by exists [], path|].
  apply elem_of_cons in Hin as [->|Hin]; [done|].
  destruct (IH Hin) as (l1 & l2 & -> & ->). by exists (n :: l1), l2.
Qed.

Lemma on_path_length g start node path :
  on_path g start node path → (length path ≤ size g)%nat.
Proof.
  intros [Hnd Hdom _ _].
  rewrite <-(size_dom (D := gset WorkflowReference) g).
  rewrite <-(size_list_to_set (C := gset WorkflowReference) path) by done.
  apply subseteq_size. intros x. rewrite elem_of_list_to_set. apply Hdom.
Qed.

(** The child on the path closes a cycle. *)
Lemma on_path_cycle g start node path :
  on_path g start node path → node ∈ path → is_cycle g start (from_node node path ++ [node]).
Proof.
  intros [_ _ Hl Hr] Hin. destruct (from_node_split node path Hin) as (l1 & l2 & Hp & ->).
  exists node, l2. split; [done|]. split.
  - rewrite Hp, <-(assoc_L (++)) in Hl. by apply linked_suffix in Hl.
  - apply Hr. set_solver.
Qed.

Lemma on_path_child g start node path c :
  on_path g start node path → node ∉ path → child_of g node c →
  on_path g start c (path ++ [node]).
Proof.
  intros [H1 H2 H3 H4] Hn Hc.
  assert (Hdom : node ∈ dom g).
  { apply elem_of_dom. unfold child_of in Hc. destruct (g !! node) as [l|] eqn:E;
      [by exists l|].
    by apply not_elem_of_nil in Hc. }
  split.
  - apply NoDup_app. split; [done|]. split; [set_solver|apply NoDup_singleton].
  - intros x [Hx| ->%list_elem_of_singleton]%elem_of_app; [by apply H2|done].
  - by apply linked_snoc.
  - intros x [Hx| ->%list_elem_of_singleton]%elem_of_app; [by apply H4|].
    eapply rtc_r; [apply H4|exact Hc]. set_solver.
Qed.

(** Once all children are explored, so is the node. *)
Lemma explored_node g V path node :
  explored g V (path ++ [node]) → (∀ c, child_of g node c → c ∈ V) →
  node ∉ path → explored g ({[node]} ∪ V) path.
Proof.
  intros [Hcl Hac Hdis] Hch Hn. assert (HnV : node ∉ V) by (apply Hdis; set_solver).
  assert (Hdown : ∀ x y, tc (child_of g) x y → x ∈ V → y ∈ V).
  { induction 1 as [x y Hxy|x y z Hxy _ IH]; intros Hx; [by eapply Hcl|].
    apply IH. by eapply Hcl. }
  split.
  - intros x y [->%elem_of_singleton|Hx]%elem_of_union Hxy; [set_solver|].
    apply elem_of_union. right. by eapply Hcl.
  - intros x [->%elem_of_singleton|Hx]%elem_of_union Hxx; [|by apply (Hac x)].
    apply HnV. inversion Hxx as [? ? Hnn|? c ? Hnc Hcn]; subst; [by apply Hch|].
    eapply Hdown; [exact Hcn|by apply Hch].
  - intros x Hx. specialize (Hdis x). set_solver.
Qed.

(** ** The search *)

Lemma dfs_spec fuel g start node V path :
  on_path g start node path → explored g V path → (size g < fuel + length path)%nat →
  searched g start node V path (dfs fuel g node V path).
Proof.
  revert node V path. induction fuel as [|fuel IH]; intros node V path Hpath HV Hfuel.
  { pose proof (on_path_length _ _ _ _ Hpath). simpl in Hfuel. lia. }
  cbn [dfs]. case_decide as Hin; [by apply on_path_cycle|].
  case_decide as HinV; [by split|].
  match goal with |- context [match ?f _ V with _ => _ end] => set (go := f) end.
  assert (Hgo : ∀ l V1, (∀ c, c ∈ l → child_of g node c) → explored g V1 (path ++ [node]) →
    match go l V1 with
    | None => False
    | Some (Ok V') => V1 ⊆ V' ∧ (∀ c, c ∈ l → c ∈ V') ∧ explored g V' (path ++ [node])
    | Some (Err c) => is_cycle g start c
    end).
  { induction l as [|c l IHl]; intros V1 Hl HV1; simpl; [set_solver|].
    pose proof (IH c V1 (path ++ [node])) as Hc. unfold searched in Hc.
    assert (Hchild : child_of g node c) by (apply Hl; left).
    specialize (Hc ltac:(by apply on_path_child) HV1
      ltac:(rewrite length_app; simpl; lia)).
    destruct (dfs fuel g c V1 (path ++ [node])) as [[V2|cy]|]; [|done|done].
    destruct Hc as (H12 & Hc2 & HV2).
    specialize (IHl V2 ltac:(intros c' Hc'; apply Hl; by right) HV2).
    destruct (go l V2) as [[V3|cy]|]; [|done|done].
    destruct IHl as (H23 & Hl3 & HV3). split; [set_solver|]. split; [|done].
    intros c' [->|Hc']%elem_of_cons; [set_solver|auto]. }
  assert (HV1 : explored g V (path ++ [node])).
  { destruct HV as [H1 H2 H3]. split; [done|done|]. set_solver. }
  specialize (Hgo (default [] (g !! node)) V ltac:(done) HV1).
  destruct (go _ V) as [[V'|cy]|]; [|done|done].
  destruct Hgo as (HVV' & Hch & HV'). split; [set_solver|]. split; [set_solver|].
  by apply explored_node.
Qed.

(** ** Extraction *)

Lemma list_max_in n l : n ∈ l → (n ≤ list_max l)%nat.
Proof.
  intros Hn. pose proof (proj1 (list_max_le l (list_max l)) ltac:(lia)) as Hall.
  rewrite List.Forall_forall in Hall. apply Hall. by apply list_elem_of_In.
Qed.

Lemma assoc_get_in k m v : assoc_get k m = Some v → (k, v) ∈ m.
Proof.
  induction m as [|[k' v'] m IH]; [done|]. simpl. case_decide as Hk.
  - intros [= ->]. subst k'. left.
  - intros H. right. by apply IH.
Qed.

Lemma depth_member k v m : (k, v) ∈ m → (json_depth v < json_depth (JObject m))%nat.
Proof.
  intros Hin. simpl. apply le_n_S, list_max_in. apply list_elem_of_fmap. by exists (k, v).
Qed.

Lemma depth_get k j v : json_get k j = Some v → (json_depth v < json_depth j)%nat.
Proof. destruct j; try done. simpl json_get. intros H%assoc_get_in. by eapply depth_member. Qed.

(** A subgraph of a step of a graph is less deep than the graph. *)
Lemma depth_subgraph graph m id def sub :
  get_object "steps" graph = Some m → (id, def) ∈ m → json_get "subgraph" def = Some sub →
  (json_depth sub < json_depth graph)%nat.
Proof.
  unfold get_object. destruct (json_get "steps" graph) as [v|] eqn:Hv; [|done].
  destruct v; try done. intros [= ->] Hin Hsub.
  apply depth_get in Hsub, Hv. apply depth_member in Hin. lia.
Qed.

Section extraction.
Context `{FloatDisplay}.

Lemma embed_steps_spec l :
  match embed_steps l with
  | Ok infos => ∀ info, info ∈ infos ↔ ∃ id def, (id, def) ∈ l ∧ embed_step id def = Ok (Some info)
  | Err e => ∃ id def, (id, def) ∈ l ∧ embed_step id def = Err e
  end.
Proof.
  induction l as [|[id def] l IH]; simpl; [set_solver|].
  destruct (embed_step id def) as [found|e] eqn:Hs; [|exists id, def; split; [left|done]].
  destruct (embed_steps l) as [infos|e].
  - intros info. setoid_rewrite elem_of_cons. split.
    + intros Hin. destruct found as [i|].
      * apply elem_of_cons in Hin as [->|Hin]; [by eexists _, _; split; [left|]|].
        apply IH in Hin as (id' & def' & ? & ?). eauto 6.
      * apply IH in Hin as (id' & def' & ? & ?). eauto 6.
    + intros (id' & def' & [[= -> ->]|Hin] & He).
      * rewrite Hs in He. injection He as ->. left.
      * assert (Hi : info ∈ infos) by (apply IH; eauto). destruct found; [by right|done].
  - destruct IH as (id' & def' & ? & ?). exists id', def'. split; [by right|done].
Qed.

Lemma extract_recursive_spec fuel graph :
  (json_depth graph ≤ fuel)%nat →
  match extract_recursive fuel graph with
  | Some (Ok l) => ∀ info, info ∈ l ↔ embeds graph info
  | Some (Err e) => unreadable graph e
  | None => False
  end.
Proof.
  revert graph. induction fuel as [|fuel IH]; intros graph Hd.
  { destruct graph; simpl in Hd; lia. }
  cbn [extract_recursive]. unfold extract_embed_workflow_steps.
  destruct (get_object "steps" graph) as [m|] eqn:Hm; [|by apply unreadable_steps].
  pose proof (embed_steps_spec m) as Hsteps. destruct (embed_steps m) as [top|e].
  2: { destruct Hsteps as (id & def & ? & ?). by eapply unreadable_step. }
  match goal with |- context [match ?f m top with _ => _ end] => set (extend := f) end.
  (* the loop over the steps whose definitions are [l], after [acc] *)
  assert (Hext : ∀ l acc, (∀ p, p ∈ l → p ∈ m) →
    match extend l acc with
    | Some (Ok r) => ∀ info, info ∈ r ↔ info ∈ acc ∨ ∃ id def sub, (id, def) ∈ l ∧
        json_get "subgraph" def = Some sub ∧ embeds sub info
    | Some (Err e) => unreadable graph e
    | None => False
    end).
  { induction l as [|[id def] l IHl]; intros acc Hl; simpl.
    { intros info. split; [by left|]. intros [?|(? & ? & ? & ?%not_elem_of_nil & _)]; done. }
    assert (Hin : (id, def) ∈ m) by (apply Hl; left).
    assert (Hl' : ∀ p, p ∈ l → p ∈ m) by (intros p Hp; apply Hl; by right).
    destruct (json_get "subgraph" def) as [sub|] eqn:Hsub.
    - pose proof (depth_subgraph _ _ _ _ _ Hm Hin Hsub).
      pose proof (IH sub ltac:(lia)) as Hs.
      destruct (extract_recursive fuel sub) as [[infos|e]|]; [| |done].
      + specialize (IHl (acc ++ infos) Hl').
        destruct (extend l (acc ++ infos)) as [[r|e]|]; [|done|done].
        intros info. rewrite IHl, elem_of_app, Hs. setoid_rewrite elem_of_cons. naive_solver.
      + by eapply unreadable_nested.
    - specialize (IHl acc Hl'). destruct (extend l acc) as [[r|e]|]; [|done|done].
      intros info. rewrite IHl. setoid_rewrite elem_of_cons. naive_solver. }
  specialize (Hext m top ltac:(done)). destruct (extend m top) as [[r|e]|]; [|done|done].
  intros info. rewrite Hext, Hsteps. split.
  - intros [(id & def & ? & ?)|(id & def & sub & ? & ? & ?)];
      [by eapply embeds_here|by eapply embeds_nested].
  - intros He. inversion He as [? m' ? ? ? Hm'|? m' ? ? ? ? Hm']; subst;
      rewrite Hm in Hm'; injection Hm' as <-; [left|right]; eauto 6.
Qed.
End extraction.

(** ** Theorems *)

(** The search, with its three outcomes. *)
Lemma detect_cycles_spec g start :
  match detect_cycles g start with
  | Some (Ok _) => ∀ n, rtc (child_of g) start n → ¬ tc (child_of g) n n
  | Some (Err c) => is_cycle g start c
  | None => False
  end.
Proof.
  unfold detect_cycles.
  pose proof (dfs_spec (S (size g)) g start start ∅ []) as H. unfold searched in H.
  destruct (dfs (S (size g)) g start ∅ []) as [[V|c]|].
  - intros n Hn. destruct H as (_ & Hstart & [Hcl Hac _]).
    + split; [constructor|set_solver|done|]. intros x ->%list_elem_of_singleton. apply rtc_refl.
    + split; set_solver.
    + simpl. lia.
    + apply Hac. revert Hstart. induction Hn as [a|a b c Hab _ IH]; [done|].
      intros Ha. by apply IH, (Hcl a).
  - apply H; [|split; set_solver|simpl; lia].
    split; [constructor|set_solver|done|]. intros x ->%list_elem_of_singleton. apply rtc_refl.
  - apply H; [|split; set_solver|simpl; lia].
    split; [constructor|set_solver|done|]. intros x ->%list_elem_of_singleton. apply rtc_refl.
Qed.

(** Circular dependencies are found exactly.  The search always ends; it
    answers "no cycle" only if no workflow reachable from the start depends on
    itself, and otherwise returns a path of dependencies that leads from a
    reachable workflow back to itself. *)
Lemma detect_cycles_exact g start :
  match detect_cycles g start with
  | Some (Ok _) => ∀ n, rtc (child_of g) start n → ¬ tc (child_of g) n n
  | Some (Err c) => is_cycle g start c
  | None => False
  end.
Proof. apply detect_cycles_spec. Qed.

(** Adding an edge adds exactly that dependency. *)
Lemma child_of_add_edge p c g x y :
  child_of (add_edge p c g) x y ↔ child_of g x y ∨ (x = p ∧ y = c).
Proof.
  unfold child_of, add_edge. destruct (decide (x = p)) as [->|Hne].
  - rewrite lookup_insert_eq. simpl. rewrite elem_of_app, list_elem_of_singleton. naive_solver.
  - rewrite lookup_insert_ne by done. naive_solver.
Qed.

(** A workflow that embeds itself through another one. *)
Lemma detect_cycles_exact_example :
  let a := {| workflow_id := "a"; version := 1 |} in
  let b := {| workflow_id := "b"; version := 2 |} in
  detect_cycles (add_edge b a (add_edge a b new_dependency_graph)) a = Some (Err [a; b; a]).
Proof. vm_compute. reflexivity. Qed.

(** Embedded workflows are found at every depth.  The recursive extraction
    always ends; when it succeeds it returns exactly the EmbedWorkflow steps of
    the graph and of all nested subgraphs, and when it fails the graph or a nested
    subgraph is malformed in the way the error says. *)
Lemma embedded_workflows_all_found `{FloatDisplay} graph :
  match extract_embed_workflow_steps_recursive graph with
  | Some (Ok l) => ∀ info, info ∈ l ↔ embeds graph info
  | Some (Err e) => unreadable graph e
  | None => False
  end.
Proof. apply extract_recursive_spec. lia. Qed.

Lemma embedded_workflows_example :
  extract_embed_workflow_steps_recursive (H := λ _, "") nested_graph =
  Some (Ok [{| ew_step_id := "call"; ew_child_workflow_id := "w";
               ew_child_version_requested := "3" |}]).
Proof. vm_compute. reflexivity. Qed.
