(* ===== verification/Text.v ===== *)
(** * Text functions of the Rust standard library

    The operations on [str] the workflow runtime uses beyond those of the
    prelude: [split], [replace], [starts_with], [ends_with], [join].  Strings are
    UTF-8 bytes; the separators and patterns of the callers are ASCII, so that
    working on bytes and on characters gives the same result. *)

From S2P Require Import Prelude.

(** [s.split(sep)] for a character [sep]. *)
Fixpoint split_char (sep : Ascii.ascii) (s : string) : list string :=
  match s with
  | EmptyString => [EmptyString]
  | String c r =>
      if Ascii.eqb c sep then EmptyString :: split_char sep r
      else match split_char sep r with
           | part :: parts => String c part :: parts
           | [] => [String c EmptyString]
           end
  end.

(** [parts.join(sep)] *)
Fixpoint join (sep : string) (parts : list string) : string :=
  match parts with
  | [] => EmptyString
  | [part] => part
  | part :: parts => part +:+ sep +:+ join sep parts
  end.

(** [s.starts_with(p)] and [s.ends_with(p)] *)
Definition starts_with (s p : string) : bool := bool_decide (is_Some (strip_prefix p s)).
Definition ends_with (s p : string) : bool := starts_with (str_rev s) (str_rev p).

(** The scan of [replace]: [skip] bytes of a match are still to be dropped. *)
Fixpoint replace_from (pat rep : string) (skip : nat) (s : string) : string :=
  match s with
  | EmptyString => EmptyString
  | String c r =>
      match skip with
      | S skip => replace_from pat rep skip r
      | O =>
          if starts_with s pat then rep +:+ replace_from pat rep (String.length pat - 1) r
          else String c (replace_from pat rep 0 r)
      end
  end.

(** [s.replace(pat, rep)] for a non-empty pattern. *)
Definition replace (pat rep s : string) : string := replace_from pat rep 0 s.

(** [c.is_ascii_digit()] on every character. *)
Fixpoint all_digits (s : string) : bool :=
  match s with
  | EmptyString => true
  | String c r => bool_decide (is_Some (digit_val c)) && all_digits r
  end.

Definition is_empty_str (s : string) : bool :=
  match s with EmptyString => true | String _ _ => false end.

(** A string without the character [c]. *)
Fixpoint lacks (c : Ascii.ascii) (s : string) : bool :=
  match s with
  | EmptyString => true
  | String d r => negb (Ascii.eqb d c) && lacks c r
  end.

(** The double quote, which string literals here cannot hold. *)
Definition dquote : string := String (chr 34) EmptyString.

(** [s.contains(p)] *)
Fixpoint contains (s p : string) : bool :=
  starts_with s p ||
  match s with EmptyString => false | String _ r => contains r p end.

(** The text before and after the first [c] ([s.find(c)] with the two slices). *)
Fixpoint split_once (c : Ascii.ascii) (s : string) : option (string * string) :=
  match s with
  | EmptyString => None
  | String d r =>
      if Ascii.eqb d c then Some (EmptyString, r)
      else match split_once c r with
           | Some (a, b) => Some (String d a, b)
           | None => None
           end
  end.

(** The longest prefix of characters that satisfy [p], dropped and kept. *)
Fixpoint drop_while (p : Ascii.ascii → bool) (s : string) : string :=
  match s with
  | EmptyString => EmptyString
  | String c r => if p c then drop_while p r else s
  end.

Fixpoint take_while (p : Ascii.ascii → bool) (s : string) : string :=
  match s with
  | EmptyString => EmptyString
  | String c r => if p c then String c (take_while p r) else EmptyString
  end.

(** [s.trim_matches(p)] *)
Definition trim_matches (p : Ascii.ascii → bool) (s : string) : string :=
  str_rev (drop_while p (str_rev (drop_while p s))).

Definition is_quote (c : Ascii.ascii) : bool := Ascii.eqb c (chr 39) || Ascii.eqb c (chr 34).

Fixpoint all_chars (p : Ascii.ascii → bool) (s : string) : bool :=
  match s with
  | EmptyString => true
  | String c r => p c && all_chars p r
  end.

Definition is_ascii_digit (c : Ascii.ascii) : bool :=
  let n := Ascii.N_of_ascii c in ((48 <=? n) && (n <=? 57))%N.
Definition is_ascii_lowercase (c : Ascii.ascii) : bool :=
  let n := Ascii.N_of_ascii c in ((97 <=? n) && (n <=? 122))%N.
Definition is_ascii_uppercase (c : Ascii.ascii) : bool :=
  let n := Ascii.N_of_ascii c in ((65 <=? n) && (n <=? 90))%N.
Definition is_ascii_alphanumeric (c : Ascii.ascii) : bool :=
  is_ascii_digit c || is_ascii_lowercase c || is_ascii_uppercase c.

(** [s.trim_end()] *)
Definition trim_end (s : string) : string :=
  str_rev (trim_with (str_rev <$> whitespace) (String.length s) (str_rev s)).

Definition newline : string := String (chr 10) EmptyString.

(** [format!(s, args..)] for a format string whose only placeholders are [{}]. *)
Fixpoint fill (s : string) (args : list string) : string :=
  match s with
  | String c1 (String c2 rest as s') =>
      if Ascii.eqb c1 "{"%char && Ascii.eqb c2 "}"%char then
        match args with
        | arg :: args => arg +:+ fill rest args
        | [] => fill rest []
        end
      else String c1 (fill s' args)
  | _ => s
  end.

(** ** Lemmas *)

Lemma split_lacks c s : lacks c s = true → split_char c s = [s].
Proof.
  induction s as [|d r IH]; simpl; [done|]. intros [Hd Hr]%andb_prop.
  apply negb_true_iff in Hd. by rewrite Hd, IH.
Qed.

Lemma split_app c p s :
  lacks c p = true → split_char c (p +:+ String c s) = p :: split_char c s.
Proof.
  induction p as [|d p IH]; simpl; intros Hp.
  - by rewrite Ascii.eqb_refl.
  - apply andb_prop in Hp as [Hd Hp]. apply negb_true_iff in Hd. by rewrite Hd, IH.
Qed.

(** Splitting what was joined gives the parts back. *)
Lemma split_join c parts :
  parts ≠ [] → forallb (lacks c) parts = true →
  split_char c (join (String c EmptyString) parts) = parts.
Proof.
  induction parts as [|p parts IH]; [done|]. intros _ [Hp Hps]%andb_prop.
  destruct parts as [|q parts]; [by apply split_lacks|].
  change (join _ (p :: q :: parts)) with
    (p +:+ String c EmptyString +:+ join (String c EmptyString) (q :: parts)).
  change (String c EmptyString +:+ ?x) with (String c x).
  rewrite split_app by done. by rewrite IH.
Qed.
