(* ===== verification/Float64.v ===== *)
(** * [f64]

    Double-precision numbers as the Standard Library's [SpecFloat] with the
    parameters of binary64: conversions from and to integers, parsing, and
    comparison, as Rust defines them. *)

From S2P Require Import Prelude.
From S2P Require Import Text.
From S2P Require Import Json.
From Stdlib Require Import Floats.SpecFloat.

Abbreviation f64 := spec_float.

(** [n as f64]: rounds to nearest, ties to even. *)
Definition f64_of_Z (n : Z) : f64 := binary_normalize 53 1024 n 0 false.

(** [f64::EPSILON], which is [2^-52]. *)
Definition f64_epsilon : f64 := binary_normalize 53 1024 1 (-52) false.

(** [x as i64]: truncates towards zero and saturates; NaN becomes 0. *)
Definition f64_as_i64 (x : f64) : Z :=
  let clamp z := Z.max i64_min (Z.min i64_max z) in
  match x with
  | S754_nan | S754_zero _ => 0
  | S754_infinity neg => if neg then i64_min else i64_max
  | S754_finite neg m e =>
      let v := if 0 <=? e then Z.shiftl (Zpos m) e else Z.shiftr (Zpos m) (- e) in
      clamp (if neg then - v else v)
  end.

(** [x == y], [x < y], [x <= y], [(x - y).abs() < f64::EPSILON] *)
Definition f64_eqb : f64 → f64 → bool := SFeqb.
Definition f64_ltb : f64 → f64 → bool := SFltb.
Definition f64_leb : f64 → f64 → bool := SFleb.
Definition f64_close (x y : f64) : bool := SFltb (SFabs (SFsub 53 1024 x y)) f64_epsilon.

(** [x.is_finite()] *)
Definition f64_is_finite (x : f64) : bool :=
  match x with S754_nan | S754_infinity _ => false | _ => true end.

(** ** [str::parse::<f64>] *)

(** The digits at the front of [s]: their value after [acc], their number, and
    the rest. *)
Fixpoint take_digits (s : string) (acc : Z) (n : Z) : Z * Z * string :=
  match s with
  | EmptyString => (acc, n, s)
  | String c r =>
      match digit_val c with
      | Some d => take_digits r (acc * 10 + d) (n + 1)
      | None => (acc, n, s)
      end
  end.

(** [m * 10^e], rounded once. *)
Definition f64_of_decimal (neg : bool) (m e : Z) : f64 :=
  match m with
  | Zpos p =>
      if 0 <=? e then
        binary_normalize 53 1024 (if neg then - (m * 10 ^ e) else m * 10 ^ e) 0 neg
      else SFdiv 53 1024 (S754_finite neg p 0) (S754_finite false (Z.to_pos (10 ^ (- e))) 0)
  | _ => S754_zero neg
  end.

(** An optional exponent at the end of a number. *)
Definition parse_exponent (s : string) : option Z :=
  match s with
  | EmptyString => Some 0
  | String c r =>
      if Ascii.eqb c "e"%char || Ascii.eqb c "E"%char then
        let '(neg, r) :=
          match r with
          | String "-" r' => (true, r')
          | String "+" r' => (false, r')
          | _ => (false, r)
          end in
        match take_digits r 0 0 with
        | (v, n, EmptyString) => if 0 <? n then Some (if neg then - v else v) else None
        | _ => None
        end
      else None
  end.

(** Digits with an optional fraction, of which at least one digit. *)
Definition parse_decimal (neg : bool) (s : string) : option f64 :=
  let '(int, n1, r) := take_digits s 0 0 in
  let '(m, n2, r) :=
    match r with
    | String "." r' => take_digits r' int 0
    | _ => (int, 0, r)
    end in
  if n1 + n2 =? 0 then None
  else e ← parse_exponent r; Some (f64_of_decimal neg m (e - n2)).

Definition parse_f64 (s : string) : option f64 :=
  let '(neg, r) :=
    match s with
    | String "-" r => (true, r)
    | String "+" r => (false, r)
    | _ => (false, s)
    end in
  let lower := to_ascii_lowercase r in
  if bool_decide (lower = "inf" ∨ lower = "infinity") then Some (S754_infinity neg)
  else if bool_decide (lower = "nan") then Some S754_nan
  else parse_decimal neg r.

(** [Number::as_f64] and [Value::as_f64] *)
Definition number_as_f64 (n : jnum) : f64 :=
  match n with
  | PosInt n => f64_of_Z n
  | NegInt n => f64_of_Z n
  | Float f => f
  end.

Definition as_f64 (j : json) : option f64 :=
  match j with JNumber n => Some (number_as_f64 n) | _ => None end.

(** ** Examples *)

Example parse_f64_examples :
  parse_f64 "2.75" = Some (binary_normalize 53 1024 11 (-2) false) ∧
  parse_f64 "-1e2" = Some (f64_of_Z (-100)) ∧
  parse_f64 "0.1" = Some (S754_finite false 7205759403792794 (-56)) ∧
  parse_f64 ".5" = parse_f64 "5e-1" ∧
  parse_f64 "." = None ∧ parse_f64 "1e" = None ∧ parse_f64 "" = None ∧
  parse_f64 "-Infinity" = Some (S754_infinity true).
Proof. vm_compute. repeat split. Qed.

Example f64_as_i64_examples :
  option_map f64_as_i64 (parse_f64 "-2.75") = Some (-2) ∧
  option_map f64_as_i64 (parse_f64 "1e30") = Some i64_max ∧
  f64_of_Z 9007199254740993 = f64_of_Z 9007199254740992.
Proof. vm_compute. repeat split. Qed.
