(* ===== verification/GuestStore.v ===== *)
(** * runtara-workflow-stdlib: the arena of large values

    [direct_json.rs], lines 48 to 330.  A running workflow carries its scope as
    JSON.  A large value is kept once in a per-run arena and replaced in the scope
    by a handle, an object of two fields: the id of the value and a nonce of the
    run.  Reads resolve handles; values that leave the runtime are materialized;
    at loop boundaries the entries no live value reaches are freed.

    The thread-local [VALUE_STORE] and [WFREF_NONCE] are the record [ValueStore],
    passed explicitly.  serde_json on bytes and the hash of the standard library,
    whose algorithm is unspecified, are parameters. *)

From S2P Require Import Prelude.
From S2P Require Import Json.
From S2P Require Import InstanceHandlers.

(** [DefaultHasher] on bytes. *)
Class ContentHash := content_hash : bytes → Z.

Definition WFREF_KEY : string := "$wfref".
Definition WFREF_NONCE_KEY : string := "$wfnonce".
Definition WFREF_THRESHOLD_BYTES : Z := 16 * 1024.

Record StoreEntry := {
  se_bytes : bytes;
  se_nested : list Z }.

Record ValueStore := {
  entries : gmap Z StoreEntry;
  content_index : gmap Z Z;
  next_id : Z;
  wfref_nonce : Z }.

(** [reset_value_store], with the nonce [fresh_nonce] draws. *)
Definition reset_value_store (fresh : Z) : ValueStore :=
  {| entries := ∅; content_index := ∅; next_id := 0; wfref_nonce := fresh |}.

Definition make_wfref (st : ValueStore) (id : Z) : json :=
  JObject (assoc_set WFREF_NONCE_KEY (JNumber (PosInt (wfref_nonce st)))
             (assoc_set WFREF_KEY (JNumber (PosInt id)) [])).

Definition wfref_id (nonce : Z) (value : json) : option Z :=
  match value with
  | JObject object =>
      if decide (length object = 2%nat) then
        n ← (assoc_get WFREF_NONCE_KEY object ≫= as_u64);
        if decide (n ≠ nonce) then None else assoc_get WFREF_KEY object ≫= as_u64
      else None
  | _ => None
  end.

(** [collect_handle_ids], as the list it appends to [out]. *)
Fixpoint collect_handle_ids (nonce : Z) (value : json) : list Z :=
  match wfref_id nonce value with
  | Some id => [id]
  | None =>
      match value with
      | JArray items => concat (map (collect_handle_ids nonce) items)
      | JObject m => concat (map (λ kv, collect_handle_ids nonce kv.2) m)
      | _ => []
      end
  end.

Definition sum_Z (l : list Z) : Z := foldr Z.add 0 l.

Fixpoint estimate_json_size (value : json) : Z :=
  match value with
  | JNull => 4
  | JBool _ => 5
  | JNumber _ => 8
  | JString text => Z.of_nat (String.length text) + 2
  | JArray items => 2 + sum_Z (map (λ item, estimate_json_size item + 1) items)
  | JObject m =>
      2 + sum_Z (map (λ kv, Z.of_nat (String.length kv.1) + 4 + estimate_json_size kv.2) m)
  end.

(** ** Interning *)

Section store.
Context `{Ext, ContentHash}.

(** The id under which [bytes] already are in the arena. *)
Definition interned_as (st : ValueStore) (b : bytes) : option Z :=
  existing ← content_index st !! content_hash b;
  stored ← entries st !! existing;
  if decide (se_bytes stored = b) then Some existing else None.

Definition intern_if_large (value : json) (st : ValueStore) : json * ValueStore :=
  if bool_decide (is_Some (wfref_id (wfref_nonce st) value))
     || (estimate_json_size value <? WFREF_THRESHOLD_BYTES)
  then (value, st)
  else
    match json_to_vec value with
    | None => (value, st)
    | Some b =>
        match interned_as st b with
        | Some existing => (make_wfref st existing, st)
        | None =>
            let id := next_id st in
            let entry :=
              {| se_bytes := b; se_nested := collect_handle_ids (wfref_nonce st) value |} in
            (make_wfref st id,
             {| entries := <[id := entry]> (entries st);
                content_index := <[content_hash b := id]> (content_index st);
                next_id := wrap_u64 (id + 1);
                wfref_nonce := wfref_nonce st |})
        end
    end.

(** [intern_scope_entries]: every entry of a map in turn. *)
Fixpoint intern_scope_entries (m : list (string * json)) (st : ValueStore) :
  list (string * json) * ValueStore :=
  match m with
  | [] => ([], st)
  | (k, v) :: m =>
      let '(v, st) := intern_if_large v st in
      let '(m, st) := intern_scope_entries m st in
      ((k, v) :: m, st)
  end.

(** ** Resolution *)

(** The parsed value of an entry. *)
Definition stored_value (st : ValueStore) (id : Z) : option json :=
  e ← entries st !! id; json_from_slice (se_bytes e).

Definition deref_handle (st : ValueStore) (value : json) : json :=
  match wfref_id (wfref_nonce st) value with
  | Some id => default value (stored_value st id)
  | None => value
  end.

(** [materialize] with a bound on the length of a chain of handles. *)
Fixpoint materialize_within (fuel : nat) (st : ValueStore) : json → json :=
  fix go (value : json) : json :=
    match wfref_id (wfref_nonce st) value with
    | Some id =>
        match fuel with
        | O => JNull
        | S fuel =>
            match stored_value st id with
            | Some inner => materialize_within fuel st inner
            | None => JNull
            end
        end
    | None =>
        match value with
        | JArray items => JArray (map go items)
        | JObject m => JObject (map (λ kv, (kv.1, go kv.2)) m)
        | other => other
        end
    end.

(** An entry only holds handles of earlier entries, so a chain has at most
    [next_id] of them ([materialize_enough]). *)
Definition materialize (st : ValueStore) (value : json) : json :=
  materialize_within (S (Z.to_nat (next_id st))) st value.

(** ** Collection *)

(** The marking loop of [value_store_retain]; the top of the work list is its
    head. *)
Fixpoint mark (fuel : nat) (st : ValueStore) (work : list Z) (marked : gset Z) :
  option (gset Z) :=
  match work with
  | [] => Some marked
  | id :: work =>
      match fuel with
      | O => None
      | S fuel =>
          if decide (id ∈ marked) then mark fuel st work marked
          else
            let nested := match entries st !! id with Some e => se_nested e | None => [] end in
            mark fuel st (reverse nested ++ work) ({[id]} ∪ marked)
      end
  end.

(** A step of the loop takes an id off the work list or moves an entry's ids to
    it, once per entry. *)
Definition mark_steps (st : ValueStore) (work : list Z) : nat :=
  length work + sum_list_with (λ ie, length (se_nested ie.2)) (map_to_list (entries st)).

(** The handle ids of the roots, or nothing when a root does not parse. *)
Fixpoint root_ids (nonce : Z) (roots : list bytes) : option (list Z) :=
  match roots with
  | [] => Some []
  | root :: roots =>
      value ← json_from_slice root;
      ids ← root_ids nonce roots;
      Some (collect_handle_ids nonce value ++ ids)
  end.

(** The sweep: both maps keep the marked ids. *)
Definition sweep (marked : gset Z) (st : ValueStore) : ValueStore :=
  {| entries := filter (λ ie : Z * StoreEntry, ie.1 ∈ marked) (entries st);
     content_index := filter (λ hi : Z * Z, hi.2 ∈ marked) (content_index st);
     next_id := next_id st;
     wfref_nonce := wfref_nonce st |}.

(** [value_store_retain]; [None] when the marking loop exceeds its bound. *)
Definition value_store_retain (roots : list bytes) (st : ValueStore) : option ValueStore :=
  match root_ids (wfref_nonce st) roots with
  | None => Some st
  | Some work =>
      if decide (entries st = ∅) then Some st
      else marked ← mark (mark_steps st work) st (reverse work) ∅; Some (sweep marked st)
  end.

End store.
