(* ===== verification/GuestPaths.v ===== *)
(** * runtara-workflow-stdlib: references into the scope

    [direct_json.rs], lines 5904 to 6308: how the path of a reference is split
    into segments, the walk over the scope that resolves handles on the way, the
    default policy, the coercion to a declared type, and the insertion of a value
    under a dotted key. *)

From S2P Require Import Prelude.
From S2P Require Import Json.
From S2P Require Import Text.
From S2P Require Import Float64.
From S2P Require Import InstanceHandlers.
From S2P Require Import GuestStore.

(** [Display] of a JSON value (its text). *)
Class JsonDisplay := json_display : json → string.

(** ** Paths *)

Definition is_array_index_token (token : string) : bool :=
  let digits := default token (strip_prefix "-" token) in
  negb (is_empty_str digits) && all_digits digits.

(** A bracketed part, once it ended or the path did. *)
Definition bracket (index : string) : string :=
  if is_array_index_token index then "." +:+ index else "[" +:+ index +:+ "]".

(** The loop over the characters of [normalized]; [index] is the text since an
    open bracket. *)
Fixpoint dot_indexes (index : option string) (s : string) : string :=
  match s, index with
  | EmptyString, None => EmptyString
  | EmptyString, Some i => bracket i
  | String ch r, None =>
      if Ascii.eqb ch "["%char then dot_indexes (Some EmptyString) r
      else String ch (dot_indexes None r)
  | String ch r, Some i =>
      if Ascii.eqb ch "]"%char then bracket i +:+ dot_indexes None r
      else dot_indexes (Some (i +:+ String ch EmptyString)) r
  end.

(** JSON-pointer escaping of one segment. *)
Fixpoint escape_segment (s : string) : string :=
  match s with
  | EmptyString => EmptyString
  | String ch r =>
      if Ascii.eqb ch "~"%char then "~0" +:+ escape_segment r
      else if Ascii.eqb ch "/"%char then "~1" +:+ escape_segment r
      else String ch (escape_segment r)
  end.

Definition path_to_json_pointer (path : string) : string :=
  let normalized :=
    replace (dquote +:+ "]") "" (replace ("[" +:+ dquote) "."
      (replace "']" "" (replace "['" "." path))) in
  concat_str ((λ segment, "/" +:+ escape_segment segment)
                <$> split_char "."%char (dot_indexes None normalized)).

Definition unescape_pointer_segment (segment : string) : string :=
  replace "~0" "~" (replace "~1" "/" segment).

Definition path_to_segments (path : string) : list string :=
  unescape_pointer_segment <$> drop 1 (split_char "/"%char (path_to_json_pointer path)).

(** ** The walk *)

Inductive Lookup :=
| Found (value : json)
| Absent
| Mismatch (message : string).

Inductive Descent :=
| DescentChild (child : json)
| DescentAbsent
| DescentMismatch.

(** [array_index]; a [usize] holds the length of every vector, so the range
    checks of its conversions are those of the lookup that follows. *)
Definition array_index (segment : string) (len : Z) : option Z :=
  raw ← parse_i64 segment;
  if 0 <=? raw then Some raw
  else if - raw <=? len then Some (len - - raw) else None.

(** [items.get(index)] *)
Definition get_item (items : list json) (index : Z) : option json :=
  if index <? Z.of_nat (length items) then items !! Z.to_nat index else None.

Definition descend (value : json) (segment : string) : Descent :=
  match value with
  | JObject map =>
      match assoc_get segment map with
      | Some child => DescentChild child
      | None => DescentAbsent
      end
  | JArray items =>
      if is_array_index_token segment then
        match array_index segment (Z.of_nat (length items)) ≫= get_item items with
        | Some child => DescentChild child
        | None => DescentAbsent
        end
      else DescentMismatch
  | _ => DescentAbsent
  end.

Definition json_type_name (value : json) : string :=
  match value with
  | JObject _ => "object"
  | JString _ => "string"
  | JNumber _ => "number"
  | JBool _ => "boolean"
  | JArray _ => "array"
  | JNull => "null"
  end.

Definition mismatch_message (segments : list string) (depth : nat) (parent : json) : string :=
  let path := join "." segments in
  let base := join "." (take depth segments) in
  let at_ := if is_empty_str base then "the source" else "'" +:+ base +:+ "'" in
  let segment := default "" (segments !! depth) in
  match parent with
  | JArray _ =>
      "reference '" +:+ path +:+ "' cannot be resolved: " +:+ at_
        +:+ " is an array with no field '" +:+ segment
        +:+ "' — address array elements by numeric index (e.g. '" +:+ base +:+ ".0')"
  | _ =>
      "reference '" +:+ path +:+ "' cannot be resolved: " +:+ at_ +:+ " is a "
        +:+ json_type_name parent +:+ " with no field '" +:+ segment +:+ "'"
  end.

Section walk.
Context `{Ext} (st : ValueStore).

(** The loop of [lookup_segments_detailed] from depth [depth] on. *)
Fixpoint lookup_from (segments : list string) (depth : nat) (current : json)
  (rest : list string) : Lookup :=
  match rest with
  | [] => Found (materialize st current)
  | segment :: rest =>
      match descend current segment with
      | DescentChild child => lookup_from segments (S depth) (deref_handle st child) rest
      | DescentAbsent => Absent
      | DescentMismatch => Mismatch (mismatch_message segments depth current)
      end
  end.

Definition lookup_segments_detailed (source : json) (segments : list string) : Lookup :=
  lookup_from segments 0 (deref_handle st source) segments.
End walk.

Definition resolve_lookup (lookup : Lookup) (dflt : option json) : result string json :=
  match lookup with
  | Found JNull | Absent => Ok (default JNull dflt)
  | Found value => Ok value
  | Mismatch message => match dflt with Some d => Ok d | None => Err message end
  end.

(** ** Type hints *)

(** [Value::Number(n.into())] for an [i64]. *)
Definition number_of_i64 (n : Z) : json :=
  JNumber (if n <? 0 then NegInt n else PosInt n).

(** [Number::from_f64] *)
Definition number_from_f64 (x : f64) : option json :=
  if f64_is_finite x then Some (JNumber (Float x)) else None.

Definition show_bool (b : bool) : string := if b then "true" else "false".

(** [a.or_else(|| b)] *)
Definition or_else {A} (a b : option A) : option A :=
  match a with Some _ => a | None => b end.

Section hints.
Context `{JsonDisplay}.

Definition coercion_result (value : json) (type_name : string) : result string json :=
  match value with
  | JNull => Ok JNull
  | _ => Err ("value " +:+ json_display value +:+ " cannot be coerced to " +:+ type_name)
  end.

Definition hint_string (value : json) : json :=
  match value with
  | JString _ | JNull => value
  | JNumber n => JString (json_display (JNumber n))
  | JBool b => JString (show_bool b)
  | other => JString (json_display other)
  end.

Definition hint_integer (value : json) : result string json :=
  let parsed :=
    or_else (as_i64 value)
      (or_else (f64_as_i64 <$> as_f64 value)
        (or_else (as_str value ≫= parse_i64)
          ((λ b : bool, if b then 1 else 0) <$> as_bool value))) in
  match parsed with
  | Some parsed => Ok (number_of_i64 parsed)
  | None => coercion_result value "integer"
  end.

Definition hint_number (value : json) : result string json :=
  match or_else (as_f64 value) (as_str value ≫= parse_f64) ≫= number_from_f64 with
  | Some parsed => Ok parsed
  | None => coercion_result value "number"
  end.

Definition hint_boolean (value : json) : json :=
  match value with
  | JBool _ | JNull => value
  | JString s => JBool (bool_decide (s = "true" ∨ s = "1"))
  | JNumber n => JBool (match as_i64 (JNumber n) with Some i => negb (i =? 0) | None => false end)
  | JArray l => JBool (bool_decide (l ≠ []))
  | JObject m => JBool (bool_decide (m ≠ []))
  end.

Definition apply_type_hint (value : json) (type_hint : option string) : result string json :=
  match type_hint with
  | Some hint =>
      if decide (hint = "string") then Ok (hint_string value)
      else if decide (hint = "integer") then hint_integer value
      else if decide (hint = "number") then hint_number value
      else if decide (hint = "boolean") then Ok (hint_boolean value)
      else Ok value
  | None => Ok value
  end.

Definition coerce_reference_value (value : json) (type_hint : option string)
  (dflt : option json) : result string json :=
  match apply_type_hint value type_hint with
  | Ok coerced => Ok coerced
  | Err error =>
      match dflt with
      | Some d => apply_type_hint d type_hint
      | None => Err error
      end
  end.
End hints.

(** ** Insertion under a dotted key *)

(** The loop of [insert_nested] below the first part. *)
Fixpoint insert_at (current : json) (parts : list string) (value : json) : json :=
  match parts with
  | [] => current
  | [part] =>
      match current with
      | JObject map => JObject (assoc_set part value map)
      | _ => current
      end
  | part :: parts =>
      let map := match current with JObject map => map | _ => [] end in
      let child := default (JObject []) (assoc_get part map) in
      JObject (assoc_set part (insert_at child parts value) map)
  end.

Definition insert_nested (output : list (string * json)) (key : string) (value : json) :
  list (string * json) :=
  match split_char "."%char key with
  | [] => output
  | [first] => assoc_set first value output
  | first :: parts =>
      let child := default (JObject []) (assoc_get first output) in
      assoc_set first (insert_at child parts value) output
  end.

(** ** Examples *)

Example path_examples :
  path_to_segments "steps.s1.outputs[0]['a.b']" = ["steps"; "s1"; "outputs"; "0"; "a"; "b"] ∧
  path_to_segments "data.items[-1].sku/x~y" = ["data"; "items"; "-1"; "sku/x~y"] ∧
  path_to_segments "" = [""].
Proof. repeat split. Qed.
