(* ===== verification/GuestExpr.v ===== *)
(** * runtara-workflow-stdlib: mappings and conditions, interpreted

    [conditions.rs], [template.rs] and the interpreter of [direct_json.rs], lines
    5441 to 5752: values are compared and tested for truth, mapping values are
    resolved against the scope, and conditions are evaluated from their JSON form.

    The interpreter's functions call each other on one JSON node; [eval_argument]
    computes for a node both its truth ([eval_condition_expression]) and its value
    ([eval_condition_argument_as_value]), by recursion on the node.  Arguments that
    the code skips after a decided AND or OR are evaluated and ignored here. *)

From S2P Require Import Prelude.
From S2P Require Import Json.
From S2P Require Import Text.
From S2P Require Import Float64.
From S2P Require Import InstanceHandlers.
From S2P Require Import GuestStore.
From S2P Require Import GuestPaths.
From Stdlib Require Import Floats.SpecFloat.

(** ** conditions.rs *)

Fixpoint values_equal (left right : json) {struct left} : bool :=
  match left, right with
  | JNull, JNull => true
  | JBool l, JBool r => Bool.eqb l r
  | JNumber l, JNumber r => f64_close (number_as_f64 l) (number_as_f64 r)
  | JString l, JString r => bool_decide (l = r)
  | JArray l, JArray r =>
      if decide (length l ≠ length r) then false
      else
        (fix all_equal (l r : list json) : bool :=
           match l, r with
           | a :: l, b :: r => values_equal a b && all_equal l r
           | _, _ => true
           end) l r
  | JObject l, JObject r =>
      if decide (length l ≠ length r) then false
      else forallb (λ kv, match assoc_get kv.1 r with
                          | Some rv => values_equal kv.2 rv
                          | None => false
                          end) l
  | JString s, JNumber n | JNumber n, JString s =>
      match parse_f64 s with
      | Some parsed => f64_close parsed (number_as_f64 n)
      | None => false
      end
  | _, _ => false
  end.

Definition is_truthy (value : json) : bool :=
  match value with
  | JNull => false
  | JBool b => b
  | JNumber n =>
      match as_i64 (JNumber n) with
      | Some i => negb (i =? 0)
      | None => negb (f64_eqb (number_as_f64 n) (S754_zero false))
      end
  | JString s => negb (is_empty_str s)
  | JArray a => bool_decide (a ≠ [])
  | JObject o => bool_decide (o ≠ [])
  end.

Definition to_number (value : json) : option f64 :=
  match value with
  | JNumber n => Some (number_as_f64 n)
  | JString s => parse_f64 s
  | JBool b => Some (f64_of_Z (if b then 1 else 0))
  | _ => None
  end.

(** ** template.rs, over the template engine *)

Inductive ErrorKind :=
| UnknownFilter | UnknownFunction | UnknownTest | UnknownMethod | OtherErrorKind.

Record MjError := { mj_kind : ErrorKind; mj_text : string }.

(** minijinja: environments with named templates. *)
Class Minijinja := {
  Environment : Type;
  MjTemplate : Type;
  env_new : Environment;
  add_template : Environment → string → string → result MjError Environment;
  add_template_owned : Environment → string → string → result MjError Environment;
  get_template : Environment → string → result MjError MjTemplate;
  render : MjTemplate → json → result MjError string }.

Definition INLINE_TEMPLATE_NAME : string := "__inline".

Definition unknown_helper_hint (error : MjError) : string :=
  match mj_kind error with
  | UnknownFilter | UnknownFunction | UnknownTest | UnknownMethod =>
      " — this helper is not available in Runtara templates; see docs/templating.md "
        +:+ "for the supported filters and functions. Note `now()` and `joiner()` are not "
        +:+ "provided (use the datetime agent for timestamps)."
  | OtherErrorKind => ""
  end.

(** [r.map_err(f)] *)
Definition map_err {E F A} (f : E → F) (r : result E A) : result F A :=
  match r with Ok a => Ok a | Err e => Err (f e) end.

Section template.
Context `{Minijinja}.

Definition render_error (e : MjError) : string :=
  "Template render error: " +:+ mj_text e +:+ unknown_helper_hint e.

Definition render_template (template_str : string) (context : json) : result string string :=
  env ← map_err (λ e, "Template parse error: " +:+ mj_text e)
          (add_template env_new INLINE_TEMPLATE_NAME template_str);
  tmpl ← map_err (λ e, "Template retrieval error: " +:+ mj_text e)
           (get_template env INLINE_TEMPLATE_NAME);
  map_err render_error (render tmpl context).

Record CompiledTemplate := { ct_env : Environment }.

Definition CompiledTemplate_parse (template_str : string) : result string CompiledTemplate :=
  env ← map_err (λ e, "Template parse error: " +:+ mj_text e)
          (add_template_owned env_new INLINE_TEMPLATE_NAME template_str);
  Ok {| ct_env := env |}.

Definition CompiledTemplate_render (t : CompiledTemplate) (context : json) :
  result string string :=
  tmpl ← map_err (λ e, "Template retrieval error: " +:+ mj_text e)
           (get_template (ct_env t) INLINE_TEMPLATE_NAME);
  map_err render_error (render tmpl context).
End template.

(** ** Loops with [?] *)

Section try_loops.
Context {E A : Type} (f : A → result E json).

(** Insert the results for every entry in turn. *)
Fixpoint try_entries (m : list (string * A)) (output : list (string * json)) :
  result E (list (string * json)) :=
  match m with
  | [] => Ok output
  | (key, child) :: m => v ← f child; try_entries m (assoc_set key v output)
  end.

(** Collect the results for every item. *)
Fixpoint try_items (items : list A) : result E (list json) :=
  match items with
  | [] => Ok []
  | item :: items => v ← f item; vs ← try_items items; Ok (v :: vs)
  end.
End try_loops.

(** ** Mapping values *)

Section interpreter.
Context `{Ext, JsonDisplay, Minijinja} (st : ValueStore).

Definition apply_reference (map : list (string * json)) (source : json) : result string json :=
  match assoc_get "value" map ≫= as_str with
  | None => Err "reference mapping value must be a string path"
  | Some path =>
      let dflt := assoc_get "default" map in
      value ← resolve_lookup (lookup_segments_detailed st source (path_to_segments path)) dflt;
      coerce_reference_value value (assoc_get "type" map ≫= as_str) dflt
  end.

(** [apply_composite], given the mapping of its parts. *)
Definition apply_composite (apply : json → result string json) (value : json) :
  result string json :=
  match value with
  | JObject map => JObject <$> try_entries apply map []
  | JArray items => JArray <$> try_items apply items
  | _ => Err "composite mapping value must be an object or array"
  end.

Fixpoint apply_mapping_value (value source : json) {struct value} : result string json :=
  match value with
  | JObject map =>
      match assoc_get "valueType" map ≫= as_str with
      | None => Err "mapping value missing valueType"
      | Some value_type =>
          if decide (value_type = "reference") then apply_reference map source
          else if decide (value_type = "immediate") then
            Ok (default JNull (assoc_get "value" map))
          else if decide (value_type = "composite") then
            let composite := apply_composite (λ v, apply_mapping_value v source) in
            default (composite JNull) (assoc_with composite "value" map)
          else if decide (value_type = "template") then
            match assoc_get "value" map ≫= as_str with
            | None => Err "template mapping value must be a string"
            | Some template => JString <$> render_template template (materialize st source)
            end
          else Err ("unsupported mapping valueType '" +:+ value_type +:+ "'")
      end
  | _ => Err "mapping value must be an object"
  end.

(** The loop of [apply_input_mapping]. *)
Fixpoint insert_mapped (entries : list (string * json)) (source : json)
  (output : list (string * json)) : result string (list (string * json)) :=
  match entries with
  | [] => Ok output
  | (key, value) :: entries =>
      value ← apply_mapping_value value source;
      insert_mapped entries source (insert_nested output key value)
  end.

Definition apply_input_mapping (mapping source : json) : result string json :=
  match mapping with
  | JObject entries => JObject <$> insert_mapped entries source []
  | _ => Err "input mapping must be a JSON object"
  end.

(** ** Conditions *)

Definition is_condition_operation (expr : json) : bool :=
  bool_decide (is_Some (json_get "op" expr))
  || bool_decide (json_get "type" expr ≫= as_str = Some "operation").

Definition eval_condition_value (value source : json) : result string json :=
  if decide (json_get "type" value ≫= as_str = Some "value") then
    match json_get "valueType" value, json_get "value" value with
    | Some _, _ => apply_mapping_value value source
    | None, Some inner => apply_mapping_value inner source
    | None, None => apply_mapping_value value source
    end
  else apply_mapping_value value source.

(** A node's truth and its value. *)
Record evaluated := {
  as_truth : result string bool;
  as_value : result string json }.

Definition eval_comparison (op : string) (args : list evaluated) : result string bool :=
  match args with
  | a0 :: a1 :: _ =>
      lhs ← as_value a0;
      rhs ← as_value a1;
      match to_number lhs, to_number rhs with
      | Some lhs, Some rhs =>
          Ok (if decide (op = "GT") then f64_ltb rhs lhs
              else if decide (op = "GTE") then f64_leb rhs lhs
              else if decide (op = "LT") then f64_ltb lhs rhs
              else if decide (op = "LTE") then f64_leb lhs rhs
              else false)
      | _, _ => Ok false
      end
  | _ => Ok false
  end.

Definition eval_equality (op : string) (args : list evaluated) : result string bool :=
  match args with
  | a0 :: a1 :: _ =>
      lhs ← as_value a0;
      rhs ← as_value a1;
      let equal := values_equal lhs rhs in
      Ok (if decide (op = "NE") then negb equal else equal)
  | _ => Ok false
  end.

Definition eval_string_match (op : string) (args : list evaluated) : result string bool :=
  match args with
  | a0 :: a1 :: _ =>
      lhs ← as_value a0;
      rhs ← as_value a1;
      match as_str lhs, as_str rhs with
      | Some lhs, Some rhs =>
          Ok (if decide (op = "STARTS_WITH") then starts_with lhs rhs
              else ends_with lhs rhs)
      | _, _ => Ok false
      end
  | _ => Ok false
  end.

(** [opt.is_some_and(|items| items.iter().any(f))] *)
Definition any_item (f : json → bool) (items : option (list json)) : bool :=
  match items with Some items => existsb f items | None => false end.

Definition eval_array_match (op : string) (args : list evaluated) : result string bool :=
  match args with
  | a0 :: a1 :: _ =>
      lhs ← as_value a0;
      rhs ← as_value a1;
      let matched :=
        if decide (op = "CONTAINS") then any_item (λ item, values_equal item rhs) (as_array lhs)
        else any_item (values_equal lhs) (as_array rhs) in
      Ok (if decide (op = "NOT_IN") then negb matched else matched)
  | _ => Ok false
  end.

(** The length of a value, as both evaluators compute it. *)
Definition value_length (value : json) : Z :=
  match value with
  | JString s => Z.of_nat (String.length s)
  | JArray l => Z.of_nat (length l)
  | JObject m => Z.of_nat (length m)
  | JNull => 0
  | _ => 1
  end.

Definition eval_length_as_value (args : list evaluated) : result string json :=
  match args with
  | [] => Ok (number_of_i64 0)
  | arg :: _ => (λ value, number_of_i64 (value_length value)) <$> as_value arg
  end.

(** [value.as_i64().or_else(|| value.as_u64() as i64).unwrap_or(0) > 0] *)
Definition positive_length (value : json) : bool :=
  0 <? default 0 (or_else (as_i64 value) (wrap_i64 <$> as_u64 value)).

Definition value_is_empty (value : json) : bool :=
  match value with
  | JArray l => bool_decide (l = [])
  | JString s => is_empty_str s
  | JObject m => bool_decide (m = [])
  | JNull => true
  | _ => false
  end.

(** [args.first().map(f).unwrap_or(Ok(d))] on values. *)
Definition first_value (f : json → bool) (d : bool) (args : list evaluated) : result string bool :=
  match args with [] => Ok d | arg :: _ => f <$> as_value arg end.

(** [try_fold] of AND ([stop = false]) and OR ([stop = true]). *)
Fixpoint fold_until (stop acc : bool) (l : list (result string bool)) : result string bool :=
  match l with
  | [] => Ok acc
  | r :: l => acc ← (if Bool.eqb acc stop then Ok stop else r); fold_until stop acc l
  end.

Definition query_only_message (op : string) : string :=
  "condition operator '" +:+ op +:+ "' is only valid inside object-model query conditions; "
    +:+ "the workflow runtime cannot evaluate it".

Definition query_only (op : string) : bool :=
  bool_decide (op ∈ ["SIMILARITY_GTE"; "MATCH"; "COSINE_DISTANCE_LTE"; "L2_DISTANCE_LTE"]).

(** The dispatch of [eval_condition_operation], given its evaluated arguments. *)
Definition eval_operator (op : string) (args : list evaluated) : result string bool :=
  if decide (op = "AND") then fold_until false true (as_truth <$> args)
  else if decide (op = "OR") then fold_until true false (as_truth <$> args)
  else if decide (op = "NOT") then
    match args with [] => Ok true | arg :: _ => negb <$> as_truth arg end
  else if decide (op ∈ ["GT"; "GTE"; "LT"; "LTE"]) then eval_comparison op args
  else if decide (op ∈ ["EQ"; "NE"]) then eval_equality op args
  else if decide (op ∈ ["STARTS_WITH"; "ENDS_WITH"]) then eval_string_match op args
  else if decide (op ∈ ["CONTAINS"; "IN"; "NOT_IN"]) then eval_array_match op args
  else if decide (op = "LENGTH") then positive_length <$> eval_length_as_value args
  else if decide (op = "IS_DEFINED") then first_value (λ v, negb (is_null v)) false args
  else if decide (op = "IS_EMPTY") then first_value value_is_empty true args
  else if decide (op = "IS_NOT_EMPTY") then first_value (λ v, negb (value_is_empty v)) false args
  else if query_only op then Err (query_only_message op)
  else Err ("unsupported condition operator '" +:+ op +:+ "'").

(** [eval_condition_operation] and the LENGTH case of
    [eval_condition_argument_as_value], given the evaluated arguments. *)
Definition eval_operation (op : option string) (args : option (list evaluated)) : evaluated :=
  let truth :=
    match op, args with
    | None, _ => Err "condition operation missing op"
    | Some _, None => Err "condition operation missing arguments"
    | Some op, Some args => eval_operator op args
    end in
  {| as_truth := truth;
     as_value :=
       if decide (op = Some "LENGTH") then
         match args with
         | None => Err "LENGTH condition missing arguments"
         | Some args => eval_length_as_value args
         end
       else JBool <$> truth |}.

Fixpoint eval_argument (arg source : json) {struct arg} : evaluated :=
  match arg with
  | JObject map =>
      if is_condition_operation (JObject map) then
        eval_operation (assoc_get "op" map ≫= as_str)
          (mjoin (assoc_with (λ v,
             match v with
             | JArray args => Some (List.map (λ a, eval_argument a source) args)
             | _ => None
             end) "arguments" map))
      else
        let value := eval_condition_value (JObject map) source in
        {| as_truth := is_truthy <$> value; as_value := value |}
  | _ =>
      let value := eval_condition_value arg source in
      {| as_truth := is_truthy <$> value; as_value := value |}
  end.

Definition eval_condition_expression (expr source : json) : result string bool :=
  as_truth (eval_argument expr source).

Definition eval_condition_argument_as_bool (arg source : json) : result string bool :=
  as_truth (eval_argument arg source).

Definition eval_condition_argument_as_value (arg source : json) : result string json :=
  as_value (eval_argument arg source).

End interpreter.
