(* ===== verification/GuestScenarios.v ===== *)
(** * Concrete values of the workflow runtime

    Library functions and JSON values on which the theorems about the runtime are
    instantiated: a codec for strings and one handle, a hash, a template engine
    that renders a template as its own text. *)

From S2P Require Import Prelude.
From S2P Require Import Json.
From S2P Require Import InstanceHandlers.
From S2P Require Import GuestStore.
From S2P Require Import GuestPaths.
From S2P Require Import GuestExpr.

Definition run_nonce : Z := 7.

Definition fresh_arena : ValueStore := reset_value_store run_nonce.

(** The handle of the first interned value, which the codec writes as ["h"]. *)
Definition first_handle : json := make_wfref fresh_arena 0.

Definition codec : Ext :=
  {| json_from_slice := λ b,
       if decide (b = list_byte_of_string "h") then Some first_handle
       else Some (JString (string_of_list_byte b));
     json_to_vec := λ v,
       match v with JString s => Some (list_byte_of_string s) | _ => None end;
     base64_decode := λ s, Some (list_byte_of_string s);
     from_timestamp_millis := λ ms, Some (ms * 1000);
     timestamp_millis := λ t, t / 1000 |}.

Definition length_hash : ContentHash := λ b, Z.of_nat (length b).

Definition plain_display : JsonDisplay := λ v, match v with JString s => s | _ => "value" end.

Definition text_engine : Minijinja :=
  {| Environment := string; MjTemplate := string; env_new := "";
     add_template := λ _ _ text, Ok text;
     add_template_owned := λ _ _ text, Ok text;
     get_template := λ env _, Ok env;
     render := λ t _, Ok t |}.

(** A text that is just large enough to be interned. *)
Definition big_text : string := string_of_list_ascii (replicate (16 * 1024) "x"%char).

Definition big : json := JString big_text.

Definition demo_scope : list (string * json) := [("big", big); ("small", JString "y")].

(** [demo_scope] after interning. *)
Definition interned_scope : json := JObject [("big", first_handle); ("small", JString "y")].

(** An arena that holds [big]. *)
Definition big_arena : ValueStore :=
  {| entries := {[0 := {| se_bytes := list_byte_of_string big_text; se_nested := [] |}]};
     content_index := {[16384 := 0]};
     next_id := 1;
     wfref_nonce := run_nonce |}.

(** The reference mapping of [path]. *)
Definition reference_to (path : string) : json :=
  JObject [("value", JString path); ("valueType", JString "reference")].

Definition literal (v : json) : json :=
  JObject [("value", v); ("valueType", JString "immediate")].

Definition operation (op : string) (args : list json) : json :=
  JObject [("arguments", JArray args); ("op", JString op); ("type", JString "operation")].
