(* ===== verification/GuestStoreProperties.v ===== *)
(** * Properties of the arena

    Interning is transparent: a value and its handle materialize alike, and no
    other value changes.  A collection frees exactly what the roots do not reach.
    Both keep the arena well formed: entries parse, are large, are not handles,
    and refer to earlier entries that are present. *)

From S2P Require Import Prelude.
From S2P Require Import Json.
From S2P Require Import InstanceHandlers.
From S2P Require Import GuestStore.
From S2P Require Import GuestScenarios.

(** ** Vocabulary of the statements *)

Section vocabulary.
Context `{Ext}.

(** Every handle in [v] has an entry. *)
Definition live (st : ValueStore) (v : json) : Prop :=
  Forall (λ id, is_Some (entries st !! id)) (collect_handle_ids (wfref_nonce st) v).

(** What is stored under [id]. *)
Definition entry_ok (st : ValueStore) (id : Z) (e : StoreEntry) : Prop :=
  0 ≤ id < next_id st ∧
  ∃ v, json_from_slice (se_bytes e) = Some v ∧
       wfref_id (wfref_nonce st) v = None ∧
       WFREF_THRESHOLD_BYTES ≤ estimate_json_size v ∧
       se_nested e = collect_handle_ids (wfref_nonce st) v ∧
       Forall (λ j, j < id ∧ is_Some (entries st !! j)) (se_nested e).

Record arena_wf (st : ValueStore) : Prop := {
  wf_next : 0 ≤ next_id st;
  wf_entry : map_Forall (entry_ok st) (entries st) }.

(** serde_json reads back what it writes for [v]. *)
Definition roundtrips (v : json) : Prop :=
  ∃ b, json_to_vec v = Some b ∧ json_from_slice b = Some v.

(** [v] is carried at most by a handle or as a small value. *)
Definition compact (nonce : Z) (v : json) : Prop :=
  is_Some (wfref_id nonce v) ∨ estimate_json_size v < WFREF_THRESHOLD_BYTES.

(** Entry [i] holds a handle of [j]. *)
Definition points_to (st : ValueStore) (i j : Z) : Prop :=
  ∃ e, entries st !! i = Some e ∧ j ∈ se_nested e.

(** [id] is in one of the roots, or in an entry reached from there. *)
Definition reachable (st : ValueStore) (work : list Z) (id : Z) : Prop :=
  ∃ r, r ∈ work ∧ rtc (points_to st) r id.
End vocabulary.

(** ** Handles *)

Lemma wfref_id_make st id : wfref_id (wfref_nonce st) (make_wfref st id) = Some id.
Proof. unfold make_wfref. simpl. by rewrite decide_False by (intros Hn; by apply Hn). Qed.

Lemma collect_handle nonce v id : wfref_id nonce v = Some id → collect_handle_ids nonce v = [id].
Proof. intros Hv. by destruct v; simpl in *; rewrite ?Hv. Qed.

Lemma collect_array nonce l : collect_handle_ids nonce (JArray l) = concat (map (collect_handle_ids nonce) l).
Proof. reflexivity. Qed.

Lemma collect_object nonce m :
  wfref_id nonce (JObject m) = None →
  collect_handle_ids nonce (JObject m) = concat (map (λ kv, collect_handle_ids nonce kv.2) m).
Proof. intros Hm. cbn [collect_handle_ids]. by rewrite Hm. Qed.

Lemma Forall_concat_map {A B} (P : B → Prop) (f : A → list B) (l : list A) :
  Forall P (concat (map f l)) ↔ Forall (λ x, Forall P (f x)) l.
Proof.
  induction l as [|x l IH]; simpl; [by split|].
  by rewrite Forall_app, Forall_cons, IH.
Qed.

Section properties.
Context `{Ext, ContentHash}.

(** ** Materialization *)

Lemma mat_handle n st v id :
  wfref_id (wfref_nonce st) v = Some id →
  materialize_within (S n) st v =
  match stored_value st id with Some u => materialize_within n st u | None => JNull end.
Proof. intros Hv. destruct v; try done. cbn [materialize_within]. by rewrite Hv. Qed.

Lemma mat_handle_0 st v id :
  wfref_id (wfref_nonce st) v = Some id → materialize_within 0 st v = JNull.
Proof. intros Hv. destruct v; try done. cbn [materialize_within]. by rewrite Hv. Qed.

Lemma mat_array n st l :
  materialize_within n st (JArray l) = JArray (map (materialize_within n st) l).
Proof. by destruct n. Qed.

Lemma mat_object n st m :
  wfref_id (wfref_nonce st) (JObject m) = None →
  materialize_within n st (JObject m) =
  JObject (map (λ kv, (kv.1, materialize_within n st kv.2)) m).
Proof. intros Hm. destruct n; cbn [materialize_within]; by rewrite Hm. Qed.

(** Values are compared node by node: handles, then arrays and objects. *)
Lemma mat_ext n m st st' (P : Z → Prop) v :
  wfref_nonce st' = wfref_nonce st →
  (∀ u id, wfref_id (wfref_nonce st) u = Some id → P id →
     materialize_within n st' u = materialize_within m st u) →
  Forall P (collect_handle_ids (wfref_nonce st) v) →
  materialize_within n st' v = materialize_within m st v.
Proof.
  intros Hn Hh. induction v as [| | | |l IH|ms IH] using json_nested_ind; intros HP;
    try by destruct n, m.
  - rewrite !mat_array. f_equal. rewrite collect_array, Forall_concat_map in HP.
    induction IH as [|x l Hx _ IHl]; simpl; [done|]. inversion_clear HP. by rewrite Hx, IHl.
  - destruct (wfref_id (wfref_nonce st) (JObject ms)) as [id|] eqn:Hid.
    + apply (Hh _ id); [done|]. by rewrite (collect_handle _ _ _ Hid), Forall_singleton in HP.
    + rewrite !mat_object by congruence. f_equal.
      rewrite collect_object, Forall_concat_map in HP by done. clear Hid.
      induction IH as [|[k x] l Hx _ IHl]; simpl; [done|]. inversion_clear HP.
      simpl in *. by rewrite Hx, IHl.
Qed.

Lemma stored_entry st id e :
  arena_wf st → entries st !! id = Some e →
  ∃ v, stored_value st id = Some v ∧ wfref_id (wfref_nonce st) v = None ∧
       WFREF_THRESHOLD_BYTES ≤ estimate_json_size v ∧
       se_nested e = collect_handle_ids (wfref_nonce st) v ∧
       Forall (λ j, j < id ∧ is_Some (entries st !! j)) (collect_handle_ids (wfref_nonce st) v).
Proof.
  intros Hwf He. destruct (wf_entry _ Hwf _ _ He) as (_ & v & Hv & Hid & Hsz & Hn & Hall).
  exists v. unfold stored_value. rewrite He. simpl. by rewrite Hn in Hall.
Qed.

Lemma stored_value_entry st id u :
  arena_wf st → stored_value st id = Some u →
  ∃ e, entries st !! id = Some e ∧ wfref_id (wfref_nonce st) u = None ∧
       WFREF_THRESHOLD_BYTES ≤ estimate_json_size u ∧
       se_nested e = collect_handle_ids (wfref_nonce st) u ∧
       Forall (λ j, j < id ∧ is_Some (entries st !! j)) (collect_handle_ids (wfref_nonce st) u).
Proof.
  intros Hwf Hu. unfold stored_value in Hu. apply bind_Some in Hu as (e & He & Hs).
  destruct (stored_entry _ _ _ Hwf He) as (v & Hv & Hrest).
  exists e. unfold stored_value in Hv. rewrite He in Hv. simpl in Hv.
  by rewrite Hs in Hv; simplify_eq.
Qed.

(** The bound on chains of handles is never reached. *)
Lemma materialize_enough st k : arena_wf st → ∀ v n m,
  Forall (λ id, (Z.to_nat id < k)%nat) (collect_handle_ids (wfref_nonce st) v) →
  (k ≤ n)%nat → (k ≤ m)%nat → materialize_within n st v = materialize_within m st v.
Proof.
  intros Hwf. induction (lt_wf k) as [k _ IH]. intros v n m Hk Hn Hm.
  eapply (mat_ext n m st st (λ id, (Z.to_nat id < k)%nat)); [done| |done].
  intros u id Hu Hid. destruct n as [|n], m as [|m]; [lia..|].
  rewrite !(mat_handle _ _ _ _ Hu). destruct (stored_value st id) as [w|] eqn:Hw; [|done].
  destruct (stored_value_entry _ _ _ Hwf Hw) as (e & He & _ & _ & _ & Hall).
  assert (0 ≤ id) by (by destruct (wf_entry _ Hwf _ _ He) as [[] _]).
  apply (IH (Z.to_nat id)); [lia| |lia|lia].
  eapply Forall_impl; [exact Hall|]. intros j [Hj [e' He']]. simpl in *.
  destruct (wf_entry _ Hwf _ _ He') as [[] _]. lia.
Qed.

(** Two arenas that agree on a set closed under references materialize alike. *)
Lemma materialize_agree n st st' (P : Z → Prop) : arena_wf st →
  wfref_nonce st' = wfref_nonce st →
  (∀ id, P id → entries st' !! id = entries st !! id) →
  (∀ id e, P id → entries st !! id = Some e → Forall P (se_nested e)) →
  ∀ v, Forall P (collect_handle_ids (wfref_nonce st) v) →
  materialize_within n st' v = materialize_within n st v.
Proof.
  intros Hwf Hn Hsame Hcl. induction n as [|n IH]; intros v HP;
    apply (mat_ext _ _ st st' P); try done; intros u id Hu Hid.
  - by rewrite !(mat_handle_0 _ u id) by congruence.
  - rewrite !(mat_handle n _ u id) by congruence.
    assert (stored_value st' id = stored_value st id) as ->
      by (unfold stored_value; by rewrite Hsame).
    destruct (stored_value st id) as [w|] eqn:Hw; [|done]. apply IH.
    destruct (stored_value_entry _ _ _ Hwf Hw) as (e & He & _ & _ & Hne & _).
    rewrite <-Hne. eauto.
Qed.

Lemma live_bounded st v : arena_wf st → live st v →
  Forall (λ id, (Z.to_nat id < S (Z.to_nat (next_id st)))%nat)
    (collect_handle_ids (wfref_nonce st) v).
Proof.
  intros Hwf Hl. eapply Forall_impl; [exact Hl|]. intros id [e He].
  destruct (wf_entry _ Hwf _ _ He) as [[] _]. simpl. lia.
Qed.

(** ** Interning *)

(** Adding an entry under a fresh id changes no live value. *)
Lemma materialize_fresh st st' v : arena_wf st → live st v →
  wfref_nonce st' = wfref_nonce st → next_id st ≤ next_id st' →
  (∀ id, is_Some (entries st !! id) → entries st' !! id = entries st !! id) →
  materialize st' v = materialize st v ∧ live st' v.
Proof.
  intros Hwf Hl Hn Hnext Hsame. split.
  - unfold materialize.
    rewrite (materialize_agree _ st st' (λ id, is_Some (entries st !! id))); try done.
    + eapply materialize_enough; [done|by apply live_bounded|lia|lia].
    + intros id e _ He. destruct (wf_entry _ Hwf _ _ He) as (_ & v' & _ & _ & _ & _ & Hall).
      eapply Forall_impl; [exact Hall|]. by intros ? [].
  - unfold live in *. rewrite Hn. eapply Forall_impl; [exact Hl|]. intros id Hid. simpl.
    by rewrite Hsame.
Qed.

Lemma wrap_u64_next n : 0 ≤ n < u64_max → wrap_u64 (n + 1) = n + 1.
Proof. unfold u64_max, wrap_u64. intros ?. apply Z.mod_small. lia. Qed.

(** The arena after a new entry for [v]. *)
Lemma wf_new_entry st v b h :
  arena_wf st → live st v → next_id st < u64_max →
  json_from_slice b = Some v → wfref_id (wfref_nonce st) v = None →
  WFREF_THRESHOLD_BYTES ≤ estimate_json_size v →
  arena_wf
    {| entries := <[next_id st := {| se_bytes := b;
                      se_nested := collect_handle_ids (wfref_nonce st) v |}]> (entries st);
       content_index := <[h := next_id st]> (content_index st);
       next_id := wrap_u64 (next_id st + 1);
       wfref_nonce := wfref_nonce st |}.
Proof.
  intros [Hnn Hwf] Hl Hmax Hb Hid Hsz. split; simpl; rewrite wrap_u64_next by lia; [lia|].
  assert (Hmono : ∀ e j, is_Some (entries st !! j) →
            is_Some (<[next_id st := e]> (entries st) !! j))
    by (intros; apply lookup_insert_is_Some'; by right).
  apply map_Forall_insert_2.
  - split; [simpl; lia|]. exists v. do 4 (split; [done|]).
    eapply Forall_impl; [exact Hl|]. intros j [e He].
    destruct (Hwf _ _ He) as [[] _]. split; [done|]. apply Hmono. by exists e.
  - intros id e He. destruct (Hwf _ _ He) as ([] & u & ? & ? & ? & ? & Hall).
    split; [simpl; lia|]. exists u. do 4 (split; [done|]).
    eapply Forall_impl; [exact Hall|]. intros j []. eauto.
Qed.

Lemma live_handle st id : is_Some (entries st !! id) → live st (make_wfref st id).
Proof.
  intros Hid. unfold live. by rewrite (collect_handle _ _ _ (wfref_id_make st id)), Forall_singleton.
Qed.

(** A handle materializes to the value stored under it. *)
Lemma materialize_make st id e v :
  arena_wf st → entries st !! id = Some e → json_from_slice (se_bytes e) = Some v →
  materialize st (make_wfref st id) = materialize st v.
Proof.
  intros Hwf He Hv. unfold materialize. rewrite (mat_handle _ _ _ _ (wfref_id_make st id)).
  unfold stored_value. rewrite He. cbn [mbind option_bind]. rewrite Hv.
  destruct (wf_entry _ Hwf _ _ He) as ([] & u & Hu & _ & _ & Hn & Hall). simplify_eq.
  eapply (materialize_enough _ (Z.to_nat (next_id st))); [done| |lia|lia].
  rewrite <-Hn. eapply Forall_impl; [exact Hall|]. intros j [Hj [e' He']]. simpl in *.
  destruct (wf_entry _ Hwf _ _ He') as [[] _]. lia.
Qed.

Lemma interned_as_entry st b id :
  interned_as st b = Some id → ∃ e, entries st !! id = Some e ∧ se_bytes e = b.
Proof.
  unfold interned_as. intros (i & _ & Hi)%bind_Some. apply bind_Some in Hi as (e & He & Hd).
  case_decide; simplify_eq. eauto.
Qed.

(** What interning [v] leaves, for [v] and for every other live value. *)
Lemma intern_spec st v v' st' :
  arena_wf st → live st v → roundtrips v → next_id st < u64_max →
  intern_if_large v st = (v', st') →
  arena_wf st' ∧ next_id st' ≤ next_id st + 1 ∧
  live st' v' ∧ compact (wfref_nonce st) v' ∧ wfref_nonce st' = wfref_nonce st ∧
  materialize st' v' = materialize st v ∧
  (∀ u, live st u → live st' u ∧ materialize st' u = materialize st u).
Proof.
  intros Hwf Hl Hrt Hmax. unfold intern_if_large.
  destruct (_ || _) eqn:Hsmall.
  { apply orb_true_iff in Hsmall as [Hs%bool_decide_eq_true|Hs%Z.ltb_lt];
      intros [= <- <-]; unfold compact; split_and!; auto; lia. }
  apply orb_false_iff in Hsmall as [Hid%bool_decide_eq_false Hsz%Z.ltb_ge].
  rewrite <-eq_None_not_Some in Hid.
  destruct Hrt as (b & Hb & Hrt). rewrite Hb. destruct (interned_as st b) as [id|] eqn:Has; intros [= <- <-].
  - apply interned_as_entry in Has as (e & He & Heb). split; [done|]. split; [lia|].
    split; [by apply live_handle|]. split; [left; by rewrite wfref_id_make|]. split; [done|].
    split; [|auto].
    eapply materialize_make; [done..|congruence].
  - set (st' := Build_ValueStore _ _ _ _).
    assert (Hwf' : arena_wf st') by by apply wf_new_entry.
    assert (Hfresh : ∀ u, live st u → materialize st' u = materialize st u ∧ live st' u).
    { intros u Hu. apply materialize_fresh; try done.
      - simpl. rewrite wrap_u64_next; [lia|]. split; [apply Hwf|done].
      - intros id [e He]. simpl. apply lookup_insert_ne. intros <-.
        destruct (wf_entry _ Hwf _ _ He) as [[] _]. lia. }
    split; [done|].
    split; [simpl; rewrite wrap_u64_next; [lia|split; [apply Hwf|done]]|]. split; [|split_and!].
    + apply (live_handle st'). simpl. rewrite lookup_insert_eq. eauto.
    + left. by rewrite wfref_id_make.
    + done.
    + rewrite <-(proj1 (Hfresh v Hl)).
      eapply (materialize_make st'); [done|by apply lookup_insert_eq|done].
    + intros u Hu. destruct (Hfresh u Hu). auto.
Qed.

Lemma intern_entries_spec m : ∀ st m' st',
  arena_wf st → Forall (λ kv, live st kv.2 ∧ roundtrips kv.2) m →
  next_id st + Z.of_nat (length m) ≤ u64_max →
  intern_scope_entries m st = (m', st') →
  arena_wf st' ∧ wfref_nonce st' = wfref_nonce st ∧
  Forall (λ kv, live st' kv.2 ∧ compact (wfref_nonce st) kv.2) m' ∧
  map (λ kv, (kv.1, materialize st' kv.2)) m' = map (λ kv, (kv.1, materialize st kv.2)) m ∧
  (∀ u, live st u → live st' u ∧ materialize st' u = materialize st u).
Proof.
  induction m as [|[k v] m IH]; simpl; intros st m' st' Hwf Hm Hmax.
  { intros [= <- <-]. by split_and!; auto. }
  destruct (intern_if_large v st) as [v1 st1] eqn:H1.
  destruct (intern_scope_entries m st1) as [m2 st2] eqn:H2. intros [= <- <-].
  apply Forall_cons in Hm as [[Hl Hrt] Hm].
  destruct (intern_spec _ _ _ _ Hwf Hl Hrt ltac:(lia) H1)
    as (Hwf1 & Hnx & Hl1 & Hc1 & Hn1 & Hm1 & Ho1).
  edestruct (IH st1) as (Hwf2 & Hn2 & Hl2 & Hm2 & Ho2); [done| |lia|exact H2|].
  { eapply Forall_impl; [exact Hm|]. intros [k' u] [Hu ?]. by destruct (Ho1 u Hu). }
  destruct (Ho2 _ Hl1) as [Hl2' Hv]. rewrite Hn1 in *.
  split; [done|]. split; [done|]. split; [by constructor|].
  split; [|intros u Hu; destruct (Ho1 u Hu) as [Hu1 <-]; auto].
  simpl. rewrite Hv, Hm1, Hm2. f_equal. apply map_ext_in.
  intros [k' u] Hin%list_elem_of_In. eapply Forall_forall in Hm as [Hu _]; [|done].
  simpl. by destruct (Ho1 u Hu) as [_ ->].
Qed.

(** ** Collection *)

Definition weight (st : ValueStore) (marked : gset Z) : nat :=
  sum_list_with (λ ie, length (se_nested ie.2))
    (map_to_list (filter (λ ie : Z * StoreEntry, ie.1 ∉ marked) (entries st))).

Definition nested_of (st : ValueStore) (id : Z) : list Z :=
  match entries st !! id with Some e => se_nested e | None => [] end.

Lemma weight_mark st marked id :
  id ∉ marked → (length (nested_of st id) + weight st ({[id]} ∪ marked) = weight st marked)%nat.
Proof.
  intros Hid. unfold weight, nested_of.
  destruct (entries st !! id) as [e|] eqn:He.
  - assert (filter (λ ie : Z * StoreEntry, ie.1 ∉ marked) (entries st) =
            <[id := e]> (filter (λ ie : Z * StoreEntry, ie.1 ∉ {[id]} ∪ marked) (entries st)))
      as ->.
    { apply map_eq. intros j. destruct (decide (id = j)) as [<-|Hj].
      - rewrite lookup_insert_eq. by apply map_lookup_filter_Some.
      - rewrite lookup_insert_ne by done. apply option_eq. intros e'.
        rewrite !map_lookup_filter_Some. simpl. set_solver. }
    rewrite map_to_list_insert; [done|]. apply map_lookup_filter_None. right. simpl. set_solver.
  - simpl. do 2 f_equal. apply map_filter_ext. intros j e' He'. simpl.
    assert (id ≠ j) by congruence. set_solver.
Qed.

(** The loop marks exactly what the work list reaches, within its bound. *)
Lemma mark_spec fuel : ∀ st work marked,
  (length work + weight st marked ≤ fuel)%nat →
  (∀ i j, i ∈ marked → points_to st i j → j ∈ marked ∨ j ∈ work) →
  ∃ marked', mark fuel st work marked = Some marked' ∧ marked ⊆ marked' ∧
    (∀ i, i ∈ work → i ∈ marked') ∧
    (∀ i j, i ∈ marked' → points_to st i j → j ∈ marked') ∧
    (∀ i, i ∈ marked' → i ∈ marked ∨ reachable st work i).
Proof.
  induction fuel as [|fuel IH]; intros st [|id work] marked Hf Hinv; simpl in *;
    try lia; try (exists marked; set_solver).
  case_decide as Hid.
  - edestruct (IH st work marked) as (m' & Hm & ? & ? & ? & Hr); [lia|set_solver|].
    exists m'. split; [done|]. split; [done|]. split; [set_solver|]. split; [done|].
    intros i Hi. destruct (Hr i Hi) as [|(r & ? & ?)]; [by left|right; exists r; set_solver].
  - assert (Hpt : ∀ j, points_to st id j ↔ j ∈ nested_of st id).
    { intros j. unfold points_to, nested_of. destruct (entries st !! id) eqn:He; [split; [intros (e & [= ->] & ?); done|eauto]|split; [intros (e & [=] & _)|intros []%not_elem_of_nil]]. }
    pose proof (weight_mark st marked id Hid) as Hw. fold (nested_of st id).
    edestruct (IH st (reverse (nested_of st id) ++ work) ({[id]} ∪ marked))
      as (m' & Hm & Hsub & Hwk & Hcl & Hr).
    + rewrite length_app, length_reverse. lia.
    + intros i j [->%elem_of_singleton|Hi]%elem_of_union Hp.
      * right. apply elem_of_app. left. by apply elem_of_reverse, Hpt.
      * destruct (Hinv i j Hi Hp) as [|Hj]; [set_solver|]. apply elem_of_cons in Hj as [->|];
          set_solver.
    + exists m'. split; [done|]. split; [set_solver|]. split; [set_solver|]. split; [done|].
      intros i Hi. destruct (Hr i Hi) as [[->%elem_of_singleton|]%elem_of_union|(r & Hin & Hrtc)].
      * right. exists id. split; [by left|done].
      * by left.
      * right. apply elem_of_app in Hin as [Hin%elem_of_reverse%Hpt|Hin].
        -- exists id. split; [by left|]. by eapply rtc_l.
        -- exists r. split; [by right|done].
Qed.

Lemma root_ids_parsed nonce roots values :
  Forall2 (λ b v, json_from_slice b = Some v) roots values →
  root_ids nonce roots = Some (concat (map (collect_handle_ids nonce) values)).
Proof.
  intros Hr. induction Hr as [|b v roots values Hb _ IH]; simpl; [done|]. by rewrite Hb, IH.
Qed.

(** A sweep that keeps a set closed under references. *)
Lemma sweep_closed st (marked : gset Z) :
  arena_wf st → (∀ i j, i ∈ marked → points_to st i j → j ∈ marked) →
  arena_wf (sweep marked st) ∧
  ∀ v, live st v → Forall (λ id, id ∈ marked) (collect_handle_ids (wfref_nonce st) v) →
    live (sweep marked st) v ∧ materialize (sweep marked st) v = materialize st v.
Proof.
  intros Hwf Hcl.
  assert (Hkeep : ∀ id, id ∈ marked → entries (sweep marked st) !! id = entries st !! id).
  { intros id Hid. simpl. apply option_eq. intros e. rewrite map_lookup_filter_Some. naive_solver. }
  assert (Hnest : ∀ id e, id ∈ marked → entries st !! id = Some e →
                    Forall (λ j, j ∈ marked) (se_nested e)).
  { intros id e Hid He. apply Forall_forall. intros j Hj. eapply Hcl; [done|]. by exists e. }
  split.
  - split; [apply Hwf|]. intros id e [He Hid]%map_lookup_filter_Some. simpl in Hid.
    destruct (wf_entry _ Hwf _ _ He) as ([] & v & ? & ? & ? & ? & Hall).
    split; [done|]. exists v. do 4 (split; [done|]).
    apply Forall_forall. intros j Hj. eapply Forall_forall in Hall as [? ?]; [|done].
    split; [done|]. rewrite Hkeep; [done|]. eapply Forall_forall in Hj; [|by eapply Hnest]. done.
  - intros v Hl Hm. split.
    + unfold live in *. simpl. apply Forall_forall. intros id Hid.
      eapply Forall_forall in Hm; [|done]. eapply Forall_forall in Hl; [|done].
      by rewrite Hkeep.
    + unfold materialize. by apply (materialize_agree _ st _ (λ id, id ∈ marked)).
Qed.

(** What a collection keeps, and that it ends. *)
Lemma retain_spec roots values st :
  arena_wf st → Forall2 (λ b v, json_from_slice b = Some v) roots values →
  let ids := concat (map (collect_handle_ids (wfref_nonce st)) values) in
  ∃ st', value_store_retain roots st = Some st' ∧ arena_wf st' ∧
    (∀ v, live st v → Forall (reachable st ids) (collect_handle_ids (wfref_nonce st) v) →
       live st' v ∧ materialize st' v = materialize st v) ∧
    (∀ id, is_Some (entries st' !! id) ↔ is_Some (entries st !! id) ∧ reachable st ids id).
Proof.
  intros Hwf Hr ids. unfold value_store_retain. rewrite (root_ids_parsed _ _ _ Hr). fold ids.
  case_decide as Hempty.
  { exists st. split; [done|]. split; [done|]. split; [done|].
    intros id. rewrite Hempty, lookup_empty. split; [by intros []|by intros [[] _]]. }
  destruct (mark_spec (mark_steps st ids) st (reverse ids) ∅)
    as (marked & -> & _ & Hwk & Hcl & Hrch).
  { unfold mark_steps, weight. rewrite length_reverse, map_filter_id; [done|set_solver]. }
  { set_solver. }
  assert (Hiff : ∀ id, id ∈ marked ↔ reachable st ids id).
  { intros id. split.
    - intros [[]%elem_of_empty|(r & Hin & Hrt)]%Hrch. exists r. by rewrite <-elem_of_reverse.
    - intros (r & Hin & Hrtc). assert (r ∈ marked) by (by apply Hwk, elem_of_reverse).
      clear Hin. induction Hrtc; eauto. }
  destruct (sweep_closed st marked Hwf Hcl) as [Hwf' Hsame].
  exists (sweep marked st). split; [done|]. split; [done|]. split.
  - intros v Hl Hv. apply Hsame; [done|]. eapply Forall_impl; [exact Hv|]. intros id. apply Hiff.
  - intros id. rewrite <-Hiff. simpl. split.
    + by intros [e [He Hid]%map_lookup_filter_Some].
    + intros [[e He] Hid]. exists e. by apply map_lookup_filter_Some.
Qed.

(** ** Materialized values hold no handle *)

Lemma large_not_scalar v :
  WFREF_THRESHOLD_BYTES ≤ estimate_json_size v →
  match v with JNull | JBool _ | JNumber _ => False | _ => True end.
Proof. unfold WFREF_THRESHOLD_BYTES. destruct v; simpl; lia || done. Qed.

Lemma as_u64_materialize n st v :
  arena_wf st → as_u64 (materialize_within n st v) = as_u64 v.
Proof.
  intros Hwf. destruct (wfref_id (wfref_nonce st) v) as [id|] eqn:Hid.
  - assert (as_u64 v = None) as -> by by destruct v.
    destruct n as [|n]; [by rewrite (mat_handle_0 _ _ _ Hid)|].
    rewrite (mat_handle _ _ _ _ Hid).
    destruct (stored_value st id) as [u|] eqn:Hu; [|done].
    destruct (stored_value_entry _ _ _ Hwf Hu) as (_ & _ & Hnh & Hsz & _).
    apply large_not_scalar in Hsz. destruct u; try done; try (by destruct n).
    by rewrite mat_object.
  - destruct v; try by destruct n. by rewrite mat_object.
Qed.

Lemma wfref_id_materialized n st m :
  arena_wf st → wfref_id (wfref_nonce st) (JObject m) = None →
  wfref_id (wfref_nonce st) (JObject (map (λ kv, (kv.1, materialize_within n st kv.2)) m)) = None.
Proof.
  intros Hwf. simpl. rewrite length_map. case_decide; [|done].
  rewrite !(assoc_get_map (materialize_within n st)).
  destruct (assoc_get WFREF_NONCE_KEY m) as [x|]; simpl; [|done].
  rewrite as_u64_materialize by done. destruct (as_u64 x) as [k|]; simpl; [|done].
  case_decide; [done|]. destruct (assoc_get WFREF_KEY m) as [y|]; simpl; [|done].
  by rewrite as_u64_materialize.
Qed.

Lemma concat_map_nil {A B} (f : A → list B) (l : list A) :
  Forall (λ x, f x = []) l → concat (map f l) = [].
Proof. induction 1 as [|x l Hx _ IH]; simpl; [done|]. by rewrite Hx, IH. Qed.

Lemma materialize_handle_free n st v :
  arena_wf st → collect_handle_ids (wfref_nonce st) (materialize_within n st v) = [].
Proof.
  intros Hwf. revert v. induction n as [|n IHn];
    intros v; induction v as [| | | |l IH|m IH] using json_nested_ind; try done.
  all: try (rewrite mat_array, collect_array, map_map; by apply concat_map_nil).
  all: destruct (wfref_id (wfref_nonce st) (JObject m)) as [id|] eqn:Hid;
    [|rewrite mat_object, collect_object, map_map by auto using wfref_id_materialized;
      by apply concat_map_nil].
  - by rewrite (mat_handle_0 _ _ _ Hid).
  - rewrite (mat_handle _ _ _ _ Hid). by destruct (stored_value st id).
Qed.

(** A value without handles materializes to itself. *)
Lemma materialize_id n st v :
  collect_handle_ids (wfref_nonce st) v = [] → materialize_within n st v = v.
Proof.
  induction v as [| | | |l IH|m IH] using json_nested_ind; intros Hc; try by destruct n.
  - rewrite mat_array. f_equal. rewrite collect_array in Hc.
    induction IH as [|x l Hx _ IHl]; simpl in *; [done|].
    apply app_eq_nil in Hc as [? ?]. by rewrite Hx, IHl.
  - destruct (wfref_id (wfref_nonce st) (JObject m)) as [id|] eqn:Hid.
    { by rewrite (collect_handle _ _ _ Hid) in Hc. }
    rewrite mat_object by done. f_equal. rewrite collect_object in Hc by done. clear Hid.
    induction IH as [|[k x] l Hx _ IHl]; simpl in *; [done|].
    apply app_eq_nil in Hc as [? ?]. by rewrite Hx, IHl.
Qed.

Lemma materialize_idemp st v : arena_wf st → materialize st (materialize st v) = materialize st v.
Proof. intros Hwf. by apply materialize_id, materialize_handle_free. Qed.

(** Resolving a live handle: a value that is not one, and materializes alike. *)
Lemma deref_live st v : arena_wf st → live st v →
  materialize st (deref_handle st v) = materialize st v ∧ live st (deref_handle st v) ∧
  wfref_id (wfref_nonce st) (deref_handle st v) = None.
Proof.
  intros Hwf Hl. unfold deref_handle.
  destruct (wfref_id (wfref_nonce st) v) as [id|] eqn:Hid; [|done].
  unfold live in Hl. rewrite (collect_handle _ _ _ Hid), Forall_singleton in Hl.
  destruct Hl as [e He].
  destruct (stored_entry _ _ _ Hwf He) as (u & Hu & Hn & _ & _ & Hall).
  rewrite Hu. simpl. split_and!; [|eapply Forall_impl; [exact Hall|by intros ? []]|done].
  unfold materialize. rewrite (mat_handle _ _ _ _ Hid), Hu.
  destruct (wf_entry _ Hwf _ _ He) as [[] _].
  eapply (materialize_enough _ (Z.to_nat (next_id st))); [done| |lia|lia].
  eapply Forall_impl; [exact Hall|]. intros j [Hj [e' He']]. simpl in *.
  destruct (wf_entry _ Hwf _ _ He') as [[] _]. lia.
Qed.

End properties.

(** ** Theorems *)

(** C30: interning the entries of a scope is transparent.  In a well-formed arena
    with ids to spare, it leaves a well-formed arena and a scope with the same
    keys in which every value is small or a handle; each value materializes to
    what it was, and so does every other live value of the run.  (serde_json is
    assumed to read back the values it writes.) *)
Theorem interning_transparent `{Ext, ContentHash} st m m' st' :
  arena_wf st → Forall (λ kv, live st kv.2 ∧ roundtrips kv.2) m →
  next_id st + Z.of_nat (length m) ≤ u64_max →
  intern_scope_entries m st = (m', st') →
  arena_wf st' ∧ Forall (λ kv, live st' kv.2 ∧ compact (wfref_nonce st') kv.2) m' ∧
  map (λ kv, (kv.1, materialize st' kv.2)) m' = map (λ kv, (kv.1, materialize st kv.2)) m ∧
  (∀ u, live st u → live st' u ∧ materialize st' u = materialize st u).
Proof.
  intros Hwf Hm Hmax Hi.
  destruct (intern_entries_spec m st m' st' Hwf Hm Hmax Hi) as (? & -> & ? & ? & ?). auto.
Qed.

#[local] Existing Instance codec.
#[local] Existing Instance length_hash.

(** The codec reads back the strings it writes, except the one it uses for a handle. *)
Lemma codec_roundtrips s : s ≠ "h" → roundtrips (JString s).
Proof.
  intros Hs. exists (list_byte_of_string s). split; [done|]. simpl.
  rewrite string_of_list_byte_of_string. rewrite decide_False; [done|].
  intros He. apply Hs. rewrite <-(string_of_list_byte_of_string s).
  by rewrite He.
Qed.

Lemma fresh_arena_wf : arena_wf fresh_arena.
Proof. split; [done|]. intros id e. simpl. by rewrite lookup_empty. Qed.

Lemma interning_transparent_witness :
  ∃ m' st', intern_scope_entries demo_scope fresh_arena = (m', st') ∧ arena_wf st' ∧
    Forall (λ kv, live st' kv.2 ∧ compact (wfref_nonce st') kv.2) m' ∧
    map (λ kv, (kv.1, materialize st' kv.2)) m' =
      map (λ kv, (kv.1, materialize fresh_arena kv.2)) demo_scope ∧
    wfref_id run_nonce (default JNull (assoc_get "big" m')) = Some 0.
Proof.
  destruct (intern_scope_entries demo_scope fresh_arena) as [m' st'] eqn:Hi.
  exists m', st'. split; [done|].
  destruct (interning_transparent fresh_arena demo_scope m' st') as (Hwf & Hl & Hm & _).
  - apply fresh_arena_wf.
  - repeat constructor; by apply codec_roundtrips.
  - by vm_compute.
  - done.
  - split; [done|]. split; [done|]. split; [done|].
    assert (Hb : assoc_get "big" (intern_scope_entries demo_scope fresh_arena).1 =
                 Some first_handle) by by vm_compute.
    rewrite Hi in Hb. simpl in Hb. by rewrite Hb.
Defined.

(** C15: a collection ends, and frees exactly the entries that no root reaches,
    directly or through other entries.  The arena stays well formed and every
    root keeps its value. *)
Theorem collection_keeps_reachable `{Ext} roots values st :
  arena_wf st → Forall2 (λ b v, json_from_slice b = Some v) roots values →
  Forall (live st) values →
  ∃ st', value_store_retain roots st = Some st' ∧ arena_wf st' ∧
    Forall (λ v, live st' v ∧ materialize st' v = materialize st v) values ∧
    (∀ id, is_Some (entries st' !! id) ↔
       is_Some (entries st !! id) ∧
       reachable st (concat (map (collect_handle_ids (wfref_nonce st)) values)) id).
Proof.
  intros Hwf Hr Hl. destruct (retain_spec roots values st Hwf Hr) as (st' & Hst & Hwf' & Hs & Hid).
  exists st'. split; [done|]. split; [done|]. split; [|done].
  apply Forall_forall. intros v Hv. apply Hs; [by eapply Forall_forall in Hl|].
  apply Forall_forall. intros id Hi. exists id. split; [|done].
  apply list_elem_of_In, in_concat. exists (collect_handle_ids (wfref_nonce st) v).
  split; [|by apply list_elem_of_In]. by apply in_map, list_elem_of_In.
Qed.

Lemma big_arena_wf : arena_wf big_arena.
Proof.
  split; [done|]. intros id e He. unfold big_arena in He. cbn [entries] in He.
  apply lookup_singleton_Some in He as [<- <-]. split; [done|]. exists big.
  by split_and!.
Qed.

Lemma collection_keeps_reachable_witness :
  ∃ st', value_store_retain [list_byte_of_string "h"] big_arena = Some st' ∧ arena_wf st' ∧
    materialize st' first_handle = materialize big_arena first_handle ∧
    is_Some (entries st' !! 0).
Proof.
  destruct (collection_keeps_reachable [list_byte_of_string "h"] [first_handle] big_arena)
    as (st' & Hst & Hwf & Hl & Hid).
  - apply big_arena_wf.
  - by repeat constructor.
  - repeat constructor. by exists {| se_bytes := list_byte_of_string big_text; se_nested := [] |}.
  - exists st'. split; [done|]. split; [done|]. apply Forall_singleton in Hl as [_ Hl].
    split; [done|]. apply Hid. split; [by eexists|].
    exists 0. split; [by left|done].
Defined.
