(* ===== verification/GuestCompiled.v ===== *)
(** * runtara-workflow-stdlib: mappings and conditions, compiled

    [direct_json.rs], lines 6310 to 6822: a mapping or condition is translated
    once into a tree that is evaluated many times.  Translation never fails: an
    error the interpreter would raise is a node of the tree.  As in GuestExpr.v,
    [compile_argument] yields both compilations of a node, by recursion on it. *)

From S2P Require Import Prelude.
From S2P Require Import Json.
From S2P Require Import Text.
From S2P Require Import Float64.
From S2P Require Import InstanceHandlers.
From S2P Require Import GuestStore.
From S2P Require Import GuestPaths.
From S2P Require Import GuestExpr.

Inductive CmpOp := CmpGt | CmpGte | CmpLt | CmpLte.

Inductive ArrKind := ArrContains | ArrIn | ArrNotIn.

Record CompiledReference := {
  cr_segments : list string;
  cr_default : option json;
  cr_type_hint : option string }.

Section compiled.
Context `{Ext, JsonDisplay, Minijinja}.

#[warnings="-register-all"]
Inductive CompiledMapping :=
| CmReference (reference : CompiledReference)
| CmImmediate (value : json)
| CmComposite (composite : CompiledComposite)
| CmTemplate (template : CompiledTemplate)
| CmError (message : string)
with CompiledComposite :=
| CcObject (entries : list (string * CompiledMapping))
| CcArray (items : list CompiledMapping).

#[warnings="-register-all"]
Inductive CompiledCondition :=
| CondOp (op : CompiledOp)
| CondTruthy (value : CompiledMapping)
with CompiledOp :=
| CoAnd (args : list CompiledCondition)
| CoOr (args : list CompiledCondition)
| CoNot (arg : option CompiledCondition)
| CoCompare (op : CmpOp) (args : list CompiledArgValue)
| CoEquality (ne : bool) (args : list CompiledArgValue)
| CoStringMatch (ends : bool) (args : list CompiledArgValue)
| CoArrayMatch (kind : ArrKind) (args : list CompiledArgValue)
| CoLengthBool (args : list CompiledArgValue)
| CoIsDefined (arg : option CompiledArgValue)
| CoIsEmpty (arg : option CompiledArgValue)
| CoIsNotEmpty (arg : option CompiledArgValue)
| CoError (message : string)
with CompiledArgValue :=
| AvLengthValue (args : option (list CompiledArgValue))
| AvCondition (condition : CompiledCondition)
| AvValue (mapping : CompiledMapping).

(** ** Compilation *)

Definition compile_reference (map : list (string * json)) : CompiledMapping :=
  match assoc_get "value" map ≫= as_str with
  | Some path =>
      CmReference {| cr_segments := path_to_segments path;
                     cr_default := assoc_get "default" map;
                     cr_type_hint := assoc_get "type" map ≫= as_str |}
  | None => CmError "reference mapping value must be a string path"
  end.

Definition compile_template (map : list (string * json)) : CompiledMapping :=
  match assoc_get "value" map ≫= as_str with
  | Some template =>
      match CompiledTemplate_parse template with
      | Ok compiled => CmTemplate compiled
      | Err err => CmError err
      end
  | None => CmError "template mapping value must be a string"
  end.

(** [compile_composite], given the compilation of its parts. *)
Definition compile_composite (compile : json → CompiledMapping) (value : json) : CompiledMapping :=
  match value with
  | JObject map => CmComposite (CcObject (List.map (λ kv, (kv.1, compile kv.2)) map))
  | JArray items => CmComposite (CcArray (List.map compile items))
  | _ => CmError "composite mapping value must be an object or array"
  end.

Fixpoint compile_mapping (value : json) : CompiledMapping :=
  match value with
  | JObject map =>
      match assoc_get "valueType" map ≫= as_str with
      | None => CmError "mapping value missing valueType"
      | Some value_type =>
          if decide (value_type = "reference") then compile_reference map
          else if decide (value_type = "immediate") then
            CmImmediate (default JNull (assoc_get "value" map))
          else if decide (value_type = "composite") then
            let composite := compile_composite compile_mapping in
            default (composite JNull) (assoc_with composite "value" map)
          else if decide (value_type = "template") then compile_template map
          else CmError ("unsupported mapping valueType '" +:+ value_type +:+ "'")
      end
  | _ => CmError "mapping value must be an object"
  end.

Definition compile_value (value : json) : CompiledMapping :=
  if decide (json_get "type" value ≫= as_str = Some "value") then
    match json_get "valueType" value, json_get "value" value with
    | Some _, _ => compile_mapping value
    | None, Some inner => compile_mapping inner
    | None, None => compile_mapping value
    end
  else compile_mapping value.

(** A node compiled as a condition and as an argument value. *)
Record compiled_node := {
  node_condition : CompiledCondition;
  node_value : CompiledArgValue }.

(** The dispatch of [compile_op], given the compiled arguments. *)
Definition compile_operator (op : string) (args : list compiled_node) : CompiledOp :=
  let conds := node_condition <$> args in
  let vals := node_value <$> args in
  if decide (op = "AND") then CoAnd conds
  else if decide (op = "OR") then CoOr conds
  else if decide (op = "NOT") then CoNot (head conds)
  else if decide (op = "GT") then CoCompare CmpGt vals
  else if decide (op = "GTE") then CoCompare CmpGte vals
  else if decide (op = "LT") then CoCompare CmpLt vals
  else if decide (op = "LTE") then CoCompare CmpLte vals
  else if decide (op = "EQ") then CoEquality false vals
  else if decide (op = "NE") then CoEquality true vals
  else if decide (op = "STARTS_WITH") then CoStringMatch false vals
  else if decide (op = "ENDS_WITH") then CoStringMatch true vals
  else if decide (op = "CONTAINS") then CoArrayMatch ArrContains vals
  else if decide (op = "IN") then CoArrayMatch ArrIn vals
  else if decide (op = "NOT_IN") then CoArrayMatch ArrNotIn vals
  else if decide (op = "LENGTH") then CoLengthBool vals
  else if decide (op = "IS_DEFINED") then CoIsDefined (head vals)
  else if decide (op = "IS_EMPTY") then CoIsEmpty (head vals)
  else if decide (op = "IS_NOT_EMPTY") then CoIsNotEmpty (head vals)
  else if query_only op then CoError (query_only_message op)
  else CoError ("unsupported condition operator '" +:+ op +:+ "'").

(** [compile_op] and [compile_arg_value] of an operation node. *)
Definition compile_operation (op : option string) (args : option (list compiled_node)) :
  compiled_node :=
  let compiled :=
    match op, args with
    | None, _ => CoError "condition operation missing op"
    | Some _, None => CoError "condition operation missing arguments"
    | Some op, Some args => compile_operator op args
    end in
  {| node_condition := CondOp compiled;
     node_value :=
       if decide (op = Some "LENGTH") then AvLengthValue (option_map (List.map node_value) args)
       else AvCondition (CondOp compiled) |}.

Definition compile_plain (arg : json) : compiled_node :=
  {| node_condition := CondTruthy (compile_value arg);
     node_value := AvValue (compile_value arg) |}.

Fixpoint compile_argument (arg : json) : compiled_node :=
  match arg with
  | JObject map =>
      if is_condition_operation (JObject map) then
        compile_operation (assoc_get "op" map ≫= as_str)
          (mjoin (assoc_with (λ v,
             match v with
             | JArray args => Some (List.map compile_argument args)
             | _ => None
             end) "arguments" map))
      else compile_plain (JObject map)
  | _ => compile_plain arg
  end.

Definition compile_condition (expr : json) : CompiledCondition :=
  node_condition (compile_argument expr).

Definition compile_arg_value (arg : json) : CompiledArgValue :=
  node_value (compile_argument arg).

Inductive CompiledInputMapping :=
| CiEntries (entries : list (string * CompiledMapping))
| CiError (message : string).

Definition compile_input_mapping (mapping : json) : CompiledInputMapping :=
  match mapping with
  | JObject entries => CiEntries (List.map (λ kv, (kv.1, compile_mapping kv.2)) entries)
  | _ => CiError "input mapping must be a JSON object"
  end.

(** ** Evaluation *)

Context (st : ValueStore).

Definition CompiledReference_resolve (r : CompiledReference) (source : json) :
  result string json :=
  value ← resolve_lookup (lookup_segments_detailed st source (cr_segments r)) (cr_default r);
  coerce_reference_value value (cr_type_hint r) (cr_default r).

Fixpoint CompiledMapping_eval (m : CompiledMapping) (source : json) : result string json :=
  match m with
  | CmReference reference => CompiledReference_resolve reference source
  | CmImmediate value => Ok value
  | CmComposite composite => CompiledComposite_eval composite source
  | CmTemplate template => JString <$> CompiledTemplate_render template (materialize st source)
  | CmError message => Err message
  end
with CompiledComposite_eval (c : CompiledComposite) (source : json) : result string json :=
  match c with
  | CcObject entries =>
      JObject <$> try_entries (λ m, CompiledMapping_eval m source) entries []
  | CcArray items =>
      JArray <$> try_items (λ m, CompiledMapping_eval m source) items
  end.

Definition CmpOp_eval (op : CmpOp) (lhs rhs : f64) : bool :=
  match op with
  | CmpGt => f64_ltb rhs lhs
  | CmpGte => f64_leb rhs lhs
  | CmpLt => f64_ltb lhs rhs
  | CmpLte => f64_leb lhs rhs
  end.

(** The leaf operations on the values of the first two arguments. *)
Definition compare_values (op : CmpOp) (lhs rhs : json) : bool :=
  match to_number lhs, to_number rhs with
  | Some lhs, Some rhs => CmpOp_eval op lhs rhs
  | _, _ => false
  end.

Definition match_strings (ends : bool) (lhs rhs : json) : bool :=
  match as_str lhs, as_str rhs with
  | Some lhs, Some rhs => if ends then ends_with lhs rhs else starts_with lhs rhs
  | _, _ => false
  end.

Definition match_arrays (kind : ArrKind) (lhs rhs : json) : bool :=
  match kind with
  | ArrContains => any_item (λ i, values_equal i rhs) (as_array lhs)
  | ArrIn => any_item (values_equal lhs) (as_array rhs)
  | ArrNotIn => negb (any_item (values_equal lhs) (as_array rhs))
  end.

Fixpoint CompiledCondition_eval (c : CompiledCondition) (source : json) : result string bool :=
  match c with
  | CondOp op => CompiledOp_eval op source
  | CondTruthy value => is_truthy <$> CompiledMapping_eval value source
  end
with CompiledOp_eval (o : CompiledOp) (source : json) : result string bool :=
  let binary (f : json → json → bool) (args : list CompiledArgValue) :=
    match args with
    | a0 :: a1 :: _ =>
        lhs ← CompiledArgValue_eval a0 source;
        rhs ← CompiledArgValue_eval a1 source;
        Ok (f lhs rhs)
    | _ => Ok false
    end in
  let unary (f : json → bool) (d : bool) (arg : option CompiledArgValue) :=
    match arg with
    | Some a => f <$> CompiledArgValue_eval a source
    | None => Ok d
    end in
  match o with
  | CoAnd args =>
      fold_until false true (List.map (λ a, CompiledCondition_eval a source) args)
  | CoOr args =>
      fold_until true false (List.map (λ a, CompiledCondition_eval a source) args)
  | CoNot arg =>
      match arg with
      | Some c => negb <$> CompiledCondition_eval c source
      | None => Ok true
      end
  | CoCompare op args => binary (compare_values op) args
  | CoEquality ne args =>
      binary (λ lhs rhs, let equal := values_equal lhs rhs in if ne then negb equal else equal) args
  | CoStringMatch ends args => binary (match_strings ends) args
  | CoArrayMatch kind args => binary (match_arrays kind) args
  | CoLengthBool args =>
      (* [compiled_length_value] *)
      positive_length <$>
        match args with
        | [] => Ok (number_of_i64 0)
        | arg :: _ =>
            (λ v, number_of_i64 (value_length v)) <$> CompiledArgValue_eval arg source
        end
  | CoIsDefined arg => unary (λ v, negb (is_null v)) false arg
  | CoIsEmpty arg => unary value_is_empty true arg
  | CoIsNotEmpty arg => unary (λ v, negb (value_is_empty v)) false arg
  | CoError message => Err message
  end
with CompiledArgValue_eval (a : CompiledArgValue) (source : json) : result string json :=
  match a with
  | AvLengthValue (Some args) =>
      match args with
      | [] => Ok (number_of_i64 0)
      | arg :: _ => (λ v, number_of_i64 (value_length v)) <$> CompiledArgValue_eval arg source
      end
  | AvLengthValue None => Err "LENGTH condition missing arguments"
  | AvCondition cond => JBool <$> CompiledCondition_eval cond source
  | AvValue mapping => CompiledMapping_eval mapping source
  end.

(** The loop of [CompiledInputMapping::eval]. *)
Fixpoint insert_compiled (entries : list (string * CompiledMapping)) (source : json)
  (output : list (string * json)) : result string (list (string * json)) :=
  match entries with
  | [] => Ok output
  | (key, value) :: entries =>
      value ← CompiledMapping_eval value source;
      insert_compiled entries source (insert_nested output key value)
  end.

Definition CompiledInputMapping_eval (m : CompiledInputMapping) (source : json) :
  result string json :=
  match m with
  | CiEntries entries => JObject <$> insert_compiled entries source []
  | CiError message => Err message
  end.

End compiled.
