(* ===== verification/GuestProperties.v ===== *)
(** * Properties of the expression evaluator

    The compiled mappings and conditions agree with the interpreter on every
    input, errors included; and evaluation does not see whether values of the
    scope are inline or in the arena. *)

From S2P Require Import Prelude.
From S2P Require Import Json.
From S2P Require Import Text.
From S2P Require Import Float64.
From S2P Require Import InstanceHandlers.
From S2P Require Import GuestStore.
From S2P Require Import GuestStoreProperties.
From S2P Require Import GuestPaths.
From S2P Require Import GuestExpr.
From S2P Require Import GuestScenarios.
From S2P Require Import GuestCompiled.

(** ** The loops *)

Lemma try_entries_map {E A B} (f : A → result E json) (g : B → result E json) (h : A → B) m :
  Forall (λ kv, g (h kv.2) = f kv.2) m →
  ∀ out, try_entries g (map (λ kv, (kv.1, h kv.2)) m) out = try_entries f m out.
Proof.
  induction 1 as [|[k x] m Hx _ IH]; intros out; simpl in *; [done|].
  rewrite Hx. by destruct (f x); simpl.
Qed.

Lemma try_items_map {E A B} (f : A → result E json) (g : B → result E json) (h : A → B) l :
  Forall (λ x, g (h x) = f x) l → try_items g (map h l) = try_items f l.
Proof. induction 1 as [|x l Hx _ IH]; simpl in *; [done|]. by rewrite Hx, IH. Qed.

(** ** Compiled and interpreted *)

Section parity.
Context `{Ext, JsonDisplay, Minijinja} (st : ValueStore) (source : json).

(** minijinja compiles an owned template as a borrowed one. *)
Hypothesis owned_same : ∀ env name text,
  add_template_owned env name text = add_template env name text.

Lemma template_parity map :
  CompiledMapping_eval st (compile_template map) source =
  match assoc_get "value" map ≫= as_str with
  | None => Err "template mapping value must be a string"
  | Some template => JString <$> render_template template (materialize st source)
  end.
Proof.
  unfold compile_template. destruct (assoc_get "value" map ≫= as_str) as [t|]; [|done].
  unfold CompiledTemplate_parse, render_template. rewrite owned_same.
  by destruct (add_template _ _ _).
Qed.

Lemma reference_parity map :
  CompiledMapping_eval st (compile_reference map) source = apply_reference st map source.
Proof.
  unfold compile_reference, apply_reference. by destruct (assoc_get "value" map ≫= as_str).
Qed.

Lemma mapping_parity v :
  CompiledMapping_eval st (compile_mapping v) source = apply_mapping_value st v source.
Proof.
  induction v as [v IH] using json_deep_ind. destruct v as [| | | | |m]; try done.
  cbn [compile_mapping apply_mapping_value].
  destruct (assoc_get "valueType" m ≫= as_str) as [ty|]; [|done].
  case_decide; [apply reference_parity|]. case_decide; [done|].
  case_decide; [|case_decide; [apply template_parity|done]].
  rewrite !assoc_with_get. destruct (assoc_get "value" m) as [v|] eqn:Hv; [|done]. simpl.
  apply assoc_get_child in Hv. destruct v as [| | | |items|entries]; try done; simpl.
  - rewrite (try_items_map (λ v, apply_mapping_value st v source)); [done|].
    apply Forall_forall. intros x Hx. apply IH. eapply tc_l; [|by apply tc_once]. done.
  - rewrite (try_entries_map (λ v, apply_mapping_value st v source)); [done|].
    apply Forall_forall. intros [k x] Hx. apply IH. eapply tc_l; [|by apply tc_once].
    by exists k.
Qed.

Lemma value_parity v :
  CompiledMapping_eval st (compile_value v) source = eval_condition_value st v source.
Proof.
  unfold compile_value, eval_condition_value.
  case_decide; [|apply mapping_parity].
  destruct (json_get "valueType" v), (json_get "value" v); apply mapping_parity.
Qed.

(** A compiled node evaluates as the interpreter does. *)
Definition agrees (n : compiled_node) (e : evaluated) : Prop :=
  CompiledCondition_eval st (node_condition n) source = as_truth e ∧
  CompiledArgValue_eval st (node_value n) source = as_value e.

Lemma agrees_truths args evs :
  Forall2 agrees args evs →
  map (λ a, CompiledCondition_eval st a source) (node_condition <$> args) = as_truth <$> evs.
Proof. induction 1 as [|n e ns es [Hn _] _ IH]; csimpl; [done|]. by rewrite Hn, IH. Qed.

Lemma agrees_fold (stop : bool) args evs :
  Forall2 agrees args evs →
  CompiledOp_eval st ((if stop then CoOr else CoAnd) (node_condition <$> args)) source =
  fold_until stop (negb stop) (as_truth <$> evs).
Proof. intros Hag. rewrite <-(agrees_truths _ _ Hag). by destruct stop. Qed.

Lemma agrees_compare op args evs :
  Forall2 agrees args evs →
  CompiledOp_eval st (CoCompare op (node_value <$> args)) source =
  eval_comparison match op with
                  | CmpGt => "GT" | CmpGte => "GTE" | CmpLt => "LT" | CmpLte => "LTE"
                  end evs.
Proof.
  intros [|n e ns es [_ Hn] [|n' e' ns' es' [_ Hn'] _]]; csimpl; try done.
  rewrite Hn, Hn'. unfold compare_values.
  destruct (as_value e), (as_value e'); simpl; try done.
  by destruct (to_number a), (to_number a0), op.
Qed.

Lemma agrees_equality ne args evs :
  Forall2 agrees args evs →
  CompiledOp_eval st (CoEquality ne (node_value <$> args)) source =
  eval_equality (if ne then "NE" else "EQ") evs.
Proof.
  intros [|n e ns es [_ Hn] [|n' e' ns' es' [_ Hn'] _]]; csimpl; try done.
  rewrite Hn, Hn'. by destruct (as_value e), (as_value e'), ne.
Qed.

Lemma agrees_string ends args evs :
  Forall2 agrees args evs →
  CompiledOp_eval st (CoStringMatch ends (node_value <$> args)) source =
  eval_string_match (if ends then "ENDS_WITH" else "STARTS_WITH") evs.
Proof.
  intros [|n e ns es [_ Hn] [|n' e' ns' es' [_ Hn'] _]]; csimpl; try done.
  rewrite Hn, Hn'. unfold match_strings.
  destruct (as_value e), (as_value e'); simpl; try done.
  by destruct (as_str a), (as_str a0), ends.
Qed.

Lemma agrees_array kind args evs :
  Forall2 agrees args evs →
  CompiledOp_eval st (CoArrayMatch kind (node_value <$> args)) source =
  eval_array_match match kind with
                   | ArrContains => "CONTAINS" | ArrIn => "IN" | ArrNotIn => "NOT_IN"
                   end evs.
Proof.
  intros [|n e ns es [_ Hn] [|n' e' ns' es' [_ Hn'] _]]; csimpl; try done.
  rewrite Hn, Hn'. by destruct (as_value e), (as_value e'), kind.
Qed.

(** The value of the first argument. *)
Lemma agrees_first f d args evs :
  Forall2 agrees args evs →
  match head (node_value <$> args) with
  | Some a => f <$> CompiledArgValue_eval st a source
  | None => Ok d
  end = first_value f d evs.
Proof. intros [|n e ns es [_ Hn] _]; csimpl; [done|]. by rewrite Hn. Qed.

Lemma agrees_length args evs :
  Forall2 agrees args evs →
  match node_value <$> args with
  | [] => Ok (number_of_i64 0)
  | arg :: _ => (λ v, number_of_i64 (value_length v)) <$> CompiledArgValue_eval st arg source
  end = eval_length_as_value evs.
Proof. intros [|n e ns es [_ Hn] _]; csimpl; [done|]. by rewrite Hn. Qed.

Lemma agrees_operator op args evs :
  Forall2 agrees args evs →
  CompiledOp_eval st (compile_operator op args) source = eval_operator op evs.
Proof.
  intros Hag. unfold compile_operator, eval_operator.
  case_decide; [apply (agrees_fold false _ _ Hag)|].
  case_decide; [apply (agrees_fold true _ _ Hag)|].
  case_decide; [by destruct Hag as [|n e ns es [Hn _] _]; csimpl; rewrite ?Hn|].
  destruct (decide (op ∈ ["GT"; "GTE"; "LT"; "LTE"])) as [Hin|Hout].
  { rewrite !elem_of_cons, elem_of_nil in Hin.
    destruct Hin as [->|[->|[->|[->|[]]]]];
      [apply (agrees_compare CmpGt _ _ Hag)|apply (agrees_compare CmpGte _ _ Hag)
      |apply (agrees_compare CmpLt _ _ Hag)|apply (agrees_compare CmpLte _ _ Hag)]. }
  destruct (decide (op ∈ ["EQ"; "NE"])) as [Hin|Hout2].
  { rewrite !elem_of_cons, elem_of_nil in Hin.
    destruct Hin as [->|[->|[]]];
      [apply (agrees_equality false _ _ Hag)|apply (agrees_equality true _ _ Hag)]. }
  destruct (decide (op ∈ ["STARTS_WITH"; "ENDS_WITH"])) as [Hin|Hout3].
  { rewrite !elem_of_cons, elem_of_nil in Hin.
    destruct Hin as [->|[->|[]]];
      [apply (agrees_string false _ _ Hag)|apply (agrees_string true _ _ Hag)]. }
  destruct (decide (op ∈ ["CONTAINS"; "IN"; "NOT_IN"])) as [Hin|Hout4].
  { rewrite !elem_of_cons, elem_of_nil in Hin.
    destruct Hin as [->|[->|[->|[]]]];
      [apply (agrees_array ArrContains _ _ Hag)|apply (agrees_array ArrIn _ _ Hag)
      |apply (agrees_array ArrNotIn _ _ Hag)]. }
  do 11 (rewrite decide_False by set_solver).
  case_decide; [by rewrite <-(agrees_length _ _ Hag)|].
  case_decide; [by rewrite <-(agrees_first _ _ _ _ Hag)|].
  case_decide; [by rewrite <-(agrees_first _ _ _ _ Hag)|].
  case_decide; [by rewrite <-(agrees_first _ _ _ _ Hag)|].
  by destruct (query_only op).
Qed.

Lemma agrees_operation op args evs :
  match args, evs with
  | Some args, Some evs => Forall2 agrees args evs
  | None, None => True
  | _, _ => False
  end → agrees (compile_operation op args) (eval_operation op evs).
Proof.
  intros Hag. unfold compile_operation, eval_operation.
  set (c := match op, args with None, _ => _ | Some _, None => _ | Some _, Some _ => _ end).
  set (t := match op, evs with None, _ => _ | Some _, None => _ | Some _, Some _ => _ end).
  assert (Hct : CompiledOp_eval st c source = t).
  { unfold c, t. destruct op as [op|]; [|by destruct args].
    destruct args, evs; try done. by apply agrees_operator. }
  split; [done|]. cbn [node_value as_value].
  case_decide; [|by rewrite <-Hct].
  destruct args, evs; try done. by rewrite <-(agrees_length _ _ Hag).
Qed.

Lemma argument_parity arg : agrees (compile_argument arg) (eval_argument st arg source).
Proof.
  induction arg as [arg IH] using json_deep_ind.
  assert (Hplain : agrees (compile_plain arg)
            (let value := eval_condition_value st arg source in
             {| as_truth := is_truthy <$> value; as_value := value |})).
  { unfold agrees, compile_plain. cbn [node_condition node_value as_truth as_value].
    rewrite <-value_parity. done. }
  destruct arg as [| | | | |m]; try exact Hplain.
  cbn [compile_argument eval_argument].
  destruct (is_condition_operation (JObject m)); [|exact Hplain].
  apply agrees_operation. rewrite !assoc_with_get.
  destruct (assoc_get "arguments" m) as [v|] eqn:Hv; [|done]. apply assoc_get_child in Hv.
  destruct v as [| | | |args|]; try done. simpl.
  apply Forall2_fmap_2, Forall_Forall2_diag, Forall_forall.
  intros x Hx. apply IH. eapply tc_l; [|by apply tc_once]. done.
Qed.

Lemma input_mapping_parity mapping :
  CompiledInputMapping_eval st (compile_input_mapping mapping) source =
  apply_input_mapping st mapping source.
Proof.
  destruct mapping as [| | | | |m]; try done. simpl. f_equal.
  generalize (@nil (string * json)). induction m as [|[k v] m IH]; intros out; simpl; [done|].
  rewrite mapping_parity. by destruct (apply_mapping_value st v source); simpl.
Qed.

End parity.

(** ** Inline and in the arena *)

#[local] Arguments materialize_within : simpl never.

Section transparency.
Context `{Ext, ContentHash, JsonDisplay, Minijinja} (st plain : ValueStore).
Hypothesis wf : arena_wf st.
Hypothesis same_run : wfref_nonce plain = wfref_nonce st.

(** A materialized value is read as it is. *)
Lemma deref_materialized v : deref_handle plain (materialize st v) = materialize st v.
Proof.
  pose proof (materialize_handle_free (S (Z.to_nat (next_id st))) st v wf) as Hf.
  unfold deref_handle. rewrite same_run.
  destruct (wfref_id (wfref_nonce st) (materialize st v)) as [id|] eqn:Hid; [|done].
  unfold materialize in Hid. by rewrite (collect_handle _ _ _ Hid) in Hf.
Qed.

Lemma materialize_materialized v : materialize plain (materialize st v) = materialize st v.
Proof.
  apply materialize_id. rewrite same_run.
  apply (materialize_handle_free (S (Z.to_nat (next_id st))) st v wf).
Qed.

(** Descending commutes with materialization. *)
Lemma descend_materialize c seg :
  wfref_id (wfref_nonce st) c = None →
  descend (materialize st c) seg =
  match descend c seg with
  | DescentChild x => DescentChild (materialize st x)
  | other => other
  end.
Proof.
  intros Hc. unfold materialize. destruct c as [| | | |items|m]; try done.
  - rewrite mat_array. simpl. destruct (is_array_index_token seg); [|done].
    rewrite length_map. destruct (array_index seg _) as [i|]; simpl; [|done].
    unfold get_item. rewrite length_map. destruct (_ <? _); [|done].
    rewrite list_lookup_fmap. by destruct (items !! Z.to_nat i).
  - rewrite mat_object by done. simpl.
    rewrite (assoc_get_map (materialize_within (S (Z.to_nat (next_id st))) st)).
    by destruct (assoc_get seg m).
Qed.

Lemma descend_live c seg x : live st c → wfref_id (wfref_nonce st) c = None →
  descend c seg = DescentChild x → live st x.
Proof.
  unfold live. intros Hl Hc. destruct c as [| | | |items|m]; simpl; try done.
  - destruct (is_array_index_token seg); [|done].
    destruct (array_index seg _) as [i|]; simpl; [|done].
    unfold get_item. destruct (_ <? _); [|done].
    destruct (items !! Z.to_nat i) as [y|] eqn:Hy; intros [= ->].
    rewrite collect_array, Forall_concat_map in Hl.
    eapply (Forall_forall _ items) in Hl; [exact Hl|]. by eapply list_elem_of_lookup_2.
  - destruct (assoc_get seg m) as [y|] eqn:Hy; intros [= ->].
    apply assoc_get_member in Hy. rewrite collect_object, Forall_concat_map in Hl by done.
    by eapply (Forall_forall _ m) in Hl; [|exact Hy].
Qed.

Lemma lookup_from_transparent segs rest : ∀ d c,
  live st c → wfref_id (wfref_nonce st) c = None →
  lookup_from st segs d c rest = lookup_from plain segs d (materialize st c) rest.
Proof.
  induction rest as [|seg rest IH]; intros d c Hl Hc; simpl.
  { by rewrite materialize_materialized. }
  rewrite descend_materialize by done.
  destruct (descend c seg) as [x| |] eqn:Hx; [|done|].
  - pose proof (descend_live _ _ _ Hl Hc Hx) as Hlx. rewrite deref_materialized.
    destruct (deref_live _ _ wf Hlx) as (<- & ? & ?). by apply IH.
  - f_equal. destruct c as [| | | |items|m]; simpl in Hx; try done.
    by destruct (assoc_get seg m).
Qed.

Context (source : json).
Hypothesis source_live : live st source.

Lemma lookup_transparent segs :
  lookup_segments_detailed st source segs =
  lookup_segments_detailed plain (materialize st source) segs.
Proof.
  unfold lookup_segments_detailed. rewrite deref_materialized.
  destruct (deref_live _ _ wf source_live) as (<- & ? & ?). by apply lookup_from_transparent.
Qed.

Lemma try_entries_ext {E A} (f g : A → result E json) m :
  Forall (λ kv, f kv.2 = g kv.2) m → ∀ out, try_entries f m out = try_entries g m out.
Proof.
  induction 1 as [|[k x] m Hx _ IH]; intros out; simpl in *; [done|].
  rewrite Hx. by destruct (g x); simpl.
Qed.

Lemma try_items_ext {E A} (f g : A → result E json) l :
  Forall (λ x, f x = g x) l → try_items f l = try_items g l.
Proof. induction 1 as [|x l Hx _ IH]; simpl in *; [done|]. by rewrite Hx, IH. Qed.

Lemma mapping_transparent v :
  apply_mapping_value st v source = apply_mapping_value plain v (materialize st source).
Proof.
  induction v as [v IH] using json_deep_ind. destruct v as [| | | | |m]; try done.
  cbn [apply_mapping_value].
  destruct (assoc_get "valueType" m ≫= as_str) as [ty|]; [|done].
  case_decide.
  { unfold apply_reference. destruct (assoc_get "value" m ≫= as_str); [|done].
    by rewrite lookup_transparent. }
  case_decide; [done|]. case_decide; [|by rewrite materialize_materialized].
  rewrite !assoc_with_get. destruct (assoc_get "value" m) as [v|] eqn:Hv; [|done]. simpl.
  apply assoc_get_child in Hv. destruct v as [| | | |items|entries]; try done; simpl.
  - f_equal. apply try_items_ext, Forall_forall. intros x Hx. apply IH.
    eapply tc_l; [|by apply tc_once]. done.
  - f_equal. apply try_entries_ext, Forall_forall. intros [k x] Hx. apply IH.
    eapply tc_l; [|by apply tc_once]. by exists k.
Qed.

Lemma value_transparent v :
  eval_condition_value st v source = eval_condition_value plain v (materialize st source).
Proof.
  unfold eval_condition_value. case_decide; [|apply mapping_transparent].
  destruct (json_get "valueType" v), (json_get "value" v); apply mapping_transparent.
Qed.

Lemma argument_transparent arg :
  eval_argument st arg source = eval_argument plain arg (materialize st source).
Proof.
  induction arg as [arg IH] using json_deep_ind.
  destruct arg as [| | | | |m]; cbn [eval_argument]; rewrite ?value_transparent; try done.
  destruct (is_condition_operation (JObject m)); [|done].
  rewrite !assoc_with_get. f_equal.
  destruct (assoc_get "arguments" m) as [v|] eqn:Hv; [|done]. apply assoc_get_child in Hv.
  destruct v as [| | | |args|]; try done. simpl. f_equal. apply map_ext_in.
  intros x Hx%list_elem_of_In. apply IH. eapply tc_l; [|by apply tc_once]. done.
Qed.

Lemma input_mapping_transparent mapping :
  apply_input_mapping st mapping source = apply_input_mapping plain mapping (materialize st source).
Proof.
  destruct mapping as [| | | | |m]; try done. simpl. f_equal.
  generalize (@nil (string * json)). induction m as [|[k v] m IH]; intros out; simpl; [done|].
  rewrite mapping_transparent. by destruct (apply_mapping_value plain v _); simpl.
Qed.
End transparency.

(** ** Theorems *)

(** C13: compilation preserves meaning.  For every condition, mapping and scope,
    whatever their shape, the compiled form evaluates to exactly the result of the
    interpreter, error texts included: as a condition, as an argument value and as
    an input mapping. *)
Theorem compiled_matches_interpreter `{Ext, JsonDisplay, Minijinja} st expr mapping source :
  (∀ env name text, add_template_owned env name text = add_template env name text) →
  CompiledCondition_eval st (compile_condition expr) source =
    eval_condition_expression st expr source ∧
  CompiledArgValue_eval st (compile_arg_value expr) source =
    eval_condition_argument_as_value st expr source ∧
  CompiledInputMapping_eval st (compile_input_mapping mapping) source =
    apply_input_mapping st mapping source.
Proof.
  intros Hsame. destruct (argument_parity st source Hsame expr) as [Hc Hv].
  split; [done|]. split; [done|]. by apply input_mapping_parity.
Qed.

(** C14: evaluation does not see the arena.  For a scope whose handles are live in a
    well-formed arena, a condition and an input mapping give the results they give
    on the scope with all values inline, in a run that interned nothing. *)
Theorem scope_handles_transparent `{Ext, ContentHash, JsonDisplay, Minijinja}
  st source expr mapping :
  arena_wf st → live st source →
  let plain := reset_value_store (wfref_nonce st) in
  eval_condition_expression st expr source =
    eval_condition_expression plain expr (materialize st source) ∧
  apply_input_mapping st mapping source =
    apply_input_mapping plain mapping (materialize st source).
Proof.
  intros Hwf Hl plain. split; [|by apply input_mapping_transparent].
  unfold eval_condition_expression. by rewrite (argument_transparent st plain).
Qed.

#[local] Existing Instance codec.
#[local] Existing Instance length_hash.
#[local] Existing Instance plain_display.
#[local] Existing Instance text_engine.

(** [a > 2 AND LENGTH(xs) EQ 2], and a mapping with a nested key and a template. *)
Definition demo_condition : json :=
  operation "AND"
    [operation "GT" [reference_to "a"; literal (JNumber (PosInt 2))];
     operation "EQ" [operation "LENGTH" [reference_to "xs"]; literal (JNumber (PosInt 2))]].

Definition demo_mapping : json :=
  JObject [("out.first", reference_to "xs[0]");
           ("out.text", JObject [("value", JString "hi"); ("valueType", JString "template")])].

Definition demo_source : json :=
  JObject [("a", JNumber (PosInt 3)); ("xs", JArray [JString "p"; JString "q"])].

Lemma compiled_matches_interpreter_witness :
  CompiledCondition_eval fresh_arena (compile_condition demo_condition) demo_source = Ok true ∧
  CompiledInputMapping_eval fresh_arena (compile_input_mapping demo_mapping) demo_source =
    Ok (JObject [("out", JObject [("first", JString "p"); ("text", JString "hi")])]).
Proof.
  destruct (compiled_matches_interpreter fresh_arena demo_condition demo_mapping demo_source)
    as (Hc & _ & Hm); [done|].
  rewrite Hc, Hm. split; by vm_compute.
Defined.

(** [LENGTH(big) EQ 16384], with [big] in the arena. *)
Definition big_condition : json :=
  operation "EQ" [operation "LENGTH" [reference_to "big"]; literal (JNumber (PosInt 16384))].

Lemma scope_handles_transparent_witness :
  live big_arena interned_scope ∧
  eval_condition_expression big_arena big_condition interned_scope =
    eval_condition_expression fresh_arena big_condition (materialize big_arena interned_scope) ∧
  eval_condition_expression big_arena big_condition interned_scope = Ok true.
Proof.
  assert (Hl : live big_arena interned_scope).
  { repeat constructor. by exists {| se_bytes := list_byte_of_string big_text; se_nested := [] |}. }
  split; [done|]. split; [|by vm_compute].
  apply (scope_handles_transparent big_arena interned_scope big_condition demo_mapping);
    [apply big_arena_wf|done].
Defined.

(** Numbers closer than [f64::EPSILON] are equal for EQ, and one can still be
    greater than the other for GT. *)
Lemma equal_and_greater :
  let a := literal (JNumber (Float (SpecFloat.binary_normalize 53 1024 1 (-60) false))) in
  let b := literal (JNumber (Float (SpecFloat.binary_normalize 53 1024 1 (-61) false))) in
  eval_condition_expression fresh_arena (operation "EQ" [a; b]) demo_source = Ok true ∧
  eval_condition_expression fresh_arena (operation "GT" [a; b]) demo_source = Ok true.
Proof. by vm_compute. Qed.
