(* ===== verification/GuestSteps.v ===== *)
(** * runtara-workflow-stdlib: Filter, Switch and retry steps

    [direct_json.rs]: [apply_filter] and [apply_switch] (lines 4434 to 4645) over
    the compiled conditions, [process_switch_output] of [switch_helpers.rs], and
    the delay before a retry (lines 2548 to 2565). *)

From S2P Require Import Prelude.
From S2P Require Import Json.
From S2P Require Import Text.
From S2P Require Import InstanceHandlers.
From S2P Require Import GuestStore.
From S2P Require Import GuestPaths.
From S2P Require Import GuestExpr.
From S2P Require Import GuestCompiled.

Section steps.
Context `{Ext, JsonDisplay, Minijinja} (st : ValueStore).

(** ** Filter *)

(** The loop of [apply_filter_compiled]: each item is moved into the scope, and
    out of it again when it matches. *)
Fixpoint filter_loop (items : list json) (condition : CompiledCondition)
  (scope : list (string * json)) (filtered : list json) : result string (list json) :=
  match items with
  | [] => Ok filtered
  | item :: items =>
      let scope := assoc_set "item" item scope in
      keep ← CompiledCondition_eval st condition (JObject scope);
      if (keep : bool) then
        let matched := default JNull (assoc_get "item" scope) in
        filter_loop items condition (assoc_set "item" JNull scope) (filtered ++ [matched])
      else filter_loop items condition scope filtered
  end.

Definition apply_filter_compiled (input : json) (condition : CompiledCondition) (source : json) :
  result string json :=
  let items := match input with JArray items => items | _ => [] end in
  match source with
  | JObject scope =>
      filtered ← filter_loop items condition scope [];
      Ok (json_object [("items", JArray filtered);
                       ("count", JNumber (PosInt (Z.of_nat (length filtered))))])
  | _ => Err "filter source must be a JSON object"
  end.

Definition apply_filter (config source : json) : result string json :=
  input ← match json_get "value" config with
          | None => Err "Filter config missing value"
          | Some value => apply_mapping_value st value source
          end;
  match json_get "condition" config with
  | None => Err "Filter config missing condition"
  | Some condition => apply_filter_compiled input (compile_condition condition) source
  end.

(** ** Switch *)

Definition binary_condition (op : string) (lhs rhs : json) : json :=
  json_object [("type", JString "operation"); ("op", JString op); ("arguments", JArray [lhs; rhs])].

Definition unary_condition (op : string) (value : json) : json :=
  json_object [("type", JString "operation"); ("op", JString op); ("arguments", JArray [value])].

Definition value_condition (value : bool) : json :=
  json_object [("type", JString "value"); ("valueType", JString "immediate"); ("value", JBool value)].

Definition immediate (value : json) : json :=
  json_object [("valueType", JString "immediate"); ("value", value)].

Definition and_condition (arguments : list json) : json :=
  json_object [("type", JString "operation"); ("op", JString "AND"); ("arguments", JArray arguments)].

Definition build_between_condition (switch_value match_value : json) : json :=
  match as_array match_value with
  | Some (lower :: upper :: _) =>
      and_condition [binary_condition "GTE" switch_value (immediate lower);
                     binary_condition "LTE" switch_value (immediate upper)]
  | _ => value_condition false
  end.

Definition range_bounds : list (string * string) :=
  [("gte", "GTE"); ("gt", "GT"); ("lte", "LTE"); ("lt", "LT")].

Definition build_range_condition (switch_value match_value : json) : json :=
  match as_object match_value with
  | None => value_condition true
  | Some bounds =>
      let conditions :=
        omap (λ '(key, op),
                (λ value, binary_condition op switch_value (immediate value))
                  <$> assoc_get key bounds) range_bounds in
      match conditions with
      | [] => value_condition true
      | [condition] => condition
      | _ => and_condition conditions
      end
  end.

Definition binary_match_types : list string :=
  ["EQ"; "NE"; "GT"; "GTE"; "LT"; "LTE"; "STARTS_WITH"; "ENDS_WITH"; "CONTAINS"; "IN"; "NOT_IN"].

Definition unary_match_types : list string := ["IS_DEFINED"; "IS_EMPTY"; "IS_NOT_EMPTY"].

Definition switch_case_condition (switch_value case : json) : result string json :=
  match json_get "matchType" case ≫= as_str with
  | None => Err "Switch case missing matchType"
  | Some match_type =>
      let match_value := default JNull (json_get "match" case) in
      let rhs := immediate match_value in
      if decide (match_type = "EQ" ∧ is_Some (as_array match_value)) then
        Ok (binary_condition "IN" switch_value rhs)
      else if decide (match_type ∈ binary_match_types) then
        Ok (binary_condition match_type switch_value rhs)
      else if decide (match_type ∈ unary_match_types) then
        Ok (unary_condition match_type switch_value)
      else if decide (match_type = "BETWEEN") then
        Ok (build_between_condition switch_value match_value)
      else if decide (match_type = "RANGE") then
        Ok (build_range_condition switch_value match_value)
      else Err ("unsupported Switch matchType '" +:+ match_type +:+ "'")
  end.

(** [resolve_dot_path] of [switch_helpers.rs], on the segments of the path. *)
Fixpoint resolve_dot_segments (current : json) (segments : list string) : json :=
  match segments with
  | [] => current
  | segment :: segments =>
      let next :=
        match current with
        | JObject map => assoc_get segment map
        | JArray items => array_index segment (Z.of_nat (length items)) ≫= get_item items
        | _ => None
        end in
      match next with
      | Some value => resolve_dot_segments value segments
      | None => JNull
      end
  end.

Definition resolve_dot_path (source : json) (dot_path : string) : json :=
  resolve_dot_segments source (split_char "."%char dot_path).

(** [process_switch_output], with [recurse_object] for the other objects. *)
Fixpoint process_switch_output (output source : json) {struct output} : json :=
  match output with
  | JObject map =>
      let recurse_object :=
        JObject (List.map (λ kv, (kv.1, process_switch_output kv.2 source)) map) in
      match assoc_get "valueType" map, assoc_get "value" map with
      | Some value_type, Some value =>
          if decide (as_str value_type = Some "reference") then
            match as_str value with
            | Some path => resolve_dot_path source path
            | None => JNull
            end
          else if decide (as_str value_type = Some "immediate") then value
          else recurse_object
      | _, _ => recurse_object
      end
  | JArray arr => JArray (List.map (λ v, process_switch_output v source) arr)
  | _ => output
  end.

Record DirectSwitchResult := { switch_output : json; switch_route : string }.

Definition switch_default (config source : json) : DirectSwitchResult :=
  {| switch_output :=
       process_switch_output (default (JObject []) (json_get "default" config)) source;
     switch_route := "default" |}.

(** The loop over the cases; [None] when no case matches. *)
Fixpoint switch_cases (switch_value source : json) (cases : list json) :
  result string (option DirectSwitchResult) :=
  match cases with
  | [] => Ok None
  | case :: cases =>
      condition ← switch_case_condition switch_value case;
      matched ← CompiledCondition_eval st (compile_condition condition) source;
      if (matched : bool) then
        match json_get "output" case with
        | None => Err "Switch case missing output"
        | Some output =>
            Ok (Some {| switch_output := process_switch_output output source;
                        switch_route := default "default" (json_get "route" case ≫= as_str) |})
        end
      else switch_cases switch_value source cases
  end.

Definition apply_switch (config source : json) : result string DirectSwitchResult :=
  match json_get "value" config with
  | None => Ok (switch_default config source)
  | Some switch_value =>
      found ← match json_get "cases" config ≫= as_array with
              | Some cases => switch_cases switch_value source cases
              | None => Ok None
              end;
      Ok (default (switch_default config source) found)
  end.

End steps.

(** ** Retries *)

(** [a.saturating_mul(b)] on [u64]. *)
Definition saturating_mul_u64 (a b : Z) : Z := Z.min (a * b) u64_max.

(** [2u64.pow(n)] in a release build. *)
Definition pow2_u64 (n : Z) : Z := wrap_u64 (2 ^ n).

Definition retry_delay_ms (attempt_number total_attempts base_delay_ms max_delay_ms : Z)
  (retry_after_ms : option Z) : Z :=
  match retry_after_ms with
  | Some retry_after_ms => Z.min retry_after_ms max_delay_ms
  | None =>
      let backoff_attempt := Z.min attempt_number total_attempts in
      let delay_multiplier := pow2_u64 (Z.max 0 (backoff_attempt - 2)) in
      Z.min (saturating_mul_u64 base_delay_ms delay_multiplier) max_delay_ms
  end.
