(* ===== verification/GuestStepProperties.v ===== *)
(** * Properties of the Filter, Switch and retry steps

    A Filter keeps exactly the matching items in order; a Switch takes its first
    matching case, and the desugared cases mean what they say; a retry waits no
    longer than its cap, and doubles until then.  The second part is on the paths of
    references. *)

From S2P Require Import Prelude.
From S2P Require Import Json.
From S2P Require Import Text.
From S2P Require Import Float64.
From S2P Require Import InstanceHandlers.
From S2P Require Import GuestStore.
From S2P Require Import GuestPaths.
From S2P Require Import GuestExpr.
From S2P Require Import GuestCompiled.
From S2P Require Import GuestProperties.
From S2P Require Import GuestScenarios.
From S2P Require Import GuestSteps.

(** ** Vocabulary of the statements *)

(** What a case of a Switch asks of the value [v]. *)
Definition case_matches (match_type : string) (match_value v : json) : bool :=
  if decide (match_type = "EQ") then
    match as_array match_value with
    | Some options => existsb (values_equal v) options
    | None => values_equal v match_value
    end
  else if decide (match_type = "NE") then negb (values_equal v match_value)
  else if decide (match_type = "GT") then compare_values CmpGt v match_value
  else if decide (match_type = "GTE") then compare_values CmpGte v match_value
  else if decide (match_type = "LT") then compare_values CmpLt v match_value
  else if decide (match_type = "LTE") then compare_values CmpLte v match_value
  else if decide (match_type = "STARTS_WITH") then match_strings false v match_value
  else if decide (match_type = "ENDS_WITH") then match_strings true v match_value
  else if decide (match_type = "CONTAINS") then match_arrays ArrContains v match_value
  else if decide (match_type = "IN") then match_arrays ArrIn v match_value
  else if decide (match_type = "NOT_IN") then match_arrays ArrNotIn v match_value
  else if decide (match_type = "IS_DEFINED") then negb (is_null v)
  else if decide (match_type = "IS_EMPTY") then value_is_empty v
  else if decide (match_type = "IS_NOT_EMPTY") then negb (value_is_empty v)
  else if decide (match_type = "BETWEEN") then
    match as_array match_value with
    | Some (lower :: upper :: _) =>
        compare_values CmpGte v lower && compare_values CmpLte v upper
    | _ => false
    end
  else if decide (match_type = "RANGE") then
    match as_object match_value with
    | Some bounds =>
        let within op key :=
          match assoc_get key bounds with Some b => compare_values op v b | None => true end in
        within CmpGte "gte" && within CmpGt "gt" && within CmpLte "lte" && within CmpLt "lt"
    | None => true
    end
  else false.

Definition match_types : list string :=
  binary_match_types ++ unary_match_types ++ ["BETWEEN"; "RANGE"].

(** [case] has a known match type and matches [v], or does not. *)
Definition case_says (v case : json) (b : bool) : Prop :=
  ∃ mt, json_get "matchType" case ≫= as_str = Some mt ∧ mt ∈ match_types ∧
        case_matches mt (default JNull (json_get "match" case)) v = b.

Section steps.
Context `{Ext, JsonDisplay, Minijinja} (st : ValueStore).
Hypothesis owned_same : ∀ env name text,
  add_template_owned env name text = add_template env name text.

Lemma condition_parity expr source :
  CompiledCondition_eval st (compile_condition expr) source =
  eval_condition_expression st expr source.
Proof. apply (argument_parity st source owned_same expr). Qed.

(** ** Filter *)

Lemma filter_loop_keeps c m keep items : ∀ scope acc,
  (∀ x, assoc_set "item" x scope = assoc_set "item" x m) →
  Forall (λ x, eval_condition_expression st c (JObject (assoc_set "item" x m)) = Ok (keep x))
    items →
  filter_loop st items (compile_condition c) scope acc = Ok (acc ++ List.filter keep items).
Proof.
  induction items as [|x items IH]; intros scope acc Hs Hk; simpl; [by rewrite app_nil_r|].
  apply Forall_cons in Hk as [Hx Hk].
  rewrite condition_parity, Hs, Hx, assoc_get_set_eq. simpl.
  destruct (keep x).
  - rewrite IH; [by rewrite <-app_assoc| |done]. intros y. by rewrite assoc_set_set, assoc_set_set.
  - apply IH; [|done]. intros y. by rewrite assoc_set_set.
Qed.

Lemma filter_loop_fails c m e x post pre : ∀ scope acc,
  (∀ x, assoc_set "item" x scope = assoc_set "item" x m) →
  Forall (λ x, ∃ b, eval_condition_expression st c (JObject (assoc_set "item" x m)) = Ok b) pre →
  eval_condition_expression st c (JObject (assoc_set "item" x m)) = Err e →
  filter_loop st (pre ++ x :: post) (compile_condition c) scope acc = Err e.
Proof.
  induction pre as [|y pre IH]; intros scope acc Hs Hpre Hx; simpl;
    rewrite condition_parity, Hs; [by rewrite Hx|].
  apply Forall_cons in Hpre as [[b Hy] Hpre]. rewrite Hy, assoc_get_set_eq. simpl.
  destruct b; apply IH; try done; intros z; by rewrite ?assoc_set_set.
Qed.

(** ** Switch *)

Context (source : json).

Lemma eval_immediate x :
  eval_argument st (immediate x) source = {| as_truth := Ok (is_truthy x); as_value := Ok x |}.
Proof. reflexivity. Qed.

Lemma eval_binary op a b :
  as_truth (eval_argument st (binary_condition op a b) source) =
  eval_operator op [eval_argument st a source; eval_argument st b source].
Proof. reflexivity. Qed.

Lemma eval_unary op a :
  as_truth (eval_argument st (unary_condition op a) source) =
  eval_operator op [eval_argument st a source].
Proof. reflexivity. Qed.

Lemma eval_and l :
  as_truth (eval_argument st (and_condition l) source) =
  fold_until false true (as_truth <$> List.map (λ a, eval_argument st a source) l).
Proof. reflexivity. Qed.

Context (sv v : json).
Hypothesis resolved : eval_condition_argument_as_value st sv source = Ok v.

Lemma eval_binary_immediate op mt mv :
  mt = match op with CmpGt => "GT" | CmpGte => "GTE" | CmpLt => "LT" | CmpLte => "LTE" end →
  as_truth (eval_argument st (binary_condition mt sv (immediate mv)) source) =
  Ok (compare_values op v mv).
Proof.
  intros ->. unfold eval_condition_argument_as_value in resolved.
  rewrite eval_binary, eval_immediate. destruct op;
    unfold eval_operator; simpl; rewrite resolved; simpl; unfold compare_values;
    by destruct (to_number v), (to_number mv).
Qed.

(** The operators of simple cases. *)
Lemma binary_case mt mv :
  mt ∈ binary_match_types → ¬ (mt = "EQ" ∧ is_Some (as_array mv)) →
  as_truth (eval_argument st (binary_condition mt sv (immediate mv)) source) =
  Ok (case_matches mt mv v).
Proof.
  unfold eval_condition_argument_as_value in resolved.
  intros Hin Heq. rewrite eval_binary, eval_immediate. unfold binary_match_types in Hin.
  repeat (apply elem_of_cons in Hin as [->|Hin]); [..|by apply elem_of_nil in Hin];
    unfold eval_operator, case_matches; simpl; rewrite resolved; simpl; try done.
  1: destruct (as_array mv); [by destruct Heq|done].
  all: unfold compare_values, match_strings.
  all: first [by destruct (to_number v), (to_number mv)|by destruct (as_str v), (as_str mv)].
Qed.

Lemma eq_array_case mv options :
  as_array mv = Some options →
  as_truth (eval_argument st (binary_condition "IN" sv (immediate mv)) source) =
  Ok (case_matches "EQ" mv v).
Proof.
  unfold eval_condition_argument_as_value in resolved. intros Hmv.
  rewrite eval_binary, eval_immediate. unfold eval_operator, case_matches. simpl.
  rewrite resolved. simpl. by rewrite Hmv.
Qed.

Lemma unary_case mt mv :
  mt ∈ unary_match_types →
  as_truth (eval_argument st (unary_condition mt sv) source) = Ok (case_matches mt mv v).
Proof.
  unfold eval_condition_argument_as_value in resolved. intros Hin. rewrite eval_unary.
  unfold unary_match_types in Hin.
  repeat (apply elem_of_cons in Hin as [->|Hin]); [..|by apply elem_of_nil in Hin];
    unfold eval_operator, case_matches; simpl; by rewrite resolved.
Qed.

Lemma fold_and bs acc : fold_until false acc (Ok <$> bs) = Ok (acc && forallb id bs).
Proof.
  revert acc. induction bs as [|b bs IH]; intros acc; csimpl; [by rewrite andb_true_r|].
  destruct acc; simpl; rewrite IH; [done|by destruct bs].
Qed.

(** [c] evaluates to [b]. *)
Definition says (c : json) (b : bool) : Prop :=
  as_truth (eval_argument st c source) = Ok b.

Lemma says_bound op mt x :
  mt = match op with CmpGt => "GT" | CmpGte => "GTE" | CmpLt => "LT" | CmpLte => "LTE" end →
  says (binary_condition mt sv (immediate x)) (compare_values op v x).
Proof. apply eval_binary_immediate. Qed.

Lemma says_and cs bs : Forall2 says cs bs → says (and_condition cs) (forallb id bs).
Proof.
  intros Hcs. unfold says. rewrite eval_and.
  replace (as_truth <$> _) with (Ok (E := string) <$> bs); [by rewrite fold_and|].
  induction Hcs as [|c b cs bs Hc _ IH]; csimpl; [done|]. by rewrite IH, Hc.
Qed.

Lemma between_case mv :
  says (build_between_condition sv mv) (case_matches "BETWEEN" mv v).
Proof.
  unfold build_between_condition, case_matches. simpl.
  destruct (as_array mv) as [[|lower [|upper rest]]|]; try reflexivity.
  rewrite <-(andb_true_r (compare_values CmpLte v upper)).
  apply (says_and _ [_; _]). repeat constructor; by apply says_bound.
Qed.

(** The conditions of a range and what they say, bound by bound. *)
Definition range_conditions (bounds : list (string * json)) : list json :=
  omap (λ '(key, op), (λ value, binary_condition op sv (immediate value)) <$> assoc_get key bounds)
    range_bounds.

Definition range_verdicts (bounds : list (string * json)) : list bool :=
  omap (λ '(key, op), compare_values op v <$> assoc_get key bounds)
    [("gte", CmpGte); ("gt", CmpGt); ("lte", CmpLte); ("lt", CmpLt)].

Lemma range_says bounds : Forall2 says (range_conditions bounds) (range_verdicts bounds).
Proof.
  unfold range_conditions, range_verdicts, range_bounds.
  cbn [omap list_omap].
  destruct (assoc_get "gte" bounds), (assoc_get "gt" bounds), (assoc_get "lte" bounds),
    (assoc_get "lt" bounds); cbn [fmap option_fmap option_map];
    repeat constructor; by apply says_bound.
Qed.

Lemma range_case mv : says (build_range_condition sv mv) (case_matches "RANGE" mv v).
Proof.
  unfold build_range_condition, case_matches. cbn [decide].
  destruct (as_object mv) as [bounds|]; [|reflexivity].
  fold (range_conditions bounds). pose proof (range_says bounds) as Hs.
  assert (case_matches "RANGE" (JObject bounds) v = forallb id (range_verdicts bounds)) as Hv.
  { unfold case_matches, range_verdicts. simpl.
    destruct (assoc_get "gte" bounds), (assoc_get "gt" bounds), (assoc_get "lte" bounds),
      (assoc_get "lt" bounds); simpl; by rewrite ?andb_true_r, ?andb_assoc. }
  unfold case_matches in Hv. simpl in Hv |- *. rewrite Hv. clear Hv.
  destruct Hs as [|c b cs bs Hc [|c' b' cs' bs' Hc' Hs]]; [reflexivity| |].
  - simpl. by rewrite andb_true_r.
  - apply says_and. by repeat constructor.
Qed.

(** A case of a known type compiles to a condition that means it. *)
Lemma case_meaning case b :
  case_says v case b →
  ∃ condition, switch_case_condition sv case = Ok condition ∧
    CompiledCondition_eval st (compile_condition condition) source = Ok b.
Proof.
  intros (mt & Hmt & Hin & <-). setoid_rewrite condition_parity.
  unfold switch_case_condition. rewrite Hmt.
  set (mv := default JNull (json_get "match" case)).
  destruct (decide (mt = "EQ" ∧ is_Some (as_array mv))) as [[-> [l Hl]]|Hneq].
  { eexists. split; [done|]. by eapply eq_array_case. }
  destruct (decide (mt ∈ binary_match_types)) as [Hb|Hb].
  { eexists. split; [done|]. by apply binary_case. }
  destruct (decide (mt ∈ unary_match_types)) as [Hu|Hu].
  { eexists. split; [done|]. by apply unary_case. }
  unfold match_types in Hin. rewrite !elem_of_app, !elem_of_cons, elem_of_nil in Hin.
  destruct Hin as [|[|[->|[->|[]]]]]; [done|done| |]; (eexists; split; [done|]).
  - apply between_case.
  - apply range_case.
Qed.

Lemma switch_skips cases rest :
  Forall (λ case, case_says v case false) cases →
  switch_cases st sv source (cases ++ rest) = switch_cases st sv source rest.
Proof.
  induction 1 as [|case cases Hc _ IH]; simpl; [done|].
  destruct (case_meaning _ _ Hc) as (cond & -> & Hcond). simpl. by rewrite Hcond.
Qed.

End steps.

(** ** Theorems *)

(** a Filter keeps exactly the items its condition accepts, in order.  On an
    array and an object scope, if the condition is defined on every item (with the
    item in the scope under [item]), the result lists the accepted items and their
    number; if it fails on an item, the first such error is the result. *)
Lemma filter_keeps_matching `{Ext, JsonDisplay, Minijinja} st config scope input items c :
  (∀ env name text, add_template_owned env name text = add_template env name text) →
  json_get "value" config = Some input → json_get "condition" config = Some c →
  apply_mapping_value st input (JObject scope) = Ok (JArray items) →
  let verdict x := eval_condition_expression st c (JObject (assoc_set "item" x scope)) in
  (∀ keep, Forall (λ x, verdict x = Ok (keep x)) items →
     let kept := List.filter keep items in
     apply_filter st config (JObject scope) =
     Ok (JObject [("count", JNumber (PosInt (Z.of_nat (length kept)))); ("items", JArray kept)])) ∧
  (∀ pre x post e, items = pre ++ x :: post → Forall (λ x, ∃ b, verdict x = Ok b) pre →
     verdict x = Err e → apply_filter st config (JObject scope) = Err e).
Proof.
  intros Hown Hv Hc Hin verdict. unfold apply_filter. rewrite Hv, Hin. simpl. rewrite Hc. split.
  - intros keep Hk. unfold apply_filter_compiled.
    by rewrite (filter_loop_keeps st Hown c scope keep) by done.
  - intros pre x post e -> Hpre Hx. unfold apply_filter_compiled.
    by rewrite (filter_loop_fails st Hown c scope e) by done.
Qed.

(** C35: a Switch takes its first matching case.  Let the switched value resolve to
    [v].  If all earlier cases do not match [v] and a case does, its output and
    route are the result; if no case matches, the default is.  [case_matches] says
    what each match type asks, the bounds of BETWEEN and RANGE and the alternatives
    of an EQ with an array included. *)
Theorem switch_takes_first_match `{Ext, JsonDisplay, Minijinja} st config source sv v cases :
  (∀ env name text, add_template_owned env name text = add_template env name text) →
  json_get "value" config = Some sv → json_get "cases" config = Some (JArray cases) →
  eval_condition_argument_as_value st sv source = Ok v →
  (∀ pre case post output, cases = pre ++ case :: post →
     Forall (λ k, case_says v k false) pre → case_says v case true →
     json_get "output" case = Some output →
     apply_switch st config source =
     Ok {| switch_output := process_switch_output output source;
           switch_route := default "default" (json_get "route" case ≫= as_str) |}) ∧
  (Forall (λ k, case_says v k false) cases →
     apply_switch st config source = Ok (switch_default config source)).
Proof.
  intros Hown Hsv Hcs Hres. unfold apply_switch. rewrite Hsv, Hcs. simpl. split.
  - intros pre case post output -> Hpre Hcase Hout.
    rewrite (switch_skips st Hown source sv v Hres) by done. simpl.
    destruct (case_meaning st Hown source sv v Hres _ _ Hcase) as (cond & -> & Hcond). simpl.
    by rewrite Hcond, Hout.
  - intros Hall. rewrite <-(app_nil_r cases).
    by rewrite (switch_skips st Hown source sv v Hres).
Qed.

(** C36: the delay before a retry.  A server's retry-after is capped.  Otherwise the
    base delay is doubled for every attempt after the second, up to the cap; but the
    multiplier is a 64-bit power of two, which is 0 from the 66th attempt on, and
    then the retry does not wait at all. *)
Theorem retry_delay_exact attempt total base cap :
  0 ≤ attempt → 0 ≤ total → 0 ≤ base → 0 ≤ cap ≤ u64_max →
  (∀ after, retry_delay_ms attempt total base cap (Some after) = Z.min after cap) ∧
  (Z.min attempt total ≤ 65 →
     retry_delay_ms attempt total base cap None =
     Z.min (base * 2 ^ Z.max 0 (Z.min attempt total - 2)) cap) ∧
  (66 ≤ Z.min attempt total → retry_delay_ms attempt total base cap None = 0).
Proof.
  intros Ha Ht Hb Hc. unfold retry_delay_ms, pow2_u64, wrap_u64, saturating_mul_u64.
  set (n := Z.max 0 (Z.min attempt total - 2)). split; [done|]. split; intros Hn.
  - assert (2 ^ n < 2 ^ 64) by (apply Z.pow_lt_mono_r; lia).
    rewrite Z.mod_small by (split; [apply Z.pow_nonneg; lia|done]). lia.
  - replace n with ((n - 64) + 64) by lia. rewrite Z.pow_add_r by lia.
    rewrite Z.mod_mul by done. lia.
Qed.

#[local] Existing Instance codec.
#[local] Existing Instance plain_display.
#[local] Existing Instance text_engine.

Definition small_numbers : json := JArray (map (λ n, JNumber (PosInt n)) [1; 5; 3; 7]).

(** Keep the items greater than 2. *)
Definition demo_filter : json :=
  JObject [("condition", operation "GT" [reference_to "item"; literal (JNumber (PosInt 2))]);
           ("value", reference_to "ns")].

Lemma filter_keeps_matching_witness :
  apply_filter fresh_arena demo_filter (JObject [("ns", small_numbers)]) =
  Ok (JObject [("count", JNumber (PosInt 3));
               ("items", JArray (map (λ n, JNumber (PosInt n)) [5; 3; 7]))]).
Proof.
  destruct (filter_keeps_matching fresh_arena demo_filter [("ns", small_numbers)]
              (reference_to "ns") (map (λ n, JNumber (PosInt n)) [1; 5; 3; 7])
              (operation "GT" [reference_to "item"; literal (JNumber (PosInt 2))]))
    as [Hk _]; [done..|by vm_compute|].
  apply (Hk (λ v, compare_values CmpGt v (JNumber (PosInt 2)))).
  repeat constructor; by vm_compute.
Defined.

Definition demo_case (mt : string) (mv : json) (route : string) : json :=
  JObject [("match", mv); ("matchType", JString mt); ("output", JString route);
           ("route", JString route)].

Definition demo_cases : list json :=
  [demo_case "EQ" (JArray [JString "a"; JString "b"]) "letters";
   demo_case "BETWEEN" (JArray [JNumber (PosInt 1); JNumber (PosInt 4)]) "low";
   demo_case "RANGE" (JObject [("gt", JNumber (PosInt 2))]) "high"].

Definition demo_switch : json :=
  JObject [("cases", JArray demo_cases); ("value", reference_to "n")].

Lemma switch_takes_first_match_witness :
  apply_switch fresh_arena demo_switch (JObject [("n", JNumber (PosInt 9))]) =
  Ok {| switch_output := JString "high"; switch_route := "high" |}.
Proof.
  destruct (switch_takes_first_match fresh_arena demo_switch (JObject [("n", JNumber (PosInt 9))])
              (reference_to "n") (JNumber (PosInt 9)) demo_cases)
    as [Hm _]; [done|done|done|by vm_compute|].
  eapply (Hm (take 2 demo_cases) (demo_case "RANGE" (JObject [("gt", JNumber (PosInt 2))]) "high")
            [] (JString "high")); [done| |..|done].
  - repeat constructor; (eexists; split; [reflexivity|]; split; [set_solver|by vm_compute]).
  - eexists. split; [reflexivity|]. split; [set_solver|by vm_compute].
Defined.

Lemma retry_delay_exact_witness :
  retry_delay_ms 4 5 1000 60000 None = 4000 ∧ retry_delay_ms 66 70 1000 60000 None = 0.
Proof.
  destruct (retry_delay_exact 4 5 1000 60000) as (_ & H4 & _); [by vm_compute..|].
  destruct (retry_delay_exact 66 70 1000 60000) as (_ & _ & H66); [by vm_compute..|].
  split; [rewrite H4; done|by apply H66].
Defined.

(** * Properties of reference paths

    The escaping of segments is undone by the unescaping, and the segments of a
    dotted path are its parts. *)

(** ** Vocabulary of the statements *)

(** A part of a path without dots and brackets. *)
Definition plain_segment (s : string) : bool :=
  lacks "."%char s && lacks "["%char s && lacks "]"%char s.

(** ** Replacement *)

Lemma strip_prefix_lacks d pat s :
  lacks d pat = false → lacks d s = true → strip_prefix pat s = None.
Proof.
  revert s. induction pat as [|c pat IH]; simpl; intros s Hp Hs; [done|].
  destruct s as [|e s]; [done|]. simpl in Hs. apply andb_prop in Hs as [He Hs].
  destruct (Ascii.eqb_spec c e) as [<-|]; [|done].
  apply IH; [|done]. apply negb_true_iff in He. by rewrite He in Hp.
Qed.

(** A pattern with a character the text lacks is not found. *)
Lemma replace_lacks d pat rep s :
  lacks d pat = false → lacks d s = true → replace pat rep s = s.
Proof.
  intros Hp. unfold replace. induction s as [|c s IH]; intros Hs; [done|].
  cbn [replace_from]. unfold starts_with. rewrite (strip_prefix_lacks d) by done.
  rewrite bool_decide_false by by intros []. simpl in Hs. apply andb_prop in Hs as [_ Hs].
  by rewrite IH.
Qed.

Lemma lacks_app c a b : lacks c (a +:+ b) = lacks c a && lacks c b.
Proof. induction a as [|d a IH]; simpl; [done|]. by rewrite IH, andb_assoc. Qed.

Lemma lacks_join c parts :
  c ≠ "."%char → forallb (lacks c) parts = true → lacks c (join "." parts) = true.
Proof.
  intros Hc. induction parts as [|p parts IH]; [done|]. intros [Hp Hps]%andb_prop.
  destruct parts as [|q parts]; [done|].
  change (join "." (p :: q :: parts)) with (p +:+ "." +:+ join "." (q :: parts)).
  rewrite !lacks_app, Hp, IH by done.
  change (lacks c ".") with (negb (Ascii.eqb "."%char c) && true).
  by destruct (Ascii.eqb_spec "."%char c) as [<-|].
Qed.

Lemma dot_indexes_lacks s : lacks "["%char s = true → dot_indexes None s = s.
Proof.
  induction s as [|c s IH]; simpl; [done|]. intros [Hc Hs]%andb_prop.
  apply negb_true_iff in Hc. by rewrite Hc, IH.
Qed.

(** ** Escaping *)

Lemma escape_lacks s : lacks "/"%char (escape_segment s) = true.
Proof.
  induction s as [|c s IH]; simpl; [done|].
  destruct (Ascii.eqb_spec c "~"%char); [done|].
  destruct (Ascii.eqb_spec c "/"%char) as [|Hc]; [done|]. simpl.
  rewrite IH, andb_true_r. by destruct (Ascii.eqb_spec c "/"%char).
Qed.

(** The escaping of the tilde alone. *)
Fixpoint escape_tilde (s : string) : string :=
  match s with
  | EmptyString => EmptyString
  | String c r => if Ascii.eqb c "~"%char then "~0" +:+ escape_tilde r else String c (escape_tilde r)
  end.

Lemma starts_with_tilde c r p :
  c ≠ "~"%char → starts_with (String c r) (String "~" p) = false.
Proof.
  intros Hc. unfold starts_with. cbn [strip_prefix].
  destruct (Ascii.eqb_spec "~"%char c) as [<-|]; [done|].
  apply bool_decide_false. by intros [].
Qed.

Lemma unescape_slash s : replace "~1" "/" (escape_segment s) = escape_tilde s.
Proof.
  unfold replace. induction s as [|c s IH]; [done|]. cbn [escape_segment escape_tilde].
  destruct (Ascii.eqb_spec c "~"%char) as [->|Ht].
  { transitivity ("~0" +:+ replace_from "~1" "/" 0 (escape_segment s)); [done|by rewrite IH]. }
  destruct (Ascii.eqb_spec c "/"%char) as [->|Hs].
  { transitivity ("/" +:+ replace_from "~1" "/" 0 (escape_segment s)); [done|by rewrite IH]. }
  cbn [replace_from]. by rewrite starts_with_tilde, IH.
Qed.

Lemma unescape_tilde s : replace "~0" "~" (escape_tilde s) = s.
Proof.
  unfold replace. induction s as [|c s IH]; [done|]. cbn [escape_tilde].
  destruct (Ascii.eqb_spec c "~"%char) as [->|Ht].
  { transitivity ("~" +:+ replace_from "~0" "~" 0 (escape_tilde s)); [done|by rewrite IH]. }
  cbn [replace_from]. by rewrite starts_with_tilde, IH.
Qed.

Lemma unescape_escape s : unescape_pointer_segment (escape_segment s) = s.
Proof. unfold unescape_pointer_segment. by rewrite unescape_slash, unescape_tilde. Qed.

(** ** Pointers *)

Lemma append_empty e : e +:+ "" = e.
Proof. induction e as [|c e IH]; [done|]. change (String c e +:+ "") with (String c (e +:+ "")). by rewrite IH. Qed.

Lemma append_assoc a b c : a +:+ (b +:+ c) = (a +:+ b) +:+ c.
Proof.
  induction a as [|x a IH]; [done|]. change (String x (a +:+ (b +:+ c)) = String x ((a +:+ b) +:+ c)).
  by rewrite IH.
Qed.

Lemma split_pointer e es :
  forallb (lacks "/"%char) (e :: es) = true →
  split_char "/"%char (e +:+ concat_str ((λ e, "/" +:+ e) <$> es)) = e :: es.
Proof.
  revert e. induction es as [|e' es IH]; intros e; csimpl; intros [He Hes]%andb_prop.
  - rewrite split_lacks; [|by rewrite lacks_app, He]. by rewrite append_empty.
  - change (("/" +:+ e') +:+ ?x) with (String "/"%char (e' +:+ x)).
    rewrite split_app by done. f_equal. by apply IH.
Qed.

#[local] Arguments unescape_pointer_segment : simpl never.

(** A dotted path of plain parts. *)
Lemma path_segments_join segments :
  segments ≠ [] → forallb plain_segment segments = true →
  path_to_segments (join "." segments) = segments.
Proof.
  intros Hne Hp. unfold path_to_segments, path_to_json_pointer.
  assert (Hlack : ∀ c, (c = "."%char ∨ c = "["%char ∨ c = "]"%char) →
            forallb (lacks c) segments = true).
  { intros c Hc. apply forallb_forall. intros s Hs. rewrite forallb_forall in Hp.
    specialize (Hp s Hs). unfold plain_segment in Hp.
    apply andb_prop in Hp as [[? ?]%andb_prop ?]. by destruct Hc as [->|[-> | ->]]. }
  pose proof (lacks_join "["%char segments ltac:(done) (Hlack "["%char ltac:(auto))) as Hopen.
  pose proof (lacks_join "]"%char segments ltac:(done) (Hlack "]"%char ltac:(auto))) as Hclose.
  rewrite (replace_lacks "["%char "['") by done.
  rewrite (replace_lacks "]"%char "']") by done.
  rewrite (replace_lacks "["%char ("[" +:+ dquote)) by done.
  rewrite (replace_lacks "]"%char (dquote +:+ "]")) by done.
  rewrite dot_indexes_lacks by done.
  rewrite (split_join "."%char) by auto.
  destruct segments as [|s segments]; [done|].
  assert (Hesc : forallb (lacks "/"%char) (escape_segment <$> s :: segments) = true).
  { apply forallb_forall. intros e (s' & <- & _)%in_map_iff. apply escape_lacks. }
  replace ((λ segment, "/" +:+ escape_segment segment) <$> s :: segments)
    with ((λ e, "/" +:+ e) <$> (escape_segment <$> s :: segments))
    by by rewrite <-list_fmap_compose.
  csimpl. csimpl in Hesc. simpl. rewrite split_pointer by done. simpl.
  f_equal; [apply unescape_escape|].
  change (list_fmap string string) with (fmap (M := list) (A := string) (B := string)).
  rewrite <-list_fmap_compose. rewrite <-(list_fmap_id segments) at 2.
  apply list_fmap_ext. intros i x _. apply unescape_escape.
Qed.

(** ** Theorems *)

(** The segments of a dotted reference path are its parts, whatever characters
    other than dots and brackets they have: the slashes and tildes that JSON
    pointers escape come back unchanged. *)
Lemma path_segments_roundtrip segments :
  segments ≠ [] → forallb plain_segment segments = true →
  path_to_segments (join "." segments) = segments.
Proof. apply path_segments_join. Qed.

Lemma path_segments_roundtrip_witness :
  path_to_segments "steps.fetch/all.outputs~v2.0" = ["steps"; "fetch/all"; "outputs~v2"; "0"].
Proof.
  apply (path_segments_roundtrip ["steps"; "fetch/all"; "outputs~v2"; "0"]); done.
Defined.
