(* ===== verification/ValidationBase.v ===== *)
(** * runtara-workflows: validation, the shared part

    [validation.rs]: the errors and warnings of the validator, the result they are
    collected in, the functions that read reference paths, the similarity of
    names, and the searches over the execution plan.

    The source threads one [&mut ValidationResult] through every check and only
    appends to it; here a check returns what it appends, and [merge] composes.
    A [HashMap] is visited in the order of its [gmap]; the order of the issues of
    different entries is unspecified in the source, and no theorem depends on it. *)

From S2P Require Import Prelude.
From S2P Require Import Json.
From S2P Require Import Text.
From S2P Require Import Dsl.

(** ** Errors and warnings *)

Record MissingInputField := {
  mf_name : string;
  mf_field_type : string;
  mf_description : option string }.

Inductive ValidationError :=
| EntryPointNotFound (entry_point : string) (available_steps : list string)
| UnreachableStep (step_id : string)
| UnreachableFinish (step_id entry_point : string) (defined_edges : nat)
| EmptyWorkflow
| FinishOutputMissingName (step_id : string)
| FinishOutputMissingSource (step_id output_name : string)
| InvalidStepReference (step_id reference_path referenced_step_id : string)
    (available_steps : list string)
| InvalidReferencePath (step_id reference_path reason : string)
| EdgeReferencesUnknownStep (from_step to_step endpoint missing_step : string)
    (label : option string) (available_steps : list string)
| UnknownAgent (step_id agent_id : string) (available_agents : list string)
| UnknownCapability (step_id agent_id capability_id : string)
    (available_capabilities : list string)
| MissingRequiredInput (step_id agent_id capability_id input_name : string)
| AgentMissingConnection (step_id agent_id capability_id : string)
| InvalidChildVersion (step_id child_workflow_id version reason : string)
| UndefinedDataReference (step_id reference field_name : string)
    (available_fields : list string)
| MissingInputSchema (step_id reference : string)
| UndefinedVariableReference (step_id reference variable_name : string)
    (available_variables : list string)
| UndefinedReferenceField (step_id reference known_prefix missing_field : string)
    (available_fields : list string)
| ReferenceNonObjectTraversal
    (step_id reference known_prefix actual_type attempted_field : string)
| UnknownReferenceRoot (step_id reference root : string) (legal_roots : list string)
| ReferenceRootOutOfScope (step_id reference root reason : string)
| ChildMissingInputSchema (step_id child_workflow_id : string)
| MissingChildRequiredInputs (step_id child_workflow_id : string)
    (missing_fields : list MissingInputField) (provided_fields : list string)
| MissingChildWorkflow (step_id child_workflow_id : string)
| DuplicateEmbedStepId (step_id : string)
| CircularDependency (cycle_path : list string)
| StepNotYetExecuted (step_id referenced_step_id : string)
| UnknownVariable (step_id variable_name : string) (available_variables : list string)
| TypeMismatch (step_id field_name expected_type actual_type : string)
| InvalidEnumValue (step_id field_name value : string) (allowed_values : list string)
| InvalidConditionShape (step_id field_name path message : string)
| QueryOnlyConditionOperator (step_id location operator : string)
| DuplicateStepName (name : string) (step_ids : list string)
| DuplicateEdgePriority (from_step : string) (label : option string) (priority : Z)
    (duplicate_targets : list string)
| MultipleDefaultEdges (from_step : string) (label : option string) (targets : list string)
| ParallelFanoutNoMerge (from_step : string) (targets : list string)
| InvalidConditionalEdge (from_step to_step : string) (label : option string) (reason : string)
| AiAgentDuplicateToolLabel (step_id label : string)
| AiAgentInvalidToolLabel (step_id label : string)
| AiAgentMissingConnection (step_id : string)
| AiAgentMultipleMemoryEdges (step_id : string)
| AiAgentMemoryEdgeNotAgent (step_id target_step_id : string)
| AiAgentMemoryConfigWithoutEdge (step_id : string)
| AiAgentMemoryEdgeWithoutConfig (step_id : string)
| AiAgentMcpEdgeNotAgent (step_id target_step_id label : string)
| AiAgentMcpEdgeWrongAgentId (step_id target_step_id label actual_agent_id : string)
| AiAgentMcpEdgeEmptySuffix (step_id label : string)
| AiAgentMcpEdgeDuplicateSuffix (step_id toolset : string).

Definition code (e : ValidationError) : string :=
  match e with
  | EntryPointNotFound _ _ => "E001"
  | UnreachableStep _ => "E002"
  | UnreachableFinish _ _ _ => "E003"
  | EmptyWorkflow => "E004"
  | FinishOutputMissingName _ => "E117"
  | FinishOutputMissingSource _ _ => "E118"
  | InvalidStepReference _ _ _ _ => "E010"
  | InvalidReferencePath _ _ _ => "E011"
  | EdgeReferencesUnknownStep _ _ _ _ _ _ => "E014"
  | UnknownAgent _ _ _ => "E020"
  | UnknownCapability _ _ _ _ => "E021"
  | MissingRequiredInput _ _ _ _ => "E022"
  | AgentMissingConnection _ _ _ => "E026"
  | InvalidChildVersion _ _ _ _ => "E050"
  | UndefinedDataReference _ _ _ _ => "E051"
  | MissingInputSchema _ _ => "E052"
  | UndefinedVariableReference _ _ _ _ => "E053"
  | UndefinedReferenceField _ _ _ _ _ => "E058"
  | ReferenceNonObjectTraversal _ _ _ _ _ => "E059"
  | UnknownReferenceRoot _ _ _ _ => "E126"
  | ReferenceRootOutOfScope _ _ _ _ => "E127"
  | ChildMissingInputSchema _ _ => "E054"
  | MissingChildWorkflow _ _ => "E124"
  | DuplicateEmbedStepId _ => "E125"
  | MissingChildRequiredInputs _ _ _ _ => "E055"
  | CircularDependency _ => "E056"
  | StepNotYetExecuted _ _ => "E012"
  | UnknownVariable _ _ _ => "E013"
  | TypeMismatch _ _ _ _ => "E023"
  | InvalidEnumValue _ _ _ _ => "E024"
  | InvalidConditionShape _ _ _ _ => "E025"
  | QueryOnlyConditionOperator _ _ _ => "E027"
  | DuplicateStepName _ _ => "E060"
  | DuplicateEdgePriority _ _ _ _ => "E070"
  | MultipleDefaultEdges _ _ _ => "E071"
  | ParallelFanoutNoMerge _ _ => "E073"
  | InvalidConditionalEdge _ _ _ _ => "E072"
  | AiAgentDuplicateToolLabel _ _ => "E110"
  | AiAgentInvalidToolLabel _ _ => "E111"
  | AiAgentMissingConnection _ => "E112"
  | AiAgentMultipleMemoryEdges _ => "E113"
  | AiAgentMemoryEdgeNotAgent _ _ => "E114"
  | AiAgentMemoryConfigWithoutEdge _ => "E115"
  | AiAgentMemoryEdgeWithoutConfig _ => "E116"
  | AiAgentMcpEdgeNotAgent _ _ _ => "E120"
  | AiAgentMcpEdgeWrongAgentId _ _ _ _ => "E121"
  | AiAgentMcpEdgeEmptySuffix _ _ => "E122"
  | AiAgentMcpEdgeDuplicateSuffix _ _ => "E123"
  end.

Inductive ValidationWarning :=
| UnknownInputField (step_id agent_id capability_id field_name : string)
    (available_fields : list string)
| HighRetryCount (step_id : string) (max_retries recommended_max : Z)
| LongRetryDelay (step_id : string) (retry_delay_ms recommended_max_ms : Z)
| SplitParallelismIgnored (step_id : string) (parallelism : Z)
| HighMaxIterations (step_id : string) (max_iterations recommended_max : Z)
| LongTimeout (step_id : string) (timeout_ms recommended_max_ms : Z)
| SelfReference (step_id reference_path : string)
| DanglingStep (step_id step_type : string)
| DuplicateEdgeToTarget (from_step to_step : string) (labels : list string)
| CompensationNotEnforced (step_id : string)
| TimeoutNotEnforced (step_id step_type : string)
| OnWaitIgnoredForAiAgentTool (step_id tool_label wait_step_id : string)
| PartiallyUnverifiedReference (step_id reference known_prefix unverified_suffix : string)
| TemplateReferenceIssue (step_id reference reason : string)
| BareErrorReference (step_id reference_path suggested_path : string)
| UnverifiedDataReference (step_id reference : string).

Record ValidationResult := {
  errors : list ValidationError;
  warnings : list ValidationWarning }.

Definition merge (self other : ValidationResult) : ValidationResult :=
  {| errors := errors self ++ errors other; warnings := warnings self ++ warnings other |}.

Definition no_issues : ValidationResult := {| errors := []; warnings := [] |}.
Definition push_error (e : ValidationError) : ValidationResult :=
  {| errors := [e]; warnings := [] |}.
Definition push_warning (w : ValidationWarning) : ValidationResult :=
  {| errors := []; warnings := [w] |}.

Definition has_errors (r : ValidationResult) : bool := bool_decide (errors r ≠ []).
(** [ValidationResult::is_ok] *)
Definition result_is_ok (r : ValidationResult) : bool := bool_decide (errors r = []).

Infix "⊕" := merge (at level 50, left associativity) : runtara_scope.
Open Scope runtara_scope.

(** A check that only applies under a condition. *)
Definition when (b : bool) (r : ValidationResult) : ValidationResult := if b then r else no_issues.

(** A [for] loop over a list and over the entries of a map. *)
Definition for_each {A} (l : list A) (f : A → ValidationResult) : ValidationResult :=
  foldr (λ x rest, f x ⊕ rest) no_issues l.

Definition for_entries {A} (m : gmap string A) (f : string → A → ValidationResult) :
  ValidationResult :=
  map_fold (λ k a rest, f k a ⊕ rest) no_issues m.

(** The keys and the values of a map, and the sorted keys. *)
Definition keys {A} (m : gmap string A) : list string := (map_to_list m).*1.
Definition values {A} (m : gmap string A) : list A := (map_to_list m).*2.
Definition sorted (l : list string) : list string := merge_sort str_le l.
Definition key_set {A} (m : gmap string A) : gset string := list_to_set (keys m).

(** ** Reference paths *)

(** The text up to the first [c], or all of it. *)
Definition up_to (c : Ascii.ascii) (s : string) : string :=
  match split_once c s with Some (a, _) => a | None => s end.

Definition extract_step_id_from_reference (ref_path : string) : option string :=
  let dotted := up_to "."%char <$> strip_prefix "steps." ref_path in
  match strip_prefix "steps[" ref_path with
  | Some rest =>
      match split_once "]"%char rest with
      | Some (inner, _) => Some (trim_matches is_quote inner)
      | None => dotted
      end
  | None => dotted
  end.

Definition extract_variable_name_from_reference (ref_path : string) : option string :=
  up_to "."%char <$> strip_prefix "variables." ref_path.

Definition parse_reference (reference : string) : option (string * string) :=
  match split_char "."%char reference with
  | root :: field :: _ =>
      if bool_decide (root ≠ "data") && bool_decide (root ≠ "variables") then None
      else Some (root, field)
  | _ => None
  end.

Definition LEGAL_REFERENCE_ROOTS : list string :=
  ["data"; "variables"; "workflow"; "steps"; "iteration"; "loop"; "item"].

Definition reference_root (reference : string) : string :=
  take_while (λ c, negb (Ascii.eqb c "."%char) && negb (Ascii.eqb c "["%char)) reference.

(** The scan of [reference_segments]: outside brackets [current] is the segment
    being read; inside, [bracket] is the text since the opening bracket. *)
Definition flush (current : string) : list string :=
  if is_empty_str current then [] else [current].

Definition bracket_segment (bracket : string) : list string :=
  flush (trim_matches is_quote (trim bracket)).

Fixpoint segments_from (current : string) (bracket : option string) (s : string) : list string :=
  match bracket, s with
  | None, EmptyString => flush current
  | None, String ch r =>
      if Ascii.eqb ch "."%char then flush current ++ segments_from "" None r
      else if Ascii.eqb ch "["%char then flush current ++ segments_from "" (Some "") r
      else segments_from (current +:+ String ch "") None r
  | Some b, EmptyString => bracket_segment b ++ flush current
  | Some b, String ch r =>
      if Ascii.eqb ch "]"%char then bracket_segment b ++ segments_from current None r
      else segments_from current (Some (b +:+ String ch "")) r
  end.

Definition reference_segments (reference : string) : list string :=
  segments_from "" None reference.

Fixpoint segments_start_with (segments prefix : list string) : bool :=
  match segments, prefix with
  | segment :: segments, expected :: prefix =>
      bool_decide (segment = expected) && segments_start_with segments prefix
  | _, _ => true
  end.

(** ** Similar names *)

(** The cells of a row of the table after the first: [diag] and the row above
    it are the previous row, [left] is the last cell written. *)
Fixpoint lev_cells (a : string) (diag left : nat) (above : list nat) (b : list string) :
  list nat :=
  match b, above with
  | bj :: b, up :: above =>
      let cost := if bool_decide (a = bj) then 0%nat else 1%nat in
      let cell := Nat.min (up + 1) (Nat.min (left + 1) (diag + cost)) in
      cell :: lev_cells a up cell above b
  | _, _ => []
  end.

Definition lev_row (i : nat) (a : string) (prev : list nat) (b : list string) : list nat :=
  match prev with
  | [] => []
  | diag :: above => i :: lev_cells a diag i above b
  end.

Fixpoint lev_rows (i : nat) (a : list string) (prev : list nat) (b : list string) : list nat :=
  match a with
  | [] => prev
  | ai :: a => lev_rows (S i) a (lev_row i ai prev b) b
  end.

Definition levenshtein_distance (a b : string) : nat :=
  let a_chars := chars a in
  let b_chars := chars b in
  let m := length a_chars in
  let n := length b_chars in
  if bool_decide (m = 0%nat) then n
  else if bool_decide (n = 0%nat) then m
  else default 0%nat (lev_rows 1 a_chars (seq 0 (n + 1)) b_chars !! n).

(** The Unicode tables behind [str::to_lowercase] and [char::is_alphanumeric]. *)
Class UnicodeData := {
  to_lowercase : string → string;
  is_alphanumeric : string → bool }.

(** [min_by_key]: the first candidate with the least distance. *)
Fixpoint closest (best : option (string * nat)) (l : list (string * nat)) :
  option (string * nat) :=
  match l with
  | [] => best
  | (name, d) :: l =>
      match best with
      | Some (_, d') => if (d <? d')%nat then closest (Some (name, d)) l else closest best l
      | None => closest (Some (name, d)) l
      end
  end.

Definition find_similar_name `{UnicodeData} (target : string) (candidates : list string) :
  option string :=
  let target_lower := to_lowercase target in
  let scored := omap (λ candidate,
    let distance := levenshtein_distance target_lower (to_lowercase candidate) in
    if (distance <=? String.length target / 2 + 2)%nat then Some (candidate, distance) else None)
    candidates in
  fst <$> closest None scored.

(** ** Searches over the plan *)

Definition build_adjacency (graph : ExecutionGraph) : gmap string (list string) :=
  foldl (λ adjacency e,
    <[from_step e := default [] (adjacency !! from_step e) ++ [to_step e]]> adjacency)
    ∅ (execution_plan graph).

(** The steps [has_path] has seen, and its queue; [None] is out of rounds. *)
Fixpoint has_path_loop (fuel : nat) (adjacency : gmap string (list string)) (to : string)
  (visited : gset string) (queue : list string) : option bool :=
  match queue with
  | [] => Some false
  | step_id :: queue =>
      match fuel with
      | O => None
      | S fuel =>
          if decide (step_id = to) then Some true
          else if decide (step_id ∈ visited) then has_path_loop fuel adjacency to visited queue
          else
            let visited := {[step_id]} ∪ visited in
            let neighbors := default [] (adjacency !! step_id) in
            has_path_loop fuel adjacency to visited
              (queue ++ filter (λ neighbor, neighbor ∉ visited) neighbors)
      end
  end.

(** Every round takes one entry off the queue, and an entry is put on it at most
    once for each edge. *)
Definition path_rounds (adjacency : gmap string (list string)) : nat :=
  S (map_fold (λ _ targets n, length targets + n)%nat 0%nat adjacency).

Definition has_path (adjacency : gmap string (list string)) (from to : string) : bool :=
  default false (has_path_loop (path_rounds adjacency) adjacency to ∅ [from]).

(** The loop of [compute_reachable_steps]; the last element of the vector is the
    head of [stack].  [reachable_over_normal_flow] runs the same loop over its own
    adjacency. *)
Fixpoint reachable_loop (fuel : nat) (adjacency : gmap string (list string))
  (reachable : gset string) (stack : list string) : option (gset string) :=
  match stack with
  | [] => Some reachable
  | step_id :: stack =>
      match fuel with
      | O => None
      | S fuel =>
          if decide (step_id ∈ reachable) then reachable_loop fuel adjacency reachable stack
          else
            let reachable := {[step_id]} ∪ reachable in
            let neighbors := default [] (adjacency !! step_id) in
            reachable_loop fuel adjacency reachable
              (reverse (filter (λ neighbor, neighbor ∉ reachable) neighbors) ++ stack)
      end
  end.

Definition compute_reachable_steps (graph : ExecutionGraph) : gset string :=
  let adjacency := build_adjacency graph in
  default ∅ (reachable_loop (path_rounds adjacency) adjacency ∅ [entry_point graph]).

Definition normal_flow_adjacency (graph : ExecutionGraph) : gmap string (list string) :=
  foldl (λ adjacency e,
    if bool_decide (label e ≠ Some "onError") then
      <[from_step e := default [] (adjacency !! from_step e) ++ [to_step e]]> adjacency
    else adjacency) ∅ (execution_plan graph).

Definition reachable_over_normal_flow (graph : ExecutionGraph) (start : string) : gset string :=
  let adjacency := normal_flow_adjacency graph in
  default ∅ (reachable_loop (path_rounds adjacency) adjacency ∅ [start]).

Definition parallel_branches_reconverge (graph : ExecutionGraph) (branch_starts : list string) :
  bool :=
  if (length branch_starts <? 2)%nat then false
  else
    match reachable_over_normal_flow graph <$> branch_starts with
    | [] => false
    | first :: rest =>
        existsb (λ node, forallb (λ set, bool_decide (node ∈ set)) rest) (elements first)
    end.
