(* ===== verification/ValidationGraph.v ===== *)
(** * runtara-workflows: validation of the graph

    [validation.rs], the phases that look at steps, edges and configuration:
    structure (1), edge endpoints (1.1), duplicate edges (1.2), finish outputs
    (1.5), execution order (2.5), configuration (4), child versions (5), step names
    (8), compensation and timeouts (9, 9.5), edge conditions (10), condition
    operators (10.5) and AI agents (11).  Every phase is recursive on the graph and
    visits the subgraphs the source visits. *)

From S2P Require Import Prelude.
From S2P Require Import Json.
From S2P Require Import Text.
From S2P Require Import Dsl.
From S2P Require Import ValidationBase.

Definition get_step_type_name (step : Step) : string :=
  match step with
  | Agent _ => "Agent"
  | Finish _ => "Finish"
  | Conditional _ => "Conditional"
  | Split _ => "Split"
  | Switch _ => "Switch"
  | EmbedWorkflow _ => "EmbedWorkflow"
  | While _ => "While"
  | Log _ => "Log"
  | Error _ => "Error"
  | Filter _ => "Filter"
  | GroupBy _ => "GroupBy"
  | Delay _ => "Delay"
  | WaitForSignal _ => "WaitForSignal"
  | AiAgent _ => "AiAgent"
  end.

Definition is_finish (step : Step) : bool := match step with Finish _ => true | _ => false end.
Definition is_conditional (step : Step) : bool :=
  match step with Conditional _ => true | _ => false end.

(** ** Phase 1: structure *)

Definition unreachable_steps (graph : ExecutionGraph) : ValidationResult :=
  let reachable := compute_reachable_steps graph in
  for_entries (steps graph) (λ step_id step,
    when (bool_decide (step_id ∉ reachable))
      (push_error
        (if is_finish step
         then UnreachableFinish step_id (entry_point graph) (length (execution_plan graph))
         else UnreachableStep step_id))).

Definition dangling_steps (graph : ExecutionGraph) : ValidationResult :=
  let steps_with_outgoing : gset string := list_to_set (from_step <$> execution_plan graph) in
  for_entries (steps graph) (λ step_id step,
    when (negb (is_finish step) && bool_decide (step_id ∉ steps_with_outgoing))
      (push_warning (DanglingStep step_id (get_step_type_name step)))).

Fixpoint validate_graph_structure (graph : ExecutionGraph) : ValidationResult :=
  if decide (steps graph = ∅) then push_error EmptyWorkflow
  else if decide (is_Some (steps graph !! entry_point graph)) then
    unreachable_steps graph ⊕ dangling_steps graph ⊕
    for_entries (steps graph) (λ _ step,
      match step with
      | Split s => validate_graph_structure (split_subgraph s)
      | While s => validate_graph_structure (while_subgraph s)
      | _ => no_issues
      end)
  else push_error (EntryPointNotFound (entry_point graph) (keys (steps graph))).

(** ** Phase 1.1: edge endpoints *)

Definition edge_endpoints (graph : ExecutionGraph) : ValidationResult :=
  let available := sorted (keys (steps graph)) in
  for_each (execution_plan graph) (λ e,
    let unknown endpoint missing :=
      when (bool_decide (steps graph !! missing = None))
        (push_error (EdgeReferencesUnknownStep (from_step e) (to_step e) endpoint missing
                       (label e) available)) in
    unknown "fromStep" (from_step e) ⊕ unknown "toStep" (to_step e)).

Fixpoint validate_edge_endpoints (graph : ExecutionGraph) : ValidationResult :=
  edge_endpoints graph ⊕
  for_entries (steps graph) (λ _ step,
    match step with
    | Split s => validate_edge_endpoints (split_subgraph s)
    | While s => validate_edge_endpoints (while_subgraph s)
    | _ => no_issues
    end).

(** ** Phase 1.2: a normal and an [onError] edge to the same target *)

(** The labels of the edges of each pair of steps; the source keeps the pairs in
    a [BTreeMap]. *)
Definition edge_pairs (graph : ExecutionGraph) : gmap (string * string) (list string) :=
  foldl (λ pairs e,
    if bool_decide (steps graph !! from_step e = None)
       || bool_decide (steps graph !! to_step e = None) then pairs
    else
      let l := match label e with
               | None => "next"
               | Some l => if bool_decide (l = "") then "next" else l
               end in
      let pair := (from_step e, to_step e) in
      <[pair := default [] (pairs !! pair) ++ [l]]> pairs) ∅ (execution_plan graph).

Definition duplicate_target_edges (graph : ExecutionGraph) : ValidationResult :=
  for_each (map_to_list (edge_pairs graph)) (λ '((from, to), labels),
    when (bool_decide ("next" ∈ labels) && bool_decide ("onError" ∈ labels))
      (push_warning (DuplicateEdgeToTarget from to (dedup (sorted labels))))).

Fixpoint validate_duplicate_target_edges (graph : ExecutionGraph) : ValidationResult :=
  duplicate_target_edges graph ⊕
  for_entries (steps graph) (λ _ step,
    match step with
    | Split s => validate_duplicate_target_edges (split_subgraph s)
    | While s => validate_duplicate_target_edges (while_subgraph s)
    | _ => no_issues
    end).

(** ** Phase 1.5: finish outputs *)

Definition finish_output_source_is_missing (value : MappingValue) : bool :=
  match value with
  | Reference r => is_empty_str (trim (ref_value r))
  | Template t => is_empty_str (trim t)
  | Immediate v => match as_str v with Some s => is_empty_str (trim s) | None => false end
  | CompositeObject _ | CompositeArray _ => false
  end.

Definition validate_finish_outputs (graph : ExecutionGraph) : ValidationResult :=
  for_entries (steps graph) (λ step_id step,
    match step with
    | Finish s =>
        match finish_input_mapping s with
        | Some mapping =>
            for_entries mapping (λ output_name value,
              when (is_empty_str (trim output_name)) (push_error (FinishOutputMissingName step_id))
              ⊕ when (finish_output_source_is_missing value)
                  (push_error (FinishOutputMissingSource step_id output_name)))
        | None => no_issues
        end
    | _ => no_issues
    end).

(** ** Phase 2.5: execution order *)

Definition collect_step_mappings (step : Step) : list InputMapping :=
  match step with
  | Agent s => option_list (agent_input_mapping s)
  | Finish s => option_list (finish_input_mapping s)
  | EmbedWorkflow s => option_list (embed_input_mapping s)
  | Log s => option_list (log_context s)
  | Split s => option_list (split_config s ≫= split_variables)
  | While s => option_list (while_config s ≫= while_variables)
  | Error s => option_list (error_context s)
  | Filter _ | GroupBy _ | Conditional _ | Switch _ | Delay _ | WaitForSignal _ | AiAgent _ => []
  end.

Fixpoint extract_step_ids_from_mapping_value (value : MappingValue) : list string :=
  match value with
  | Reference r => option_list (extract_step_id_from_reference (ref_value r))
  | Immediate _ | Template _ => []
  | CompositeObject m =>
      map_fold (λ _ nested rest, extract_step_ids_from_mapping_value nested ++ rest) [] m
  | CompositeArray l => flat_map extract_step_ids_from_mapping_value l
  end.

Definition step_execution_order (graph : ExecutionGraph) : ValidationResult :=
  let adjacency := build_adjacency graph in
  for_entries (steps graph) (λ step_id step,
    for_each (collect_step_mappings step) (λ mapping,
      for_each (values mapping) (λ value,
        for_each (extract_step_ids_from_mapping_value value) (λ referenced,
          when (bool_decide (referenced ≠ step_id)
                && bool_decide (is_Some (steps graph !! referenced))
                && negb (has_path adjacency referenced step_id))
            (push_error (StepNotYetExecuted step_id referenced)))))).

Fixpoint validate_execution_order (graph : ExecutionGraph) : ValidationResult :=
  step_execution_order graph ⊕
  for_entries (steps graph) (λ _ step,
    match step with
    | Split s => validate_execution_order (split_subgraph s)
    | While s => validate_execution_order (while_subgraph s)
    | _ => no_issues
    end).

(** ** Phase 4: configuration *)

Definition MAX_RETRY_RECOMMENDED : Z := 50.
Definition MAX_RETRY_DELAY_MS : Z := 3600000.
Definition MAX_ITERATIONS_RECOMMENDED : Z := 10000.
Definition MAX_TIMEOUT_MS : Z := 3600000.

(** A configured value over its recommended maximum. *)
Definition over (value : option Z) (limit : Z) (w : Z → ValidationWarning) : ValidationResult :=
  match value with
  | Some v => when (limit <? v) (push_warning (w v))
  | None => no_issues
  end.

Definition high_retry_count (step_id : string) (v : option Z) : ValidationResult :=
  over v MAX_RETRY_RECOMMENDED (λ n, HighRetryCount step_id n MAX_RETRY_RECOMMENDED).
Definition long_retry_delay (step_id : string) (v : option Z) : ValidationResult :=
  over v MAX_RETRY_DELAY_MS (λ n, LongRetryDelay step_id n MAX_RETRY_DELAY_MS).
Definition long_timeout (step_id : string) (v : option Z) : ValidationResult :=
  over v MAX_TIMEOUT_MS (λ n, LongTimeout step_id n MAX_TIMEOUT_MS).

Fixpoint validate_configuration (graph : ExecutionGraph) : ValidationResult :=
  for_entries (steps graph) (λ step_id step,
    match step with
    | AiAgent s =>
        match ai_config s with
        | Some c => high_retry_count step_id (ai_max_retries c)
                    ⊕ long_retry_delay step_id (ai_retry_delay c)
        | None => no_issues
        end
    | Agent s =>
        high_retry_count step_id (agent_max_retries s)
        ⊕ long_retry_delay step_id (agent_retry_delay s)
        ⊕ long_timeout step_id (agent_timeout s)
    | Split s =>
        match split_config s with
        | Some c =>
            match parallelism c with
            | Some p => when (negb (p =? 1)) (push_warning (SplitParallelismIgnored step_id p))
            | None => no_issues
            end
            ⊕ high_retry_count step_id (split_max_retries c)
            ⊕ long_timeout step_id (split_timeout c)
        | None => no_issues
        end ⊕ validate_configuration (split_subgraph s)
    | While s =>
        match while_config s with
        | Some c =>
            over (while_max_iterations c) MAX_ITERATIONS_RECOMMENDED
              (λ n, HighMaxIterations step_id n MAX_ITERATIONS_RECOMMENDED)
            ⊕ long_timeout step_id (while_timeout c)
        | None => no_issues
        end ⊕ validate_configuration (while_subgraph s)
    | EmbedWorkflow s =>
        high_retry_count step_id (embed_max_retries s)
        ⊕ long_retry_delay step_id (embed_retry_delay s)
        ⊕ long_timeout step_id (embed_timeout s)
    | _ => no_issues
    end).

(** ** Phase 5: child versions *)

Definition child_version_check `{UnicodeData} (step_id : string) (s : EmbedWorkflowStep) :
  ValidationResult :=
  match child_version s with
  | Latest v =>
      when (bool_decide (to_lowercase v ≠ "latest") && bool_decide (to_lowercase v ≠ "current"))
        (push_error (InvalidChildVersion step_id (child_workflow_id s) v
                       "must be 'latest', 'current', or a version number"))
  | Specific n =>
      when (n <? 1)
        (push_error (InvalidChildVersion step_id (child_workflow_id s) (show_Z n)
                       "version number must be positive"))
  end.

Fixpoint validate_child_workflows `{UnicodeData} (graph : ExecutionGraph) : ValidationResult :=
  for_entries (steps graph) (λ step_id step,
    match step with
    | EmbedWorkflow s => child_version_check step_id s
    | _ => no_issues
    end) ⊕
  for_entries (steps graph) (λ _ step,
    match step with
    | Split s => validate_child_workflows (split_subgraph s)
    | While s => validate_child_workflows (while_subgraph s)
    | _ => no_issues
    end).

(** ** Phase 8: step names *)

Definition step_name (step : Step) : option string :=
  match step with
  | Agent s => agent_name s
  | Finish s => finish_name s
  | Conditional s => conditional_name s
  | Split s => split_name s
  | Switch s => switch_name s
  | EmbedWorkflow s => embed_name s
  | While s => while_name s
  | Log s => log_name s
  | Error s => error_name s
  | Filter s => filter_name s
  | GroupBy s => group_name s
  | Delay s => delay_name s
  | WaitForSignal s => wait_name s
  | AiAgent s => ai_name s
  end.

Definition add_name (step_id : string) (name : option string)
  (name_to_step_ids : gmap string (list string)) : gmap string (list string) :=
  match name with
  | Some name => <[name := default [] (name_to_step_ids !! name) ++ [step_id]]> name_to_step_ids
  | None => name_to_step_ids
  end.

Fixpoint collect_step_names (graph : ExecutionGraph)
  (name_to_step_ids : gmap string (list string)) : gmap string (list string) :=
  map_fold (λ step_id step acc,
    let acc := add_name step_id (step_name step) acc in
    match step with
    | Split s => collect_step_names (split_subgraph s) acc
    | While s => collect_step_names (while_subgraph s) acc
    | _ => acc
    end) name_to_step_ids (steps graph).

Definition validate_step_names (graph : ExecutionGraph) : ValidationResult :=
  for_entries (collect_step_names graph ∅) (λ name step_ids,
    when (1 <? length step_ids)%nat (push_error (DuplicateStepName name step_ids))).

(** ** Phases 9 and 9.5: what the runtime does not enforce *)

Fixpoint validate_compensation (graph : ExecutionGraph) : ValidationResult :=
  for_entries (steps graph) (λ step_id step,
    match step with
    | Agent s => when (bool_decide (is_Some (compensation s)))
                   (push_warning (CompensationNotEnforced step_id))
    | Split s => validate_compensation (split_subgraph s)
    | While s => validate_compensation (while_subgraph s)
    | WaitForSignal s => match on_wait s with Some g => validate_compensation g | None => no_issues end
    | _ => no_issues
    end).

Fixpoint validate_unenforced_timeouts (graph : ExecutionGraph) : ValidationResult :=
  for_entries (steps graph) (λ step_id step,
    match step with
    | Agent s => when (bool_decide (is_Some (agent_timeout s)))
                   (push_warning (TimeoutNotEnforced step_id "Agent"))
    | EmbedWorkflow s => when (bool_decide (is_Some (embed_timeout s)))
                           (push_warning (TimeoutNotEnforced step_id "EmbedWorkflow"))
    | Split s => validate_unenforced_timeouts (split_subgraph s)
    | While s => validate_unenforced_timeouts (while_subgraph s)
    | WaitForSignal s =>
        match on_wait s with Some g => validate_unenforced_timeouts g | None => no_issues end
    | _ => no_issues
    end).

(** ** Phase 10: edge conditions *)

Definition conditional_edge_reason (e : ExecutionPlanEdge) : option string :=
  if negb (bool_decide (label e = Some "true") || bool_decide (label e = Some "false")) then
    Some ("Conditional steps route only through edges labeled 'true' or 'false'; "
          +:+ "put the predicate in the step.condition, not in edge.condition.")
  else if bool_decide (is_Some (condition e)) then
    Some ("Conditional true/false branch edges must not define edge.condition; "
          +:+ "the step.condition chooses the branch.")
  else if bool_decide (is_Some (priority e)) then
    Some ("Conditional true/false branch edges must not define priority; "
          +:+ "branch labels are mutually exclusive.")
  else None.

Definition validate_conditional_branch_edges (graph : ExecutionGraph) : ValidationResult :=
  for_each (execution_plan graph) (λ e,
    match steps graph !! from_step e with
    | Some (Conditional _) =>
        match conditional_edge_reason e with
        | Some reason => push_error (InvalidConditionalEdge (from_step e) (to_step e) (label e) reason)
        | None => no_issues
        end
    | _ => no_issues
    end).

(** The key of an edge's group: ["next"] is no label. *)
Definition edge_group_key (e : ExecutionPlanEdge) : string * option string :=
  (from_step e, if decide (label e = Some "next") then None else label e).

Definition edges_by_from_label (graph : ExecutionGraph) :
  gmap (string * option string) (list ExecutionPlanEdge) :=
  foldl (λ groups e,
    <[edge_group_key e := default [] (groups !! edge_group_key e) ++ [e]]> groups)
    ∅ (execution_plan graph).

Definition has_condition (e : ExecutionPlanEdge) : bool := bool_decide (is_Some (condition e)).

Definition duplicate_priorities (from : string) (lbl : option string)
  (conditional_edges : list ExecutionPlanEdge) : ValidationResult :=
  let priorities_to_targets : gmap Z (list string) :=
    foldl (λ m e,
      let p := default 0 (priority e) in <[p := default [] (m !! p) ++ [to_step e]]> m)
      ∅ conditional_edges in
  for_each (map_to_list priorities_to_targets) (λ '(p, targets),
    when (1 <? length targets)%nat (push_error (DuplicateEdgePriority from lbl p targets))).

(** The checks of a group of two edges or more. *)
Definition edge_group (graph : ExecutionGraph) (from : string) (lbl : option string)
  (edges : list ExecutionPlanEdge) : ValidationResult :=
  match steps graph !! from with
  | Some (Conditional _) =>
      when (bool_decide (lbl = Some "true") || bool_decide (lbl = Some "false"))
        (push_error (MultipleDefaultEdges from lbl (to_step <$> edges)))
  | _ =>
      let conditional_edges := filter (λ e, has_condition e = true) edges in
      let default_edges := filter (λ e, has_condition e = false) edges in
      let targets := to_step <$> default_edges in
      when ((1 <? length default_edges)%nat
            && (bool_decide (is_Some lbl) || negb (bool_decide (conditional_edges = []))))
        (push_error (MultipleDefaultEdges from lbl targets))
      ⊕ when (bool_decide (lbl = None) && bool_decide (conditional_edges = [])
              && (1 <? length default_edges)%nat
              && negb (parallel_branches_reconverge graph targets))
          (push_error (ParallelFanoutNoMerge from targets))
      ⊕ when (1 <? length conditional_edges)%nat (duplicate_priorities from lbl conditional_edges)
  end.

Definition edge_groups (graph : ExecutionGraph) : ValidationResult :=
  for_each (map_to_list (edges_by_from_label graph)) (λ '((from, lbl), edges),
    when (1 <? length edges)%nat (edge_group graph from lbl edges)).

Fixpoint validate_edge_conditions_recursive (graph : ExecutionGraph) : ValidationResult :=
  validate_conditional_branch_edges graph ⊕ edge_groups graph ⊕
  for_entries (steps graph) (λ _ step,
    match step with
    | Split s => validate_edge_conditions_recursive (split_subgraph s)
    | While s => validate_edge_conditions_recursive (while_subgraph s)
    | _ => no_issues
    end).

(** ** Phase 10.5: operators only queries have *)

Definition query_only_operator_name (op : ConditionOperator) : option string :=
  match op with
  | OpSimilarityGte => Some "SIMILARITY_GTE"
  | OpMatch => Some "MATCH"
  | OpCosineDistanceLte => Some "COSINE_DISTANCE_LTE"
  | OpL2DistanceLte => Some "L2_DISTANCE_LTE"
  | _ => None
  end.

Fixpoint check_condition_expression_operators (step_id location : string)
  (expr : ConditionExpression) : ValidationResult :=
  match expr with
  | Operation op arguments =>
      match query_only_operator_name op with
      | Some operator => push_error (QueryOnlyConditionOperator step_id location operator)
      | None => no_issues
      end ⊕
      (fix arguments_check (l : list ConditionArgument) : ValidationResult :=
         match l with
         | [] => no_issues
         | ArgExpression nested :: l =>
             check_condition_expression_operators step_id location nested ⊕ arguments_check l
         | ArgValue _ :: l => arguments_check l
         end) arguments
  | Value _ => no_issues
  end.

Definition edge_condition_operators (graph : ExecutionGraph) : ValidationResult :=
  for_each (execution_plan graph) (λ e,
    match condition e with
    | Some c =>
        let location :=
          (if bool_decide (label e = Some "onError") then "the onError edge to '"
           else "the edge to '") +:+ to_step e +:+ "'" in
        check_condition_expression_operators (from_step e) location c
    | None => no_issues
    end).

Fixpoint validate_condition_operators (graph : ExecutionGraph) : ValidationResult :=
  for_entries (steps graph) (λ step_id step,
    match step with
    | Conditional s =>
        check_condition_expression_operators step_id "condition" (conditional_condition s)
    | Filter s => check_condition_expression_operators step_id "condition" (filter_condition s)
    | While s =>
        check_condition_expression_operators step_id "condition" (while_condition s)
        ⊕ validate_condition_operators (while_subgraph s)
    | Split s => validate_condition_operators (split_subgraph s)
    | WaitForSignal s =>
        match on_wait s with Some g => validate_condition_operators g | None => no_issues end
    | _ => no_issues
    end) ⊕ edge_condition_operators graph.

(** ** Phase 11: AI agents *)

Definition connection_id_is_missing (connection_id : option string) : bool :=
  match trim <$> connection_id with
  | None => true
  | Some s => bool_decide (s = "") || bool_decide (s = "__none__")
  end.

Section ai_agents.
Context `{UnicodeData}.

Definition is_reserved_label (l : string) : bool :=
  bool_decide (l = "memory") || starts_with l "mcp.".

(** The loop over the labelled edges of the step; [seen] are the labels so far. *)
Fixpoint ai_tool_labels (step_id : string) (seen : gset string) (plan : list ExecutionPlanEdge) :
  ValidationResult :=
  match plan with
  | [] => no_issues
  | e :: plan =>
      if decide (from_step e = step_id) then
        match label e with
        | Some l =>
            if decide (l = "next") then ai_tool_labels step_id seen plan
            else
              when (bool_decide (l ∈ seen)) (push_error (AiAgentDuplicateToolLabel step_id l))
              ⊕ when (negb (is_reserved_label l)
                      && negb (forallb (λ c, is_alphanumeric c || bool_decide (c = "_")) (chars l)))
                  (push_error (AiAgentInvalidToolLabel step_id l))
              ⊕ ai_tool_labels step_id ({[l]} ∪ seen) plan
        | None => ai_tool_labels step_id seen plan
        end
      else ai_tool_labels step_id seen plan
  end.

Definition is_agent_step (step : option Step) : bool :=
  match step with Some (Agent _) => true | _ => false end.

Definition ai_memory_edges (graph : ExecutionGraph) (step_id : string) (s : AiAgentStep) :
  ValidationResult :=
  let memory_edges := filter (λ e, from_step e = step_id ∧ label e = Some "memory")
                        (execution_plan graph) in
  let has_memory_config := bool_decide (is_Some (ai_config s ≫= memory)) in
  let has_memory_edge := bool_decide (memory_edges ≠ []) in
  when (1 <? length memory_edges)%nat (push_error (AiAgentMultipleMemoryEdges step_id))
  ⊕ for_each memory_edges (λ e,
      when (negb (is_agent_step (steps graph !! to_step e)))
        (push_error (AiAgentMemoryEdgeNotAgent step_id (to_step e))))
  ⊕ when (has_memory_config && negb has_memory_edge)
      (push_error (AiAgentMemoryConfigWithoutEdge step_id))
  ⊕ when (has_memory_edge && negb has_memory_config)
      (push_error (AiAgentMemoryEdgeWithoutConfig step_id)).

(** The loop over the [mcp.<toolset>] edges, given with their labels and suffixes. *)
Fixpoint ai_mcp_edges (graph : ExecutionGraph) (step_id : string) (seen : gset string)
  (edges : list (ExecutionPlanEdge * string * string)) : ValidationResult :=
  match edges with
  | [] => no_issues
  | (e, l, suffix) :: edges =>
      if is_empty_str suffix then
        push_error (AiAgentMcpEdgeEmptySuffix step_id l) ⊕ ai_mcp_edges graph step_id seen edges
      else
        when (bool_decide (suffix ∈ seen)) (push_error (AiAgentMcpEdgeDuplicateSuffix step_id suffix))
        ⊕ match steps graph !! to_step e with
          | Some (Agent a) =>
              when (bool_decide (agent_id a ≠ "mcp"))
                (push_error (AiAgentMcpEdgeWrongAgentId step_id (to_step e) l (agent_id a)))
          | _ => push_error (AiAgentMcpEdgeNotAgent step_id (to_step e) l)
          end
        ⊕ ai_mcp_edges graph step_id ({[suffix]} ∪ seen) edges
  end.

Definition mcp_edge (step_id : string) (e : ExecutionPlanEdge) :
  option (ExecutionPlanEdge * string * string) :=
  if decide (from_step e = step_id) then
    l ← label e; suffix ← strip_prefix "mcp." l; Some (e, l, suffix)
  else None.

Definition ai_wait_tools (graph : ExecutionGraph) (step_id : string) : ValidationResult :=
  for_each (execution_plan graph) (λ e,
    if decide (from_step e = step_id) then
      match label e with
      | Some l =>
          when (negb (bool_decide (l = "next") || bool_decide (l = "onError")
                      || bool_decide (l = "memory") || starts_with l "mcp."))
            match steps graph !! to_step e with
            | Some (WaitForSignal w) =>
                when (bool_decide (is_Some (on_wait w)))
                  (push_warning (OnWaitIgnoredForAiAgentTool step_id l (to_step e)))
            | _ => no_issues
            end
      | None => no_issues
      end
    else no_issues).

Definition ai_agent_step (graph : ExecutionGraph) (step_id : string) (s : AiAgentStep) :
  ValidationResult :=
  when (connection_id_is_missing (ai_connection_id s) && bool_decide (ai_connection_ref s = None))
    (push_error (AiAgentMissingConnection step_id))
  ⊕ ai_tool_labels step_id ∅ (execution_plan graph)
  ⊕ ai_memory_edges graph step_id s
  ⊕ ai_mcp_edges graph step_id ∅ (omap (mcp_edge step_id) (execution_plan graph))
  ⊕ ai_wait_tools graph step_id.

Fixpoint validate_ai_agent_steps (graph : ExecutionGraph) : ValidationResult :=
  for_entries (steps graph) (λ step_id step,
    match step with AiAgent s => ai_agent_step graph step_id s | _ => no_issues end) ⊕
  for_entries (steps graph) (λ _ step,
    match step with
    | Split s => validate_ai_agent_steps (split_subgraph s)
    | While s => validate_ai_agent_steps (while_subgraph s)
    | _ => no_issues
    end).

End ai_agents.
