(* ===== verification/ValidationText.v ===== *)
(** * runtara-workflows: the text of validation issues

    [validation.rs]: the [Display] implementations of the errors and the warnings.
    The validator itself only uses them for issues of a kind a template reference
    cannot have (see [template_error_reason] in ValidationRefs.v); the texts are what
    the server and the command line show. *)

From S2P Require Import Prelude.
From S2P Require Import Json.
From S2P Require Import Text.
From S2P Require Import Float64.
From S2P Require Import Dsl.
From S2P Require Import ValidationBase.
From Stdlib Require Import Floats.SpecFloat.

(** [format!("{:.1}", x)] of a finite number that is not negative: the exact value,
    rounded half to even at the first decimal. *)
Definition format_one_decimal (x : f64) : string :=
  match x with
  | S754_finite _ m e =>
      let tenths :=
        if 0 <=? e then Z.pos m * 2 ^ e * 10
        else
          let scale := 2 ^ (- e) in
          let q := (Z.pos m * 10) / scale in
          let r := (Z.pos m * 10) mod scale in
          if (scale <? 2 * r) || ((2 * r =? scale) && Z.odd q) then q + 1 else q in
      show_Z (tenths / 10) +:+ "." +:+ show_Z (tenths mod 10)
  | _ => "0.0"
  end.

Definition format_duration (ms : Z) : string :=
  let over d := format_one_decimal (SFdiv 53 1024 (f64_of_Z ms) (f64_of_Z d)) in
  if ms <? 1000 then show_Z ms +:+ "ms"
  else if ms <? 60000 then over 1000 +:+ "s"
  else if ms <? 3600000 then over 60000 +:+ "min"
  else over 3600000 +:+ "h".

Section display.
Context `{UnicodeData}.

Definition suggestion (target : string) (candidates : list string) : string :=
  match find_similar_name target candidates with
  | Some s => ". Did you mean '" +:+ s +:+ "'?"
  | None => ""
  end.

Definition or_none (l : list string) : string :=
  if bool_decide (l = []) then "(none)" else join ", " l.

Definition label_text (label : option string) : string :=
  match label with Some l => " (label '" +:+ l +:+ "')" | None => "" end.

Definition missing_line (field : MissingInputField) : string :=
  "         - " +:+ mf_name field +:+ " (" +:+ mf_field_type field +:+ ")"
  +:+ match mf_description field with Some desc => ": " +:+ desc | None => "" end +:+ newline.

(** The lines of a cycle of [n] workflows, from the [i]th. *)
Fixpoint cycle_lines (i n : nat) (cycle_path : list string) : string :=
  match cycle_path with
  | [] => ""
  | workflow :: cycle_path =>
      (if bool_decide (i = 0%nat) then fill "         {}" [workflow]
       else if bool_decide (i = n - 1)%nat then fill "       → {} ← cycle" [workflow]
       else fill "       → {}" [workflow]) +:+ newline +:+ cycle_lines (S i) n cycle_path
  end.

Definition display_error (error : ValidationError) : string :=
  match error with
  | EntryPointNotFound entry_point available_steps =>
      fill "[E001] Entry point '{}' not found in steps. Available steps: {}"
        [entry_point; or_none available_steps]
  | UnreachableStep step_id =>
      fill "[E002] Step '{}' is unreachable from the entry point"
        [step_id]
  | UnreachableFinish step_id entry_point defined_edges =>
      fill ("[E003] Finish step '{}' is defined but not reachable from entry point '{}'. "
       +:+ "Without an executionPlan edge ending at '{}', the workflow (or Split "
       +:+ "iteration) silently returns null. Add an edge ending at '{}' (the "
       +:+ "executionPlan currently has {} edge(s)), or remove the step.")
        [step_id; entry_point; step_id; step_id; show_Z (Z.of_nat defined_edges)]
  | EmptyWorkflow =>
      "[E004] Workflow has no steps defined"
  | FinishOutputMissingName step_id =>
      fill "[E117] Finish step '{}' has an output with no name"
        [step_id]
  | FinishOutputMissingSource step_id output_name =>
      fill "[E118] Finish step '{}' output '{}' is missing a source"
        [step_id; output_name]
  | InvalidStepReference step_id reference_path referenced_step_id available_steps =>
      fill "[E010] Step '{}' references '{}' but step '{}' does not exist{}"
        [step_id; reference_path; referenced_step_id;
         suggestion referenced_step_id available_steps]
  | InvalidReferencePath step_id reference_path reason =>
      fill "[E011] Step '{}' has invalid reference path '{}': {}"
        [step_id; reference_path; reason]
  | EdgeReferencesUnknownStep from_step to_step endpoint missing_step label available_steps =>
      fill ("[E014] Execution plan edge '{}' -> '{}'{} references {} '{}', which does "
       +:+ "not exist in steps{}")
        [from_step; to_step; label_text label; endpoint; missing_step;
         suggestion missing_step available_steps]
  | UnknownAgent step_id agent_id available_agents =>
      fill ("[E020] Step '{}' uses unknown agent '{}'{}"
       +:+ newline
       +:+ "       Available agents: {}")
        [step_id; agent_id; suggestion agent_id available_agents; join ", " available_agents]
  | UnknownCapability step_id agent_id capability_id available_capabilities =>
      fill ("[E021] Step '{}': agent '{}' has no capability '{}'{}"
       +:+ newline
       +:+ "       Available capabilities: {}")
        [step_id; agent_id; capability_id; suggestion capability_id available_capabilities;
         or_none available_capabilities]
  | MissingRequiredInput step_id agent_id capability_id input_name =>
      fill ("[E022] Step '{}': capability '{}:{}' requires input '{}' but it is not "
       +:+ "provided")
        [step_id; agent_id; capability_id; input_name]
  | AgentMissingConnection step_id agent_id capability_id =>
      fill ("[E026] Step '{}': capability '{}:{}' requires connection_id but no "
       +:+ "connectionId is configured")
        [step_id; agent_id; capability_id]
  | InvalidChildVersion step_id child_workflow_id version reason =>
      fill "[E050] Step '{}': child workflow '{}' has invalid version '{}': {}"
        [step_id; child_workflow_id; version; reason]
  | UndefinedDataReference step_id reference field_name available_fields =>
      fill ("[E051] Step '{}' references '{}' but field '{}' is not defined in "
       +:+ "inputSchema{}"
       +:+ newline
       +:+ "       Available fields: {}")
        [step_id; reference; field_name; suggestion field_name available_fields;
         or_none available_fields]
  | MissingInputSchema step_id reference =>
      fill ("[E052] Step '{}' references '{}' but no inputSchema is defined."
       +:+ newline
       +:+ "       Add an inputSchema to define expected input fields.")
        [step_id; reference]
  | UndefinedVariableReference step_id reference variable_name available_variables =>
      fill ("[E053] Step '{}' references '{}' but variable '{}' is not defined{}"
       +:+ newline
       +:+ "       Available variables: {}")
        [step_id; reference; variable_name; suggestion variable_name available_variables;
         or_none available_variables]
  | UndefinedReferenceField step_id reference known_prefix missing_field available_fields =>
      fill ("[E058] Step '{}' references '{}' but '{}' has no field '{}'{}"
       +:+ newline
       +:+ "       Available fields: {}")
        [step_id; reference; known_prefix; missing_field;
         suggestion missing_field available_fields; or_none available_fields]
  | ReferenceNonObjectTraversal step_id reference known_prefix actual_type attempted_field =>
      fill ("[E059] Step '{}' references '{}' but '{}' is '{}' and cannot be traversed "
       +:+ "to '{}'")
        [step_id; reference; known_prefix; actual_type; attempted_field]
  | UnknownReferenceRoot step_id reference root legal_roots =>
      fill ("[E126] Step '{}' references '{}' but '{}' is not a recognized reference "
       +:+ "root."
       +:+ newline
       +:+ "       Legal roots: {}")
        [step_id; reference; root; join ", " legal_roots]
  | ReferenceRootOutOfScope step_id reference root reason =>
      fill "[E127] Step '{}' references '{}' but the '{}' root is not available here: {}"
        [step_id; reference; root; reason]
  | ChildMissingInputSchema step_id child_workflow_id =>
      fill ("[E054] EmbedWorkflow step '{}' provides inputs to child '{}' but child has "
       +:+ "no inputSchema defined."
       +:+ newline
       +:+ "       Add inputSchema to the child workflow or remove inputMapping.")
        [step_id; child_workflow_id]
  | MissingChildWorkflow step_id child_workflow_id =>
      fill ("[E124] EmbedWorkflow step '{}' references child workflow '{}', which was "
       +:+ "not found."
       +:+ newline
       +:+ "       The workflow cannot compile until the child exists.")
        [step_id; child_workflow_id]
  | DuplicateEmbedStepId step_id =>
      fill ("[E125] Step id '{}' is used by more than one EmbedWorkflow step across this "
       +:+ "workflow and its embedded children."
       +:+ newline
       +:+ "       Embed step ids must be unique across the whole closure — rename one "
       +:+ "of the steps.")
        [step_id]
  | MissingChildRequiredInputs step_id child_workflow_id missing_fields provided_fields =>
      trim_end (fill "[E055] EmbedWorkflow step '{}' is missing required inputs for child workflow '{}':"
        [step_id; child_workflow_id] +:+ newline
        +:+ "       Missing fields:" +:+ newline
        +:+ concat_str (missing_line <$> missing_fields)
        +:+ (if bool_decide (provided_fields = []) then ""
             else "       Provided fields:" +:+ newline
                  +:+ concat_str ((λ field, fill "         - {} ✓" [field] +:+ newline)
                                  <$> provided_fields)))
  | CircularDependency cycle_path =>
      "[E056] Circular dependency detected in workflow graph:" +:+ newline
      +:+ cycle_lines 0 (length cycle_path) cycle_path +:+ newline
      +:+ "       Remove the EmbedWorkflow step that creates this cycle."
  | StepNotYetExecuted step_id referenced_step_id =>
      fill ("[E012] Step '{}' references step '{}' which has not executed yet. Steps can "
       +:+ "only reference outputs from steps that execute before them.")
        [step_id; referenced_step_id]
  | UnknownVariable step_id variable_name available_variables =>
      fill ("[E013] Step '{}' references unknown variable '{}'{}"
       +:+ newline
       +:+ "       Available variables: {}")
        [step_id; variable_name; suggestion variable_name available_variables;
         or_none available_variables]
  | TypeMismatch step_id field_name expected_type actual_type =>
      fill "[E023] Step '{}': field '{}' expects type '{}' but got '{}'"
        [step_id; field_name; expected_type; actual_type]
  | InvalidEnumValue step_id field_name value allowed_values =>
      fill "[E024] Step '{}': field '{}' has invalid value '{}'. Allowed values: {}"
        [step_id; field_name; value; join ", " allowed_values]
  | InvalidConditionShape step_id field_name path message =>
      fill "[E025] Step '{}': condition input '{}' has invalid shape at {}: {}"
        [step_id; field_name; path; message]
  | QueryOnlyConditionOperator step_id location operator =>
      fill ("[E027] Step '{}': operator '{}' in {} is only valid inside object-model "
       +:+ "query conditions; the workflow runtime cannot evaluate it")
        [step_id; operator; location]
  | DuplicateStepName name step_ids =>
      fill "[E060] Multiple steps have the same name '{}': {}"
        [name; join ", " step_ids]
  | DuplicateEdgePriority from_step label priority duplicate_targets =>
      fill ("[E070] Step '{}' has multiple '{}' edges with the same priority {}. "
       +:+ "Conditional edges must have unique priorities. Targets: {}")
        [from_step; default "(default)" label; show_Z priority; join ", " duplicate_targets]
  | MultipleDefaultEdges from_step label targets =>
      fill ("[E071] Step '{}' has multiple '{}' edges without conditions. At most one "
       +:+ "default (condition-less) edge is allowed. Targets: {}")
        [from_step; default "(default)" label; join ", " targets]
  | ParallelFanoutNoMerge from_step targets =>
      fill ("[E073] Step '{}' fans out to parallel branches that never re-converge: {}. "
       +:+ "Unconditional parallel branches all execute, so non-merging branches "
       +:+ "produce more than one independent exit (an ambiguous result). Re-join the "
       +:+ "branches at a single merge step, or make the edges conditional so exactly "
       +:+ "one runs.")
        [from_step; join ", " targets]
  | InvalidConditionalEdge from_step to_step label reason =>
      fill "[E072] Conditional step '{}' has invalid edge to '{}' with label '{}': {}"
        [from_step; to_step; default "(default)" label; reason]
  | AiAgentDuplicateToolLabel step_id label =>
      fill "[E110] AI Agent step '{}' has duplicate tool edge label '{}'"
        [step_id; label]
  | AiAgentInvalidToolLabel step_id label =>
      fill ("[E111] AI Agent step '{}' has invalid tool edge label '{}'. Labels must "
       +:+ "contain only alphanumeric characters and underscores.")
        [step_id; label]
  | AiAgentMissingConnection step_id =>
      fill ("[E112] AI Agent step '{}' is missing connection_id. An LLM connection is "
       +:+ "required for AI Agent steps.")
        [step_id]
  | AiAgentMultipleMemoryEdges step_id =>
      fill ("[E113] AI Agent step '{}' has multiple 'memory' edges. At most one memory "
       +:+ "provider is allowed.")
        [step_id]
  | AiAgentMemoryEdgeNotAgent step_id target_step_id =>
      fill ("[E114] AI Agent step '{}' has a 'memory' edge pointing to '{}', which is "
       +:+ "not an Agent step. Memory providers must be Agent steps.")
        [step_id; target_step_id]
  | AiAgentMemoryConfigWithoutEdge step_id =>
      fill ("[E115] AI Agent step '{}' has memory config but no 'memory' edge. Add a "
       +:+ "'memory' labeled edge to a memory provider Agent step.")
        [step_id]
  | AiAgentMemoryEdgeWithoutConfig step_id =>
      fill ("[E116] AI Agent step '{}' has a 'memory' edge but no memory config. Add a "
       +:+ "memory configuration with at least a conversation_id.")
        [step_id]
  | AiAgentMcpEdgeNotAgent step_id target_step_id label =>
      fill ("[E120] AI Agent step '{}' has an '{}' edge pointing to '{}', which is not "
       +:+ "an Agent step. MCP toolsets must be Agent steps (with agent_id = 'mcp').")
        [step_id; label; target_step_id]
  | AiAgentMcpEdgeWrongAgentId step_id target_step_id label actual_agent_id =>
      fill ("[E121] AI Agent step '{}' has an '{}' edge pointing to Agent step '{}', "
       +:+ "which uses agent_id = '{}'. MCP toolsets must target the 'mcp' agent.")
        [step_id; label; target_step_id; actual_agent_id]
  | AiAgentMcpEdgeEmptySuffix step_id label =>
      fill ("[E122] AI Agent step '{}' has an MCP edge with empty toolset suffix ('{}'). "
       +:+ "Use a non-empty name like 'mcp.linear' or 'mcp.slack'.")
        [step_id; label]
  | AiAgentMcpEdgeDuplicateSuffix step_id toolset =>
      fill ("[E123] AI Agent step '{}' has multiple MCP edges with the same toolset "
       +:+ "suffix '{}'. Each mcp.<toolset> name must be unique within one AI Agent step.")
        [step_id; toolset]
  end.

Definition display_warning (warning : ValidationWarning) : string :=
  match warning with
  | UnknownInputField step_id agent_id capability_id field_name available_fields =>
      fill ("[W020] Step '{}': input '{}' is not a known field for '{}:{}'{}"
       +:+ newline
       +:+ "       Available fields: {}")
        [step_id; field_name; agent_id; capability_id; suggestion field_name available_fields;
         or_none available_fields]
  | HighRetryCount step_id max_retries recommended_max =>
      fill ("[W030] Step '{}' has max_retries={}. Consider reducing to {} or less to "
       +:+ "avoid long execution times.")
        [step_id; show_Z max_retries; show_Z recommended_max]
  | LongRetryDelay step_id retry_delay_ms recommended_max_ms =>
      fill ("[W031] Step '{}' has retry_delay={}ms ({}). Consider reducing to {}ms or "
       +:+ "less.")
        [step_id; show_Z retry_delay_ms; format_duration retry_delay_ms;
         show_Z recommended_max_ms]
  | SplitParallelismIgnored step_id parallelism =>
      fill ("[W073] Split step '{}' sets parallelism={} — concurrent windows apply only "
       +:+ "to non-durable-compatible single-Agent bodies (no breakpoints, no split "
       +:+ "retries/timeout, not a workflow-agent child); other shapes run "
       +:+ "sequentially. See docs/wasip3-parallelism.md.")
        [step_id; show_Z parallelism]
  | HighMaxIterations step_id max_iterations recommended_max =>
      fill ("[W033] While step '{}' has max_iterations={}. This may indicate an infinite "
       +:+ "loop risk. Consider {} or less.")
        [step_id; show_Z max_iterations; show_Z recommended_max]
  | LongTimeout step_id timeout_ms recommended_max_ms =>
      fill ("[W034] Step '{}' has timeout={}ms ({}). Consider {} or less, or breaking "
       +:+ "into smaller steps.")
        [step_id; show_Z timeout_ms; format_duration timeout_ms;
         format_duration recommended_max_ms]
  | SelfReference step_id reference_path =>
      fill ("[W050] Step '{}' references its own outputs via '{}'. This may cause issues "
       +:+ "unless in a loop.")
        [step_id; reference_path]
  | DanglingStep step_id step_type =>
      fill ("[W003] Step '{}' ({}) has no outgoing edges but is not a Finish step. The "
       +:+ "workflow will terminate here without explicit output.")
        [step_id; step_type]
  | DuplicateEdgeToTarget from_step to_step labels =>
      fill ("[W040] Step '{}' has two edges to '{}' differing only in label ({}). The "
       +:+ "duplicate is redundant — keep one and remove the other.")
        [from_step; to_step; join ", " labels]
  | CompensationNotEnforced step_id =>
      fill ("[W070] Step '{}': 'compensation' is accepted but not enforced — no rollback "
       +:+ "will execute on failure. Model rollback explicitly with onError routing.")
        [step_id]
  | TimeoutNotEnforced step_id step_type =>
      fill ("[W071] Step '{}': 'timeout' is accepted but not enforced by preemption for "
       +:+ "{} steps — a running invoke/child cannot be interrupted, so the step will "
       +:+ "not fail purely because the duration is exceeded. (Agent capabilities that "
       +:+ "accept a `timeout_ms` input, e.g. the http agent, DO bound their outbound "
       +:+ "HTTP call via it.) AiAgent turnTimeout, Split, While, and WaitForSignal "
       +:+ "timeouts are enforced.")
        [step_id; step_type]
  | OnWaitIgnoredForAiAgentTool step_id tool_label wait_step_id =>
      fill ("[W072] Step '{}': tool '{}' targets WaitForSignal '{}' whose onWait "
       +:+ "subgraph is ignored for AiAgent tool waits — it will never run. Move that "
       +:+ "logic before the AiAgent step or into a tool the model can call.")
        [step_id; tool_label; wait_step_id]
  | PartiallyUnverifiedReference step_id reference known_prefix unverified_suffix =>
      fill ("[W051] Step '{}' references '{}'. The path is valid through '{}', but '{}' "
       +:+ "is inside a dynamic object and cannot be validated statically.")
        [step_id; reference; known_prefix; unverified_suffix]
  | TemplateReferenceIssue step_id reference reason =>
      fill ("[W052] Step '{}' template references '{}': {}. This is a warning because "
       +:+ "Minijinja resolves missing values at runtime.")
        [step_id; reference; reason]
  | BareErrorReference step_id reference_path suggested_path =>
      fill ("[W053] Step '{}' references the onError error context via '{}'. Use the "
       +:+ "canonical '{}' instead; the bare root still resolves for back-compat but is "
       +:+ "not typo-checked.")
        [step_id; reference_path; suggested_path]
  | UnverifiedDataReference step_id reference =>
      fill ("[W080] Step '{}': reference '{}' cannot be checked — no schema is declared "
       +:+ "for `data` in this scope. Declare inputSchema on the enclosing Split step (or "
       +:+ "the workflow) to catch typos; an unknown field silently resolves to null at "
       +:+ "runtime.")
        [step_id; reference]
  end.

End display.
