(* ===== verification/ValidationRefs.v ===== *)
(** * runtara-workflows: validation of references

    [validation.rs]: references to steps and variables (phase 2), the static
    references of templates (2.6) and references to data and variables (7.5);
    [runtara-dsl/src/step_output_shape.rs]: what a step type writes under
    [steps.<id>].  The template engine is minijinja (the class of GuestExpr.v, with
    the static analysis the validator asks it for). *)

From S2P Require Import Prelude.
From S2P Require Import Json.
From S2P Require Import Text.
From S2P Require Import GuestExpr.
From S2P Require Import Dsl.
From S2P Require Import ValidationBase.
From S2P Require Import ValidationGraph.
From S2P Require Import ValidationText.

(** ** Output shapes *)

(** A field with its type and the configuration key that gates it; the
    description is authoring text. *)
Record ShapeField := { sf_name : string; sf_ty : string; sf_gated_by : option string }.

Inductive OutputsShape :=
| ShapeArray
| ShapeObject (fields : list ShapeField)
| ShapeDynamic.

Record StepOutputShape := { shape_outputs : OutputsShape; shape_siblings : list ShapeField }.

Definition field (name ty : string) : ShapeField :=
  {| sf_name := name; sf_ty := ty; sf_gated_by := None |}.
Definition gated_field (name ty gate : string) : ShapeField :=
  {| sf_name := name; sf_ty := ty; sf_gated_by := Some gate |}.

Definition SPLIT_SIBLINGS : list ShapeField :=
  [gated_field "data" "object" "dontStopOnFailed"; gated_field "stats" "object" "dontStopOnFailed";
   gated_field "hasFailures" "boolean" "dontStopOnFailed"].
Definition FILTER_FIELDS : list ShapeField := [field "items" "array"; field "count" "integer"].
Definition WHILE_FIELDS : list ShapeField := [field "iterations" "integer"; field "outputs" "dynamic"].
Definition CONDITIONAL_FIELDS : list ShapeField := [field "result" "boolean"].
Definition SWITCH_SIBLINGS : list ShapeField := [field "route" "string"].
Definition GROUP_BY_FIELDS : list ShapeField :=
  [field "groups" "object"; field "counts" "object"; field "total_groups" "integer"].

Definition step_output_shape (step_type : string) : option StepOutputShape :=
  let shape outputs siblings := Some {| shape_outputs := outputs; shape_siblings := siblings |} in
  if decide (step_type = "Split") then shape ShapeArray SPLIT_SIBLINGS
  else if decide (step_type = "Filter") then shape (ShapeObject FILTER_FIELDS) []
  else if decide (step_type = "While") then shape (ShapeObject WHILE_FIELDS) []
  else if decide (step_type = "Conditional") then shape (ShapeObject CONDITIONAL_FIELDS) []
  else if decide (step_type = "Switch") then shape ShapeDynamic SWITCH_SIBLINGS
  else if decide (step_type = "GroupBy") then shape (ShapeObject GROUP_BY_FIELDS) []
  else if decide (step_type ∈ ["Agent"; "AiAgent"; "EmbedWorkflow"; "WaitForSignal"; "Finish";
                               "Log"; "Delay"; "Error"]) then shape ShapeDynamic []
  else None.

(** ** Phase 2: steps and variables *)

Definition SPLIT_SCOPE_VARIABLES : list string := ["_index"; "_item"; "_loop_indices"].
Definition WHILE_SCOPE_VARIABLES : list string :=
  ["_index"; "_previousOutputs"; "_loop"; "_loop_indices"].
Definition WAIT_ON_WAIT_SCOPE_VARIABLES : list string := ["_signal_id"].
Definition RESERVED_IMPLICIT_STEP_IDS : list string := ["__error"].

(** The variables of a graph: its own, the inherited ones and the built-in ones. *)
Definition scope_variables (graph : ExecutionGraph) (inherited : gset string) : gset string :=
  {["_workflow_id"; "_instance_id"; "_tenant_id"]} ∪ inherited ∪ key_set (variables graph).

(** The variables injected into the subgraph of a Split and of a While, where the
    enclosing scope has the variables [scope]. *)
Definition split_injected (scope : gset string) (config : option SplitConfig) : gset string :=
  let declared := default ∅ (key_set <$> (config ≫= split_variables)) in
  (declared ∖ {["_loop"]}) ∪ list_to_set SPLIT_SCOPE_VARIABLES
  ∪ (if decide ("_loop" ∈ scope) then {["_loop"]} else ∅).

Definition while_injected (scope : gset string) (config : option WhileConfig) : gset string :=
  let declared := default ∅ (key_set <$> (config ≫= while_variables)) in
  (declared ∖ {["_item"]}) ∪ list_to_set WHILE_SCOPE_VARIABLES
  ∪ (if decide ("_item" ∈ scope) then {["_item"]} else ∅).

Definition has_field (name : string) (fields : list ShapeField) : bool :=
  existsb (λ f, bool_decide (sf_name f = name)) fields.

Definition validate_step_output_reference (step_id ref_path referenced_step_id
  referenced_step_type : string) : ValidationResult :=
  if contains ref_path "[" then no_issues
  else
    match step_output_shape referenced_step_type, split_char "."%char ref_path with
    | Some shape, s0 :: s1 :: top_field :: rest =>
        if negb (bool_decide (s0 = "steps") && bool_decide (s1 = referenced_step_id)) then no_issues
        else if has_field top_field (shape_siblings shape) || bool_decide (top_field ≠ "outputs")
        then no_issues
        else
          match rest with
          | [] => no_issues
          | after :: _ =>
              let known_prefix := "steps." +:+ referenced_step_id +:+ ".outputs" in
              match shape_outputs shape with
              | ShapeArray =>
                  when (bool_decide (parse_i64 after = None))
                    (push_error (ReferenceNonObjectTraversal step_id ref_path known_prefix
                                   "array" after))
              | ShapeObject fields =>
                  when (negb (has_field after fields))
                    (push_error (UndefinedReferenceField step_id ref_path known_prefix after
                                   (sf_name <$> fields)))
              | ShapeDynamic => no_issues
              end
          end
    | _, _ => no_issues
    end.

Definition step_reference (graph : ExecutionGraph) (step_id ref_path referenced : string) :
  ValidationResult :=
  when (bool_decide (referenced = step_id)) (push_warning (SelfReference step_id ref_path)) ⊕
  match steps graph !! referenced with
  | Some step =>
      validate_step_output_reference step_id ref_path referenced (get_step_type_name step)
  | None =>
      when (bool_decide (referenced ∉ RESERVED_IMPLICIT_STEP_IDS))
        (push_error (InvalidStepReference step_id ref_path referenced (keys (steps graph))))
  end.

(** The graph gives the valid step ids and their types. *)
Definition validate_reference (graph : ExecutionGraph) (valid_variable_names : gset string)
  (step_id ref_path : string) : ValidationResult :=
  if contains ref_path ".." then
    push_error (InvalidReferencePath step_id ref_path "empty path segment (consecutive dots)")
  else
    when (bool_decide (ref_path = "__error") || starts_with ref_path "__error.")
      (push_warning (BareErrorReference step_id ref_path ("steps." +:+ ref_path)))
    ⊕ match extract_step_id_from_reference ref_path with
      | Some referenced => step_reference graph step_id ref_path referenced
      | None => no_issues
      end
    ⊕ match extract_variable_name_from_reference ref_path with
      | Some name =>
          when (bool_decide (name ∉ valid_variable_names))
            (push_error (UnknownVariable step_id name (elements valid_variable_names)))
      | None => no_issues
      end.

Section references.
Context `{Minijinja}.

Definition validate_template_syntax (template_str : string) : option string :=
  match add_template env_new "__check" template_str with
  | Ok _ => None
  | Err e => Some ("Template syntax error: " +:+ mj_text e)
  end.

Fixpoint validate_mapping_value_references (graph : ExecutionGraph)
  (valid_variable_names : gset string) (step_id : string) (value : MappingValue) :
  ValidationResult :=
  match value with
  | Reference r => validate_reference graph valid_variable_names step_id (ref_value r)
  | Immediate _ => no_issues
  | CompositeObject m =>
      for_entries m (λ _ nested,
        validate_mapping_value_references graph valid_variable_names step_id nested)
  | CompositeArray l =>
      for_each l (validate_mapping_value_references graph valid_variable_names step_id)
  | Template t =>
      match validate_template_syntax t with
      | Some err => push_error (InvalidReferencePath step_id t err)
      | None => no_issues
      end
  end.

Definition connection_ref (step : Step) : option MappingValue :=
  match step with
  | Agent s => agent_connection_ref s
  | AiAgent s => ai_connection_ref s
  | _ => None
  end.

Definition step_references (graph : ExecutionGraph) (variable_names : gset string) :
  ValidationResult :=
  for_entries (steps graph) (λ step_id step,
    for_each (collect_step_mappings step) (λ mapping,
      for_each (values mapping) (validate_mapping_value_references graph variable_names step_id))
    ⊕ for_each (option_list (connection_ref step))
        (validate_mapping_value_references graph variable_names step_id)).

Fixpoint validate_references_with_inherited (graph : ExecutionGraph) (inherited : gset string) :
  ValidationResult :=
  let variable_names := scope_variables graph inherited in
  step_references graph variable_names ⊕
  for_entries (steps graph) (λ _ step,
    match step with
    | Split s => validate_references_with_inherited (split_subgraph s)
                   (split_injected variable_names (split_config s))
    | While s => validate_references_with_inherited (while_subgraph s)
                   (while_injected variable_names (while_config s))
    | _ => no_issues
    end).

Definition validate_references (graph : ExecutionGraph) : ValidationResult :=
  validate_references_with_inherited graph ∅.

End references.

(** * runtara-workflows: validation of data and variable references

    [validation.rs]: what [data] is in a scope, the walk of a path through a schema
    and through the value of a variable, the references of a step, references to
    data and variables (phase 7.5) and the static references of templates (2.6). *)

(** ** Scopes *)

Inductive DataScope :=
| RequireSchema
| Declared (schema : gmap string SchemaField)
| Unchecked.

Definition for_split_body (input_schema : gmap string SchemaField) : DataScope :=
  if decide (input_schema = ∅) then Unchecked else Declared input_schema.

Definition for_while_body (self : DataScope) (enclosing_graph : ExecutionGraph) : DataScope :=
  match self with
  | RequireSchema =>
      if decide (input_schema enclosing_graph = ∅) then Unchecked
      else Declared (input_schema enclosing_graph)
  | other => other
  end.

(** ** Paths through a schema *)

Definition schema_field_type_name (t : SchemaFieldType) : string :=
  match t with
  | FtString => "string"
  | FtInteger => "integer"
  | FtNumber => "number"
  | FtBoolean => "boolean"
  | FtArray => "array"
  | FtObject => "object"
  | FtFile => "file"
  | FtConnection => "connection"
  end.

Definition sorted_keys {A} (m : gmap string A) : list string := sorted (keys m).

(** A suffix that cannot be checked; nothing is said about an empty one. *)
Definition unverified (step_id reference known_prefix suffix : string) : ValidationResult :=
  when (negb (is_empty_str suffix))
    (push_warning (PartiallyUnverifiedReference step_id reference known_prefix suffix)).

(** The [while] loop of [validate_schema_reference_path]: the remaining segments
    after the field at [known_prefix]. *)
Fixpoint schema_path (step_id reference known_prefix : string) (current : SchemaField)
  (segments : list string) : ValidationResult :=
  match segments with
  | [] => no_issues
  | segment :: rest =>
      if decide (field_type current = FtArray) then
        match parse_u64 segment with
        | Some _ =>
            match items current with
            | Some item_schema =>
                schema_path step_id reference (known_prefix +:+ "[" +:+ segment +:+ "]")
                  item_schema rest
            | None => unverified step_id reference known_prefix (join "." rest)
            end
        | None =>
            push_error (ReferenceNonObjectTraversal step_id reference known_prefix "array" segment)
        end
      else if decide (field_type current ≠ FtObject) then
        push_error (ReferenceNonObjectTraversal step_id reference known_prefix
                      (schema_field_type_name (field_type current)) segment)
      else
        match properties current with
        | None => unverified step_id reference known_prefix (join "." (segment :: rest))
        | Some props =>
            match props !! segment with
            | None =>
                push_error (UndefinedReferenceField step_id reference known_prefix segment
                              (sorted_keys props))
            | Some next =>
                schema_path step_id reference (known_prefix +:+ "." +:+ segment) next rest
            end
        end
  end.

Definition validate_schema_reference_path (step_id reference : string)
  (root_segments : list string) (schema : gmap string SchemaField) : ValidationResult :=
  let segments := reference_segments reference in
  if negb (length root_segments <? length segments)%nat
     || negb (segments_start_with segments root_segments) then no_issues
  else
    match drop (length root_segments) segments with
    | [] => no_issues
    | first_field :: rest =>
        match schema !! first_field with
        | None =>
            push_error (UndefinedDataReference step_id reference first_field (sorted_keys schema))
        | Some current =>
            schema_path step_id reference (join "." root_segments +:+ "." +:+ first_field)
              current rest
        end
    end.

(** ** Paths through the value of a variable *)

Definition get_json_type_name (value : json) : string :=
  match value with
  | JNull => "null"
  | JBool _ => "boolean"
  | JNumber (PosInt _) | JNumber (NegInt _) => "integer"
  | JNumber (Float _) => "number"
  | JString _ => "string"
  | JArray _ => "array"
  | JObject _ => "object"
  end.

Fixpoint variable_path (step_id reference known_prefix : string) (current : json)
  (segments : list string) : ValidationResult :=
  match segments with
  | [] => no_issues
  | segment :: rest =>
      match current with
      | JObject m =>
          match assoc_get segment m with
          | None =>
              push_error (UndefinedReferenceField step_id reference known_prefix segment
                            (sorted m.*1))
          | Some next => variable_path step_id reference (known_prefix +:+ "." +:+ segment) next rest
          end
      | JArray l =>
          match parse_u64 segment with
          | None =>
              push_error (ReferenceNonObjectTraversal step_id reference known_prefix "array" segment)
          | Some index =>
              match l !! Z.to_nat index with
              | None =>
                  push_error (UndefinedReferenceField step_id reference known_prefix segment
                                ((λ i, show_Z (Z.of_nat i)) <$> seq 0 (length l)))
              | Some next =>
                  variable_path step_id reference (known_prefix +:+ "[" +:+ show_Z index +:+ "]")
                    next rest
              end
          end
      | other =>
          push_error (ReferenceNonObjectTraversal step_id reference known_prefix
                        (get_json_type_name other) segment)
      end
  end.

Definition validate_variable_reference_path (step_id reference : string)
  (root_segments : list string) (variable_name : string) (value : json) : ValidationResult :=
  let segments := reference_segments reference in
  let skip := S (length root_segments) in
  if negb (skip <? length segments)%nat || negb (segments_start_with segments root_segments)
  then no_issues
  else variable_path step_id reference (join "." root_segments +:+ "." +:+ variable_name) value
         (drop skip segments).

(** ** The references of a step *)

Fixpoint extract_references_from_mapping_value (value : MappingValue) : list string :=
  match value with
  | Reference r => [ref_value r]
  | Immediate _ | Template _ => []
  | CompositeObject m =>
      map_fold (λ _ nested rest, extract_references_from_mapping_value nested ++ rest) [] m
  | CompositeArray l => flat_map extract_references_from_mapping_value l
  end.

Definition extract_references_from_input_mapping (mapping : InputMapping) : list string :=
  flat_map extract_references_from_mapping_value (values mapping).

Fixpoint extract_references_from_condition (c : ConditionExpression) : list string :=
  match c with
  | Operation _ arguments =>
      flat_map (λ arg,
        match arg with
        | ArgExpression e => extract_references_from_condition e
        | ArgValue v => extract_references_from_mapping_value v
        end) arguments
  | Value v => extract_references_from_mapping_value v
  end.

(** [Option]s of mappings and of values. *)
Definition from_mapping (m : option InputMapping) : list string :=
  flat_map extract_references_from_input_mapping (option_list m).
Definition from_value (v : option MappingValue) : list string :=
  flat_map extract_references_from_mapping_value (option_list v).

Definition collect_references_from_step (step : Step) : list string :=
  match step with
  | Agent s => from_mapping (agent_input_mapping s)
  | EmbedWorkflow s => from_mapping (embed_input_mapping s)
  | Finish s => from_mapping (finish_input_mapping s)
  | Log s => from_mapping (log_context s)
  | Conditional s => extract_references_from_condition (conditional_condition s)
  | Switch s => from_value (sw_value <$> switch_config s)
  | Filter s => extract_references_from_mapping_value (filter_value s)
  | GroupBy s => extract_references_from_mapping_value (group_value s)
  | Split s => from_value (split_value <$> split_config s)
  | While s => from_mapping (while_config s ≫= while_variables)
  | Delay s => extract_references_from_mapping_value (duration_ms s)
  | WaitForSignal s => from_value (timeout_ms s)
  | Error s => from_mapping (error_context s)
  | AiAgent s =>
      match ai_config s with
      | Some c =>
          extract_references_from_mapping_value (system_prompt c)
          ++ extract_references_from_mapping_value (user_prompt c)
          ++ from_value (model c) ++ from_value (temperature c) ++ from_value (max_tokens c)
          ++ from_value (conversation_id <$> memory c)
      | None => []
      end
  end.

(** The references with [item] in scope and those with [loop] in scope. *)
Definition collect_step_scoped_references (step : Step) : list string * list string :=
  match step with
  | Filter s => (extract_references_from_condition (filter_condition s), [])
  | While s => ([], extract_references_from_condition (while_condition s))
  | _ => ([], [])
  end.

(** ** Phase 7.5: data and variables *)

Definition validate_data_reference_in_scope (step_id reference : string)
  (root_segments : list string) (graph : ExecutionGraph) (data_scope : DataScope) :
  ValidationResult :=
  match data_scope with
  | RequireSchema =>
      if decide (input_schema graph = ∅) then push_error (MissingInputSchema step_id reference)
      else validate_schema_reference_path step_id reference root_segments (input_schema graph)
  | Declared schema => validate_schema_reference_path step_id reference root_segments schema
  | Unchecked => push_warning (UnverifiedDataReference step_id reference)
  end.

Definition variable_reference (step_id reference : string) (root_segments : list string)
  (graph : ExecutionGraph) (all_variables : gset string) (field_name : string) :
  ValidationResult :=
  if decide (field_name ∉ all_variables) then
    push_error (UndefinedVariableReference step_id reference field_name (elements all_variables))
  else
    match variables graph !! field_name with
    | Some variable =>
        validate_variable_reference_path step_id reference root_segments field_name
          (var_value variable)
    | None => no_issues
    end.

Definition validate_workflow_reference (step_id reference : string) (graph : ExecutionGraph)
  (data_scope : DataScope) (all_variables : gset string) : ValidationResult :=
  if decide (reference ∈ ["workflow"; "workflow.inputs"; "workflow.inputs.data"]) then no_issues
  else if starts_with reference "workflow.inputs.data." then
    validate_data_reference_in_scope step_id reference ["workflow"; "inputs"; "data"] graph data_scope
  else if decide (reference = "workflow.inputs.variables") then no_issues
  else
    match strip_prefix "workflow.inputs.variables." reference with
    | Some rest =>
        variable_reference step_id reference ["workflow"; "inputs"; "variables"] graph
          all_variables (up_to "."%char rest)
    | None =>
        push_error (InvalidReferencePath step_id reference
          ("'workflow.*' references must be 'workflow.inputs.data.*' or "
           +:+ "'workflow.inputs.variables.*', not '" +:+ reference +:+ "'"))
    end.

(** Where [loop], [item] and [iteration] may be used. *)
Record RootScope := { loop_allowed : bool; item_allowed : bool; iteration_allowed : bool }.

Definition validate_reference_root (step_id reference : string) (graph : ExecutionGraph)
  (data_scope : DataScope) (all_variables : gset string) (allowed : RootScope) :
  ValidationResult :=
  let root := reference_root reference in
  let out_of_scope reason := push_error (ReferenceRootOutOfScope step_id reference root reason) in
  if decide (root = "data") then
    match parse_reference reference with
    | Some _ => validate_data_reference_in_scope step_id reference ["data"] graph data_scope
    | None => no_issues
    end
  else if decide (root = "variables") then
    match parse_reference reference with
    | Some (_, field_name) =>
        variable_reference step_id reference ["variables"] graph all_variables field_name
    | None => no_issues
    end
  else if decide (root = "workflow") then
    validate_workflow_reference step_id reference graph data_scope all_variables
  else if decide (root ∈ ["steps"; "__error"; "error"]) then no_issues
  else if decide (root = "iteration") then
    if negb (iteration_allowed allowed) then
      out_of_scope ("`iteration.*` is only populated inside a Split/While subgraph or a While "
                    +:+ "step's own condition")
    else
      match reference_segments reference !! 1%nat with
      | Some f =>
          when (bool_decide (f ∉ ["index"; "indices"; "item"]))
            (push_error (InvalidReferencePath step_id reference
              ("'iteration.*' references must use 'index', 'indices', or 'item', not '"
               +:+ f +:+ "'")))
      | None => no_issues
      end
  else if decide (root = "loop") then
    when (negb (loop_allowed allowed))
      (out_of_scope ("`loop.*` is only populated inside a While step's own condition or a "
                     +:+ "While/Split subgraph"))
  else if decide (root = "item") then
    when (negb (item_allowed allowed))
      (out_of_scope ("`item.*` is only populated inside a Filter step's own condition or a "
                     +:+ "Split subgraph"))
  else push_error (UnknownReferenceRoot step_id reference root LEGAL_REFERENCE_ROOTS).

Definition step_data_references (graph : ExecutionGraph) (data_scope : DataScope)
  (all_variables : gset string) : ValidationResult :=
  let allowed :=
    {| loop_allowed := bool_decide ("_loop" ∈ all_variables);
       item_allowed := bool_decide ("_item" ∈ all_variables);
       iteration_allowed := bool_decide ("_loop_indices" ∈ all_variables) |} in
  for_entries (steps graph) (λ step_id step,
    let check allowed reference :=
      validate_reference_root step_id reference graph data_scope all_variables allowed in
    let '(item_refs, loop_refs) := collect_step_scoped_references step in
    for_each (collect_references_from_step step) (check allowed)
    ⊕ for_each item_refs (check {| loop_allowed := loop_allowed allowed; item_allowed := true;
                                   iteration_allowed := iteration_allowed allowed |})
    ⊕ for_each loop_refs (check {| loop_allowed := true; item_allowed := item_allowed allowed;
                                   iteration_allowed := true |})).

Fixpoint validate_data_and_variable_references_with_context (graph : ExecutionGraph)
  (inherited : gset string) (data_scope : DataScope) : ValidationResult :=
  let all_variables := scope_variables graph inherited in
  step_data_references graph data_scope all_variables ⊕
  for_entries (steps graph) (λ _ step,
    match step with
    | Split s =>
        validate_data_and_variable_references_with_context (split_subgraph s)
          (split_injected all_variables (split_config s)) (for_split_body (split_input_schema s))
    | While s =>
        validate_data_and_variable_references_with_context (while_subgraph s)
          (while_injected all_variables (while_config s)) (for_while_body data_scope graph)
    | WaitForSignal s =>
        match on_wait s with
        | Some g =>
            validate_data_and_variable_references_with_context g
              (list_to_set WAIT_ON_WAIT_SCOPE_VARIABLES) RequireSchema
        | None => no_issues
        end
    | _ => no_issues
    end).

Definition validate_data_and_variable_references (graph : ExecutionGraph) : ValidationResult :=
  validate_data_and_variable_references_with_context graph ∅ RequireSchema.
