(* ===== verification/ValidationTemplates.v ===== *)
(** * runtara-workflows: static references of templates

    [validation.rs], phase 2.6: the references a template makes to [data],
    [variables] and [steps], checked like those of a mapping but reported as
    warnings.  Which paths a template reads is minijinja's static analysis. *)

From S2P Require Import Prelude.
From S2P Require Import Json.
From S2P Require Import Text.
From S2P Require Import GuestExpr.
From S2P Require Import Dsl.
From S2P Require Import ValidationBase.
From S2P Require Import ValidationGraph.
From S2P Require Import ValidationText.
From S2P Require Import ValidationRefs.

(** [Template::undeclared_variables]: the names, in no particular order. *)
Class StaticTemplates `{Minijinja} := undeclared_variables : MjTemplate → bool → list string.

Definition sort_dedup (l : list string) : list string := dedup (sorted l).

Section templates.
Context `{StaticTemplates} `{UnicodeData}.

Definition is_static_reference (reference : string) : bool :=
  starts_with reference "data." || starts_with reference "variables."
  || starts_with reference "steps.".

Definition extract_template_static_references (template_str : string) : list string :=
  match add_template env_new "__check" template_str with
  | Err _ => []
  | Ok env =>
      match get_template env "__check" with
      | Err _ => []
      | Ok template =>
          sort_dedup (filter (λ r, is_static_reference r = true) (undeclared_variables template true))
      end
  end.

Fixpoint extract_template_static_references_from_mapping_value (value : MappingValue) :
  list string :=
  match value with
  | Reference _ | Immediate _ => []
  | CompositeObject m =>
      map_fold (λ _ v rest, extract_template_static_references_from_mapping_value v ++ rest) [] m
  | CompositeArray l => flat_map extract_template_static_references_from_mapping_value l
  | Template t => extract_template_static_references t
  end.

Definition extract_template_static_references_from_input_mapping (mapping : InputMapping) :
  list string :=
  flat_map extract_template_static_references_from_mapping_value (values mapping).

Fixpoint extract_template_static_references_from_condition (c : ConditionExpression) :
  list string :=
  match c with
  | Operation _ arguments =>
      flat_map (λ arg,
        match arg with
        | ArgExpression e => extract_template_static_references_from_condition e
        | ArgValue v => extract_template_static_references_from_mapping_value v
        end) arguments
  | Value v => extract_template_static_references_from_mapping_value v
  end.

Definition templates_of_mapping (m : option InputMapping) : list string :=
  flat_map extract_template_static_references_from_input_mapping (option_list m).
Definition templates_of_value (v : option MappingValue) : list string :=
  flat_map extract_template_static_references_from_mapping_value (option_list v).

Definition collect_template_static_references_from_step (step : Step) : list string :=
  sort_dedup
    match step with
    | Agent s => templates_of_mapping (agent_input_mapping s)
    | EmbedWorkflow s => templates_of_mapping (embed_input_mapping s)
    | Finish s => templates_of_mapping (finish_input_mapping s)
    | Log s => templates_of_mapping (log_context s)
    | Conditional s => extract_template_static_references_from_condition (conditional_condition s)
    | Switch s => templates_of_value (sw_value <$> switch_config s)
    | Filter s =>
        extract_template_static_references_from_mapping_value (filter_value s)
        ++ extract_template_static_references_from_condition (filter_condition s)
    | GroupBy s => extract_template_static_references_from_mapping_value (group_value s)
    | Split s =>
        templates_of_value (split_value <$> split_config s)
        ++ templates_of_mapping (split_config s ≫= split_variables)
    | While s =>
        extract_template_static_references_from_condition (while_condition s)
        ++ templates_of_mapping (while_config s ≫= while_variables)
    | Delay s => extract_template_static_references_from_mapping_value (duration_ms s)
    | WaitForSignal s => templates_of_value (timeout_ms s)
    | Error s => templates_of_mapping (error_context s)
    | AiAgent s =>
        match ai_config s with
        | Some c =>
            extract_template_static_references_from_mapping_value (system_prompt c)
            ++ extract_template_static_references_from_mapping_value (user_prompt c)
            ++ templates_of_value (model c) ++ templates_of_value (temperature c)
            ++ templates_of_value (max_tokens c)
            ++ templates_of_value (conversation_id <$> memory c)
        | None => []
        end
    end.

(** ** Issues of nested checks, as template issues *)

Definition push_template_reference_issue (step_id reference reason : string) : ValidationResult :=
  push_warning (TemplateReferenceIssue step_id reference reason).

Definition template_error_reason (error : ValidationError) : string :=
  match error with
  | UndefinedDataReference _ _ field_name available_fields =>
      "field '" +:+ field_name +:+ "' is not defined in inputSchema"
      +:+ suggestion field_name available_fields
  | MissingInputSchema _ _ => "no inputSchema is defined for data.* references"
  | UndefinedVariableReference _ _ variable_name available_variables =>
      "variable '" +:+ variable_name +:+ "' is not defined"
      +:+ suggestion variable_name available_variables
  | UndefinedReferenceField _ _ known_prefix missing_field available_fields =>
      "'" +:+ known_prefix +:+ "' has no field '" +:+ missing_field +:+ "'"
      +:+ suggestion missing_field available_fields
  | ReferenceNonObjectTraversal _ _ known_prefix actual_type attempted_field =>
      "'" +:+ known_prefix +:+ "' is '" +:+ actual_type +:+ "' and cannot be traversed to '"
      +:+ attempted_field +:+ "'"
  | _ => display_error error
  end.

Definition template_warning_reason (warning : ValidationWarning) : string :=
  match warning with
  | PartiallyUnverifiedReference _ _ known_prefix unverified_suffix =>
      "path is valid through '" +:+ known_prefix +:+ "', but '" +:+ unverified_suffix
      +:+ "' is inside a dynamic object and cannot be validated statically"
  | _ => display_warning warning
  end.

Definition push_template_nested_issues (step_id reference : string) (nested : ValidationResult) :
  ValidationResult :=
  for_each (errors nested) (λ e,
    push_template_reference_issue step_id reference (template_error_reason e))
  ⊕ for_each (warnings nested) (λ w,
    push_template_reference_issue step_id reference (template_warning_reason w)).

(** ** The check of one reference *)

Definition template_step_reference (graph : ExecutionGraph) (step_id reference referenced : string) :
  ValidationResult :=
  when (bool_decide (referenced = step_id)) (push_warning (SelfReference step_id reference))
  ⊕ if bool_decide (steps graph !! referenced = None) then
      push_template_reference_issue step_id reference
        ("step '" +:+ referenced +:+ "' does not exist")
    else when (bool_decide (referenced ≠ step_id)
               && negb (has_path (build_adjacency graph) referenced step_id))
           (push_template_reference_issue step_id reference
             ("step '" +:+ referenced +:+ "' has not executed before this step")).

Definition template_data_reference (graph : ExecutionGraph) (data_scope : DataScope)
  (step_id reference : string) : ValidationResult :=
  let nested schema :=
    push_template_nested_issues step_id reference
      (validate_schema_reference_path step_id reference ["data"] schema) in
  match data_scope with
  | RequireSchema =>
      if decide (input_schema graph = ∅) then
        push_template_reference_issue step_id reference
          "no inputSchema is defined for data.* references"
      else nested (input_schema graph)
  | Declared schema => nested schema
  | Unchecked =>
      push_template_reference_issue step_id reference
        ("no schema is declared for `data` in this scope; declare inputSchema on the "
         +:+ "enclosing Split step (or the workflow) to make it checkable")
  end.

Definition template_variable_reference (graph : ExecutionGraph) (variable_names : gset string)
  (step_id reference field_name : string) : ValidationResult :=
  if decide (field_name ∉ variable_names) then
    push_template_reference_issue step_id reference
      ("variable '" +:+ field_name +:+ "' is not defined"
       +:+ suggestion field_name (sorted (elements variable_names)))
  else
    match variables graph !! field_name with
    | Some variable =>
        push_template_nested_issues step_id reference
          (validate_variable_reference_path step_id reference ["variables"] field_name
             (var_value variable))
    | None => no_issues
    end.

Definition validate_template_static_reference (graph : ExecutionGraph)
  (variable_names : gset string) (data_scope : DataScope) (step_id reference : string) :
  ValidationResult :=
  if contains reference ".." then
    push_template_reference_issue step_id reference "empty path segment (consecutive dots)"
  else
    match extract_step_id_from_reference reference with
    | Some referenced => template_step_reference graph step_id reference referenced
    | None => no_issues
    end
    ⊕ match parse_reference reference with
      | Some (root, field_name) =>
          if decide (root = "data") then template_data_reference graph data_scope step_id reference
          else template_variable_reference graph variable_names step_id reference field_name
      | None => no_issues
      end.

Fixpoint validate_template_static_references_with_context (graph : ExecutionGraph)
  (inherited : gset string) (data_scope : DataScope) : ValidationResult :=
  let variable_names := scope_variables graph inherited in
  for_entries (steps graph) (λ step_id step,
    for_each (collect_template_static_references_from_step step)
      (validate_template_static_reference graph variable_names data_scope step_id)) ⊕
  for_entries (steps graph) (λ _ step,
    match step with
    | Split s =>
        validate_template_static_references_with_context (split_subgraph s)
          (split_injected variable_names (split_config s)) (for_split_body (split_input_schema s))
    | While s =>
        validate_template_static_references_with_context (while_subgraph s)
          (while_injected variable_names (while_config s)) (for_while_body data_scope graph)
    | WaitForSignal s =>
        match on_wait s with
        | Some g =>
            validate_template_static_references_with_context g
              (list_to_set WAIT_ON_WAIT_SCOPE_VARIABLES) RequireSchema
        | None => no_issues
        end
    | _ => no_issues
    end).

Definition validate_template_static_references (graph : ExecutionGraph) : ValidationResult :=
  validate_template_static_references_with_context graph ∅ RequireSchema.

End templates.
