(* ===== verification/ValidationAgents.v ===== *)
(** * runtara-workflows: validation of agent steps

    [validation.rs], phase 3: agents and capabilities of the catalog, required
    inputs, the types of immediate values, and the shape of the query conditions an
    agent takes as input; [runtara-dsl/src/agent_meta.rs]: the catalog, canonical
    agent ids and workflow slugs.

    The catalog is data loaded at run time; reading a [ConditionExpression] out of a
    JSON value is serde's generated code, a parameter. *)

From S2P Require Import Prelude.
From S2P Require Import Json.
From S2P Require Import Text.
From S2P Require Import Dsl.
From S2P Require Import ValidationBase.
From S2P Require Import ValidationGraph.
From S2P Require Import ValidationRefs.

(** ** The catalog; of a capability and its fields, what the validator and the compiler read *)

Record CapabilityField := {
  cf_name : string;
  cf_type_name : string;
  cf_required : bool;
  cf_enum_values : option (list string);
  cf_description : option string }.

Record CapabilityInfo := {
  cap_id : string;
  cap_inputs : list CapabilityField;
  cap_rate_limited : bool;
  cap_tags : list string }.

Record AgentInfo := {
  info_id : string;
  supports_connections : bool;
  info_capabilities : list CapabilityInfo }.

Record AgentCatalog := { agents : list AgentInfo }.

Definition canonical_agent_id (id : string) : string := replace "_" "-" (to_ascii_lowercase id).

Definition catalog_agent (self : AgentCatalog) (agent_id : string) : option AgentInfo :=
  let query := canonical_agent_id agent_id in
  find (λ a, bool_decide (canonical_agent_id (info_id a) = query)) (agents self).

Definition catalog_capability (self : AgentCatalog) (agent_id capability_id : string) :
  option CapabilityInfo :=
  a ← catalog_agent self agent_id;
  find (λ c, bool_decide (cap_id c = capability_id)) (info_capabilities a).

(** [serde_json::from_value::<ConditionExpression>]: the condition or the error text. *)
Class ConditionCodec := condition_from_value : json → result string ConditionExpression.

(** [format!("{:?}", op)] *)
Definition operator_debug (op : ConditionOperator) : string :=
  match op with
  | OpAnd => "And" | OpOr => "Or" | OpNot => "Not"
  | OpGt => "Gt" | OpGte => "Gte" | OpLt => "Lt" | OpLte => "Lte" | OpEq => "Eq" | OpNe => "Ne"
  | OpStartsWith => "StartsWith" | OpEndsWith => "EndsWith"
  | OpContains => "Contains" | OpIn => "In" | OpNotIn => "NotIn"
  | OpLength => "Length" | OpIsDefined => "IsDefined" | OpIsEmpty => "IsEmpty"
  | OpIsNotEmpty => "IsNotEmpty" | OpSimilarityGte => "SimilarityGte" | OpMatch => "Match"
  | OpCosineDistanceLte => "CosineDistanceLte" | OpL2DistanceLte => "L2DistanceLte"
  end.

(** ** Conditions as agent inputs *)

Definition validate_condition_field_name (field : string) : option string :=
  if is_empty_str field then Some "field name cannot be empty"
  else if negb (all_chars (λ c, is_ascii_alphanumeric c || Ascii.eqb c "_"%char
                                || Ascii.eqb c "-"%char) field) then
    Some "field name may only contain letters, digits, `_`, and `-`"
  else None.

Definition looks_like_mapping_value_envelope (value : json) : bool :=
  match json_get "valueType" value ≫= as_str with
  | Some t => bool_decide (t ∈ ["reference"; "immediate"; "composite"; "template"])
  | None => false
  end.

(** The reason a value cannot name a field. *)
Definition field_mapping_invalid (value : MappingValue) (base_message : string) : option string :=
  let because reason := base_message +:+ "; " +:+ reason in
  match value with
  | Reference r => because <$> validate_condition_field_name (ref_value r)
  | Immediate v =>
      match as_str v with
      | Some field => because <$> validate_condition_field_name field
      | None =>
          if looks_like_mapping_value_envelope v then
            Some (fill ("deprecated wrapping: do not use `{ valueType:{}immediate{}, value:{ "
                        +:+ "valueType:{}reference{}, ... } }`; put the reference object directly "
                        +:+ "in the argument slot") [dquote; dquote; dquote; dquote])
          else Some (because "immediate field arguments must contain a string")
      end
  | CompositeObject _ | CompositeArray _ =>
      Some (because "composite-wrapped condition arguments are not accepted")
  | Template _ => Some (because "template field names are not accepted")
  end.

Section conditions.
Context (step_id field_name : string).

Definition bad_shape (path message : string) : ValidationResult :=
  push_error (InvalidConditionShape step_id field_name path message).

Definition validate_condition_field_mapping (path : string) (value : MappingValue)
  (base_message : string) : ValidationResult :=
  match field_mapping_invalid value base_message with
  | Some message => bad_shape path message
  | None => no_issues
  end.

(** The arguments an operator of a field condition takes. *)
Definition expected_arguments (op : ConditionOperator) : option nat :=
  match op with
  | OpIsDefined | OpIsEmpty | OpIsNotEmpty => Some 1%nat
  | OpSimilarityGte | OpCosineDistanceLte | OpL2DistanceLte => Some 3%nat
  | OpEq | OpNe | OpGt | OpGte | OpLt | OpLte | OpStartsWith | OpEndsWith
  | OpContains | OpIn | OpNotIn | OpMatch => Some 2%nat
  | OpAnd | OpOr | OpNot | OpLength => None
  end.

Definition argument_path (path : string) (index : nat) : string :=
  path +:+ ".arguments[" +:+ show_Z (Z.of_nat index) +:+ "]".

Definition first_argument_message : string :=
  fill ("first argument must be a field name: use bare `{ {}valueType{}: {}reference{}, "
        +:+ "{}value{}: {}field_name{} }` or `{ {}valueType{}: {}immediate{}, {}value{}: "
        +:+ "{}field_name{} }`") (repeat dquote 16).

Definition first_argument (path : string) (arguments : list ConditionArgument) :
  ValidationResult :=
  match arguments with
  | [] => no_issues
  | ArgValue value :: _ =>
      validate_condition_field_mapping (argument_path path 0) value first_argument_message
  | ArgExpression _ :: _ =>
      bad_shape (argument_path path 0) "first argument must be a field name, not a nested condition"
  end.

(** [validate_non_field_condition_argument] of a value. *)
Definition non_field_value (path : string) (value : MappingValue) : ValidationResult :=
  match value with
  | Immediate v =>
      when (looks_like_mapping_value_envelope v)
        (bad_shape path
           (fill ("deprecated wrapping: do not nest a MappingValue inside "
                  +:+ "`valueType:{}immediate{}`; use the bare reference/immediate/template "
                  +:+ "object directly in the argument slot") [dquote; dquote]))
  | CompositeObject _ | CompositeArray _ =>
      bad_shape path ("composite-wrapped condition arguments are not accepted; use immediate "
                      +:+ "arrays/objects for literals or bare references for runtime values")
  | _ => no_issues
  end.

Fixpoint validate_agent_condition_expression (path : string) (expr : ConditionExpression) :
  ValidationResult :=
  match expr with
  | Operation op arguments =>
      match op with
      | OpAnd | OpOr =>
          when (bool_decide (length arguments = 0%nat))
            (bad_shape (path +:+ ".arguments")
               (operator_debug op +:+ " requires at least one nested condition")) ⊕
          (fix nested (index : nat) (l : list ConditionArgument) : ValidationResult :=
             match l with
             | [] => no_issues
             | ArgExpression e :: l =>
                 validate_agent_condition_expression (argument_path path index) e
                 ⊕ nested (S index) l
             | ArgValue _ :: l =>
                 bad_shape (argument_path path index)
                   ("AND/OR arguments must be nested ConditionExpression objects, not "
                    +:+ "MappingValue arguments") ⊕ nested (S index) l
             end) 0%nat arguments
      | OpNot =>
          when (negb (bool_decide (length arguments = 1%nat)))
            (bad_shape (path +:+ ".arguments") "NOT requires exactly one nested condition") ⊕
          match arguments with
          | [] => no_issues
          | ArgExpression e :: _ => validate_agent_condition_expression (argument_path path 0) e
          | ArgValue _ :: _ =>
              bad_shape (argument_path path 0)
                "NOT argument must be a nested ConditionExpression object"
          end
      | OpLength =>
          bad_shape path ("LENGTH is a workflow runtime operator and is not supported by "
                          +:+ "object-model condition inputs")
      | _ =>
          (* validate_field_condition_operation *)
          match expected_arguments op with
          | None => no_issues
          | Some expected =>
              when (negb (bool_decide (length arguments = expected)))
                (bad_shape (path +:+ ".arguments")
                   (operator_debug op +:+ " requires exactly " +:+ show_Z (Z.of_nat expected)
                    +:+ " argument(s)"))
              ⊕ first_argument path arguments ⊕
              (fix others (index : nat) (l : list ConditionArgument) : ValidationResult :=
                 match l with
                 | [] => no_issues
                 | arg :: l =>
                     (if bool_decide (index = 0%nat) then no_issues
                      else match arg with
                           | ArgExpression e =>
                               validate_agent_condition_expression (argument_path path index) e
                           | ArgValue v => non_field_value (argument_path path index) v
                           end) ⊕ others (S index) l
                 end) 0%nat arguments
          end
      end
  | Value value =>
      validate_condition_field_mapping path value
        (fill ("top-level value condition must name a field with `valueType:{}reference{}` or an "
               +:+ "immediate string") [dquote; dquote])
  end.

Definition validate_condition_input_mapping `{ConditionCodec} (value : MappingValue) :
  ValidationResult :=
  match value with
  | Immediate v =>
      let path := "inputMapping." +:+ field_name +:+ ".value" in
      match condition_from_value v with
      | Ok c => validate_agent_condition_expression path c
      | Err err =>
          bad_shape path ("expected ConditionExpression JSON with top-level `type` (`operation` or "
                          +:+ "`value`); deserializer reported: " +:+ err)
      end
  | CompositeObject _ | CompositeArray _ =>
      bad_shape ("inputMapping." +:+ field_name)
        (fill ("do not wrap a condition in `valueType: {}composite{}`; use `valueType: "
               +:+ "{}immediate{}` with a ConditionExpression object, and use bare MappingValue "
               +:+ "objects for each argument") (repeat dquote 4))
  | Reference _ | Template _ => no_issues
  end.

End conditions.

(** ** The types of immediate values *)

Section agents.
Context `{UnicodeData} `{ConditionCodec}.

(** The types that are checked; every other type takes any value. *)
Definition type_compatible (expected_type : string) (actual : json) : bool :=
  let expected_lower := to_lowercase expected_type in
  if decide (expected_lower = "any") then true
  else if decide (expected_lower = "string") then is_string actual
  else if decide (expected_lower ∈ ["integer"; "int"; "i32"; "i64"; "u32"; "u64"; "isize"; "usize"])
  then is_integer actual
  else if decide (expected_lower ∈ ["number"; "float"; "f32"; "f64"]) then is_number actual
  else if decide (expected_lower ∈ ["boolean"; "bool"]) then is_boolean actual
  else if decide (expected_lower = "array") then is_array actual
  else if decide (expected_lower = "object") then is_object actual
  else true.

Definition check_type_compatibility (step_id field_name expected_type : string) (actual : json) :
  ValidationResult :=
  when (negb (type_compatible expected_type actual))
    (push_error (TypeMismatch step_id field_name expected_type (get_json_type_name actual))).

(** ** Agent steps *)

Definition eq_ignore_ascii_case (a b : string) : bool :=
  bool_decide (to_ascii_lowercase a = to_ascii_lowercase b).

Definition agent_capability_requires_connection (agent_id : string) (agent : AgentInfo) : bool :=
  supports_connections agent && negb (eq_ignore_ascii_case agent_id "http").

Definition is_condition_input (agent_id field_name type_name : string) : bool :=
  contains type_name "ConditionExpression"
  || (bool_decide (canonical_agent_id agent_id = "object-model")
      && bool_decide (field_name = "condition")).

Definition required_inputs (step_id : string) (s : AgentStep) (inputs : list CapabilityField)
  (provided_keys : gset string) : ValidationResult :=
  for_each inputs (λ input,
    when (cf_required input && bool_decide (cf_name input ∉ provided_keys)
          && negb (bool_decide (cf_name input = "_connection")))
      (push_error (MissingRequiredInput step_id (agent_id s) (capability_id s) (cf_name input)))).

Definition unknown_inputs (step_id : string) (s : AgentStep) (inputs : list CapabilityField)
  (provided_keys : gset string) : ValidationResult :=
  let available_fields := cf_name <$> inputs in
  for_each (elements provided_keys) (λ key,
    when (negb (starts_with key "_") && bool_decide (key ∉ available_fields))
      (push_warning (UnknownInputField step_id (agent_id s) (capability_id s) key available_fields))).

(** The field of a name; of two with the same name the map keeps the later. *)
Definition field_map (inputs : list CapabilityField) : gmap string CapabilityField :=
  foldl (λ m f, <[cf_name f := f]> m) ∅ inputs.

Definition immediate_inputs (step_id : string) (s : AgentStep) (inputs : list CapabilityField)
  (mapping : InputMapping) : ValidationResult :=
  for_entries mapping (λ field_name value,
    match field_map inputs !! field_name with
    | None => no_issues
    | Some meta =>
        when (bool_decide (canonical_agent_id (agent_id s) ≠ "object-model")
              && is_condition_input (agent_id s) field_name (cf_type_name meta))
          (validate_condition_input_mapping step_id field_name value)
        ⊕ match value with
          | Immediate v =>
              check_type_compatibility step_id field_name (cf_type_name meta) v
              ⊕ match cf_enum_values meta, as_str v with
                | Some enum_values, Some value_str =>
                    when (bool_decide (value_str ∉ enum_values))
                      (push_error (InvalidEnumValue step_id field_name value_str enum_values))
                | _, _ => no_issues
                end
          | _ => no_issues
          end
    end).

(** The roots of the mapped input paths. *)
Definition provided_keys (mapping : option InputMapping) : gset string :=
  match mapping with
  | Some m => list_to_set (up_to "."%char <$> keys m)
  | None => ∅
  end.

Definition agent_step (catalog : AgentCatalog) (step_id : string) (s : AgentStep) :
  ValidationResult :=
  match catalog_agent catalog (agent_id s) with
  | None =>
      push_error (UnknownAgent step_id (agent_id s) (info_id <$> agents catalog))
  | Some agent =>
      when (bool_decide (canonical_agent_id (agent_id s) = "object-model"))
        match agent_input_mapping s ≫= (λ m, m !! "condition") with
        | Some c => validate_condition_input_mapping step_id "condition" c
        | None => no_issues
        end ⊕
      match catalog_capability catalog (agent_id s) (capability_id s) with
      | None =>
          push_error (UnknownCapability step_id (agent_id s) (capability_id s)
                        (cap_id <$> info_capabilities agent))
      | Some capability =>
          let inputs := cap_inputs capability in
          when (agent_capability_requires_connection (agent_id s) agent
                && connection_id_is_missing (agent_connection_id s)
                && bool_decide (agent_connection_ref s = None))
            (push_error (AgentMissingConnection step_id (agent_id s) (capability_id s)))
          ⊕ required_inputs step_id s inputs (provided_keys (agent_input_mapping s))
          ⊕ unknown_inputs step_id s inputs (provided_keys (agent_input_mapping s))
          ⊕ match agent_input_mapping s with
            | Some mapping => immediate_inputs step_id s inputs mapping
            | None => no_issues
            end
      end
  end.

Fixpoint validate_agents (catalog : AgentCatalog) (graph : ExecutionGraph) : ValidationResult :=
  for_entries (steps graph) (λ step_id step,
    match step with Agent s => agent_step catalog step_id s | _ => no_issues end) ⊕
  for_entries (steps graph) (λ _ step,
    match step with
    | Split s => validate_agents catalog (split_subgraph s)
    | While s => validate_agents catalog (while_subgraph s)
    | _ => no_issues
    end).

End agents.
