(* ===== verification/Validation.v ===== *)
(** * runtara-workflows: validation of a workflow and of its closure

    [validation.rs]: [validate_workflow] runs the phases of the other Validation
    files; the closure entry validates a root graph with every child workflow it
    embeds, checks the inputs of each EmbedWorkflow step against the child's schema,
    and looks for workflows that embed themselves.  The end of the file has concrete
    workflows and library functions for the witnesses. *)

From S2P Require Import Prelude.
From S2P Require Import Json.
From S2P Require Import Text.
From S2P Require Import GuestExpr.
From S2P Require Import Dsl.
From S2P Require Import Dependencies.
From S2P Require Import ValidationBase.
From S2P Require Import ValidationGraph.
From S2P Require Import ValidationRefs.
From S2P Require Import ValidationTemplates.
From S2P Require Import ValidationAgents.
From S2P Require Import GuestScenarios.

(** ** Embedded workflows *)

(** Calls [build_dependency_graph] makes into child workflows mark a new id as
    visited, so [fuel] need not exceed the number of children; the recursion into
    subgraphs is structural. *)
Fixpoint build_dependency_graph (fuel : nat) (child_workflows : gmap string ExecutionGraph) :
  ExecutionGraph → WorkflowReference → DependencyGraph * gset string →
  option (DependencyGraph * gset string) :=
  fix on_graph (graph : ExecutionGraph) (parent_ref : WorkflowReference)
    (st : DependencyGraph * gset string) : option (DependencyGraph * gset string) :=
    map_fold (λ _ step acc,
      match acc with
      | None => None
      | Some (dep_graph, visited) =>
          match step with
          | EmbedWorkflow s =>
              let child_ref := {| workflow_id := child_workflow_id s; version := 1 |} in
              let dep_graph := add_edge parent_ref child_ref dep_graph in
              if decide (child_workflow_id s ∈ visited) then Some (dep_graph, visited)
              else
                let visited := {[child_workflow_id s]} ∪ visited in
                match child_workflows !! child_workflow_id s with
                | None => Some (dep_graph, visited)
                | Some child_graph =>
                    match fuel with
                    | O => None
                    | S fuel =>
                        build_dependency_graph fuel child_workflows child_graph child_ref
                          (dep_graph, visited)
                    end
                end
          | Split s => on_graph (split_subgraph s) parent_ref (dep_graph, visited)
          | While s => on_graph (while_subgraph s) parent_ref (dep_graph, visited)
          | _ => Some (dep_graph, visited)
          end
      end) (Some st) (steps graph).

Definition dependency_graph (root : ExecutionGraph) (root_ref : WorkflowReference)
  (child_workflows : gmap string ExecutionGraph) : option DependencyGraph :=
  fst <$> build_dependency_graph (size child_workflows) child_workflows root root_ref
            (new_dependency_graph, ∅).

(** The graph built and searched; [None] when one of the two runs out of rounds, which
    never happens ([closure_cycles_exact]). *)
Definition cycle_search (root : ExecutionGraph) (root_ref : WorkflowReference)
  (child_workflows : gmap string ExecutionGraph) : option (result (list WorkflowReference) unit) :=
  edges ← dependency_graph root root_ref child_workflows;
  detect_cycles edges root_ref.

(** The cycle found from the root, if any. *)
Definition find_cycle (root : ExecutionGraph) (root_ref : WorkflowReference)
  (child_workflows : gmap string ExecutionGraph) : option (list WorkflowReference) :=
  match cycle_search root root_ref child_workflows with
  | Some (Err cycle) => Some cycle
  | _ => None
  end.

Definition circular_dependency (cycle_path : list string) : ValidationResult :=
  when (bool_decide (cycle_path ≠ [])) (push_error (CircularDependency cycle_path)).

Definition validate_circular_dependencies (graph : ExecutionGraph)
  (child_workflows : gmap string ExecutionGraph) : ValidationResult :=
  let root := {| workflow_id := "root"; version := 1 |} in
  match find_cycle graph root child_workflows with
  | Some cycle =>
      circular_dependency
        ((λ r, workflow_id r +:+ " (v" +:+ show_Z (version r) +:+ ")") <$> drop 1 cycle)
  | None => no_issues
  end.

Definition validate_closure_cycles (root_workflow_id : string) (root : ExecutionGraph)
  (children_map : gmap string ExecutionGraph) : ValidationResult :=
  let root_ref := {| workflow_id := root_workflow_id; version := 1 |} in
  match find_cycle root root_ref children_map with
  | Some cycle => circular_dependency (workflow_id <$> cycle)
  | None => no_issues
  end.

(** [format!("{:?}", field_type)] *)
Definition field_type_debug (t : SchemaFieldType) : string :=
  match t with
  | FtString => "String"
  | FtInteger => "Integer"
  | FtNumber => "Number"
  | FtBoolean => "Boolean"
  | FtArray => "Array"
  | FtObject => "Object"
  | FtFile => "File"
  | FtConnection => "Connection"
  end.

Definition embed_inputs (step_id : string) (s : EmbedWorkflowStep) (child_graph : ExecutionGraph) :
  ValidationResult :=
  let provided := default ∅ (key_set <$> embed_input_mapping s) in
  let has_input_mapping :=
    match embed_input_mapping s with Some m => negb (bool_decide (m = ∅)) | None => false end in
  if has_input_mapping && bool_decide (input_schema child_graph = ∅) then
    push_error (ChildMissingInputSchema step_id (child_workflow_id s))
  else
    let missing_fields :=
      (λ '(name, field), {| mf_name := name; mf_field_type := field_type_debug (field_type field);
                            mf_description := field_description field |})
      <$> filter (λ kv, required kv.2 = true ∧ kv.1 ∉ provided)
            (map_to_list (input_schema child_graph)) in
    when (bool_decide (missing_fields ≠ []))
      (push_error (MissingChildRequiredInputs step_id (child_workflow_id s) missing_fields
                     (elements provided))).

Fixpoint validate_embed_workflow_inputs (graph : ExecutionGraph)
  (child_workflows : gmap string ExecutionGraph) : ValidationResult :=
  for_entries (steps graph) (λ step_id step,
    match step with
    | EmbedWorkflow s =>
        match child_workflows !! child_workflow_id s with
        | Some child_graph => embed_inputs step_id s child_graph
        | None => no_issues
        end
    | _ => no_issues
    end) ⊕
  for_entries (steps graph) (λ _ step,
    match step with
    | Split s => validate_embed_workflow_inputs (split_subgraph s) child_workflows
    | While s => validate_embed_workflow_inputs (while_subgraph s) child_workflows
    | _ => no_issues
    end).

(** ** One workflow *)

Definition is_circular (e : ValidationError) : bool :=
  match e with CircularDependency _ => true | _ => false end.

Definition has_circular (r : ValidationResult) : bool := existsb is_circular (errors r).

Section workflow.
Context `{StaticTemplates} `{UnicodeData} `{ConditionCodec}.

Definition validate_workflow (graph : ExecutionGraph) (catalog : AgentCatalog) :
  ValidationResult :=
  validate_graph_structure graph
  ⊕ validate_edge_endpoints graph
  ⊕ validate_duplicate_target_edges graph
  ⊕ validate_finish_outputs graph
  ⊕ validate_references graph
  ⊕ validate_execution_order graph
  ⊕ validate_template_static_references graph
  ⊕ validate_agents catalog graph
  ⊕ validate_configuration graph
  ⊕ validate_child_workflows graph
  ⊕ validate_data_and_variable_references graph
  ⊕ validate_step_names graph
  ⊕ validate_compensation graph
  ⊕ validate_unenforced_timeouts graph
  ⊕ validate_edge_conditions_recursive graph
  ⊕ validate_condition_operators graph
  ⊕ validate_ai_agent_steps graph.

Definition validate_workflow_with_children (graph : ExecutionGraph) (catalog : AgentCatalog)
  (child_workflows : gmap string ExecutionGraph) : ValidationResult :=
  let r := validate_workflow graph catalog ⊕ validate_circular_dependencies graph child_workflows in
  r ⊕ when (negb (has_circular r)) (validate_embed_workflow_inputs graph child_workflows).

(** ** A workflow and its children *)

Record ClosureChildGraph := {
  ccg_workflow_id : string;
  ccg_version : Z;
  ccg_execution_graph : ExecutionGraph }.

Record ChildValidationReport := {
  cvr_workflow_id : string;
  cvr_version : Z;
  cvr_result : ValidationResult }.

Record ClosureValidationReport := {
  root_result : ValidationResult;
  children_reports : list ChildValidationReport }.

(** [ClosureValidationReport::is_ok] *)
Definition closure_is_ok (r : ClosureValidationReport) : bool :=
  result_is_ok (root_result r) && forallb (λ c, result_is_ok (cvr_result c)) (children_reports r).

Fixpoint report_missing_child_references (graph : ExecutionGraph)
  (children_map : gmap string ExecutionGraph) : ValidationResult :=
  for_entries (steps graph) (λ step_id step,
    match step with
    | EmbedWorkflow s =>
        when (bool_decide (children_map !! child_workflow_id s = None))
          (push_error (MissingChildWorkflow step_id (child_workflow_id s)))
    | _ => no_issues
    end) ⊕
  for_entries (steps graph) (λ _ step,
    match step with
    | Split s => report_missing_child_references (split_subgraph s) children_map
    | While s => report_missing_child_references (while_subgraph s) children_map
    | _ => no_issues
    end).

Fixpoint count_embed_step_ids (graph : ExecutionGraph) (counts : gmap string nat) :
  gmap string nat :=
  map_fold (λ step_id step counts,
    match step with
    | EmbedWorkflow _ => <[step_id := S (default 0%nat (counts !! step_id))]> counts
    | Split s => count_embed_step_ids (split_subgraph s) counts
    | While s => count_embed_step_ids (while_subgraph s) counts
    | _ => counts
    end) counts (steps graph).

(** The children by workflow id, the first of each id; the root is its own. *)
Definition closure_children_map (root_workflow_id : string) (root : ExecutionGraph)
  (children : list ClosureChildGraph) : gmap string ExecutionGraph :=
  foldl (λ m child,
    match m !! ccg_workflow_id child with
    | Some _ => m
    | None => <[ccg_workflow_id child := ccg_execution_graph child]> m
    end) {[root_workflow_id := root]} children.

(** The first child of each [(workflow_id, version)]. *)
Fixpoint unique_children (seen : gset (string * Z)) (children : list ClosureChildGraph) :
  list ClosureChildGraph :=
  match children with
  | [] => []
  | child :: children =>
      let key := (ccg_workflow_id child, ccg_version child) in
      if decide (key ∈ seen) then unique_children seen children
      else child :: unique_children ({[key]} ∪ seen) children
  end.

Definition duplicate_embed_ids (graphs : list ExecutionGraph) : ValidationResult :=
  let counts := foldl (λ c g, count_embed_step_ids g c) ∅ graphs in
  let duplicate_ids := sorted (filter (λ kv, 1 < kv.2)%nat (map_to_list counts)).*1 in
  for_each duplicate_ids (λ step_id, push_error (DuplicateEmbedStepId step_id)).

(** The report of one child. *)
Definition child_report (catalog : AgentCatalog) (children_map : gmap string ExecutionGraph)
  (child : ClosureChildGraph) : ChildValidationReport :=
  let g := ccg_execution_graph child in
  {| cvr_workflow_id := ccg_workflow_id child; cvr_version := ccg_version child;
     cvr_result := validate_workflow g catalog ⊕ report_missing_child_references g children_map
                   ⊕ validate_embed_workflow_inputs g children_map |}.

Definition validate_workflow_closure (root_workflow_id : string) (root : ExecutionGraph)
  (catalog : AgentCatalog) (children : list ClosureChildGraph) : ClosureValidationReport :=
  let children_map := closure_children_map root_workflow_id root children in
  let root_result :=
    validate_workflow root catalog
    ⊕ report_missing_child_references root children_map
    ⊕ validate_closure_cycles root_workflow_id root children_map in
  let root_result :=
    root_result ⊕ when (negb (has_circular root_result))
                    (validate_embed_workflow_inputs root children_map) in
  let unique := unique_children ∅ children in
  {| root_result := root_result ⊕ duplicate_embed_ids (root :: (ccg_execution_graph <$> unique));
     children_reports := child_report catalog children_map <$> unique |}.

End workflow.

(** * Validation: concrete parameters and workflows

    Instances of the validator's parameters (the Unicode tables, the static analysis
    of templates, the decoder of conditions), a catalog, and small workflows for the
    witnesses and examples. *)

(** ASCII letters and digits. *)
Definition ascii_data : UnicodeData :=
  {| to_lowercase := to_ascii_lowercase; is_alphanumeric := all_chars is_ascii_alphanumeric |}.

(** Templates without references, and no conditions as immediate values. *)
Definition no_references : @StaticTemplates text_engine := λ _ _, [].
Definition no_conditions : ConditionCodec := λ _, Err "not a condition".

Definition demo_catalog : AgentCatalog :=
  {| agents := [{| info_id := "http"; supports_connections := true;
                   info_capabilities := [{| cap_id := "request"; cap_inputs := [];
                                                              cap_rate_limited := false; cap_tags := [] |}] |}] |}.

Definition path (p : string) : MappingValue :=
  Reference {| ref_value := p; ref_type_hint := None; ref_default := None |}.

(** An object whose fields are [m], and an array of [f]. *)
Definition object_field (m : gmap string SchemaField) : SchemaField :=
  {| (plain_field FtObject) with required := true; properties := Some m |}.
Definition array_field (f : SchemaField) : SchemaField :=
  {| (plain_field FtArray) with required := true; items := Some f |}.

Definition typed_graph (s : gmap string Step) (entry : string) (plan : list ExecutionPlanEdge)
  (schema : gmap string SchemaField) : ExecutionGraph :=
  Graph {| gb_steps := s; gb_entry_point := entry; gb_execution_plan := plan;
           gb_variables := ∅; gb_input_schema := schema; gb_output_schema := ∅;
           gb_durable := None; gb_name := None;
           gb_rate_limit_budget_ms := default_rate_limit_budget_ms; gb_breakpoints := ∅ |}.

(** [steps.fetch.outputs.count > 0] *)
Definition some_orders : ConditionExpression :=
  Operation OpGt [ArgValue (path "steps.fetch.outputs.count"); ArgValue (Immediate (JNumber (PosInt 0)))].

(** The body of the Split: it finishes with the index of the item. *)
Definition each_order : ExecutionGraph :=
  plain_graph {["keep" := Finish {| finish_name := Some "keep one";
                  finish_input_mapping := Some {["at" := path "variables._index"]} |}]} "keep" [].

(** Fetch orders; if there are any, go through them; finish with what was found. *)
Definition orders : ExecutionGraph :=
  typed_graph
    {["fetch" := Agent plain_agent;
      "check" := Conditional {| conditional_name := Some "any orders"; conditional_condition := some_orders |};
      "each" := Split {| split_name := None; split_subgraph := each_order;
                         split_config := Some {| split_value := path "data.customer.orders";
                           parallelism := None; sequential := None; dont_stop_on_failed := None;
                           split_variables := None; split_max_retries := None;
                           split_retry_delay := None; split_timeout := None; allow_null := None;
                           convert_single_value := None; batch_size := None |};
                         split_input_schema := ∅; split_output_schema := ∅; split_durable := None |};
      "done" := Finish {| finish_name := None;
                  finish_input_mapping := Some {["kept" := path "steps.each.outputs"]} |}]}
    "fetch"
    [edge "fetch" "check";
     {| (edge "check" "each") with label := Some "true" |};
     {| (edge "check" "done") with label := Some "false" |};
     edge "each" "done"]
    {["customer" := object_field {["orders" := array_field (plain_field FtString)]}]}.

#[local] Existing Instances text_engine ascii_data no_references no_conditions.

(** The validator has nothing to say about it. *)
Lemma orders_accepted : validate_workflow orders demo_catalog = no_issues.
Proof. vm_compute. reflexivity. Qed.

(** A wait step whose [onWait] graph is [h]. *)
Definition waiting_on (h : ExecutionGraph) : Step :=
  WaitForSignal {| wait_name := None; on_wait := Some h; timeout_ms := None; poll_interval_ms := None;
                   response_schema := None; action := None |}.

(** * A workflow with the same step id in two loops

    Two Splits over the orders and over the refunds of a customer; the body of each calls
    an agent at a step with the same id.  The validator accepts it: names are unique
    in the whole workflow, step ids only within a graph. *)

(** Calls the agent at the step [call] and finishes with what it returned. *)
Definition calling_body (name : string) : ExecutionGraph :=
  plain_graph {["call" := Agent plain_agent;
                "done" := Finish {| finish_name := Some name;
                  finish_input_mapping := Some {["got" := path "steps.call.outputs"]} |}]}
    "call" [edge "call" "done"].

Definition loop_over (list_path : string) (name : string) : Step :=
  Split {| split_name := Some name; split_subgraph := calling_body (name +:+ " done");
           split_config := Some {| split_value := path list_path;
             parallelism := None; sequential := None; dont_stop_on_failed := None;
             split_variables := None; split_max_retries := None;
             split_retry_delay := None; split_timeout := None; allow_null := None;
             convert_single_value := None; batch_size := None |};
           split_input_schema := ∅; split_output_schema := ∅; split_durable := None |}.

Definition twin_loops : ExecutionGraph :=
  typed_graph
    {["orders" := loop_over "data.customer.orders" "each order";
      "refunds" := loop_over "data.customer.refunds" "each refund";
      "done" := Finish {| finish_name := None;
                  finish_input_mapping := Some {["kept" := path "steps.orders.outputs"]} |}]}
    "orders" [edge "orders" "refunds"; edge "refunds" "done"]
    {["customer" := object_field {["orders" := array_field (plain_field FtString);
                                   "refunds" := array_field (plain_field FtString)]}]}.

(** What the validator reports for it. *)
Definition twin_loops_errors : list ValidationError := errors (validate_workflow twin_loops demo_catalog).

Lemma twin_loops_accepted : twin_loops_errors = [].
Proof. vm_compute. reflexivity. Qed.
