(* ===== verification/ValidationLemmas.v ===== *)
(** * Validation: the lemmas the theorems share

    When a result has no errors, for every way results are composed; the relation
    of a graph to its subgraphs and induction over it; the searches over the plan
    against reachability. *)

From S2P Require Import Prelude.
From S2P Require Import Json.
From S2P Require Import Text.
From S2P Require Import Dsl.
From S2P Require Import ValidationBase.

(** ** Results without errors *)

(** No errors; warnings are allowed. *)
Definition clean (r : ValidationResult) : Prop := errors r = [].

Create Rewrite HintDb clean.

Lemma clean_no_issues : clean no_issues ↔ True.
Proof. done. Qed.

Lemma clean_push_error e : clean (push_error e) ↔ False.
Proof. done. Qed.

Lemma clean_push_warning w : clean (push_warning w) ↔ True.
Proof. done. Qed.

Lemma clean_merge r s : clean (r ⊕ s) ↔ clean r ∧ clean s.
Proof. apply app_nil. Qed.

Lemma clean_when b r : clean (when b r) ↔ (b = true → clean r).
Proof. destruct b; simpl; [naive_solver|]. split; [discriminate|]. intros _. done. Qed.

Lemma clean_reject b e : clean (when b (push_error e)) ↔ b = false.
Proof. destruct b; simpl; [by rewrite clean_push_error|done]. Qed.

Lemma clean_reject_decide (P : Prop) `{Decision P} e :
  clean (when (bool_decide P) (push_error e)) ↔ ¬ P.
Proof. rewrite clean_reject. apply bool_decide_eq_false. Qed.

Lemma clean_warn b w : clean (when b (push_warning w)) ↔ True.
Proof. by destruct b. Qed.

Lemma clean_for_each {A} (l : list A) f : clean (for_each l f) ↔ ∀ x, x ∈ l → clean (f x).
Proof.
  induction l as [|x l IH]; simpl.
  - split; [intros _ x Hx; by apply not_elem_of_nil in Hx|done].
  - rewrite clean_merge, IH. setoid_rewrite elem_of_cons. naive_solver.
Qed.

Lemma for_entries_list {A} (m : gmap string A) f :
  for_entries m f = for_each (map_to_list m) (λ kv, f kv.1 kv.2).
Proof.
  unfold for_entries, for_each. rewrite map_fold_foldr.
  generalize (map_to_list m). intros l. induction l as [|[k a] l IH]; [done|].
  simpl. by rewrite IH.
Qed.

Lemma clean_for_entries {A} (m : gmap string A) f :
  clean (for_entries m f) ↔ ∀ k a, m !! k = Some a → clean (f k a).
Proof.
  rewrite for_entries_list, clean_for_each. split.
  - intros H k a Ha. by apply (H (k, a)), elem_of_map_to_list.
  - intros H [k a] Ha. by apply H, elem_of_map_to_list.
Qed.

#[export] Hint Rewrite clean_no_issues clean_push_error clean_push_warning clean_merge clean_warn
  clean_when @clean_for_each @clean_for_entries : clean.

Lemma result_is_ok_clean r : result_is_ok r = true ↔ clean r.
Proof. apply bool_decide_eq_true. Qed.

(** ** Subgraphs *)

(** The graph inside a Split or a While step of [g]. *)
Inductive subgraph (g : ExecutionGraph) : ExecutionGraph → Prop :=
| subgraph_split id s : steps g !! id = Some (Split s) → subgraph g (split_subgraph s)
| subgraph_while id s : steps g !! id = Some (While s) → subgraph g (while_subgraph s).

(** The [onWait] graphs as well. *)
Inductive inner_graph (g : ExecutionGraph) : ExecutionGraph → Prop :=
| inner_subgraph h : subgraph g h → inner_graph g h
| inner_on_wait id s h : steps g !! id = Some (WaitForSignal s) → on_wait s = Some h → inner_graph g h.

#[export] Hint Constructors subgraph inner_graph : core.

Fixpoint graph_size (g : ExecutionGraph) : nat :=
  S (map_fold (λ _ step n,
       match step with
       | Split s => graph_size (split_subgraph s)
       | While s => graph_size (while_subgraph s)
       | WaitForSignal s => match on_wait s with Some h => graph_size h | None => 0 end
       | _ => 0
       end + n)%nat 0%nat (steps g)).

Lemma map_fold_sum_le {A} (f : A → nat) (m : gmap string A) k a :
  m !! k = Some a → (f a ≤ map_fold (λ _ a n, f a + n)%nat 0%nat m)%nat.
Proof.
  intros Ha. rewrite map_fold_foldr. apply elem_of_map_to_list in Ha.
  induction (map_to_list m) as [|[k' a'] l IH]; [by apply not_elem_of_nil in Ha|].
  simpl. apply elem_of_cons in Ha as [[= -> ->]|Ha]; [lia|]. apply IH in Ha. lia.
Qed.

(** The size of the graphs inside a step. *)
Definition step_size (step : Step) : nat :=
  match step with
  | Split s => graph_size (split_subgraph s)
  | While s => graph_size (while_subgraph s)
  | WaitForSignal s => match on_wait s with Some h => graph_size h | None => 0 end
  | _ => 0
  end.

Lemma inner_graph_size g h : inner_graph g h → (graph_size h < graph_size g)%nat.
Proof.
  intros Hin.
  assert (∃ k step, steps g !! k = Some step ∧ step_size step = graph_size h)
    as (k & step & Hk & <-).
  { destruct Hin as [h [k s Hk|k s Hk]|k s h Hk Hw]; eexists k, _; split; try exact Hk; try done.
    simpl. by rewrite Hw. }
  destruct g as [b]. apply Nat.lt_succ_r. exact (map_fold_sum_le step_size _ k step Hk).
Qed.

(** Induction over graphs: a property of all inner graphs is one of the graph. *)
Lemma graph_ind (P : ExecutionGraph → Prop) :
  (∀ g, (∀ h, inner_graph g h → P h) → P g) → ∀ g, P g.
Proof.
  intros HP g. induction (well_founded_ltof _ graph_size g) as [g _ IH].
  apply HP. intros h Hh. apply IH. by apply inner_graph_size.
Qed.

(** The recursion of a phase into its subgraphs. *)
Lemma clean_subgraphs (F : ExecutionGraph → ValidationResult) g :
  clean (for_entries (steps g) (λ _ step,
    match step with
    | Split s => F (split_subgraph s)
    | While s => F (while_subgraph s)
    | _ => no_issues
    end)) ↔ ∀ h, subgraph g h → clean (F h).
Proof.
  rewrite clean_for_entries. split.
  - intros H h [id s Hs|id s Hs]; apply (H _ _ Hs).
  - intros H id step Hs. destruct step; try done; eauto.
Qed.

(** A phase that checks a graph and then its subgraphs has no errors exactly when
    the check of every nested graph passes. *)
Lemma clean_nested (F : ExecutionGraph → ValidationResult) (P : ExecutionGraph → Prop) :
  (∀ g, clean (F g) ↔ P g ∧ ∀ h, subgraph g h → clean (F h)) →
  ∀ g, clean (F g) ↔ ∀ h, rtc subgraph g h → P h.
Proof.
  intros HF g. split.
  - intros Hg h Hh. induction Hh as [g|g g' h Hgg' _ IH]; apply HF in Hg as [HL Hsub]; auto.
  - induction g as [g IH] using graph_ind. intros H. apply HF. split.
    + apply H. constructor.
    + intros h Hh. apply IH; [by constructor|]. intros h' Hh'. apply H. by eapply rtc_l.
Qed.

(** ** Adjacency *)

(** [y] is listed for [x]. *)
Definition adjacent (adj : gmap string (list string)) (x y : string) : Prop :=
  y ∈ default [] (adj !! x).

(** An edge of the plan from [x] to [y], and one that is not an error handler. *)
Definition plan_edge (g : ExecutionGraph) (x y : string) : Prop :=
  ∃ e, e ∈ execution_plan g ∧ from_step e = x ∧ to_step e = y.

Definition flow_edge (g : ExecutionGraph) (x y : string) : Prop :=
  ∃ e, e ∈ execution_plan g ∧ from_step e = x ∧ to_step e = y ∧ label e ≠ Some "onError".

(** The fold that lists the values of each key, for any key and value. *)
Lemma group_lookup {K A B} `{Countable K} (key : A → K) (val : A → B) (l : list A)
  (m : gmap K (list B)) k :
  default [] (foldl (λ m a, <[key a := default [] (m !! key a) ++ [val a]]> m) m l !! k)
  = default [] (m !! k) ++ (val <$> filter (λ a, key a = k) l).
Proof.
  revert m. induction l as [|a l IH]; intros m; [by rewrite app_nil_r|].
  simpl. rewrite IH, filter_cons. case_decide as Hk; subst.
  - rewrite lookup_insert_eq. simpl. by rewrite <-(assoc_L (++)).
  - by rewrite lookup_insert_ne.
Qed.

Lemma build_adjacency_adjacent g x y : adjacent (build_adjacency g) x y ↔ plan_edge g x y.
Proof.
  unfold adjacent, build_adjacency, plan_edge.
  rewrite (group_lookup from_step to_step), lookup_empty. simpl.
  rewrite list_elem_of_fmap. setoid_rewrite list_elem_of_filter. naive_solver.
Qed.

Lemma foldl_filter {A B} (P : A → bool) (f : B → A → B) l b :
  foldl (λ b a, if P a then f b a else b) b l = foldl f b (filter (λ a, P a = true) l).
Proof.
  revert b. induction l as [|a l IH]; intros b; [done|]. simpl. rewrite filter_cons, IH.
  case_decide as Ha; [by rewrite Ha|]. by destruct (P a).
Qed.

Lemma normal_flow_adjacency_adjacent g x y :
  adjacent (normal_flow_adjacency g) x y ↔ flow_edge g x y.
Proof.
  unfold adjacent, normal_flow_adjacency, flow_edge.
  rewrite (foldl_filter (λ e, bool_decide (label e ≠ Some "onError"))
    (λ adj e, <[from_step e := default [] (adj !! from_step e) ++ [to_step e]]> adj)).
  rewrite (group_lookup from_step to_step), lookup_empty. simpl.
  rewrite list_elem_of_fmap. setoid_rewrite list_elem_of_filter.
  setoid_rewrite list_elem_of_filter. setoid_rewrite bool_decide_eq_true. naive_solver.
Qed.

(** ** Searches *)

(** The entries a search can still put on its worklist. *)
Definition pending (adj : gmap string (list string)) (visited : gset string) : nat :=
  map_fold (λ _ targets n, length targets + n)%nat 0%nat (filter (λ kv, kv.1 ∉ visited) adj).

Lemma map_fold_length_insert (m : gmap string (list string)) x t :
  m !! x = None →
  map_fold (λ _ targets n, length targets + n)%nat 0%nat (<[x:=t]> m)
  = (length t + map_fold (λ _ targets n, length targets + n)%nat 0%nat m)%nat.
Proof. intros Hx. apply (map_fold_insert_L (λ _ targets n, length targets + n)%nat); [lia|done]. Qed.

(** Visiting a step takes its targets out of what is pending. *)
Lemma pending_visit adj visited x :
  x ∉ visited →
  pending adj visited = (length (default [] (adj !! x)) + pending adj ({[x]} ∪ visited))%nat.
Proof.
  intros Hx. unfold pending. destruct (adj !! x) as [t|] eqn:Ht; simpl.
  - rewrite <-(map_fold_length_insert _ x).
    2: { apply map_lookup_filter_None. right. intros v Hv. simpl. set_solver. }
    apply (f_equal (map_fold _ _)). apply map_eq. intros k. destruct (decide (k = x)) as [->|Hne].
    + rewrite lookup_insert_eq. by apply map_lookup_filter_Some.
    + rewrite lookup_insert_ne by done. apply option_eq. intros v.
      rewrite !map_lookup_filter_Some. set_solver.
  - apply (f_equal (map_fold _ _)). apply map_eq. intros k. apply option_eq. intros v.
    rewrite !map_lookup_filter_Some. simpl.
    split; intros [Hk ?]; (split; [done|]); [|set_solver].
    intros [->%elem_of_singleton|?]%elem_of_union; [congruence|done].
Qed.

Lemma pending_start adj : S (pending adj ∅) = path_rounds adj.
Proof.
  unfold path_rounds, pending. do 2 f_equal. apply map_filter_id. intros. simpl. set_solver.
Qed.

(** The state of a search from [start]: the visited steps are reached, the
    worklist holds what is reached but not visited. *)
Record searching (R : string → string → Prop) (start : string) (visited : gset string)
  (work : list string) : Prop := {
  se_start : start ∈ visited ∨ start ∈ work;
  se_closed x y : x ∈ visited → R x y → y ∈ visited ∨ y ∈ work;
  se_sound x : x ∈ visited ∨ x ∈ work → rtc R start x }.

Lemma searching_start R start : searching R start ∅ [start].
Proof.
  split; [right; by left|set_solver|].
  intros x [H|H]; [set_solver|]. apply list_elem_of_singleton in H as ->. constructor.
Qed.

Lemma searching_done R start visited x :
  searching R start visited [] → x ∈ visited ↔ rtc R start x.
Proof.
  intros [H1 H2 H3]. split; [intros Hx; apply H3; by left|].
  assert (Hs : start ∈ visited) by (destruct H1 as [|H%not_elem_of_nil]; done).
  intros Hx. clear H1 H3. induction Hx as [a|a b c Hab _ IH]; [done|]. apply IH.
  destruct (H2 a b Hs Hab) as [|H%not_elem_of_nil]; done.
Qed.

Lemma searching_skip R start visited x work :
  x ∈ visited → searching R start visited (x :: work) → searching R start visited work.
Proof.
  intros Hx [H1 H2 H3].
  assert (Hq : ∀ y, y ∈ visited ∨ y ∈ x :: work → y ∈ visited ∨ y ∈ work) by set_solver.
  split; [auto|intros; apply Hq; eauto|]. intros y [Hy|Hy]; apply H3; [by left|right; by right].
Qed.

(** Visiting [x]: [work'] holds the rest and the unvisited neighbours of [x]. *)
Lemma searching_visit R start visited x work work' :
  searching R start visited (x :: work) →
  (∀ y, y ∈ work' ↔ y ∈ work ∨ (R x y ∧ y ∉ {[x]} ∪ visited)) →
  searching R start ({[x]} ∪ visited) work'.
Proof.
  intros [H1 H2 H3] Hw. split.
  - destruct H1 as [H1|[->|H1]%elem_of_cons]; [set_solver|set_solver|].
    right. apply Hw. by left.
  - intros y z Hy Hyz. destruct (decide (z ∈ ({[x]} ∪ visited : gset string))) as [|Hz];
      [by left|]. right. apply Hw.
    apply elem_of_union in Hy as [->%elem_of_singleton|Hy]; [by right|].
    destruct (H2 y z Hy Hyz) as [Hv|[->|Hq]%elem_of_cons]; [set_solver|set_solver|by left].
  - assert (Hrx : rtc R start x) by (apply H3; right; by left).
    intros y [[->%elem_of_singleton|Hy]%elem_of_union|Hy]; [done|apply H3; by left|].
    apply Hw in Hy as [Hy|[Hy _]]; [apply H3; right; by right|by eapply rtc_r].
Qed.

(** The unvisited neighbours, counted. *)
Lemma pending_neighbors adj visited x n fuel :
  x ∉ visited → (S n + pending adj visited ≤ S fuel)%nat →
  (length (filter (λ y, y ∉ {[x]} ∪ visited) (default [] (adj !! x))) + n
   + pending adj ({[x]} ∪ visited) ≤ fuel)%nat.
Proof.
  intros Hx Hf. rewrite (pending_visit _ _ x Hx) in Hf.
  pose proof (length_filter (λ y, y ∉ {[x]} ∪ visited) (default [] (adj !! x))). lia.
Qed.

Lemma reachable_loop_exact fuel adj start visited stack :
  searching (adjacent adj) start visited stack →
  (length stack + pending adj visited ≤ fuel)%nat →
  ∃ s, reachable_loop fuel adj visited stack = Some s ∧
    ∀ x, x ∈ s ↔ rtc (adjacent adj) start x.
Proof.
  revert visited stack. induction fuel as [|fuel IH]; intros visited [|x stack] Hs Hf;
    simpl in Hf; try lia.
  1,2: exists visited; split; [done|]; intros y; by eapply searching_done.
  simpl. case_decide as Hx.
  - apply IH; [by eapply searching_skip|lia].
  - apply IH.
    + eapply searching_visit; [done|]. intros y.
      rewrite elem_of_app, elem_of_reverse, list_elem_of_filter. unfold adjacent. tauto.
    + rewrite length_app, length_reverse. by apply pending_neighbors.
Qed.

Lemma reachable_from_exact adj start x :
  x ∈ default ∅ (reachable_loop (path_rounds adj) adj ∅ [start]) ↔ rtc (adjacent adj) start x.
Proof.
  destruct (reachable_loop_exact (path_rounds adj) adj start ∅ [start]) as (s & -> & Hs).
  - apply searching_start.
  - by rewrite <-pending_start.
  - apply Hs.
Qed.

Lemma has_path_loop_exact fuel adj from to visited queue :
  searching (adjacent adj) from visited queue → to ∉ visited →
  (length queue + pending adj visited ≤ fuel)%nat →
  ∃ b, has_path_loop fuel adj to visited queue = Some b ∧ (b = true ↔ rtc (adjacent adj) from to).
Proof.
  revert visited queue. induction fuel as [|fuel IH]; intros visited [|x queue] Hs Hto Hf;
    simpl in Hf; try lia.
  1,2: exists false; split; [done|]; rewrite <-(searching_done _ _ _ _ Hs); naive_solver.
  simpl. case_decide as Hxt; [|case_decide as Hx].
  - exists true. split; [done|]. split; [|done]. intros _. apply Hs. right. subst. by left.
  - apply IH; [by eapply searching_skip|done|lia].
  - apply IH.
    + eapply searching_visit; [done|]. intros y.
      rewrite elem_of_app, list_elem_of_filter. unfold adjacent. tauto.
    + set_solver.
    + rewrite length_app, Nat.add_comm. apply (pending_neighbors _ _ _ _ fuel Hx) in Hf. lia.
Qed.

Lemma has_path_exact adj from to : has_path adj from to = true ↔ rtc (adjacent adj) from to.
Proof.
  unfold has_path.
  destruct (has_path_loop_exact (path_rounds adj) adj from to ∅ [from]) as (b & -> & Hb).
  - apply searching_start.
  - set_solver.
  - by rewrite <-pending_start.
  - apply Hb.
Qed.

Lemma rtc_iff {A} (R S : A → A → Prop) x y : (∀ a b, R a b ↔ S a b) → rtc R x y ↔ rtc S x y.
Proof. intros H. split; apply rtc_subrel; intros a b; apply H. Qed.

Lemma compute_reachable_exact g x :
  x ∈ compute_reachable_steps g ↔ rtc (plan_edge g) (entry_point g) x.
Proof.
  unfold compute_reachable_steps. rewrite reachable_from_exact. apply rtc_iff.
  intros. apply build_adjacency_adjacent.
Qed.

Lemma reachable_over_normal_flow_exact g start x :
  x ∈ reachable_over_normal_flow g start ↔ rtc (flow_edge g) start x.
Proof.
  unfold reachable_over_normal_flow. rewrite reachable_from_exact. apply rtc_iff.
  intros. apply normal_flow_adjacency_adjacent.
Qed.

(** ** Mapping values *)

Fixpoint value_size (v : MappingValue) : nat :=
  match v with
  | CompositeObject m => S (map_fold (λ _ v n, value_size v + n)%nat 0%nat m)
  | CompositeArray l => S (foldr (λ v n, value_size v + n)%nat 0%nat l)
  | _ => 1
  end.

(** [w] is an entry of the composite [v]. *)
Inductive component : MappingValue → MappingValue → Prop :=
| component_entry m k w : m !! k = Some w → component (CompositeObject m) w
| component_element l w : w ∈ l → component (CompositeArray l) w.

Lemma component_size v w : component v w → (value_size w < value_size v)%nat.
Proof.
  intros [m k w' Hk|l w' Hw]; simpl; apply Nat.lt_succ_r.
  - exact (map_fold_sum_le value_size m k w' Hk).
  - induction Hw as [|? ? ? _ IH]; simpl; lia.
Qed.

Lemma mapping_value_ind (P : MappingValue → Prop) :
  (∀ v, (∀ w, component v w → P w) → P v) → ∀ v, P v.
Proof.
  intros HP v. induction (well_founded_ltof _ value_size v) as [v _ IH].
  apply HP. intros w Hw. apply IH. by apply component_size.
Qed.

(** The reference paths that occur in a value, at any depth. *)
Inductive mentions : MappingValue → string → Prop :=
| mentions_here r : mentions (Reference r) (ref_value r)
| mentions_inside v w p : component v w → mentions w p → mentions v p.

Lemma elem_of_map_fold_app {A B} (f : A → list B) (m : gmap string A) x :
  x ∈ map_fold (λ _ a rest, f a ++ rest) [] m ↔ ∃ k a, m !! k = Some a ∧ x ∈ f a.
Proof.
  rewrite map_fold_foldr. setoid_rewrite <-elem_of_map_to_list.
  induction (map_to_list m) as [|[k a] l IH]; simpl.
  - rewrite elem_of_nil. setoid_rewrite elem_of_nil. naive_solver.
  - rewrite elem_of_app, IH. setoid_rewrite elem_of_cons. naive_solver.
Qed.

Lemma elem_of_flat_map {A B} (f : A → list B) (l : list A) x :
  x ∈ flat_map f l ↔ ∃ a, a ∈ l ∧ x ∈ f a.
Proof. rewrite list_elem_of_In, in_flat_map. setoid_rewrite <-list_elem_of_In. done. Qed.

Lemma elem_of_option_list {A} (o : option A) x : x ∈ option_list o ↔ o = Some x.
Proof.
  destruct o as [a|]; simpl; [rewrite list_elem_of_singleton|rewrite elem_of_nil]; naive_solver.
Qed.
