(* ===== verification/ValidationProperties.v ===== *)
(** * Validation: what an accepted graph satisfies

    The phases on steps and edges against their meaning: entry point, reachability,
    edge endpoints, the groups of edges a step leaves by, references to steps that
    run before.  An accepted workflow satisfies them in the graph and in every
    subgraph of a Split or a While, at any depth. *)

From S2P Require Import Prelude.
From S2P Require Import Json.
From S2P Require Import Text.
From S2P Require Import GuestExpr.
From S2P Require Import GuestScenarios.
From S2P Require Import Dsl.
From S2P Require Import ValidationBase.
From S2P Require Import ValidationGraph.
From S2P Require Import ValidationRefs.
From S2P Require Import ValidationTemplates.
From S2P Require Import ValidationAgents.
From S2P Require Import Validation.
From S2P Require Import ValidationLemmas.

(** Booleans as propositions. *)
Ltac to_prop :=
  repeat match goal with
  | H : context [bool_decide _ = true] |- _ => setoid_rewrite bool_decide_eq_true in H
  | H : context [_ && _ = true] |- _ => setoid_rewrite andb_true_iff in H
  | H : context [negb _ = true] |- _ => setoid_rewrite negb_true_iff in H
  | |- context [bool_decide _ = true] => setoid_rewrite bool_decide_eq_true
  | |- context [_ && _ = true] => setoid_rewrite andb_true_iff
  | |- context [negb _ = true] => setoid_rewrite negb_true_iff
  end.

(** ** Phase 1: structure *)

(** The entry point is a step, and every step is reached from it. *)
Record structured (g : ExecutionGraph) : Prop := {
  st_entry : is_Some (steps g !! entry_point g);
  st_reached id : is_Some (steps g !! id) → rtc (plan_edge g) (entry_point g) id }.

Lemma clean_unreachable_steps g :
  clean (unreachable_steps g) ↔
  ∀ id, is_Some (steps g !! id) → rtc (plan_edge g) (entry_point g) id.
Proof.
  unfold unreachable_steps. rewrite clean_for_entries.
  setoid_rewrite clean_reject_decide. setoid_rewrite <-compute_reachable_exact. split.
  - intros H id [step Hs]. by eapply dec_stable, H.
  - intros H id step Hs Hn. apply Hn, H. by eexists.
Qed.

Lemma clean_dangling_steps g : clean (dangling_steps g).
Proof. unfold dangling_steps. rewrite clean_for_entries. intros. by apply clean_when. Qed.

Lemma clean_structure_step g :
  clean (validate_graph_structure g) ↔
  structured g ∧ ∀ h, subgraph g h → clean (validate_graph_structure h).
Proof.
  destruct g as [b]. cbn [validate_graph_structure]. case_decide as He; [|case_decide as Hentry].
  - split; [done|]. intros [[[s Hs] _] _]. rewrite He, lookup_empty in Hs. done.
  - rewrite !clean_merge, clean_unreachable_steps, (clean_subgraphs validate_graph_structure).
    pose proof (clean_dangling_steps (Graph b)). split; [|intros [[] ?]; done].
    intros [[? _] ?]. done.
  - split; [done|]. intros [[] _]. done.
Qed.

(** ** Phase 1.1: endpoints *)

(** Both ends of every edge are steps. *)
Definition edges_bound (g : ExecutionGraph) : Prop :=
  ∀ e, e ∈ execution_plan g → is_Some (steps g !! from_step e) ∧ is_Some (steps g !! to_step e).

Lemma clean_edge_endpoints g : clean (edge_endpoints g) ↔ edges_bound g.
Proof.
  unfold edge_endpoints, edges_bound. rewrite clean_for_each.
  apply forall_proper. intros e. apply forall_proper. intros _.
  rewrite clean_merge, !clean_reject_decide, <-!not_eq_None_Some. naive_solver.
Qed.

(** ** Phase 10: the edges a step leaves by *)

(** The edges of a group, those with a condition and those without. *)
Definition leaving (g : ExecutionGraph) (k : string * option string) : list ExecutionPlanEdge :=
  filter (λ e, edge_group_key e = k) (execution_plan g).
Definition guarded (g : ExecutionGraph) (k : string * option string) : list ExecutionPlanEdge :=
  filter (λ e, has_condition e = true) (leaving g k).
Definition unguarded (g : ExecutionGraph) (k : string * option string) : list ExecutionPlanEdge :=
  filter (λ e, has_condition e = false) (leaving g k).

Definition conditional_at (g : ExecutionGraph) (x : string) : Prop :=
  ∃ s, steps g !! x = Some (Conditional s).

(** A Conditional step leaves by at most one edge for each outcome and by nothing
    else; of any other group at most one edge is the default, no two conditions
    have the same priority, and branches that all run meet again. *)
Record routed (g : ExecutionGraph) : Prop := {
  ro_branch_edge e :
    e ∈ execution_plan g → conditional_at g (from_step e) →
    (label e = Some "true" ∨ label e = Some "false") ∧ condition e = None ∧ priority e = None;
  ro_branch x l :
    conditional_at g x → l = "true" ∨ l = "false" → (length (leaving g (x, Some l)) ≤ 1)%nat;
  ro_default x l :
    ¬ conditional_at g x → is_Some l ∨ guarded g (x, l) ≠ [] →
    (length (unguarded g (x, l)) ≤ 1)%nat;
  ro_priority x l p :
    ¬ conditional_at g x →
    (length (filter (λ e, default 0%Z (priority e) = p) (guarded g (x, l))) ≤ 1)%nat;
  ro_fanout x :
    ¬ conditional_at g x → guarded g (x, None) = [] → (1 < length (unguarded g (x, None)))%nat →
    ∃ m, ∀ e, e ∈ unguarded g (x, None) → rtc (flow_edge g) (to_step e) m }.

Lemma clean_branch_edges g :
  clean (validate_conditional_branch_edges g) ↔
  ∀ e, e ∈ execution_plan g → conditional_at g (from_step e) →
    (label e = Some "true" ∨ label e = Some "false") ∧ condition e = None ∧ priority e = None.
Proof.
  unfold validate_conditional_branch_edges. rewrite clean_for_each.
  apply forall_proper. intros e. apply forall_proper. intros _. unfold conditional_at.
  destruct (steps g !! from_step e) as [[]|] eqn:Hs; try naive_solver.
  unfold conditional_edge_reason. rewrite negb_orb.
  destruct (condition e) eqn:Hc, (priority e) eqn:Hp;
    repeat case_bool_decide; simpl; rewrite ?clean_push_error; naive_solver.
Qed.

Lemma edges_by_from_label_lookup g k :
  (1 < length (leaving g k))%nat → edges_by_from_label g !! k = Some (leaving g k).
Proof.
  intros Hl. unfold edges_by_from_label.
  pose proof (group_lookup edge_group_key id (execution_plan g) ∅ k) as Hk.
  rewrite lookup_empty in Hk. simpl in Hk. rewrite list_fmap_id in Hk.
  destruct (foldl _ _ _ !! k) as [l|]; simpl in Hk; fold (leaving g k) in Hk; [by subst|].
  rewrite <-Hk in Hl. simpl in Hl. lia.
Qed.

Lemma edges_by_from_label_sound g k l : edges_by_from_label g !! k = Some l → l = leaving g k.
Proof.
  intros Hl. unfold edges_by_from_label in Hl.
  pose proof (group_lookup edge_group_key id (execution_plan g) ∅ k) as Hk.
  rewrite lookup_empty in Hk. simpl in Hk. by rewrite list_fmap_id, Hl in Hk.
Qed.

Lemma clean_edge_groups g :
  clean (edge_groups g) ↔
  ∀ x l, (1 < length (leaving g (x, l)))%nat → clean (edge_group g x l (leaving g (x, l))).
Proof.
  unfold edge_groups. rewrite clean_for_each. split.
  - intros H x l Hl. apply edges_by_from_label_lookup in Hl as Hm.
    apply elem_of_map_to_list in Hm. apply H in Hm. simpl in Hm. rewrite clean_when in Hm.
    apply Hm. by apply Nat.ltb_lt.
  - intros H [[x l] es] Hm%elem_of_map_to_list. apply edges_by_from_label_sound in Hm as ->.
    apply clean_when. intros Hl%Nat.ltb_lt. auto.
Qed.

Lemma clean_duplicate_priorities x l es :
  clean (duplicate_priorities x l es) ↔
  ∀ p, (length (filter (λ e, default 0%Z (priority e) = p) es) ≤ 1)%nat.
Proof.
  unfold duplicate_priorities. rewrite clean_for_each.
  set (m := foldl _ _ _).
  assert (Hm : ∀ p, default [] (m !! p) = to_step <$> filter (λ e, default 0%Z (priority e) = p) es).
  { intros p. subst m. by rewrite (group_lookup (λ e, default 0 (priority e)) to_step), lookup_empty. }
  split.
  - intros H p. specialize (Hm p). destruct (m !! p) as [ts|] eqn:Hp; simpl in Hm.
    + apply elem_of_map_to_list in Hp. apply H in Hp. simpl in Hp.
      rewrite clean_reject, Nat.ltb_ge in Hp. by rewrite Hm, length_fmap in Hp.
    + symmetry in Hm. apply fmap_nil_inv in Hm. rewrite Hm. simpl. lia.
  - intros H [p ts] Hp%elem_of_map_to_list. apply clean_reject, Nat.ltb_ge.
    specialize (Hm p). rewrite Hp in Hm. simpl in Hm. rewrite Hm, length_fmap. apply H.
Qed.

Lemma reconverge_exact g starts :
  parallel_branches_reconverge g starts = true ↔
  (1 < length starts)%nat ∧ ∃ m, ∀ s, s ∈ starts → rtc (flow_edge g) s m.
Proof.
  unfold parallel_branches_reconverge. destruct (Nat.ltb_spec (length starts) 2) as [Hl|Hl].
  { split; [done|]. lia. }
  destruct starts as [|s0 rest]; simpl in *; [lia|]. rewrite existsb_exists. split.
  - intros (m & Hm & Hall). split; [lia|]. exists m.
    apply list_elem_of_In, elem_of_elements in Hm. rewrite forallb_forall in Hall.
    intros s [->|Hs]%elem_of_cons; apply reachable_over_normal_flow_exact; [done|].
    apply (bool_decide_eq_true_1 _), Hall, list_elem_of_In, list_elem_of_fmap. eauto.
  - intros [_ [m Hm]]. exists m. split.
    + apply list_elem_of_In, elem_of_elements, reachable_over_normal_flow_exact, Hm. by left.
    + apply forallb_forall. intros set Hset%list_elem_of_In%list_elem_of_fmap.
      destruct Hset as (s & -> & Hs). apply bool_decide_eq_true_2,
        reachable_over_normal_flow_exact, Hm. by right.
Qed.

(** The checks of a group, for a step that is not a Conditional. *)
Lemma clean_edge_group g x l :
  ¬ conditional_at g x →
  clean (edge_group g x l (leaving g (x, l))) ↔
  ((1 < length (unguarded g (x, l)))%nat → ¬ (is_Some l ∨ guarded g (x, l) ≠ [])) ∧
  (l = None → guarded g (x, l) = [] → (1 < length (unguarded g (x, l)))%nat →
     ∃ m, ∀ e, e ∈ unguarded g (x, l) → rtc (flow_edge g) (to_step e) m) ∧
  (∀ p, (length (filter (λ e, default 0%Z (priority e) = p) (guarded g (x, l))) ≤ 1)%nat).
Proof.
  intros Hx. unfold edge_group.
  assert (Hm : ∀ R : Step → ValidationResult, ∀ S, match steps g !! x with
    | Some (Conditional s) => R (Conditional s) | _ => S end = S).
  { intros R S. unfold conditional_at in Hx. destruct (steps g !! x) as [[]|]; naive_solver. }
  rewrite (Hm (λ _, _)). fold (guarded g (x, l)) (unguarded g (x, l)).
  rewrite !clean_merge, !clean_reject, !clean_when, clean_duplicate_priorities.
  rewrite !andb_false_iff, orb_false_iff, !negb_false_iff, !bool_decide_eq_false,
    bool_decide_eq_true, Nat.ltb_ge, Nat.ltb_lt, reconverge_exact, length_fmap.
  setoid_rewrite list_elem_of_fmap.
  assert (Hp : ((1 < length (guarded g (x, l)))%nat →
      ∀ p, (length (filter (λ e, default 0%Z (priority e) = p) (guarded g (x, l))) ≤ 1)%nat) ↔
    ∀ p, (length (filter (λ e, default 0%Z (priority e) = p) (guarded g (x, l))) ≤ 1)%nat).
  { split; [|done]. intros H p. destruct (decide (1 < length (guarded g (x, l)))%nat); [by apply H|].
    pose proof (length_filter (λ e, default 0%Z (priority e) = p) (guarded g (x, l))). lia. }
  assert (He : (∃ m, ∀ s, (∃ e, s = to_step e ∧ e ∈ unguarded g (x, l)) → rtc (flow_edge g) s m) ↔
    ∃ m, ∀ e, e ∈ unguarded g (x, l) → rtc (flow_edge g) (to_step e) m) by naive_solver.
  rewrite Hp, He, <-!Nat.nlt_ge, <-not_eq_None_Some.
  destruct (decide (1 < length (unguarded g (x, l)))%nat), (decide (l = None)),
    (decide (guarded g (x, l) = [])); tauto.
Qed.

Lemma length_group_part g k (P : ExecutionPlanEdge → Prop) `{∀ e, Decision (P e)} :
  (length (filter P (leaving g k)) ≤ length (leaving g k))%nat.
Proof. apply length_filter. Qed.

Lemma clean_routed g :
  clean (validate_conditional_branch_edges g ⊕ edge_groups g) ↔ routed g.
Proof.
  rewrite clean_merge, clean_branch_edges, clean_edge_groups.
  assert (Hd : ∀ x, conditional_at g x ∨ ¬ conditional_at g x).
  { intros x. unfold conditional_at. destruct (steps g !! x) as [[]|]; eauto;
      right; intros [? [=]]. }
  assert (Hbr : ∀ x s l, steps g !! x = Some (Conditional s) →
    clean (edge_group g x l (leaving g (x, l))) ↔ l ≠ Some "true" ∧ l ≠ Some "false").
  { intros x s l Hs. unfold edge_group. rewrite Hs, clean_reject, orb_false_iff,
      !bool_decide_eq_false. done. }
  split.
  - intros [Hb Hg]. split; [done| | | |].
    + intros x l [s Hs] Hl. apply Nat.nlt_ge. intros Hlen. apply Hg in Hlen.
      rewrite (Hbr _ _ _ Hs) in Hlen. naive_solver.
    + intros x l Hx Hl. apply Nat.nlt_ge. intros Hu.
      pose proof (length_group_part g (x, l) (λ e, has_condition e = false)).
      assert (Hlen : (1 < length (leaving g (x, l)))%nat) by (unfold unguarded in Hu; lia).
      apply Hg, clean_edge_group in Hlen; [|done]. by apply Hlen.
    + intros x l p Hx. destruct (decide (1 < length (leaving g (x, l)))%nat) as [Hlen|Hlen].
      * apply Hg, clean_edge_group in Hlen; [|done]. by apply Hlen.
      * pose proof (length_group_part g (x, l) (λ e, has_condition e = true)).
        pose proof (length_filter (λ e, default 0%Z (priority e) = p) (guarded g (x, l))).
        unfold guarded in *. lia.
    + intros x Hx Hgd Hu. pose proof (length_group_part g (x, None) (λ e, has_condition e = false)).
      assert (Hlen : (1 < length (leaving g (x, None)))%nat) by (unfold unguarded in Hu; lia).
      apply Hg, clean_edge_group in Hlen; [|done]. by apply Hlen.
  - intros [Hb Hbranch Hdef Hprio Hfan]. split; [done|]. intros x l Hlen.
    destruct (Hd x) as [[s Hs]|Hx].
    + apply (Hbr _ _ _ Hs). split; intros ->.
      * specialize (Hbranch x "true" (ex_intro _ s Hs) (or_introl eq_refl)). lia.
      * specialize (Hbranch x "false" (ex_intro _ s Hs) (or_intror eq_refl)). lia.
    + apply clean_edge_group; [done|]. split; [|split].
      * intros Hu Hl. specialize (Hdef x l Hx Hl). lia.
      * intros -> Hgd Hu. by apply Hfan.
      * intros p. by apply Hprio.
Qed.

(** ** Phase 2.5: steps that ran before *)

Lemma extract_step_ids_exact v x :
  x ∈ extract_step_ids_from_mapping_value v ↔
  ∃ p, mentions v p ∧ extract_step_id_from_reference p = Some x.
Proof.
  induction v as [v IH] using mapping_value_ind. destruct v as [r|j|m|l|t]; simpl.
  - rewrite elem_of_option_list. split; [intros H; exists (ref_value r); split; [constructor|done]|].
    intros (p & Hp & Hx). inversion Hp as [|? ? ? Hc]; subst; [done|inversion Hc].
  - split; [by intros ?%not_elem_of_nil|]. intros (p & Hp & _).
    inversion Hp as [|? ? ? Hc]; inversion Hc.
  - rewrite elem_of_map_fold_app. split.
    + intros (k & w & Hk & Hx). apply IH in Hx as (p & Hp & Hx); [|by econstructor].
      exists p. split; [|done]. econstructor; [by econstructor|done].
    + intros (p & Hp & Hx). inversion Hp as [|? w ? Hc Hw]; subst. inversion Hc; subst.
      eexists _, w. split; [done|]. apply IH; eauto using component.
  - rewrite elem_of_flat_map. split.
    + intros (w & Hw & Hx). apply IH in Hx as (p & Hp & Hx); [|by constructor].
      exists p. split; [|done]. econstructor; [by constructor|done].
    + intros (p & Hp & Hx). inversion Hp as [|? w ? Hc Hw]; subst. inversion Hc; subst.
      exists w. split; [done|]. apply IH; eauto using component.
  - split; [by intros ?%not_elem_of_nil|]. intros (p & Hp & _).
    inversion Hp as [|? ? ? Hc]; inversion Hc.
Qed.

(** The step [id] reads the path [p] through one of its mappings. *)
Definition reads (g : ExecutionGraph) (id p : string) : Prop :=
  ∃ step mapping k v, steps g !! id = Some step ∧ mapping ∈ collect_step_mappings step ∧
    mapping !! k = Some v ∧ mentions v p.

(** A step of the graph that another step reads leads to it along the plan. *)
Definition reads_earlier (g : ExecutionGraph) : Prop :=
  ∀ id p x, reads g id p → extract_step_id_from_reference p = Some x →
    is_Some (steps g !! x) → rtc (plan_edge g) x id.

Lemma elem_of_values {A} (m : gmap string A) a : a ∈ values m ↔ ∃ k, m !! k = Some a.
Proof.
  unfold values. rewrite list_elem_of_fmap. setoid_rewrite <-elem_of_map_to_list. split.
  - intros ([k a'] & -> & H). eauto.
  - intros [k H]. exists (k, a). eauto.
Qed.

Lemma clean_step_execution_order g : clean (step_execution_order g) ↔ reads_earlier g.
Proof.
  unfold step_execution_order, reads_earlier, reads. rewrite clean_for_entries.
  setoid_rewrite clean_for_each. setoid_rewrite clean_for_each. setoid_rewrite clean_for_each.
  setoid_rewrite clean_reject. setoid_rewrite elem_of_values.
  assert (Hb : ∀ x id, bool_decide (x ≠ id) && bool_decide (is_Some (steps g !! x))
      && negb (has_path (build_adjacency g) x id) = false ↔
    (is_Some (steps g !! x) → rtc (plan_edge g) x id)).
  { intros x id. rewrite !andb_false_iff, negb_false_iff, !bool_decide_eq_false, has_path_exact.
    rewrite (rtc_iff _ _ x id (build_adjacency_adjacent g)).
    destruct (decide (x = id)) as [->|Hne]; [split; [intros _ _; constructor|naive_solver]|].
    destruct (decide (is_Some (steps g !! x))); naive_solver. }
  setoid_rewrite Hb. setoid_rewrite extract_step_ids_exact. split.
  - intros H id p x (step & mapping & k & v & ? & ? & ? & ?) Hx Hs. eapply H; eauto.
  - intros H id step Hs mapping Hm v [k Hk] x (p & Hp & Hx) Hsx. eapply H; eauto 10.
Qed.

(** ** Phase 2: steps that exist *)

Section references.
Context `{Minijinja}.

Lemma clean_mapping_references g names id v p :
  clean (validate_mapping_value_references g names id v) → mentions v p →
  clean (validate_reference g names id p).
Proof.
  intros Hv Hp. induction Hp as [r|v w p Hc Hp IH]; [done|]. apply IH. clear IH Hp.
  destruct Hc as [m k w Hk|l w Hw]; simpl in Hv.
  - rewrite clean_for_entries in Hv. by eapply Hv.
  - rewrite clean_for_each in Hv. by apply Hv.
Qed.

(** A path read in the graph has no empty segment, and the step it names exists
    unless it is the error context. *)
Definition reads_exist (g : ExecutionGraph) : Prop :=
  ∀ id p, reads g id p → contains p ".." = false ∧
    ∀ x, extract_step_id_from_reference p = Some x → is_Some (steps g !! x) ∨ x = "__error".

Lemma clean_step_references g names : clean (step_references g names) → reads_exist g.
Proof.
  unfold step_references. rewrite clean_for_entries.
  intros Hs id p (step & mapping & k & v & Hid & Hm & Hk & Hp).
  apply Hs in Hid. rewrite clean_merge, clean_for_each in Hid. destruct Hid as [Hid _].
  apply Hid in Hm. rewrite clean_for_each in Hm.
  assert (Hv : v ∈ values mapping) by (apply elem_of_values; eauto).
  apply Hm in Hv. eapply clean_mapping_references in Hv; [|done].
  unfold validate_reference in Hv. destruct (contains p ".."); [done|]. split; [done|].
  intros x Hx. rewrite Hx, !clean_merge in Hv. destruct Hv as [[_ Hv] _].
  unfold step_reference in Hv. rewrite clean_merge in Hv. destruct Hv as [_ Hv].
  destruct (steps g !! x); [left; by eexists|]. right.
  rewrite clean_reject_decide in Hv. apply dec_stable in Hv.
  by apply list_elem_of_singleton in Hv.
Qed.

Lemma clean_references_nested g names h :
  clean (validate_references_with_inherited g names) → rtc subgraph g h → reads_exist h.
Proof.
  intros Hg Hh. revert names Hg. induction Hh as [g|g g' h Hgg' _ IH]; intros names Hg.
  - destruct g as [b]. cbn [validate_references_with_inherited] in Hg. rewrite clean_merge in Hg.
    destruct Hg as [Hg _]. by eapply clean_step_references.
  - destruct g as [b]. cbn [validate_references_with_inherited] in Hg.
    rewrite clean_merge, clean_for_entries in Hg. destruct Hg as [_ Hg].
    destruct Hgg' as [id s Hs|id s Hs]; apply Hg in Hs; by eapply IH.
Qed.
End references.

(** ** Theorems *)

(** The recursive phases, one level at a time. *)
Lemma endpoints_level g :
  clean (validate_edge_endpoints g) ↔
  edges_bound g ∧ ∀ h, subgraph g h → clean (validate_edge_endpoints h).
Proof.
  destruct g as [b]. cbn [validate_edge_endpoints].
  by rewrite clean_merge, clean_edge_endpoints, (clean_subgraphs validate_edge_endpoints).
Qed.

Lemma order_level g :
  clean (validate_execution_order g) ↔
  reads_earlier g ∧ ∀ h, subgraph g h → clean (validate_execution_order h).
Proof.
  destruct g as [b]. cbn [validate_execution_order].
  by rewrite clean_merge, clean_step_execution_order, (clean_subgraphs validate_execution_order).
Qed.

Lemma edge_conditions_level g :
  clean (validate_edge_conditions_recursive g) ↔
  routed g ∧ ∀ h, subgraph g h → clean (validate_edge_conditions_recursive h).
Proof.
  destruct g as [b]. cbn [validate_edge_conditions_recursive].
  by rewrite clean_merge, clean_routed, (clean_subgraphs validate_edge_conditions_recursive).
Qed.


(** ** What a step reads

    The mappings of a step and the paths that name a step, without the collectors of the
    validator. *)

(** The step has the mapping [m]: the inputs of an agent, an embedded workflow and a finish
    step, the contexts of log and error steps, the variables of loops. *)
Inductive has_mapping : Step → InputMapping → Prop :=
| hm_agent s m : agent_input_mapping s = Some m → has_mapping (Agent s) m
| hm_finish s m : finish_input_mapping s = Some m → has_mapping (Finish s) m
| hm_embed s m : embed_input_mapping s = Some m → has_mapping (EmbedWorkflow s) m
| hm_log s m : log_context s = Some m → has_mapping (Log s) m
| hm_error s m : error_context s = Some m → has_mapping (Error s) m
| hm_split s c m : split_config s = Some c → split_variables c = Some m → has_mapping (Split s) m
| hm_while s c m : while_config s = Some c → while_variables c = Some m → has_mapping (While s) m.

(** A mapping of the step [id] holds, at any depth, a reference to the path [p]. *)
Definition refers (g : ExecutionGraph) (id p : string) : Prop :=
  ∃ step mapping k v,
    steps g !! id = Some step ∧ has_mapping step mapping ∧ mapping !! k = Some v ∧ mentions v p.

(** The path names the step [x]: [steps.x], [steps.x.rest], and [steps['x']rest] with either
    quote. *)
Inductive names_step (x : string) : string → Prop :=
| names_whole : lacks "."%char x = true → names_step x ("steps." +:+ x)
| names_dotted rest : lacks "."%char x = true → names_step x ("steps." +:+ x +:+ "." +:+ rest)
| names_bracket q rest :
    is_quote q = true → lacks "]"%char x = true → all_chars (λ c, negb (is_quote c)) x = true →
    x ≠ "" →
    names_step x ("steps[" +:+ String q (x +:+ String q ("]" +:+ rest))).

Lemma string_app_nil_l s : "" +:+ s = s.
Proof. reflexivity. Qed.

Lemma string_app_cons c a b : String c a +:+ b = String c (a +:+ b).
Proof. reflexivity. Qed.

Lemma split_once_lacks c x rest :
  lacks c x = true → split_once c (x +:+ String c rest) = Some (x, rest).
Proof.
  induction x as [|d x IH]; intros Hl; cbn [split_once].
  - rewrite string_app_nil_l. cbn [split_once]. by rewrite Ascii.eqb_refl.
  - cbn [lacks] in Hl. apply andb_prop in Hl as [Hd Hl]. apply negb_true_iff in Hd.
    rewrite string_app_cons. cbn [split_once]. by rewrite Hd, IH.
Qed.

Lemma split_once_none c x : lacks c x = true → split_once c x = None.
Proof.
  induction x as [|d x IH]; intros Hl; cbn [split_once]; [done|].
  cbn [lacks] in Hl. apply andb_prop in Hl as [Hd Hl]. apply negb_true_iff in Hd. by rewrite Hd, IH.
Qed.

Lemma string_app_assoc (a b c : string) : (a +:+ b) +:+ c = a +:+ b +:+ c.
Proof. induction a as [|d a IH]; [done|]. by rewrite !string_app_cons, IH. Qed.

Lemma strip_prefix_app a s : strip_prefix a (a +:+ s) = Some s.
Proof.
  induction a as [|d a IH]; [by rewrite string_app_nil_l|]. rewrite string_app_cons. cbn [strip_prefix].
  by rewrite Ascii.eqb_refl.
Qed.

(** Text as a list of characters. *)
Section trimming.
Context (p : Ascii.ascii → bool).

#[local] Abbreviation chars_of := list_ascii_of_string.

Lemma chars_of_app a b : chars_of (a +:+ b) = chars_of a ++ chars_of b.
Proof.
  induction a as [|d a IH]; [by rewrite string_app_nil_l|]. rewrite string_app_cons. simpl. by rewrite IH.
Qed.

Lemma drop_while_none l :
  Forall (λ c, p c = false) l → drop_while p (string_of_list_ascii l) = string_of_list_ascii l.
Proof. intros [|c l' Hc _]; [done|]. simpl. by rewrite Hc. Qed.

Lemma all_chars_forall x : all_chars (λ c, negb (p c)) x = true → Forall (λ c, p c = false) (chars_of x).
Proof.
  induction x as [|c x IH]; simpl; [constructor|]. intros [Hc%negb_true_iff Hx]%andb_prop.
  constructor; [done|by apply IH].
Qed.

Lemma trim_matches_enclosed q x :
  p q = true → all_chars (λ c, negb (p c)) x = true → x ≠ "" →
  trim_matches p (String q (x +:+ String q "")) = x.
Proof.
  intros Hq Hx%all_chars_forall Hne. unfold trim_matches. cbn [drop_while]. rewrite Hq.
  assert (Hd : drop_while p (x +:+ String q "") = x +:+ String q "").
  { destruct x as [|c x]; [done|]. rewrite string_app_cons. cbn [drop_while].
    simpl in Hx. apply Forall_cons in Hx as [-> _]. done. }
  rewrite Hd. unfold str_rev. rewrite chars_of_app. cbn [list_ascii_of_string].
  rewrite reverse_app. change (reverse [q]) with [q]. simpl. rewrite Hq.
  rewrite drop_while_none by by apply Forall_reverse.
  by rewrite list_ascii_of_string_of_list_ascii, reverse_involutive, string_of_list_ascii_of_string.
Qed.
End trimming.

Lemma names_step_extracted x p : names_step x p → extract_step_id_from_reference p = Some x.
Proof.
  unfold extract_step_id_from_reference, up_to. intros [Hx|rest Hx|q rest Hq Hx Ha Hne].
  - rewrite strip_prefix_app. cbn. by rewrite split_once_none.
  - rewrite strip_prefix_app. cbn. change ("." +:+ rest) with (String "."%char rest).
    by rewrite split_once_lacks.
  - rewrite strip_prefix_app.
    assert (Hq' : Ascii.eqb q "]"%char = false).
    { unfold is_quote in Hq. apply orb_prop in Hq as [Hq|Hq]; apply Ascii.eqb_eq in Hq; by subst q. }
    change ("]" +:+ rest) with (String "]"%char rest).
    assert (Heq : String q (x +:+ String q (String "]"%char rest))
                  = String q (x +:+ String q "") +:+ String "]"%char rest)
      by by rewrite string_app_cons, string_app_assoc.
    rewrite Heq, split_once_lacks; [by rewrite trim_matches_enclosed|].
    cbn [lacks]. rewrite Hq'. simpl. clear -Hx Hq'.
    induction x as [|d x IH]; [rewrite string_app_nil_l; simpl; by rewrite Hq'|].
    rewrite string_app_cons. simpl in *. apply andb_prop in Hx as [-> Hx]. by rewrite IH.
Qed.

Lemma has_mapping_collected step m : has_mapping step m → m ∈ collect_step_mappings step.
Proof.
  intros Hm. destruct Hm; simpl;
    repeat match goal with H : _ = Some _ |- _ => rewrite H; simpl end; left.
Qed.

Lemma refers_reads g id p : refers g id p → reads g id p.
Proof.
  intros (step & m & k & v & Hs & Hm%has_mapping_collected & Hk & Hp). by exists step, m, k, v.
Qed.

(** C20: References of accepted workflows resolve.  In a workflow the validator accepts and
    in every subgraph of a Split or a While at any depth, a step named by a path that occurs
    in a mapping (the inputs of an agent, an embedded workflow or a finish step, the context
    of a log or error step, the variables of a loop, at any depth of composites) is the error
    context or a step of the same graph from which the plan leads to the reading step.  (The
    graphs of [onWait] and the values of conditions are not checked:
    [on_wait_reference_unchecked], [condition_step_typo_accepted].) *)
Theorem accepted_references_resolve `{StaticTemplates, UnicodeData, ConditionCodec}
  graph catalog h id p x :
  result_is_ok (validate_workflow graph catalog) = true →
  rtc subgraph graph h → refers h id p → names_step x p →
  x = "__error" ∨ (is_Some (steps h !! x) ∧ rtc (plan_edge h) x id).
Proof.
  intros Hok%result_is_ok_clean Hh Hr%refers_reads Hx%names_step_extracted. unfold validate_workflow in Hok.
  rewrite !clean_merge in Hok.
  assert (Hrefs : clean (validate_references graph)) by tauto.
  assert (Hord : clean (validate_execution_order graph)) by tauto. clear Hok.
  apply (clean_references_nested _ _ h Hrefs Hh) in Hr as He. destruct He as [_ He].
  destruct (He x Hx) as [Hs|]; [|by left]. right. split; [done|].
  apply (proj1 (clean_nested _ _ order_level graph)) with h in Hord; [|done]. by eapply Hord.
Qed.

#[local] Existing Instances text_engine ascii_data no_references no_conditions.

(** The finish step of [orders] reads the outputs of the Split. *)
Lemma accepted_references_resolve_witness :
  result_is_ok (validate_workflow orders demo_catalog) = true ∧
  refers orders "done" "steps.each.outputs" ∧
  ("each" = "__error" ∨ (is_Some (steps orders !! "each") ∧ rtc (plan_edge orders) "each" "done")).
Proof.
  assert (Hr : refers orders "done" "steps.each.outputs").
  { eexists _, {["kept" := path "steps.each.outputs"]}, "kept", (path "steps.each.outputs").
    split; [vm_compute; reflexivity|]. split; [by constructor|]. split; [vm_compute; reflexivity|].
    apply (mentions_here {| ref_value := "steps.each.outputs"; ref_type_hint := None;
                            ref_default := None |}). }
  split; [vm_compute; reflexivity|]. split; [exact Hr|].
  apply (accepted_references_resolve orders demo_catalog orders "done" "steps.each.outputs" "each").
  - vm_compute. reflexivity.
  - constructor.
  - exact Hr.
  - by apply (names_dotted "each" "outputs").
Defined.

(** ** What the validator lets pass *)

(** A graph with one agent that is bound to the connection [c], whose schema
    declares [conn] and nothing else. *)
Definition bound_to (c : MappingValue) : ExecutionGraph :=
  typed_graph {["call" := Agent {| plain_agent with agent_connection_ref := Some c |};
                "done" := Finish plain_finish]} "call" [edge "call" "done"]
    {["conn" := plain_field FtString]}.

(** A misspelt [data] path in a [connection_ref] is not reported, though the same
    path in an input mapping is. *)
Lemma connection_typo_accepted :
  validate_workflow (bound_to (path "data.con")) demo_catalog = no_issues ∧
  ∃ w, validate_workflow
    (typed_graph {["call" := Agent {| plain_agent with agent_input_mapping :=
                               Some {["url" := path "data.con"]} |};
                   "done" := Finish plain_finish]} "call" [edge "call" "done"]
       {["conn" := plain_field FtString]}) demo_catalog
  = {| errors := [UndefinedDataReference "call" "data.con" "con" ["conn"]]; warnings := w |}.
Proof. split; [vm_compute; reflexivity|]. eexists. vm_compute. reflexivity. Qed.

(** The condition of a Conditional step may name a step that does not exist. *)
Lemma condition_step_typo_accepted :
  validate_workflow
    (plain_graph
       {["ask" := Conditional {| conditional_name := None;
            conditional_condition := Value (path "steps.no_such_step.outputs.ok") |};
         "done" := Finish plain_finish]} "ask"
       [{| (edge "ask" "done") with label := Some "true" |}]) demo_catalog = no_issues.
Proof. vm_compute. reflexivity. Qed.

(** Finding: no phase opens [onWait] graphs to check references, so a mapping there may read
    a step that does not exist. *)
Definition ghost_reader : ExecutionGraph :=
  plain_graph {["notified" := Finish {| finish_name := None;
                  finish_input_mapping := Some {["kept" := path "steps.ghost.outputs"]} |}]} "notified" [].

Lemma on_wait_reference_unchecked :
  validate_workflow
    (plain_graph {["wait" := waiting_on ghost_reader; "done" := Finish plain_finish]} "wait"
       [edge "wait" "done"]) demo_catalog = no_issues ∧
  refers ghost_reader "notified" "steps.ghost.outputs" ∧ steps ghost_reader !! "ghost" = None.
Proof.
  split; [vm_compute; reflexivity|]. split; [|vm_compute; reflexivity].
  eexists _, {["kept" := path "steps.ghost.outputs"]}, "kept", (path "steps.ghost.outputs").
  split; [vm_compute; reflexivity|]. split; [by constructor|]. split; [vm_compute; reflexivity|].
  apply (mentions_here {| ref_value := "steps.ghost.outputs"; ref_type_hint := None; ref_default := None |}).
Qed.
