(* ===== verification/DslJson.v ===== *)
(** * runtara-dsl: mapping values, conditions and steps as JSON

    The serde representation [schema_types.rs] declares for mapping values,
    conditions and the configurations of steps: the tags [valueType] and [type], the renamed fields, the fields left
    out when absent.  The compiler embeds conditions into the guest in this form
    ([canonical_json]: object keys in increasing order), and the guest's evaluator
    reads it (GuestExpr.v). *)

From S2P Require Import Prelude.
From S2P Require Import Json.
From S2P Require Import Dsl.

Definition value_type_json (t : ValueType) : string :=
  match t with
  | VtString => "string"
  | VtInteger => "integer"
  | VtNumber => "number"
  | VtBoolean => "boolean"
  | VtJson => "json"
  | VtFile => "file"
  end.

Definition operator_json (op : ConditionOperator) : string :=
  match op with
  | OpAnd => "AND" | OpOr => "OR" | OpNot => "NOT"
  | OpGt => "GT" | OpGte => "GTE" | OpLt => "LT" | OpLte => "LTE" | OpEq => "EQ" | OpNe => "NE"
  | OpStartsWith => "STARTS_WITH" | OpEndsWith => "ENDS_WITH"
  | OpContains => "CONTAINS" | OpIn => "IN" | OpNotIn => "NOT_IN"
  | OpLength => "LENGTH" | OpIsDefined => "IS_DEFINED" | OpIsEmpty => "IS_EMPTY"
  | OpIsNotEmpty => "IS_NOT_EMPTY" | OpSimilarityGte => "SIMILARITY_GTE" | OpMatch => "MATCH"
  | OpCosineDistanceLte => "COSINE_DISTANCE_LTE" | OpL2DistanceLte => "L2_DISTANCE_LTE"
  end.

(** The fields of a reference: [default], [type], [value] and the tag. *)
Definition reference_fields (r : ReferenceValue) : list (string * json) :=
  option_list ((λ d, ("default", d)) <$> ref_default r)
  ++ option_list ((λ t, ("type", JString (value_type_json t))) <$> ref_type_hint r)
  ++ [("value", JString (ref_value r)); ("valueType", JString "reference")].

(** [#[serde(tag = "valueType", rename_all = "lowercase")]] *)
Fixpoint mapping_value_fields (v : MappingValue) : list (string * json) :=
  match v with
  | Reference r => reference_fields r
  | Immediate value => [("value", value); ("valueType", JString "immediate")]
  | CompositeObject m =>
      [("value", JObject (map_fold (λ k v entries,
                            assoc_set k (JObject (mapping_value_fields v)) entries) [] m));
       ("valueType", JString "composite")]
  | CompositeArray l =>
      [("value", JArray (List.map (λ v, JObject (mapping_value_fields v)) l));
       ("valueType", JString "composite")]
  | Template value => [("value", JString value); ("valueType", JString "template")]
  end.

Definition mapping_value_json (v : MappingValue) : json := JObject (mapping_value_fields v).

(** [#[serde(tag = "type", rename_all = "lowercase")]] on the expression, which is
    written before the fields (a type hint of a reference replaces it), and
    [#[serde(untagged)]] on the argument. *)
Fixpoint condition_json (c : ConditionExpression) : json :=
  match c with
  | Operation op arguments =>
      JObject [("arguments", JArray (List.map argument_json arguments));
               ("op", JString (operator_json op));
               ("type", JString "operation")]
  | Value v => JObject (assoc_or_insert "type" (JString "value") (mapping_value_fields v))
  end
with argument_json (a : ConditionArgument) : json :=
  match a with
  | ArgExpression e => condition_json e
  | ArgValue v => mapping_value_json v
  end.

(** * runtara-dsl: step configurations and schemas as JSON

    The serde representation [schema_types.rs] declares for the configurations the
    compiler puts into its tables (Split, While, Switch, Filter, GroupBy and input
    mappings, whole Log and Error steps, variables): camel-case names, absent options left
    out.  Objects list their keys in increasing order, as [serde_json::Map] does. *)

(** A field left out when it is [None]. *)
Definition field_json {A} (f : A → json) (name : string) (o : option A) : list (string * json) :=
  match o with Some a => [(name, f a)] | None => [] end.

Definition input_mapping_json (m : InputMapping) : json := map_object mapping_value_json m.

Definition split_config_json (c : SplitConfig) : json :=
  json_object
    ([("value", mapping_value_json (split_value c))]
     ++ field_json num "parallelism" (parallelism c)
     ++ field_json JBool "sequential" (sequential c)
     ++ field_json JBool "dontStopOnFailed" (dont_stop_on_failed c)
     ++ field_json input_mapping_json "variables" (split_variables c)
     ++ field_json num "maxRetries" (split_max_retries c)
     ++ field_json num "retryDelay" (split_retry_delay c)
     ++ field_json num "timeout" (split_timeout c)
     ++ field_json JBool "allowNull" (allow_null c)
     ++ field_json JBool "convertSingleValue" (convert_single_value c)
     ++ field_json num "batchSize" (batch_size c)).

Definition while_config_json (c : WhileConfig) : json :=
  json_object
    (field_json num "maxIterations" (while_max_iterations c)
     ++ field_json input_mapping_json "variables" (while_variables c)
     ++ field_json num "timeout" (while_timeout c)).

(** [#[serde(rename_all = "SCREAMING_SNAKE_CASE")]] *)
Definition match_type_json (t : SwitchMatchType) : string :=
  match t with
  | MtGt => "GT" | MtGte => "GTE" | MtLt => "LT" | MtLte => "LTE" | MtEq => "EQ" | MtNe => "NE"
  | MtStartsWith => "STARTS_WITH" | MtEndsWith => "ENDS_WITH"
  | MtContains => "CONTAINS" | MtIn => "IN" | MtNotIn => "NOT_IN"
  | MtIsDefined => "IS_DEFINED" | MtIsEmpty => "IS_EMPTY" | MtIsNotEmpty => "IS_NOT_EMPTY"
  | MtBetween => "BETWEEN" | MtRange => "RANGE"
  end.

Definition switch_case_json (c : SwitchCase) : json :=
  json_object
    ([("matchType", JString (match_type_json (case_match_type c)));
      ("match", case_match_value c); ("output", case_output c)]
     ++ field_json JString "route" (case_route c)).

Definition switch_config_json (c : SwitchConfig) : json :=
  json_object
    ([("value", mapping_value_json (sw_value c))]
     ++ match sw_cases c with
        | [] => []
        | cases => [("cases", JArray (switch_case_json <$> cases))]
        end
     ++ field_json id "default" (sw_default c)).

(** [FilterConfig] and [GroupByConfig], which the steps hold as fields. *)
Definition filter_config_json (s : FilterStep) : json :=
  json_object [("value", mapping_value_json (filter_value s));
               ("condition", condition_json (filter_condition s))].

Definition group_by_config_json (s : GroupByStep) : json :=
  json_object
    ([("value", mapping_value_json (group_value s)); ("key", JString (group_key s))]
     ++ field_json (λ l, JArray (JString <$> l)) "expectedKeys" (expected_keys s)).

(** ** Log and Error steps; [breakpoint] is the flag of the step *)

Definition log_level_json (l : LogLevel) : string :=
  match l with
  | LevelDebug => "debug" | LevelInfo => "info" | LevelWarn => "warn" | LevelError => "error"
  end.

Definition log_step_json (id : string) (breakpoint : option bool) (s : LogStep) : json :=
  json_object
    ([("id", JString id); ("level", JString (log_level_json (log_level s)));
      ("message", JString (log_message s))]
     ++ field_json JString "name" (log_name s)
     ++ field_json input_mapping_json "context" (log_context s)
     ++ field_json JBool "breakpoint" breakpoint).

Definition category_json (c : ErrorCategory) : string :=
  match c with CategoryTransient => "transient" | CategoryPermanent => "permanent" end.

Definition severity_json (s : ErrorSeverity) : string :=
  match s with
  | SeverityInfo => "info" | SeverityWarning => "warning"
  | SeverityError => "error" | SeverityCritical => "critical"
  end.

Definition error_step_json (id : string) (breakpoint : option bool) (s : ErrorStep) : json :=
  json_object
    ([("id", JString id); ("category", JString (category_json (error_category s)));
      ("code", JString (error_step_code s)); ("message", JString (error_message s))]
     ++ field_json JString "name" (error_name s)
     ++ field_json (λ s, JString (severity_json s)) "severity" (error_severity s)
     ++ field_json input_mapping_json "context" (error_context s)
     ++ field_json JBool "breakpoint" breakpoint).

(** ** Variables *)

Definition variable_type_json (t : VariableType) : string :=
  match t with
  | VarString => "string" | VarNumber => "number" | VarInteger => "integer"
  | VarBoolean => "boolean" | VarArray => "array" | VarObject => "object" | VarFile => "file"
  end.

Definition variable_json (v : GraphVariable) : json :=
  json_object
    ([("type", JString (variable_type_json (var_type v))); ("value", var_value v)]
     ++ field_json JString "description" (var_description v)).

Definition variables_json (m : gmap string GraphVariable) : json := map_object variable_json m.
