(* ===== verification/ConditionProperties.v ===== *)
(** * Conditions of accepted workflows at run time

    An accepted condition has no operator that only queries have, and then the
    guest's evaluator can only fail where the value of a mapping inside it cannot be
    computed: operators, argument counts and nesting never fail by themselves. *)

From S2P Require Import Prelude.
From S2P Require Import Json.
From S2P Require Import Text.
From S2P Require Import InstanceHandlers.
From S2P Require Import GuestStore.
From S2P Require Import GuestPaths.
From S2P Require Import GuestExpr.
From S2P Require Import GuestScenarios.
From S2P Require Import Dsl.
From S2P Require Import DslJson.
From S2P Require Import ValidationBase.
From S2P Require Import ValidationGraph.
From S2P Require Import ValidationRefs.
From S2P Require Import ValidationTemplates.
From S2P Require Import ValidationAgents.
From S2P Require Import Validation.
From S2P Require Import ValidationLemmas.

(** ** The parts of a condition *)

Fixpoint condition_nested_ind (P : ConditionExpression → Prop)
  (HV : ∀ v, P (Value v))
  (HO : ∀ op args, (∀ e, ArgExpression e ∈ args → P e) → P (Operation op args))
  (c : ConditionExpression) : P c.
Proof.
  destruct c as [op args|v]; [|apply HV]. apply HO.
  induction args as [|[e'|v] args IH]; intros e He.
  - by apply not_elem_of_nil in He.
  - apply elem_of_cons in He as [[= ->]|He]; [apply condition_nested_ind; assumption|by apply IH].
  - apply elem_of_cons in He as [[=]|He]. by apply IH.
Defined.

(** The mapping values and the operators that occur in a condition. *)
Inductive condition_value : ConditionExpression → MappingValue → Prop :=
| cv_value v : condition_value (Value v) v
| cv_argument op args v : ArgValue v ∈ args → condition_value (Operation op args) v
| cv_nested op args e v :
    ArgExpression e ∈ args → condition_value e v → condition_value (Operation op args) v.

Inductive condition_operator : ConditionExpression → ConditionOperator → Prop :=
| co_here op args : condition_operator (Operation op args) op
| co_nested op args e op' :
    ArgExpression e ∈ args → condition_operator e op' → condition_operator (Operation op args) op'.

(** Every operator has a meaning at run time. *)
Definition runtime_condition (c : ConditionExpression) : Prop :=
  ∀ op, condition_operator c op → query_only_operator_name op = None.

(** ** Phase 10.5 *)

Lemma clean_condition_operators step_id location c :
  clean (check_condition_expression_operators step_id location c) ↔ runtime_condition c.
Proof.
  unfold runtime_condition.
  induction c as [v|op args IH] using condition_nested_ind; simpl.
  { split; [intros _ op Hop; inversion Hop|done]. }
  rewrite clean_merge.
  assert (Hargs : clean ((fix go l := match l with
      | [] => no_issues
      | ArgExpression nested :: l =>
          check_condition_expression_operators step_id location nested ⊕ go l
      | ArgValue _ :: l => go l
      end) args) ↔ ∀ e, ArgExpression e ∈ args →
        clean (check_condition_expression_operators step_id location e)).
  { clear IH. induction args as [|[e|v] args IH]; simpl.
    - split; [intros _ e He; by apply not_elem_of_nil in He|done].
    - rewrite clean_merge, IH. setoid_rewrite elem_of_cons. naive_solver.
    - rewrite IH. setoid_rewrite elem_of_cons. naive_solver. }
  rewrite Hargs. split.
  - intros [Hop Hn] op' Hop'. inversion Hop' as [|? ? e ? He Hoe]; subst.
    + destruct (query_only_operator_name op'); [done|done].
    + by eapply IH, Hoe; [|apply Hn].
  - intros H. split.
    + rewrite (H op) by constructor. done.
    + intros e He. apply IH; [done|]. intros op' Hop'. apply H. by econstructor.
Qed.

(** The conditions of a graph: those of its steps and those of its edges. *)
Inductive graph_condition (g : ExecutionGraph) : ConditionExpression → Prop :=
| gc_conditional id s :
    steps g !! id = Some (Conditional s) → graph_condition g (conditional_condition s)
| gc_filter id s : steps g !! id = Some (Filter s) → graph_condition g (filter_condition s)
| gc_while id s : steps g !! id = Some (While s) → graph_condition g (while_condition s)
| gc_edge e c : e ∈ execution_plan g → condition e = Some c → graph_condition g c.

Lemma clean_condition_operators_graph g :
  clean (validate_condition_operators g) →
  (∀ c, graph_condition g c → runtime_condition c) ∧
  ∀ h, inner_graph g h → clean (validate_condition_operators h).
Proof.
  destruct g as [b]. cbn [validate_condition_operators].
  rewrite clean_merge, clean_for_entries. intros [Hs He]. split.
  - intros c Hc. destruct Hc as [id s Hid|id s Hid|id s Hid|e c Hin Hc].
    + apply Hs in Hid. by apply clean_condition_operators in Hid.
    + apply Hs in Hid. by apply clean_condition_operators in Hid.
    + apply Hs in Hid. simpl in Hid. rewrite clean_merge in Hid.
      destruct Hid as [Hid _]. by apply clean_condition_operators in Hid.
    + unfold edge_condition_operators in He. rewrite clean_for_each in He.
      apply He in Hin. rewrite Hc in Hin. by apply clean_condition_operators in Hin.
  - intros h Hh. destruct Hh as [h [id s Hid|id s Hid]|id s h Hid Hw]; apply Hs in Hid; simpl in Hid.
    + done.
    + rewrite clean_merge in Hid. apply Hid.
    + by rewrite Hw in Hid.
Qed.

Lemma accepted_conditions_runtime g h c :
  clean (validate_condition_operators g) → rtc inner_graph g h → graph_condition h c →
  runtime_condition c.
Proof.
  intros Hg Hh Hc. induction Hh as [g|g g' h Hgg' _ IH];
    apply clean_condition_operators_graph in Hg as [Hl Hi]; auto.
Qed.

(** ** Evaluation *)

Section evaluation.
Context `{Ext, JsonDisplay, Minijinja} (st : ValueStore) (source : json).

(** The value [v] of a mapping, computed by the guest. *)
Definition mapped (v : MappingValue) : result string json :=
  apply_mapping_value st (mapping_value_json v) source.

(** A failure is the failure of one of the values in [V]. *)
Definition blamed {A} (V : MappingValue → Prop) (r : result string A) : Prop :=
  ∀ e, r = Err e → ∃ v, V v ∧ mapped v = Err e.

Lemma blamed_ok {A} V (a : A) : blamed V (Ok a).
Proof. intros e [=]. Qed.

Lemma blamed_map {A B} V (f : A → B) r : blamed V r → blamed V (f <$> r).
Proof. intros Hr e He. destruct r; [done|]. injection He as <-. by apply Hr. Qed.

Lemma blamed_bind {A B} V (f : A → result string B) r :
  blamed V r → (∀ a, blamed V (f a)) → blamed V (r ≫= f).
Proof. intros Hr Hf e He. destruct r; [by eapply Hf|]. injection He as <-. by apply Hr. Qed.

Lemma blamed_weaken {A} (V W : MappingValue → Prop) (r : result string A) :
  (∀ v, V v → W v) → blamed V r → blamed W r.
Proof. intros HVW Hr e He. destruct (Hr e He) as (v & ? & ?). eauto. Qed.

(** Both readings of an argument. *)
Definition argument_blamed (V : MappingValue → Prop) (a : evaluated) : Prop :=
  blamed V (as_truth a) ∧ blamed V (as_value a).

#[local] Hint Resolve blamed_ok blamed_map blamed_bind : core.

Lemma fold_until_blamed V stop acc l :
  (∀ r, r ∈ l → blamed V r) → blamed V (fold_until stop acc l).
Proof.
  revert acc. induction l as [|r l IH]; intros acc Hl; simpl; [apply blamed_ok|].
  apply blamed_bind; [|intros a; apply IH; intros r' Hr'; apply Hl; by right].
  destruct (Bool.eqb acc stop); [apply blamed_ok|]. apply Hl. by left.
Qed.

(** Every operator with a meaning at run time passes on the failures of its
    arguments and adds none. *)
Lemma eval_operator_blamed V op args :
  query_only_operator_name op = None → (∀ a, a ∈ args → argument_blamed V a) →
  blamed V (eval_operator (operator_json op) args).
Proof.
  intros Hop Hargs.
  assert (Hv : ∀ a, a ∈ args → blamed V (as_value a)) by (intros a Ha; by apply Hargs).
  assert (Ht : ∀ r, r ∈ as_truth <$> args → blamed V r).
  { intros r (a & -> & Ha)%list_elem_of_fmap. by apply Hargs. }
  assert (Hboth : ∀ (f : json → json → result string bool), (∀ a b, blamed V (f a b)) →
    blamed V (match args with
              | a0 :: a1 :: _ => lhs ← as_value a0; rhs ← as_value a1; f lhs rhs
              | _ => Ok false end)).
  { intros f Hf. destruct args as [|a0 [|a1 args]]; auto.
    apply blamed_bind; [apply Hv; by left|]. intros lhs. apply blamed_bind; [|auto].
    apply Hv. right. by left. }
  assert (Hfirst : ∀ f d, blamed V (first_value f d args)).
  { intros f d. destruct args as [|a args]; simpl; auto. apply blamed_map.
    apply Hv. by left. }
  unfold eval_operator.
  repeat (case_decide; [by apply fold_until_blamed|]).
  case_decide. { destruct args as [|a args]; auto. apply blamed_map, Ht. by left. }
  case_decide. { apply Hboth. intros a b. destruct (to_number a), (to_number b); auto. }
  case_decide. { apply Hboth. auto. }
  case_decide. { apply Hboth. intros a b. destruct (as_str a), (as_str b); auto. }
  case_decide. { apply Hboth. auto. }
  case_decide. { apply blamed_map. destruct args; simpl; auto. apply blamed_map, Hv. by left. }
  repeat (case_decide; [apply Hfirst|]).
  exfalso. destruct op; simpl in *; set_solver.
Qed.

Lemma not_operation v : is_condition_operation (mapping_value_json v) = false.
Proof. by destruct v as [[p [[]|] [d|]]| | | |]. Qed.

Lemma tagged_not_operation v :
  is_condition_operation (JObject (assoc_or_insert "type" (JString "value")
    (mapping_value_fields v))) = false.
Proof. by destruct v as [[p [[]|] [d|]]| | | |]. Qed.

Lemma eval_untagged v : eval_condition_value st (mapping_value_json v) source = mapped v.
Proof. by destruct v as [[p [[]|] [d|]]| | | |]. Qed.

(** The tag of a value condition is read as an unknown type hint, which is ignored. *)
Lemma eval_tagged v :
  eval_condition_value st (JObject (assoc_or_insert "type" (JString "value")
    (mapping_value_fields v))) source = mapped v.
Proof. by destruct v as [[p [[]|] [d|]]| | | |]. Qed.

(** The evaluation of a mapping value as an argument. *)
Lemma eval_argument_value j V v :
  is_condition_operation (JObject j) = false → eval_condition_value st (JObject j) source = mapped v →
  V v → argument_blamed V (eval_argument st (JObject j) source).
Proof.
  intros Hop Hv HV. simpl. rewrite Hop. unfold argument_blamed. simpl in *. rewrite Hv.
  assert (blamed V (mapped v)) by (intros e He; eauto). split; [by apply blamed_map|done].
Qed.

Lemma eval_argument_blamed c :
  runtime_condition c → argument_blamed (condition_value c) (eval_argument st (condition_json c) source).
Proof.
  induction c as [v|op args IH] using condition_nested_ind; intros Hrt.
  - apply (eval_argument_value _ _ v); [apply tagged_not_operation|apply eval_tagged|constructor].
  - assert (Hargs : ∀ a, a ∈ List.map (λ a, eval_argument st a source) (List.map argument_json args) →
      argument_blamed (condition_value (Operation op args)) a).
    { intros a Ha. apply list_elem_of_fmap in Ha as (j & -> & (b & -> & Hb)%list_elem_of_fmap).
      destruct b as [e|v].
      - destruct (IH e Hb) as [Ht Hv].
        { intros op' Hop'. apply Hrt. by econstructor. }
        split; (eapply blamed_weaken; [|eassumption]); intros v Hv'; by eapply cv_nested.
      - apply (eval_argument_value _ _ v); [apply not_operation|apply eval_untagged|].
        by apply cv_argument. }
    pose proof (eval_operator_blamed _ op _ (Hrt op (co_here _ _)) Hargs) as Hb.
    change (argument_blamed (condition_value (Operation op args))
      (eval_operation (Some (operator_json op))
        (Some (List.map (λ a, eval_argument st a source) (List.map argument_json args))))).
    split; simpl; [done|]. case_decide; [|by apply blamed_map].
    destruct args as [|a args]; simpl; [auto|]. apply blamed_map, Hargs. by left.
Qed.

End evaluation.

(** ** Theorem *)

(** C21: Conditions of accepted workflows fail only through their values.  In a
    workflow the validator accepts, the condition of every Conditional, Filter and
    While step and of every edge, in the workflow itself and in every graph inside
    it ([onWait] graphs included), is evaluated by the guest to a truth value, or to
    the very error with which one of the mapping values inside the condition fails;
    no operator, argument count or nesting of an accepted condition is an error. *)
Theorem accepted_conditions_evaluate `{StaticTemplates, UnicodeData, ConditionCodec, Ext, JsonDisplay}
  graph catalog h c st source :
  result_is_ok (validate_workflow graph catalog) = true →
  rtc inner_graph graph h → graph_condition h c →
  match eval_condition_expression st (condition_json c) source with
  | Ok _ => True
  | Err e => ∃ v, condition_value c v ∧
               apply_mapping_value st (mapping_value_json v) source = Err e
  end.
Proof.
  intros Hok%result_is_ok_clean Hh Hc. unfold validate_workflow in Hok.
  rewrite !clean_merge in Hok. destruct Hok as [[_ Hops] _].
  pose proof (accepted_conditions_runtime _ _ _ Hops Hh Hc) as Hrt.
  destruct (eval_argument_blamed st source c Hrt) as [Ht _].
  unfold eval_condition_expression. destruct (as_truth _) as [b|e]; [done|].
  exact (Ht e eq_refl).
Qed.

#[local] Existing Instances text_engine ascii_data no_references no_conditions codec plain_display.

(** The condition of the Conditional step of [orders], in a run that fetched two. *)
Lemma accepted_conditions_evaluate_witness :
  let source := JObject [("steps", JObject [("fetch", JObject [("outputs",
    JObject [("count", JNumber (PosInt 2))])])])] in
  result_is_ok (validate_workflow orders demo_catalog) = true ∧
  eval_condition_expression fresh_arena (condition_json some_orders) source = Ok true ∧
  match eval_condition_expression fresh_arena (condition_json some_orders) source with
  | Ok _ => True
  | Err e => ∃ v, condition_value some_orders v ∧
               apply_mapping_value fresh_arena (mapping_value_json v) source = Err e
  end.
Proof.
  intros source. split; [vm_compute; reflexivity|]. split; [vm_compute; reflexivity|].
  apply (accepted_conditions_evaluate orders demo_catalog orders some_orders fresh_arena source).
  - vm_compute. reflexivity.
  - constructor.
  - apply (gc_conditional orders "check" {| conditional_name := Some "any orders";
      conditional_condition := some_orders |}). vm_compute. reflexivity.
Defined.
