(* ===== verification/ValidationClosure.v ===== *)
(** * Validation: workflows that embed workflows

    What the closure entry promises: a workflow that embeds itself, directly or
    through others, is found exactly; every embedded workflow of an accepted closure
    is present and gets the inputs it requires; embed step ids are unique. *)

From S2P Require Import Prelude.
From S2P Require Import Json.
From S2P Require Import Text.
From S2P Require Import GuestExpr.
From S2P Require Import GuestScenarios.
From S2P Require Import Dsl.
From S2P Require Import Dependencies.
From S2P Require Import DependencyProperties.
From S2P Require Import ValidationBase.
From S2P Require Import ValidationGraph.
From S2P Require Import ValidationRefs.
From S2P Require Import ValidationTemplates.
From S2P Require Import ValidationAgents.
From S2P Require Import Validation.
From S2P Require Import ValidationLemmas.

(** ** The relation of workflows *)

(** A step of [g] or of a nested subgraph embeds the workflow [c]. *)
Definition embeds_child (g : ExecutionGraph) (c : string) : Prop :=
  ∃ h id s, rtc subgraph g h ∧ steps h !! id = Some (EmbedWorkflow s) ∧ child_workflow_id s = c.

(** The workflow [x] of the closure embeds [y]. *)
Definition depends (children : gmap string ExecutionGraph) (x y : string) : Prop :=
  ∃ g, children !! x = Some g ∧ embeds_child g y.

(** The reference the validator uses for a workflow. *)
Definition wref (id : string) : WorkflowReference := {| workflow_id := id; version := 1 |}.

#[export] Instance wref_inj : Inj (=) (=) wref.
Proof. by intros x y [=]. Qed.

(** What one step embeds. *)
Definition step_embeds (step : Step) (c : string) : Prop :=
  match step with
  | EmbedWorkflow s => child_workflow_id s = c
  | Split s => embeds_child (split_subgraph s) c
  | While s => embeds_child (while_subgraph s) c
  | _ => False
  end.

Lemma embeds_child_steps g c :
  embeds_child g c ↔ ∃ id step, steps g !! id = Some step ∧ step_embeds step c.
Proof.
  split.
  - intros (h & id & s & Hh & Hs & Hc). destruct Hh as [|g g' h Hgg' Hh]; [by eexists id, _|].
    destruct Hgg' as [id' s' Hs'|id' s' Hs']; (eexists id', _; split; [exact Hs'|]);
      by exists h, id, s.
  - intros (id & step & Hs & Hc). destruct step; try done; simpl in Hc.
    + destruct Hc as (h & id' & s' & Hh & ? & ?). exists h, id', s'. split; [|done].
      eapply rtc_l; [|done]. by econstructor.
    + exists g, id, s. split; [constructor|done].
    + destruct Hc as (h & id' & s' & Hh & ? & ?). exists h, id', s'. split; [|done].
      eapply rtc_l; [|done]. by econstructor.
Qed.

(** ** Building the dependency graph *)

Section build.
Context (children : gmap string ExecutionGraph).

Abbreviation state := (DependencyGraph * gset string)%type.

(** From [st] to [st'], the workflows [E] are added as children of [p], and the
    closure of what is newly visited. *)
Record grown (E : string → Prop) (p : WorkflowReference) (st st' : state) : Prop := {
  gr_visited : st.2 ⊆ st'.2;
  gr_embeds c : E c → c ∈ st'.2;
  gr_closed id c : id ∈ st'.2 → id ∉ st.2 → depends children id c → c ∈ st'.2;
  gr_reach id : id ∈ st'.2 → id ∉ st.2 → ∃ c, E c ∧ rtc (depends children) c id;
  gr_edges x y :
    child_of st'.1 x y ↔ child_of st.1 x y ∨ (x = p ∧ ∃ c, E c ∧ y = wref c) ∨
      (∃ id c, (id ∈ st'.2) ∧ (id ∉ st.2) ∧ x = wref id ∧ depends children id c ∧ y = wref c) }.

Lemma grown_refl p st : grown (λ _, False) p st st.
Proof. split; try done. intros x y. naive_solver. Qed.

Lemma grown_weaken E F p st st' : (∀ c, E c ↔ F c) → grown E p st st' → grown F p st st'.
Proof.
  intros HEF [H1 H2 H3 H4 H5]. split; [done|naive_solver|done| |].
  - intros id Hid Hn. destruct (H4 id Hid Hn) as (c & ? & ?). exists c. naive_solver.
  - intros x y. rewrite H5. setoid_rewrite HEF. done.
Qed.

Lemma grown_trans E F p st st1 st2 :
  grown E p st st1 → grown F p st1 st2 → grown (λ c, F c ∨ E c) p st st2.
Proof.
  intros [H1 H2 H3 H4 H5] [K1 K2 K3 K4 K5]. split.
  - set_solver.
  - intros c [Hc|Hc]; [by apply K2|by apply K1, H2].
  - intros id c Hid Hn Hd. destruct (decide (id ∈ st1.2)); [by apply K1, (H3 id)|by apply (K3 id)].
  - intros id Hid Hn. destruct (decide (id ∈ st1.2)) as [Hi|Hi].
    + destruct (H4 id Hi Hn) as (c & ? & ?). eauto.
    + destruct (K4 id Hid Hi) as (c & ? & ?). eauto.
  - intros x y. rewrite K5, H5. split.
    + intros [[?|[?|(id & c & ? & ? & ?)]]|[?|(id & c & ? & ? & ?)]]; [tauto|naive_solver| |naive_solver|].
      * right. right. exists id, c. split; [by apply K1|done].
      * right. right. exists id, c. split; [done|]. split; [set_solver|done].
    + intros [?|[(-> & c & [?|?] & ->)|(id & c & Hid & Hn & ?)]]; [tauto| | |].
      * right. left. eauto.
      * left. right. left. eauto.
      * destruct (decide (id ∈ st1.2)); [left; right; right|right; right]; exists id, c; done.
Qed.

(** An embedded workflow that is not visited, and what its own graph adds. *)
Lemma grown_child p c gc dg visited st' :
  children !! c = Some gc → c ∉ visited →
  grown (embeds_child gc) (wref c) (add_edge p (wref c) dg, {[c]} ∪ visited) st' →
  grown (λ x, x = c) p (dg, visited) st'.
Proof.
  intros Hc Hnv [H1 H2 H3 H4 H5]. simpl in *. split; simpl.
  - set_solver.
  - intros ? ->. set_solver.
  - intros id y Hid Hn Hd. destruct (decide (id = c)) as [->|Hne].
    + destruct Hd as (g & Hg & Hy). rewrite Hc in Hg. injection Hg as <-. by apply H2.
    + apply (H3 id); [done|set_solver|done].
  - intros id Hid Hn. exists c. split; [done|]. destruct (decide (id = c)) as [->|Hne]; [constructor|].
    destruct (H4 id Hid) as (y & Hy & Hr); [set_solver|]. eapply rtc_l; [|done]. by exists gc.
  - intros x y. rewrite H5, child_of_add_edge. split.
    + intros [[?|[-> ->]]|[(-> & z & Hz & ->)|(id & z & Hid & Hn & ?)]]; [tauto|naive_solver| |].
      * right. right. exists c, z. split; [set_solver|]. do 2 (split; [done|]). split; [by exists gc|done].
      * right. right. exists id, z. split; [done|]. split; [set_solver|done].
    + intros [?|[(-> & z & -> & ->)|(id & z & Hid & Hn & -> & Hd & ->)]]; [tauto|tauto|].
      destruct (decide (id = c)) as [->|Hne].
      * right. left. split; [done|]. exists z. split; [|done].
        destruct Hd as (g & Hg & ?). rewrite Hc in Hg. by injection Hg as <-.
      * right. right. exists id, z. split; [done|]. split; [set_solver|done].
Qed.

(** An embedded workflow that is visited already or that is not in the closure. *)
Lemma grown_leaf p c dg visited :
  c ∈ visited ∨ children !! c = None →
  grown (λ x, x = c) p (dg, visited) (add_edge p (wref c) dg, {[c]} ∪ visited).
Proof.
  intros Hc. assert (Hnew : ∀ id, id ∈ ({[c]} ∪ visited : gset string) → id ∉ visited →
    id = c ∧ children !! c = None) by set_solver.
  split; simpl.
  - set_solver.
  - intros ? ->. set_solver.
  - intros id y Hid Hn (g & Hg & _). destruct (Hnew id Hid Hn) as [-> ?]. congruence.
  - intros id Hid Hn. destruct (Hnew id Hid Hn) as [-> _]. exists c. split; [done|constructor].
  - intros x y. rewrite child_of_add_edge. split; [naive_solver|].
    intros [?|[(-> & z & -> & ->)|(id & z & Hid & Hn & _ & (g & Hg & _) & _)]]; [tauto|tauto|].
    destruct (Hnew id Hid Hn) as [-> ?]. congruence.
Qed.

(** The step of the loop of [build_dependency_graph]. *)
Definition build_step (fuel : nat) (p : WorkflowReference) (step : Step) (acc : option state) :
  option state :=
  match acc with
  | None => None
  | Some (dg, visited) =>
      match step with
      | EmbedWorkflow s =>
          let c := child_workflow_id s in
          if decide (c ∈ visited) then Some (add_edge p (wref c) dg, visited)
          else
            match children !! c with
            | None => Some (add_edge p (wref c) dg, {[c]} ∪ visited)
            | Some gc =>
                match fuel with
                | O => None
                | S fuel => build_dependency_graph fuel children gc (wref c)
                              (add_edge p (wref c) dg, {[c]} ∪ visited)
                end
            end
      | Split s => build_dependency_graph fuel children (split_subgraph s) p (dg, visited)
      | While s => build_dependency_graph fuel children (while_subgraph s) p (dg, visited)
      | _ => Some (dg, visited)
      end
  end.

Lemma build_unfold fuel g p st :
  build_dependency_graph fuel children g p st
  = foldr (λ kv acc, build_step fuel p kv.2 acc) (Some st) (map_to_list (steps g)).
Proof.
  assert (H : build_dependency_graph fuel children g p st
    = map_fold (λ _ step acc, build_step fuel p step acc) (Some st) (steps g)).
  { destruct fuel, g; reflexivity. }
  rewrite H, map_fold_foldr. generalize (map_to_list (steps g)). intros l.
  induction l as [|[k step] l IH]; [done|]. simpl. by rewrite IH.
Qed.

Definition unvisited (visited : gset string) : nat := size (dom children ∖ visited).

Lemma unvisited_mono V W : V ⊆ W → (unvisited W ≤ unvisited V)%nat.
Proof. intros HVW. unfold unvisited. apply subseteq_size. set_solver. Qed.

Lemma unvisited_lt c V : is_Some (children !! c) → c ∉ V → (unvisited ({[c]} ∪ V) < unvisited V)%nat.
Proof.
  intros Hc%elem_of_dom HV. unfold unvisited. apply subset_size.
  split; [set_solver|]. intros H. set_solver.
Qed.

(** Building for [g] succeeds and adds what [g] embeds. *)
Definition builds (fuel : nat) (g : ExecutionGraph) : Prop :=
  ∀ p st, (unvisited st.2 ≤ fuel)%nat →
  ∃ st', build_dependency_graph fuel children g p st = Some st' ∧ grown (embeds_child g) p st st'.

Lemma build_embed_grown fuel p s st :
  (∀ fuel' g, (fuel' < fuel)%nat → builds fuel' g) → (unvisited st.2 ≤ fuel)%nat →
  ∃ st', build_step fuel p (EmbedWorkflow s) (Some st) = Some st' ∧
    grown (step_embeds (EmbedWorkflow s)) p st st'.
Proof.
  intros IH Hst. destruct st as [dg visited]. simpl in *. set (c := child_workflow_id s).
  assert (HE : ∀ x, x = c ↔ c = x) by done. case_decide as Hv.
  { eexists. split; [done|]. eapply grown_weaken; [exact HE|].
    rewrite <-(subseteq_union_1_L {[c]} visited) at 2 by set_solver.
    apply grown_leaf. by left. }
  destruct (children !! c) as [gc|] eqn:Hc.
  - pose proof (unvisited_lt c visited (mk_is_Some _ _ Hc) Hv) as Hlt.
    destruct fuel as [|fuel]; [lia|].
    destruct (IH fuel gc) with (p := wref c) (st := (add_edge p (wref c) dg, {[c]} ∪ visited))
      as (st' & Heq & Hg); [lia|simpl; lia|].
    exists st'. split; [done|]. eapply grown_weaken; [exact HE|]. by eapply grown_child.
  - eexists. split; [done|]. eapply grown_weaken; [exact HE|]. apply grown_leaf. by right.
Qed.

Lemma build_step_grown fuel g p id step st :
  (∀ fuel' g, (fuel' < fuel)%nat → builds fuel' g) → (∀ h, inner_graph g h → builds fuel h) →
  steps g !! id = Some step → (unvisited st.2 ≤ fuel)%nat →
  ∃ st', build_step fuel p step (Some st) = Some st' ∧ grown (step_embeds step) p st st'.
Proof.
  intros IHf IHg Hid Hst. destruct step; try (by apply build_embed_grown).
  all: destruct st as [dg visited]; simpl;
    try (eexists; split; [done|]; by apply (grown_weaken (λ _, False)), grown_refl).
  - apply (IHg (split_subgraph s)); [by eauto|done].
  - apply (IHg (while_subgraph s)); [by eauto|done].
Qed.

(** The graph of dependencies is built for every graph, and it is the graph of what
    the workflow embeds and of everything embedded from there. *)
Lemma build_dependency_graph_grown fuel g : builds fuel g.
Proof.
  revert g. induction fuel as [fuel IHf] using lt_wf_ind. intros g.
  induction g as [g IHg] using graph_ind. intros p st Hst. rewrite build_unfold.
  assert (Hloop : ∀ l, (∀ id step, (id, step) ∈ l → steps g !! id = Some step) →
    ∃ st', foldr (λ kv acc, build_step fuel p kv.2 acc) (Some st) l = Some st' ∧
      grown (λ c, ∃ id step, (id, step) ∈ l ∧ step_embeds step c) p st st').
  { induction l as [|[id step] l IHl]; intros Hl.
    - exists st. split; [done|]. eapply grown_weaken; [|apply grown_refl].
      setoid_rewrite elem_of_nil. naive_solver.
    - destruct IHl as (st1 & Hfold & Hgrown); [intros; apply Hl; by right|].
      pose proof (unvisited_mono _ _ (gr_visited _ _ _ _ Hgrown)) as Hle.
      destruct (build_step_grown fuel g p id step st1) as (st2 & Hstep & Hg2); auto.
      { apply Hl. by left. } { lia. }
      exists st2. simpl. rewrite Hfold. split; [done|].
      eapply grown_weaken; [|by eapply grown_trans]. intros c. simpl.
      setoid_rewrite elem_of_cons. naive_solver. }
  destruct (Hloop (map_to_list (steps g))) as (st' & -> & Hg); [by setoid_rewrite elem_of_map_to_list|].
  exists st'. split; [done|]. eapply grown_weaken; [|done]. intros c. simpl.
  rewrite embeds_child_steps. by setoid_rewrite elem_of_map_to_list.
Qed.
End build.

(** ** Cycles *)

(** The dependencies found from a root that is part of its own closure. *)
Lemma dependency_graph_exact children id root :
  children !! id = Some root →
  ∃ edges, dependency_graph root (wref id) children = Some edges ∧
    ∀ x y, child_of edges x y ↔
      ∃ a b, x = wref a ∧ y = wref b ∧ rtc (depends children) id a ∧ depends children a b.
Proof.
  intros Hid. unfold dependency_graph.
  destruct (build_dependency_graph_grown children (size children) root (wref id)
    (new_dependency_graph, ∅)) as ([edges visited] & -> & [_ Hemb Hcl Hre Hed]); simpl in *.
  { unfold unvisited. rewrite difference_empty_L, size_dom. lia. }
  exists edges. split; [done|].
  assert (Hroot : ∀ c, depends children id c ↔ embeds_child root c).
  { intros c. unfold depends. rewrite Hid. naive_solver. }
  intros x y. rewrite Hed. split.
  - intros [Hx|[(-> & c & Hc & ->)|(a & b & Ha & _ & -> & Hab & ->)]].
    + unfold child_of, new_dependency_graph in Hx. rewrite lookup_empty in Hx.
      by apply not_elem_of_nil in Hx.
    + exists id, c. rewrite Hroot. repeat split; [constructor|done].
    + destruct (Hre a Ha) as (c & Hc & Hca); [set_solver|]. exists a, b. repeat split; [|done].
      eapply rtc_l; [by apply Hroot|done].
  - intros (a & b & -> & -> & Ha & Hab). right.
    assert (Hv : a = id ∨ a ∈ visited).
    { clear Hab. revert a Ha. apply (rtc_ind_r (λ a, a = id ∨ a ∈ visited)); [by left|].
      intros a c _ Hac [->|Hv]; right; [by apply Hemb, Hroot|]. apply (Hcl a); [done|set_solver|done]. }
    destruct Hv as [->|Hv]; [left; rewrite Hroot in Hab; eauto|].
    right. exists a, b. split; [done|]. split; [set_solver|done].
Qed.

(** Chains of dependencies, as workflows and as references. *)
Section chains.
Context (children : gmap string ExecutionGraph) (root_id : string) (edges : DependencyGraph).
Context (Hedges : ∀ x y, child_of edges x y ↔
  ∃ a b, x = wref a ∧ y = wref b ∧ rtc (depends children) root_id a ∧ depends children a b).

Lemma chain_up a b :
  rtc (depends children) root_id a → rtc (depends children) a b → rtc (child_of edges) (wref a) (wref b).
Proof.
  intros Ha Hab. induction Hab as [|a c b Hac _ IH]; [constructor|].
  eapply rtc_l; [apply Hedges; eauto 10|]. apply IH. by eapply rtc_r.
Qed.

Lemma chain_down a y : rtc (child_of edges) (wref a) y → ∃ b, y = wref b ∧ rtc (depends children) a b.
Proof.
  intros H. remember (wref a) as x eqn:Hx. revert a Hx.
  induction H as [x|x z y Hxz _ IH]; intros a ->; [exists a; split; [done|constructor]|].
  apply Hedges in Hxz as (a' & b & Ha%(inj wref) & -> & _ & Hab). subst a'.
  destruct (IH b) as (b' & -> & Hb); [done|]. exists b'. split; [done|]. by eapply rtc_l.
Qed.

(** A cycle starts with a dependency. *)
Lemma tc_first {A} (R : A → A → Prop) x y : tc R x y ↔ ∃ z, R x z ∧ rtc R z y.
Proof.
  split.
  - intros [x' y' H|x' z y' H Hz]; [exists y'; split; [done|constructor]|].
    exists z. split; [done|]. by apply tc_rtc.
  - intros (z & Hxz & Hzy). eapply tc_rtc_r; [by constructor|done].
Qed.

Lemma cycle_iff a :
  rtc (depends children) root_id a →
  tc (child_of edges) (wref a) (wref a) ↔ tc (depends children) a a.
Proof.
  intros Ha. rewrite !tc_first. split; intros (z & Haz & Hza).
  - apply Hedges in Haz as (a' & b & Ha'%(inj wref) & -> & _ & Hab). subst a'.
    apply chain_down in Hza as (b' & Hb%(inj wref) & Hr). subst b'. eauto.
  - exists (wref z). split; [apply Hedges; eauto 10|]. apply chain_up; [by eapply rtc_r|done].
Qed.
End chains.

(** The links of a cycle lead back to its start. *)
Lemma linked_reaches g x l y : linked g (x :: l ++ [y]) → tc (child_of g) x y.
Proof.
  revert x. induction l as [|z l IH]; intros x; simpl.
  - intros [H _]. by constructor.
  - intros [H Hl]. eapply tc_l; [done|]. by apply IH.
Qed.

Lemma closure_children_map_root root_id root children :
  closure_children_map root_id root children !! root_id = Some root.
Proof.
  unfold closure_children_map.
  assert (H : ∀ m : gmap string ExecutionGraph, m !! root_id = Some root →
    foldl (λ m child, match m !! ccg_workflow_id child with
                      | Some _ => m
                      | None => <[ccg_workflow_id child := ccg_execution_graph child]> m
                      end) m children !! root_id = Some root).
  { induction children as [|c children IH]; intros m Hm; simpl; [done|]. apply IH.
    destruct (m !! ccg_workflow_id c) eqn:Hc; [done|]. rewrite lookup_insert_ne; congruence. }
  apply H, lookup_singleton_eq.
Qed.

(** The outcome of the search over a closure. *)
Lemma closure_cycles_spec root_id root children :
  let m := closure_children_map root_id root children in
  clean (validate_closure_cycles root_id root m) ↔
  ∀ x, rtc (depends m) root_id x → ¬ tc (depends m) x x.
Proof.
  intros m. unfold validate_closure_cycles, find_cycle, cycle_search.
  destruct (dependency_graph_exact m root_id root (closure_children_map_root _ _ _))
    as (edges & Hdep & Hedges).
  fold (wref root_id). rewrite Hdep. simpl.
  pose proof (detect_cycles_spec edges (wref root_id)) as Hspec.
  destruct (detect_cycles edges (wref root_id)) as [[u|c]|]; [| |done].
  - split; [|done]. intros _ x Hx Hc. apply (Hspec (wref x)).
    + by apply (chain_up m root_id edges Hedges); [constructor|].
    + by apply (cycle_iff m root_id edges Hedges).
  - destruct Hspec as (n & l & -> & Hl & Hn). split; [done|]. intros Hac. exfalso.
    destruct (chain_down m root_id edges Hedges root_id n Hn) as (x & -> & Hx).
    apply (Hac x Hx), (cycle_iff m root_id edges Hedges x Hx). by eapply linked_reaches.
Qed.

(** The graph is built and searched within its rounds, whatever the closure. *)
Lemma cycle_search_ends root root_ref m : is_Some (cycle_search root root_ref m).
Proof.
  unfold cycle_search, dependency_graph.
  destruct (build_dependency_graph_grown m (size m) root root_ref (new_dependency_graph, ∅))
    as ([edges visited] & -> & _).
  { unfold unvisited. simpl. rewrite difference_empty_L, size_dom. lia. }
  simpl. pose proof (detect_cycles_spec edges root_ref) as Hspec.
  destruct (detect_cycles edges root_ref); [by eexists|done].
Qed.

(** ** Embedded workflows of an accepted closure *)

(** The workflow is present and every field it requires is mapped. *)
Definition supplied (m : gmap string ExecutionGraph) (s : EmbedWorkflowStep) : Prop :=
  ∃ child, m !! child_workflow_id s = Some child ∧
    ∀ name field, input_schema child !! name = Some field → required field = true →
      ∃ mapping v, embed_input_mapping s = Some mapping ∧ mapping !! name = Some v.

(** The steps of [g] and of its subgraphs that embed a workflow are supplied. *)
Definition all_supplied (m : gmap string ExecutionGraph) (g : ExecutionGraph) : Prop :=
  ∀ h id s, rtc subgraph g h → steps h !! id = Some (EmbedWorkflow s) → supplied m s.

Lemma missing_level m g :
  clean (report_missing_child_references g m) ↔
  (∀ id s, steps g !! id = Some (EmbedWorkflow s) → is_Some (m !! child_workflow_id s)) ∧
  ∀ h, subgraph g h → clean (report_missing_child_references h m).
Proof.
  destruct g as [b]. cbn [report_missing_child_references].
  rewrite clean_merge, (clean_subgraphs (λ g, report_missing_child_references g m)).
  apply and_iff_compat_r. rewrite clean_for_entries. split.
  - intros H id s Hs. apply H in Hs. rewrite clean_reject_decide in Hs. by apply not_eq_None_Some.
  - intros H id step Hs. destruct step; try done. apply clean_reject_decide, not_eq_None_Some. eauto.
Qed.

Lemma inputs_level m g :
  clean (validate_embed_workflow_inputs g m) ↔
  (∀ id s child, steps g !! id = Some (EmbedWorkflow s) → m !! child_workflow_id s = Some child →
     clean (embed_inputs id s child)) ∧
  ∀ h, subgraph g h → clean (validate_embed_workflow_inputs h m).
Proof.
  destruct g as [b]. cbn [validate_embed_workflow_inputs].
  rewrite clean_merge, (clean_subgraphs (λ g, validate_embed_workflow_inputs g m)).
  apply and_iff_compat_r. rewrite clean_for_entries. split.
  - intros H id s child Hs Hm. apply H in Hs. by rewrite Hm in Hs.
  - intros H id step Hs. destruct step; try done. destruct (m !! _) eqn:Hm; [|done]. eauto.
Qed.

Lemma elem_of_key_set {A} (m : gmap string A) k : k ∈ key_set m ↔ is_Some (m !! k).
Proof.
  unfold key_set, keys. rewrite elem_of_list_to_set, list_elem_of_fmap. split.
  - intros ([k' a] & -> & H%elem_of_map_to_list). by eexists.
  - intros [a Ha]. exists (k, a). split; [done|]. by apply elem_of_map_to_list.
Qed.

Lemma clean_embed_inputs id s child name field :
  clean (embed_inputs id s child) → input_schema child !! name = Some field →
  required field = true → ∃ mapping v, embed_input_mapping s = Some mapping ∧ mapping !! name = Some v.
Proof.
  intros Hc Hf Hr. unfold embed_inputs in Hc. destruct (_ && _); [done|].
  rewrite clean_reject_decide in Hc. apply dec_stable, fmap_nil_inv in Hc.
  destruct (decide (name ∈ default ∅ (key_set <$> embed_input_mapping s))) as [Hin|Hin].
  - destruct (embed_input_mapping s) as [mapping|]; simpl in Hin; [|set_solver].
    apply elem_of_key_set in Hin as [v Hv]. eauto.
  - exfalso. apply (not_elem_of_nil (name, field)). rewrite <-Hc.
    apply list_elem_of_filter. split; [done|]. by apply elem_of_map_to_list.
Qed.

Lemma all_supplied_clean m g :
  clean (report_missing_child_references g m) → clean (validate_embed_workflow_inputs g m) →
  all_supplied m g.
Proof.
  intros Hmiss Hin h id s Hh Hs.
  pose proof (proj1 (clean_nested (λ g, report_missing_child_references g m) _
    (missing_level m) g) Hmiss h Hh) as Hm.
  pose proof (proj1 (clean_nested (λ g, validate_embed_workflow_inputs g m) _
    (inputs_level m) g) Hin h Hh) as Hi.
  destruct (Hm id s Hs) as [child Hchild]. exists child. split; [done|].
  intros name field Hf Hr. eapply clean_embed_inputs; eauto.
Qed.

(** ** Embed step ids *)

(** The ids of the embedding steps of a graph and of its subgraphs, one for each. *)
Fixpoint embed_ids (g : ExecutionGraph) : list string :=
  map_fold (λ id step rest,
    match step with
    | EmbedWorkflow _ => [id]
    | Split s => embed_ids (split_subgraph s)
    | While s => embed_ids (while_subgraph s)
    | _ => []
    end ++ rest) [] (steps g).

(** How often [x] occurs. *)
Definition occurrences (x : string) (l : list string) : nat := length (filter (x =.) l).

Lemma occurrences_app x l k : occurrences x (l ++ k) = (occurrences x l + occurrences x k)%nat.
Proof. unfold occurrences. by rewrite filter_app, length_app. Qed.

Lemma occurrences_NoDup l : (∀ x, (occurrences x l ≤ 1)%nat) → NoDup l.
Proof.
  induction l as [|y l IH]; intros Hl; [constructor|]. constructor.
  - intros Hy. specialize (Hl y). unfold occurrences in Hl. rewrite filter_cons_True in Hl by done.
    assert (Hin : y ∈ filter (y =.) l) by by apply list_elem_of_filter.
    destruct (filter (y =.) l); [by apply not_elem_of_nil in Hin|]. simpl in Hl. lia.
  - apply IH. intros x. specialize (Hl x). unfold occurrences in *. rewrite filter_cons in Hl.
    case_decide; simpl in Hl; lia.
Qed.

(** The counter of each id is the number of its occurrences. *)
Lemma count_embed_step_ids_exact g counts x :
  default 0%nat (count_embed_step_ids g counts !! x)
  = (occurrences x (embed_ids g) + default 0%nat (counts !! x))%nat.
Proof.
  revert counts. induction g as [g IH] using graph_ind. intros counts.
  assert (H1 : count_embed_step_ids g counts = foldr (λ kv c, match kv.2 with
      | EmbedWorkflow _ => <[kv.1 := S (default 0%nat (c !! kv.1))]> c
      | Split s => count_embed_step_ids (split_subgraph s) c
      | While s => count_embed_step_ids (while_subgraph s) c
      | _ => c end) counts (map_to_list (steps g))).
  { destruct g as [b]. cbn [count_embed_step_ids]. rewrite map_fold_foldr.
    apply foldr_ext; [|done..]. by intros [k step] c. }
  assert (H2 : embed_ids g = foldr (λ kv rest, match kv.2 with
      | EmbedWorkflow _ => [kv.1]
      | Split s => embed_ids (split_subgraph s)
      | While s => embed_ids (while_subgraph s)
      | _ => [] end ++ rest) [] (map_to_list (steps g))).
  { destruct g as [b]. cbn [embed_ids]. rewrite map_fold_foldr.
    apply foldr_ext; [|done..]. by intros [k step] c. }
  rewrite H1, H2. clear H1 H2.
  assert (Hl : ∀ id step, (id, step) ∈ map_to_list (steps g) → steps g !! id = Some step)
    by (intros; by apply elem_of_map_to_list).
  induction (map_to_list (steps g)) as [|[id step] l IHl]; [done|]. simpl.
  specialize (IHl (λ id step H, Hl id step (proj2 (elem_of_cons _ _ _) (or_intror H)))).
  assert (Hid : steps g !! id = Some step) by (apply Hl; by left).
  rewrite occurrences_app. destruct step; simpl; try exact IHl.
  - rewrite (IH (split_subgraph s)), IHl by eauto. lia.
  - unfold occurrences at 1. rewrite filter_cons, filter_nil. case_decide as Hx; subst.
    + rewrite lookup_insert_eq. simpl. rewrite IHl. simpl. lia.
    + rewrite lookup_insert_ne by done. rewrite IHl. done.
  - rewrite (IH (while_subgraph s)), IHl by eauto. lia.
Qed.

Lemma clean_duplicate_embed_ids graphs :
  clean (duplicate_embed_ids graphs) → NoDup (flat_map embed_ids graphs).
Proof.
  unfold duplicate_embed_ids. rewrite clean_for_each. intros H.
  set (counts := foldl _ _ _) in H.
  assert (Hc : ∀ x, default 0%nat (counts !! x) = occurrences x (flat_map embed_ids graphs)).
  { intros x. subst counts. enough (Hg : ∀ c : gmap string nat, default 0%nat
      (foldl (λ c g, count_embed_step_ids g c) c graphs !! x)
      = (occurrences x (flat_map embed_ids graphs) + default 0%nat (c !! x))%nat).
    { rewrite Hg, lookup_empty. simpl. lia. }
    clear H. induction graphs as [|g graphs IH]; intros c; [done|]. simpl.
    rewrite IH, count_embed_step_ids_exact, occurrences_app. lia. }
  apply occurrences_NoDup. intros x. rewrite <-Hc. apply Nat.nlt_ge. intros Hlt.
  destruct (counts !! x) as [n|] eqn:Hx; simpl in Hlt; [|lia].
  eapply (clean_push_error (DuplicateEmbedStepId x)), (H x). unfold sorted.
  rewrite merge_sort_Permutation. apply list_elem_of_fmap. exists (x, n). split; [done|].
  apply list_elem_of_filter. split; [done|]. by apply elem_of_map_to_list.
Qed.

(** ** The workflows of a closure are validated *)

Lemma children_map_unique children (m0 : gmap string ExecutionGraph) seen x g :
  (∀ c, (ccg_workflow_id c, ccg_version c) ∈ seen → is_Some (m0 !! ccg_workflow_id c)) →
  foldl (λ m child, match m !! ccg_workflow_id child with
                    | Some _ => m
                    | None => <[ccg_workflow_id child := ccg_execution_graph child]> m
                    end) m0 children !! x = Some g →
  m0 !! x = Some g ∨ g ∈ (ccg_execution_graph <$> unique_children seen children).
Proof.
  revert m0 seen. induction children as [|c children IH]; intros m0 seen Hseen; simpl; [by left|].
  intros Hx. case_decide as Hk.
  - apply Hseen in Hk as [g' Hg']. rewrite Hg' in Hx. by eapply IH.
  - destruct (m0 !! ccg_workflow_id c) as [g'|] eqn:Hc.
    + destruct (IH m0 ({[(ccg_workflow_id c, ccg_version c)]} ∪ seen)) as [?|?]; [|done|by left|].
      * intros c' [[= Heq _]%elem_of_singleton|?]%elem_of_union; [rewrite Heq; by eexists|by apply Hseen].
      * right. simpl. by right.
    + destruct (IH (<[ccg_workflow_id c := ccg_execution_graph c]> m0)
        ({[(ccg_workflow_id c, ccg_version c)]} ∪ seen)) as [Hm|?]; [|done| |right; simpl; by right].
      * intros c' [[= Heq _]%elem_of_singleton|Hs]%elem_of_union.
        -- rewrite Heq, lookup_insert_eq. by eexists.
        -- apply Hseen in Hs as [? Hs]. rewrite lookup_insert_ne by congruence. by eexists.
      * destruct (decide (x = ccg_workflow_id c)) as [->|Hne].
        -- rewrite lookup_insert_eq in Hm. injection Hm as <-. right. simpl. by left.
        -- rewrite lookup_insert_ne in Hm by done. by left.
Qed.

Lemma closure_graph_validated root_id root children x g :
  closure_children_map root_id root children !! x = Some g →
  g = root ∨ g ∈ (ccg_execution_graph <$> unique_children ∅ children).
Proof.
  intros Hx. apply children_map_unique with (seen := ∅) in Hx;
    [|intros c Hc; by apply not_elem_of_empty in Hc].
  destruct Hx as [Hx|?]; [left|by right]. apply lookup_singleton_Some in Hx as [_ ->]. done.
Qed.

Lemma clean_no_circular r : clean r → has_circular r = false.
Proof. unfold clean, has_circular. by intros ->. Qed.

(** ** Theorems *)

(** C23: Circular embedding is found exactly.  For every graph and closure the dependency
    graph is built and searched within the rounds given; and the validator reports a circular
    dependency exactly when some workflow reached from the root embeds itself, directly or
    through other workflows of the closure, where a workflow embeds what the EmbedWorkflow
    steps of its graph and of its Split and While subgraphs at any depth name.  (Embedding
    from an [onWait] graph is not followed: [on_wait_embedding_unchecked].) *)
Theorem closure_cycles_exact root_id root children :
  let m := closure_children_map root_id root children in
  (∀ graph graph_ref workflows, is_Some (cycle_search graph graph_ref workflows)) ∧
  (errors (validate_closure_cycles root_id root m) = [] ↔
   ∀ x, rtc (depends m) root_id x → ¬ tc (depends m) x x).
Proof. split; [apply cycle_search_ends|apply closure_cycles_spec]. Qed.

(** C22: An accepted closure is complete.  When no graph of a closure has an error,
    every workflow reached from the root, through any number of workflows, over the
    EmbedWorkflow steps of a graph and of its Split and While subgraphs at any depth, is
    present, each of these steps maps every field the embedded workflow requires, no
    workflow so reached embeds itself in this way, and no id is used by two of these steps.
    (Nothing of this holds for the EmbedWorkflow steps of [onWait] graphs:
    [on_wait_embedding_unchecked].) *)
Theorem accepted_closure_complete `{StaticTemplates, UnicodeData, ConditionCodec}
  root_id root catalog children :
  closure_is_ok (validate_workflow_closure root_id root catalog children) = true →
  let m := closure_children_map root_id root children in
  (∀ x, rtc (depends m) root_id x → ∃ g, m !! x = Some g ∧ all_supplied m g) ∧
  (∀ x, rtc (depends m) root_id x → ¬ tc (depends m) x x) ∧
  NoDup (flat_map embed_ids (root :: (ccg_execution_graph <$> unique_children ∅ children))).
Proof.
  intros [Hroot Hch]%andb_true_iff m. apply result_is_ok_clean in Hroot. simpl in Hroot.
  rewrite clean_merge in Hroot. destruct Hroot as [Hroot Hdup%clean_duplicate_embed_ids].
  rewrite clean_merge in Hroot. destruct Hroot as [Hroot Hin]. apply clean_no_circular in Hroot as Hnc.
  rewrite Hnc in Hin. simpl in Hin. rewrite !clean_merge in Hroot.
  destruct Hroot as [[_ Hmiss] Hcyc].
  assert (Hall : ∀ g, g = root ∨ g ∈ (ccg_execution_graph <$> unique_children ∅ children) →
    all_supplied m g).
  { intros g [->|(c & -> & Hc)%list_elem_of_fmap]; [by apply all_supplied_clean|].
    rewrite forallb_forall in Hch.
    assert (Hr : result_is_ok (cvr_result (child_report catalog m c)) = true).
    { apply Hch, list_elem_of_In, list_elem_of_fmap. eauto. }
    apply result_is_ok_clean in Hr. simpl in Hr. rewrite !clean_merge in Hr.
    apply all_supplied_clean; tauto. }
  assert (Hpresent : ∀ x, rtc (depends m) root_id x → is_Some (m !! x)).
  { apply (rtc_ind_r (λ x, is_Some (m !! x))).
    - eexists. apply closure_children_map_root.
    - intros x y _ (g & Hg & h & id & s & Hh & Hs & <-) _.
      apply closure_graph_validated, Hall in Hg. destruct (Hg h id s Hh Hs) as (child & -> & _).
      by eexists. }
  split; [|split; [by apply closure_cycles_spec|done]].
  intros x Hx. destruct (Hpresent x Hx) as [g Hg]. exists g. split; [done|].
  by apply Hall, (closure_graph_validated root_id root children x).
Qed.

(** A shop embeds a pricing workflow and passes the one field it requires. *)
Definition pricing : ExecutionGraph :=
  typed_graph {["done" := Finish {| finish_name := None;
                   finish_input_mapping := Some {["price" := path "data.sku"]} |}]} "done" []
    {["sku" := {| (plain_field FtString) with required := true |}]}.

Definition shop_pricing : EmbedWorkflowStep :=
  {| embed_name := None; child_workflow_id := "pricing"; child_version := Latest "latest";
     embed_input_mapping := Some {["sku" := Immediate (JString "A-1")]};
     embed_max_retries := None; embed_retry_delay := None; embed_timeout := None;
     embed_durable := None |}.

Definition shop : ExecutionGraph :=
  plain_graph {["price" := EmbedWorkflow shop_pricing; "done" := Finish plain_finish]}
    "price" [edge "price" "done"].

Definition shop_children : list ClosureChildGraph :=
  [{| ccg_workflow_id := "pricing"; ccg_version := 3; ccg_execution_graph := pricing |}].

#[local] Existing Instances text_engine ascii_data no_references no_conditions.

(** The shop's closure is accepted, and it is not when the pricing workflow is missing. *)
Lemma accepted_closure_complete_witness :
  closure_is_ok (validate_workflow_closure "shop" shop demo_catalog shop_children) = true ∧
  closure_is_ok (validate_workflow_closure "shop" shop demo_catalog []) = false ∧
  let m := closure_children_map "shop" shop shop_children in
  rtc (depends m) "shop" "pricing" ∧
  (∀ x, rtc (depends m) "shop" x → ∃ g, m !! x = Some g ∧ all_supplied m g).
Proof.
  assert (Hok : closure_is_ok (validate_workflow_closure "shop" shop demo_catalog shop_children) = true)
    by (vm_compute; reflexivity).
  split; [exact Hok|]. split; [vm_compute; reflexivity|]. split.
  - apply rtc_once. exists shop. split; [reflexivity|].
    exists shop, "price", shop_pricing. split; [apply rtc_refl|]. split; reflexivity.
  - exact (proj1 (accepted_closure_complete "shop" shop demo_catalog shop_children Hok)).
Defined.

(** Finding: no check of the closure opens [onWait] graphs.  A workflow that notifies by a
    workflow that is not there, and one that notifies by itself, are accepted. *)
Definition notifying (child : string) : ExecutionGraph :=
  plain_graph {["wait" := waiting_on (plain_graph
                  {["notify" := EmbedWorkflow {| embed_name := None; child_workflow_id := child;
                      child_version := Latest "latest"; embed_input_mapping := None;
                      embed_max_retries := None; embed_retry_delay := None; embed_timeout := None;
                      embed_durable := None |};
                    "notified" := Finish plain_finish]} "notify" [edge "notify" "notified"]);
                "done" := Finish plain_finish]} "wait" [edge "wait" "done"].

Lemma on_wait_embedding_unchecked :
  closure_is_ok (validate_workflow_closure "shop" (notifying "missing") demo_catalog []) = true ∧
  closure_is_ok (validate_workflow_closure "shop" (notifying "shop") demo_catalog []) = true.
Proof. split; vm_compute; reflexivity. Qed.
