(* ===== verification/Schemas.v ===== *)
(** * runtara-dsl and runtara-workflows: values against schemas

    [schema_convert.rs]: the JSON Schema of a map of fields; [schema_validate.rs]: the
    structural check of a value against such a schema, used for the structured output
    of models; [input_validation.rs]: the check of the inputs a run is started with;
    [schema_fields_validation.rs]: the rows of the schema editor. *)

From S2P Require Import Prelude.
From S2P Require Import Json.
From S2P Require Import Text.
From S2P Require Import Float64.
From S2P Require Import GuestStore.
From S2P Require Import GuestPaths.
From S2P Require Import Dsl.
From S2P Require Import ValidationBase.
From S2P Require Import ValidationRefs.
From Stdlib Require Import Floats.SpecFloat.

(** ** Numbers and equality *)

(** [x as u64]: truncates and saturates; NaN becomes 0. *)
Definition f64_as_u64 (x : f64) : Z :=
  match x with
  | S754_nan | S754_zero _ => 0
  | S754_infinity neg => if neg then 0 else u64_max
  | S754_finite neg m e =>
      let v := if 0 <=? e then Z.shiftl (Zpos m) e else Z.shiftr (Zpos m) (- e) in
      if neg then 0 else Z.min u64_max v
  end.

(** [x.fract() == 0.0] *)
Definition f64_is_integral (x : f64) : bool :=
  match x with
  | S754_zero _ => true
  | S754_finite _ m e => (0 <=? e) || (Zpos m mod 2 ^ (- e) =? 0)
  | _ => false
  end.

Definition jnum_eqb (a b : jnum) : bool :=
  match a, b with
  | PosInt x, PosInt y | NegInt x, NegInt y => x =? y
  | Float x, Float y => f64_eqb x y
  | _, _ => false
  end.

(** [==] on [serde_json::Value] *)
Fixpoint json_eqb (a b : json) : bool :=
  match a, b with
  | JNull, JNull => true
  | JBool x, JBool y => Bool.eqb x y
  | JNumber x, JNumber y => jnum_eqb x y
  | JString x, JString y => bool_decide (x = y)
  | JArray xs, JArray ys =>
      (fix go (xs ys : list json) : bool :=
         match xs, ys with
         | [], [] => true
         | x :: xs, y :: ys => json_eqb x y && go xs ys
         | _, _ => false
         end) xs ys
  | JObject xs, JObject ys =>
      (fix go (xs ys : list (string * json)) : bool :=
         match xs, ys with
         | [], [] => true
         | (k, x) :: xs, (l, y) :: ys => bool_decide (k = l) && json_eqb x y && go xs ys
         | _, _ => false
         end) xs ys
  | _, _ => false
  end.

(** ** schema_convert.rs *)

Definition json_schema_type (t : SchemaFieldType) : string :=
  match t with
  | FtString => "string"
  | FtInteger => "integer"
  | FtNumber => "number"
  | FtBoolean => "boolean"
  | FtArray => "array"
  | FtObject => "object"
  | FtFile => "object"
  | FtConnection => "string"
  end.

(** [prop.insert(key, value)], when there is a value. *)
Definition insert_some (k : string) (v : option json) (m : list (string * json)) :
  list (string * json) :=
  match v with Some v => assoc_set k v m | None => m end.

(** A bound of a string is a length, a bound of a number is a number. *)
Definition insert_bound (t : SchemaFieldType) (length_key number_key : string)
  (bound : option f64) (m : list (string * json)) : list (string * json) :=
  match bound with
  | None => m
  | Some x =>
      match t with
      | FtString => assoc_set length_key (JNumber (PosInt (f64_as_u64 x))) m
      | FtInteger | FtNumber => assoc_set number_key (default JNull (number_from_f64 x)) m
      | _ => m
      end
  end.

Section object_schema.
Context (schema_field_to_json_schema : SchemaField → json).

Definition schema_properties (schema : gmap string SchemaField) : list (string * json) :=
  map_fold (λ name f rest, assoc_set name (schema_field_to_json_schema f) rest) [] schema.
End object_schema.

Definition required_names (schema : gmap string SchemaField) : list string :=
  sorted (fst <$> filter (λ kv, required kv.2 = true) (map_to_list schema)).

(** The required names are listed only if there are any. *)
Definition insert_required (schema : gmap string SchemaField) (m : list (string * json)) :
  list (string * json) :=
  if decide (required_names schema = []) then m
  else assoc_set "required" (JArray (JString <$> required_names schema)) m.

Fixpoint schema_field_to_json_schema (field : SchemaField) : json :=
  let t := field_type field in
  let prop := assoc_set "type" (JString (json_schema_type t)) [] in
  let prop := insert_some "description" (JString <$> field_description field) prop in
  let prop := insert_some "default" (field_default field) prop in
  let prop :=
    match items field with
    | Some i => assoc_set "items" (schema_field_to_json_schema i) prop
    | None => prop
    end in
  let prop := insert_some "enum" (JArray <$> enum_values field) prop in
  let prop := insert_bound t "minLength" "minimum" (field_min field) prop in
  let prop := insert_bound t "maxLength" "maximum" (field_max field) prop in
  let prop :=
    if decide (t = FtString) then insert_some "pattern" (JString <$> field_pattern field) prop
    else prop in
  match properties field with
  | Some props =>
      if decide (t = FtObject) then
        JObject (assoc_set "additionalProperties" (JBool false)
          (insert_required props
             (assoc_set "properties"
                (JObject (schema_properties schema_field_to_json_schema props)) prop)))
      else JObject prop
  | None => JObject prop
  end.

Definition dsl_schema_to_json_schema (schema : gmap string SchemaField) : json :=
  JObject (assoc_set "additionalProperties" (JBool false)
    (insert_required schema
       (assoc_set "properties" (JObject (schema_properties schema_field_to_json_schema schema))
          (assoc_set "type" (JString "object") [])))).

(** ** schema_validate.rs

    Its [type_name] names types as [get_json_type_name] does. *)

Definition type_matches (value : json) (expected : string) : bool :=
  if decide (expected = "object") then is_object value
  else if decide (expected = "array") then is_array value
  else if decide (expected = "string") then is_string value
  else if decide (expected = "boolean") then is_boolean value
  else if decide (expected = "integer") then
    is_integer value
    || match as_f64 value with Some n => f64_is_integral n | None => false end
  else if decide (expected = "number") then is_number value
  else true.

Definition label (path : string) : string := if is_empty_str path then "$" else path.

Definition child_path (path name : string) : string :=
  if is_empty_str path then name else path +:+ "." +:+ name.

Definition indexed_path (path : string) (index : nat) : string :=
  path +:+ "[" +:+ show_Z (Z.of_nat index) +:+ "]".

(** [items.iter().enumerate()], from index [i]. *)
Section each_item.
Context {A : Type} (f : nat → json → list A).

Fixpoint each_item (i : nat) (l : list json) : list A :=
  match l with
  | [] => []
  | x :: l => f i x ++ each_item (S i) l
  end.
End each_item.

(** The strings of an array; nothing for any other value. *)
Definition names_of (v : option json) : list string :=
  match v with Some (JArray l) => omap as_str l | _ => [] end.

Definition required_errors (path : string) (required : list string)
  (map : list (string * json)) : list string :=
  flat_map (λ name,
    match assoc_get name map with
    | None => [label path +:+ ": required property `" +:+ name +:+ "` is missing"]
    | Some JNull => [label path +:+ ": required property `" +:+ name +:+ "` is null"]
    | Some _ => []
    end) required.

Section schema_validate.
Context `{JsonDisplay}.

Definition render (value : json) : string :=
  let rendered := json_display value in
  let cs := chars rendered in
  if (length cs <=? 60)%nat then rendered else concat_str (take 60 cs) +:+ "…".

(** Is [value] in the list of allowed values? *)
Definition enum_errors (path : string) (schema : list (string * json)) (value : json) :
  list string :=
  match assoc_get "enum" schema with
  | Some (JArray allowed) =>
      if existsb (λ candidate, json_eqb candidate value) allowed then []
      else [label path +:+ ": " +:+ render value +:+ " is not one of the allowed values"]
  | _ => []
  end.

(** The expected type, when the schema has one and the value does not match it. *)
Definition mismatched_type (schema : list (string * json)) (value : json) : option string :=
  match assoc_get "type" schema with
  | Some (JString expected) => if type_matches value expected then None else Some expected
  | _ => None
  end.

Fixpoint validate_value (schema : json) (value : json) (path : string) : list string :=
  match schema with
  | JObject s =>
      match mismatched_type s value with
      | Some expected =>
          [label path +:+ ": expected " +:+ expected +:+ ", got " +:+ get_json_type_name value]
      | None =>
          enum_errors path s value ++
          match value with
          | JObject map =>
              required_errors path (names_of (assoc_get "required" s)) map ++
              default [] (assoc_with (λ props,
                match props with
                | JObject props =>
                    flat_map (λ '(name, property_schema),
                      match assoc_get name map with
                      | None | Some JNull => []
                      | Some child => validate_value property_schema child (child_path path name)
                      end) props
                | _ => []
                end) "properties" s)
          | JArray l =>
              default [] (assoc_with (λ item_schema,
                each_item (λ index item,
                  validate_value item_schema item (indexed_path path index)) 0 l) "items" s)
          | _ => []
          end
      end
  | _ => []
  end.

Definition validate_against_json_schema (value schema : json) : result (list string) unit :=
  match validate_value schema value "" with
  | [] => Ok tt
  | errors => Err errors
  end.
End schema_validate.

(** ** input_validation.rs *)

Definition is_empty_schema (schema : json) : bool :=
  match as_object schema with Some m => bool_decide (m = []) | None => true end.

(** [{"data": {...}, "variables": {...}}] *)
Definition input_example : string :=
  "{" +:+ dquote +:+ "data" +:+ dquote +:+ ": {...}, " +:+ dquote +:+ "variables" +:+ dquote
  +:+ ": {...}}".

Definition validate_workflow_inputs (inputs : json) : result string json :=
  match inputs with
  | JObject obj =>
      if decide (assoc_get "data" obj = None) then
        Err ("inputs must contain 'data' key, e.g. " +:+ input_example)
      else Ok (JObject (assoc_or_insert "variables" (JObject []) obj))
  | _ => Err ("inputs must be a JSON object with 'data' key, e.g. " +:+ input_example)
  end.

(** The property of one field; an entry that is no object has none. *)
Definition start_property (field_obj : list (string * json)) : json :=
  let type_of t :=
    if decide (as_str t = Some "file") then JString "object" else t in
  JObject (insert_some "items" (assoc_get "items" field_obj)
    (insert_some "default" (assoc_get "default" field_obj)
       (insert_some "description" (assoc_get "description" field_obj)
          (insert_some "type" (type_of <$> assoc_get "type" field_obj) [])))).

Definition is_required (field_obj : list (string * json)) : bool :=
  default false (assoc_get "required" field_obj ≫= as_bool).

(** [dsl_schema_to_json_schema] of input_validation.rs *)
Definition start_schema (schema : json) : json :=
  match schema with
  | JObject obj =>
      if decide (assoc_get "properties" obj ≠ None) then schema
      else
        let fields := omap (λ '(name, def), (λ m, (name, m)) <$> as_object def) obj in
        let properties :=
          foldl (λ m '(name, field_obj), assoc_set name (start_property field_obj) m) [] fields in
        let required := fst <$> filter (λ f, is_required f.2 = true) fields in
        let base :=
          assoc_set "properties" (JObject properties) (assoc_set "type" (JString "object") []) in
        JObject (if decide (required = []) then base
                 else assoc_set "required" (JArray (JString <$> required)) base)
  | _ => schema
  end.

Definition matches_single_schema_type (value : json) (type_name : string) : bool :=
  if decide (type_name = "array") then is_array value
  else if decide (type_name = "boolean") then is_boolean value
  else if decide (type_name = "integer") then
    bool_decide (as_i64 value ≠ None) || bool_decide (as_u64 value ≠ None)
  else if decide (type_name = "number") then is_number value
  else if decide (type_name = "object") then is_object value
  else if decide (type_name = "string") then is_string value
  else if decide (type_name = "null") then is_null value
  else true.

Definition matches_schema_type (value type_value : json) : bool :=
  match type_value with
  | JString type_name => matches_single_schema_type value type_name
  | JArray types => existsb (matches_single_schema_type value) (omap as_str types)
  | _ => true
  end.

Definition schema_type_description (type_value : json) : string :=
  match type_value with
  | JString type_name => "a " +:+ type_name
  | JArray types =>
      let names := omap as_str types in
      if decide (names = []) then "a valid value" else "one of: " +:+ join ", " names
  | _ => "a valid value"
  end.

Definition display_path (path : string) : string := if is_empty_str path then "input" else path.

Definition input_enum_errors (path : string) (s : list (string * json)) (value : json) :
  list string :=
  match assoc_get "enum" s with
  | Some (JArray enum_values) =>
      if existsb (λ enum_value, json_eqb enum_value value) enum_values then []
      else [display_path path +:+ " must be one of the allowed values"]
  | _ => []
  end.

(** The type of the schema, when the value does not match it. *)
Definition unmatched_type (s : list (string * json)) (value : json) : option json :=
  type_value ← assoc_get "type" s;
  if matches_schema_type value type_value then None else Some type_value.

Definition input_required_errors (path : string) (required : list string)
  (object : list (string * json)) : list string :=
  flat_map (λ field,
    if decide (assoc_get field object = None) then [child_path path field +:+ " is required"]
    else []) required.

(** [validate_value] of input_validation.rs; its [join_path] is [child_path]. *)
Fixpoint validate_input_value (schema : json) (value : json) (path : string) : list string :=
  match schema with
  | JObject s =>
      input_enum_errors path s value ++
      match unmatched_type s value with
      | Some type_value =>
          [display_path path +:+ " must be " +:+ schema_type_description type_value]
      | None =>
          match value with
          | JObject object =>
              input_required_errors path (names_of (assoc_get "required" s)) object ++
              default [] (assoc_with (λ props,
                match props with
                | JObject props =>
                    flat_map (λ '(field, field_schema),
                      match assoc_get field object with
                      | None => []
                      | Some field_value =>
                          validate_input_value field_schema field_value (child_path path field)
                      end) props
                | _ => []
                end) "properties" s)
          | JArray l =>
              default [] (assoc_with (λ items_schema,
                each_item (λ index item,
                  validate_input_value items_schema item (indexed_path path index)) 0 l) "items" s)
          | _ => []
          end
      end
  | _ => []
  end.

Definition validate_inputs (inputs schema : json) : result string unit :=
  match validate_input_value (start_schema schema) inputs "" with
  | [] => Ok tt
  | errors => Err (join "; " errors)
  end.

Definition validate_workflow_start_inputs (inputs input_schema : json) : result string json :=
  validated ← validate_workflow_inputs inputs;
  if is_empty_schema input_schema then Ok validated
  else
    let data := default (JObject []) (json_get "data" validated) in
    match validate_inputs data input_schema with
    | Ok _ => Ok validated
    | Err e => Err ("Input validation failed: " +:+ e)
    end.

(** ** schema_fields_validation.rs *)

Record EditableSchemaField := {
  esf_name : string;
  esf_field_type : option string }.

Record SchemaFieldValidationIssue := {
  issue_code : string;
  issue_message : string;
  issue_field_name : option string;
  issue_row_indices : list nat }.

(** The rows of each trimmed name, by name. *)
Definition row_indices_by_name (fields : list EditableSchemaField) : gmap string (list nat) :=
  foldl (λ rows '(index, f),
    let name := trim (esf_name f) in
    if is_empty_str name then rows
    else <[name := default [] (rows !! name) ++ [index]]> rows) ∅ (imap pair fields).

Definition validate_schema_fields (schema_label : string) (fields : list EditableSchemaField) :
  list SchemaFieldValidationIssue :=
  let rows := row_indices_by_name fields in
  flat_map (λ name,
    let indices := default [] (rows !! name) in
    if (length indices <? 2)%nat then []
    else
      [{| issue_code := "E008";
          issue_message := "[E008] " +:+ schema_label +:+ " field name '" +:+ name
            +:+ "' is duplicated. Field names must be unique.";
          issue_field_name := Some name; issue_row_indices := indices |}]) (sorted_keys rows).
