(* ===== verification/SchemaProperties.v ===== *)
(** * Schemas: what the checks of values and of references promise

    The structural check of a value against the JSON Schema of a map of fields accepts
    exactly the values that meet the fields; a reference the validator accepts, read
    from data that meets the schema, never meets a value it cannot enter. *)

From S2P Require Import Prelude.
From S2P Require Import Json.
From S2P Require Import Text.
From S2P Require Import Float64.
From S2P Require Import InstanceHandlers.
From S2P Require Import GuestStore.
From S2P Require Import GuestPaths.
From S2P Require Import GuestExpr.
From S2P Require Import GuestScenarios.
From S2P Require Import GuestStoreProperties.
From S2P Require Import GuestProperties.
From S2P Require Import GuestStepProperties.
From S2P Require Import Dsl.
From S2P Require Import ValidationBase.
From S2P Require Import ValidationGraph.
From S2P Require Import ValidationRefs.
From S2P Require Import Validation.
From S2P Require Import ValidationLemmas.
From S2P Require Import Schemas.
From Stdlib Require Import Floats.SpecFloat.

(** ** Values that conform to a schema

    What a field of the DSL says about a value, without the keywords of JSON Schema. *)

(** The number is whole: written as an integer, or a float of integral value. *)
Definition whole (n : jnum) : Prop :=
  match n with
  | PosInt _ | NegInt _ => True
  | Float (S754_zero _) => True
  | Float (S754_finite _ m e) => 0 ≤ e ∨ ∃ k, Zpos m = k * 2 ^ (- e)
  | Float _ => False
  end.

(** A file is an object that describes it; a connection is named by a text. *)
Inductive has_type : SchemaFieldType → json → Prop :=
| ht_string s : has_type FtString (JString s)
| ht_connection s : has_type FtConnection (JString s)
| ht_boolean b : has_type FtBoolean (JBool b)
| ht_number n : has_type FtNumber (JNumber n)
| ht_integer n : whole n → has_type FtInteger (JNumber n)
| ht_array l : has_type FtArray (JArray l)
| ht_object m : has_type FtObject (JObject m)
| ht_file m : has_type FtFile (JObject m).

(** Every required field is there, and is not null. *)
Definition has_required (schema : gmap string SchemaField) (m : list (string * json)) : Prop :=
  ∀ name f, schema !! name = Some f → required f = true →
    ∃ v, assoc_get name m = Some v ∧ v ≠ JNull.

(** A value meets a field when it has its type and equals one of its values, every element
    meets the field of the items, and an object has the required ones of its declared
    fields and meets them all; a field that is null is taken as missing. *)
Inductive field_met : SchemaField → json → Prop :=
| FieldMet f v :
    has_type (field_type f) v →
    (∀ allowed, enum_values f = Some allowed → ∃ w, w ∈ allowed ∧ json_eqb w v = true) →
    (∀ i l x, items f = Some i → v = JArray l → x ∈ l → field_met i x) →
    (∀ props m, field_type f = FtObject → properties f = Some props → v = JObject m →
       has_required props m) →
    (∀ props m name g w, field_type f = FtObject → properties f = Some props → v = JObject m →
       props !! name = Some g → assoc_get name m = Some w → w ≠ JNull → field_met g w) →
    field_met f v.

(** An object with the required fields of [schema] that meets them all. *)
Definition fields_met (schema : gmap string SchemaField) (v : json) : Prop :=
  ∃ m, v = JObject m ∧ has_required schema m ∧
    ∀ name g w, schema !! name = Some g → assoc_get name m = Some w → w ≠ JNull → field_met g w.

Lemma whole_exact n :
  is_integer (JNumber n) || f64_is_integral (number_as_f64 n) = true ↔ whole n.
Proof.
  destruct n as [z|z|f]; [by simpl|by simpl|].
  destruct f as [s|s| |s m e]; [done|by split|by split|].
  change (is_integer (JNumber (Float (S754_finite s m e)))) with false.
  cbn [orb number_as_f64 f64_is_integral whole].
  rewrite orb_true_iff, Z.leb_le, Z.eqb_eq. destruct (Z_le_gt_dec 0 e) as [He|He]; [tauto|].
  assert (Hp : 0 < 2 ^ (- e)) by (apply Z.pow_pos_nonneg; lia).
  rewrite Z.mod_divide by lia. unfold Z.divide. tauto.
Qed.

(** The types of JSON Schema stand for those of the DSL. *)
Lemma type_matches_exact v t : type_matches v (json_schema_type t) = true ↔ has_type t v.
Proof.
  destruct t; unfold type_matches; simpl.
  1,3-8: split; [by destruct v; try discriminate; constructor|by inversion 1].
  destruct v as [| |n| | |]; simpl; try (split; [discriminate|by inversion 1]).
  etrans; [apply (whole_exact n)|]. split; [by constructor|by inversion 1].
Qed.

(** ** Fields within fields *)

Fixpoint field_size (f : SchemaField) : nat :=
  S (match items f with Some i => field_size i | None => 0 end
     + match properties f with
       | Some m => map_fold (λ _ f n, field_size f + n)%nat 0%nat m
       | None => 0
       end)%nat.

Inductive subfield : SchemaField → SchemaField → Prop :=
| subfield_item f i : items f = Some i → subfield f i
| subfield_property f m name g : properties f = Some m → m !! name = Some g → subfield f g.

Lemma field_ind (P : SchemaField → Prop) :
  (∀ f, (∀ g, subfield f g → P g) → P f) → ∀ f, P f.
Proof.
  intros HP f. induction (well_founded_ltof _ field_size f) as [f _ IH].
  apply HP. intros g Hg. apply IH. unfold ltof. destruct Hg as [f i Hi|f m name g Hm Hg].
  - destruct f as [t d r df it en mi ma pa pr nu]; simpl in *. subst it. lia.
  - pose proof (map_fold_sum_le field_size m name g Hg).
    destruct f as [t d r df it en mi ma pa pr nu]; simpl in *. subst pr. destruct it; lia.
Qed.

(** ** The JSON Schema of a field *)

Lemma get_insert_some_eq k v m :
  assoc_get k m = None → assoc_get k (insert_some k v m) = v.
Proof. destruct v; simpl; [by rewrite assoc_get_set_eq|done]. Qed.

Lemma get_insert_some_ne k k' v m :
  k ≠ k' → assoc_get k (insert_some k' v m) = assoc_get k m.
Proof. intros. destruct v; simpl; [by rewrite assoc_get_set_ne|done]. Qed.

Lemma get_insert_bound_ne k t lk nk b m :
  k ≠ lk → k ≠ nk → assoc_get k (insert_bound t lk nk b m) = assoc_get k m.
Proof. intros. destruct b, t; simpl; rewrite ?assoc_get_set_ne by done; done. Qed.

Lemma get_insert_required_ne k schema m :
  k ≠ "required" → assoc_get k (insert_required schema m) = assoc_get k m.
Proof. intros. unfold insert_required. case_decide; [done|]. by rewrite assoc_get_set_ne. Qed.

Lemma names_insert_required schema m :
  assoc_get "required" m = None →
  names_of (assoc_get "required" (insert_required schema m)) = required_names schema.
Proof.
  intros Hm. unfold insert_required. case_decide as Hn; [by rewrite Hm, Hn|].
  rewrite assoc_get_set_eq. simpl. clear Hn. induction (required_names schema); [done|].
  csimpl. by f_equal.
Qed.

Ltac schema_get :=
  repeat first
    [ rewrite assoc_get_set_eq
    | rewrite assoc_get_set_ne by done
    | rewrite get_insert_some_ne by done
    | rewrite get_insert_bound_ne by done
    | rewrite get_insert_required_ne by done
    | rewrite get_insert_some_eq ].

(** The keywords of the schema of a field that the check reads. *)
Definition properties_of (f : SchemaField) : option (gmap string SchemaField) :=
  if decide (field_type f = FtObject) then properties f else None.

Lemma field_schema f : ∃ s, schema_field_to_json_schema f = JObject s ∧
  assoc_get "type" s = Some (JString (json_schema_type (field_type f))) ∧
  assoc_get "enum" s = JArray <$> enum_values f ∧
  assoc_get "items" s = schema_field_to_json_schema <$> items f ∧
  assoc_get "properties" s
    = (λ m, JObject (schema_properties schema_field_to_json_schema m)) <$> properties_of f ∧
  names_of (assoc_get "required" s) = default [] (required_names <$> properties_of f).
Proof.
  destruct f as [t d r df it en mi ma pa pr nu]. cbn -[assoc_set assoc_get].
  unfold properties_of. cbn -[assoc_set assoc_get].
  set (s := if decide (t = FtString) then _ else _).
  assert (Hs : assoc_get "type" s = Some (JString (json_schema_type t)) ∧
    assoc_get "enum" s = JArray <$> en ∧ assoc_get "items" s = schema_field_to_json_schema <$> it ∧
    assoc_get "properties" s = None ∧ assoc_get "required" s = None).
  { subst s. destruct it; repeat split; case_decide; schema_get; done. }
  clearbody s. destruct Hs as (H1 & H2 & H3 & H4 & H5).
  destruct pr as [props|]; [case_decide|case_decide]; eexists; (split; [reflexivity|]);
    rewrite ?H4, ?H5; try done.
  repeat split; schema_get; try done. apply names_insert_required. by schema_get.
Qed.

(** ** The check of a value *)

Lemma elem_of_assoc_set k v m k' v' :
  assoc_get k m = None →
  (k', v') ∈ assoc_set k v m ↔ (k' = k ∧ v' = v) ∨ (k', v') ∈ m.
Proof.
  induction m as [|[l w] m IH]; simpl; intros Hk.
  - rewrite list_elem_of_singleton, elem_of_nil. naive_solver.
  - case_decide; [done|]. destruct (str_ltb k l); rewrite !elem_of_cons, ?IH by done; naive_solver.
Qed.

Lemma elem_of_schema_properties F m name j :
  (name, j) ∈ schema_properties F m ↔ ∃ f, m !! name = Some f ∧ j = F f.
Proof.
  unfold schema_properties.
  enough (H : (∀ name, assoc_get name (map_fold (λ name f rest, assoc_set name (F f) rest) [] m)
      = F <$> m !! name) ∧
    ∀ name j, (name, j) ∈ map_fold (λ name f rest, assoc_set name (F f) rest) [] m ↔
      ∃ f, m !! name = Some f ∧ j = F f) by apply H.
  apply (map_fold_weak_ind (λ l m, (∀ name, assoc_get name l = F <$> m !! name) ∧
    ∀ name j, (name, j) ∈ l ↔ ∃ f, m !! name = Some f ∧ j = F f)).
  - split; [done|]. intros. rewrite elem_of_nil. set_solver.
  - intros k f m' l Hk [Hg He]. split.
    + intros x. destruct (decide (x = k)) as [->|Hx].
      * by rewrite assoc_get_set_eq, lookup_insert_eq.
      * by rewrite assoc_get_set_ne, lookup_insert_ne.
    + intros x j'. rewrite elem_of_assoc_set by by rewrite Hg, Hk. rewrite He.
      destruct (decide (x = k)) as [->|Hx].
      * rewrite lookup_insert_eq, Hk. naive_solver.
      * rewrite lookup_insert_ne by done. naive_solver.
Qed.

Lemma flat_map_nil {A B} (f : A → list B) l : flat_map f l = [] ↔ ∀ x, x ∈ l → f x = [].
Proof.
  induction l as [|a l IH]; simpl; [set_solver|]. split.
  - intros [Ha Hl]%app_nil x [->|Hx]%elem_of_cons; [done|]. by apply IH.
  - intros H. rewrite (H a), (proj2 IH); [done| |by left]. intros x Hx. apply H. by right.
Qed.

Lemma each_item_nil {A} (f : nat → json → list A) i l :
  each_item f i l = [] ↔ ∀ j x, l !! j = Some x → f (i + j)%nat x = [].
Proof.
  revert i. induction l as [|a l IH]; intros i; simpl; [done|]. split.
  - intros [Ha Hl]%app_nil [|j] x; simpl.
    + intros [= ->]. by rewrite Nat.add_0_r.
    + intros Hx. rewrite <-Nat.add_succ_comm. by eapply IH.
  - intros H. rewrite (proj2 (IH (S i))).
    + rewrite app_nil_r. specialize (H 0%nat a). rewrite Nat.add_0_r in H. auto.
    + intros j x Hx. rewrite Nat.add_succ_comm. by apply H.
Qed.

Lemma elem_of_required_names schema name :
  name ∈ required_names schema ↔ ∃ f, schema !! name = Some f ∧ required f = true.
Proof.
  unfold required_names, sorted. rewrite merge_sort_Permutation, list_elem_of_fmap. split.
  - intros ([k f] & -> & [Hr Hf]%list_elem_of_filter). exists f. by apply elem_of_map_to_list in Hf.
  - intros (f & Hf & Hr). exists (name, f). split; [done|]. apply list_elem_of_filter.
    split; [done|]. by apply elem_of_map_to_list.
Qed.

Lemma required_errors_nil path schema m :
  required_errors path (required_names schema) m = [] ↔ has_required schema m.
Proof.
  unfold required_errors, has_required. rewrite flat_map_nil. split.
  - intros H name f Hf Hr. specialize (H name). rewrite elem_of_required_names in H.
    specialize (H (ex_intro _ f (conj Hf Hr))). destruct (assoc_get name m) as [[]|]; naive_solver.
  - intros H name (f & Hf & Hr)%elem_of_required_names.
    destruct (H name f Hf Hr) as (v & -> & Hv). by destruct v.
Qed.

Section exact.
Context `{JsonDisplay}.

(** The check of the parts of a value, with the keywords looked up. *)
Definition check_parts (s : list (string * json)) (v : json) (path : string) : list string :=
  match v with
  | JObject m =>
      required_errors path (names_of (assoc_get "required" s)) m ++
      match assoc_get "properties" s with
      | Some (JObject props) =>
          flat_map (λ '(name, property_schema),
            match assoc_get name m with
            | None | Some JNull => []
            | Some child => validate_value property_schema child (child_path path name)
            end) props
      | _ => []
      end
  | JArray l =>
      match assoc_get "items" s with
      | Some i => each_item (λ index item, validate_value i item (indexed_path path index)) 0 l
      | None => []
      end
  | _ => []
  end.

Lemma validate_object s v path :
  validate_value (JObject s) v path = [] ↔
  mismatched_type s v = None ∧ enum_errors path s v = [] ∧ check_parts s v path = [].
Proof.
  cbn [validate_value]. destruct (mismatched_type s v); [naive_solver|]. rewrite app_nil.
  unfold check_parts. destruct v; simpl; rewrite ?assoc_with_get; try tauto.
  - destruct (assoc_get "items" s); simpl; tauto.
  - destruct (assoc_get "properties" s) as [[]|]; simpl; tauto.
Qed.

(** The declared fields of an object, in the check and as [met]. *)
Lemma declared_nil (met : SchemaField → json → Prop) path (m : list (string * json)) props :
  (∀ name g, props !! name = Some g → ∀ w p,
     validate_value (schema_field_to_json_schema g) w p = [] ↔ met g w) →
  flat_map (λ '(name, property_schema),
    match assoc_get name m with
    | None | Some JNull => []
    | Some child => validate_value property_schema child (child_path path name)
    end) (schema_properties schema_field_to_json_schema props) = [] ↔
  ∀ name g w, props !! name = Some g → assoc_get name m = Some w → w ≠ JNull → met g w.
Proof.
  intros Hmet. rewrite flat_map_nil. split.
  - intros Hall name g w Hg Hw Hn. apply (Hmet name g Hg w (child_path path name)).
    specialize (Hall (name, schema_field_to_json_schema g)). rewrite elem_of_schema_properties in Hall.
    specialize (Hall (ex_intro _ g (conj Hg eq_refl))). simpl in Hall. rewrite Hw in Hall.
    by destruct w.
  - intros Hall [name j] (g & Hg & ->)%elem_of_schema_properties.
    destruct (assoc_get name m) as [w|] eqn:Hw; [|done].
    destruct w; try done; (apply (Hmet name g Hg); by eapply Hall).
Qed.

Lemma enum_errors_nil path s v allowed :
  assoc_get "enum" s = JArray <$> allowed →
  enum_errors path s v = [] ↔
  ∀ l, allowed = Some l → ∃ w, w ∈ l ∧ json_eqb w v = true.
Proof.
  intros Hs. unfold enum_errors. rewrite Hs. destruct allowed as [l|]; simpl; [|naive_solver].
  destruct (existsb _ l) eqn:He.
  - apply existsb_exists in He as (w & Hw & ?). split; [|done]. intros _ ? [= <-].
    exists w. by rewrite list_elem_of_In.
  - split; [done|]. intros Hl. destruct (Hl l eq_refl) as (w & Hw%list_elem_of_In & Heq).
    assert (existsb (λ c, json_eqb c v) l = true) by (apply existsb_exists; eauto). congruence.
Qed.

Lemma field_checked f v path :
  validate_value (schema_field_to_json_schema f) v path = [] ↔ field_met f v.
Proof.
  revert v path. induction f as [f IH] using field_ind. intros v path.
  destruct (field_schema f) as (s & -> & Ht & He & Hi & Hp & Hr). rewrite validate_object.
  unfold mismatched_type. rewrite Ht. destruct (type_matches v _) eqn:Htm.
  2:{ split; [naive_solver|]. intros Hm. inversion Hm as [? ? Hty%type_matches_exact]. congruence. }
  rewrite (enum_errors_nil path s v (enum_values f) He). unfold check_parts. rewrite Hi, Hp, Hr.
  assert (Hitem : ∀ i, items f = Some i → ∀ w p,
    validate_value (schema_field_to_json_schema i) w p = [] ↔ field_met i w)
    by (intros; apply IH; by constructor).
  assert (Hprop : ∀ props, properties f = Some props → ∀ name g, props !! name = Some g → ∀ w p,
    validate_value (schema_field_to_json_schema g) w p = [] ↔ field_met g w)
    by (intros; apply IH; by econstructor).
  split.
  - intros (_ & Henum & Hrest). constructor; [by apply type_matches_exact|done| | |].
    + intros i l x Hif -> Hx. apply list_elem_of_lookup in Hx as [j Hj].
      rewrite Hif in Hrest. simpl in Hrest. rewrite each_item_nil in Hrest.
      eapply Hitem; [done|]. by eapply (Hrest j).
    + intros props m Hft Hpf ->. unfold properties_of in Hrest. rewrite Hft, Hpf in Hrest.
      simpl in Hrest. apply app_nil in Hrest as [Hreq _]. by apply required_errors_nil in Hreq.
    + intros props m name g w Hft Hpf -> Hg. unfold properties_of in Hrest.
      rewrite Hft, Hpf in Hrest. simpl in Hrest. apply app_nil in Hrest as [_ Hrest].
      apply (declared_nil field_met path m props (Hprop props Hpf)); done.
  - intros Hm. inversion Hm as [f' v' _ Henum Hits Hreq Hdecl]; subst. do 2 (split; [done|]).
    destruct v as [| | | |l|m]; try done.
    + destruct (items f) as [i|] eqn:Hif; simpl; [|done]. apply each_item_nil.
      intros j x Hx. apply (Hitem i eq_refl). eapply Hits; [done..|]. by eapply list_elem_of_lookup_2.
    + unfold properties_of. case_decide as Hft; simpl; [|done].
      destruct (properties f) as [props|] eqn:Hpf; simpl; [|done]. apply app_nil. split.
      * apply required_errors_nil. by eapply Hreq.
      * apply (declared_nil field_met path m props (Hprop props eq_refl)). intros. by eapply Hdecl.
Qed.

Lemma schema_checked schema v :
  validate_value (dsl_schema_to_json_schema schema) v "" = [] ↔ fields_met schema v.
Proof.
  unfold dsl_schema_to_json_schema. rewrite validate_object. unfold check_parts.
  set (s := assoc_set "additionalProperties" _ _).
  assert (Hs : assoc_get "type" s = Some (JString "object") ∧ assoc_get "enum" s = None ∧
    assoc_get "properties" s = Some (JObject (schema_properties schema_field_to_json_schema schema)) ∧
    names_of (assoc_get "required" s) = required_names schema).
  { subst s. repeat split; schema_get; try done. apply names_insert_required. by schema_get. }
  clearbody s. destruct Hs as (Ht & He & Hp & Hr). unfold mismatched_type, enum_errors.
  rewrite Ht, He, Hp, Hr. unfold fields_met.
  destruct v as [| | | | |m]; simpl; try (split; [by intros (? & _)|by intros (? & ? & _)]).
  rewrite app_nil, required_errors_nil.
  rewrite (declared_nil field_met); [|intros; apply field_checked].
  naive_solver.
Qed.
Lemma structured_checked schema v :
  is_ok (validate_against_json_schema v (dsl_schema_to_json_schema schema)) = true ↔
  fields_met schema v.
Proof.
  rewrite <-schema_checked. unfold validate_against_json_schema.
  by destruct (validate_value _ v ""); simpl.
Qed.
End exact.

(** ** Reading along a path *)

Lemma segments_from_plain current s rest :
  lacks "."%char s = true → lacks "["%char s = true →
  segments_from current None (s +:+ rest) = segments_from (current +:+ s) None rest.
Proof.
  revert current. induction s as [|c s IH]; intros current; simpl.
  - intros _ _. by rewrite append_empty.
  - intros [Hd Hs]%andb_prop [Hb Hs']%andb_prop.
    apply negb_true_iff in Hd, Hb. rewrite Hd, Hb, IH by done. f_equal. by rewrite <-append_assoc.
Qed.

(** The parts of a dotted path. *)
Definition path_part (s : string) : bool :=
  negb (is_empty_str s) && plain_segment s && lacks "+"%char s.

Lemma path_part_plain s : path_part s = true → plain_segment s = true.
Proof. unfold path_part. by intros [[_ ?]%andb_prop _]%andb_prop. Qed.

Lemma reference_segments_join segs :
  segs ≠ [] → forallb path_part segs = true → reference_segments (join "." segs) = segs.
Proof.
  intros Hne. unfold reference_segments. induction segs as [|s segs IH]; [done|].
  simpl. intros [Hs Hsegs]%andb_prop.
  assert (Hp : lacks "."%char s = true ∧ lacks "["%char s = true ∧ is_empty_str s = false).
  { unfold path_part, plain_segment in Hs. by apply andb_prop in Hs as
      [[He%negb_true_iff [[? ?]%andb_prop ?]%andb_prop]%andb_prop _]. }
  destruct Hp as (? & ? & He). destruct segs as [|s' segs].
  - rewrite <-(append_empty s) at 1. rewrite segments_from_plain by done.
    change ("" +:+ s) with s. simpl. unfold flush. by rewrite He.
  - change (join "." (s :: s' :: segs)) with (s +:+ "." +:+ join "." (s' :: segs)).
    rewrite segments_from_plain by done. change ("" +:+ s) with s.
    change ("." +:+ ?x) with (String "."%char x). simpl. unfold flush. rewrite He. simpl. f_equal.
    by apply IH.
Qed.

Lemma read_digits_all s acc z : read_digits s acc = Some z → all_digits s = true.
Proof.
  revert acc. induction s as [|c s IH]; intros acc; [done|]. simpl.
  destruct (digit_val c) eqn:Hc; [|done]. intros Hz. simpl. by eapply IH.
Qed.

(** An index of the validator is one of the runtime. *)
Lemma parse_u64_token s z :
  lacks "+"%char s = true → parse_u64 s = Some z → is_array_index_token s = true.
Proof.
  unfold parse_u64, is_array_index_token. destruct s as [|c s]; [done|].
  cbn [lacks]. intros [Hc%negb_true_iff _]%andb_prop. rewrite Hc.
  destruct (read_digits (String c s) 0) as [n|] eqn:Hn; [|done]. intros _.
  assert (Hm : strip_prefix "-" (String c s) = None).
  { cbn [strip_prefix]. destruct (Ascii.eqb_spec "-" c) as [<-|]; [by cbv in Hn|done]. }
  rewrite Hm. by apply read_digits_all in Hn.
Qed.

(** The field a path leads to, where the schema knows it. *)
Fixpoint field_at (f : SchemaField) (segs : list string) : option SchemaField :=
  match segs with
  | [] => Some f
  | s :: segs =>
      g ← (if decide (field_type f = FtArray) then items f else properties f ≫= (.!! s));
      field_at g segs
  end.

(** A lookup that does not fail, and finds only values of the field. *)
Definition reads_field (g : option SchemaField) (l : Lookup) : Prop :=
  match l with
  | Found v => ∀ f, g = Some f → v = JNull ∨ field_met f v
  | Absent => True
  | Mismatch _ => False
  end.

Section reads.
Context `{Ext} (nonce : Z).

Abbreviation plain := (reset_value_store nonce).

Lemma deref_plain v : deref_handle plain v = v.
Proof. unfold deref_handle, stored_value. destruct (wfref_id _ v); [|done]. simpl. done. Qed.

Lemma live_plain v : live plain v ↔ collect_handle_ids nonce v = [].
Proof.
  unfold live. simpl. split; [|by intros ->]. destruct (collect_handle_ids nonce v) as [|id l]; [done|].
  intros Hl. by apply Forall_cons in Hl as [[? [=]] _].
Qed.

(** An element of a value without handles. *)
Lemma descend_plain c s x :
  collect_handle_ids nonce c = [] → descend c s = DescentChild x → collect_handle_ids nonce x = [].
Proof.
  intros Hc Hx. apply live_plain. apply (descend_live plain c s); [by apply live_plain| |done].
  simpl. destruct (wfref_id nonce c) as [id|] eqn:Hid; [|done].
  by rewrite (collect_handle _ _ _ Hid) in Hc.
Qed.

(** A suffix that is left unverified is reported. *)
Lemma unverified_reported step_id ref prefix s rest :
  path_part s = true → unverified step_id ref prefix (join "." (s :: rest)) ≠ no_issues.
Proof.
  unfold path_part, unverified. destruct s as [|c s]; [done|]. intros _.
  by destruct rest.
Qed.

(** A field read in a value that meets it. *)
Lemma descend_field f v s rest step_id ref prefix :
  v = JNull ∨ field_met f v → forallb path_part (s :: rest) = true →
  schema_path step_id ref prefix f (s :: rest) = no_issues →
  match descend v s with
  | DescentChild x =>
      (field_at f (s :: rest) = None ∧ rest = []) ∨
      ∃ g prefix', (x = JNull ∨ field_met g x) ∧ field_at f (s :: rest) = field_at g rest ∧
        schema_path step_id ref prefix' g rest = no_issues
  | DescentAbsent => True
  | DescentMismatch => False
  end.
Proof.
  intros Hv [Hs Hrest]%andb_prop Hp. destruct Hv as [->|Hm]; [done|].
  inversion Hm as [f' v' Ht _ Hits _ Hdecl]; subst. cbn [schema_path] in Hp. cbn [field_at].
  case_decide as Hft.
  - rewrite Hft in Ht. inversion Ht as [| | | | |l| |]; subst v. simpl.
    destruct (parse_u64 s) as [z|] eqn:Hz; [|done].
    rewrite (parse_u64_token s z) by (done || by unfold path_part in Hs; apply andb_prop in Hs as [_ ?]).
    destruct (array_index _ _ ≫= get_item l) as [x|] eqn:Hx; [|done].
    assert (Hxl : x ∈ l).
    { destruct (array_index _ _) as [i|]; simpl in Hx; [|done]. unfold get_item in Hx.
      destruct (_ <? _); [|done]. by eapply list_elem_of_lookup_2. }
    destruct (items f) as [i|] eqn:Hi; simpl.
    + right. eexists i, _. split; [right; by eapply Hits|done].
    + left. split; [done|]. destruct rest as [|r rest]; [done|].
      simpl in Hrest. apply andb_prop in Hrest as [Hr _]. by apply unverified_reported in Hp.
  - case_decide as Hfo; [done|]. rewrite Hfo in Ht. inversion Ht as [| | | | | |m|]; subst v. simpl.
    destruct (assoc_get s m) as [x|] eqn:Hx; [|done].
    destruct (properties f) as [props|] eqn:Hpr; simpl.
    + destruct (props !! s) as [g|] eqn:Hg; [|done]. right. eexists g, _. split; [|done].
      destruct x; [by left|right; by eapply Hdecl..].
    + by apply unverified_reported in Hp.
Qed.

(** The walk along a path without issues. *)
Lemma walk_reads step_id ref segs rest : ∀ f v prefix d,
  collect_handle_ids nonce v = [] → v = JNull ∨ field_met f v → forallb path_part rest = true →
  schema_path step_id ref prefix f rest = no_issues →
  reads_field (field_at f rest) (lookup_from plain segs d v rest).
Proof.
  induction rest as [|s rest IH]; intros f v prefix d Hc Hv Hr Hp.
  - simpl. intros ? [= <-]. unfold materialize. by rewrite materialize_id.
  - pose proof (descend_field f v s rest step_id ref prefix Hv Hr Hp) as Hd.
    cbn [lookup_from]. destruct (descend v s) as [x| |] eqn:Hx; [|done|done].
    pose proof (descend_plain v s x Hc Hx) as Hcx. rewrite deref_plain.
    destruct Hd as [[-> ->]|(g & prefix' & Hg & -> & Hp')]; [done|].
    simpl in Hr. apply andb_prop in Hr as [_ Hr]. by eapply IH.
Qed.
End reads.

(** ** Theorems *)

(** C26: The check of structured output is exact.  A value passes the check against the
    JSON Schema made from a map of fields exactly when it is an object that has every
    required field, with a value that is not null, and every field that is there has its
    type (a text for strings and connections, a truth value, a number, a whole number, an
    array, an object for objects and files), equals one of its allowed values, has elements
    that meet the field of the items and, for objects, fields that meet the declared ones,
    at any depth.  Bounds and patterns of fields, and fields that are not declared, are not
    looked at ([bounds_unenforced]). *)
Theorem structured_output_exact `{JsonDisplay} schema v :
  is_ok (validate_against_json_schema v (dsl_schema_to_json_schema schema)) = true ↔
  fields_met schema v.
Proof. apply structured_checked. Qed.


#[local] Existing Instances codec plain_display text_engine.

(** A customer with orders, as the input of [orders]. *)
Definition customer_schema : gmap string SchemaField :=
  {["customer" := object_field {["orders" := array_field (plain_field FtString)]}]}.

Definition customer_data : json :=
  JObject [("customer", JObject [("orders", JArray [JString "A-1"; JString "A-2"])])].

Definition customer_scope : json :=
  JObject [("data", customer_data); ("steps", JObject [])].


(** ** What the check of start inputs leaves out

    The schema made from the fields for the start of a run drops the declared fields
    of objects and the allowed values: data of the wrong shape below the first level
    starts a run, in which the reference the validator accepted then fails. *)

(** [type], and the fields of an object *)
Definition field_json (t : string) (rest : list (string * json)) : json :=
  JObject (rest ++ [("required", JBool true); ("type", JString t)]).

Definition address_schema : gmap string SchemaField :=
  {["customer" := object_field
      {["address" := object_field {["street" := plain_field FtString]}]}]}.

(** The serialized form of [address_schema]. *)
Definition address_schema_json : json :=
  JObject [("customer", field_json "object"
    [("properties", JObject [("address", field_json "object"
       [("properties", JObject [("street", JObject [("required", JBool false);
                                                     ("type", JString "string")])])])])])].

Definition address_inputs : json :=
  JObject [("data", JObject [("customer", JObject [("address", JArray [])])])].

Lemma nested_start_input_mismatch :
  is_ok (validate_workflow_start_inputs address_inputs address_schema_json) = true ∧
  validate_schema_reference_path "show" "data.customer.address.street" ["data"] address_schema
    = no_issues ∧
  is_ok (apply_mapping_value fresh_arena
    (JObject [("value", JString "data.customer.address.street"); ("valueType", JString "reference")])
    address_inputs) = false.
Proof. repeat split; vm_compute; reflexivity. Qed.

(** A value outside the allowed ones starts a run. *)
Lemma start_enum_unenforced :
  is_ok (validate_workflow_start_inputs
    (JObject [("data", JObject [("size", JString "XXL")])])
    (JObject [("size", field_json "string" [("enum", JArray [JString "S"; JString "M"])])])) = true.
Proof. vm_compute. reflexivity. Qed.

(** The bounds and the pattern of a field are sent to the model and not checked. *)
Lemma bounds_unenforced :
  let short := {| (plain_field FtString) with field_max := Some (f64_of_Z 3);
                                              field_pattern := Some "^[a-z]+$" |} in
  is_ok (validate_against_json_schema (JObject [("code", JString "ABCDEF")])
           (dsl_schema_to_json_schema {["code" := short]})) = true.
Proof. vm_compute. reflexivity. Qed.
