(* ===== verification/EditDistance.v ===== *)
(** * Validation: the edit distance of suggestions

    [levenshtein_distance] keeps two rows of a table.  What it returns is the least
    number of single-character edits that turn one name into the other; the name
    [find_similar_name] suggests is a candidate of least distance within its bound. *)

From S2P Require Import Prelude.
From S2P Require Import ValidationBase.
From S2P Require Import Validation.

#[local] Open Scope nat_scope.

(** ** Edits *)

(** One character is removed, added or replaced. *)
Inductive edit : list string → list string → Prop :=
| edit_remove p x s : edit (p ++ x :: s) (p ++ s)
| edit_add p y s : edit (p ++ s) (p ++ y :: s)
| edit_replace p x y s : edit (p ++ x :: s) (p ++ y :: s).

(** An alignment of two names and its cost. *)
Inductive aligned : list string → list string → nat → Prop :=
| aligned_nil : aligned [] [] 0
| aligned_keep x a b n : aligned a b n → aligned (x :: a) (x :: b) n
| aligned_replace x y a b n : aligned a b n → aligned (x :: a) (y :: b) (S n)
| aligned_add y a b n : aligned a b n → aligned a (y :: b) (S n)
| aligned_remove x a b n : aligned a b n → aligned (x :: a) b (S n).

#[local] Hint Constructors aligned edit : core.

(** The distance by its recursion on the last characters; the lists are reversed. *)
Fixpoint dist (p : list string) : list string → nat :=
  fix go (q : list string) : nat :=
    match p, q with
    | [], _ => length q
    | _, [] => length p
    | x :: p', y :: q' =>
        Nat.min (dist p' q + 1)
          (Nat.min (go q' + 1) (dist p' q' + if bool_decide (x = y) then 0 else 1))
    end.

Lemma dist_nil_l q : dist [] q = length q.
Proof. by destruct q. Qed.

Lemma dist_nil_r p : dist p [] = length p.
Proof. by destruct p. Qed.

Lemma dist_cons x p y q :
  dist (x :: p) (y :: q) =
  Nat.min (dist p (y :: q) + 1)
    (Nat.min (dist (x :: p) q + 1) (dist p q + if bool_decide (x = y) then 0 else 1)).
Proof. done. Qed.

#[local] Arguments dist : simpl never.

(** ** The table *)

(** The cells of the row of [p] to the right of the column of [q]. *)
Fixpoint cells (p q b : list string) : list nat :=
  match b with
  | [] => []
  | y :: b => dist p (y :: q) :: cells p (y :: q) b
  end.

Lemma lev_cells_row x p q b :
  lev_cells x (dist p q) (dist (x :: p) q) (cells p q b) b = cells (x :: p) q b.
Proof.
  revert q. induction b as [|y b IH]; intros q; [done|]. simpl. rewrite <-dist_cons. f_equal. apply IH.
Qed.

Lemma lev_rows_row a p b :
  lev_rows (S (length p)) a (dist p [] :: cells p [] b) b
  = dist (rev a ++ p) [] :: cells (rev a ++ p) [] b.
Proof.
  revert p. induction a as [|x a IH]; intros p; [done|]. simpl.
  replace (S (length p)) with (dist (x :: p) []) at 2 3 by by rewrite dist_nil_r.
  rewrite lev_cells_row. change (S (S (length p))) with (S (length (x :: p))).
  by rewrite IH, <-app_assoc.
Qed.

Lemma first_row q b : cells [] q b = seq (S (length q)) (length b).
Proof. revert q. induction b as [|y b IH]; intros q; [done|]. simpl. f_equal. apply IH. Qed.

Lemma last_cell p q b : (dist p q :: cells p q b) !! length b = Some (dist p (rev b ++ q)).
Proof.
  revert q. induction b as [|y b IH]; intros q; [done|]. simpl. rewrite IH. by rewrite <-app_assoc.
Qed.

Lemma levenshtein_dist a b : levenshtein_distance a b = dist (rev (chars a)) (rev (chars b)).
Proof.
  unfold levenshtein_distance. case_bool_decide as Ha.
  { destruct (chars a); [|done]. simpl. by rewrite dist_nil_l, length_rev. }
  case_bool_decide as Hb.
  { destruct (chars b); [|done]. simpl. by rewrite dist_nil_r, length_rev. }
  replace (seq 0 (length (chars b) + 1)) with (dist [] [] :: cells [] [] (chars b))
    by (rewrite first_row, Nat.add_1_r; done).
  rewrite (lev_rows_row (chars a) []), last_cell. simpl. by rewrite !app_nil_r.
Qed.

(** ** Alignments *)

Lemma dist_aligned p q : aligned p q (dist p q).
Proof.
  revert q. induction p as [|x p IHp]; intros q.
  - rewrite dist_nil_l. induction q; simpl; auto.
  - induction q as [|y q IHq].
    + rewrite dist_nil_r. clear IHp. simpl. constructor. induction p; simpl; auto.
    + rewrite dist_cons, !Nat.add_1_r.
      destruct (Nat.min_spec (S (dist p (y :: q)))
        (Nat.min (S (dist (x :: p) q)) (dist p q + if bool_decide (x = y) then 0 else 1)))
        as [[_ ->]|[_ ->]]; [auto|].
      destruct (Nat.min_spec (S (dist (x :: p) q)) (dist p q + if bool_decide (x = y) then 0 else 1))
        as [[_ ->]|[_ ->]]; [auto|].
      case_bool_decide as Hxy; [subst; rewrite Nat.add_0_r|rewrite Nat.add_1_r]; auto.
Qed.

Lemma dist_step_l x p q : dist (x :: p) q ≤ S (dist p q).
Proof. destruct q; [by rewrite !dist_nil_r|]. rewrite dist_cons. lia. Qed.

Lemma dist_step_r p y q : dist p (y :: q) ≤ S (dist p q).
Proof. destruct p as [|x p]; [by rewrite !dist_nil_l|]. rewrite dist_cons. lia. Qed.

Lemma dist_least p q n : aligned p q n → dist p q ≤ n.
Proof.
  induction 1 as [|x a b n _ IH|x y a b n _ IH|y a b n _ IH|x a b n _ IH]; [done| | | |].
  - rewrite dist_cons, bool_decide_true by done. lia.
  - rewrite dist_cons. case_bool_decide; lia.
  - pose proof (dist_step_r a y b). lia.
  - pose proof (dist_step_l x a b). lia.
Qed.

(** ** Alignments and edits *)

Lemma aligned_refl a : aligned a a 0.
Proof. induction a; auto. Qed.

(** A character less on the left, or another one. *)
Lemma aligned_drop y s c n : aligned (y :: s) c n → ∃ m, m ≤ S n ∧ aligned s c m.
Proof.
  remember (y :: s) as a eqn:Ha. intros Hal. revert y s Ha.
  induction Hal as [|x a b n H _|x z a b n H _|z a b n _ IH|x a b n H _]; intros y s Ha;
    simplify_eq; [by exists (S n); auto|exists (S n); auto| |exists n; auto].
  destruct (IH y s eq_refl) as (m & Hm & Hal). exists (S m). split; [lia|auto].
Qed.

Lemma aligned_change x y s c n : aligned (y :: s) c n → ∃ m, m ≤ S n ∧ aligned (x :: s) c m.
Proof.
  remember (y :: s) as a eqn:Ha. intros Hal. revert y s Ha.
  induction Hal as [|z a b n H _|z w a b n H _|z a b n _ IH|z a b n H _]; intros y s Ha;
    simplify_eq; [by exists (S n); auto|exists (S n); auto| |exists (S n); auto].
  destruct (IH y s eq_refl) as (m & Hm & Hal). exists (S m). split; [lia|auto].
Qed.

(** An edit of the left name behind a common front. *)
Lemma aligned_front h a b :
  (∀ c n, aligned b c n → ∃ m, m ≤ S n ∧ aligned a c m) →
  ∀ c n, aligned (h :: b) c n → ∃ m, m ≤ S n ∧ aligned (h :: a) c m.
Proof.
  intros Hab c n. remember (h :: b) as b' eqn:Hb. intros Hal.
  induction Hal as [|x b1 c n H _|x y b1 c n H _|y b1 c n H IH|x b1 c n H _]; simplify_eq.
  - destruct (Hab _ _ H) as (m & ? & ?). exists m. auto.
  - destruct (Hab _ _ H) as (m & ? & ?). exists (S m). split; [lia|auto].
  - destruct (IH eq_refl) as (m & ? & ?). exists (S m). split; [lia|auto].
  - destruct (Hab _ _ H) as (m & ? & ?). exists (S m). split; [lia|auto].
Qed.

Lemma aligned_edit a b : edit a b → ∀ c n, aligned b c n → ∃ m, m ≤ S n ∧ aligned a c m.
Proof.
  intros [p x s|p y s|p x y s]; induction p as [|h p IH]; simpl; try (by apply aligned_front);
    intros c n Hal.
  - exists (S n). auto.
  - by eapply aligned_drop.
  - by eapply aligned_change.
Qed.

Lemma steps_aligned n a b : nsteps edit n a b → ∃ m, m ≤ n ∧ aligned a b m.
Proof.
  induction 1 as [a|n a b c Hab _ (m & Hm & Hal)]; [exists 0; auto using aligned_refl|].
  destruct (aligned_edit a b Hab c m Hal) as (k & ? & ?). exists k. split; [lia|done].
Qed.

Lemma edit_front h a b : edit a b → edit (h :: a) (h :: b).
Proof.
  intros [p x s|p y s|p x y s]; [apply (edit_remove (h :: p))|apply (edit_add (h :: p))|
    apply (edit_replace (h :: p))].
Qed.

Lemma steps_front h n a b : nsteps edit n a b → nsteps edit n (h :: a) (h :: b).
Proof. induction 1; econstructor; eauto using edit_front. Qed.

Lemma aligned_steps a b n : aligned a b n → nsteps edit n a b.
Proof.
  induction 1 as [|x a b n _ IH|x y a b n _ IH|y a b n _ IH|x a b n _ IH].
  - constructor.
  - by apply steps_front.
  - eapply nsteps_l; [apply (edit_replace [])|]. by apply steps_front.
  - eapply nsteps_l; [apply (edit_add [])|]. by apply steps_front.
  - eapply nsteps_l; [apply (edit_remove [])|done].
Qed.

Lemma edit_rev a b : edit a b → edit (rev a) (rev b).
Proof.
  intros [p x s|p y s|p x y s]; rewrite !rev_app_distr; simpl; rewrite <-!app_assoc; simpl; auto.
Qed.

Lemma steps_rev n a b : nsteps edit n a b → nsteps edit n (rev a) (rev b).
Proof. induction 1; econstructor; eauto using edit_rev. Qed.

(** ** Theorems *)

(** C28: The edit distance is exact.  The two-row table returns the least number of
    single-character insertions, deletions and replacements that turn the characters
    of one text into those of the other. *)
Theorem levenshtein_least a b :
  nsteps edit (levenshtein_distance a b) (chars a) (chars b) ∧
  ∀ n, nsteps edit n (chars a) (chars b) → levenshtein_distance a b ≤ n.
Proof.
  rewrite levenshtein_dist. split.
  - rewrite <-(rev_involutive (chars a)) at 2. rewrite <-(rev_involutive (chars b)) at 2.
    apply steps_rev, aligned_steps, dist_aligned.
  - intros n (m & Hm & Hal)%steps_rev%steps_aligned. apply dist_least in Hal. lia.
Qed.

(** [min_by_key] returns an element of least key. *)
Lemma closest_least best l n d :
  closest best l = Some (n, d) →
  (best = Some (n, d) ∨ (n, d) ∈ l) ∧
  ∀ n' d', best = Some (n', d') ∨ (n', d') ∈ l → d ≤ d'.
Proof.
  revert best. induction l as [|[n1 d1] l IH]; intros best; simpl.
  - intros ->. split; [by left|]. intros n' d' [[= _ ->]|[]%elem_of_nil]. done.
  - destruct best as [[n0 d0]|]; [destruct (Nat.ltb_spec d1 d0)|];
      intros [H1 H2]%IH; (split; [set_solver|]); intros n' d'; rewrite elem_of_cons;
      intros [[= -> ->]|[[= -> ->]|Hin]]; eauto.
    + pose proof (H2 n1 d1 (or_introl eq_refl)). lia.
    + pose proof (H2 n0 d0 (or_introl eq_refl)). lia.
Qed.

(** The suggested name is a candidate within the bound, and none is closer. *)
Lemma similar_name_closest `{UnicodeData} target candidates name :
  find_similar_name target candidates = Some name →
  let distance c := levenshtein_distance (to_lowercase target) (to_lowercase c) in
  name ∈ candidates ∧ distance name ≤ String.length target / 2 + 2 ∧
  ∀ c, c ∈ candidates → distance name ≤ distance c.
Proof.
  intros Hs distance. unfold find_similar_name in Hs. apply fmap_Some in Hs as ([n d] & Hc & ->). simpl.
  apply closest_least in Hc as [[|Hin] Hmin]; [done|].
  apply list_elem_of_omap in Hin as (c & Hc & Hs). fold (distance c) in Hs.
  destruct (distance c <=? _)%nat eqn:Hle; [|done]. apply Nat.leb_le in Hle.
  injection Hs as -> <-. do 2 (split; [done|]). intros c' Hc'.
  destruct (Nat.le_gt_cases (distance c') (String.length target / 2 + 2)) as [Hle'|]; [|lia].
  apply (Hmin c'). right. apply list_elem_of_omap. exists c'. split; [done|].
  apply Nat.leb_le in Hle'. unfold distance in *. by rewrite Hle'.
Qed.
