(* ===== verification/ObjectSql.v ===== *)
(** * runtara-object-store: conditions as SQL, and how a database reads it

    [sql/condition.rs] and [sql/sanitize.rs]: the clause of a condition with its
    parameters, and the sort keys.  Before them, what the text is specified by: a lexer for the text of a single statement: quoted identifiers and string constants
    with doubled quotes, numbered parameters, and every other character as it is.  There
    are no tokens for text with a comment, a statement separator or an open quote.  The
    generated SQL of the object store is specified by its tokens. *)

From S2P Require Import Prelude.
From S2P Require Import Text.
From S2P Require Import Json.
From S2P Require Import Float64.
From S2P Require Import GuestPaths.
From S2P Require Import ValidationBase.
From Stdlib Require Import Floats.SpecFloat.

Inductive token :=
| TIdent (name : string)
| TText (s : string)
| TParam (n : Z)
| TSym (c : Ascii.ascii).

#[export] Instance token_eq_dec : EqDecision token.
Proof. solve_decision. Defined.

(** Where the lexer is: between tokens, inside quotes, after a quote that may be the
    first of two, in the digits of a parameter, after a character that may start a
    comment. *)
Inductive lex_mode :=
| Between
| InIdent (acc : string)
| IdentQuote (acc : string)
| InText (acc : string)
| TextQuote (acc : string)
| InParam (n : Z)
| AfterDash
| AfterSlash.

Definition dq : Ascii.ascii := chr 34.
Definition sq : Ascii.ascii := chr 39.

Definition step_between (c : Ascii.ascii) : option (list token * lex_mode) :=
  if Ascii.eqb c dq then Some ([], InIdent "")
  else if Ascii.eqb c sq then Some ([], InText "")
  else if Ascii.eqb c "$"%char then Some ([], InParam 0)
  else if Ascii.eqb c "-"%char then Some ([], AfterDash)
  else if Ascii.eqb c "/"%char then Some ([], AfterSlash)
  else if Ascii.eqb c ";"%char then None
  else Some ([TSym c], Between).

(** [t], then what [c] is between tokens. *)
Definition after (t : token) (c : Ascii.ascii) : option (list token * lex_mode) :=
  '(ts, m) ← step_between c; Some (t :: ts, m).

Definition push (acc : string) (c : Ascii.ascii) : string := acc +:+ String c EmptyString.

Definition lex_step (m : lex_mode) (c : Ascii.ascii) : option (list token * lex_mode) :=
  match m with
  | Between => step_between c
  | InIdent acc =>
      if Ascii.eqb c dq then Some ([], IdentQuote acc) else Some ([], InIdent (push acc c))
  | IdentQuote acc => if Ascii.eqb c dq then Some ([], InIdent (push acc c)) else after (TIdent acc) c
  | InText acc =>
      if Ascii.eqb c sq then Some ([], TextQuote acc) else Some ([], InText (push acc c))
  | TextQuote acc => if Ascii.eqb c sq then Some ([], InText (push acc c)) else after (TText acc) c
  | InParam n =>
      match digit_val c with
      | Some d => Some ([], InParam (n * 10 + d))
      | None => after (TParam n) c
      end
  | AfterDash => if Ascii.eqb c "-"%char then None else after (TSym "-"%char) c
  | AfterSlash => if Ascii.eqb c "*"%char then None else after (TSym "/"%char) c
  end.

Definition lex_end (m : lex_mode) : option (list token) :=
  match m with
  | Between => Some []
  | InIdent _ | InText _ => None
  | IdentQuote acc => Some [TIdent acc]
  | TextQuote acc => Some [TText acc]
  | InParam n => Some [TParam n]
  | AfterDash => Some [TSym "-"%char]
  | AfterSlash => Some [TSym "/"%char]
  end.

Fixpoint lex (m : lex_mode) (s : string) : option (list token) :=
  match s with
  | EmptyString => lex_end m
  | String c s => '(ts, m) ← lex_step m c; (ts ++.) <$> lex m s
  end.

Definition sql_tokens (s : string) : option (list token) := lex Between s.

(** The depth of parentheses after [ts]; none when one is closed that was not opened. *)
Fixpoint paren_depth (d : nat) (ts : list token) : option nat :=
  match ts with
  | [] => Some d
  | TSym c :: ts =>
      if Ascii.eqb c "("%char then paren_depth (S d) ts
      else if Ascii.eqb c ")"%char then
        match d with O => None | S d => paren_depth d ts end
      else paren_depth d ts
  | _ :: ts => paren_depth d ts
  end.

(** ** Lexing in pieces *)

(** What may follow a piece: the end, a space, a parenthesis, a comma or a colon. *)
Definition ends_token (s : string) : bool :=
  match s with
  | EmptyString => true
  | String c _ =>
      Ascii.eqb c " "%char || Ascii.eqb c ")"%char || Ascii.eqb c ","%char || Ascii.eqb c ":"%char
  end.

(** [s] is read as [ts], whatever follows it. *)
Definition lexes (s : string) (ts : list token) : Prop :=
  ∀ rest, ends_token rest = true → lex Between (s +:+ rest) = (ts ++.) <$> lex Between rest.

(** Text without quotes, parameters, comments and separators is read as it is. *)
Definition plain_char (c : Ascii.ascii) : bool :=
  negb (Ascii.eqb c dq || Ascii.eqb c sq || Ascii.eqb c "$"%char || Ascii.eqb c "-"%char
        || Ascii.eqb c "/"%char || Ascii.eqb c ";"%char).

Definition symbols (s : string) : list token := TSym <$> String.list_ascii_of_string s.

Lemma fmap_app_some {A} (a b : list A) (o : option (list A)) :
  (a ++.) <$> ((b ++.) <$> o) = ((a ++ b) ++.) <$> o.
Proof. destruct o; simpl; [by rewrite (assoc_L (++))|done]. Qed.

Lemma fmap_nil_some {A} (o : option (list A)) : ([] ++.) <$> o = o.
Proof. by destruct o. Qed.

Lemma lex_plain s rest :
  all_chars plain_char s = true →
  lex Between (s +:+ rest) = (symbols s ++.) <$> lex Between rest.
Proof.
  induction s as [|c s IH]; intros Hs.
  - by rewrite fmap_nil_some.
  - simpl in Hs. apply andb_prop in Hs as [Hc Hs].
    change (String c s +:+ rest) with (String c (s +:+ rest)). simpl.
    unfold plain_char in Hc. apply negb_true_iff in Hc. rewrite !orb_false_iff in Hc.
    destruct Hc as [[[[[H1 H2] H3] H4] H5] H6]. unfold step_between.
    rewrite H1, H2, H3, H4, H5, H6. simpl. rewrite IH by done. apply (fmap_app_some [TSym c]).
Qed.

(** The step after a token that ended. *)
Lemma lex_after m t rest :
  ends_token rest = true →
  (∀ c, ends_token (String c "") = true → lex_step m c = after t c) → lex_end m = Some [t] →
  lex m rest = ([t] ++.) <$> lex Between rest.
Proof.
  intros Hr Hc He. destruct rest as [|c rest]; [by simpl; rewrite He|]. simpl.
  rewrite Hc by exact Hr. unfold after. destruct (step_between c) as [[ts m']|]; [|done]. simpl.
  by destruct (lex m' rest).
Qed.

Lemma ends_token_cases c :
  ends_token (String c "") = true → c = " "%char ∨ c = ")"%char ∨ c = ","%char ∨ c = ":"%char.
Proof.
  unfold ends_token. rewrite !orb_true_iff.
  intros [[[H|H]|H]|H]; apply Ascii.eqb_eq in H; tauto.
Qed.

Lemma lex_ident_end acc rest :
  ends_token rest = true → lex (IdentQuote acc) rest = ([TIdent acc] ++.) <$> lex Between rest.
Proof.
  intros Hr. apply lex_after; [done| |done].
  by intros c [->|[->|[->| ->]]]%ends_token_cases.
Qed.

Lemma lex_text_end acc rest :
  ends_token rest = true → lex (TextQuote acc) rest = ([TText acc] ++.) <$> lex Between rest.
Proof.
  intros Hr. apply lex_after; [done| |done].
  by intros c [->|[->|[->| ->]]]%ends_token_cases.
Qed.

Lemma lex_param_end n rest :
  ends_token rest = true → lex (InParam n) rest = ([TParam n] ++.) <$> lex Between rest.
Proof.
  intros Hr. apply lex_after; [done| |done].
  by intros c [->|[->|[->| ->]]]%ends_token_cases.
Qed.

(** * runtara-object-store: schemas and condition clauses

    [types.rs] and [schema.rs]: the columns of an object schema; [sql/sanitize.rs]:
    quoting and checking of identifiers; [sql/condition.rs]: the WHERE and ORDER BY
    clauses made from the conditions and sort keys of a query.

    A condition arrives as JSON and its nested conditions are decoded one by one while
    the clause is built; the model builds the clause by recursion on the JSON.  Parameter
    numbers are [i32] in the source; a statement with 2^31 parameters does not exist. *)

(** ** types.rs and schema.rs *)

Inductive VectorIndexMethod :=
| Hnsw
| IvfFlat (lists : Z).

Inductive ColumnType :=
| CtString
| CtInteger
| CtDecimal (precision scale : Z)
| CtBoolean
| CtTimestamp
| CtJson
| CtEnum (values : list string)
| CtTsvector (source_column language : string)
| CtVector (dimension : Z) (index_method : option VectorIndexMethod).

Inductive TextIndexKind := TiNone | TiTrigram.

#[export] Instance vector_index_eq_dec : EqDecision VectorIndexMethod.
Proof. solve_decision. Defined.
#[export] Instance column_type_eq_dec : EqDecision ColumnType.
Proof. solve_decision. Defined.
#[export] Instance text_index_eq_dec : EqDecision TextIndexKind.
Proof. solve_decision. Defined.

Record ColumnDefinition := {
  col_name : string;
  column_type : ColumnType;
  col_nullable : bool;
  col_unique : bool;
  default_value : option string;
  text_index : TextIndexKind }.

Record IndexDefinition := {
  ix_name : string;
  ix_columns : list string;
  ix_unique : bool }.

#[export] Instance index_definition_eq_dec : EqDecision IndexDefinition.
Proof. solve_decision. Defined.

Record ColumnRename := {
  rename_source : string;
  rename_target : string }.

Record ObjectSchema := {
  os_id : string;
  os_name : string;
  table_name : string;
  columns : list ColumnDefinition;
  indexes : option (list IndexDefinition) }.

(** ** Parameters

    [str::to_uppercase], the messages of serde for a value that is no condition or no
    subquery, [Display] of [f64] and [Debug] of a column type. *)
Class SqlTexts := {
  to_uppercase : string → string;
  condition_error : json → string;
  subquery_error : json → string;
  display_f64 : f64 → string;
  debug_column_type : ColumnType → string }.

(** ** sanitize.rs *)

Definition quote_identifier (identifier : string) : string :=
  dquote +:+ replace dquote (dquote +:+ dquote) identifier +:+ dquote.

Definition POSTGRES_RESERVED_WORDS : list string :=
  ["ALL"; "ANALYSE"; "ANALYZE"; "AND"; "ANY"; "ARRAY"; "AS"; "ASC"; "ASYMMETRIC"; "BOTH";
   "CASE"; "CAST"; "CHECK"; "COLLATE"; "COLUMN"; "CONSTRAINT"; "CREATE"; "CURRENT_CATALOG";
   "CURRENT_DATE"; "CURRENT_ROLE"; "CURRENT_TIME"; "CURRENT_TIMESTAMP"; "CURRENT_USER";
   "DEFAULT"; "DEFERRABLE"; "DESC"; "DISTINCT"; "DO"; "ELSE"; "END"; "EXCEPT"; "FALSE";
   "FETCH"; "FOR"; "FOREIGN"; "FROM"; "GRANT"; "GROUP"; "HAVING"; "IN"; "INITIALLY";
   "INTERSECT"; "INTO"; "LATERAL"; "LEADING"; "LIMIT"; "LOCALTIME"; "LOCALTIMESTAMP"; "NOT";
   "NULL"; "OFFSET"; "ON"; "ONLY"; "OR"; "ORDER"; "PLACING"; "PRIMARY"; "REFERENCES";
   "RETURNING"; "SELECT"; "SESSION_USER"; "SOME"; "SYMMETRIC"; "TABLE"; "THEN"; "TO";
   "TRAILING"; "TRUE"; "UNION"; "UNIQUE"; "USER"; "USING"; "VARIADIC"; "WHEN"; "WHERE";
   "WINDOW"; "WITH"].

(** The regular expression [^[a-z][a-z0-9_]*$] *)
Definition identifier_pattern (name : string) : bool :=
  match name with
  | EmptyString => false
  | String c rest =>
      is_ascii_lowercase c
      && all_chars (λ c, is_ascii_lowercase c || is_ascii_digit c || Ascii.eqb c "_"%char) rest
  end.

Definition validate_identifier `{SqlTexts} (name : string) (reserved_columns : list string) :
  result string unit :=
  if is_empty_str name then Err "Identifier cannot be empty"
  else if negb (identifier_pattern name) then
    Err ("Identifier '" +:+ name +:+ "' is invalid. Must start with a lowercase letter and "
         +:+ "contain only lowercase letters, numbers, and underscores.")
  else if decide (to_uppercase name ∈ POSTGRES_RESERVED_WORDS) then
    Err ("Identifier '" +:+ name +:+ "' is a PostgreSQL reserved keyword and cannot be used.")
  else if decide (name ∈ reserved_columns) then
    Err ("Column name '" +:+ name +:+ "' is reserved and cannot be used.")
  else Ok tt.

(** ** condition.rs: fields *)

Definition field_to_sql (field : string) : string :=
  if decide (field = "createdAt") then "created_at"
  else if decide (field = "updatedAt") then "updated_at"
  else field.

(** [schema.columns.iter().find(|c| c.name == field)] *)
Definition find_column (schema : ObjectSchema) (field : string) : option ColumnDefinition :=
  list_find (λ c, col_name c = field) (columns schema) ≫= λ ic, Some ic.2.

Definition column_cast (t : ColumnType) : string :=
  match t with
  | CtString | CtEnum _ => "text"
  | CtInteger => "bigint"
  | CtDecimal _ _ => "numeric"
  | CtBoolean => "boolean"
  | CtTimestamp => "timestamptz"
  | CtJson => "text"
  | CtTsvector _ _ => "tsvector"
  | CtVector _ _ => "vector"
  end.

Definition resolve_sql_cast (field : string) (schema : ObjectSchema) : string :=
  if decide (field = "id") then "text"
  else if decide (field = "created_at" ∨ field = "updated_at") then "timestamptz"
  else
    match find_column schema field with
    | Some col => column_cast (column_type col)
    | None => "text"
    end.

Definition resolve_tsvector_language (field : string) (schema : ObjectSchema) : string :=
  match find_column schema field with
  | Some {| column_type := CtTsvector _ language |} => language
  | _ => "english"
  end.

Definition schema_has_field (schema : ObjectSchema) (field : string) : bool :=
  bool_decide (field = "id" ∨ field = "created_at" ∨ field = "updated_at")
  || bool_decide (field ∈ col_name <$> columns schema).

(** ** condition.rs: arguments *)

Definition arg_path (condition_path : string) (index : nat) : string :=
  condition_path +:+ ".arguments[" +:+ show_Z (Z.of_nat index) +:+ "]".

Definition ordinal_argument (index : nat) : string :=
  match index with 0%nat => "first" | 1%nat => "second" | 2%nat => "third" | _ => "argument" end.

(** The digits of a number that is not negative, of any length. *)
Definition show_digits (n : Z) : string := show_pos_aux (S (Z.to_nat (Z.log2 n))) n "".

(** [{:.6}] of a number: the exact value, rounded half to even at the sixth decimal. *)
Definition format_fixed6 (x : f64) : string :=
  let digits (neg : bool) (n : Z) :=
    let frac := show_digits (n mod 1000000) in
    (if neg then "-" else "") +:+ show_digits (n / 1000000) +:+ "."
      +:+ concat_str (repeat "0" (6 - String.length frac)) +:+ frac in
  match x with
  | S754_finite neg m e =>
      if 0 <=? e then digits neg (Z.pos m * 2 ^ e * 1000000)
      else
        let scale := 2 ^ (- e) in
        let q := (Z.pos m * 1000000) / scale in
        let r := (Z.pos m * 1000000) mod scale in
        digits neg (if (scale <? 2 * r) || ((2 * r =? scale) && Z.odd q) then q + 1 else q)
  | S754_zero neg => digits neg 0
  | S754_infinity neg => if neg then "-inf" else "inf"
  | S754_nan => "NaN"
  end.

(** The characters of a field name. *)
Definition field_char `{UnicodeData} (c : string) : bool :=
  is_alphanumeric c || bool_decide (c = "_") || bool_decide (c = "-").

Definition field_chars `{UnicodeData} (field : string) : bool := forallb field_char (chars field).

Definition validate_field_name `{UnicodeData} (value : json) (index : nat)
  (condition_path description : string) : result string string :=
  let path := arg_path condition_path index in
  match as_str value with
  | None => Err (path +:+ ": " +:+ ordinal_argument index +:+ " argument must be a " +:+ description
                 +:+ " string")
  | Some raw_field =>
      if is_empty_str raw_field then Err (path +:+ ": field name string cannot be empty")
      else if negb (field_chars raw_field) then
        Err (path +:+ ": field name string contains invalid characters; expected alphanumeric, "
             +:+ "underscore, or hyphen")
      else Ok raw_field
  end.

Definition validate_field_name_from_str `{UnicodeData} (raw_field path description : string) :
  result string string :=
  if is_empty_str raw_field then Err (path +:+ ": " +:+ description +:+ " string cannot be empty")
  else if negb (field_chars raw_field) then
    Err (path +:+ ": " +:+ description +:+ " string contains invalid characters; expected "
         +:+ "alphanumeric, underscore, or hyphen")
  else Ok raw_field.

(** ** Decoding

    serde decodes a structure from an object, where unknown keys are ignored and a missing
    option is [None], and from an array of its fields in order. *)

Record Condition := {
  cond_op : string;
  cond_arguments : option (list json) }.

(** [Option<Vec<Value>>] *)
Definition decode_arguments (v : option json) : option (option (list json)) :=
  match v with
  | None | Some JNull => Some None
  | Some (JArray l) => Some (Some l)
  | Some _ => None
  end.

Definition decode_condition (v : json) : option Condition :=
  match v with
  | JObject m =>
      op ← assoc_get "op" m ≫= as_str;
      args ← decode_arguments (assoc_get "arguments" m);
      Some {| cond_op := op; cond_arguments := args |}
  | JArray [op; args] =>
      op ← as_str op;
      args ← decode_arguments (Some args);
      Some {| cond_op := op; cond_arguments := args |}
  | _ => None
  end.

Record ConditionSubquery := {
  sq_schema : string;
  sq_select : string;
  sq_connection_id : option string;
  sq_condition : option Condition }.

(** [Option<T>] of a field that may be missing. *)
Definition decode_option {A} (decode : json → option A) (v : option json) : option (option A) :=
  match v with
  | None | Some JNull => Some None
  | Some v => Some <$> decode v
  end.

Definition decode_subquery_fields (schema select connection_id condition : option json) :
  option ConditionSubquery :=
  schema ← schema ≫= as_str;
  select ← select ≫= as_str;
  connection_id ← decode_option as_str connection_id;
  condition ← decode_option decode_condition condition;
  Some {| sq_schema := schema; sq_select := select; sq_connection_id := connection_id;
          sq_condition := condition |}.

(** Unknown keys of a subquery are refused. *)
Definition decode_subquery (v : json) : option ConditionSubquery :=
  match v with
  | JObject m =>
      if forallb (λ k, bool_decide (k ∈ ["schema"; "select"; "connectionId"; "condition"])) m.*1
      then decode_subquery_fields (assoc_get "schema" m) (assoc_get "select" m)
             (assoc_get "connectionId" m) (assoc_get "condition" m)
      else None
  | JArray l =>
      if (length l <=? 4)%nat
      then decode_subquery_fields (l !! 0%nat) (l !! 1%nat) (l !! 2%nat) (l !! 3%nat)
      else None
  | _ => None
  end.

Definition parse_subquery_operand `{SqlTexts} (value : json) (path : string) :
  result string (option ConditionSubquery) :=
  match as_object value with
  | None => Ok None
  | Some object =>
      match assoc_get "subquery" object with
      | None => Ok None
      | Some subquery =>
          if negb (bool_decide (length object = 1%nat)) then
            Err (path +:+ ": subquery operand must contain only the 'subquery' key")
          else
            match decode_subquery subquery with
            | None =>
                Err (path +:+ ".subquery: expected {schema, select, condition?}; "
                     +:+ subquery_error subquery)
            | Some parsed =>
                if is_empty_str (trim (sq_schema parsed)) then
                  Err (path +:+ ".subquery.schema: schema cannot be empty")
                else if is_empty_str (trim (sq_select parsed)) then
                  Err (path +:+ ".subquery.select: select cannot be empty")
                else Ok (Some parsed)
            end
      end
  end.

(** ** condition.rs: clauses *)

(** A builder is given the next parameter number, the schema, the path of the condition
    and whether subqueries are allowed; it returns the clause, its parameters and the
    next parameter number. *)
Definition Clause : Type := string * list json * Z.
Definition Build : Type := Z → ObjectSchema → string → bool → result string Clause.

(** An argument, the clause of the argument as a condition, and the clause of the
    condition of the argument as a subquery. *)
Record Argument := {
  arg_value : json;
  arg_clause : Build;
  arg_subquery_clause : Build }.

Definition column (field : string) : string := dquote +:+ field +:+ dquote.
Definition placeholder (n : Z) : string := "$" +:+ show_Z n.

(** The clauses of the arguments of AND and OR, in parentheses. *)
Fixpoint build_all (i : nat) (args : list Argument) (offset : Z) (schema : ObjectSchema)
  (path : string) (allow : bool) : result string (list string * list json * Z) :=
  match args with
  | [] => Ok ([], [], offset)
  | arg :: args =>
      '(clause, params, offset) ← arg_clause arg offset schema (arg_path path i) allow;
      '(clauses, more, offset) ← build_all (S i) args offset schema path allow;
      Ok (("(" +:+ clause +:+ ")") :: clauses, params ++ more, offset)
  end.

(** The text of a value that is compared. *)
Definition comparison_text `{JsonDisplay} (value : json) : string :=
  match value with
  | JString s => s
  | JNumber n => json_display (JNumber n)
  | JBool b => show_bool b
  | JNull => "null"
  | _ => json_display value
  end.

Definition comparison_operator (op : string) : option string :=
  if decide (op = "EQ") then Some "="
  else if decide (op = "NE") then Some "!="
  else if decide (op = "GT") then Some ">"
  else if decide (op = "LT") then Some "<"
  else if decide (op = "GTE") then Some ">="
  else if decide (op = "LTE") then Some "<="
  else None.

Section clauses.
Context `{UnicodeData, SqlTexts, JsonDisplay} (subquery_schemas : option (gmap string ObjectSchema)).

Definition build_logical (op : string) (args : option (list Argument)) : Build :=
  λ offset schema path allow,
  match args with
  | None => Err (path +:+ ": " +:+ op +:+ " operation requires arguments (condition, ...)")
  | Some args =>
      '(clauses, params, offset) ← build_all 0 args offset schema path allow;
      if decide (clauses = []) then
        Err (path +:+ ": " +:+ op +:+ " operation requires at least one condition argument")
      else Ok (join (" " +:+ op +:+ " ") clauses, params, offset)
  end.

Definition build_not (args : option (list Argument)) : Build :=
  λ offset schema path allow,
  match args with
  | None => Err (path +:+ ": NOT operation requires arguments (condition)")
  | Some [arg] =>
      '(clause, params, offset) ← arg_clause arg offset schema (arg_path path 0) allow;
      Ok ("NOT (" +:+ clause +:+ ")", params, offset)
  | Some _ => Err (path +:+ ": NOT operation requires exactly one argument (condition)")
  end.

(** No arguments at all, and the wrong number of them; [shape] names what is expected. *)
Definition no_arguments (op shape path : string) : string :=
  path +:+ ": " +:+ op +:+ " operation requires arguments (" +:+ shape +:+ ")".
Definition wrong_count (n op shape path : string) : string :=
  path +:+ ": " +:+ op +:+ " operation requires exactly " +:+ n +:+ " (" +:+ shape +:+ ")".

Definition one_argument (op shape path : string) (args : option (list Argument)) :
  result string Argument :=
  match args with
  | None => Err (no_arguments op shape path)
  | Some [a] => Ok a
  | Some _ => Err (wrong_count "1 argument" op shape path)
  end.

Definition two_arguments (op shape path : string) (args : option (list Argument)) :
  result string (Argument * Argument) :=
  match args with
  | None => Err (no_arguments op shape path)
  | Some [a; b] => Ok (a, b)
  | Some _ => Err (wrong_count "2 arguments" op shape path)
  end.

Definition three_arguments (op shape path : string) (args : option (list Argument)) :
  result string (Argument * Argument * Argument) :=
  match args with
  | None => Err (no_arguments op shape path)
  | Some [a; b; c] => Ok (a, b, c)
  | Some _ => Err (wrong_count "3 arguments" op shape path)
  end.

Definition build_comparison (op operator : string) (args : option (list Argument)) : Build :=
  λ offset schema path allow,
  '(a0, a1) ← two_arguments op "field, value" path args;
  raw_field ← validate_field_name (arg_value a0) 0 path "field name";
  let value := arg_value a1 in
  subquery ← parse_subquery_operand value (arg_path path 1);
  match subquery with
  | Some _ =>
      Err (arg_path path 1 +:+ ": subquery operands are only supported as the second argument of "
           +:+ "IN or NOT_IN")
  | None =>
      let field := field_to_sql raw_field in
      if is_null value then
        if decide (op = "EQ") then Ok (column field +:+ " IS NULL", [], offset)
        else if decide (op = "NE") then Ok (column field +:+ " IS NOT NULL", [], offset)
        else Err (arg_path path 1 +:+ ": " +:+ op +:+ " operation with NULL value is not supported")
      else
        let cast := resolve_sql_cast field schema in
        Ok (column field +:+ "::" +:+ cast +:+ " " +:+ operator +:+ " " +:+ placeholder offset
            +:+ "::" +:+ cast, [JString (comparison_text value)], offset + 1)
  end.

Definition build_contains (args : option (list Argument)) : Build :=
  λ offset schema path allow,
  '(a0, a1) ← two_arguments "CONTAINS" "field, string" path args;
  raw_field ← validate_field_name (arg_value a0) 0 path "field name";
  match as_str (arg_value a1) with
  | None => Err (arg_path path 1 +:+ ": second argument must be a string value")
  | Some value =>
      Ok (column (field_to_sql raw_field) +:+ "::text ILIKE " +:+ placeholder offset +:+ "::text",
          [JString ("%" +:+ value +:+ "%")], offset + 1)
  end.

Definition build_subquery_condition_clause (outer_field : string) (subquery : ConditionSubquery)
  (condition_clause : Build) (negate : bool) : Build :=
  λ offset schema path allow,
  let at1 := arg_path path 1 in
  if negb allow then Err (at1 +:+ ": subquery operands require a same-store condition context")
  else
    match subquery_schemas with
    | None => Err (at1 +:+ ": subquery operands require resolved same-store schemas")
    | Some schemas =>
        match schemas !! sq_schema subquery with
        | None => Err (at1 +:+ ".subquery.schema: schema '" +:+ sq_schema subquery
                       +:+ "' was not resolved for this condition")
        | Some subquery_schema =>
            let parent_cast := resolve_sql_cast outer_field schema in
            if negb (schema_has_field schema outer_field) then
              Err (arg_path path 0 +:+ ": unknown field '" +:+ outer_field +:+ "'")
            else
              select ← validate_field_name_from_str (sq_select subquery)
                         (at1 +:+ ".subquery.select") "select field name";
              let select_field := field_to_sql select in
              if negb (schema_has_field subquery_schema select_field) then
                Err (at1 +:+ ".subquery.select: unknown field '" +:+ sq_select subquery
                     +:+ "' on schema '" +:+ sq_schema subquery +:+ "'")
              else
                let subquery_cast := resolve_sql_cast select_field subquery_schema in
                if bool_decide (parent_cast ≠ subquery_cast) then
                  Err (at1 +:+ ".subquery.select: field '" +:+ sq_select subquery
                       +:+ "' has SQL cast " +:+ subquery_cast +:+ ", but parent field '"
                       +:+ outer_field +:+ "' has SQL cast " +:+ parent_cast)
                else
                  '(subquery_where, params, offset) ←
                    match sq_condition subquery with
                    | Some _ =>
                        condition_clause offset subquery_schema (at1 +:+ ".subquery.condition") false
                    | None => Ok ("TRUE", [], offset)
                    end;
                  let subquery_sql :=
                    "SELECT " +:+ quote_identifier select_field +:+ "::" +:+ subquery_cast
                    +:+ " FROM " +:+ quote_identifier (table_name subquery_schema)
                    +:+ " WHERE deleted = FALSE AND (" +:+ subquery_where +:+ ")" in
                  let in_clause :=
                    quote_identifier outer_field +:+ "::" +:+ parent_cast +:+ " IN ("
                    +:+ subquery_sql +:+ ")" in
                  Ok (if negate then "NOT (" +:+ in_clause +:+ ")" else in_clause, params, offset)
        end
    end.

Definition build_in (op : string) (negate : bool) (args : option (list Argument)) : Build :=
  λ offset schema path allow,
  '(a0, a1) ← two_arguments op "field, array" path args;
  raw_field ← validate_field_name (arg_value a0) 0 path "field name";
  let field := field_to_sql raw_field in
  subquery ← parse_subquery_operand (arg_value a1) (arg_path path 1);
  match subquery with
  | Some subquery =>
      build_subquery_condition_clause field subquery (arg_subquery_clause a1) negate
        offset schema path allow
  | None =>
      match as_array (arg_value a1) with
      | None =>
          Err (arg_path path 1
               +:+ ": second argument must be an array of values or a subquery operand")
      | Some values =>
          let clause :=
            column field +:+ "::text = ANY(SELECT jsonb_array_elements_text("
            +:+ placeholder offset +:+ "::jsonb))" in
          Ok (if negate then "NOT (" +:+ clause +:+ ")" else clause, [JArray values], offset + 1)
      end
  end.

(** IS_EMPTY, IS_NOT_EMPTY and IS_DEFINED *)
Definition build_presence (op : string) (clause : string → string) (args : option (list Argument)) :
  Build :=
  λ offset schema path allow,
  a0 ← one_argument op "field" path args;
  raw_field ← validate_field_name (arg_value a0) 0 path "field name";
  Ok (clause (field_to_sql raw_field), [], offset).

Definition empty_clause (field : string) : string :=
  "(" +:+ column field +:+ " IS NULL OR " +:+ column field +:+ "::text = '')".
Definition not_empty_clause (field : string) : string :=
  "(" +:+ column field +:+ " IS NOT NULL AND " +:+ column field +:+ "::text != '')".
Definition defined_clause (field : string) : string := column field +:+ " IS NOT NULL".

Definition PG_TRGM_DEFAULT_SIMILARITY_THRESHOLD : f64 := f64_of_decimal false 3 (-1).

Definition f64_one : f64 := f64_of_Z 1.
Definition f64_zero : f64 := f64_of_Z 0.

Definition build_similarity (args : option (list Argument)) : Build :=
  λ offset schema path allow,
  '(a0, a1, a2) ← three_arguments "SIMILARITY_GTE" "field, value, threshold" path args;
  raw_field ← validate_field_name (arg_value a0) 0 path "field name";
  let field := field_to_sql raw_field in
  let cast := resolve_sql_cast field schema in
  if bool_decide (cast ≠ "text") then
    Err (arg_path path 0 +:+ ": SIMILARITY_GTE requires a string/enum column; '" +:+ field
         +:+ "' has SQL cast " +:+ cast)
  else
    match as_str (arg_value a1) with
    | None => Err (arg_path path 1 +:+ ": second argument must be a string value")
    | Some value =>
        match as_f64 (arg_value a2) with
        | None => Err (arg_path path 2 +:+ ": third argument must be a numeric threshold")
        | Some threshold =>
            if negb (f64_leb f64_zero threshold && f64_leb threshold f64_one) then
              Err (arg_path path 2 +:+ ": SIMILARITY_GTE threshold must be between 0.0 and 1.0, got "
                   +:+ display_f64 threshold)
            else
              let value_sql := placeholder offset +:+ "::text" in
              let similarity_sql :=
                "similarity(" +:+ column field +:+ "::text, " +:+ value_sql +:+ ")" in
              let clause :=
                if f64_leb PG_TRGM_DEFAULT_SIMILARITY_THRESHOLD threshold then
                  "(" +:+ column field +:+ "::text % " +:+ value_sql +:+ " AND " +:+ similarity_sql
                  +:+ " >= " +:+ format_fixed6 threshold +:+ ")"
                else similarity_sql +:+ " >= " +:+ format_fixed6 threshold in
              Ok (clause, [JString value], offset + 1)
        end
    end.

(** The elements of a vector literal, from index [i]. *)
Fixpoint vector_parts (path : string) (i : nat) (l : list json) : result string (list string) :=
  match l with
  | [] => Ok []
  | v :: l =>
      let at_ := arg_path path 1 +:+ "[" +:+ show_Z (Z.of_nat i) +:+ "]" in
      match as_f64 v with
      | None => Err (at_ +:+ ": vector element must be a number")
      | Some f =>
          if negb (f64_is_finite f) then
            Err (at_ +:+ ": vector element must be finite, got " +:+ display_f64 f)
          else
            parts ← vector_parts path (S i) l;
            Ok (json_display (JNumber (Float f)) :: parts)
      end
  end.

Definition vector_dimension (op_name field path : string) (schema : ObjectSchema) :
  result string Z :=
  match find_column schema field with
  | Some col =>
      match column_type col with
      | CtVector dimension _ => Ok dimension
      | other =>
          Err (arg_path path 0 +:+ ": " +:+ op_name +:+ " requires a vector column; '" +:+ field
               +:+ "' has type " +:+ debug_column_type other)
      end
  | None => Err (arg_path path 0 +:+ ": " +:+ op_name +:+ " unknown column '" +:+ field +:+ "'")
  end.

Definition build_distance (op_name pg_op : string) (args : option (list Argument)) : Build :=
  λ offset schema path allow,
  '(a0, a1, a2) ← three_arguments op_name "vector_field, vector_literal, threshold" path args;
  raw_field ← validate_field_name (arg_value a0) 0 path "vector field name";
  let field := field_to_sql raw_field in
  dimension ← vector_dimension op_name field path schema;
  match as_array (arg_value a1) with
  | None => Err (arg_path path 1 +:+ ": second argument must be a JSON array of numbers")
  | Some arr =>
      let len := Z.of_nat (length arr) in
      if negb (len mod 2 ^ 32 =? dimension) then
        Err (arg_path path 1 +:+ ": " +:+ op_name +:+ " vector literal dimension " +:+ show_Z len
             +:+ " does not match column '" +:+ field +:+ "' dimension " +:+ show_Z dimension)
      else
        parts ← vector_parts path 0 arr;
        match as_f64 (arg_value a2) with
        | None => Err (arg_path path 2 +:+ ": third argument must be a numeric threshold")
        | Some threshold =>
            if negb (f64_is_finite threshold) || f64_ltb threshold f64_zero then
              Err (arg_path path 2 +:+ ": " +:+ op_name
                   +:+ " threshold must be a finite non-negative number, got "
                   +:+ display_f64 threshold)
            else
              Ok ("(" +:+ column field +:+ " " +:+ pg_op +:+ " " +:+ placeholder offset
                  +:+ "::vector) <= " +:+ format_fixed6 threshold,
                  [JString ("[" +:+ join "," parts +:+ "]")], offset + 1)
        end
  end.

Definition quote_char : string := String (chr 39) EmptyString.

Definition build_match (args : option (list Argument)) : Build :=
  λ offset schema path allow,
  '(a0, a1) ← two_arguments "MATCH" "field, query" path args;
  raw_field ← validate_field_name (arg_value a0) 0 path "field name";
  let field := field_to_sql raw_field in
  let cast := resolve_sql_cast field schema in
  if bool_decide (cast ≠ "tsvector") then
    Err (arg_path path 0 +:+ ": MATCH requires a tsvector column; '" +:+ field
         +:+ "' has SQL cast " +:+ cast)
  else
    match as_str (arg_value a1) with
    | None => Err (arg_path path 1 +:+ ": second argument must be a query string")
    | Some query =>
        let lang_lit :=
          replace quote_char (quote_char +:+ quote_char) (resolve_tsvector_language field schema) in
        Ok (column field +:+ " @@ plainto_tsquery('" +:+ lang_lit +:+ "', " +:+ placeholder offset
            +:+ ")", [JString query], offset + 1)
    end.

(** The dispatch of [build_condition_clause_at]. *)
Definition build_operation (op : string) (args : option (list Argument)) : Build :=
  let op := to_uppercase op in
  if decide (op = "AND" ∨ op = "OR") then build_logical op args
  else if decide (op = "NOT") then build_not args
  else
    match comparison_operator op with
    | Some operator => build_comparison op operator args
    | None =>
        if decide (op = "CONTAINS") then build_contains args
        else if decide (op = "IN") then build_in "IN" false args
        else if decide (op = "NOT_IN") then build_in "NOT_IN" true args
        else if decide (op = "IS_EMPTY") then build_presence "IS_EMPTY" empty_clause args
        else if decide (op = "IS_NOT_EMPTY") then build_presence "IS_NOT_EMPTY" not_empty_clause args
        else if decide (op = "IS_DEFINED") then build_presence "IS_DEFINED" defined_clause args
        else if decide (op = "SIMILARITY_GTE") then build_similarity args
        else if decide (op = "COSINE_DISTANCE_LTE") then build_distance op "<=>" args
        else if decide (op = "L2_DISTANCE_LTE") then build_distance op "<->" args
        else if decide (op = "MATCH") then build_match args
        else λ offset schema path allow, Err (path +:+ ": Unsupported operation: " +:+ op)
    end.

(** An argument decoded as a condition, and its clause ([deserialize_condition_arg] and
    [build_condition_clause_at]).  The clause of a subquery is asked for only when
    [decode_subquery] found a condition, so that it has one. *)
Fixpoint build_value (v : json) : Build :=
  let argument (x : json) : Argument :=
    {| arg_value := x;
       arg_clause := build_value x;
       arg_subquery_clause :=
         default (λ _ _ path _, Err path)
           match x with
           | JObject [(_, JObject s)] => assoc_with build_value "condition" s
           | JObject [(_, JArray [_; _; _; c])] => Some (build_value c)
           | _ => None
           end |} in
  let arguments (a : json) : option (option (list Argument)) :=
    match a with
    | JNull => Some None
    | JArray l => Some (Some (map argument l))
    | _ => None
    end in
  let decoded : option (string * option (list Argument)) :=
    match v with
    | JObject m =>
        op ← assoc_get "op" m ≫= as_str;
        args ← default (Some None) (assoc_with arguments "arguments" m);
        Some (op, args)
    | JArray [op; args] => op ← as_str op; args ← arguments args; Some (op, args)
    | _ => None
    end in
  λ offset schema path allow,
  match decoded with
  | Some (op, args) => build_operation op args offset schema path allow
  | None =>
      Err (path +:+ ": expected condition object with op and optional arguments; "
           +:+ condition_error v)
  end.

(** The names of the schemas the subqueries of a condition read; subqueries do not nest. *)
Fixpoint collect_subquery_schemas (v : json) (inside_subquery : bool) (condition_path : string) :
  result string (gset string) :=
  let from_argument (x : json) (path : string) : result string (gset string) :=
    subquery ← parse_subquery_operand x path;
    match subquery with
    | Some subquery =>
        if inside_subquery then Err (path +:+ ": nested subqueries are not supported")
        else
          nested ←
            match x with
            | JObject [(_, JObject s)] =>
                default (Ok ∅) (assoc_with (λ c, collect_subquery_schemas c true path) "condition" s)
            | JObject [(_, JArray [_; _; _; c])] => collect_subquery_schemas c true path
            | _ => Ok ∅
            end;
          Ok ({[sq_schema subquery]} ∪ nested)
    | None => collect_subquery_schemas x inside_subquery path
    end in
  let from_arguments (a : json) : result string (gset string) :=
    match a with
    | JArray l =>
        (fix go (i : nat) (l : list json) : result string (gset string) :=
           match l with
           | [] => Ok ∅
           | x :: l =>
               names ← from_argument x (arg_path condition_path i);
               more ← go (S i) l;
               Ok (names ∪ more)
           end) 0%nat l
    | _ => Ok ∅
    end in
  match decode_condition v with
  | None => Ok ∅
  | Some _ =>
      match v with
      | JObject m => default (Ok ∅) (assoc_with from_arguments "arguments" m)
      | JArray [_; args] => from_arguments args
      | _ => Ok ∅
      end
  end.
End clauses.

(** A decoded condition as the value it is decoded from. *)
Definition condition_object (c : Condition) : json :=
  JObject (match cond_arguments c with
           | Some l => [("arguments", JArray l); ("op", JString (cond_op c))]
           | None => [("op", JString (cond_op c))]
           end).

Definition build_condition_clause `{UnicodeData, SqlTexts, JsonDisplay} (condition : Condition)
  (param_offset : Z) (schema : ObjectSchema) : result string Clause :=
  build_value None (condition_object condition) param_offset schema "condition" false.

Definition build_condition_clause_with_subqueries `{UnicodeData, SqlTexts, JsonDisplay}
  (condition : Condition) (param_offset : Z) (schema : ObjectSchema)
  (subquery_schemas : gmap string ObjectSchema) : result string Clause :=
  build_value (Some subquery_schemas) (condition_object condition) param_offset schema "condition" true.

Definition collect_condition_subquery_schema_names `{SqlTexts} (condition : Condition) :
  result string (gset string) :=
  collect_subquery_schemas (condition_object condition) false "condition".

(** ** condition.rs: sort keys *)

Definition system_fields : list string := ["id"; "createdAt"; "updatedAt"; "created_at"; "updated_at"].

Fixpoint order_parts `{SqlTexts} (schema : ObjectSchema) (orders : option (list string)) (i : nat)
  (fields : list string) : result string (list string) :=
  match fields with
  | [] => Ok []
  | field :: fields =>
      let sql_field := field_to_sql field in
      let is_system := bool_decide (field ∈ system_fields) || bool_decide (sql_field ∈ system_fields) in
      let is_schema_column := bool_decide (field ∈ col_name <$> columns schema) in
      if negb is_system && negb is_schema_column then
        Err ("Invalid sort field: '" +:+ field +:+ "'. Must be a system field (id, createdAt, "
             +:+ "updatedAt) or a schema column.")
      else
        let order := default "ASC" (to_uppercase <$> (orders ≫= (.!! i))) in
        if bool_decide (order ≠ "ASC") && bool_decide (order ≠ "DESC") then
          Err ("Invalid sort order: '" +:+ order +:+ "'. Must be 'asc' or 'desc'.")
        else
          parts ← order_parts schema orders (S i) fields;
          Ok ((quote_identifier sql_field +:+ " " +:+ order) :: parts)
  end.

Definition build_order_by_clause `{SqlTexts} (sort_by sort_order : option (list string))
  (schema : ObjectSchema) : result string string :=
  match sort_by with
  | Some ((_ :: _) as fields) =>
      parts ← order_parts schema sort_order 0 fields;
      Ok (join ", " parts)
  | _ => Ok "created_at ASC"
  end.
