(* ===== verification/ObjectSqlProperties.v ===== *)
(** * Object store: the clauses of a query carry no user text

    Whatever the condition, the text of its clause is read by the database as identifiers
    that are field names or known tables, the text constants of the schema, and parameters
    numbered without gaps; the values of the condition travel as parameters only. *)

From S2P Require Import Prelude.
From S2P Require Import Json.
From S2P Require Import Text.
From S2P Require Import Float64.
From S2P Require Import Recovery.
From S2P Require Import GuestPaths.
From S2P Require Import GuestStepProperties.
From S2P Require Import GuestScenarios.
From S2P Require Import ValidationBase.
From S2P Require Import Validation.
From S2P Require Import ObjectSql.

(** ** Quoting *)

Lemma replace_char d rep c s :
  replace (String d "") rep (String c s) =
  (if Ascii.eqb d c then rep else String c "") +:+ replace (String d "") rep s.
Proof.
  unfold replace. cbn [replace_from]. unfold starts_with. cbn [strip_prefix].
  destruct (Ascii.eqb d c); [by rewrite bool_decide_true by done|].
  by rewrite bool_decide_false by by intros [].
Qed.

Lemma lex_step_acc m c s ts m' :
  lex_step m c = Some (ts, m') → lex m (String c s) = (ts ++.) <$> lex m' s.
Proof. intros H. simpl. by rewrite H. Qed.

(** Inside quotes, a text with its quotes doubled is the text. *)
Lemma lex_quoted_ident acc s rest :
  lex (InIdent acc) (replace dquote (dquote +:+ dquote) s +:+ String dq rest)
  = lex (IdentQuote (acc +:+ s)) rest.
Proof.
  revert acc. induction s as [|c s IH]; intros acc.
  - change (replace dquote (dquote +:+ dquote) "" +:+ ?x) with x. rewrite append_empty.
    simpl. by rewrite fmap_nil_some.
  - unfold dquote in *. rewrite replace_char, <-append_assoc.
    change (String (chr 34) "" +:+ String (chr 34) "") with (String dq (String dq "")) in *.
    assert (Hp : acc +:+ String c s = push acc c +:+ s) by (unfold push; by rewrite <-append_assoc).
    rewrite Hp. destruct (Ascii.eqb_spec (chr 34) c) as [<-|Hc].
    + change ((String dq (String dq "")) +:+ ?x) with (String dq (String dq x)).
      simpl. rewrite !fmap_nil_some. apply IH.
    + assert (Hn : c ≠ dq) by (intros ->; by apply Hc).
      change (String c "" +:+ ?x) with (String c x). cbn [lex lex_step].
      rewrite (proj2 (Ascii.eqb_neq c dq) Hn). simpl. rewrite fmap_nil_some. apply IH.
Qed.

Lemma lex_quoted_text acc s rest :
  lex (InText acc) (replace quote_char (quote_char +:+ quote_char) s +:+ String sq rest)
  = lex (TextQuote (acc +:+ s)) rest.
Proof.
  revert acc. induction s as [|c s IH]; intros acc.
  - change (replace quote_char (quote_char +:+ quote_char) "" +:+ ?x) with x. rewrite append_empty.
    simpl. by rewrite fmap_nil_some.
  - unfold quote_char in *. rewrite replace_char, <-append_assoc.
    change (String (chr 39) "" +:+ String (chr 39) "") with (String sq (String sq "")) in *.
    assert (Hp : acc +:+ String c s = push acc c +:+ s) by (unfold push; by rewrite <-append_assoc).
    rewrite Hp. destruct (Ascii.eqb_spec (chr 39) c) as [<-|Hc].
    + change ((String sq (String sq "")) +:+ ?x) with (String sq (String sq x)).
      simpl. rewrite !fmap_nil_some. apply IH.
    + assert (Hn : c ≠ sq) by (intros ->; by apply Hc).
      change (String c "" +:+ ?x) with (String c x). cbn [lex lex_step].
      rewrite (proj2 (Ascii.eqb_neq c sq) Hn). simpl. rewrite fmap_nil_some. apply IH.
Qed.

Lemma lexes_quoted s : lexes (quote_identifier s) [TIdent s].
Proof.
  intros rest Hr. unfold quote_identifier. rewrite <-!append_assoc.
  change (dquote +:+ ?x) with (String dq x) at 1. cbn [lex lex_step step_between].
  change (Ascii.eqb dq dq) with true. simpl. rewrite fmap_nil_some.
  change (dquote +:+ rest) with (String dq rest). rewrite lex_quoted_ident.
  change ("" +:+ s) with s. by apply lex_ident_end.
Qed.

(** A name without quotes. *)
Lemma lexes_column field : lacks dq field = true → lexes (column field) [TIdent field].
Proof.
  intros Hf. unfold column. rewrite <-(replace_lacks dq dquote (dquote +:+ dquote) field) at 1 by done.
  apply lexes_quoted.
Qed.

Lemma lex_digits s n z rest :
  read_digits s n = Some z → lex (InParam n) (s +:+ rest) = lex (InParam z) rest.
Proof.
  revert n. induction s as [|c s IH]; intros n; [by intros [= ->]|]. cbn [read_digits].
  change (String c s +:+ rest) with (String c (s +:+ rest)). cbn [lex lex_step].
  destruct (digit_val c) as [d|]; [|done]. intros Hz. simpl. rewrite fmap_nil_some. by apply IH.
Qed.

Lemma lexes_placeholder n : 0 ≤ n ≤ i32_max → lexes (placeholder n) [TParam n].
Proof.
  intros Hn rest Hr. unfold placeholder. rewrite <-append_assoc.
  change ("$" +:+ ?x) with (String "$"%char x). simpl. rewrite fmap_nil_some.
  rewrite (lex_digits _ 0 n); [by apply lex_param_end|].
  unfold show_Z. destruct (Z.ltb_spec n 0) as [|_]; [lia|].
  destruct (read_show_aux 20 n "") as (c & s' & _ & _ & Hread); [|lia|done].
  split; [lia|]. unfold i32_max in Hn. change (10 ^ Z.of_nat 20) with 100000000000000000000. lia.
Qed.

(** ** Clauses in parts *)

Section parts.
Context (names texts : string → Prop).

Definition token_safe (lo hi : Z) (t : token) : Prop :=
  match t with
  | TIdent x => names x
  | TText x => texts x
  | TParam n => lo ≤ n < hi
  | TSym _ => True
  end.

(** The text is read as names, texts and the parameters from [lo] to [hi], all of which
    occur, and closes the parentheses it opens. *)
Definition safe (lo hi : Z) (s : string) : Prop := ∃ ts,
  lexes s ts ∧ (∀ d, paren_depth d ts = Some d) ∧
  (∀ t, t ∈ ts → token_safe lo hi t) ∧ (∀ n, lo ≤ n < hi → TParam n ∈ ts).

(** A fixed text, or a part with the range of its parameters. *)
Inductive part :=
| Lit (s : string)
| Sub (s : string) (lo hi : Z).

Definition part_text (p : part) : string := match p with Lit s | Sub s _ _ => s end.

Fixpoint parts_text (l : list part) : string :=
  match l with
  | [] => ""
  | [p] => part_text p
  | p :: l => part_text p +:+ parts_text l
  end.

(** The depth of parentheses after the parts. *)
Fixpoint parts_depth (d : nat) (l : list part) : option nat :=
  match l with
  | [] => Some d
  | Lit s :: l => d' ← paren_depth d (symbols s); parts_depth d' l
  | Sub _ _ _ :: l => parts_depth d l
  end.

(** A part is followed by a fixed text that ends its last token. *)
Definition followed (l : list part) : bool :=
  match l with
  | [] => true
  | Lit s :: _ => negb (is_empty_str s) && ends_token s
  | Sub _ _ _ :: _ => false
  end.

Fixpoint parts_ok (lo hi : Z) (l : list part) : Prop :=
  match l with
  | [] => True
  | Lit s :: l => all_chars plain_char s = true ∧ parts_ok lo hi l
  | Sub s a b :: l => safe a b s ∧ lo ≤ a ∧ b ≤ hi ∧ followed l = true ∧ parts_ok lo hi l
  end.

Lemma render_cons p l : parts_text (p :: l) = part_text p +:+ parts_text l.
Proof. destruct l; [|done]. simpl. by rewrite append_empty. Qed.

Lemma paren_depth_app d a b : paren_depth d (a ++ b) = paren_depth d a ≫= λ d, paren_depth d b.
Proof.
  revert d. induction a as [|t a IH]; intros d; [done|]. destruct t; simpl; auto.
  destruct (Ascii.eqb c "("); [auto|]. destruct (Ascii.eqb c ")"); [|auto]. destruct d; [done|auto].
Qed.

Lemma followed_ends l rest : followed l = true → ends_token rest = true → ends_token (parts_text l +:+ rest) = true.
Proof.
  intros Hl Hr. destruct l as [|[s|] l]; [done| |done]. simpl in Hl.
  destruct s as [|c s]; [done|]. rewrite render_cons. simpl. done.
Qed.

Lemma elem_of_symbols t s : t ∈ symbols s → ∃ c, t = TSym c.
Proof. intros (c & -> & _)%list_elem_of_fmap. by exists c. Qed.

Lemma parts_lex lo hi l :
  parts_ok lo hi l → ∃ ts, lexes (parts_text l) ts ∧
    (∀ d, paren_depth d ts = parts_depth d l) ∧ (∀ t, t ∈ ts → token_safe lo hi t) ∧
    ∀ n, Exists (λ p, match p with Sub _ a b => a ≤ n < b | Lit _ => False end) l → TParam n ∈ ts.
Proof.
  induction l as [|p l IH]; intros Hok.
  - exists []. split; [intros rest _; by rewrite fmap_nil_some|]. split; [done|].
    split; [by intros t []%elem_of_nil|]. by intros n []%Exists_nil.
  - destruct p as [s|s a b]; simpl in Hok.
    + destruct Hok as [Hs (ts & H1 & H2 & H3 & H4)%IH]. exists (symbols s ++ ts). repeat split.
      * intros rest Hr. rewrite render_cons, <-append_assoc. simpl. rewrite lex_plain by done.
        rewrite H1 by done. apply fmap_app_some.
      * intros d. rewrite paren_depth_app. simpl. by destruct (paren_depth d _); simpl.
      * intros t [[c ->]%elem_of_symbols|Ht]%elem_of_app; [done|by apply H3].
      * intros n [[]|Hn]%Exists_cons. apply elem_of_app. right. by apply H4.
    + destruct Hok as ((ts' & G1 & G2 & G3 & G4) & Ha & Hb & Hf & (ts & H1 & H2 & H3 & H4)%IH).
      exists (ts' ++ ts). repeat split.
      * intros rest Hr. rewrite render_cons, <-append_assoc. simpl.
        rewrite G1 by by apply followed_ends. rewrite H1 by done. apply fmap_app_some.
      * intros d. rewrite paren_depth_app, G2. simpl. done.
      * intros t [Ht|Ht]%elem_of_app; [|by apply H3]. apply G3 in Ht.
        destruct t; simpl in *; try done. lia.
      * intros n [Hn|Hn]%Exists_cons; apply elem_of_app; [left; by apply G4|right; by apply H4].
Qed.

(** The parts of a clause, whose parameters are those of its parts. *)
Lemma safe_parts lo hi l s :
  s = parts_text l → parts_ok lo hi l → (∀ d, parts_depth d l = Some d) →
  (∀ n, lo ≤ n < hi →
     Exists (λ p, match p with Sub _ a b => a ≤ n < b | Lit _ => False end) l) →
  safe lo hi s.
Proof.
  intros -> Hok Hd Hn. destruct (parts_lex lo hi l Hok) as (ts & H1 & H2 & H3 & H4).
  exists ts. split; [done|]. split; [intros d; by rewrite H2|]. split; [done|]. auto.
Qed.
End parts.

(** ** The parts the clauses are made of *)

Lemma concat_chars s : concat_str (chars s) = s.
Proof.
  induction s as [|c s IH]; [done|]. cbn [chars].
  destruct (chars s) as [|ch rest] eqn:Hs; [by destruct s|].
  destruct s as [|d s]; [done|]. rewrite <-IH. by destruct (is_cont_char d).
Qed.

Lemma lacks_concat c l : forallb (lacks c) l = true → lacks c (concat_str l) = true.
Proof.
  induction l as [|s l IH]; [done|]. simpl. intros [Hs Hl]%andb_prop.
  change (concat_str (s :: l)) with (s +:+ concat_str l). by rewrite lacks_app, Hs, IH.
Qed.

(** A plain character that is no parenthesis. *)
Definition quiet_char (c : Ascii.ascii) : bool :=
  plain_char c && negb (Ascii.eqb c "("%char) && negb (Ascii.eqb c ")"%char).

Lemma all_chars_app p a b : all_chars p (a +:+ b) = all_chars p a && all_chars p b.
Proof. induction a as [|c a IH]; [done|]. simpl. by rewrite IH, andb_assoc. Qed.

Lemma show_pos_aux_quiet fuel n acc :
  0 ≤ n → all_chars quiet_char acc = true → all_chars quiet_char (show_pos_aux fuel n acc) = true.
Proof.
  revert n acc. induction fuel as [|fuel IH]; intros n acc Hn Hacc; [done|]. simpl.
  assert (Hd : quiet_char (digit_char (n mod 10)) = true).
  { pose proof (Z.mod_pos_bound n 10 ltac:(lia)) as Hm. generalize dependent (n mod 10).
    intros d Hd. assert (Hc : d = 0 ∨ d = 1 ∨ d = 2 ∨ d = 3 ∨ d = 4 ∨ d = 5 ∨ d = 6 ∨ d = 7 ∨ d = 8 ∨ d = 9)
      by lia. by repeat destruct Hc as [->|Hc]; subst. }
  destruct (n <? 10); [simpl; by rewrite Hd|]. apply IH; [by apply Z.div_pos|]. simpl. by rewrite Hd.
Qed.

Lemma show_pos_nonempty fuel n acc : show_pos_aux (S fuel) n acc ≠ "".
Proof.
  revert n acc. induction fuel as [|fuel IH]; intros n acc; simpl; destruct (_ <? _); try done. apply IH.
Qed.

Lemma quiet_plain s : all_chars quiet_char s = true → all_chars plain_char s = true.
Proof.
  induction s as [|c s IH]; [done|]. simpl. intros [[[Hc _]%andb_prop _]%andb_prop Hs]%andb_prop.
  by rewrite Hc, IH.
Qed.

Lemma quiet_depth d s : all_chars quiet_char s = true → paren_depth d (symbols s) = Some d.
Proof.
  induction s as [|c s IH]; [done|]. cbn [all_chars]. unfold quiet_char at 1.
  intros [[[_ H1%negb_true_iff]%andb_prop H2%negb_true_iff]%andb_prop Hs]%andb_prop.
  change (symbols (String c s)) with (TSym c :: symbols s). cbn [paren_depth]. rewrite H1, H2. auto.
Qed.

Section pieces.
Context (names texts : string → Prop).

Abbreviation safe := (safe names texts).

Lemma safe_tokens n s ts :
  lexes s ts → (∀ d, paren_depth d ts = Some d) → (∀ t, t ∈ ts → token_safe names texts n n t) →
  safe n n s.
Proof. intros. exists ts. do 3 (split; [done|]). intros. lia. Qed.

Lemma safe_quiet n s : all_chars quiet_char s = true → safe n n s.
Proof.
  intros Hs. apply (safe_tokens n s (symbols s)).
  - intros rest _. by apply lex_plain, quiet_plain.
  - intros d. by apply quiet_depth.
  - by intros t [c ->]%elem_of_symbols.
Qed.

(** A quiet text behind a minus sign. *)
Lemma safe_minus n c s : all_chars quiet_char (String c s) = true → safe n n (String "-"%char (String c s)).
Proof.
  intros Hs. apply (safe_tokens n _ (TSym "-"%char :: symbols (String c s))).
  - intros rest _. change (String "-"%char (String c s) +:+ rest)
      with (String "-"%char (String c (s +:+ rest))).
    pose proof (lex_plain (String c s) rest (quiet_plain _ Hs)) as Hp.
    change (String c s +:+ rest) with (String c (s +:+ rest)) in Hp.
    simpl in Hs. apply andb_prop in Hs as [Hc _].
    assert (Hd : Ascii.eqb c "-"%char = false).
    { unfold quiet_char, plain_char in Hc. apply andb_prop in Hc as [[Hc _]%andb_prop _].
      apply negb_true_iff in Hc. rewrite !orb_false_iff in Hc. tauto. }
    cbn [lex lex_step step_between] in Hp |- *. simpl (Ascii.eqb "-" _).
    cbn [lex lex_step]. simpl. rewrite fmap_nil_some, Hd. unfold after.
    destruct (step_between c) as [[ts m]|]; simpl in *; [|by destruct (lex Between rest)].
    destruct (lex m (s +:+ rest)), (lex Between rest); simpl in *; try done. by injection Hp as ->.
  - intros d. cbn [paren_depth]. simpl. by apply (quiet_depth d (String c s)).
  - intros t [->|[c' ->]%elem_of_symbols]%elem_of_cons; done.
Qed.

Lemma safe_column n field : names field → lacks dq field = true → safe n n (column field).
Proof.
  intros Hf Hl. apply (safe_tokens n _ [TIdent field]); [by apply lexes_column|done|].
  by intros t ->%list_elem_of_singleton.
Qed.

Lemma safe_quoted n x : names x → safe n n (quote_identifier x).
Proof.
  intros Hx. apply (safe_tokens n _ [TIdent x]); [apply lexes_quoted|done|].
  by intros t ->%list_elem_of_singleton.
Qed.

Lemma safe_text n x : texts x →
  safe n n ("'" +:+ replace quote_char (quote_char +:+ quote_char) x +:+ "'").
Proof.
  intros Hx. apply (safe_tokens n _ [TText x]); [|done|by intros t ->%list_elem_of_singleton].
  intros rest Hr. rewrite <-!append_assoc. change ("'" +:+ ?y) with (String sq y).
  cbn [lex lex_step step_between]. change (Ascii.eqb sq dq) with false.
  change (Ascii.eqb sq sq) with true. simpl. rewrite fmap_nil_some.
  change ("'" +:+ rest) with (String sq rest). rewrite lex_quoted_text.
  change ("" +:+ x) with x. by apply lex_text_end.
Qed.

Lemma safe_placeholder n : 0 ≤ n ≤ i32_max → safe n (n + 1) (placeholder n).
Proof.
  intros Hn. exists [TParam n]. split; [by apply lexes_placeholder|]. split; [done|]. split.
  - intros t ->%list_elem_of_singleton. simpl. lia.
  - intros m Hm. apply list_elem_of_singleton. f_equal. lia.
Qed.

Lemma show_digits_quiet n : 0 ≤ n → ∃ c s, show_digits n = String c s ∧
  all_chars quiet_char (String c s) = true.
Proof.
  intros Hn. unfold show_digits. pose proof (show_pos_aux_quiet (S (Z.to_nat (Z.log2 n))) n "" Hn eq_refl) as Hq.
  destruct (show_pos_aux _ n "") as [|c s] eqn:Hs; [|eauto]. by apply show_pos_nonempty in Hs.
Qed.

Lemma safe_fixed6 n x : safe n n (format_fixed6 x).
Proof.
  enough (Hdig : ∀ neg k, 0 ≤ k → safe n n
    ((if neg : bool then "-" else "") +:+ show_digits (k / 1000000) +:+ "."
      +:+ concat_str (repeat "0" (6 - String.length (show_digits (k mod 1000000))))
      +:+ show_digits (k mod 1000000))).
  { unfold format_fixed6. destruct x as [neg|neg| |neg m e].
    - by apply Hdig.
    - destruct neg; [apply (safe_minus n "i" "nf")|apply safe_quiet]; done.
    - by apply safe_quiet.
    - destruct (0 <=? e); apply Hdig; [lia|]. pose proof (Z.pow_nonneg 2 (- e)).
      assert (0 ≤ Z.pos m * 1000000 / 2 ^ (- e)) by (apply Z_div_nonneg_nonneg; lia).
      destruct (_ || _); lia. }
  intros neg k Hk.
  destruct (show_digits_quiet (k / 1000000)) as (c & s & -> & Hs); [by apply Z_div_nonneg_nonneg|].
  destruct (show_digits_quiet (k mod 1000000)) as (c' & s' & -> & Hs'); [by apply Z.mod_pos_bound|].
  assert (Hz : ∀ j, all_chars quiet_char (concat_str (repeat "0" j)) = true) by (induction j; done).
  set (tail := concat_str _ +:+ _).
  assert (Ht : all_chars quiet_char ((String c s) +:+ "." +:+ tail) = true).
  { subst tail. by rewrite !all_chars_app, Hs, Hz, Hs'. }
  destruct neg.
  - change ("-" +:+ ?y) with (String "-"%char y).
    change (String c s +:+ ?y) with (String c (s +:+ y)) in *. by apply safe_minus.
  - change ("" +:+ ?y) with y. by apply safe_quiet.
Qed.
End pieces.

Create HintDb safe.
#[export] Hint Resolve safe_fixed6 safe_quoted : safe.
#[export] Hint Extern 2 (safe _ _ _ _ (placeholder _)) => apply safe_placeholder; lia : safe.
#[export] Hint Extern 3 (safe _ _ _ _ _) => by apply safe_quiet : safe.
#[export] Hint Extern 1 (_ ≤ _) => lia : safe.

(** The parts of a clause: the text, the parts themselves, the parentheses and the
    parameters. *)
Ltac in_parts l :=
  apply (safe_parts _ _ _ _ l);
  [cbn [parts_text part_text]; by rewrite <-?append_assoc
  |repeat (split; [first [done | lia | by auto with safe]|]); done
  |done
  |intros ? ?; rewrite ?Exists_cons, Exists_nil; lia].

(** Each step of a result that is [Ok]. *)
Lemma bind_ok {E A B} (r : result E A) (f : A → result E B) b :
  r ≫= f = Ok b → ∃ a, r = Ok a ∧ f a = Ok b.
Proof. destruct r; [eauto|done]. Qed.

(** ** The builders *)

Section builders.
Context `{UnicodeData, SqlTexts, JsonDisplay} (schemas : option (gmap string ObjectSchema)).
Context (readable : ObjectSchema → Prop).

(** No alphanumeric character is a double quote. *)
Hypothesis alphanumeric_unquoted : ∀ c, is_alphanumeric c = true → lacks dq c = true.
Hypothesis subqueries_readable :
  ∀ m k schema, schemas = Some m → m !! k = Some schema → readable schema.

(** A checked field name, and the table of a subquery. *)
Definition known_name (x : string) : Prop :=
  (∃ raw, raw ≠ "" ∧ field_chars raw = true ∧ x = field_to_sql raw) ∨
  (∃ m k schema, schemas = Some m ∧ m !! k = Some schema ∧ x = table_name schema).

(** The empty text, and the text search language of a column. *)
Definition known_text (x : string) : Prop :=
  x = "" ∨ ∃ schema field, readable schema ∧ x = resolve_tsvector_language field schema.

Abbreviation safe := (safe known_name known_text).

(** What a builder returns is safe, and uses as many numbers as it has parameters. *)
Definition good_build (b : Build) : Prop :=
  ∀ lo schema path allow clause params hi,
    b lo schema path allow = Ok (clause, params, hi) →
    hi = lo + Z.of_nat (length params) ∧
    (readable schema → 0 ≤ lo → hi ≤ i32_max + 1 → safe lo hi clause).

Definition good_argument (a : Argument) : Prop :=
  good_build (arg_clause a) ∧ good_build (arg_subquery_clause a).

Lemma field_unquoted raw : field_chars raw = true → lacks dq (field_to_sql raw) = true.
Proof.
  intros Hf. unfold field_to_sql. do 2 (case_decide; [done|]). rewrite <-(concat_chars raw).
  apply lacks_concat. apply forallb_forall. intros c Hc. unfold field_chars in Hf.
  eapply forallb_forall in Hf; [|exact Hc]. unfold field_char in Hf. rewrite !orb_true_iff in Hf.
  destruct Hf as [[Hf|Hf]|Hf]; [auto|apply bool_decide_eq_true in Hf; by subst..].
Qed.

Lemma validated_field value i path d raw :
  validate_field_name value i path d = Ok raw → raw ≠ "" ∧ field_chars raw = true.
Proof.
  unfold validate_field_name. destruct (as_str value) as [s|]; [|done].
  destruct (is_empty_str s) eqn:He; [done|]. destruct (field_chars s) eqn:Hf; [|done].
  simpl. intros [= <-]. split; [by intros ->|done].
Qed.

Lemma validated_select s path d raw :
  validate_field_name_from_str s path d = Ok raw → raw ≠ "" ∧ field_chars raw = true.
Proof.
  unfold validate_field_name_from_str.
  destruct (is_empty_str s) eqn:He; [done|]. destruct (field_chars s) eqn:Hf; [|done].
  simpl. intros [= <-]. split; [by intros ->|done].
Qed.

Lemma field_column n raw :
  raw ≠ "" ∧ field_chars raw = true → safe n n (column (field_to_sql raw)).
Proof. intros [? ?]. apply safe_column; [left; eauto|by apply field_unquoted]. Qed.

Lemma field_quoted n raw :
  raw ≠ "" ∧ field_chars raw = true → safe n n (quote_identifier (field_to_sql raw)).
Proof. intros [? ?]. apply safe_quoted. left. eauto. Qed.

Lemma cast_quiet field schema : all_chars quiet_char (resolve_sql_cast field schema) = true.
Proof.
  unfold resolve_sql_cast. do 2 (case_decide; [done|]).
  destruct (find_column schema field) as [[? []]|]; done.
Qed.

#[local] Hint Resolve field_column field_quoted : safe.
#[local] Hint Extern 2 (safe _ _ (resolve_sql_cast _ _)) => apply safe_quiet, cast_quiet : safe.

(** Takes the accepted run of a builder apart. *)
Ltac accepted :=
  repeat match goal with
  | Hr : mbind _ _ = Ok _ |- _ =>
      let a := fresh "a" in let Ha := fresh "Ha" in
      apply bind_ok in Hr as (a & Ha & Hr)
  | Hr : (let '(_, _) := ?a in _) = Ok _ |- _ => is_var a; destruct a
  | Hr : Err _ = Ok _ |- _ => discriminate Hr
  | Hr : Ok (_, _, _) = Ok (_, _, _) |- _ => injection Hr as <- <- <-
  | Hr : (if ?b then _ else _) = Ok _ |- _ => destruct b
  | Hr : match ?o with _ => _ end = Ok _ |- _ => destruct o eqn:?
  | Hr : validate_field_name _ _ _ _ = Ok _ |- _ => apply validated_field in Hr
  | Hr : validate_field_name_from_str _ _ _ = Ok _ |- _ => apply validated_select in Hr
  end.

Lemma good_build_all i args lo schema path allow clauses params hi sep :
  Forall good_argument args → all_chars quiet_char sep = true →
  build_all i args lo schema path allow = Ok (clauses, params, hi) →
  hi = lo + Z.of_nat (length params) ∧ (clauses = [] → params = []) ∧
  (readable schema → 0 ≤ lo → hi ≤ i32_max + 1 → clauses ≠ [] →
   safe lo hi (join (" " +:+ sep +:+ " ") clauses)).
Proof.
  intros Hargs Hsep. revert i lo clauses params hi.
  induction Hargs as [|a args [Ha _] _ IH]; intros i lo clauses params hi; cbn [build_all].
  { intros [= <- <- <-]. split; [simpl; lia|done]. }
  intros Hr. accepted. apply Ha in Ha0 as [-> Hc]. apply IH in Ha1 as (-> & Hnil & Hcs).
  rewrite length_app. split; [lia|]. split; [done|]. intros Hs Hlo Hhi _.
  set (mid := lo + Z.of_nat (length l)) in *. destruct l0 as [|c' l0].
  - rewrite Hnil in * by done. simpl (Z.of_nat (length _)) in *. rewrite Z.add_0_r in *.
    simpl (join _ _). in_parts [Lit "("; Sub s lo mid; Lit ")"].
  - change (join ?x (?y :: c' :: l0)) with (y +:+ x +:+ join x (c' :: l0)).
    set (hi := mid + Z.of_nat (length l1)) in *.
    in_parts [Lit "("; Sub s lo mid; Lit ") "; Sub sep mid mid; Lit " ";
              Sub (join (" " +:+ sep +:+ " ") (c' :: l0)) mid hi].
Qed.

Lemma good_logical op args :
  all_chars quiet_char op = true → Forall good_argument (default [] args) →
  good_build (build_logical op args).
Proof.
  intros Hop Hargs lo schema path allow clause params hi Hr. unfold build_logical in Hr.
  destruct args as [args|]; [|done]. accepted. destruct (decide (l = [])); [done|]. accepted.
  edestruct good_build_all as (Hn & _ & Hsafe); eauto.
Qed.

Lemma good_not args : Forall good_argument (default [] args) → good_build (build_not args).
Proof.
  intros Hargs lo schema path allow clause params hi Hr. unfold build_not in Hr.
  destruct args as [[|a [|]]|]; try done. apply Forall_singleton in Hargs as [Ha _].
  accepted. apply Ha in Ha0 as [-> Hc]. split; [done|]. intros.
  in_parts [Lit "NOT ("; Sub s lo (lo + Z.of_nat (length l)); Lit ")"].
Qed.

Lemma good_comparison op operator args :
  all_chars quiet_char operator = true → good_build (build_comparison op operator args).
Proof.
  intros Hop lo schema path allow clause params hi Hr. unfold build_comparison in Hr. accepted.
  - split; [simpl; lia|]. intros.
    in_parts [Sub (column (field_to_sql a1)) lo lo; Lit " IS NULL"].
  - split; [simpl; lia|]. intros.
    in_parts [Sub (column (field_to_sql a1)) lo lo; Lit " IS NOT NULL"].
  - split; [done|]. intros. pose proof (cast_quiet (field_to_sql a1) schema) as Hcast.
    generalize dependent (resolve_sql_cast (field_to_sql a1) schema). intros cast Hcast.
    in_parts [Sub (column (field_to_sql a1)) lo lo; Lit "::"; Sub cast lo lo; Lit " ";
              Sub operator lo lo; Lit " "; Sub (placeholder lo) lo (lo + 1); Lit "::";
              Sub cast lo lo].
Qed.

Lemma good_contains args : good_build (build_contains args).
Proof.
  intros lo schema path allow clause params hi Hr. unfold build_contains in Hr. accepted.
  split; [done|]. intros.
  in_parts [Sub (column (field_to_sql a1)) lo lo; Lit "::text ILIKE ";
            Sub (placeholder lo) lo (lo + 1); Lit "::text"].
Qed.

(** A column without a parameter. *)
Definition good_presence (clause : string → string) : Prop :=
  ∀ n raw, raw ≠ "" ∧ field_chars raw = true → safe n n (clause (field_to_sql raw)).

Lemma safe_empty_text n : safe n n "''".
Proof. apply (safe_text known_name known_text n ""). by left. Qed.
#[local] Hint Resolve safe_empty_text : safe.

Lemma good_empty : good_presence empty_clause.
Proof.
  intros n raw Hraw. unfold empty_clause.
  in_parts [Lit "("; Sub (column (field_to_sql raw)) n n; Lit " IS NULL OR ";
            Sub (column (field_to_sql raw)) n n; Lit "::text = "; Sub "''" n n; Lit ")"].
Qed.

Lemma good_not_empty : good_presence not_empty_clause.
Proof.
  intros n raw Hraw. unfold not_empty_clause.
  in_parts [Lit "("; Sub (column (field_to_sql raw)) n n; Lit " IS NOT NULL AND ";
            Sub (column (field_to_sql raw)) n n; Lit "::text != "; Sub "''" n n; Lit ")"].
Qed.

Lemma good_defined : good_presence defined_clause.
Proof.
  intros n raw Hraw. unfold defined_clause.
  in_parts [Sub (column (field_to_sql raw)) n n; Lit " IS NOT NULL"].
Qed.

Lemma good_build_presence op clause args :
  good_presence clause → good_build (build_presence op clause args).
Proof.
  intros Hc lo schema path allow c params hi Hr. unfold build_presence in Hr. accepted.
  split; [simpl; lia|]. auto.
Qed.

Lemma good_similarity args : good_build (build_similarity args).
Proof.
  intros lo schema path allow clause params hi Hr. unfold build_similarity in Hr. accepted.
  split; [done|]. intros. destruct (f64_leb _ _).
  - in_parts [Lit "("; Sub (column (field_to_sql a2)) lo lo; Lit "::text % ";
      Sub (placeholder lo) lo (lo + 1); Lit "::text AND similarity(";
      Sub (column (field_to_sql a2)) lo lo; Lit "::text, "; Sub (placeholder lo) lo (lo + 1);
      Lit "::text) >= "; Sub (format_fixed6 s0) lo lo; Lit ")"].
  - in_parts [Lit "similarity("; Sub (column (field_to_sql a2)) lo lo; Lit "::text, ";
      Sub (placeholder lo) lo (lo + 1); Lit "::text) >= "; Sub (format_fixed6 s0) lo lo].
Qed.

Lemma good_distance op pg_op args :
  (∀ n, safe n n pg_op) → good_build (build_distance op pg_op args).
Proof.
  intros Hpg lo schema path allow clause params hi Hr. unfold build_distance in Hr. accepted.
  split; [done|]. intros.
  in_parts [Lit "("; Sub (column (field_to_sql a2)) lo lo; Lit " "; Sub pg_op lo lo; Lit " ";
            Sub (placeholder lo) lo (lo + 1); Lit "::vector) <= "; Sub (format_fixed6 s) lo lo].
Qed.

Lemma good_match args : good_build (build_match args).
Proof.
  intros lo schema path allow clause params hi Hr. unfold build_match in Hr. accepted.
  split; [done|]. intros. set (lang := resolve_tsvector_language _ _).
  assert (Hl : safe lo lo ("'" +:+ replace quote_char (quote_char +:+ quote_char) lang +:+ "'"))
    by (apply safe_text; right; eauto).
  in_parts [Sub (column (field_to_sql a1)) lo lo; Lit " @@ plainto_tsquery(";
            Sub ("'" +:+ replace quote_char (quote_char +:+ quote_char) lang +:+ "'") lo lo;
            Lit ", "; Sub (placeholder lo) lo (lo + 1); Lit ")"].
Qed.

(** In parentheses behind NOT, or as it is. *)
Lemma safe_negated (negate : bool) lo hi s :
  lo ≤ hi → safe lo hi s → safe lo hi (if negate then "NOT (" +:+ s +:+ ")" else s).
Proof. intros Hle Hs. destruct negate; [|done]. in_parts [Lit "NOT ("; Sub s lo hi; Lit ")"]. Qed.

Lemma safe_in_subquery raw select lo hi s cast cast' table :
  raw ≠ "" ∧ field_chars raw = true → select ≠ "" ∧ field_chars select = true →
  all_chars quiet_char cast = true → all_chars quiet_char cast' = true → known_name table →
  lo ≤ hi → safe lo hi s →
  safe lo hi
    (quote_identifier (field_to_sql raw) +:+ "::" +:+ cast +:+ " IN ("
     +:+ ("SELECT " +:+ quote_identifier (field_to_sql select) +:+ "::" +:+ cast'
          +:+ " FROM " +:+ quote_identifier table
          +:+ " WHERE deleted = FALSE AND (" +:+ s +:+ ")") +:+ ")").
Proof.
  intros. assert (safe lo lo (quote_identifier table)) by by apply safe_quoted.
  in_parts [Sub (quote_identifier (field_to_sql raw)) lo lo; Lit "::"; Sub cast lo lo;
    Lit " IN (SELECT "; Sub (quote_identifier (field_to_sql select)) lo lo; Lit "::";
    Sub cast' lo lo; Lit " FROM "; Sub (quote_identifier table) lo lo;
    Lit " WHERE deleted = FALSE AND ("; Sub s lo hi; Lit "))"].
Qed.

Lemma good_subquery raw subquery b negate :
  raw ≠ "" ∧ field_chars raw = true → good_build b →
  good_build (build_subquery_condition_clause schemas (field_to_sql raw) subquery b negate).
Proof.
  intros Hraw Hb lo schema path allow clause params hi Hr.
  unfold build_subquery_condition_clause in Hr.
  destruct (negb allow); [done|]. destruct schemas as [m|] eqn:Hm; [|done].
  destruct (m !! sq_schema subquery) as [target|] eqn:Ht; [|done].
  assert (Htable : known_name (table_name target)) 
    by (right; by exists m, (sq_schema subquery), target).
  accepted.
  - apply Hb in Ha0 as [-> Hs]. split; [done|]. intros.
    apply safe_negated; [lia|]. apply safe_in_subquery; auto using cast_quiet; [lia|].
    apply Hs; try done. by eapply subqueries_readable.
  - split; [simpl; lia|]. intros. apply safe_negated; [lia|].
    apply safe_in_subquery; auto using cast_quiet; [lia|]. by apply safe_quiet.
Qed.

Lemma good_in op negate args :
  Forall good_argument (default [] args) → good_build (build_in schemas op negate args).
Proof.
  intros Hargs lo schema path allow clause params hi Hr. unfold build_in in Hr.
  apply bind_ok in Hr as ([a0 a1] & Ha & Hr).
  assert (Hsub : good_build (arg_subquery_clause a1)).
  { unfold two_arguments in Ha. destruct args as [[|? [|? []]]|]; try done. simplify_eq.
    simpl in Hargs. decompose_Forall_hyps. by match goal with H : good_argument a1 |- _ => destruct H end. }
  apply bind_ok in Hr as (raw & Hraw%validated_field & Hr).
  apply bind_ok in Hr as ([q|] & _ & Hr); [by eapply good_subquery|].
  accepted. split; [done|]. intros. apply safe_negated; [lia|].
  in_parts [Sub (column (field_to_sql raw)) lo lo;
            Lit "::text = ANY(SELECT jsonb_array_elements_text(";
            Sub (placeholder lo) lo (lo + 1); Lit "::jsonb))"].
Qed.

Lemma good_operation op args :
  Forall good_argument (default [] args) → good_build (build_operation schemas op args).
Proof.
  intros Hargs. unfold build_operation. generalize (to_uppercase op). clear op. intros op.
  case_decide as Hop; [apply good_logical; [by destruct Hop as [->| ->]|done]|].
  case_decide; [by apply good_not|].
  destruct (comparison_operator op) as [operator|] eqn:Hc.
  { apply good_comparison. unfold comparison_operator in Hc. repeat case_decide; by simplify_eq. }
  case_decide; [apply good_contains|].
  do 2 (case_decide; [by apply good_in|]).
  case_decide; [apply good_build_presence, good_empty|].
  case_decide; [apply good_build_presence, good_not_empty|].
  case_decide; [apply good_build_presence, good_defined|].
  case_decide; [apply good_similarity|].
  case_decide; [by apply good_distance; intros n; apply safe_quiet|].
  case_decide.
  { apply good_distance. intros n.
    assert (safe n n "->") by by apply (safe_minus _ _ n ">" "").
    in_parts [Lit "<"; Sub "->" n n]. }
  case_decide; [apply good_match|]. by intros ? ? ? ? ? ? ? ?.
Qed.

(** The arguments of a value, and the value decoded. *)
Definition argument_of (x : json) : Argument :=
  {| arg_value := x;
     arg_clause := build_value schemas x;
     arg_subquery_clause :=
       default (λ _ _ path _, Err path)
         match x with
         | JObject [(_, JObject s)] => assoc_with (build_value schemas) "condition" s
         | JObject [(_, JArray [_; _; _; c])] => Some (build_value schemas c)
         | _ => None
         end |}.

Definition arguments_of (a : json) : option (option (list Argument)) :=
  match a with
  | JNull => Some None
  | JArray l => Some (Some (map argument_of l))
  | _ => None
  end.

Definition decoded_of (v : json) : option (string * option (list Argument)) :=
  match v with
  | JObject m =>
      op ← assoc_get "op" m ≫= as_str;
      args ← default (Some None) (assoc_with arguments_of "arguments" m);
      Some (op, args)
  | JArray [op; args] => op ← as_str op; args ← arguments_of args; Some (op, args)
  | _ => None
  end.

Lemma build_value_unfold v lo schema path allow :
  build_value schemas v lo schema path allow =
  match decoded_of v with
  | Some (op, args) => build_operation schemas op args lo schema path allow
  | None =>
      Err (path +:+ ": expected condition object with op and optional arguments; "
           +:+ condition_error v)
  end.
Proof. by destruct v. Qed.

(** An argument is good when the values inside it are. *)
Lemma good_argument_of x :
  (∀ u, u = x ∨ tc json_child u x → good_build (build_value schemas u)) →
  good_argument (argument_of x).
Proof.
  intros Hx. split; [by apply Hx; left|]. cbn [argument_of arg_subquery_clause].
  assert (Hnone : good_build (λ _ _ path _, Err path)) by by intros ? ? ? ? ? ? ? ?.
  assert (Hin : ∀ k u, json_child k u → json_child u x → good_build (build_value schemas k))
    by (intros k u Hk Hu; apply Hx; right; by eapply tc_l, tc_once).
  destruct x as [| | | | |[|[k [| | | |l|m]] []]]; try done.
  - destruct l as [|? [|? [|? [|c []]]]]; try done. eapply Hin; [|exists k; by left].
    simpl. set_solver.
  - by repeat case_match.
  - rewrite assoc_with_get. destruct (assoc_get "condition" m) as [c|] eqn:Hc; [|done].
    eapply Hin; [by eapply assoc_get_child|]. exists k. by left.
Qed.

Lemma good_arguments_of v a args :
  (∀ u, tc json_child u v → good_build (build_value schemas u)) → json_child a v →
  arguments_of a = Some args → Forall good_argument (default [] args).
Proof.
  intros IH Ha. destruct a as [| | | |l|]; try done; intros [= <-]; [by constructor|]. simpl.
  apply Forall_map, Forall_forall. intros x Hx. apply good_argument_of. intros u Hu. apply IH.
  assert (tc json_child x v) by (eapply tc_l, tc_once, Ha; done).
  destruct Hu as [->|Hu]; [done|]. by eapply tc_transitive.
Qed.

(** The clause of a value, by induction on the values inside it. *)
Lemma good_value v : good_build (build_value schemas v).
Proof.
  induction v as [v IH] using json_deep_ind. intros lo schema path allow clause params hi.
  rewrite build_value_unfold. destruct (decoded_of v) as [[op args]|] eqn:Hd; [|done].
  apply good_operation. destruct v as [| | | |[|o [|a []]]|m]; try done; simpl in Hd.
  - destruct (as_str o); [|done]. simpl in Hd.
    destruct (arguments_of a) as [args'|] eqn:Ha; [|done]. injection Hd as <- <-.
    eapply good_arguments_of; [exact IH| |exact Ha]. simpl. set_solver.
  - rewrite assoc_with_get in Hd. destruct (assoc_get "op" m ≫= as_str); [|done]. simpl in Hd.
    destruct (assoc_get "arguments" m) as [a|] eqn:Ha; simpl in Hd;
      [|injection Hd as <- <-; by constructor].
    destruct (arguments_of a) as [args'|] eqn:Hargs; [|done]. injection Hd as <- <-.
    eapply good_arguments_of; [exact IH| |exact Hargs]. by eapply assoc_get_child.
Qed.
End builders.

(** ** What the database reads *)

Lemma lexes_all s ts : lexes s ts → sql_tokens s = Some ts.
Proof.
  intros Hs. specialize (Hs "" eq_refl). rewrite append_empty in Hs. unfold sql_tokens. rewrite Hs.
  simpl. by rewrite app_nil_r.
Qed.

(** Whatever the name, a quoted identifier is read as the one identifier of that name. *)
Lemma quoted_identifier_read name : sql_tokens (quote_identifier name) = Some [TIdent name].
Proof. apply lexes_all, lexes_quoted. Qed.

(** The schemas a query reads. *)
Definition reads (schema : ObjectSchema) (schemas : gmap string ObjectSchema) (s : ObjectSchema) : Prop :=
  s = schema ∨ ∃ k, schemas !! k = Some s.

(** Whatever JSON a condition carries, the clause the object store builds for it is read
    by the database as one balanced expression without comments or statement separators:
    every quoted identifier is a checked field name or the table of a resolved subquery,
    every text constant is empty or the text search language of a schema the query reads,
    and the placeholders are exactly the numbers from the offset on, one for each value
    that is bound, so that nothing else of the condition reaches the text of the query. *)
Lemma condition_clause_safe `{UnicodeData, SqlTexts, JsonDisplay}
  (condition : Condition) (offset : Z) (schema : ObjectSchema) (schemas : gmap string ObjectSchema)
  (clause : string) (params : list json) (next : Z)
  (unquoted : ∀ c, is_alphanumeric c = true → lacks dq c = true)
  (accepted : build_condition_clause_with_subqueries condition offset schema schemas
              = Ok (clause, params, next))
  (numbers : 0 ≤ offset ∧ next ≤ i32_max + 1) :
  next = offset + Z.of_nat (length params) ∧
  ∃ tokens, sql_tokens clause = Some tokens ∧ paren_depth 0 tokens = Some 0%nat ∧
    (∀ x, TIdent x ∈ tokens →
       (∃ raw, raw ≠ "" ∧ field_chars raw = true ∧ x = field_to_sql raw) ∨
       (∃ k s, schemas !! k = Some s ∧ x = table_name s)) ∧
    (∀ x, TText x ∈ tokens →
       x = "" ∨ ∃ s field, reads schema schemas s ∧ x = resolve_tsvector_language field s) ∧
    (∀ n, TParam n ∈ tokens ↔ offset ≤ n < next).
Proof.
  destruct numbers as [Hlo Hhi]. unfold build_condition_clause_with_subqueries in accepted.
  apply (good_value (Some schemas) (reads schema schemas)) in accepted as [-> Hsafe]; [|done|].
  2: { intros m k s [= <-] Hs. right. eauto. }
  split; [done|]. destruct (Hsafe (or_introl eq_refl) Hlo Hhi) as (ts & Hts & Hd & Ht & Hn).
  exists ts. split; [by apply lexes_all|]. split; [done|]. split; [|split].
  - intros x [Hx|(m & k & s & [= <-] & Hk & ->)]%Ht; [by left|right; eauto].
  - by intros x Hx%Ht.
  - intros n. split; [apply Ht|apply Hn].
Qed.

(** ** A concrete query *)

Fixpoint ascii_uppercase (s : string) : string :=
  match s with
  | EmptyString => EmptyString
  | String c r => String (if is_ascii_lowercase c then chr (Ascii.N_of_ascii c - 32) else c) (ascii_uppercase r)
  end.

Definition ascii_sql : SqlTexts :=
  {| to_uppercase := ascii_uppercase; condition_error := λ _, ""; subquery_error := λ _, "";
     display_f64 := λ _, ""; debug_column_type := λ _, "" |}.
#[local] Existing Instances ascii_data ascii_sql plain_display.

Definition text_column (name : string) : ColumnDefinition :=
  {| col_name := name; column_type := CtString; col_nullable := true; col_unique := false;
     default_value := None; text_index := TiNone |}.

Definition orders_schema : ObjectSchema :=
  {| os_id := "1"; os_name := "orders"; table_name := "orders"; columns := [text_column "sku"];
     indexes := None |}.
Definition products_schema : ObjectSchema :=
  {| os_id := "2"; os_name := "products"; table_name := "my_products"; columns := [text_column "code"];
     indexes := None |}.

(** [sku = 'x'' OR 1=1 --' OR sku IN (SELECT code FROM products WHERE code LIKE '%a%')] *)
Definition hostile_condition : Condition :=
  {| cond_op := "or";
     cond_arguments := Some
       [JObject [("op", JString "EQ");
                 ("arguments", JArray [JString "sku"; JString "x' OR 1=1 --"])];
        JObject [("op", JString "IN");
                 ("arguments", JArray [JString "sku";
                    JObject [("subquery", JObject
                      [("schema", JString "products"); ("select", JString "code");
                       ("condition", JObject [("op", JString "CONTAINS");
                          ("arguments", JArray [JString "code"; JString "a"])])])]])]] |}.

Lemma ascii_unquoted c : @is_alphanumeric ascii_data c = true → lacks dq c = true.
Proof.
  simpl. induction c as [|a c IH]; [done|]. cbn [all_chars lacks]. intros [Ha Hc]%andb_prop.
  rewrite IH by done. destruct (Ascii.eqb_spec dq a) as [<-|Hn]; [done|].
  by destruct (Ascii.eqb_spec a dq).
Qed.

(** The values are bound; the text has the two placeholders and nothing of the values. *)
Lemma condition_clause_safe_witness :
  ∃ clause params next,
    build_condition_clause_with_subqueries hostile_condition 1 orders_schema
      {["products" := products_schema]} = Ok (clause, params, next) ∧
    params = [JString "x' OR 1=1 --"; JString "%a%"] ∧
    ∃ tokens, sql_tokens clause = Some tokens ∧ (∀ n, TParam n ∈ tokens ↔ 1 ≤ n < next).
Proof.
  eexists _, _, _. split; [vm_compute; reflexivity|]. split; [reflexivity|].
  edestruct (condition_clause_safe hostile_condition 1 orders_schema
    {["products" := products_schema]}) as [_ (tokens & Hts & _ & _ & _ & Hn)].
  - exact ascii_unquoted.
  - vm_compute. reflexivity.
  - split; vm_compute; discriminate.
  - exists tokens. split; [exact Hts|exact Hn].
Defined.

(** ** Sort keys *)

Lemma order_parts_safe `{SqlTexts} (names : string → Prop) schema orders i fields parts :
  Forall (λ f, names (field_to_sql f)) fields → order_parts schema orders i fields = Ok parts →
  length parts = length fields ∧ (fields ≠ [] → safe names (λ _, False) 0 0 (join ", " parts)).
Proof.
  intros Hn. revert i parts. induction Hn as [|f fields Hf Hn IH]; intros i parts Hr.
  { by injection Hr as <-. }
  cbn [order_parts] in Hr. destruct (_ && _); [done|].
  set (order := default "ASC" _) in Hr.
  destruct (bool_decide (order ≠ "ASC") && _) eqn:Ho; [done|].
  assert (Hq : all_chars quiet_char order = true).
  { apply andb_false_iff in Ho as [Ho|Ho]; apply bool_decide_eq_false, dec_stable in Ho; by rewrite Ho. }
  apply bind_ok in Hr as (more & [Hlen Hmore]%IH & [= <-]). split; [simpl; by rewrite Hlen|]. intros _.
  clearbody order. destruct fields as [|f' fields], more as [|m more]; try done.
  - in_parts [Sub (quote_identifier (field_to_sql f)) 0 0; Lit " "; Sub order 0 0].
  - change (join ", " (?x :: m :: more)) with (x +:+ ", " +:+ join ", " (m :: more)).
    assert (safe names (λ _, False) 0 0 (join ", " (m :: more))) by by apply Hmore.
    in_parts [Sub (quote_identifier (field_to_sql f)) 0 0; Lit " "; Sub order 0 0; Lit ", ";
              Sub (join ", " (m :: more)) 0 0].
Qed.

(** The ORDER BY clause is read as sort fields of the request and directions. *)
Lemma order_by_read `{SqlTexts} sort_by sort_order schema clause :
  build_order_by_clause sort_by sort_order schema = Ok clause →
  ∃ tokens, sql_tokens clause = Some tokens ∧
    ∀ t, t ∈ tokens →
      match t with
      | TIdent x => ∃ f, f ∈ default [] sort_by ∧ x = field_to_sql f
      | TSym _ => True
      | TText _ | TParam _ => False
      end.
Proof.
  unfold build_order_by_clause. intros Hr. destruct sort_by as [[|f fields]|].
  - injection Hr as <-. eexists. split; [vm_compute; reflexivity|]. apply Forall_forall.
    repeat constructor.
  - apply bind_ok in Hr as (parts & Hp & [= <-]).
    apply (order_parts_safe (λ x, ∃ g, g ∈ f :: fields ∧ x = field_to_sql g)) in Hp as [_ Hp];
      [|apply Forall_forall; eauto].
    destruct Hp as (ts & Hts & _ & Ht & _); [done|]. exists ts. split; [by apply lexes_all|].
    intros t Hin%Ht. destruct t; simpl in *; try done. lia.
  - injection Hr as <-. eexists. split; [vm_compute; reflexivity|]. apply Forall_forall.
    repeat constructor.
Qed.
