(* ===== verification/ObjectExpr.v ===== *)
(** * runtara-object-store: computed expressions and aggregate queries

    [sql/expr.rs]: the expressions of EXPR aggregates and of row scores, with the check
    of their kinds and their SQL; [sql/aggregate.rs]: the check of an aggregate request
    and the two queries made from it.

    An index out of bounds, [unwrap], [expect] and [unreachable!] are the outcome
    [Panicked]; errors are [Refused].  serde's decoding of an expression and of the sort
    expression that travels in the text of a column are parameters. *)

From S2P Require Import Prelude.
From S2P Require Import Text.
From S2P Require Import Json.
From S2P Require Import Float64.
From S2P Require Import GuestPaths.
From S2P Require Import ValidationBase.
From S2P Require Import ObjectSql.

Inductive failure :=
| Refused (message : string)
| Panicked.

Abbreviation built A := (result failure A).

Definition refused {A} (message : string) : built A := Err (Refused message).

(** [.map_err(f)] of a refusal *)
Definition refusal {A} (f : string → string) (r : built A) : built A :=
  match r with Err (Refused e) => refused (f e) | r => r end.

Definition or_refuse {A} (r : result string A) : built A :=
  match r with Ok a => Ok a | Err e => refused e end.

(** [v[i]], [v.unwrap()] *)
Definition expect {A} (o : option A) : built A :=
  match o with Some a => Ok a | None => Err Panicked end.

(** [.collect::<Result<Vec<_>, _>>()] *)
Fixpoint collect {A} (l : list (built A)) : built (list A) :=
  match l with
  | [] => Ok []
  | r :: l => a ← r; rest ← collect l; Ok (a :: rest)
  end.

(** ** expr.rs: types *)

Definition EXPR_MAX_DEPTH : Z := 8.

Inductive ExprOp :=
| OpAdd | OpSub | OpMul | OpDiv | OpNeg | OpAbs | OpCoalesce
| OpEq | OpNe | OpGt | OpGte | OpLt | OpLte
| OpAnd | OpOr | OpNot | OpIsDefined | OpIsEmpty | OpIsNotEmpty.

Definition expr_op_name (op : ExprOp) : string :=
  match op with
  | OpAdd => "ADD" | OpSub => "SUB" | OpMul => "MUL" | OpDiv => "DIV" | OpNeg => "NEG"
  | OpAbs => "ABS" | OpCoalesce => "COALESCE" | OpEq => "EQ" | OpNe => "NE" | OpGt => "GT"
  | OpGte => "GTE" | OpLt => "LT" | OpLte => "LTE" | OpAnd => "AND" | OpOr => "OR"
  | OpNot => "NOT" | OpIsDefined => "IS_DEFINED" | OpIsEmpty => "IS_EMPTY"
  | OpIsNotEmpty => "IS_NOT_EMPTY"
  end.

Inductive ExprFn :=
| Similarity | Greatest | Least | TsRank | CosineDistance | L2Distance | InnerProduct
| Levenshtein.

Definition expr_fn_name (f : ExprFn) : string :=
  match f with
  | Similarity => "SIMILARITY" | Greatest => "GREATEST" | Least => "LEAST"
  | TsRank => "TS_RANK" | CosineDistance => "COSINE_DISTANCE" | L2Distance => "L2_DISTANCE"
  | InnerProduct => "INNER_PRODUCT" | Levenshtein => "LEVENSHTEIN"
  end.

(** The operator of a distance function; the others have none. *)
Definition distance_op (f : ExprFn) : option string :=
  match f with
  | CosineDistance => Some "<=>"
  | L2Distance => Some "<->"
  | InnerProduct => Some "<#>"
  | _ => None
  end.

Inductive ExprValue :=
| Alias (value : string)
| Immediate (value : json)
| Reference (value : string).

Inductive ExprNode :=
| Operation (op : ExprOp) (arguments : list ExprNode)
| Fn (fn_ : ExprFn) (arguments : list ExprNode)
| Value (v : ExprValue).

Inductive AliasKind := KNumeric | KText | KBool | KTimestamp | KJson | KNullable.

#[export] Instance alias_kind_eq_dec : EqDecision AliasKind.
Proof. solve_decision. Defined.

(** [{:?}] *)
Definition debug_kind (k : AliasKind) : string :=
  match k with
  | KNumeric => "Numeric" | KText => "Text" | KBool => "Bool" | KTimestamp => "Timestamp"
  | KJson => "Json" | KNullable => "Nullable"
  end.

Definition column_kind (sql_field : string) (schema : ObjectSchema) : AliasKind :=
  if decide (sql_field = "id") then KText
  else if decide (sql_field = "created_at" ∨ sql_field = "updated_at") then KTimestamp
  else
    match find_column schema sql_field with
    | Some col =>
        match column_type col with
        | CtString | CtEnum _ => KText
        | CtInteger | CtDecimal _ _ => KNumeric
        | CtBoolean => KBool
        | CtTimestamp => KTimestamp
        | CtJson | CtTsvector _ _ | CtVector _ _ => KJson
        end
    | None => KText
    end.

Definition is_tsvector_column (name : string) (schema : ObjectSchema) : bool :=
  match find_column schema name with
  | Some {| column_type := CtTsvector _ _ |} => true
  | _ => false
  end.

Definition vector_column_dimension (name : string) (schema : ObjectSchema) : option Z :=
  match find_column schema name with
  | Some {| column_type := CtVector dimension _ |} => Some dimension
  | _ => None
  end.

(** ** expr.rs: kinds *)

Definition too_deep {A} : built A :=
  refused ("expression tree exceeds max depth (" +:+ show_Z EXPR_MAX_DEPTH +:+ ")").

Definition composite_literal (where_ : string) : string :=
  "composite literals (arrays / objects) are not allowed in " +:+ where_.

Definition literal_kind (v : json) : built AliasKind :=
  match v with
  | JNull => Ok KNullable
  | JBool _ => Ok KBool
  | JNumber _ => Ok KNumeric
  | JString _ => Ok KText
  | JArray _ | JObject _ => refused (composite_literal "EXPR immediates")
  end.

Definition check_arity (op : ExprOp) (n : nat) : built unit :=
  let ok :=
    match op with
    | OpSub | OpDiv => (n =? 2)%nat
    | OpNeg | OpAbs | OpNot | OpIsDefined | OpIsEmpty | OpIsNotEmpty => (n =? 1)%nat
    | OpAdd | OpMul | OpCoalesce | OpAnd | OpOr => (1 <=? n)%nat
    | OpEq | OpNe | OpGt | OpGte | OpLt | OpLte => (n =? 2)%nat
    end in
  if negb ok then
    refused (expr_op_name op +:+ ": wrong number of arguments (" +:+ show_Z (Z.of_nat n) +:+ ")")
  else Ok tt.

(** The loop that refuses the first argument, from index [i], of another kind than [allowed]. *)
Fixpoint check_kinds (name : string) (allowed : AliasKind) (word : string) (i : nat)
  (kinds : list AliasKind) : built unit :=
  match kinds with
  | [] => Ok tt
  | k :: kinds =>
      if bool_decide (k = allowed ∨ k = KNullable) then check_kinds name allowed word (S i) kinds
      else
        refused (name +:+ ": argument " +:+ show_Z (Z.of_nat i) +:+ " must be " +:+ word
                 +:+ ", got " +:+ debug_kind k)
  end.

Fixpoint coalesce_loop (op : ExprOp) (i : nat) (found : option AliasKind) (kinds : list AliasKind) :
  built AliasKind :=
  match kinds with
  | [] => Ok (default KNullable found)
  | k :: kinds =>
      if decide (k = KNullable) then coalesce_loop op (S i) found kinds
      else
        match found with
        | None => coalesce_loop op (S i) (Some k) kinds
        | Some existing =>
            if decide (existing = k) then coalesce_loop op (S i) found kinds
            else
              refused (expr_op_name op +:+ ": arguments must share a kind, got "
                       +:+ debug_kind existing +:+ " at position 0 and " +:+ debug_kind k
                       +:+ " at position " +:+ show_Z (Z.of_nat i))
        end
  end.

Definition coalesce_kind (op : ExprOp) (kinds : list AliasKind) : built AliasKind :=
  coalesce_loop op 0 None kinds.

Definition check_comparable (op : ExprOp) (a b : AliasKind) : built unit :=
  if decide (a = KNullable ∨ b = KNullable) then Ok tt
  else if decide (a = KJson ∨ b = KJson) then
    refused (expr_op_name op +:+ ": JSON values cannot be compared with " +:+ expr_op_name op)
  else if decide (a ≠ b) then
    refused (expr_op_name op +:+ ": cannot compare " +:+ debug_kind a +:+ " with " +:+ debug_kind b)
  else Ok tt.

(** [row_op_result_kind], and the end of [validate_operation], which is the same. *)
Definition op_result_kind (op : ExprOp) (kinds : list AliasKind) : built AliasKind :=
  match op with
  | OpAdd | OpSub | OpMul | OpDiv | OpNeg | OpAbs =>
      _ ← check_kinds (expr_op_name op) KNumeric "numeric" 0 kinds;
      Ok KNumeric
  | OpCoalesce => coalesce_kind op kinds
  | OpEq | OpNe | OpGt | OpGte | OpLt | OpLte =>
      a ← expect (kinds !! 0%nat);
      b ← expect (kinds !! 1%nat);
      _ ← check_comparable op a b;
      Ok KBool
  | OpAnd | OpOr =>
      _ ← check_kinds (expr_op_name op) KBool "boolean" 0 kinds;
      Ok KBool
  | OpNot =>
      k ← expect (kinds !! 0%nat);
      if bool_decide (k = KBool ∨ k = KNullable) then Ok KBool
      else refused ("NOT: argument must be boolean, got " +:+ debug_kind k)
  | OpIsDefined | OpIsEmpty | OpIsNotEmpty => Ok KBool
  end.

(** [prior.iter().find(|(name, _)| name == value)] *)
Definition find_alias (prior : list (string * AliasKind)) (value : string) : option AliasKind :=
  list_find (λ p, p.1 = value) prior ≫= λ ip, Some ip.2.2.

Fixpoint validate_expression (node : ExprNode) (prior : list (string * AliasKind)) (depth : Z) :
  built AliasKind :=
  if EXPR_MAX_DEPTH <? depth then too_deep
  else
    match node with
    | Value (Reference value) =>
        refused ("field reference '" +:+ value +:+ "' is not allowed inside EXPR — row-level "
                 +:+ "values do not exist after aggregation; declare an aggregate "
                 +:+ "alias and reference it instead")
    | Value (Alias value) =>
        match find_alias prior value with
        | Some k => Ok k
        | None =>
            refused ("alias '" +:+ value +:+ "' is not declared before its use (aliases must "
                     +:+ "be listed earlier in the aggregates array)")
        end
    | Value (Immediate value) => literal_kind value
    | Operation op arguments =>
        _ ← check_arity op (length arguments);
        kinds ← collect (map (λ a, validate_expression a prior (depth + 1)) arguments);
        op_result_kind op kinds
    | Fn fn_ _ =>
        refused ("function call '" +:+ expr_fn_name fn_ +:+ "' is not allowed inside EXPR — only "
                 +:+ "arithmetic / comparison / boolean operators")
    end.

(** ** expr.rs: SQL *)

Abbreviation AliasSqlMap := (gmap string (string * AliasKind)).

Definition as_numeric (c : string) : string := "(" +:+ c +:+ ")::numeric".

Definition binary_sql (operator : string) (children : list string) : built string :=
  a ← expect (children !! 0%nat);
  b ← expect (children !! 1%nat);
  Ok ("((" +:+ a +:+ ") " +:+ operator +:+ " (" +:+ b +:+ "))").

Definition suffix_sql (suffix : string) (children : list string) : built string :=
  a ← expect (children !! 0%nat);
  Ok ("((" +:+ a +:+ ") " +:+ suffix +:+ ")").

Definition render_op (op : ExprOp) (children : list string) : built string :=
  let nc := map as_numeric children in
  match op with
  | OpAdd => Ok ("(" +:+ join " + " nc +:+ ")")
  | OpSub =>
      a ← expect (nc !! 0%nat);
      b ← expect (nc !! 1%nat);
      Ok ("(" +:+ a +:+ " - " +:+ b +:+ ")")
  | OpMul => Ok ("(" +:+ join " * " nc +:+ ")")
  | OpDiv =>
      a ← expect (nc !! 0%nat);
      b ← expect (nc !! 1%nat);
      Ok ("(" +:+ a +:+ " / NULLIF(" +:+ b +:+ ", 0))")
  | OpNeg =>
      a ← expect (nc !! 0%nat);
      Ok ("(-" +:+ a +:+ ")")
  | OpAbs =>
      a ← expect (nc !! 0%nat);
      Ok ("ABS(" +:+ a +:+ ")")
  | OpCoalesce => Ok ("COALESCE(" +:+ join ", " children +:+ ")")
  | OpEq => binary_sql "=" children
  | OpNe => binary_sql "<>" children
  | OpGt => binary_sql ">" children
  | OpGte => binary_sql ">=" children
  | OpLt => binary_sql "<" children
  | OpLte => binary_sql "<=" children
  | OpAnd => Ok ("(" +:+ join " AND " children +:+ ")")
  | OpOr => Ok ("(" +:+ join " OR " children +:+ ")")
  | OpNot =>
      a ← expect (children !! 0%nat);
      Ok ("(NOT (" +:+ a +:+ "))")
  | OpIsDefined | OpIsNotEmpty => suffix_sql "IS NOT NULL" children
  | OpIsEmpty => suffix_sql "IS NULL" children
  end.

(** A text constant. *)
Definition quote_text (s : string) : string :=
  "'" +:+ replace quote_char (quote_char +:+ quote_char) s +:+ "'".

Section expr.
Context `{SqlTexts, JsonDisplay}.

Definition render_literal (v : json) : built string :=
  match v with
  | JNull => Ok "NULL"
  | JBool true => Ok "TRUE"
  | JBool false => Ok "FALSE"
  | JNumber n => Ok (json_display (JNumber n))
  | JString s => Ok (quote_text s)
  | JArray _ | JObject _ => refused (composite_literal "EXPR immediates")
  end.

Fixpoint render_expression (node : ExprNode) (alias_sql : AliasSqlMap) (depth : Z) : built string :=
  if EXPR_MAX_DEPTH <? depth then too_deep
  else
    match node with
    | Value (Reference _) | Fn _ _ => Err Panicked
    | Value (Alias value) =>
        match alias_sql !! value with
        | Some (sql, _) => Ok ("(" +:+ sql +:+ ")")
        | None => refused ("alias '" +:+ value +:+ "' has no compiled SQL")
        end
    | Value (Immediate value) => render_literal value
    | Operation op arguments =>
        children ← collect (map (λ a, render_expression a alias_sql (depth + 1)) arguments);
        render_op op children
    end.

(** ** expr.rs: row expressions *)

Definition two_expected {A} (fn_ : ExprFn) (n : nat) : built A :=
  refused (expr_fn_name fn_ +:+ ": expected 2 arguments, got " +:+ show_Z (Z.of_nat n)).

(** The elements of a vector literal, from index [i]. *)
Fixpoint check_vector (fn_ : ExprFn) (i : nat) (l : list json) : built unit :=
  match l with
  | [] => Ok tt
  | v :: l =>
      let at_ := ": vector element at index " +:+ show_Z (Z.of_nat i) in
      match as_f64 v with
      | None => refused (expr_fn_name fn_ +:+ at_ +:+ " is not a number")
      | Some f =>
          if negb (f64_is_finite f) then
            refused (expr_fn_name fn_ +:+ at_ +:+ " is not finite (" +:+ display_f64 f +:+ ")")
          else check_vector fn_ (S i) l
      end
  end.

(** The column a function needs as its first argument. *)
Definition column_argument (fn_ : ExprFn) (word : string) (arguments : list ExprNode) :
  built string :=
  match arguments with
  | Value (Reference value) :: _ => Ok value
  | _ => refused (expr_fn_name fn_ +:+ ": first argument must reference a " +:+ word +:+ " column")
  end.

(** [validate_fn_call] for [TS_RANK]; [query] is the kind of the second argument. *)
Definition validate_ts_rank (arguments : list ExprNode) (query : option (built AliasKind))
  (schema : ObjectSchema) : built AliasKind :=
  if negb (length arguments =? 2)%nat then two_expected TsRank (length arguments)
  else
    col_name ← column_argument TsRank "tsvector" arguments;
    if negb (is_tsvector_column col_name schema) then
      refused (expr_fn_name TsRank +:+ ": column '" +:+ col_name
               +:+ "' is not declared as a tsvector")
    else
      q ← expect query;
      q_kind ← q;
      if bool_decide (q_kind = KText ∨ q_kind = KNullable) then Ok KNumeric
      else
        refused (expr_fn_name TsRank +:+ ": query argument must be text, got "
                 +:+ debug_kind q_kind).

(** [validate_fn_call] for the distances. *)
Definition validate_distance (fn_ : ExprFn) (arguments : list ExprNode) (schema : ObjectSchema) :
  built AliasKind :=
  let name := expr_fn_name fn_ in
  if negb (length arguments =? 2)%nat then two_expected fn_ (length arguments)
  else
    col_name ← column_argument fn_ "vector" arguments;
    match vector_column_dimension col_name schema with
    | None => refused (name +:+ ": column '" +:+ col_name +:+ "' is not declared as a vector")
    | Some col_dim =>
        second ← expect (arguments !! 1%nat);
        _ ← match second with
            | Value (Immediate value) =>
                match as_array value with
                | None => refused (name +:+ ": second argument must be a JSON array of numbers")
                | Some arr =>
                    let len := Z.of_nat (length arr) in
                    if negb (len mod 2 ^ 32 =? col_dim) then
                      refused (name +:+ ": vector literal dimension " +:+ show_Z len
                               +:+ " does not match column '" +:+ col_name +:+ "' dimension "
                               +:+ show_Z col_dim)
                    else check_vector fn_ 0 arr
                end
            | Value (Reference value) =>
                match vector_column_dimension value schema with
                | None =>
                    refused (name +:+ ": second argument column '" +:+ value
                             +:+ "' is not declared as a vector")
                | Some other_dim =>
                    if negb (other_dim =? col_dim) then
                      refused (name +:+ ": column '" +:+ value +:+ "' dimension "
                               +:+ show_Z other_dim +:+ " does not match column '" +:+ col_name
                               +:+ "' dimension " +:+ show_Z col_dim)
                    else Ok tt
                end
            | _ =>
                refused (name +:+ ": second argument must be an immediate vector literal or a "
                         +:+ "vector column reference")
            end;
        Ok KNumeric
    end.

(** [validate_fn_call] for the functions of plain values. *)
Definition fn_result_kind (fn_ : ExprFn) (kinds : list AliasKind) : built AliasKind :=
  match fn_ with
  | Similarity | Levenshtein =>
      if negb (length kinds =? 2)%nat then two_expected fn_ (length kinds)
      else
        _ ← check_kinds (expr_fn_name fn_) KText "text" 0 kinds;
        Ok KNumeric
  | Greatest | Least =>
      if (length kinds =? 0)%nat then
        refused (expr_fn_name fn_ +:+ ": requires at least 1 argument")
      else
        _ ← check_kinds (expr_fn_name fn_) KNumeric "numeric" 0 kinds;
        Ok KNumeric
  | TsRank | CosineDistance | L2Distance | InnerProduct => Err Panicked
  end.

Fixpoint validate_row_expression (node : ExprNode) (schema : ObjectSchema) (depth : Z) :
  built AliasKind :=
  if EXPR_MAX_DEPTH <? depth then too_deep
  else
    match node with
    | Value (Alias value) =>
        refused ("alias reference '" +:+ value +:+ "' is not allowed inside a row-level "
                 +:+ "score expression; reference a column instead")
    | Value (Reference value) =>
        if negb (schema_has_field schema value) then
          refused ("column '" +:+ value +:+ "' is not declared on schema '" +:+ os_name schema
                   +:+ "'")
        else Ok (column_kind value schema)
    | Value (Immediate value) => literal_kind value
    | Operation op arguments =>
        _ ← check_arity op (length arguments);
        kinds ← collect (map (λ a, validate_row_expression a schema (depth + 1)) arguments);
        op_result_kind op kinds
    | Fn TsRank arguments =>
        validate_ts_rank arguments
          (map (λ a, validate_row_expression a schema (depth + 1)) arguments !! 1%nat) schema
    | Fn fn_ arguments =>
        match distance_op fn_ with
        | Some _ => validate_distance fn_ arguments schema
        | None =>
            kinds ← collect (map (λ a, validate_row_expression a schema (depth + 1)) arguments);
            fn_result_kind fn_ kinds
        end
    end.

Definition format_pg_float (f : f64) : string :=
  if f64_is_finite f then json_display (JNumber (Float f)) else display_f64 f.

(** What a rendering with parameters returns: the text, the new parameters and the next
    number. *)
Definition rendering : Type := Z → built (string * list json * Z).

Definition render_row_immediate (value : json) : rendering :=
  λ offset,
  match value with
  | JString _ => Ok (placeholder offset +:+ "::text", [value], offset + 1)
  | JNull => Ok ("NULL", [], offset)
  | JBool true => Ok ("TRUE", [], offset)
  | JBool false => Ok ("FALSE", [], offset)
  | JNumber n => Ok (json_display (JNumber n), [], offset)
  | JArray _ | JObject _ => refused (composite_literal "score expressions")
  end.

Definition render_fn (f : ExprFn) (children : list string) : built string :=
  match f with
  | Similarity =>
      a ← expect (children !! 0%nat);
      b ← expect (children !! 1%nat);
      Ok ("similarity((" +:+ a +:+ ")::text, (" +:+ b +:+ ")::text)")
  | Greatest => Ok ("GREATEST(" +:+ join ", " children +:+ ")")
  | Least => Ok ("LEAST(" +:+ join ", " children +:+ ")")
  | _ => Err Panicked
  end.

(** The renderings one after the other. *)
Fixpoint render_each (l : list rendering) (offset : Z) : built (list string * list json * Z) :=
  match l with
  | [] => Ok ([], [], offset)
  | r :: l =>
      '(sql, params, offset) ← r offset;
      '(rest, more, offset) ← render_each l offset;
      Ok (sql :: rest, params ++ more, offset)
  end.

(** A text made of rendered arguments. *)
Definition with_children (l : list rendering) (f : list string → built string) : rendering :=
  λ offset,
  '(children, params, offset) ← render_each l offset;
  sql ← f children;
  Ok (sql, params, offset).

Definition render_ts_rank (arguments : list ExprNode) (query : option rendering)
  (schema : ObjectSchema) : rendering :=
  λ offset,
  match arguments !! 0%nat with
  | Some (Value (Reference col_name)) =>
      q ← expect query;
      '(query_sql, params, offset) ← q offset;
      Ok ("ts_rank(" +:+ column col_name +:+ ", plainto_tsquery("
          +:+ quote_text (resolve_tsvector_language col_name schema) +:+ ", " +:+ query_sql
          +:+ "))", params, offset)
  | _ => Err Panicked
  end.

Definition render_distance (op : string) (arguments : list ExprNode) : rendering :=
  λ offset,
  match arguments !! 0%nat with
  | Some (Value (Reference col_name)) =>
      '(rhs_sql, params, offset) ←
        match arguments !! 1%nat with
        | Some (Value (Immediate value)) =>
            arr ← expect (as_array value);
            floats ← collect (map (λ v, expect (as_f64 v)) arr);
            Ok (placeholder offset +:+ "::vector",
                [JString ("[" +:+ join "," (format_pg_float <$> floats) +:+ "]")], offset + 1)
        | Some (Value (Reference value)) => Ok (column value, [], offset)
        | _ => Err Panicked
        end;
      Ok ("(" +:+ column col_name +:+ " " +:+ op +:+ " " +:+ rhs_sql +:+ ")", params, offset)
  | _ => Err Panicked
  end.

Definition levenshtein_sql (children : list string) : built string :=
  a ← expect (children !! 0%nat);
  b ← expect (children !! 1%nat);
  Ok ("levenshtein((" +:+ a +:+ ")::text, (" +:+ b +:+ ")::text)::real").

Fixpoint render_row_expression (node : ExprNode) (schema : ObjectSchema) (depth : Z) : rendering :=
  λ offset,
  if EXPR_MAX_DEPTH <? depth then too_deep
  else
    match node with
    | Value (Alias _) => Err Panicked
    | Value (Reference value) => Ok (column value, [], offset)
    | Value (Immediate value) => render_row_immediate value offset
    | Operation op arguments =>
        with_children (map (λ a, render_row_expression a schema (depth + 1)) arguments)
          (render_op op) offset
    | Fn TsRank arguments =>
        render_ts_rank arguments
          (map (λ a, render_row_expression a schema (depth + 1)) arguments !! 1%nat) schema offset
    | Fn Levenshtein arguments =>
        with_children (map (λ a, render_row_expression a schema (depth + 1)) arguments)
          levenshtein_sql offset
    | Fn fn_ arguments =>
        match distance_op fn_ with
        | Some op => render_distance op arguments offset
        | None =>
            with_children (map (λ a, render_row_expression a schema (depth + 1)) arguments)
              (render_fn fn_) offset
        end
    end.
End expr.

(** ** aggregate.rs: requests *)

Inductive AggregateFn :=
| AggCount | AggSum | AggAvg | AggMin | AggMax | FirstValue | LastValue | PercentileCont
| PercentileDisc | StddevSamp | VarSamp | AggExpr.

Inductive SortDirection := Asc | Desc.

Definition as_sql (d : SortDirection) : string := match d with Asc => "ASC" | Desc => "DESC" end.
Definition flipped (d : SortDirection) : SortDirection := match d with Asc => Desc | Desc => Asc end.

Record AggregateOrderBy := {
  ob_column : string;
  ob_direction : SortDirection }.

Definition ORDER_BY_EXPRESSION_PREFIX : string := "__runtara_order_expression:".

Inductive DistanceOrderFn := OrderCosine | OrderL2.

Definition distance_order_name (f : DistanceOrderFn) : string :=
  match f with OrderCosine => "COSINE_DISTANCE" | OrderL2 => "L2_DISTANCE" end.
Definition pgvector_op (f : DistanceOrderFn) : string :=
  match f with OrderCosine => "<=>" | OrderL2 => "<->" end.

Record DistanceOrderExpression := {
  do_fn : DistanceOrderFn;
  do_field : string;
  do_value : list f64 }.

Inductive TopLevelOrderByTarget :=
| TargetColumn (ident : string)
| TargetDistance (e : DistanceOrderExpression).

Record AggregateSpec := {
  agg_alias : string;
  agg_fn : AggregateFn;
  agg_column : option string;
  agg_distinct : bool;
  agg_order_by : list AggregateOrderBy;
  agg_expression : option json;
  agg_percentile : option f64 }.

Record AggregateRequest := {
  req_condition : option Condition;
  req_group_by : list string;
  req_aggregates : list AggregateSpec;
  req_order_by : list AggregateOrderBy;
  req_limit : option Z;
  req_offset : option Z }.

Record AggregateSql := {
  data_sql : string;
  count_sql : option string;
  sql_params : list json;
  sql_columns : list string }.

(** serde_json on expressions, and on the text of a sort expression. *)
Class ExprCodec := {
  decode_expr : json → result string ExprNode;
  order_expression_text : DistanceOrderExpression → result string string;
  order_expression_of_text : string → result string DistanceOrderExpression }.

Section aggregate.
Context `{UnicodeData, SqlTexts, JsonDisplay, ExprCodec}.

Definition encode_order_expression (expr : DistanceOrderExpression) : built string :=
  match order_expression_text expr with
  | Ok text => Ok (ORDER_BY_EXPRESSION_PREFIX +:+ text)
  | Err e => refused ("failed to encode order_by expression: " +:+ e)
  end.

(** [Deserialize for AggregateOrderBy], from the decoded fields. *)
Definition order_by_of_fields (column : option string) (expression : option DistanceOrderExpression)
  (direction : SortDirection) : built AggregateOrderBy :=
  match column, expression with
  | Some column, None => Ok {| ob_column := column; ob_direction := direction |}
  | None, Some expression =>
      encoded ← encode_order_expression expression;
      Ok {| ob_column := encoded; ob_direction := direction |}
  | Some _, Some _ =>
      refused "order_by entry must specify either `column` or `expression`, not both"
  | None, None => refused "order_by entry must specify either `column` or `expression`"
  end.

Definition decode_order_expression (column : string) : option (built DistanceOrderExpression) :=
  raw ← strip_prefix ORDER_BY_EXPRESSION_PREFIX column;
  Some (match order_expression_of_text raw with
        | Ok e => Ok e
        | Err e => refused ("invalid encoded order_by expression: " +:+ e)
        end).

(** ** aggregate.rs: checks *)

Definition is_ascii_alphabetic (c : Ascii.ascii) : bool :=
  is_ascii_alphanumeric c && negb (is_ascii_digit c).

Definition validate_alias (alias : string) : built unit :=
  match alias with
  | EmptyString => refused "Aggregate alias cannot be empty"
  | String first rest =>
      if negb (is_ascii_alphabetic first || Ascii.eqb first "_"%char) then
        refused ("Aggregate alias '" +:+ alias +:+ "' must start with a letter or underscore")
      else if negb (all_chars (λ c, is_ascii_alphanumeric c || Ascii.eqb c "_"%char) rest) then
        refused ("Aggregate alias '" +:+ alias
                 +:+ "' may only contain letters, digits, and underscores")
      else Ok tt
  end.

Definition validate_field_chars (field context : string) : built unit :=
  if is_empty_str field then refused (context +:+ " field name cannot be empty")
  else if negb (field_chars field) then
    refused (context +:+ " field '" +:+ field +:+ "' contains invalid characters")
  else Ok tt.

Definition type_of_column (sql_field : string) (schema : ObjectSchema) : option ColumnType :=
  column_type <$> find_column schema sql_field.

(** The elements of a sort vector, from index [i]. *)
Fixpoint check_finite (name : string) (i : nat) (l : list f64) : built unit :=
  match l with
  | [] => Ok tt
  | f :: l =>
      if negb (f64_is_finite f) then
        refused ("order_by expression " +:+ name +:+ " vector element at index "
                 +:+ show_Z (Z.of_nat i) +:+ " is not finite (" +:+ display_f64 f +:+ ")")
      else check_finite name (S i) l
  end.

Definition validate_distance_order_expression (expr : DistanceOrderExpression)
  (schema : ObjectSchema) : built unit :=
  let name := distance_order_name (do_fn expr) in
  _ ← validate_field_chars (do_field expr) "order_by expression";
  match type_of_column (field_to_sql (do_field expr)) schema with
  | Some (CtVector dim _) =>
      let len := Z.of_nat (length (do_value expr)) in
      if negb (len mod 2 ^ 32 =? dim) then
        refused ("order_by expression " +:+ name +:+ " vector dimension " +:+ show_Z len
                 +:+ " does not match field '" +:+ do_field expr +:+ "' dimension " +:+ show_Z dim)
      else check_finite name 0 (do_value expr)
  | Some other =>
      refused ("order_by expression " +:+ name +:+ " requires a vector field; '" +:+ do_field expr
               +:+ "' has type " +:+ debug_column_type other)
  | None =>
      refused ("order_by expression " +:+ name +:+ " field '" +:+ do_field expr
               +:+ "' not found in schema")
  end.

Definition render_distance_order_expression (expr : DistanceOrderExpression) : string :=
  "((array_agg(" +:+ quote_identifier (field_to_sql (do_field expr)) +:+ "))[1] "
    +:+ pgvector_op (do_fn expr) +:+ " '[" +:+ join "," (format_pg_float <$> do_value expr)
    +:+ "]'::vector)".

(** The refusals of [validate_spec] begin with the alias. *)
Definition spec_refused {A} (spec : AggregateSpec) (message : string) : built A :=
  refused ("Aggregate '" +:+ agg_alias spec +:+ "': " +:+ message).

Definition unknown_column {A} (spec : AggregateSpec) (col : string) : built A :=
  spec_refused spec ("unknown column '" +:+ col +:+ "'").

Definition no_distinct (spec : AggregateSpec) : built unit :=
  if agg_distinct spec then spec_refused spec "distinct is only valid for COUNT" else Ok tt.

Definition no_order_by (spec : AggregateSpec) (functions : string) : built unit :=
  match agg_order_by spec with
  | [] => Ok tt
  | _ => spec_refused spec ("order_by is only valid for " +:+ functions)
  end.

Definition spec_column (spec : AggregateSpec) (name : string) : built string :=
  match agg_column spec with
  | Some col => Ok col
  | None => spec_refused spec (name +:+ " requires a column")
  end.

(** The column of SUM, AVG, STDDEV_SAMP and VAR_SAMP. *)
Definition validate_numeric_spec (spec : AggregateSpec) (schema : ObjectSchema)
  (fn_name functions : string) : built AliasKind :=
  col ← spec_column spec fn_name;
  _ ← no_distinct spec;
  _ ← validate_field_chars col "aggregate column";
  _ ← match type_of_column (field_to_sql col) schema with
      | Some CtInteger | Some (CtDecimal _ _) => Ok tt
      | Some _ =>
          spec_refused spec (fn_name +:+ " requires a numeric column, '" +:+ col
                             +:+ "' is not numeric")
      | None => unknown_column spec col
      end;
  _ ← no_order_by spec functions;
  Ok KNumeric.

Definition validate_percentile_spec (spec : AggregateSpec) (schema : ObjectSchema)
  (fn_name : string) : built AliasKind :=
  match agg_column spec with
  | Some _ => spec_refused spec (fn_name +:+ " takes its value column from order_by, not `column`")
  | None =>
      _ ← no_distinct spec;
      match agg_percentile spec with
      | None => spec_refused spec (fn_name +:+ " requires `percentile` ∈ [0.0, 1.0]")
      | Some p =>
          if negb (f64_is_finite p) || negb (f64_leb f64_zero p && f64_leb p f64_one) then
            spec_refused spec (fn_name +:+ " `percentile` must be a finite number in [0.0, 1.0], got "
                               +:+ display_f64 p)
          else
            match agg_order_by spec with
            | [ob] =>
                _ ← validate_field_chars (ob_column ob) "aggregate order_by";
                match type_of_column (field_to_sql (ob_column ob)) schema with
                | Some CtInteger | Some (CtDecimal _ _) => Ok KNumeric
                | Some _ =>
                    spec_refused spec (fn_name +:+ " requires a numeric order_by column, '"
                                       +:+ ob_column ob +:+ "' is not numeric")
                | None =>
                    spec_refused spec ("order_by column '" +:+ ob_column ob
                                       +:+ "' not found in schema")
                end
            | _ =>
                spec_refused spec (fn_name +:+ " requires exactly one order_by entry (the value "
                                   +:+ "column)")
            end
      end
  end.

Fixpoint check_order_columns (spec : AggregateSpec) (schema : ObjectSchema)
  (l : list AggregateOrderBy) : built unit :=
  match l with
  | [] => Ok tt
  | ob :: l =>
      _ ← validate_field_chars (ob_column ob) "aggregate order_by";
      if negb (schema_has_field schema (field_to_sql (ob_column ob))) then
        spec_refused spec ("order_by column '" +:+ ob_column ob +:+ "' not found in schema")
      else check_order_columns spec schema l
  end.

Definition validate_count_spec (spec : AggregateSpec) (schema : ObjectSchema) : built AliasKind :=
  match agg_column spec with
  | None =>
      if agg_distinct spec then
        spec_refused spec "COUNT with distinct=true requires a column"
      else
        _ ← no_order_by spec "FIRST_VALUE/LAST_VALUE";
        Ok KNumeric
  | Some col =>
      _ ← validate_field_chars col "aggregate column";
      if negb (schema_has_field schema (field_to_sql col)) then unknown_column spec col
      else
        _ ← no_order_by spec "FIRST_VALUE/LAST_VALUE";
        Ok KNumeric
  end.

(** MIN and MAX; [debug] is [{:?}] of the function. *)
Definition validate_extreme_spec (spec : AggregateSpec) (schema : ObjectSchema) (debug : string) :
  built AliasKind :=
  col ← spec_column spec debug;
  _ ← no_distinct spec;
  _ ← validate_field_chars col "aggregate column";
  let sql := field_to_sql col in
  if negb (schema_has_field schema sql) then unknown_column spec col
  else
    match type_of_column sql schema with
    | Some CtJson => spec_refused spec "MIN/MAX cannot be applied to a JSON column"
    | _ =>
        _ ← no_order_by spec "FIRST_VALUE/LAST_VALUE";
        Ok (column_kind sql schema)
    end.

Definition validate_positional_spec (spec : AggregateSpec) (schema : ObjectSchema) :
  built AliasKind :=
  col ← spec_column spec "FIRST_VALUE/LAST_VALUE";
  _ ← no_distinct spec;
  _ ← validate_field_chars col "aggregate column";
  let sql := field_to_sql col in
  if negb (schema_has_field schema sql) then unknown_column spec col
  else
    match agg_order_by spec with
    | [] => spec_refused spec "FIRST_VALUE/LAST_VALUE requires non-empty order_by"
    | l =>
        _ ← check_order_columns spec schema l;
        Ok (column_kind sql schema)
    end.

Definition validate_expr_spec (spec : AggregateSpec) (prior : list (string * AliasKind)) :
  built (AliasKind * option ExprNode) :=
  match agg_expression spec with
  | None => spec_refused spec "EXPR requires an `expression`"
  | Some raw =>
      if bool_decide (is_Some (agg_column spec)) then
        spec_refused spec "EXPR must not specify `column`"
      else if agg_distinct spec then spec_refused spec "EXPR must not specify `distinct`"
      else
        match agg_order_by spec with
        | _ :: _ => spec_refused spec "EXPR must not specify `order_by`"
        | [] =>
            match decode_expr raw with
            | Err e => spec_refused spec ("invalid `expression` JSON: " +:+ e)
            | Ok node =>
                kind ← refusal (λ e, "Aggregate '" +:+ agg_alias spec +:+ "': " +:+ e)
                         (validate_expression node prior 0);
                Ok (kind, Some node)
            end
        end
  end.

Definition validate_spec (spec : AggregateSpec) (schema : ObjectSchema)
  (prior : list (string * AliasKind)) : built (AliasKind * option ExprNode) :=
  let plain (r : built AliasKind) : built (AliasKind * option ExprNode) := k ← r; Ok (k, None) in
  let is_expr := match agg_fn spec with AggExpr => true | _ => false end in
  let is_percentile :=
    match agg_fn spec with PercentileCont | PercentileDisc => true | _ => false end in
  if negb is_expr && bool_decide (is_Some (agg_expression spec)) then
    spec_refused spec "`expression` is only valid for EXPR"
  else if negb is_percentile && bool_decide (is_Some (agg_percentile spec)) then
    spec_refused spec "`percentile` is only valid for PERCENTILE_CONT/PERCENTILE_DISC"
  else
    match agg_fn spec with
    | AggCount => plain (validate_count_spec spec schema)
    | AggSum => plain (validate_numeric_spec spec schema "SUM" "FIRST_VALUE/LAST_VALUE")
    | AggAvg => plain (validate_numeric_spec spec schema "AVG" "FIRST_VALUE/LAST_VALUE")
    | AggMin => plain (validate_extreme_spec spec schema "Min")
    | AggMax => plain (validate_extreme_spec spec schema "Max")
    | StddevSamp =>
        plain (validate_numeric_spec spec schema "STDDEV_SAMP"
                 "FIRST_VALUE/LAST_VALUE/PERCENTILE_*")
    | VarSamp =>
        plain (validate_numeric_spec spec schema "VAR_SAMP" "FIRST_VALUE/LAST_VALUE/PERCENTILE_*")
    | PercentileCont => plain (validate_percentile_spec spec schema "PERCENTILE_CONT")
    | PercentileDisc => plain (validate_percentile_spec spec schema "PERCENTILE_DISC")
    | FirstValue | LastValue => plain (validate_positional_spec spec schema)
    | AggExpr => validate_expr_spec spec prior
    end.

(** ** aggregate.rs: SQL *)

(** The column of a spec that has one. *)
Definition source_column (spec : AggregateSpec) : built string :=
  field_to_sql <$> expect (agg_column spec).

Definition over_column (fn_name sql cast : string) : string :=
  fn_name +:+ "(" +:+ quote_identifier sql +:+ "::" +:+ cast +:+ ")".

Definition order_part (schema : ObjectSchema) (flip : bool) (ob : AggregateOrderBy) : string :=
  let osql := field_to_sql (ob_column ob) in
  quote_identifier osql +:+ "::" +:+ resolve_sql_cast osql schema +:+ " "
    +:+ as_sql (if flip then flipped (ob_direction ob) else ob_direction ob).

Definition render_positional (spec : AggregateSpec) (schema : ObjectSchema) (flip : bool) :
  built string :=
  sql ← source_column spec;
  Ok ("(array_agg(" +:+ quote_identifier sql +:+ "::" +:+ resolve_sql_cast sql schema
      +:+ " ORDER BY " +:+ join ", " (order_part schema flip <$> agg_order_by spec) +:+ "))[1]").

Definition render_percentile (spec : AggregateSpec) (fn_name : string) : built string :=
  p ← expect (agg_percentile spec);
  ob ← expect (agg_order_by spec !! 0%nat);
  Ok (fn_name +:+ "(" +:+ format_fixed6 p +:+ ") WITHIN GROUP (ORDER BY "
      +:+ quote_identifier (field_to_sql (ob_column ob)) +:+ "::numeric "
      +:+ as_sql (ob_direction ob) +:+ ")").

Definition render_aggregate_expr (spec : AggregateSpec) (schema : ObjectSchema)
  (prior_alias_sql : AliasSqlMap) (parsed_exprs : gmap string ExprNode) : built string :=
  let numeric (fn_name : string) := sql ← source_column spec; Ok (over_column fn_name sql "numeric") in
  let typed (fn_name : string) :=
    sql ← source_column spec;
    Ok (over_column fn_name sql (resolve_sql_cast sql schema)) in
  match agg_fn spec with
  | AggCount =>
      Ok (match agg_column spec with
          | None => "COUNT(*)::bigint"
          | Some col =>
              let sql := field_to_sql col in
              "COUNT(" +:+ (if agg_distinct spec then "DISTINCT " else "") +:+ quote_identifier sql
                +:+ "::" +:+ resolve_sql_cast sql schema +:+ ")::bigint"
          end)
  | AggSum => numeric "SUM"
  | AggAvg => numeric "AVG"
  | AggMin => typed "MIN"
  | AggMax => typed "MAX"
  | FirstValue => render_positional spec schema false
  | LastValue => render_positional spec schema true
  | StddevSamp => numeric "STDDEV_SAMP"
  | VarSamp => numeric "VAR_SAMP"
  | PercentileCont => render_percentile spec "percentile_cont"
  | PercentileDisc => render_percentile spec "percentile_disc"
  | AggExpr =>
      node ← expect (parsed_exprs !! agg_alias spec);
      refusal (λ e, "Aggregate '" +:+ agg_alias spec +:+ "': " +:+ e)
        (render_expression node prior_alias_sql 0)
  end.

(** ** aggregate.rs: the builder *)

Fixpoint group_columns (schema : ObjectSchema) (l : list string) : built (list string) :=
  match l with
  | [] => Ok []
  | raw :: l =>
      _ ← validate_field_chars raw "group_by";
      let sql_field := field_to_sql raw in
      if negb (schema_has_field schema sql_field) then
        refused ("Unknown group_by column: '" +:+ raw +:+ "'")
      else
        rest ← group_columns schema l;
        Ok (sql_field :: rest)
  end.

(** The loop over the specs: the kinds of the aliases so far, and the expressions. *)
Fixpoint validate_specs (schema : ObjectSchema) (group_cols : list string)
  (prior : list (string * AliasKind)) (parsed : gmap string ExprNode) (l : list AggregateSpec) :
  built (list (string * AliasKind) * gmap string ExprNode) :=
  match l with
  | [] => Ok (prior, parsed)
  | spec :: l =>
      let alias := agg_alias spec in
      _ ← validate_alias alias;
      if bool_decide (alias ∈ prior.*1) then refused ("Duplicate aggregate alias: " +:+ alias)
      else if bool_decide (alias ∈ group_cols) then
        refused ("Aggregate alias '" +:+ alias +:+ "' collides with a group_by column")
      else
        '(kind, node) ← validate_spec spec schema prior;
        validate_specs schema group_cols (prior ++ [(alias, kind)])
          (match node with Some node => <[alias := node]> parsed | None => parsed end) l
  end.

Definition order_target (schema : ObjectSchema) (group_cols aliases : list string)
  (ob : AggregateOrderBy) : built TopLevelOrderByTarget :=
  match decode_order_expression (ob_column ob) with
  | Some r =>
      expr ← r;
      _ ← validate_distance_order_expression expr schema;
      Ok (TargetDistance expr)
  | None =>
      _ ← validate_field_chars (ob_column ob) "order_by";
      let sql_field := field_to_sql (ob_column ob) in
      if bool_decide (sql_field ∈ group_cols) then Ok (TargetColumn (quote_identifier sql_field))
      else if bool_decide (ob_column ob ∈ aliases) then
        Ok (TargetColumn (quote_identifier (ob_column ob)))
      else
        refused ("order_by column '" +:+ ob_column ob +:+ "' is not in group_by or aggregates")
  end.

Definition target_sql (t : TopLevelOrderByTarget) : string :=
  match t with
  | TargetColumn ident => ident
  | TargetDistance expr => render_distance_order_expression expr
  end.

Definition where_clause (schema : ObjectSchema) (req : AggregateRequest)
  (subquery_schemas : gmap string ObjectSchema) : built (string * list json) :=
  match req_condition req with
  | None => Ok ("TRUE", [])
  | Some condition =>
      '(clause, params, _) ←
        or_refuse (if decide (subquery_schemas = ∅) then build_condition_clause condition 1 schema
                   else build_condition_clause_with_subqueries condition 1 schema subquery_schemas);
      Ok (clause, params)
  end.

(** The aggregates of the inner SELECT list, and the SQL of the aliases so far. *)
Fixpoint select_aggregates (schema : ObjectSchema) (parsed : gmap string ExprNode)
  (alias_sql : AliasSqlMap) (l : list (AggregateSpec * (string * AliasKind))) :
  built (list string) :=
  match l with
  | [] => Ok []
  | (spec, (_, kind)) :: l =>
      expr_sql ← render_aggregate_expr spec schema alias_sql parsed;
      rest ← select_aggregates schema parsed (<[agg_alias spec := (expr_sql, kind)]> alias_sql) l;
      Ok ((expr_sql +:+ " AS " +:+ quote_identifier (agg_alias spec)) :: rest)
  end.

Definition order_by_part (ot : AggregateOrderBy * TopLevelOrderByTarget) : string :=
  target_sql ot.2 +:+ " " +:+ as_sql (ob_direction ot.1).

(** A list behind a keyword, or nothing. *)
Definition clause_of (keyword : string) (parts : list string) : string :=
  match parts with [] => "" | _ => " " +:+ keyword +:+ " " +:+ join ", " parts end.

Definition outer_part (name : string) : string :=
  "to_jsonb(" +:+ quote_identifier name +:+ ") AS " +:+ quote_identifier name.

Definition build_aggregate_query_with_subqueries (schema : ObjectSchema) (req : AggregateRequest)
  (subquery_schemas : gmap string ObjectSchema) : built AggregateSql :=
  if bool_decide (req_aggregates req = []) then
    refused "aggregates must contain at least one entry"
  else
    group_cols ← group_columns schema (req_group_by req);
    '(kinds, parsed) ← validate_specs schema group_cols [] ∅ (req_aggregates req);
    targets ←
      collect (map (order_target schema group_cols (agg_alias <$> req_aggregates req))
                 (req_order_by req));
    '(clause, params) ← where_clause schema req subquery_schemas;
    let base_where := "deleted = FALSE AND (" +:+ clause +:+ ")" in
    let table := quote_identifier (table_name schema) in
    aggregates ← select_aggregates schema parsed ∅ (zip (req_aggregates req) kinds);
    let output_columns := group_cols ++ (agg_alias <$> req_aggregates req) in
    let group_by_clause := clause_of "GROUP BY" (quote_identifier <$> group_cols) in
    let inner_order_by := clause_of "ORDER BY" (order_by_part <$> zip (req_order_by req) targets) in
    let n := Z.of_nat (length params) in
    let limit_offset := " LIMIT " +:+ placeholder (n + 1) +:+ " OFFSET " +:+ placeholder (n + 2) in
    let inner_sql :=
      "SELECT " +:+ join ", " ((quote_identifier <$> group_cols) ++ aggregates) +:+ " FROM "
        +:+ table +:+ " WHERE " +:+ base_where +:+ group_by_clause +:+ inner_order_by
        +:+ limit_offset in
    Ok {| data_sql :=
            "SELECT " +:+ join ", " (outer_part <$> output_columns) +:+ " FROM (" +:+ inner_sql
              +:+ ") g";
          count_sql :=
            match group_cols with
            | [] => None
            | _ =>
                Some ("SELECT COUNT(*)::bigint FROM (SELECT 1 FROM " +:+ table +:+ " WHERE "
                      +:+ base_where +:+ group_by_clause +:+ ") g")
            end;
          sql_params := params;
          sql_columns := output_columns |}.

Definition build_aggregate_query (schema : ObjectSchema) (req : AggregateRequest) :
  built AggregateSql :=
  build_aggregate_query_with_subqueries schema req ∅.
End aggregate.
