(* ===== verification/ObjectExprProperties.v ===== *)
(** * Object store: expressions and aggregate queries

    A checked expression is rendered: no check of [sql/expr.rs] is missing for an index, an
    [unwrap] or an [unreachable!] of the renderer.  What is rendered is read by the database
    as names that were checked, the literals of the request and numbered parameters. *)

From S2P Require Import Prelude.
From S2P Require Import Json.
From S2P Require Import Text.
From S2P Require Import Float64.
From S2P Require Import Recovery.
From S2P Require Import GuestPaths.
From S2P Require Import GuestStepProperties.
From S2P Require Import ValidationBase.
From S2P Require Import Validation.
From S2P Require Import ObjectSql.
From S2P Require Import ObjectSqlProperties.
From S2P Require Import ObjectExpr.

Lemma expr_node_ind' (P : ExprNode → Prop) :
  (∀ op l, Forall P l → P (Operation op l)) → (∀ f l, Forall P l → P (Fn f l)) →
  (∀ v, P (Value v)) → ∀ n, P n.
Proof.
  intros Hop Hfn Hv. fix IH 1. intros [op l|f l|v]; [apply Hop|apply Hfn|apply Hv];
    induction l as [|x l IHl]; constructor; auto.
Qed.

(** ** Outcomes *)

Definition unpanicked {A} (r : built A) : Prop := r ≠ Err Panicked.

Lemma unpanicked_bind {A B} (r : built A) (f : A → built B) :
  unpanicked r → (∀ a, r = Ok a → unpanicked (f a)) → unpanicked (r ≫= f).
Proof. destruct r as [a|e]; simpl; [auto|]. intros Hr _ Hp. apply Hr. by injection Hp as ->. Qed.

Lemma unpanicked_collect {A} (l : list (built A)) : Forall unpanicked l → unpanicked (collect l).
Proof.
  induction 1 as [|r l Hr Hl IH]; [done|]. simpl. apply unpanicked_bind; [done|]. intros a _.
  by apply unpanicked_bind.
Qed.

Lemma collect_ok {A} (l : list (built A)) xs :
  collect l = Ok xs ↔ Forall2 (λ r x, r = Ok x) l xs.
Proof.
  split.
  - revert xs. induction l as [|r l IH]; intros xs; simpl; [intros [= <-]; constructor|].
    intros (a & Ha & (rest & Hrest & [= <-])%bind_ok)%bind_ok. constructor; auto.
  - induction 1 as [|r x l xs Hr Hl IH]; [done|]. simpl. by rewrite Hr; simpl; rewrite IH.
Qed.

Lemma collect_map_length {A B} (f : A → built B) l xs :
  collect (map f l) = Ok xs → length xs = length l.
Proof. intros H%collect_ok%Forall2_length. by rewrite length_map in H. Qed.

Lemma collect_map_ok {A B} (f : A → built B) (P : A → B → Prop) l :
  Forall (λ a, ∃ b, f a = Ok b ∧ P a b) l → ∃ bs, collect (map f l) = Ok bs ∧ Forall2 P l bs.
Proof.
  induction 1 as [|a l (b & Hb & HP) Hl (bs & IH & Hbs)]; [by exists []; split|].
  exists (b :: bs). split; [|by constructor]. simpl. by rewrite Hb; simpl; rewrite IH.
Qed.

Lemma unpanicked_refused {A} e : unpanicked (refused (A:=A) e).
Proof. done. Qed.

(** ** Arity *)

Definition arity_ok (op : ExprOp) (n : nat) : bool :=
  match op with
  | OpSub | OpDiv | OpEq | OpNe | OpGt | OpGte | OpLt | OpLte => (n =? 2)%nat
  | OpNeg | OpAbs | OpNot | OpIsDefined | OpIsEmpty | OpIsNotEmpty => (n =? 1)%nat
  | OpAdd | OpMul | OpCoalesce | OpAnd | OpOr => (1 <=? n)%nat
  end.

Lemma check_arity_ok op n u : check_arity op n = Ok u → arity_ok op n = true.
Proof.
  unfold check_arity. intros Hc. destruct (arity_ok op n) eqn:E; [done|].
  by destruct op; simpl in E, Hc; rewrite E in Hc.
Qed.

Lemma unpanicked_arity op n : unpanicked (check_arity op n).
Proof. unfold check_arity. by destruct (negb _). Qed.

Lemma unpanicked_kinds name allowed word i kinds : unpanicked (check_kinds name allowed word i kinds).
Proof. revert i. induction kinds as [|k kinds IH]; intros i; [done|]. simpl. by case_match. Qed.

Lemma unpanicked_coalesce op i found kinds : unpanicked (coalesce_loop op i found kinds).
Proof.
  revert i found. induction kinds as [|k kinds IH]; intros i found; [done|]. simpl.
  case_decide; [done|]. destruct found; [|done]. by case_decide.
Qed.

(** Lists of one, of two and of at least one element, from the arity. *)
Ltac of_arity l H :=
  destruct l as [|? [|? [|]]]; try discriminate H.

Lemma unpanicked_op_result op kinds :
  arity_ok op (length kinds) = true → unpanicked (op_result_kind op kinds).
Proof.
  intros Ha. unfold op_result_kind.
  destruct op; try (apply unpanicked_bind; [apply unpanicked_kinds|done]);
    try apply unpanicked_coalesce; try done; simpl in Ha; of_arity kinds Ha; simpl;
    try (unfold check_comparable; repeat case_decide; done); by case_bool_decide.
Qed.

Lemma unpanicked_literal_kind v : unpanicked (literal_kind v).
Proof. by destruct v. Qed.

Lemma unpanicked_expression node prior depth : unpanicked (validate_expression node prior depth).
Proof.
  revert depth. induction node as [op l IH|f l IH|v] using expr_node_ind'; intros depth; simpl;
    (destruct (EXPR_MAX_DEPTH <? depth); [done|]); [|done|].
  - apply unpanicked_bind; [apply unpanicked_arity|]. intros _ Ha%check_arity_ok.
    apply unpanicked_bind.
    { apply unpanicked_collect, Forall_map. eapply Forall_impl; [exact IH|]. auto. }
    intros kinds Hk%collect_map_length. apply unpanicked_op_result. by rewrite Hk.
  - destruct v as [a|j|r]; [|apply unpanicked_literal_kind|done]. by destruct (find_alias prior a).
Qed.

(** ** Texts in sequence *)

(** The text of a number: no quote, parameter, separator or parenthesis, and no comment. *)
Fixpoint number_chars (after_dash : bool) (s : string) : bool :=
  match s with
  | EmptyString => negb after_dash
  | String c s =>
      if Ascii.eqb c "-"%char then negb after_dash && number_chars true s
      else quiet_char c && number_chars false s
  end.

Definition number_text (s : string) : bool := number_chars false s.

Lemma quiet_step c : quiet_char c = true → step_between c = Some ([TSym c], Between).
Proof.
  unfold quiet_char, plain_char, step_between. rewrite !andb_true_iff, !negb_true_iff, !orb_false_iff.
  by intros [[(((((-> & ->) & ->) & ->) & ->) & ->) _] _].
Qed.

Lemma number_lex b s rest :
  number_chars b s = true → ends_token rest = true →
  lex (if b then AfterDash else Between) (s +:+ rest) =
    (((if b then [TSym "-"%char] else []) ++ symbols s) ++.) <$> lex Between rest.
Proof.
  revert b. induction s as [|c s IH]; intros b Hs Hr; simpl in Hs.
  { destruct b; [done|]. by rewrite fmap_nil_some. }
  change (String c s +:+ rest) with (String c (s +:+ rest)). cbn [lex].
  change (symbols (String c s)) with (TSym c :: symbols s).
  destruct (Ascii.eqb_spec c "-"%char) as [->|Hc].
  - apply andb_prop in Hs as [Hb Hs]. destruct b; [done|]. cbn. rewrite fmap_nil_some.
    rewrite (IH true) by done. done.
  - apply andb_prop in Hs as [Hq Hs]. specialize (IH false Hs Hr). cbn in IH.
    destruct b; cbn [lex_step].
    + destruct (Ascii.eqb_spec c "-"%char); [done|]. unfold after. rewrite quiet_step by done.
      simpl. rewrite IH. by destruct (lex Between rest).
    + rewrite quiet_step by done. simpl. rewrite IH. by destruct (lex Between rest).
Qed.

Lemma number_depth b d s : number_chars b s = true → paren_depth d (symbols s) = Some d.
Proof.
  revert b. induction s as [|c s IH]; intros b Hs; [done|]. simpl in Hs.
  change (symbols (String c s)) with (TSym c :: symbols s). cbn [paren_depth].
  destruct (Ascii.eqb_spec c "-"%char) as [->|Hc].
  - apply andb_prop in Hs as [_ Hs]. by eapply IH.
  - apply andb_prop in Hs as [Hq Hs]. unfold quiet_char in Hq.
    rewrite !andb_true_iff, !negb_true_iff in Hq. destruct Hq as [[_ ->] ->]. by eapply IH.
Qed.

Lemma number_unquoted b s : number_chars b s = true → lacks sq s = true.
Proof.
  revert b. induction s as [|c s IH]; intros b Hs; [done|]. simpl in Hs |- *.
  destruct (Ascii.eqb_spec c "-"%char) as [->|Hc].
  - apply andb_prop in Hs as [_ Hs]. by eapply IH.
  - apply andb_prop in Hs as [Hq Hs]. unfold quiet_char, plain_char in Hq.
    rewrite !andb_true_iff, !negb_true_iff, !orb_false_iff in Hq.
    destruct Hq as [[(((((_ & Hsq) & _) & _) & _) & _) _] _]. rewrite Hsq. by eapply IH.
Qed.

Section safe.
Context (names texts : string → Prop).
Abbreviation safe := (safe names texts).

Lemma safe_number n s : number_text s = true → safe n n s.
Proof.
  intros Hs. apply (safe_tokens names texts n s (symbols s)).
  - intros rest Hr. by apply (number_lex false).
  - intros d. by apply (number_depth false).
  - by intros t [c ->]%elem_of_symbols.
Qed.

Lemma safe_literal n s : texts s → safe n n (quote_text s).
Proof. apply safe_text. Qed.

(** A minus sign in front of a parenthesis. *)
Lemma safe_negative lo hi s :
  safe lo hi (String "("%char s) → safe lo hi ("-" +:+ String "("%char s).
Proof.
  intros (ts & Hl & Hd & Ht & Hn). exists (TSym "-"%char :: ts). repeat split.
  - intros rest Hr. specialize (Hl rest Hr).
    change (("-" +:+ String "("%char s) +:+ rest) with (String "-"%char (String "("%char (s +:+ rest))).
    change (String "("%char s +:+ rest) with (String "("%char (s +:+ rest)) in Hl.
    cbn in Hl |- *. rewrite fmap_nil_some.
    destruct (lex Between (s +:+ rest)), (lex Between rest); simpl in *; try done.
    injection Hl as Hl. by rewrite Hl.
  - intros d. simpl. apply Hd.
  - by intros t [->|Hin]%elem_of_cons; [|apply Ht].
  - intros n Hr. apply elem_of_cons. right. by apply Hn.
Qed.

(** Texts whose parameters follow each other. *)
Fixpoint chain (lo hi : Z) (l : list string) : Prop :=
  match l with
  | [] => lo = hi
  | s :: l => ∃ mid, lo ≤ mid ∧ safe lo mid s ∧ chain mid hi l
  end.

Lemma chain_le lo hi l : chain lo hi l → lo ≤ hi.
Proof.
  revert lo. induction l as [|s l IH]; intros lo; simpl; [lia|].
  intros (mid & ? & _ & ?%IH). lia.
Qed.

Lemma chain_same n l : Forall (safe n n) l → chain n n l.
Proof. induction 1; simpl; [done|]. exists n. auto with lia. Qed.

Lemma chain_map (f : string → string) lo hi l :
  (∀ a b s, a ≤ b → safe a b s → safe a b (f s)) → chain lo hi l → chain lo hi (map f l).
Proof.
  intros Hf. revert lo. induction l as [|s l IH]; intros lo; simpl; [done|].
  intros (mid & ? & ? & ?). exists mid. auto.
Qed.

Lemma chain_join sep lo hi l :
  all_chars quiet_char sep = true → sep ≠ "" → ends_token sep = true → l ≠ [] →
  chain lo hi l → safe lo hi (join sep l).
Proof.
  intros Hq He Hsep. revert lo. induction l as [|s l IH]; intros lo Hl Hc; [done|].
  destruct Hc as (mid & Hle & Hs & Hc). pose proof (chain_le _ _ _ Hc).
  destruct l as [|s' l]; [simpl in *; by subst mid|].
  change (join sep (s :: s' :: l)) with (s +:+ sep +:+ join sep (s' :: l)).
  apply (safe_parts _ _ _ _ [Sub s lo mid; Lit sep; Sub (join sep (s' :: l)) mid hi]).
  - by cbn [parts_text part_text].
  - cbn [parts_ok followed]. rewrite Hsep. apply quiet_plain in Hq as Hp.
    repeat split; try done; try lia; [by destruct sep|by apply IH].
  - intros d. cbn [parts_depth]. by rewrite quiet_depth.
  - intros n Hn. rewrite !Exists_cons, Exists_nil. lia.
Qed.

Lemma safe_as_numeric lo hi s : lo ≤ hi → safe lo hi s → safe lo hi (as_numeric s).
Proof. intros. unfold as_numeric. in_parts [Lit "("; Sub s lo hi; Lit ")::numeric"]. Qed.

Lemma chain_numeric lo hi l : chain lo hi l → chain lo hi (map as_numeric l).
Proof. apply chain_map, safe_as_numeric. Qed.

Lemma safe_dash n : safe n n "-".
Proof.
  apply (safe_tokens _ _ n _ [TSym "-"%char]); [|done|by intros t ->%list_elem_of_singleton].
  intros rest Hr. change ("-" +:+ rest) with (String "-"%char rest). cbn. rewrite fmap_nil_some.
  apply lex_after; [done| |done]. by intros c [->|[->|[->| ->]]]%ends_token_cases.
Qed.

Lemma safe_slash n : safe n n "/".
Proof.
  apply (safe_tokens _ _ n _ [TSym "/"%char]); [|done|by intros t ->%list_elem_of_singleton].
  intros rest Hr. change ("/" +:+ rest) with (String "/"%char rest). cbn. rewrite fmap_nil_some.
  apply lex_after; [done| |done]. by intros c [->|[->|[->| ->]]]%ends_token_cases.
Qed.
#[local] Hint Resolve safe_dash safe_slash : safe.

(** The text in parentheses. *)
Lemma safe_wrapped before lo hi s :
  all_chars quiet_char before = true → lo ≤ hi → safe lo hi s →
  safe lo hi (before +:+ "(" +:+ s +:+ ")").
Proof.
  intros Hb Hle Hs.
  apply (safe_parts _ _ _ _ [Lit before; Lit "("; Sub s lo hi; Lit ")"]).
  - by cbn [parts_text part_text].
  - cbn [parts_ok followed]. apply quiet_plain in Hb. repeat split; done || lia.
  - intros d. cbn [parts_depth]. by rewrite quiet_depth.
  - intros n Hn. rewrite !Exists_cons, Exists_nil. lia.
Qed.

(** ** Operators *)

Lemma safe_binary operator lo hi l :
  all_chars quiet_char operator = true → length l = 2%nat → chain lo hi l →
  ∃ s, binary_sql operator l = Ok s ∧ safe lo hi s.
Proof.
  intros Hq Hl Hc. destruct l as [|a [|b []]]; try done. eexists. split; [done|].
  destruct Hc as (mid & ? & ? & hi' & ? & ? & ->).
  in_parts [Lit "(("; Sub a lo mid; Lit ") "; Sub operator mid mid; Lit " ("; Sub b mid hi;
            Lit "))"].
Qed.

Lemma safe_suffix suffix lo hi l :
  all_chars quiet_char suffix = true → length l = 1%nat → chain lo hi l →
  ∃ s, suffix_sql suffix l = Ok s ∧ safe lo hi s.
Proof.
  intros Hq Hl Hc. destruct l as [|a []]; try done. eexists. split; [done|].
  destruct Hc as (mid & ? & ? & ->).
  in_parts [Lit "(("; Sub a lo hi; Lit ") "; Sub suffix hi hi; Lit ")"].
Qed.

Lemma safe_joined before sep lo hi l :
  all_chars quiet_char before = true → all_chars quiet_char sep = true → sep ≠ "" →
  ends_token sep = true → (1 <=? length l)%nat = true → chain lo hi l →
  safe lo hi (before +:+ "(" +:+ join sep l +:+ ")").
Proof.
  intros ? ? ? ? Hl Hc. apply safe_wrapped; [done|by eapply chain_le|].
  apply chain_join; try done. by destruct l.
Qed.

Lemma render_op_ok op lo hi l :
  arity_ok op (length l) = true → chain lo hi l → ∃ s, render_op op l = Ok s ∧ safe lo hi s.
Proof.
  intros Ha Hc. pose proof (chain_numeric lo hi l Hc) as Hnc. pose proof (chain_le _ _ _ Hc).
  assert (Hlen : length (map as_numeric l) = length l) by apply length_map.
  destruct op; simpl in Ha; unfold render_op;
    try (by apply safe_binary; [|apply Nat.eqb_eq|]);
    try (by apply safe_suffix; [|apply Nat.eqb_eq|]).
  - eexists. split; [done|]. by apply (safe_joined "" " + "); rewrite ?Hlen.
  - of_arity l Ha. eexists. split; [done|]. destruct Hnc as (mid & ? & ? & hi' & ? & ? & ->).
    in_parts [Lit "("; Sub (as_numeric s) lo mid; Lit " "; Sub "-" mid mid; Lit " ";
              Sub (as_numeric s0) mid hi; Lit ")"].
  - eexists. split; [done|]. by apply (safe_joined "" " * "); rewrite ?Hlen.
  - of_arity l Ha. eexists. split; [done|]. destruct Hnc as (mid & ? & ? & hi' & ? & ? & ->).
    in_parts [Lit "("; Sub (as_numeric s) lo mid; Lit " "; Sub "/" mid mid; Lit " NULLIF(";
              Sub (as_numeric s0) mid hi; Lit ", 0))"].
  - of_arity l Ha. eexists. split; [done|]. destruct Hnc as (mid & ? & Hs%safe_negative & ->).
    change (String "("%char ?x) with ("(" +:+ x) in Hs.
    in_parts [Lit "("; Sub ("-" +:+ as_numeric s) lo hi; Lit ")"].
  - of_arity l Ha. eexists. split; [done|]. destruct Hnc as (mid & ? & ? & ->).
    by apply (safe_wrapped "ABS").
  - eexists. split; [done|]. by apply (safe_joined "COALESCE" ", ").
  - eexists. split; [done|]. by apply (safe_joined "" " AND ").
  - eexists. split; [done|]. by apply (safe_joined "" " OR ").
  - of_arity l Ha. eexists. split; [done|]. destruct Hc as (mid & ? & ? & ->).
    in_parts [Lit "(NOT ("; Sub s lo hi; Lit "))"].
Qed.

Lemma render_op_total op l : arity_ok op (length l) = true → ∃ s, render_op op l = Ok s.
Proof. intros Ha. destruct op; simpl in Ha; try (by eexists); of_arity l Ha; by eexists. Qed.
End safe.

(** ** Expressions *)

(** The text literals of an expression. *)
Fixpoint literals (node : ExprNode) : list string :=
  match node with
  | Operation _ l | Fn _ l => mjoin (map literals l)
  | Value (Immediate (JString s)) => [s]
  | Value _ => []
  end.

Section expressions.
Context `{SqlTexts, JsonDisplay} (names texts : string → Prop).
Hypothesis numbers : ∀ n, number_text (json_display (JNumber n)) = true.
Abbreviation safe := (safe names texts).

(** A checked expression is rendered, given the texts of the aliases before it. *)
Lemma expression_renders node prior alias_sql depth kind n :
  validate_expression node prior depth = Ok kind →
  (∀ a k, find_alias prior a = Some k → ∃ s k', alias_sql !! a = Some (s, k') ∧ safe n n s) →
  (∀ x, x ∈ literals node → texts x) →
  ∃ s, render_expression node alias_sql depth = Ok s ∧ safe n n s.
Proof.
  intros Hv Ha. revert depth kind Hv.
  induction node as [op l IH|f l IH|v] using expr_node_ind'; intros depth kind Hv Hx; simpl in Hv |- *;
    (destruct (EXPR_MAX_DEPTH <? depth); [done|]); [|done|].
  - apply bind_ok in Hv as (u & Har%check_arity_ok & Hv).
    apply bind_ok in Hv as (kinds & Hk%collect_ok & _).
    destruct (collect_map_ok (λ a, render_expression a alias_sql (depth + 1))
      (λ _ s, safe n n s) l) as (ss & Hss & Hsafe).
    { rewrite Forall_forall in IH. apply Forall_forall. intros a Hal.
      apply list_elem_of_lookup in Hal as Hl. destruct Hl as [i Hi].
      destruct (Forall2_lookup_l _ _ _ i (validate_expression a prior (depth + 1)) Hk) as (k & _ & Hk').
      { change (map ?f l) with (f <$> l). by rewrite list_lookup_fmap, Hi. }
      eapply IH; [done|exact Hk'|]. intros x Hin. apply Hx. apply list_elem_of_join.
      exists (literals a). split; [done|]. by apply (list_elem_of_fmap_2 literals). }
    rewrite Hss. simpl. apply render_op_ok; [by rewrite <-(Forall2_length _ _ _ Hsafe)|].
    apply chain_same. clear -Hsafe. induction Hsafe; constructor; auto.
  - destruct v as [a|j|r]; [|clear Ha|done].
    + destruct (find_alias prior a) as [k|] eqn:E; [|done]. destruct (Ha _ _ E) as (s & k' & -> & Hs).
      eexists. split; [done|]. by apply (safe_wrapped names texts "").
    + destruct j as [|[]| |s| |]; try done; eexists; (split; [done|]); try by apply safe_quiet.
      * by apply safe_number.
      * apply safe_literal, Hx. simpl. set_solver.
Qed.

(** ** Row expressions *)

Context (schema : ObjectSchema).
Hypothesis columns_unquoted : ∀ c, c ∈ columns schema → lacks dq (col_name c) = true.
Hypothesis column_names : ∀ x, schema_has_field schema x = true → names x.
Hypothesis languages : ∀ x, texts (resolve_tsvector_language x schema).

Lemma find_column_in x col : find_column schema x = Some col → col ∈ columns schema ∧ col_name col = x.
Proof.
  unfold find_column. destruct (list_find _ _) as [[i c]|] eqn:E; [|done]. intros [= <-].
  apply list_find_Some in E as (Hi & Hx & _). split; [|done]. by eapply list_elem_of_lookup_2.
Qed.

Lemma field_known x : schema_has_field schema x = true → lacks dq x = true.
Proof.
  unfold schema_has_field. rewrite orb_true_iff, !bool_decide_eq_true.
  intros [[->|[->| ->]]|(c & -> & Hc)%list_elem_of_fmap]; [done..|by apply columns_unquoted].
Qed.

Lemma has_found x col : find_column schema x = Some col → schema_has_field schema x = true.
Proof.
  intros [Hc Hn]%find_column_in. unfold schema_has_field. apply orb_true_iff. right.
  apply bool_decide_eq_true. rewrite <-Hn. by apply list_elem_of_fmap_2.
Qed.

Lemma safe_field n x : schema_has_field schema x = true → safe n n (column x).
Proof. intros. apply safe_column; [auto|by apply field_known]. Qed.

Lemma vector_known x d : vector_column_dimension x schema = Some d → schema_has_field schema x = true.
Proof.
  unfold vector_column_dimension. destruct (find_column schema x) eqn:E; [|done]. intros _.
  by eapply has_found.
Qed.

(** A rendering takes as many numbers as it returns parameters. *)
Definition renders (r : rendering) : Prop :=
  ∀ lo, ∃ s params, r lo = Ok (s, params, lo + Z.of_nat (length params)) ∧
    (0 ≤ lo → lo + Z.of_nat (length params) ≤ i32_max + 1 →
     safe lo (lo + Z.of_nat (length params)) s).

Lemma renders_each l : Forall renders l → ∀ lo, ∃ ss params,
  render_each l lo = Ok (ss, params, lo + Z.of_nat (length params)) ∧ length ss = length l ∧
  (0 ≤ lo → lo + Z.of_nat (length params) ≤ i32_max + 1 →
   chain names texts lo (lo + Z.of_nat (length params)) ss).
Proof.
  induction 1 as [|r l Hr Hl IH]; intros lo.
  { exists [], []. simpl. rewrite Z.add_0_r. done. }
  destruct (Hr lo) as (s & p & Hs & Hsafe). cbn [render_each]. rewrite Hs. simpl.
  destruct (IH (lo + Z.of_nat (length p))) as (ss & ps & Hss & Hlen & Hchain). rewrite Hss. simpl.
  exists (s :: ss), (p ++ ps). rewrite length_app, Nat2Z.inj_add, Z.add_assoc.
  split; [done|]. split; [simpl; by rewrite Hlen|]. intros Hlo Hm.
  exists (lo + Z.of_nat (length p)). split; [lia|]. split; [apply Hsafe; lia|apply Hchain; lia].
Qed.

Lemma renders_children l f :
  Forall renders l →
  (∀ lo hi ss, length ss = length l → ∃ s, f ss = Ok s ∧ (chain names texts lo hi ss → safe lo hi s)) →
  renders (with_children l f).
Proof.
  intros Hl Hf lo. unfold with_children.
  destruct (renders_each l Hl lo) as (ss & params & -> & Hlen & Hchain). simpl.
  destruct (Hf lo (lo + Z.of_nat (length params)) ss Hlen) as (s & -> & Hs). simpl.
  exists s, params. split; [done|]. auto.
Qed.

(** A rendering without parameters. *)
Lemma renders_fixed r s :
  (∀ lo, r lo = Ok (s, [], lo)) → (∀ lo, safe lo lo s) → renders r.
Proof. intros Hr Hs lo. exists s, []. simpl. rewrite Z.add_0_r. auto. Qed.

Lemma renders_immediate j k : literal_kind j = Ok k → renders (render_row_immediate j).
Proof.
  intros Hk. destruct j as [|[]|n|s| |]; try done.
  1-3: eapply renders_fixed; [intros lo; reflexivity|]; intros lo; by apply safe_quiet.
  - eapply renders_fixed; [intros lo; reflexivity|]. intros lo. by apply safe_number.
  - intros lo. exists (placeholder lo +:+ "::text"), [JString s]. split; [done|]. simpl. intros.
    in_parts [Sub (placeholder lo) lo (lo + 1); Lit "::text"].
Qed.

Lemma safe_distance_op f op n : distance_op f = Some op → safe n n op.
Proof.
  destruct f; intros [= <-]; try by apply safe_quiet.
  assert (safe n n "->") by by apply (safe_minus _ _ n ">" "").
  in_parts [Lit "<"; Sub "->" n n].
Qed.

Lemma check_vector_floats f i l u :
  check_vector f i l = Ok u → ∃ xs, collect (map (λ v, expect (as_f64 v)) l) = Ok xs.
Proof.
  revert i. induction l as [|v l IH]; intros i Hc; [by exists []|]. simpl in Hc |- *.
  destruct (as_f64 v) as [x|]; [|done]. destruct (negb _); [done|]. simpl.
  destruct (IH _ Hc) as [xs ->]. by eexists.
Qed.

Lemma column_argument_ok f word l x :
  column_argument f word l = Ok x → ∃ l', l = Value (Reference x) :: l'.
Proof. destruct l as [|[| |[| |]] l]; try done. intros [= ->]. eauto. Qed.

Lemma renders_distance f op l k :
  distance_op f = Some op → validate_distance f l schema = Ok k → renders (render_distance op l).
Proof.
  intros Hop Hv. unfold validate_distance in Hv.
  destruct (negb _) eqn:Hlen; [done|]. apply bind_ok in Hv as (x & (l' & ->)%column_argument_ok & Hv).
  apply negb_false_iff in Hlen. destruct l' as [|second []]; try done.
  destruct (vector_column_dimension x schema) as [dim|] eqn:Hx; [|done]. apply vector_known in Hx.
  simpl in Hv. apply bind_ok in Hv as (u & Hu & _).
  assert (Hpart : ∀ lo hi rhs, lo ≤ hi → safe lo hi rhs →
    safe lo hi ("(" +:+ column x +:+ " " +:+ op +:+ " " +:+ rhs +:+ ")")).
  { intros lo hi rhs ? ?. pose proof (safe_field lo x Hx). pose proof (safe_distance_op f op lo Hop).
    in_parts [Lit "("; Sub (column x) lo lo; Lit " "; Sub op lo lo; Lit " "; Sub rhs lo hi; Lit ")"]. }
  intros lo. unfold render_distance. simpl. destruct second as [| |[|j|y]]; try done.
  - destruct (as_array j) as [arr|]; [|done]. destruct (negb _); [done|].
    destruct (check_vector_floats _ _ _ _ Hu) as [xs Hxs]. simpl. rewrite Hxs. simpl.
    eexists _, [_]. split; [reflexivity|]. simpl. intros. apply Hpart; [lia|].
    in_parts [Sub (placeholder lo) lo (lo + 1); Lit "::vector"].
  - destruct (vector_column_dimension y schema) as [dim'|] eqn:Hy; [|done]. apply vector_known in Hy.
    simpl. eexists _, []. simpl. rewrite Z.add_0_r. split; [done|]. intros _ _.
    apply Hpart; [lia|by apply safe_field].
Qed.
Lemma renders_arguments l depth kinds :
  Forall (λ a, ∀ depth kind, validate_row_expression a schema depth = Ok kind →
            renders (render_row_expression a schema depth)) l →
  collect (map (λ a, validate_row_expression a schema (depth + 1)) l) = Ok kinds →
  Forall renders (map (λ a, render_row_expression a schema (depth + 1)) l).
Proof.
  intros IH. revert kinds. induction IH as [|a l Ha IH IHl]; intros kinds; [constructor|]. simpl.
  intros (k & Hk & (ks & Hks & _)%bind_ok)%bind_ok. constructor; eauto.
Qed.

Lemma renders_ts_rank l query q k :
  validate_ts_rank l query schema = Ok k → (∀ k, query = Some (Ok k) → ∃ r, q = Some r ∧ renders r) →
  renders (render_ts_rank l q schema).
Proof.
  unfold validate_ts_rank. intros Hv Hq lo. destruct (negb _) eqn:Hlen; [done|].
  apply bind_ok in Hv as (x & (l' & ->)%column_argument_ok & Hv).
  destruct (is_tsvector_column x schema) eqn:Hx; [|done]. simpl in Hv.
  destruct query as [[k'|]|]; try done. destruct (Hq k' eq_refl) as (r & -> & Hr).
  assert (Hf : schema_has_field schema x = true).
  { unfold is_tsvector_column in Hx. destruct (find_column schema x) eqn:E; [|done]. by eapply has_found. }
  unfold render_ts_rank. simpl. destruct (Hr lo) as (s & params & -> & Hs). simpl.
  eexists _, params. split; [done|]. intros ? ?. specialize (Hs ltac:(done) ltac:(done)).
  set (hi := lo + Z.of_nat (length params)) in *. set (lang := resolve_tsvector_language x schema).
  pose proof (safe_field lo x Hf).
  assert (safe lo lo (quote_text lang)) by apply safe_literal, languages.
  in_parts [Lit "ts_rank("; Sub (column x) lo lo; Lit ", plainto_tsquery("; Sub (quote_text lang) lo lo;
            Lit ", "; Sub s lo hi; Lit "))"].
Qed.

Lemma renders_fn f l k kinds :
  length l = length kinds → fn_result_kind f kinds = Ok k → Forall renders l →
  renders (with_children l (match f with Levenshtein => levenshtein_sql | f => render_fn f end)).
Proof.
  intros Hlen Hk Hl. apply renders_children; [done|]. intros lo hi ss Hss. rewrite Hlen in Hss.
  destruct f; try done; simpl in Hk.
  - destruct kinds as [|k1 [|k2 []]]; try done. destruct ss as [|a [|b []]]; try done.
    eexists. split; [done|]. intros (mid & ? & ? & hi' & ? & ? & ->).
    in_parts [Lit "similarity(("; Sub a lo mid; Lit ")::text, ("; Sub b mid hi; Lit ")::text)"].
  - destruct kinds, ss; try done. eexists. split; [done|]. intros Hc.
    by apply (safe_joined names texts "GREATEST" ", ").
  - destruct kinds, ss; try done. eexists. split; [done|]. intros Hc.
    by apply (safe_joined names texts "LEAST" ", ").
  - destruct kinds as [|k1 [|k2 []]]; try done. destruct ss as [|a [|b []]]; try done.
    eexists. split; [done|]. intros (mid & ? & ? & hi' & ? & ? & ->).
    in_parts [Lit "levenshtein(("; Sub a lo mid; Lit ")::text, ("; Sub b mid hi;
              Lit ")::text)::real"].
Qed.

(** A checked row expression is rendered. *)
Lemma row_renders node depth kind :
  validate_row_expression node schema depth = Ok kind →
  renders (render_row_expression node schema depth).
Proof.
  revert depth kind. induction node as [op l IH|f l IH|v] using expr_node_ind'; intros depth kind Hv lo;
    cbn [validate_row_expression] in Hv; cbn [render_row_expression];
    (destruct (EXPR_MAX_DEPTH <? depth); [done|]).
  - apply bind_ok in Hv as (u & Har%check_arity_ok & (kinds & Hk & _)%bind_ok).
    apply renders_children; [by eapply renders_arguments|]. intros lo' hi ss Hss.
    rewrite length_map in Hss. rewrite <-Hss in Har.
    destruct (render_op_total op ss Har) as [s Hs]. exists s. split; [done|].
    intros Hc. destruct (render_op_ok names texts op lo' hi ss Har Hc) as (s' & Hs' & Hsafe).
    rewrite Hs in Hs'. by injection Hs' as <-.
  - assert (Hfn : ∀ kinds, collect (map (λ a, validate_row_expression a schema (depth + 1)) l) = Ok kinds →
      fn_result_kind f kinds = Ok kind →
      renders (with_children (map (λ a, render_row_expression a schema (depth + 1)) l)
        (match f with Levenshtein => levenshtein_sql | f => render_fn f end))).
    { intros kinds Hk Hf. eapply renders_fn; [|exact Hf|by eapply renders_arguments].
      rewrite length_map. symmetry. by eapply collect_map_length. }
    destruct f; cbn [distance_op] in Hv |- *;
      try (apply bind_ok in Hv as (kinds & Hk & Hf); by apply (Hfn _ Hk Hf));
      try (by refine (renders_distance _ _ _ _ _ Hv lo)).
    eapply renders_ts_rank; [exact Hv|]. intros k. change (map ?f l) with (f <$> l).
    rewrite !list_lookup_fmap. destruct (l !! 1%nat) as [a|] eqn:Ea; [|done]. simpl. intros [= Hk].
    eexists. split; [done|]. rewrite Forall_forall in IH. eapply IH; [|exact Hk].
    by eapply list_elem_of_lookup_2.
  - destruct v as [a|j|r]; [done|by eapply renders_immediate|].
    destruct (schema_has_field schema r) eqn:Hr; [|done].
    apply (renders_fixed (λ lo, Ok (column r, [], lo)) (column r)); [done|]. intros lo'.
    by apply safe_field.
Qed.
End expressions.

(** ** Aggregate queries *)

Lemma safe_mono (names texts names' texts' : string → Prop) lo hi s :
  (∀ x, names x → names' x) → (∀ x, texts x → texts' x) →
  safe names texts lo hi s → safe names' texts' lo hi s.
Proof.
  intros Hn Ht (ts & Hl & Hd & Hsafe & Hp). exists ts. do 2 (split; [done|]). split; [|done].
  intros t Hin%Hsafe. destruct t; simpl in *; auto.
Qed.

Lemma safe_append (names texts : string → Prop) lo mid hi a b :
  lo ≤ mid ≤ hi → safe names texts lo mid a → ends_token b = true → safe names texts mid hi b →
  safe names texts lo hi (a +:+ b).
Proof.
  intros Hle (ts & Hl & Hd & Ht & Hp) Hb (ts' & Hl' & Hd' & Ht' & Hp'). exists (ts ++ ts'). repeat split.
  - intros rest Hr. rewrite <-append_assoc, Hl, Hl' by (done || by destruct b).
    apply fmap_app_some.
  - intros d. rewrite paren_depth_app, Hd. apply Hd'.
  - intros t [Hin%Ht|Hin%Ht']%elem_of_app; destruct t; simpl in *; try done; lia.
  - intros n Hn. apply elem_of_app. destruct (decide (n < mid)); [left; apply Hp|right; apply Hp']; lia.
Qed.

Lemma replace_absent s rep : lacks sq s = true → replace quote_char rep s = s.
Proof.
  change quote_char with (String sq ""). induction s as [|c s IH]; [done|]. simpl (lacks _ _).
  rewrite replace_char. destruct (Ascii.eqb_spec sq c) as [->|Hn]; [by rewrite Ascii.eqb_refl|].
  destruct (Ascii.eqb_spec c sq) as [->|_]; [done|]. intros Hs. by rewrite IH.
Qed.

Lemma safe_unescaped (names texts : string → Prop) n s :
  texts s → lacks sq s = true → safe names texts n n ("'" +:+ s +:+ "'").
Proof. intros Ht Hs. rewrite <-(replace_absent s (quote_char +:+ quote_char)) by done. by apply safe_text. Qed.

Section lists.
Context (names texts : string → Prop).
Abbreviation safe := (safe names texts).

Lemma safe_list n l : Forall (safe n n) l → l ≠ [] → safe n n (join ", " l).
Proof. intros Hl Hne. by apply chain_join; [..|apply chain_same]. Qed.

Lemma safe_clause_of n keyword parts :
  all_chars quiet_char keyword = true → Forall (safe n n) parts → safe n n (clause_of keyword parts).
Proof.
  intros Hk Hp. unfold clause_of. destruct parts as [|p parts]; [by apply safe_quiet|].
  pose proof (safe_list n _ Hp ltac:(done)) as Hl. set (l := join ", " _) in *.
  in_parts [Lit " "; Sub keyword n n; Lit " "; Sub l n n].
Qed.

Lemma safe_outer n name : names name → safe n n (outer_part name).
Proof.
  intros Hn. unfold outer_part. pose proof (safe_quoted names texts n name Hn).
  in_parts [Lit "to_jsonb("; Sub (quote_identifier name) n n; Lit ") AS "; Sub (quote_identifier name) n n].
Qed.

(** The text before the limit: what is selected, the table, the filter and the groups. *)
Lemma safe_select n hi selected table clause group :
  n ≤ hi → safe n n selected → safe n n table → safe n hi clause → safe hi hi group →
  ends_token group = true →
  safe n hi ("SELECT " +:+ selected +:+ " FROM " +:+ table +:+ " WHERE "
    +:+ ("deleted = FALSE AND (" +:+ clause +:+ ")") +:+ group).
Proof.
  intros. assert (Hs : safe n hi (("SELECT " +:+ selected +:+ " FROM " +:+ table
    +:+ " WHERE deleted = FALSE AND (" +:+ clause +:+ ")") +:+ group)).
  { apply (safe_append _ _ n hi hi); [lia| |done|done].
    in_parts [Lit "SELECT "; Sub selected n n; Lit " FROM "; Sub table n n;
              Lit " WHERE deleted = FALSE AND ("; Sub clause n hi; Lit ")"]. }
  rewrite <-!append_assoc in Hs. rewrite <-!append_assoc. exact Hs.
Qed.
End lists.

(** The checks one by one. *)
Ltac unpanic :=
  repeat first [done | apply unpanicked_bind; [|intros ? ?] | case_match].

(** Takes an accepted check apart. *)
Ltac taken :=
  repeat match goal with
  | Hr : mbind _ _ = Ok _ |- _ =>
      let a := fresh "a" in let Ha := fresh "Ha" in
      apply bind_ok in Hr as (a & Ha & Hr); cbv beta in Hr
  | Hr : (let '(_, _) := ?a in _) = Ok _ |- _ => is_var a; destruct a
  | Hr : Err _ = Ok _ |- _ => discriminate Hr
  | Hr : spec_refused _ _ = Ok _ |- _ => discriminate Hr
  | Hr : refused _ = Ok _ |- _ => discriminate Hr
  | Hr : unknown_column _ _ = Ok _ |- _ => discriminate Hr
  | Hr : (if ?b then _ else _) = Ok _ |- _ => destruct b eqn:?
  | Hr : match ?o with _ => _ end = Ok _ |- _ => destruct o eqn:?
  end.

Section queries.
Context `{UnicodeData, SqlTexts, JsonDisplay, ExprCodec}.
Context (schema : ObjectSchema) (req : AggregateRequest) (schemas : gmap string ObjectSchema).
Hypothesis numbers : ∀ n, number_text (json_display (JNumber n)) = true.
Hypothesis unquoted : ∀ c, is_alphanumeric c = true → lacks dq c = true.

(** The text of a sort vector. *)
Definition vector_text (e : DistanceOrderExpression) : string :=
  "[" +:+ join "," (format_pg_float <$> do_value e) +:+ "]".

(** Checked field names, aliases, and the tables the query reads. *)
Definition query_name (x : string) : Prop :=
  (∃ raw, raw ≠ "" ∧ field_chars raw = true ∧ x = field_to_sql raw) ∨
  x ∈ agg_alias <$> req_aggregates req ∨ x = table_name schema ∨
  ∃ k s, schemas !! k = Some s ∧ x = table_name s.

(** The empty text, text search languages, literals of expressions and sort vectors. *)
Definition query_text (x : string) : Prop :=
  x = "" ∨ (∃ s field, reads schema schemas s ∧ x = resolve_tsvector_language field s) ∨
  (∃ spec raw node, spec ∈ req_aggregates req ∧ agg_expression spec = Some raw ∧
     decode_expr raw = Ok node ∧ x ∈ literals node) ∨
  (∃ ob e, ob ∈ req_order_by req ∧ decode_order_expression (ob_column ob) = Some (Ok e) ∧
     x = vector_text e).

Abbreviation safe := (safe query_name query_text).

Lemma sql_field_checked field context u :
  validate_field_chars field context = Ok u → field ≠ "" ∧ field_chars field = true.
Proof.
  unfold validate_field_chars. destruct (is_empty_str field) eqn:He; [done|].
  destruct (field_chars field); [|done]. intros _. split; [by intros ->|done].
Qed.

Lemma safe_checked n field : field ≠ "" ∧ field_chars field = true →
  safe n n (quote_identifier (field_to_sql field)).
Proof. intros [? ?]. apply safe_quoted. left. eauto. Qed.

Lemma safe_cast n field s : safe n n (resolve_sql_cast field s).
Proof. apply safe_quiet, cast_quiet. Qed.

Lemma safe_direction n d : safe n n (as_sql d).
Proof. by destruct d; apply safe_quiet. Qed.

#[local] Hint Resolve safe_checked safe_cast safe_direction : safe.

Lemma safe_over n fn_name field cast :
  all_chars quiet_char fn_name = true → field ≠ "" ∧ field_chars field = true → safe n n cast →
  safe n n (over_column fn_name (field_to_sql field) cast).
Proof.
  intros Hf Hc Hs. unfold over_column.
  pose proof (safe_wrapped query_name query_text fn_name n n
    (quote_identifier (field_to_sql field) +:+ "::" +:+ cast) Hf ltac:(lia)) as Hw.
  rewrite <-!append_assoc in Hw. apply Hw.
  in_parts [Sub (quote_identifier (field_to_sql field)) n n; Lit "::"; Sub cast n n].
Qed.

Lemma safe_order_parts n flip spec l u :
  check_order_columns spec schema l = Ok u → Forall (safe n n) (order_part schema flip <$> l).
Proof.
  induction l as [|ob l IH]; [constructor|]. cbn [check_order_columns]. intros Hc. taken.
  constructor; [|auto]. unfold order_part. apply sql_field_checked in Ha. set (dir := if flip then _ else _).
  in_parts [Sub (quote_identifier (field_to_sql (ob_column ob))) n n; Lit "::";
    Sub (resolve_sql_cast (field_to_sql (ob_column ob)) schema) n n; Lit " "; Sub (as_sql dir) n n].
Qed.

Lemma positional_renders n spec k flip :
  validate_positional_spec spec schema = Ok k →
  ∃ s, render_positional spec schema flip = Ok s ∧ safe n n s.
Proof.
  unfold validate_positional_spec, spec_column. intros Hv. taken. apply sql_field_checked in Ha1.
  unfold render_positional, source_column. rewrite Heqo, Heql. injection Ha as ->. simpl.
  eexists. split; [done|].
  pose proof (safe_list _ _ n _ (safe_order_parts n flip _ _ _ Ha2) ltac:(done)) as Hl.
  set (parts := join ", " _) in *.
  in_parts [Lit "(array_agg("; Sub (quote_identifier (field_to_sql a)) n n; Lit "::";
    Sub (resolve_sql_cast (field_to_sql a) schema) n n; Lit " ORDER BY "; Sub parts n n; Lit "))[1]"].
Qed.
Lemma numeric_renders n spec fn_name functions k name :
  all_chars quiet_char name = true → validate_numeric_spec spec schema fn_name functions = Ok k →
  ∃ s, (sql ← source_column spec; Ok (over_column name sql "numeric")) = Ok s ∧ safe n n s.
Proof.
  unfold validate_numeric_spec, spec_column. intros Hn Hv.
  apply bind_ok in Hv as (col & Ha & Hv). apply bind_ok in Hv as (u & _ & Hv).
  apply bind_ok in Hv as (u' & Hc%sql_field_checked & _).
  unfold source_column. destruct (agg_column spec); [|done]. injection Ha as ->. simpl.
  eexists. split; [done|]. apply safe_over; [done|done|by apply safe_quiet].
Qed.

Lemma extreme_renders n spec debug k name :
  all_chars quiet_char name = true → validate_extreme_spec spec schema debug = Ok k →
  ∃ s, (sql ← source_column spec;
        Ok (over_column name sql (resolve_sql_cast sql schema))) = Ok s ∧ safe n n s.
Proof.
  unfold validate_extreme_spec, spec_column. intros Hn Hv.
  apply bind_ok in Hv as (col & Ha & Hv). apply bind_ok in Hv as (u & _ & Hv).
  apply bind_ok in Hv as (u' & Hc%sql_field_checked & _).
  unfold source_column. destruct (agg_column spec); [|done]. injection Ha as ->. simpl.
  eexists. split; [done|]. apply safe_over; [done|done|apply safe_cast].
Qed.

Lemma safe_percentile n name p ob :
  all_chars quiet_char name = true → ob_column ob ≠ "" ∧ field_chars (ob_column ob) = true →
  safe n n (name +:+ "(" +:+ format_fixed6 p +:+ ") WITHIN GROUP (ORDER BY "
    +:+ quote_identifier (field_to_sql (ob_column ob)) +:+ "::numeric " +:+ as_sql (ob_direction ob)
    +:+ ")").
Proof.
  intros Hn Hc. set (tail := " WITHIN GROUP (ORDER BY " +:+ quote_identifier (field_to_sql (ob_column ob))
    +:+ "::numeric " +:+ as_sql (ob_direction ob) +:+ ")").
  assert (Hs : safe n n ((name +:+ "(" +:+ format_fixed6 p +:+ ")") +:+ tail)).
  { apply (safe_append _ _ n n n); [lia|apply safe_wrapped; auto with safe|done|]. subst tail.
    in_parts [Lit " WITHIN GROUP (ORDER BY "; Sub (quote_identifier (field_to_sql (ob_column ob))) n n;
      Lit "::numeric "; Sub (as_sql (ob_direction ob)) n n; Lit ")"]. }
  by rewrite <-!append_assoc in Hs.
Qed.

Lemma percentile_renders n spec fn_name k name :
  all_chars quiet_char name = true → validate_percentile_spec spec schema fn_name = Ok k →
  ∃ s, render_percentile spec name = Ok s ∧ safe n n s.
Proof.
  unfold validate_percentile_spec, render_percentile. intros Hn Hv.
  destruct (agg_column spec); [done|]. apply bind_ok in Hv as (u & _ & Hv).
  destruct (agg_percentile spec) as [p|]; [|done]. destruct (_ || _); [done|].
  destruct (agg_order_by spec) as [|ob []]; try done.
  apply bind_ok in Hv as (u' & Hc%sql_field_checked & _). simpl. eexists. split; [done|].
  by apply safe_percentile.
Qed.

Lemma count_renders n spec k :
  validate_count_spec spec schema = Ok k →
  safe n n match agg_column spec with
           | None => "COUNT(*)::bigint"
           | Some col =>
               "COUNT(" +:+ (if agg_distinct spec then "DISTINCT " else "")
                 +:+ quote_identifier (field_to_sql col) +:+ "::"
                 +:+ resolve_sql_cast (field_to_sql col) schema +:+ ")::bigint"
           end.
Proof.
  unfold validate_count_spec. intros Hv. destruct (agg_column spec) as [col|].
  - apply bind_ok in Hv as (u & Hc%sql_field_checked & _).
    set (q := quote_identifier (field_to_sql col)). set (cast := resolve_sql_cast _ _).
    assert (safe n n q) by by apply safe_checked. assert (safe n n cast) by apply safe_cast.
    destruct (agg_distinct spec).
    + in_parts [Lit "COUNT("; Lit "DISTINCT "; Sub q n n; Lit "::"; Sub cast n n; Lit ")::bigint"].
    + in_parts [Lit "COUNT("; Lit ""; Sub q n n; Lit "::"; Sub cast n n; Lit ")::bigint"].
  - in_parts [Lit "COUNT(*)::bigint"].
Qed.

(** A checked aggregate is rendered. *)
Lemma spec_renders n spec prior parsed alias_sql kind node :
  spec ∈ req_aggregates req → validate_spec spec schema prior = Ok (kind, node) →
  (∀ x, node = Some x → parsed !! agg_alias spec = Some x) →
  (∀ a k, find_alias prior a = Some k → ∃ s k', alias_sql !! a = Some (s, k') ∧ safe n n s) →
  ∃ s, render_aggregate_expr spec schema alias_sql parsed = Ok s ∧ safe n n s.
Proof.
  intros Hin Hv Hnode Ha. unfold validate_spec in Hv. do 2 (destruct (_ && _); [done|]).
  unfold render_aggregate_expr.
  destruct (agg_fn spec); try (apply bind_ok in Hv as (k & Hv & _));
    try (by eapply numeric_renders); try (by eapply extreme_renders);
    try (by eapply percentile_renders); try (by eapply positional_renders).
  { eexists. split; [done|]. by eapply count_renders. }
  unfold validate_expr_spec in Hv. destruct (agg_expression spec) as [raw|] eqn:Eraw; [|done].
  case_bool_decide; [done|]. destruct (agg_distinct spec); [done|].
  destruct (agg_order_by spec); [|done].
  destruct (decode_expr raw) as [x|] eqn:Ex; [|done].
  apply bind_ok in Hv as (k & Hv & [= -> <-]). rewrite (Hnode x eq_refl). simpl.
  destruct (validate_expression x prior 0) as [k'|[]] eqn:Ek; [|done|done].
  destruct (expression_renders query_name query_text numbers x prior alias_sql 0 k' n Ek Ha)
    as (s & -> & Hs); [|by exists s].
  intros y Hy. right. right. left. eauto 10.
Qed.
(** The outcome of the loop over the specs [l], with the kinds [ks], after [prior]. *)
Fixpoint specs_checked (parsed : gmap string ExprNode) (prior : list (string * AliasKind))
  (l : list AggregateSpec) (ks : list AliasKind) : Prop :=
  match l, ks with
  | [], [] => True
  | spec :: l, k :: ks =>
      (∃ node, validate_spec spec schema prior = Ok (k, node) ∧
         ∀ x, node = Some x → parsed !! agg_alias spec = Some x) ∧
      specs_checked parsed (prior ++ [(agg_alias spec, k)]) l ks
  | _, _ => False
  end.

Lemma validate_specs_ok cols l : ∀ prior parsed kinds parsed',
  validate_specs schema cols prior parsed l = Ok (kinds, parsed') →
  ∃ ks, kinds = prior ++ zip (agg_alias <$> l) ks ∧
    (∀ a, a ∈ prior.*1 → parsed' !! a = parsed !! a) ∧ specs_checked parsed' prior l ks.
Proof.
  clear numbers unquoted.
  induction l as [|spec l IH]; intros prior parsed kinds parsed' Hv; cbn [validate_specs] in Hv.
  { injection Hv as <- <-. exists []. by rewrite app_nil_r. }
  apply bind_ok in Hv as (u & _ & Hv). case_bool_decide as Hd; [done|]. case_bool_decide; [done|].
  apply bind_ok in Hv as ([k node] & Hk & Hv). apply IH in Hv as (ks & -> & Hp & Hs).
  exists (k :: ks). split; [by rewrite <-(assoc_L (++))|]. split.
  - intros a Ha. rewrite Hp by (rewrite fmap_app; set_solver).
    destruct node; [|done]. rewrite lookup_insert_ne; [done|]. intros E. by rewrite E in Hd.
  - split; [|done]. exists node. split; [done|]. intros x ->.
    rewrite Hp by (rewrite fmap_app; set_solver). apply lookup_insert_eq.
Qed.

Lemma find_alias_app prior a k b k' :
  find_alias (prior ++ [(a, k)]) b = Some k' → is_Some (find_alias prior b) ∨ b = a.
Proof.
  unfold find_alias. destruct (list_find (λ p, p.1 = b) prior) as [ip|] eqn:E; [by eauto|].
  rewrite list_find_app_r by done. simpl. case_decide; [by right|done].
Qed.

(** The SELECT list of checked specs. *)
Lemma select_ok n parsed l : ∀ prior alias_sql ks,
  (∀ spec, spec ∈ l → spec ∈ req_aggregates req) → specs_checked parsed prior l ks →
  (∀ a k, find_alias prior a = Some k → ∃ s k', alias_sql !! a = Some (s, k') ∧ safe n n s) →
  ∃ parts, select_aggregates schema parsed alias_sql (zip l (zip (agg_alias <$> l) ks)) = Ok parts ∧
    length parts = length l ∧ Forall (safe n n) parts.
Proof.
  induction l as [|spec l IH]; intros prior alias_sql ks Hl Hs Ha; [by exists []; split_and!|].
  destruct ks as [|k ks]; [done|]. destruct Hs as [(node & Hv & Hnode) Hs].
  destruct (spec_renders n spec prior parsed alias_sql k node) as (s & Hr & Hsafe); [set_solver|done..|].
  cbn [fmap list_fmap zip zip_with select_aggregates]. rewrite Hr. simpl.
  destruct (IH (prior ++ [(agg_alias spec, k)]) (<[agg_alias spec := (s, k)]> alias_sql) ks)
    as (parts & -> & Hlen & Hparts); [set_solver|done| |].
  - intros a k' Hk. destruct (decide (a = agg_alias spec)) as [->|Hne].
    { exists s, k. by rewrite lookup_insert_eq. }
    apply find_alias_app in Hk as [[k2 Hk]|]; [|done]. destruct (Ha a k2 Hk) as (s2 & k3 & ? & ?).
    exists s2, k3. by rewrite lookup_insert_ne.
  - simpl. eexists. split; [done|]. split; [simpl; by rewrite Hlen|]. constructor; [|done].
    assert (safe n n (quote_identifier (agg_alias spec))).
    { apply safe_quoted. right. left. apply list_elem_of_fmap_2. set_solver. }
    in_parts [Sub s n n; Lit " AS "; Sub (quote_identifier (agg_alias spec)) n n].
Qed.

Lemma group_columns_ok l cols :
  group_columns schema l = Ok cols →
  Forall (λ c, ∃ raw, raw ≠ "" ∧ field_chars raw = true ∧ c = field_to_sql raw) cols.
Proof.
  revert cols. induction l as [|raw l IH]; intros cols Hc; cbn [group_columns] in Hc.
  { injection Hc as <-. constructor. }
  apply bind_ok in Hc as (u & [? ?]%sql_field_checked & Hc). destruct (negb _); [done|].
  apply bind_ok in Hc as (rest & Hr & [= <-]). constructor; eauto.
Qed.

Lemma floats_unquoted name i l u :
  check_finite name i l = Ok u → lacks sq (join "," (format_pg_float <$> l)) = true.
Proof.
  revert i. induction l as [|f l IH]; intros i Hc; [done|]. cbn [check_finite] in Hc.
  destruct (f64_is_finite f) eqn:Ef; [|done]. simpl in Hc. apply IH in Hc.
  assert (Hf : lacks sq (format_pg_float f) = true).
  { unfold format_pg_float. rewrite Ef. by eapply number_unquoted, numbers. }
  destruct l as [|f' l]; [done|]. cbn [fmap list_fmap] in *.
  change (join "," (?x :: ?y :: ?z)) with (x +:+ "," +:+ join "," (y :: z)).
  by rewrite !lacks_app, Hf, Hc.
Qed.

Lemma safe_pgvector n f : safe n n (pgvector_op f).
Proof.
  destruct f; [by apply safe_quiet|]. assert (safe n n "->") by by apply (safe_minus _ _ n ">" "").
  simpl. in_parts [Lit "<"; Sub "->" n n].
Qed.

Lemma safe_distance_order n ob e u :
  ob ∈ req_order_by req → decode_order_expression (ob_column ob) = Some (Ok e) →
  validate_distance_order_expression e schema = Ok u → safe n n (render_distance_order_expression e).
Proof.
  intros Hob He Hv. unfold validate_distance_order_expression in Hv.
  apply bind_ok in Hv as (u' & Hc%sql_field_checked & Hv).
  destruct (type_of_column _ _) as [[]|]; try done. destruct (negb _); [done|].
  apply floats_unquoted in Hv. unfold render_distance_order_expression.
  assert (Hvec : safe n n ("'" +:+ vector_text e +:+ "'")).
  { apply safe_unescaped; [right; right; right; eauto|]. unfold vector_text. by rewrite !lacks_app, Hv. }
  unfold vector_text in Hvec. pose proof (safe_pgvector n (do_fn e)).
  set (floats := join "," _) in *. set (op := pgvector_op _) in *.
  in_parts [Lit "((array_agg("; Sub (quote_identifier (field_to_sql (do_field e))) n n; Lit "))[1] ";
            Sub op n n; Lit " "; Sub ("'" +:+ ("[" +:+ floats +:+ "]") +:+ "'") n n; Lit "::vector)"].
Qed.

Lemma safe_targets n cols aliases l targets :
  Forall (λ c, ∃ raw, raw ≠ "" ∧ field_chars raw = true ∧ c = field_to_sql raw) cols →
  (∀ a, a ∈ aliases → a ∈ agg_alias <$> req_aggregates req) → (∀ ob, ob ∈ l → ob ∈ req_order_by req) →
  collect (map (order_target schema cols aliases) l) = Ok targets →
  Forall (safe n n) (order_by_part <$> zip l targets).
Proof.
  intros Hcols Hal Hl Ht%collect_ok. revert targets Ht.
  induction l as [|ob l IH]; intros targets Ht; [by inversion Ht; constructor|].
  inversion Ht as [|? t ? ts Hb Hts]; subst.
  cbn [zip zip_with fmap list_fmap]. constructor; [|apply IH; [set_solver|done]].
  assert (Hsafe : safe n n (target_sql t)).
  { unfold order_target in Hb.
    destruct (decode_order_expression (ob_column ob)) as [r|] eqn:Ed.
    - apply bind_ok in Hb as (e & -> & (u & Hv & [= <-])%bind_ok).
      eapply safe_distance_order; [|done|done]. set_solver.
    - apply bind_ok in Hb as (u & Hc & Hb). case_bool_decide as Hg.
      + injection Hb as <-. apply safe_quoted. left. by eapply (proj1 (Forall_forall _ _) Hcols).
      + case_bool_decide; [|done]. injection Hb as <-. apply safe_quoted. right. left. auto. }
  unfold order_by_part. simpl. set (d := ob_direction ob).
  in_parts [Sub (target_sql t) n n; Lit " "; Sub (as_sql d) n n].
Qed.
Lemma where_ok clause params :
  where_clause schema req schemas = Ok (clause, params) →
  1 + Z.of_nat (length params) ≤ i32_max + 1 → safe 1 (1 + Z.of_nat (length params)) clause.
Proof.
  unfold where_clause. destruct (req_condition req) as [c|].
  2: { intros [= <- <-] _. by apply safe_quiet. }
  intros Hw Hn. apply bind_ok in Hw as ([[cl ps] next] & Hb & [= -> ->]).
  assert (Hgood : ∀ o path allow, (∀ m, o = Some m → m = schemas) →
    build_value o (condition_object c) 1 schema path allow = Ok (clause, params, next) →
    safe 1 (1 + Z.of_nat (length params)) clause).
  { intros o path allow Ho Hv.
    apply (good_value o (reads schema schemas)) in Hv as [-> Hs]; [|done|].
    2: { intros m k s' ->%Ho Hs. right. eauto. }
    eapply safe_mono; [| |apply Hs; [by left|lia|lia]].
    - intros x [Hx|(m & k & s' & ->%Ho & Hk & ->)]; [by left|]. right. right. right. eauto.
    - intros x [->|Hx]; [by left|right; left; done]. }
  case_decide.
  - unfold build_condition_clause in Hb. destruct (build_value _ _ _ _ _ _) eqn:E; [|done].
    injection Hb as ->. by eapply Hgood; [|exact E].
  - unfold build_condition_clause_with_subqueries in Hb. destruct (build_value _ _ _ _ _ _) eqn:E; [|done].
    injection Hb as ->. eapply Hgood; [|exact E]. by intros m [= ->].
Qed.

Lemma clause_of_ends keyword parts : ends_token (clause_of keyword parts) = true.
Proof. by destruct parts. Qed.

(** ** No panic *)

Lemma unpanicked_field field context : unpanicked (validate_field_chars field context).
Proof. unfold validate_field_chars. unpanic. Qed.

Lemma unpanicked_refusal {A} f (r : built A) : unpanicked r → unpanicked (refusal f r).
Proof. by destruct r as [|[]]. Qed.

Lemma unpanicked_spec_column spec name : unpanicked (spec_column spec name).
Proof. unfold spec_column. unpanic. Qed.

Lemma unpanicked_distinct spec : unpanicked (no_distinct spec).
Proof. unfold no_distinct. unpanic. Qed.

Lemma unpanicked_order_by spec functions : unpanicked (no_order_by spec functions).
Proof. unfold no_order_by. unpanic. Qed.

Lemma unpanicked_order_columns spec l : unpanicked (check_order_columns spec schema l).
Proof. induction l as [|ob l IH]; simpl; unpanic. apply unpanicked_field. Qed.

#[local] Hint Resolve unpanicked_field unpanicked_spec_column unpanicked_distinct
  unpanicked_order_by unpanicked_order_columns : core.

Lemma unpanicked_spec spec prior : unpanicked (validate_spec spec schema prior).
Proof.
  unfold validate_spec. do 2 (destruct (_ && _); [done|]).
  destruct (agg_fn spec); try (apply unpanicked_bind; [|done]).
  12: { unfold validate_expr_spec. unpanic. apply unpanicked_refusal, unpanicked_expression. }
  all: unfold validate_count_spec, validate_numeric_spec, validate_extreme_spec,
    validate_percentile_spec, validate_positional_spec; unpanic; auto.
Qed.

Lemma unpanicked_specs cols l : ∀ prior parsed, unpanicked (validate_specs schema cols prior parsed l).
Proof.
  induction l as [|spec l IH]; intros prior parsed; [done|]. cbn [validate_specs].
  apply unpanicked_bind.
  { unfold validate_alias. unpanic. }
  intros _ _. do 2 (destruct (bool_decide _); [done|]). apply unpanicked_bind; [apply unpanicked_spec|].
  by intros [k node] _.
Qed.

Lemma unpanicked_groups l : unpanicked (group_columns schema l).
Proof. induction l as [|raw l IH]; simpl; unpanic. Qed.

Lemma unpanicked_target cols aliases ob : unpanicked (order_target schema cols aliases ob).
Proof.
  unfold order_target, decode_order_expression. destruct (strip_prefix _ _) as [raw|]; simpl.
  2: unpanic; auto.
  destruct (order_expression_of_text raw) as [e|]; [|done]. simpl. apply unpanicked_bind; [|done].
  unfold validate_distance_order_expression. unpanic; auto.
  generalize (do_value e) 0%nat. intros fs. induction fs as [|f fs IH]; intros i; simpl; unpanic.
Qed.

Lemma unpanicked_where : unpanicked (where_clause schema req schemas).
Proof.
  unfold where_clause. destruct (req_condition req); [|done]. unfold or_refuse.
  by destruct (if decide _ then _ else _) as [[[]]|].
Qed.
End queries.

(** The text is one balanced statement of known names and texts, with the parameters up to
    [last]. *)
Definition reads_as (names texts : string → Prop) (last : Z) (sql : string) : Prop :=
  ∃ tokens, sql_tokens sql = Some tokens ∧ paren_depth 0 tokens = Some 0%nat ∧
    (∀ x, TIdent x ∈ tokens → names x) ∧ (∀ x, TText x ∈ tokens → texts x) ∧
    (∀ n, TParam n ∈ tokens ↔ 1 ≤ n ≤ last).

Lemma safe_reads names texts last sql : safe names texts 1 (last + 1) sql → reads_as names texts last sql.
Proof.
  intros (ts & Hl & Hd & Ht & Hn). exists ts. split; [by apply lexes_all|]. split; [done|].
  do 2 (split; [by intros x Hx%Ht|]). intros n. split; [intros Hx%Ht; simpl in Hx; lia|].
  intros. apply Hn. lia.
Qed.

(** Refused, or a result with [P]. *)
Definition judged {A} (P : A → Prop) (r : built A) : Prop :=
  match r with Err Panicked => False | Err (Refused _) => True | Ok a => P a end.

Lemma judged_bind {A B} (P : B → Prop) (r : built A) (f : A → built B) :
  unpanicked r → (∀ a, r = Ok a → judged P (f a)) → judged P (r ≫= f).
Proof. intros Hr Hf. destruct r as [a|[]]; [by apply Hf|done|done]. Qed.

(** The whole of the data query, from its parts. *)
Lemma safe_data names texts n outer inner order :
  0 ≤ n → n + 2 ≤ i32_max → safe names texts 1 1 outer → safe names texts 1 (n + 1) inner →
  safe names texts (n + 1) (n + 1) order → ends_token order = true →
  safe names texts 1 (n + 2 + 1)
    ("SELECT " +:+ outer +:+ " FROM (" +:+ (inner +:+ order +:+ " LIMIT " +:+ placeholder (n + 1)
       +:+ " OFFSET " +:+ placeholder (n + 2)) +:+ ") g").
Proof.
  intros. set (limit := " LIMIT " +:+ placeholder (n + 1) +:+ " OFFSET " +:+ placeholder (n + 2)).
  assert (Hl : safe names texts (n + 1) (n + 3) limit).
  { in_parts [Lit " LIMIT "; Sub (placeholder (n + 1)) (n + 1) (n + 1 + 1); Lit " OFFSET ";
              Sub (placeholder (n + 2)) (n + 2) (n + 2 + 1)]. }
  assert (Hq : safe names texts 1 (n + 3) (inner +:+ order +:+ limit)).
  { apply (safe_append _ _ 1 (n + 1)); [lia|done| |]; [by destruct order|].
    apply (safe_append _ _ (n + 1) (n + 1)); done || lia. }
  replace (n + 2 + 1) with (n + 3) by lia. set (body := inner +:+ order +:+ limit) in *.
  in_parts [Lit "SELECT "; Sub outer 1 1; Lit " FROM ("; Sub body 1 (n + 3); Lit ") g"].
Qed.

Lemma safe_count names texts n table clause group :
  0 ≤ n → safe names texts 1 1 table → safe names texts 1 (n + 1) clause →
  safe names texts (n + 1) (n + 1) group → ends_token group = true →
  safe names texts 1 (n + 1)
    ("SELECT COUNT(*)::bigint FROM (SELECT 1 FROM " +:+ table +:+ " WHERE "
       +:+ ("deleted = FALSE AND (" +:+ clause +:+ ")") +:+ group +:+ ") g").
Proof.
  intros. assert (Hs : safe names texts 1 (n + 1)
    ("SELECT 1 FROM " +:+ table +:+ " WHERE " +:+ ("deleted = FALSE AND (" +:+ clause +:+ ")") +:+ group)).
  { apply (safe_select names texts 1 (n + 1) "1" table clause group); try done; [lia|].
    by apply safe_quiet. }
  set (body := "SELECT 1 FROM " +:+ _) in Hs.
  assert (Hw : safe names texts 1 (n + 1) ("SELECT COUNT(*)::bigint FROM (" +:+ body +:+ ") g"))
    by in_parts [Lit "SELECT COUNT(*)::bigint FROM ("; Sub body 1 (n + 1); Lit ") g"].
  subst body. rewrite <-!append_assoc in Hw. rewrite <-!append_assoc. exact Hw.
Qed.

(** ** The queries *)

Section assembled.
Context `{UnicodeData, SqlTexts, JsonDisplay, ExprCodec}.
Context (schema : ObjectSchema) (req : AggregateRequest) (schemas : gmap string ObjectSchema).
Context (cols parts : list string) (clause : string) (n : Z).
Abbreviation safe := (safe (query_name schema req schemas) (query_text schema req schemas)).
Abbreviation table := (quote_identifier (table_name schema)).
Hypothesis columns_checked :
  Forall (λ c, ∃ raw, raw ≠ "" ∧ field_chars raw = true ∧ c = field_to_sql raw) cols.
Hypothesis clause_safe : safe 1 (1 + n) clause.
Hypothesis params_bounded : 0 ≤ n ∧ n + 2 ≤ i32_max.

Lemma column_named c : c ∈ cols → query_name schema req schemas c.
Proof. intros Hc. left. by eapply (proj1 (Forall_forall _ _) columns_checked). Qed.

Lemma safe_columns m : Forall (safe m m) (quote_identifier <$> cols).
Proof. apply Forall_fmap, Forall_forall. intros c Hc. by apply safe_quoted, column_named. Qed.

Lemma safe_table m : safe m m table.
Proof. apply safe_quoted. right. right. by left. Qed.

Lemma assembled_data targets :
  req_aggregates req ≠ [] → parts ≠ [] → Forall (safe 1 1) parts →
  (∀ m, Forall (safe m m) (order_by_part <$> zip (req_order_by req) targets)) →
  safe 1 (n + 2 + 1)
    ("SELECT " +:+ join ", " (outer_part <$> cols ++ (agg_alias <$> req_aggregates req)) +:+ " FROM ("
       +:+ ("SELECT " +:+ join ", " ((quote_identifier <$> cols) ++ parts) +:+ " FROM " +:+ table
            +:+ " WHERE " +:+ ("deleted = FALSE AND (" +:+ clause +:+ ")")
            +:+ clause_of "GROUP BY" (quote_identifier <$> cols)
            +:+ clause_of "ORDER BY" (order_by_part <$> zip (req_order_by req) targets)
            +:+ " LIMIT " +:+ placeholder (n + 1) +:+ " OFFSET " +:+ placeholder (n + 2)) +:+ ") g").
Proof.
  intros Hreq Hne Hparts Horder. destruct params_bounded as [Hn0 Hn].
  assert (Hout : safe 1 1 (join ", " (outer_part <$> cols ++ (agg_alias <$> req_aggregates req)))).
  { apply safe_list.
    - apply Forall_fmap, Forall_forall. intros x Hx. apply safe_outer.
      apply elem_of_app in Hx as [Hx|Hx]; [by apply column_named|right; by left].
    - destruct cols; [|done]. by destruct (req_aggregates req). }
  assert (Hin : safe 1 (n + 1)
    ("SELECT " +:+ join ", " ((quote_identifier <$> cols) ++ parts) +:+ " FROM " +:+ table
       +:+ " WHERE " +:+ ("deleted = FALSE AND (" +:+ clause +:+ ")")
       +:+ clause_of "GROUP BY" (quote_identifier <$> cols))).
  { apply safe_select; [lia| |apply safe_table| |apply safe_clause_of; [done|apply safe_columns]
                       |apply clause_of_ends].
    - apply safe_list; [|by destruct (quote_identifier <$> cols)].
      apply Forall_app. split; [apply safe_columns|done].
    - by replace (n + 1) with (1 + n) by lia. }
  assert (Hord := safe_clause_of _ _ (n + 1) "ORDER BY" _ eq_refl (Horder (n + 1))).
  pose proof (safe_data _ _ n _ _ _ Hn0 Hn Hout Hin Hord (clause_of_ends _ _)) as Hd.
  rewrite <-!append_assoc in Hd. rewrite <-!append_assoc. exact Hd.
Qed.

Lemma assembled_count :
  safe 1 (n + 1)
    ("SELECT COUNT(*)::bigint FROM (SELECT 1 FROM " +:+ table +:+ " WHERE "
       +:+ ("deleted = FALSE AND (" +:+ clause +:+ ")")
       +:+ clause_of "GROUP BY" (quote_identifier <$> cols) +:+ ") g").
Proof.
  apply safe_count; [lia|apply safe_table| |apply safe_clause_of; [done|apply safe_columns]
                    |apply clause_of_ends].
  by replace (n + 1) with (1 + n) by lia.
Qed.
End assembled.

(** C24: Whatever an aggregate request carries, it is refused with an error or compiled, and the
    compiler never panics.  Both queries it makes are read by the database as one balanced
    statement without comments or separators: every quoted identifier is a checked field
    name, an alias of the request or the table of a schema the query reads; every text
    constant is a text search language, a literal of an expression of the request or a
    vector of numbers; and the placeholders are exactly the numbers of the bound values,
    with limit and offset behind them. *)
Theorem aggregate_query_safe `{UnicodeData, SqlTexts, JsonDisplay, ExprCodec}
  (schema : ObjectSchema) (req : AggregateRequest) (schemas : gmap string ObjectSchema)
  (numbers : ∀ n, number_text (json_display (JNumber n)) = true)
  (unquoted : ∀ c, is_alphanumeric c = true → lacks dq c = true) :
  match build_aggregate_query_with_subqueries schema req schemas with
  | Err Panicked => False
  | Err (Refused _) => True
  | Ok query =>
      let n := Z.of_nat (length (sql_params query)) in
      n + 2 ≤ i32_max →
      let reads := reads_as (query_name schema req schemas) (query_text schema req schemas) in
      reads (n + 2) (data_sql query) ∧ ∀ sql, count_sql query = Some sql → reads n sql
  end.
Proof.
  change (judged (λ query, let n := Z.of_nat (length (sql_params query)) in
    n + 2 ≤ i32_max →
    let reads := reads_as (query_name schema req schemas) (query_text schema req schemas) in
    reads (n + 2) (data_sql query) ∧ ∀ sql, count_sql query = Some sql → reads n sql)
    (build_aggregate_query_with_subqueries schema req schemas)).
  unfold build_aggregate_query_with_subqueries. case_bool_decide as Hne; [done|].
  apply judged_bind; [apply unpanicked_groups|]. intros cols Hcols%group_columns_ok.
  apply judged_bind; [apply unpanicked_specs|].
  intros [kinds parsed] (ks & -> & _ & Hs)%validate_specs_ok.
  apply judged_bind.
  { apply unpanicked_collect, Forall_map, Forall_forall. intros ob _. apply unpanicked_target. }
  intros targets Ht. apply judged_bind; [apply unpanicked_where|]. intros [clause params] Hw.
  destruct (select_ok schema req schemas numbers unquoted 1 parsed (req_aggregates req) [] ∅ ks)
    as (parts & Hparts & Hlen & Hsafe); [done|done|done|]. simpl app. rewrite Hparts.
  intros Hn. assert (Hparts_ne : parts ≠ []) by (intros ->; by destruct (req_aggregates req)).
  cbn [sql_params] in Hn. apply where_ok in Hw; [|done|lia]. split.
  - apply safe_reads. apply assembled_data; try done; [lia|]. intros m. by eapply safe_targets.
  - intros sql Hc. apply safe_reads.
    pose proof (assembled_count schema req schemas cols clause (Z.of_nat (length params)) Hcols Hw
      ltac:(lia)) as Hcount.
    destruct cols; [done|]. injection Hc as <-. exact Hcount.
Qed.

(** ** Row expressions *)

Lemma unpanicked_vector `{SqlTexts} f i l : unpanicked (check_vector f i l).
Proof. revert i. induction l as [|v l IH]; intros i; simpl; unpanic. Qed.

Lemma unpanicked_column_argument f word l : unpanicked (column_argument f word l).
Proof. unfold column_argument. unpanic. Qed.

Lemma unpanicked_distance `{SqlTexts} f l schema : unpanicked (validate_distance f l schema).
Proof.
  unfold validate_distance. destruct (negb _) eqn:Hl; [done|].
  apply unpanicked_bind; [apply unpanicked_column_argument|]. intros x _.
  destruct (vector_column_dimension x schema); [|done].
  apply negb_false_iff, Nat.eqb_eq in Hl. destruct l as [|a [|b []]]; try done. simpl.
  apply unpanicked_bind; [|done]. unpanic. apply unpanicked_vector.
Qed.

Lemma unpanicked_ts_rank l query schema :
  (length l = 2%nat → ∃ q, query = Some q ∧ unpanicked q) → unpanicked (validate_ts_rank l query schema).
Proof.
  intros Hq. unfold validate_ts_rank. destruct (negb _) eqn:Hl; [done|].
  apply negb_false_iff, Nat.eqb_eq, Hq in Hl as (q & -> & Hu).
  apply unpanicked_bind; [apply unpanicked_column_argument|]. intros x _.
  destruct (negb _); [done|]. simpl.
  apply unpanicked_bind; [done|]. intros k _. by case_bool_decide.
Qed.

Lemma unpanicked_fn_result f kinds :
  f ≠ TsRank → distance_op f = None → unpanicked (fn_result_kind f kinds).
Proof.
  intros Hf Hd. destruct f; try done; unfold fn_result_kind; (destruct (_ =? _)%nat; [|]); try done;
    simpl; (apply unpanicked_bind; [apply unpanicked_kinds|done]).
Qed.

Lemma unpanicked_row `{SqlTexts} node schema depth : unpanicked (validate_row_expression node schema depth).
Proof.
  revert depth. induction node as [op l IH|f l IH|v] using expr_node_ind'; intros depth;
    cbn [validate_row_expression]; (destruct (EXPR_MAX_DEPTH <? depth); [done|]).
  - apply unpanicked_bind; [apply unpanicked_arity|]. intros _ Ha%check_arity_ok.
    apply unpanicked_bind.
    { apply unpanicked_collect, Forall_map. eapply Forall_impl; [exact IH|]. auto. }
    intros kinds Hk%collect_map_length. apply unpanicked_op_result. by rewrite Hk.
  - assert (Hc : unpanicked (collect (map (λ a, validate_row_expression a schema (depth + 1)) l))).
    { apply unpanicked_collect, Forall_map. eapply Forall_impl; [exact IH|]. auto. }
    destruct f; cbn [distance_op]; try apply unpanicked_distance;
      try (apply unpanicked_bind; [done|]; intros kinds _; by apply unpanicked_fn_result).
    apply unpanicked_ts_rank. destruct l as [|a [|b []]]; try done. intros _. eexists. split; [done|].
    by repeat apply Forall_cons in IH as [? IH].
  - destruct v as [a|j|r]; [done|apply unpanicked_literal_kind|]. by destruct (negb _).
Qed.

Lemma pattern_unquoted name : identifier_pattern name = true → lacks dq name = true.
Proof.
  assert (Hc : ∀ c, is_ascii_lowercase c || is_ascii_digit c || Ascii.eqb c "_"%char = true →
    Ascii.eqb c dq = false).
  { intros c. destruct (Ascii.eqb_spec c dq) as [->|]; done. }
  destruct name as [|c rest]; [done|]. simpl. intros [Hf Hr]%andb_prop. rewrite Hc by by rewrite Hf.
  simpl. induction rest as [|d rest IH]; [done|]. simpl in Hr |- *. apply andb_prop in Hr as [Hd Hr].
  rewrite Hc by done. by apply IH.
Qed.

(** C25: Whatever expression scores the rows of a query over a schema whose columns have checked
    names, its check refuses it or gives a kind, and then the expression is rendered, from any
    parameter number on: neither of them panics, and the renderer refuses nothing the check has
    accepted.  The text is balanced, names only columns of the schema, has no text constants
    but text search languages, and has one placeholder for every value that is bound. *)
Theorem row_expression_safe `{SqlTexts, JsonDisplay} (node : ExprNode) (schema : ObjectSchema)
  (offset : Z) (numbers : ∀ n, number_text (json_display (JNumber n)) = true)
  (columns_checked : ∀ c, c ∈ columns schema → identifier_pattern (col_name c) = true)
  (positive : 0 ≤ offset) :
  match validate_row_expression node schema 0 with
  | Err Panicked => False
  | Err (Refused _) => True
  | Ok _ => ∃ sql params,
      let next := offset + Z.of_nat (length params) in
      render_row_expression node schema 0 offset = Ok (sql, params, next) ∧
      (next ≤ i32_max + 1 → ∃ tokens,
         sql_tokens sql = Some tokens ∧ paren_depth 0 tokens = Some 0%nat ∧
         (∀ x, TIdent x ∈ tokens → schema_has_field schema x = true) ∧
         (∀ x, TText x ∈ tokens → ∃ field, x = resolve_tsvector_language field schema) ∧
         (∀ n, TParam n ∈ tokens ↔ offset ≤ n < next))
  end.
Proof.
  pose proof (unpanicked_row node schema 0) as Hu.
  destruct (validate_row_expression node schema 0) as [k|[]] eqn:Hv; [|done|by apply Hu].
  eapply (row_renders (λ x, schema_has_field schema x = true)
    (λ x, ∃ field, x = resolve_tsvector_language field schema) numbers schema) in Hv;
    [|by auto using pattern_unquoted|done|eauto].
  destruct (Hv offset) as (sql & params & Hr & Hs).
  exists sql, params. split; [done|]. intros Hn.
  destruct (Hs positive Hn) as (ts & Hl & Hd & Ht & Hp). exists ts. split; [by apply lexes_all|].
  split; [done|]. do 2 (split; [by intros x Hx%Ht|]). intros n. split; [apply Ht|apply Hp].
Qed.

(** ** Concrete queries *)

Definition decimal_display : JsonDisplay := λ v,
  match v with
  | JNumber (PosInt n) | JNumber (NegInt n) => show_Z n
  | JNumber (Float _) => "0.5"
  | JString s => s
  | _ => "value"
  end.

Definition op_of_name (name : string) : ExprOp :=
  default OpAdd (list_find (λ op, expr_op_name op = name) [OpCoalesce; OpDiv; OpEq] ≫= λ x, Some x.2).

(** Decoding of expressions in their written form, for the queries below. *)
Fixpoint node_of_json (v : json) : ExprNode :=
  match v with
  | JObject [(_, JString name); (_, JArray l)] => Operation (op_of_name name) (map node_of_json l)
  | JObject [(_, JString ty); (_, v)] =>
      Value (if decide (ty = "alias") then Alias (default "" (as_str v)) else Immediate v)
  | _ => Value (Immediate v)
  end.

Definition plain_codec : ExprCodec :=
  {| decode_expr := λ v, Ok (node_of_json v); order_expression_text := λ _, Err "";
     order_expression_of_text := λ _, Err "" |}.

#[local] Existing Instances ascii_data ascii_sql decimal_display plain_codec.

Lemma quiet_number s : all_chars quiet_char s = true → number_text s = true.
Proof.
  unfold number_text. induction s as [|c s IH]; [done|]. simpl. intros [Hc Hs]%andb_prop.
  rewrite Hc, IH by done. destruct (Ascii.eqb_spec c "-"%char) as [->|]; done.
Qed.

Lemma negative_number c s :
  all_chars quiet_char (String c s) = true → number_text (String "-"%char (String c s)) = true.
Proof.
  intros Hq. pose proof (quiet_number _ Hq) as Hn. unfold number_text in *.
  cbn [number_chars all_chars] in *. apply andb_prop in Hq as [Hc _].
  change (Ascii.eqb "-" "-") with true.
  destruct (Ascii.eqb c "-"%char) eqn:E; [|done]. by apply Ascii.eqb_eq in E as ->.
Qed.

Lemma decimal_numbers n : number_text (json_display (JNumber n)) = true.
Proof.
  enough (Hz : ∀ k, number_text (show_Z k) = true) by (destruct n; [apply Hz|apply Hz|done]).
  intros k. unfold show_Z. destruct (Z.ltb_spec k 0); [|apply quiet_number; by apply show_pos_aux_quiet].
  pose proof (show_pos_aux_quiet 20 (- k) "" ltac:(lia) eq_refl) as Hq.
  destruct (show_pos_aux 20 (- k) "") as [|c s] eqn:E; [by apply show_pos_nonempty in E|].
  by apply negative_number.
Qed.

Definition demo_spec (alias : string) (f : AggregateFn) (column : option string)
  (expression : option json) : AggregateSpec :=
  {| agg_alias := alias; agg_fn := f; agg_column := column; agg_distinct := false;
     agg_order_by := []; agg_expression := expression; agg_percentile := None |}.

(** A literal that would end the statement, if it were not quoted. *)
Definition hostile_request : AggregateRequest :=
  {| req_condition := Some hostile_condition; req_group_by := ["sku"];
     req_aggregates :=
       [demo_spec "n" AggCount None None;
        demo_spec "label" AggExpr None (Some (JObject
          [("op", JString "COALESCE");
           ("arguments", JArray [JObject [("valueType", JString "immediate");
                                          ("value", JString "x'); DROP TABLE orders; --")]])]))];
     req_order_by := [{| ob_column := "n"; ob_direction := Desc |}];
     req_limit := None; req_offset := None |}.

Lemma aggregate_query_safe_witness :
  match build_aggregate_query_with_subqueries orders_schema hostile_request
          {["products" := products_schema]} with
  | Ok query => length (sql_params query) = 2%nat ∧ ∃ tokens,
      sql_tokens (data_sql query) = Some tokens ∧ ∀ n, TParam n ∈ tokens ↔ 1 ≤ n ≤ 4
  | Err _ => False
  end.
Proof.
  pose proof (aggregate_query_safe orders_schema hostile_request {["products" := products_schema]}
    decimal_numbers ascii_unquoted) as Hq.
  destruct (build_aggregate_query_with_subqueries _ _ _) as [query|] eqn:E; [|by vm_compute in E].
  assert (Hlen : length (sql_params query) = 2%nat)
    by (vm_compute in E; injection E as <-; reflexivity).
  cbv zeta in Hq. rewrite Hlen in Hq. split; [done|].
  destruct Hq as [(tokens & Hts & _ & _ & _ & Hn) _]; [vm_compute; discriminate|].
  exists tokens. split; [exact Hts|exact Hn].
Defined.

(** The similarity of a column with a text, or a number. *)
Definition hostile_score : ExprNode :=
  Fn Greatest [Fn Similarity [Value (Reference "sku"); Value (Immediate (JString "x' OR 1=1 --"))];
               Value (Immediate (JNumber (NegInt (-1))))].

Lemma row_expression_safe_witness :
  ∃ sql params, render_row_expression hostile_score orders_schema 0 1 = Ok (sql, params, 2) ∧
    params = [JString "x' OR 1=1 --"] ∧
    ∃ tokens, sql_tokens sql = Some tokens ∧ ∀ n, TParam n ∈ tokens ↔ 1 ≤ n < 2.
Proof.
  assert (Hc : ∀ c, c ∈ columns orders_schema → identifier_pattern (col_name c) = true).
  { apply Forall_forall. apply (bool_decide_unpack _). vm_compute. exact I. }
  pose proof (row_expression_safe hostile_score orders_schema 1 decimal_numbers Hc ltac:(lia)) as Hr.
  destruct (validate_row_expression _ _ _) as [k|] eqn:E; [|by vm_compute in E].
  destruct Hr as (sql & params & Hr & Ht).
  assert (Hp : params = [JString "x' OR 1=1 --"]) by (vm_compute in Hr; by simplify_eq).
  subst params. exists sql, [JString "x' OR 1=1 --"]. split; [exact Hr|]. split; [done|].
  destruct Ht as (tokens & Hts & _ & _ & _ & Hn); [vm_compute; discriminate|]. by exists tokens.
Defined.

(** MIN of a text search column passes the check: only columns of the type JSON are refused, not
    those of the kind JSON. *)
Lemma min_of_tsvector_accepted :
  validate_spec (demo_spec "m" AggMin (Some "words") None)
    {| os_id := "1"; os_name := "notes"; table_name := "notes";
       columns := [{| col_name := "words"; column_type := CtTsvector "body" "english";
                      col_nullable := true; col_unique := false; default_value := None;
                      text_index := TiNone |}];
       indexes := None |} [] = Ok (KJson, None).
Proof. reflexivity. Qed.
