(* ===== verification/ObjectDdl.v ===== *)
(** * runtara-object-store: the tables of schemas

    [sql/ddl.rs] and the types of columns in [types.rs]: the statements that create and
    alter the table of a schema; [store.rs]: creating, updating and deleting a schema in a
    transaction; [schema_validator.rs] of the server: which schemas are let through.

    A statement is a value of [Ddl], one constructor per text the code formats, and
    [ddl_text] is that text.  What a statement does is [exec], on the part of the
    PostgreSQL catalogue it touches: the columns of every table with their numbers (a row
    stores its values under these numbers, so a column that keeps its number keeps its
    data), and the indexes by name, without the one of the primary key.  [exec] follows the documented behaviour of PostgreSQL
    15 and of pgvector and refuses what they refuse whatever the rows are; what depends on
    the rows (a cast that fails, a NULL where none may be, a duplicate) is the parameter
    [refuses] of the operations of the store. *)

From S2P Require Import Prelude.
From S2P Require Import Text.
From S2P Require Import ValidationBase.
From S2P Require Import ObjectSql.

(** ** config.rs *)

Record AutoColumns := {
  auto_id : bool;
  auto_created_at : bool;
  auto_updated_at : bool }.

(** The fields of [StoreConfig] these operations read. *)
Record StoreConfig := {
  soft_delete : bool;
  auto_columns : AutoColumns }.

(** ** types.rs *)

Definition quote_literal (v : string) : string := "'" +:+ replace "'" "''" v +:+ "'".

Inductive Storage :=
| PgText
| PgVarchar
| PgBigint
| PgNumeric (precision scale : Z)
| PgBoolean
| PgTimestamptz
| PgJsonb
| PgTsvector
| PgVector (dimension : Z).

#[export] Instance storage_eq_dec : EqDecision Storage.
Proof. solve_decision. Defined.

(** A type of PostgreSQL, and the values its CHECK allows *)
Record SqlType := {
  st_storage : Storage;
  st_check : option (list string) }.

Definition storage_text (s : Storage) : string :=
  match s with
  | PgText => "TEXT"
  | PgVarchar => "VARCHAR(255)"
  | PgBigint => "BIGINT"
  | PgNumeric precision scale => "NUMERIC(" +:+ show_Z precision +:+ "," +:+ show_Z scale +:+ ")"
  | PgBoolean => "BOOLEAN"
  | PgTimestamptz => "TIMESTAMP WITH TIME ZONE"
  | PgJsonb => "JSONB"
  | PgTsvector => "TSVECTOR"
  | PgVector dimension => "vector(" +:+ show_Z dimension +:+ ")"
  end.

Definition sql_type_text (column_name : string) (t : SqlType) : string :=
  storage_text (st_storage t)
  +:+ match st_check t with
      | Some values =>
          " CHECK (" +:+ column_name +:+ " IN (" +:+ join ", " (quote_literal <$> values) +:+ "))"
      | None => ""
      end.

Definition unchecked (s : Storage) : SqlType := {| st_storage := s; st_check := None |}.

(** The branches of [to_sql_type] *)
Definition sql_type (t : ColumnType) : SqlType :=
  match t with
  | CtString => unchecked PgText
  | CtInteger => unchecked PgBigint
  | CtDecimal precision scale => unchecked (PgNumeric precision scale)
  | CtBoolean => unchecked PgBoolean
  | CtTimestamp => unchecked PgTimestamptz
  | CtJson => unchecked PgJsonb
  | CtEnum values => {| st_storage := PgText; st_check := Some values |}
  | CtTsvector _ _ => unchecked PgTsvector
  | CtVector dimension _ => unchecked (PgVector dimension)
  end.

Definition to_sql_type (t : ColumnType) (column_name : string) : string :=
  sql_type_text column_name (sql_type t).

Definition is_generated (t : ColumnType) : bool :=
  match t with CtTsvector _ _ => true | _ => false end.

Definition requires_trigram_index (c : ColumnDefinition) : bool :=
  bool_decide (text_index c = TiTrigram).

(** ** Statements *)

(** What a column of CREATE TABLE and ADD COLUMN says *)
Record ColumnSpec := {
  cs_name : string;
  cs_type : SqlType;
  cs_not_null : bool;
  cs_generated : option (string * string);
  cs_default : option string }.

(** A column of CREATE TABLE: one of the code's own, or one of the schema. *)
Inductive TableColumn :=
| IdColumn
| UserColumn (c : ColumnSpec)
| CreatedAtColumn
| UpdatedAtColumn
| DeletedColumn.

(** The indexes the code keeps for a column, by the suffix of their names. *)
Inductive IndexKind := UniqueLive | Trgm | Fts | HnswKind | IvfKind.

Inductive ColumnIndex :=
| CiUnique
| CiTrigram
| CiFts
| CiVector (method : VectorIndexMethod).

Inductive Ddl :=
| CreateTable (table : string) (cols : list TableColumn)
| DropTable (table : string)
| RenameTable (table to : string)
| AddColumn (table : string) (c : ColumnSpec)
| DropColumn (table column : string)
| RenameColumn (table column to : string)
| AlterType (table column : string) (t : SqlType)
| AlterNotNull (table column : string) (not_null : bool)
| AlterDefault (table column : string) (value : option string)
| CreateColumnIndex (name table column : string) (i : ColumnIndex)
| CreateDefaultIndex (name table : string)
| CreateIndex (name table : string) (cols : list string) (unique : bool)
| DropIndex (name : string)
| RenameIndex (name to : string).

#[export] Instance index_kind_eq_dec : EqDecision IndexKind.
Proof. solve_decision. Defined.
#[export] Instance column_index_eq_dec : EqDecision ColumnIndex.
Proof. solve_decision. Defined.
#[export] Instance column_definition_eq_dec : EqDecision ColumnDefinition.
Proof. solve_decision. Defined.

Definition column_spec_text (c : ColumnSpec) : string :=
  join " "
    ([quote_identifier (cs_name c); sql_type_text (cs_name c) (cs_type c)]
     ++ (if cs_not_null c then ["NOT NULL"] else [])
     ++ match cs_generated c with
        | Some (source_column, language) =>
            ["GENERATED ALWAYS AS (to_tsvector(" +:+ quote_literal language +:+ ", coalesce("
             +:+ quote_identifier source_column +:+ ", ''))) STORED"]
        | None => []
        end
     ++ match cs_default c with Some d => ["DEFAULT " +:+ d] | None => [] end).

(** The branches of [format_column_definition] *)
Definition column_spec (col : ColumnDefinition) : ColumnSpec :=
  {| cs_name := col_name col;
     cs_type := sql_type (column_type col);
     cs_not_null := negb (col_nullable col);
     cs_generated :=
       match column_type col with
       | CtTsvector source_column language => Some (source_column, language)
       | _ => None
       end;
     cs_default :=
       match column_type col with
       | CtTsvector _ _ => None
       | _ => default_value col
       end |}.

Definition format_column_definition (col : ColumnDefinition) : string :=
  column_spec_text (column_spec col).

Definition table_column_text (c : TableColumn) : string :=
  match c with
  | IdColumn => "id VARCHAR(255) PRIMARY KEY DEFAULT gen_random_uuid()::text"
  | UserColumn c => column_spec_text c
  | CreatedAtColumn => "created_at TIMESTAMPTZ DEFAULT NOW()"
  | UpdatedAtColumn => "updated_at TIMESTAMPTZ DEFAULT NOW()"
  | DeletedColumn => "deleted BOOLEAN DEFAULT FALSE"
  end.

Definition column_index_text (name table column : string) (i : ColumnIndex) : string :=
  let create := "CREATE INDEX IF NOT EXISTS " +:+ quote_identifier name +:+ " ON "
                +:+ quote_identifier table +:+ " USING " in
  let live := " WHERE deleted = FALSE" in
  match i with
  | CiUnique =>
      "CREATE UNIQUE INDEX " +:+ quote_identifier name +:+ " ON " +:+ quote_identifier table
      +:+ "(" +:+ quote_identifier column +:+ ")" +:+ live
  | CiTrigram => create +:+ "GIN (" +:+ quote_identifier column +:+ " gin_trgm_ops)" +:+ live
  | CiFts => create +:+ "GIN (" +:+ quote_identifier column +:+ ")" +:+ live
  | CiVector Hnsw =>
      create +:+ "hnsw (" +:+ quote_identifier column +:+ " vector_cosine_ops)" +:+ live
  | CiVector (IvfFlat lists) =>
      create +:+ "ivfflat (" +:+ quote_identifier column +:+ " vector_cosine_ops) WITH (lists = "
      +:+ show_Z lists +:+ ")" +:+ live
  end.

Definition alter_column_text (table column action : string) : string :=
  "ALTER TABLE " +:+ quote_identifier table +:+ " ALTER COLUMN " +:+ quote_identifier column
  +:+ " " +:+ action.

Definition ddl_text (s : Ddl) : string :=
  match s with
  | CreateTable table cols =>
      "CREATE TABLE " +:+ quote_identifier table +:+ " (" +:+ join ", " (table_column_text <$> cols)
      +:+ ")"
  | DropTable table => "DROP TABLE IF EXISTS " +:+ quote_identifier table +:+ " CASCADE"
  | RenameTable table to =>
      "ALTER TABLE " +:+ quote_identifier table +:+ " RENAME TO " +:+ quote_identifier to
  | AddColumn table c =>
      "ALTER TABLE " +:+ quote_identifier table +:+ " ADD COLUMN " +:+ column_spec_text c
  | DropColumn table column =>
      "ALTER TABLE " +:+ quote_identifier table +:+ " DROP COLUMN " +:+ quote_identifier column
  | RenameColumn table column to =>
      "ALTER TABLE " +:+ quote_identifier table +:+ " RENAME COLUMN " +:+ quote_identifier column
      +:+ " TO " +:+ quote_identifier to
  | AlterType table column t =>
      alter_column_text table column ("TYPE " +:+ sql_type_text column t)
  | AlterNotNull table column not_null =>
      alter_column_text table column (if not_null then "SET NOT NULL" else "DROP NOT NULL")
  | AlterDefault table column (Some d) => alter_column_text table column ("SET DEFAULT " +:+ d)
  | AlterDefault table column None => alter_column_text table column "DROP DEFAULT"
  | CreateColumnIndex name table column i => column_index_text name table column i
  | CreateDefaultIndex name table =>
      "CREATE INDEX " +:+ quote_identifier name +:+ " ON " +:+ quote_identifier table
      +:+ "(created_at DESC) WHERE deleted = FALSE"
  | CreateIndex name table cols unique =>
      "CREATE " +:+ (if unique then "UNIQUE " else "") +:+ "INDEX " +:+ quote_identifier name
      +:+ " ON " +:+ quote_identifier table +:+ "(" +:+ join ", " (quote_identifier <$> cols)
      +:+ ")" +:+ (if unique then " WHERE deleted = FALSE" else "")
  | DropIndex name => "DROP INDEX IF EXISTS " +:+ quote_identifier name
  | RenameIndex name to =>
      "ALTER INDEX IF EXISTS " +:+ quote_identifier name +:+ " RENAME TO " +:+ quote_identifier to
  end.

(** ** ddl.rs *)

Definition generate_create_table (config : StoreConfig) (table_name : string)
  (columns : list ColumnDefinition) : Ddl :=
  let auto := auto_columns config in
  CreateTable table_name
    ((if auto_id auto then [IdColumn] else [])
     ++ ((λ c, UserColumn (column_spec c)) <$> columns)
     ++ (if auto_created_at auto then [CreatedAtColumn] else [])
     ++ (if auto_updated_at auto then [UpdatedAtColumn] else [])
     ++ [DeletedColumn]).

Definition kind_suffix (k : IndexKind) : string :=
  match k with
  | UniqueLive => "_unique_live"
  | Trgm => "_trgm"
  | Fts => "_fts"
  | HnswKind => "_hnsw"
  | IvfKind => "_ivf"
  end.

(** [format!("idx_{}_{}_trgm", table_name, column)] and the like *)
Definition column_index_name (table_name column : string) (k : IndexKind) : string :=
  "idx_" +:+ table_name +:+ "_" +:+ column +:+ kind_suffix k.

Definition unique_column_index_name (table_name column : string) : string :=
  column_index_name table_name column UniqueLive.

Definition unique_column_index_create (table_name column : string) : Ddl :=
  CreateColumnIndex (unique_column_index_name table_name column) table_name column CiUnique.

Definition unique_column_index_drop (table_name column : string) : Ddl :=
  DropIndex (unique_column_index_name table_name column).

Definition generate_unique_column_indexes (table_name : string) (columns : list ColumnDefinition) :
  list Ddl :=
  (λ c, unique_column_index_create table_name (col_name c)) <$> filter (λ c, col_unique c = true) columns.

Definition trigram_index_create (table_name column : string) : Ddl :=
  CreateColumnIndex (column_index_name table_name column Trgm) table_name column CiTrigram.

Definition trigram_index_drop (table_name column : string) : Ddl :=
  DropIndex (column_index_name table_name column Trgm).

Definition generate_trigram_indexes (table_name : string) (columns : list ColumnDefinition) :
  list Ddl :=
  (λ c, trigram_index_create table_name (col_name c))
  <$> filter (λ c, requires_trigram_index c = true) columns.

Definition tsvector_index_create (table_name column : string) : Ddl :=
  CreateColumnIndex (column_index_name table_name column Fts) table_name column CiFts.

Definition tsvector_index_drop (table_name column : string) : Ddl :=
  DropIndex (column_index_name table_name column Fts).

Definition generate_tsvector_indexes (table_name : string) (columns : list ColumnDefinition) :
  list Ddl :=
  (λ c, tsvector_index_create table_name (col_name c))
  <$> filter (λ c, is_generated (column_type c) = true) columns.

Definition method_kind (m : VectorIndexMethod) : IndexKind :=
  match m with Hnsw => HnswKind | IvfFlat _ => IvfKind end.

Definition vector_index_create (table_name column : string) (m : VectorIndexMethod) : Ddl :=
  CreateColumnIndex (column_index_name table_name column (method_kind m)) table_name column
    (CiVector m).

(** The index method of a vector column that has one *)
Definition vector_index (t : ColumnType) : option VectorIndexMethod :=
  match t with CtVector _ m => m | _ => None end.

Definition generate_vector_indexes (table_name : string) (columns : list ColumnDefinition) :
  list Ddl :=
  omap (λ c, vector_index_create table_name (col_name c) <$> vector_index (column_type c)) columns.

Definition alter_index_rename (old_name new_name : string) : Ddl := RenameIndex old_name new_name.

Definition rename_column_indexes (table_name : string) (old_col : ColumnDefinition) (to : string) :
  list Ddl :=
  let from := col_name old_col in
  let rename k := alter_index_rename (column_index_name table_name from k)
                    (column_index_name table_name to k) in
  (if col_unique old_col then [rename UniqueLive] else [])
  ++ (if requires_trigram_index old_col then [rename Trgm] else [])
  ++ (if is_generated (column_type old_col) then [rename Fts] else [])
  ++ match vector_index (column_type old_col) with
     | Some m => [rename (method_kind m)]
     | None => []
     end.

(** [columns.iter().find(|c| c.name == name)] *)
Definition find_named (columns : list ColumnDefinition) (name : string) : option ColumnDefinition :=
  snd <$> list_find (λ c, col_name c = name) columns.

Definition has_named (columns : list ColumnDefinition) (name : string) : bool :=
  existsb (λ c, String.eqb (col_name c) name) columns.

Definition rename_from (renames : list ColumnRename) (name : string) : bool :=
  existsb (λ r, String.eqb (rename_source r) name) renames.

Definition rename_to (renames : list ColumnRename) (name : string) : bool :=
  existsb (λ r, String.eqb (rename_target r) name) renames.

(** The [HashMap] keeps the last rename to a name. *)
Definition rename_to_from (renames : list ColumnRename) (name : string) : option string :=
  rename_source <$> last (filter (λ r, rename_target r = name) renames).

Definition rename_statements (table_name : string) (old_columns : list ColumnDefinition)
  (r : ColumnRename) : list Ddl :=
  if decide (rename_source r = rename_target r) then []
  else
    match find_named old_columns (rename_source r) with
    | Some old_col => rename_column_indexes table_name old_col (rename_target r)
    | None => []
    end
    ++ [RenameColumn table_name (rename_source r) (rename_target r)].

Definition add_statements (table_name : string) (old_columns : list ColumnDefinition)
  (renames : list ColumnRename) (new_col : ColumnDefinition) : list Ddl :=
  if rename_to renames (col_name new_col) then []
  else if has_named old_columns (col_name new_col) then []
  else
    [AddColumn table_name (column_spec new_col)]
    ++ (if col_unique new_col then [unique_column_index_create table_name (col_name new_col)] else [])
    ++ (if requires_trigram_index new_col then [trigram_index_create table_name (col_name new_col)]
        else [])
    ++ (if is_generated (column_type new_col)
        then [tsvector_index_create table_name (col_name new_col)] else []).

Definition drop_statements (table_name : string) (new_columns : list ColumnDefinition)
  (renames : list ColumnRename) (old_col : ColumnDefinition) : list Ddl :=
  if rename_from renames (col_name old_col) then []
  else if has_named new_columns (col_name old_col) then []
  else
    (if col_unique old_col then [unique_column_index_drop table_name (col_name old_col)] else [])
    ++ (if requires_trigram_index old_col then [trigram_index_drop table_name (col_name old_col)]
        else [])
    ++ (if is_generated (column_type old_col)
        then [tsvector_index_drop table_name (col_name old_col)] else [])
    ++ [DropColumn table_name (col_name old_col)].

Definition old_match (old_columns : list ColumnDefinition) (renames : list ColumnRename)
  (name : string) : option ColumnDefinition :=
  match rename_to_from renames name with
  | Some from => find_named old_columns from
  | None => find_named old_columns name
  end.

Definition modify_statements (table_name : string) (old_col new_col : ColumnDefinition) : list Ddl :=
  let name := col_name new_col in
  (if decide (column_type old_col = column_type new_col) then []
   else [AlterType table_name name (sql_type (column_type new_col))])
  ++ (if decide (col_nullable old_col = col_nullable new_col) then []
      else [AlterNotNull table_name name (negb (col_nullable new_col))])
  ++ (if decide (default_value old_col = default_value new_col) then []
      else [AlterDefault table_name name (default_value new_col)])
  ++ (if decide (col_unique old_col = col_unique new_col) then []
      else if col_unique new_col then [unique_column_index_create table_name name]
      else [unique_column_index_drop table_name name]).

Definition generate_alter_table_with_renames (table_name : string)
  (old_columns new_columns : list ColumnDefinition) (renames : list ColumnRename) : list Ddl :=
  (renames ≫= rename_statements table_name old_columns)
  ++ (new_columns ≫= add_statements table_name old_columns renames)
  ++ (old_columns ≫= drop_statements table_name new_columns renames)
  ++ (new_columns ≫= λ new_col,
        match old_match old_columns renames (col_name new_col) with
        | Some old_col => modify_statements table_name old_col new_col
        | None => []
        end).

Definition generate_alter_table (table_name : string)
  (old_columns new_columns : list ColumnDefinition) : list Ddl :=
  generate_alter_table_with_renames table_name old_columns new_columns [].

Definition generate_drop_table (table_name : string) : Ddl := DropTable table_name.

Definition generate_create_index (table_name : string) (index : IndexDefinition) : Ddl :=
  CreateIndex (table_name +:+ "_" +:+ ix_name index) table_name (ix_columns index) (ix_unique index).

Definition generate_drop_index (table_name : string) (index : IndexDefinition) : Ddl :=
  DropIndex (table_name +:+ "_" +:+ ix_name index).

(** The index of this name is in the list, with the same definition. *)
Definition index_kept (index : IndexDefinition) (indexes : list IndexDefinition) : bool :=
  match list_find (λ i, ix_name i = ix_name index) indexes with
  | Some (_, i) => bool_decide (i = index)
  | None => false
  end.

Definition generate_alter_indexes (table_name : string) (old_indexes new_indexes : list IndexDefinition) :
  list Ddl :=
  (generate_drop_index table_name <$> filter (λ i, index_kept i new_indexes = false) old_indexes)
  ++ (generate_create_index table_name <$> filter (λ i, index_kept i old_indexes = false) new_indexes).

Definition generate_default_index (table_name : string) : Ddl :=
  CreateDefaultIndex ("idx_" +:+ table_name +:+ "_default") table_name.

(** ** The catalogue of the database *)

(** A column: its number, its type, the values its CHECK allows, the number of the column
    and the language it is generated from, NOT NULL and DEFAULT. *)
Record Attribute := {
  attnum : Z;
  storage : Storage;
  check_values : option (list string);
  generated : option (Z * string);
  not_null : bool;
  default_text : option string }.

Inductive IndexMethod :=
| OnColumn (i : ColumnIndex)
| OnCreatedAt
| Declared (unique : bool).

(** An index: the numbers of its columns, and of the column of its WHERE. *)
Record Index := {
  index_method : IndexMethod;
  keys : list Z;
  live_column : option Z }.

Record Table := {
  attributes : gmap string Attribute;
  table_indexes : gmap string Index;
  next_attnum : Z }.

Abbreviation Catalog := (gmap string Table).

Definition storage_valid (s : Storage) : bool :=
  match s with
  | PgNumeric precision _ => 1 <=? precision
  | PgVector dimension => (1 <=? dimension) && (dimension <=? 16000)
  | _ => true
  end.

Definition SYSTEM_COLUMNS : list string := ["tableoid"; "xmin"; "cmin"; "xmax"; "cmax"; "ctid"].

(** An identifier is cut after 63 bytes. *)
Definition pg_name (s : string) : string := String.substring 0 63 s.

Definition relation_exists (cat : Catalog) (name : string) : Prop :=
  is_Some (cat !! name) ∨ map_Exists (λ _ t, is_Some (table_indexes t !! name)) cat.

#[export] Instance relation_exists_dec cat name : Decision (relation_exists cat name).
Proof. unfold relation_exists. apply _. Defined.

(** Which types an index can be built on; pgvector indexes up to 2000 dimensions. *)
Definition index_accepts (m : IndexMethod) (s : Storage) : bool :=
  match m, s with
  | OnColumn CiTrigram, PgText => true
  | OnColumn CiTrigram, _ => false
  | OnColumn CiFts, PgTsvector => true
  | OnColumn CiFts, _ => false
  | OnColumn (CiVector _), PgVector dimension => dimension <=? 2000
  | OnColumn (CiVector _), _ => false
  | _, _ => true
  end.

(** [IF NOT EXISTS] *)
Definition skips_existing (i : ColumnIndex) : bool :=
  match i with CiUnique => false | _ => true end.

Section exec.
Context `{SqlTexts}.

(** The name in the CHECK of an enum column is not quoted. *)
Definition plain_name (name : string) : bool :=
  identifier_pattern name && negb (bool_decide (to_uppercase name ∈ POSTGRES_RESERVED_WORDS)).

Definition column_allowed (c : ColumnSpec) : bool :=
  storage_valid (st_storage (cs_type c))
  && negb (bool_decide (cs_name c ∈ SYSTEM_COLUMNS))
  && match st_check (cs_type c) with
     | Some values => plain_name (cs_name c) && negb (bool_decide (values = []))
     | None => true
     end.

(** The column number [num] of a table with these columns; a generated column reads a
    text column that is there, and has no DEFAULT. *)
Definition new_attribute (attrs : gmap string Attribute) (num : Z) (c : ColumnSpec) :
  option Attribute :=
  let plain :=
    {| attnum := num; storage := st_storage (cs_type c);
       check_values := st_check (cs_type c); generated := None;
       not_null := cs_not_null c; default_text := cs_default c |} in
  match cs_generated c with
  | Some (source_column, language) =>
      match attrs !! source_column with
      | Some a =>
          if decide (storage a = PgText ∧ cs_default c = None)
          then Some {| (plain) with generated := Some (attnum a, language) |}
          else None
      | None => None
      end
  | None => Some plain
  end.

Definition auto_attribute (num : Z) (s : Storage) (required : bool) (d : string) : Attribute :=
  {| attnum := num; storage := s; check_values := None; generated := None;
     not_null := required; default_text := Some d |}.

(** The columns of CREATE TABLE in order, generated columns left out at first. *)
Definition table_column (num : Z) (c : TableColumn) : option (string * option Attribute) :=
  match c with
  | IdColumn => Some ("id", Some (auto_attribute num PgVarchar true "gen_random_uuid()::text"))
  | UserColumn c =>
      if column_allowed c then
        Some (cs_name c,
              match cs_generated c with Some _ => None | None => new_attribute ∅ num c end)
      else None
  | CreatedAtColumn => Some ("created_at", Some (auto_attribute num PgTimestamptz false "NOW()"))
  | UpdatedAtColumn => Some ("updated_at", Some (auto_attribute num PgTimestamptz false "NOW()"))
  | DeletedColumn => Some ("deleted", Some (auto_attribute num PgBoolean false "FALSE"))
  end.

Fixpoint place_columns (num : Z) (cols : list TableColumn) (names : list string)
  (attrs : gmap string Attribute) : option (gmap string Attribute) :=
  match cols with
  | [] => Some attrs
  | c :: cols =>
      match table_column num c with
      | Some (name, a) =>
          if decide (name ∈ names) then None
          else place_columns (num + 1) cols (name :: names) (partial_alter (λ _, a) name attrs)
      | None => None
      end
  end.

Fixpoint generate_columns (num : Z) (cols : list TableColumn) (base attrs : gmap string Attribute) :
  option (gmap string Attribute) :=
  match cols with
  | [] => Some attrs
  | UserColumn c :: cols =>
      match cs_generated c with
      | Some _ =>
          match new_attribute base num c with
          | Some a => generate_columns (num + 1) cols base (<[cs_name c := a]> attrs)
          | None => None
          end
      | None => generate_columns (num + 1) cols base attrs
      end
  | _ :: cols => generate_columns (num + 1) cols base attrs
  end.

Definition create_table (cols : list TableColumn) : option Table :=
  base ← place_columns 1 cols [] ∅;
  attrs ← generate_columns 1 cols base base;
  Some {| attributes := attrs; table_indexes := ∅; next_attnum := 1 + Z.of_nat (length cols) |}.

Definition reads_from (num : Z) (attrs : gmap string Attribute) : Prop :=
  map_Exists (λ _ a, fst <$> generated a = Some num) attrs.

#[export] Instance reads_from_dec num attrs : Decision (reads_from num attrs).
Proof. unfold reads_from. apply _. Defined.

Definition mentions (num : Z) (i : Index) : Prop := num ∈ keys i ∨ live_column i = Some num.

#[export] Instance mentions_dec num i : Decision (mentions num i).
Proof. unfold mentions. apply _. Defined.

Definition add_column (c : ColumnSpec) (t : Table) : option Table :=
  if decide (is_Some (attributes t !! cs_name c)) then None
  else if column_allowed c then
    a ← new_attribute (attributes t) (next_attnum t) c;
    Some {| (t) with attributes := <[cs_name c := a]> (attributes t);
                     next_attnum := next_attnum t + 1 |}
  else None.

(** A column that a generated column reads is not dropped; its indexes go with it. *)
Definition drop_column (name : string) (t : Table) : option Table :=
  a ← attributes t !! name;
  if decide (reads_from (attnum a) (attributes t)) then None
  else
    Some {| (t) with attributes := delete name (attributes t);
                     table_indexes := filter (λ '(_, i), ¬ mentions (attnum a) i) (table_indexes t) |}.

Definition rename_column (name to : string) (t : Table) : option Table :=
  a ← attributes t !! name;
  if decide (is_Some (attributes t !! to) ∨ to ∈ SYSTEM_COLUMNS) then None
  else Some {| (t) with attributes := <[to := a]> (delete name (attributes t)) |}.

(** TYPE takes a type and no CHECK.  The old CHECK and the indexes stay and must accept
    the new type. *)
Definition alter_type (name : string) (ty : SqlType) (t : Table) : option Table :=
  a ← attributes t !! name;
  if decide (st_check ty ≠ None) then None
  else if negb (storage_valid (st_storage ty)) then None
  else if decide (reads_from (attnum a) (attributes t)) then None
  else if decide (check_values a ≠ None ∧ st_storage ty ≠ PgText) then None
  else if decide (map_Exists (λ _ i, attnum a ∈ keys i
                    ∧ index_accepts (index_method i) (st_storage ty) = false) (table_indexes t))
  then None
  else Some {| (t) with attributes := <[name := {| (a) with storage := st_storage ty |}]> (attributes t) |}.

Definition alter_not_null (name : string) (b : bool) (t : Table) : option Table :=
  a ← attributes t !! name;
  Some {| (t) with attributes := <[name := {| (a) with not_null := b |}]> (attributes t) |}.

Definition alter_default (name : string) (d : option string) (t : Table) : option Table :=
  a ← attributes t !! name;
  if decide (generated a ≠ None) then None
  else Some {| (t) with attributes := <[name := {| (a) with default_text := d |}]> (attributes t) |}.

Definition on_table (f : Table → option Table) (table : string) (cat : Catalog) : option Catalog :=
  t ← cat !! table; t' ← f t; Some (<[table := t']> cat).

(** The index [m] on the named columns, under [name] *)
Definition create_index (name table : string) (cols : list string) (m : IndexMethod) (live : bool)
  (if_not_exists : bool) (cat : Catalog) : option Catalog :=
  t ← cat !! table;
  attrs ← mapM (λ c, attributes t !! c) cols;
  live_attr ← (if live then Some <$> attributes t !! "deleted" else Some None);
  if decide (cols = []) then None
  else if negb (forallb (λ a, index_accepts m (storage a)) attrs) then None
  else if decide (relation_exists cat name) then (if if_not_exists then Some cat else None)
  else
    Some (<[table := {| (t) with table_indexes :=
                          <[name := {| index_method := m; keys := attnum <$> attrs;
                                       live_column := attnum <$> live_attr |}]> (table_indexes t) |}]> cat).

(** The key [name] of a map, moved to [to] *)
Definition move_key {A} (name to : string) (m : gmap string A) : gmap string A :=
  match m !! name with
  | Some a => <[to := a]> (delete name m)
  | None => m
  end.

Definition exec_read (s : Ddl) (cat : Catalog) : option Catalog :=
  match s with
  | CreateTable table cols =>
      if decide (relation_exists cat table) then None
      else t ← create_table cols; Some (<[table := t]> cat)
  | DropTable table =>
      if decide (map_Exists (λ _ t, is_Some (table_indexes t !! table)) cat) then None
      else Some (delete table cat)
  | RenameTable table to =>
      t ← cat !! table;
      if decide (relation_exists cat to) then None else Some (<[to := t]> (delete table cat))
  | AddColumn table c => on_table (add_column c) table cat
  | DropColumn table column => on_table (drop_column column) table cat
  | RenameColumn table column to => on_table (rename_column column to) table cat
  | AlterType table column ty => on_table (alter_type column ty) table cat
  | AlterNotNull table column b => on_table (alter_not_null column b) table cat
  | AlterDefault table column d => on_table (alter_default column d) table cat
  | CreateColumnIndex name table column i =>
      create_index name table [column] (OnColumn i) true (skips_existing i) cat
  | CreateDefaultIndex name table =>
      create_index name table ["created_at"] OnCreatedAt true false cat
  | CreateIndex name table cols unique =>
      create_index name table cols (Declared unique) unique false cat
  | DropIndex name =>
      if decide (is_Some (cat !! name)) then None
      else Some ((λ t, {| (t) with table_indexes := delete name (table_indexes t) |}) <$> cat)
  | RenameIndex name to =>
      if decide (is_Some (cat !! name)) then None
      else if decide (map_Exists (λ _ t, is_Some (table_indexes t !! name)) cat) then
        if decide (relation_exists cat to) then None
        else Some ((λ t, {| (t) with table_indexes := move_key name to (table_indexes t) |}) <$> cat)
      else Some cat
  end.

(** The identifiers of a statement, as the database reads them *)
Definition read_column (c : ColumnSpec) : ColumnSpec :=
  {| (c) with cs_name := pg_name (cs_name c);
              cs_generated := (λ '(source, language), (pg_name source, language)) <$> cs_generated c |}.

Definition read_table_column (c : TableColumn) : TableColumn :=
  match c with UserColumn c => UserColumn (read_column c) | _ => c end.

Definition read_ddl (s : Ddl) : Ddl :=
  match s with
  | CreateTable table cols => CreateTable (pg_name table) (read_table_column <$> cols)
  | DropTable table => DropTable (pg_name table)
  | RenameTable table to => RenameTable (pg_name table) (pg_name to)
  | AddColumn table c => AddColumn (pg_name table) (read_column c)
  | DropColumn table column => DropColumn (pg_name table) (pg_name column)
  | RenameColumn table column to => RenameColumn (pg_name table) (pg_name column) (pg_name to)
  | AlterType table column ty => AlterType (pg_name table) (pg_name column) ty
  | AlterNotNull table column b => AlterNotNull (pg_name table) (pg_name column) b
  | AlterDefault table column d => AlterDefault (pg_name table) (pg_name column) d
  | CreateColumnIndex name table column i =>
      CreateColumnIndex (pg_name name) (pg_name table) (pg_name column) i
  | CreateDefaultIndex name table => CreateDefaultIndex (pg_name name) (pg_name table)
  | CreateIndex name table cols unique =>
      CreateIndex (pg_name name) (pg_name table) (pg_name <$> cols) unique
  | DropIndex name => DropIndex (pg_name name)
  | RenameIndex name to => RenameIndex (pg_name name) (pg_name to)
  end.

Definition exec (s : Ddl) (cat : Catalog) : option Catalog := exec_read (read_ddl s) cat.

Fixpoint exec_all (ss : list Ddl) (cat : Catalog) : option Catalog :=
  match ss with
  | [] => Some cat
  | s :: ss => cat' ← exec s cat; exec_all ss cat'
  end.

End exec.

(** ** store.rs: schemas *)

Inductive StoreError :=
| SchemaNotFound (name : string)
| StoreConflict (message : string)
| StoreValidation (message : string)
| StoreDatabase (message : string)
| StoreSql (message : string).

(** A row of the metadata table *)
Record MetaRow := {
  meta_schema : ObjectSchema;
  meta_description : option string;
  meta_deleted : bool }.

Record Store := {
  meta_rows : list MetaRow;
  catalog : Catalog }.

Record CreateSchemaRequest := {
  cr_name : string;
  cr_description : option string;
  cr_table_name : string;
  cr_columns : list ColumnDefinition;
  cr_indexes : option (list IndexDefinition) }.

Record UpdateSchemaRequest := {
  ur_name : option string;
  ur_description : option string;
  ur_columns : option (list ColumnDefinition);
  ur_indexes : option (list IndexDefinition);
  ur_column_renames : list ColumnRename;
  ur_allow_destructive : bool }.

(** [WHERE name = $1 AND deleted = FALSE] *)
Definition live_named (name : string) (r : MetaRow) : bool :=
  negb (meta_deleted r) && String.eqb (os_name (meta_schema r)) name.

Definition get_schema_uncached (name : string) (st : Store) : option ObjectSchema :=
  meta_schema <$> List.find (live_named name) (meta_rows st).

(** The UNIQUE constraints of the metadata table *)
Definition meta_unique (rows : list MetaRow) : Prop :=
  NoDup ((os_name ∘ meta_schema) <$> rows) ∧ NoDup ((table_name ∘ meta_schema) <$> rows).

#[export] Instance meta_unique_dec rows : Decision (meta_unique rows).
Proof. unfold meta_unique. apply _. Defined.

Definition write_rows (rows : list MetaRow) (st : Store) : result StoreError Store :=
  if decide (meta_unique rows) then Ok {| meta_rows := rows; catalog := catalog st |}
  else Err (StoreSql "duplicate key value violates unique constraint").

Section store.
Context `{SqlTexts}.

(** The statements the data of the tables makes the database refuse *)
Variable refuses : Ddl → bool.

Definition execute (s : Ddl) (st : Store) : result StoreError Store :=
  match (if refuses s then None else exec s (catalog st)) with
  | Some cat => Ok {| meta_rows := meta_rows st; catalog := cat |}
  | None => Err (StoreSql (ddl_text s))
  end.

Fixpoint execute_all (ss : list Ddl) (st : Store) : result StoreError Store :=
  match ss with
  | [] => Ok st
  | s :: ss => st' ← execute s st; execute_all ss st'
  end.

(** A transaction: an error leaves the store as it was. *)
Definition transaction {A} (st : Store) (r : result StoreError (A * Store)) :
  result StoreError A * Store :=
  match r with
  | Ok (a, st') => (Ok a, st')
  | Err e => (Err e, st)
  end.

Definition table_exists (st : Store) (name : string) : bool :=
  bool_decide (is_Some (catalog st !! name)).

Definition tombstone_name (kind uuid : string) : string := "__deleted_" +:+ kind +:+ "_" +:+ uuid.

(** One deleted row that is in the way, moved to names of its own *)
Definition tombstone_row (id old_table_name name table : string) (st : Store) :
  result StoreError Store :=
  st' ← (if table_exists st old_table_name then execute (RenameTable old_table_name table) st else Ok st);
  write_rows
    ((λ r, if String.eqb (os_id (meta_schema r)) id then
             {| (r) with meta_schema :=
                  {| (meta_schema r) with os_name := name; table_name := table |} |}
           else r) <$> meta_rows st') st'.

Fixpoint tombstone_rows (rows : list MetaRow) (uuids : nat → string) (n : nat) (st : Store) :
  result StoreError Store :=
  match rows with
  | [] => Ok st
  | r :: rows =>
      st' ← tombstone_row (os_id (meta_schema r)) (table_name (meta_schema r))
              (tombstone_name "schema" (uuids n)) (tombstone_name "table" (uuids (S n))) st;
      tombstone_rows rows uuids (S (S n)) st'
  end.

Definition tombstone_deleted_schema_rows (name table : string) (uuids : nat → string) (st : Store) :
  result StoreError Store :=
  tombstone_rows
    (List.filter (λ r, meta_deleted r && (String.eqb (os_name (meta_schema r)) name
                                          || String.eqb (table_name (meta_schema r)) table))
       (meta_rows st)) uuids 1 st.

(** The statements of a new schema, in the order they are executed *)
Definition create_statements (config : StoreConfig) (request : CreateSchemaRequest) : list Ddl :=
  let t := cr_table_name request in
  let cols := cr_columns request in
  [generate_create_table config t cols; generate_default_index t]
  ++ generate_unique_column_indexes t cols
  ++ generate_trigram_indexes t cols
  ++ generate_tsvector_indexes t cols
  ++ generate_vector_indexes t cols
  ++ (generate_create_index t <$> default [] (cr_indexes request)).

(** [uuids 0] is the id of the schema, the others are for the tombstones. *)
Definition create_schema (config : StoreConfig) (request : CreateSchemaRequest) (uuids : nat → string)
  (st : Store) : result StoreError ObjectSchema * Store :=
  transaction st
    (if existsb (live_named (cr_name request)) (meta_rows st) then
       Err (StoreConflict ("Schema '" +:+ cr_name request +:+ "' already exists"))
     else if existsb (λ r, negb (meta_deleted r)
                           && String.eqb (table_name (meta_schema r)) (cr_table_name request))
               (meta_rows st) then
       Err (StoreConflict ("Table '" +:+ cr_table_name request +:+ "' already exists"))
     else
       st ← tombstone_deleted_schema_rows (cr_name request) (cr_table_name request) uuids st;
       let schema :=
         {| os_id := uuids 0%nat; os_name := cr_name request; table_name := cr_table_name request;
            columns := cr_columns request; indexes := cr_indexes request |} in
       st ← write_rows (meta_rows st ++ [{| meta_schema := schema;
                                            meta_description := cr_description request;
                                            meta_deleted := false |}]) st;
       st ← execute_all (create_statements config request) st;
       Ok (schema, st)).

(** The checks of the declared renames *)
Fixpoint check_renames (schema : ObjectSchema) (new_columns : list ColumnDefinition)
  (renames : list ColumnRename) : result StoreError unit :=
  match renames with
  | [] => Ok tt
  | r :: rest =>
      if decide (rename_source r = rename_target r) then check_renames schema new_columns rest
      else if negb (has_named (columns schema) (rename_source r)) then
        Err (StoreValidation ("column rename source '" +:+ rename_source r
                              +:+ "' does not exist on schema '" +:+ os_name schema +:+ "'"))
      else if negb (has_named new_columns (rename_target r)) then
        Err (StoreValidation ("column rename target '" +:+ rename_target r
                              +:+ "' is not present in the new column list"))
      else if has_named (columns schema) (rename_target r) then
        Err (StoreValidation ("column rename target '" +:+ rename_target r
                              +:+ "' already exists on schema '" +:+ os_name schema +:+ "'"))
      else check_renames schema new_columns rest
  end.

(** [before] are the renames in front of these. *)
Fixpoint check_rename_duplicates (before renames : list ColumnRename) : result StoreError unit :=
  match renames with
  | [] => Ok tt
  | r :: rest =>
      if rename_from before (rename_source r) then
        Err (StoreValidation ("duplicate column rename source '" +:+ rename_source r +:+ "'"))
      else if rename_to before (rename_target r) then
        Err (StoreValidation ("duplicate column rename target '" +:+ rename_target r +:+ "'"))
      else check_rename_duplicates (before ++ [r]) rest
  end.

Definition dropped_columns (old_columns new_columns : list ColumnDefinition)
  (renames : list ColumnRename) : list string :=
  col_name <$> filter (λ c, rename_from renames (col_name c) = false
                            ∧ has_named new_columns (col_name c) = false) old_columns.

Definition check_destructive (schema : ObjectSchema) (new_columns : list ColumnDefinition)
  (renames : list ColumnRename) : result StoreError unit :=
  let dropped := dropped_columns (columns schema) new_columns renames in
  if decide (dropped = []) then Ok tt
  else
    Err (StoreValidation
           ("update would drop column(s) [" +:+ join ", " dropped +:+ "] on schema '"
            +:+ os_name schema +:+ "', losing their data; declare a rename via `column_renames` "
            +:+ "or set `allow_destructive = true` to proceed")).

Definition verify_table_has_expected_columns (table : string) (columns : list ColumnDefinition)
  (st : Store) : result StoreError unit :=
  let expected := col_name <$> filter (λ c, is_generated (column_type c) = false) columns in
  let present name :=
    match catalog st !! table with
    | Some t => match attributes t !! name with
                | Some a => bool_decide (generated a = None)
                | None => false
                end
    | None => false
    end in
  let missing := filter (λ n, present n = false) expected in
  if decide (missing = []) then Ok tt
  else
    Err (StoreDatabase ("schema update verification failed for table '" +:+ table
                        +:+ "': missing expected columns: "
                        +:+ join ", " (sorted (elements (list_to_set missing : gset string))))).

(** What an update of the columns must pass before its first statement *)
Definition check_update (existing : ObjectSchema) (new_columns : list ColumnDefinition)
  (request : UpdateSchemaRequest) : result StoreError unit :=
  _ ← check_renames existing new_columns (ur_column_renames request);
  _ ← check_rename_duplicates [] (ur_column_renames request);
  if ur_allow_destructive request then Ok tt
  else check_destructive existing new_columns (ur_column_renames request).

Definition alter_columns (existing : ObjectSchema) (request : UpdateSchemaRequest) (st : Store) :
  result StoreError Store :=
  match ur_columns request with
  | None => Ok st
  | Some new_columns =>
      _ ← check_update existing new_columns request;
      execute_all (generate_alter_table_with_renames (table_name existing) (columns existing)
                     new_columns (ur_column_renames request)) st
  end.

Definition updated_schema (existing : ObjectSchema) (request : UpdateSchemaRequest) : ObjectSchema :=
  {| os_id := os_id existing;
     os_name := default (os_name existing) (ur_name request);
     table_name := table_name existing;
     columns := default (columns existing) (ur_columns request);
     indexes := match ur_indexes request with Some ix => Some ix | None => indexes existing end |}.

(** The UPDATE of the metadata row *)
Definition update_row (name : string) (schema : ObjectSchema) (description : option string)
  (rows : list MetaRow) : list MetaRow :=
  (λ r, if live_named name r then
          {| meta_schema := schema;
             meta_description := match description with Some d => Some d
                                 | None => meta_description r end;
             meta_deleted := false |}
        else r) <$> rows.

Definition update_schema (name : string) (request : UpdateSchemaRequest) (st : Store) :
  result StoreError ObjectSchema * Store :=
  match get_schema_uncached name st with
  | None => (Err (SchemaNotFound name), st)
  | Some existing =>
      transaction st
        (st ← alter_columns existing request st;
         st ← match ur_indexes request with
              | Some new_indexes =>
                  execute_all (generate_alter_indexes (table_name existing)
                                 (default [] (indexes existing)) new_indexes) st
              | None => Ok st
              end;
         let schema := updated_schema existing request in
         st ← write_rows (update_row name schema (ur_description request) (meta_rows st)) st;
         _ ← (if decide (ur_columns request = None) then Ok tt
              else verify_table_has_expected_columns (table_name schema) (columns schema) st);
         Ok (schema, st))
  end.

(** No transaction: a DROP TABLE stays when the DELETE after it fails. *)
Definition delete_schema (config : StoreConfig) (name : string) (st : Store) :
  result StoreError unit * Store :=
  match get_schema_uncached name st with
  | None => (Err (SchemaNotFound name), st)
  | Some schema =>
      if soft_delete config then
        (Ok tt,
         {| meta_rows := (λ r, if live_named name r then {| (r) with meta_deleted := true |} else r)
                         <$> meta_rows st;
            catalog := catalog st |})
      else
        match execute (generate_drop_table (table_name schema)) st with
        | Ok st' =>
            (Ok tt,
             {| meta_rows := List.filter (λ r, negb (String.eqb (os_name (meta_schema r)) name))
                               (meta_rows st');
                catalog := catalog st' |})
        | Err e => (Err e, st)
        end
  end.

End store.

(** ** schema_validator.rs of the server *)

Definition AUTO_MANAGED_COLUMNS : list string :=
  ["id"; "created_at"; "updated_at"; "deleted"; "tenant_id"].

Inductive SchemaValidationError :=
| InvalidTableName (message : string)
| InvalidColumnName (message : string)
| UnsupportedType (message : string)
| DuplicateColumn (name : string)
| NoColumns
| InvalidIndex (message : string)
| IndexColumnNotFound (name : string).

Definition map_err {E F A} (f : E → F) (r : result E A) : result F A :=
  match r with Ok a => Ok a | Err e => Err (f e) end.

Definition is_text_type (t : ColumnType) : bool :=
  match t with CtString | CtEnum _ => true | _ => false end.

Section validator.
Context `{SqlTexts}.

Definition validate_table_name (name : string) : result SchemaValidationError unit :=
  map_err InvalidTableName (validate_identifier name []).

Definition validate_enum (values : list string) : result SchemaValidationError unit :=
  if decide (values = []) then Err (UnsupportedType "Enum type must have at least one value")
  else
    match List.find (λ v, contains v "'") values with
    | Some v =>
        Err (UnsupportedType ("Enum value '" +:+ v +:+ "' contains invalid character: '"))
    | None => Ok tt
    end.

Definition validate_vector (name : string) (dimension : Z) (m : option VectorIndexMethod) :
  result SchemaValidationError unit :=
  if (dimension =? 0) || (16000 <? dimension) then
    Err (UnsupportedType ("Vector column '" +:+ name +:+ "' dimension " +:+ show_Z dimension
                          +:+ " is out of range; pgvector supports 1..=16000"))
  else
    match m with
    | Some (IvfFlat lists) =>
        if lists =? 0 then
          Err (UnsupportedType ("Vector column '" +:+ name
                                +:+ "' IVFFlat index requires lists > 0"))
        else Ok tt
    | _ => Ok tt
    end.

(** [seen] are the names of the columns in front. *)
Definition validate_column (col : ColumnDefinition) (seen : list string) :
  result SchemaValidationError unit :=
  _ ← map_err InvalidColumnName (validate_identifier (col_name col) AUTO_MANAGED_COLUMNS);
  if decide (col_name col ∈ seen) then Err (DuplicateColumn (col_name col))
  else
    _ ← match column_type col with
        | CtEnum values => validate_enum values
        | CtVector dimension m => validate_vector (col_name col) dimension m
        | _ => Ok tt
        end;
    if requires_trigram_index col && negb (is_text_type (column_type col)) then
      Err (UnsupportedType
             ("Trigram text index is only supported on string/enum columns; column '"
              +:+ col_name col +:+ "' has type " +:+ debug_column_type (column_type col)))
    else Ok tt.

Fixpoint validate_columns (cols : list ColumnDefinition) (seen : list string) :
  result SchemaValidationError unit :=
  match cols with
  | [] => Ok tt
  | c :: cols => _ ← validate_column c seen; validate_columns cols (col_name c :: seen)
  end.

Definition validate_source (cols : list ColumnDefinition) (c : ColumnDefinition) :
  result SchemaValidationError unit :=
  match column_type c with
  | CtTsvector source_column language =>
      if is_empty_str (trim language) then
        Err (UnsupportedType ("Tsvector column '" +:+ col_name c +:+ "' has an empty language"))
      else
        match find_named cols source_column with
        | None =>
            Err (UnsupportedType ("Tsvector column '" +:+ col_name c
                                  +:+ "' references unknown source column '" +:+ source_column
                                  +:+ "'"))
        | Some s =>
            if is_text_type (column_type s) then Ok tt
            else
              Err (UnsupportedType ("Tsvector column '" +:+ col_name c +:+ "' source '"
                                    +:+ source_column +:+ "' must be a string/enum column, got "
                                    +:+ debug_column_type (column_type s)))
        end
  | _ => Ok tt
  end.

(** [for x in xs { f(x)?; }] *)
Fixpoint each {A E} (f : A → result E unit) (xs : list A) : result E unit :=
  match xs with [] => Ok tt | x :: xs => _ ← f x; each f xs end.

Definition validate_cross_column (cols : list ColumnDefinition) : result SchemaValidationError unit :=
  each (validate_source cols) cols.

Definition validate_index (index : IndexDefinition) (cols : list ColumnDefinition) :
  result SchemaValidationError unit :=
  if is_empty_str (ix_name index) then Err (InvalidIndex "Index name cannot be empty")
  else
    _ ← map_err InvalidIndex (validate_identifier (ix_name index) []);
    if decide (ix_columns index = []) then
      Err (InvalidIndex "Index must reference at least one column")
    else
      match List.find (λ n, negb (has_named cols n)) (ix_columns index) with
      | Some n => Err (IndexColumnNotFound n)
      | None => Ok tt
      end.

Fixpoint validate_indexes (ixs : list IndexDefinition) (seen : list string)
  (cols : list ColumnDefinition) : result SchemaValidationError unit :=
  match ixs with
  | [] => Ok tt
  | i :: ixs =>
      if decide (ix_name i ∈ seen) then
        Err (InvalidIndex ("Duplicate index name: " +:+ ix_name i))
      else _ ← validate_index i cols; validate_indexes ixs (ix_name i :: seen) cols
  end.

Definition validate_schema (table : string) (cols : list ColumnDefinition)
  (ixs : option (list IndexDefinition)) : result SchemaValidationError unit :=
  _ ← validate_table_name table;
  if decide (cols = []) then Err NoColumns
  else
    _ ← validate_columns cols [];
    _ ← validate_cross_column cols;
    match ixs with
    | Some l => validate_indexes l [] cols
    | None => Ok tt
    end.

End validator.
