(* ===== verification/GuestManifest.v ===== *)
(** * runtara-workflow-stdlib: the manifest of a compiled workflow

    [direct_json.rs]: the tables [DirectJsonManifest::parse] collects from the graphs of
    a workflow (lines 332 to 445, 3664 to 3885 and 6816 to 7118), the caches of compiled
    conditions and mappings, and the methods that map inputs, decide conditions and run
    the Filter, Switch, GroupBy and Delay steps.

    A [BTreeMap] is a [gmap], iterated in the order of its keys.  The wire structures are
    the ids of the entries beside the entries; decoding them is serde's.  The texts of
    serde's errors and [String::from_utf8_lossy] are parameters.  The recursion of
    [resolve_nested_references] follows references found in the data, so it has fuel. *)

From S2P Require Import Prelude.
From S2P Require Import Json.
From S2P Require Import Text.
From S2P Require Import Float64.
From S2P Require Import InstanceHandlers.
From S2P Require Import GuestStore.
From S2P Require Import GuestPaths.
From S2P Require Import GuestExpr.
From S2P Require Import GuestCompiled.
From S2P Require Import GuestSteps.
From S2P Require Import Schemas.

(** ** Tables *)

Record DirectJsonMapping := {
  mapping_step_id : string;
  mapping_purpose : string;
  mapping_value : json }.

Record DirectJsonCondition := {
  condition_owner_id : string;
  condition_purpose : string;
  condition_value : json }.

Record DirectJsonSplit := {
  split_step_id : string;
  split_name : option string;
  split_value : json;
  split_input_schema : json;
  split_output_schema : json }.

Record DirectJsonWhile := {
  while_step_id : string;
  while_name : option string;
  while_value : json;
  while_condition_raw : json }.

Record DirectJsonStep := {
  step_id : string;
  step_type : string;
  step_name : option string;
  step_body : json }.

Record DirectJsonChildWorkflow := {
  child_step_id : string;
  child_workflow_id : string;
  child_variables : json;
  child_input_schema : json }.

(** [DirectJsonFilter], [DirectJsonSwitch], [DirectJsonGroupBy], [DirectJsonLog] and
    [DirectJsonError], which have the same fields. *)
Record DirectJsonConfig := {
  config_step_id : string;
  config_name : option string;
  config_value : json }.

Record DirectJsonDelay := {
  delay_step_id : string;
  delay_name : option string;
  duration_ms : json }.

Record DirectJsonRequiredAgentInput := {
  required_name : string;
  required_field_type : string;
  required_description : option string }.

Record DirectJsonAgent := {
  agent_step_id : string;
  agent_name : option string;
  agent_id : string;
  capability_id : string;
  agent_connection_id : option string;
  agent_connection_ref : option json;
  input_mapping_id : Z;
  required_inputs : list DirectJsonRequiredAgentInput }.

(** [DirectJsonManifestCollections], the tables of [DirectJsonManifest] *)
Record DirectJsonManifest := {
  steps : gmap string DirectJsonStep;
  child_workflows : gmap string DirectJsonChildWorkflow;
  mappings : gmap Z DirectJsonMapping;
  conditions : gmap Z DirectJsonCondition;
  splits : gmap Z DirectJsonSplit;
  whiles : gmap Z DirectJsonWhile;
  filters : gmap Z DirectJsonConfig;
  switches : gmap Z DirectJsonConfig;
  group_bys : gmap Z DirectJsonConfig;
  delays : gmap Z DirectJsonDelay;
  logs : gmap Z DirectJsonConfig;
  errors : gmap Z DirectJsonConfig;
  agents : gmap Z DirectJsonAgent }.

Definition no_collections : DirectJsonManifest :=
  {| steps := ∅; child_workflows := ∅; mappings := ∅; conditions := ∅; splits := ∅; whiles := ∅;
     filters := ∅; switches := ∅; group_bys := ∅; delays := ∅; logs := ∅; errors := ∅; agents := ∅ |}.

(** ** The wire form *)

Record GraphParts := {
  wire_variables : json;
  wire_input_schema : json;
  wire_mappings : list (Z * DirectJsonMapping);
  wire_conditions : list (Z * DirectJsonCondition);
  wire_splits : list (Z * DirectJsonSplit);
  wire_whiles : list (Z * DirectJsonWhile);
  wire_filters : list (Z * DirectJsonConfig);
  wire_switches : list (Z * DirectJsonConfig);
  wire_group_bys : list (Z * DirectJsonConfig);
  wire_delays : list (Z * DirectJsonDelay);
  wire_logs : list (Z * DirectJsonConfig);
  wire_errors : list (Z * DirectJsonConfig);
  wire_agents : list (Z * DirectJsonAgent) }.

(** The parts of a graph, and its steps with their nested graphs. *)
#[warnings="-register-all"]
Inductive GraphWire :=
| Wire (parts : GraphParts) (wire_steps : list (DirectJsonStep * list GraphWire)).

Record ChildWorkflowWire := {
  cw_step_id : string;
  cw_workflow_id : string;
  cw_graph : GraphWire }.

Record ManifestWire := {
  mw_graph : GraphWire;
  mw_child_workflows : list ChildWorkflowWire }.

(** The entries of one kind; an id that is there already is an error. *)
Fixpoint collect_entries {A} (kind : string) (l : list (Z * A)) (m : gmap Z A) :
  result string (gmap Z A) :=
  match l with
  | [] => Ok m
  | (id, a) :: l =>
      match m !! id with
      | Some _ => Err ("duplicate direct " +:+ kind +:+ " id " +:+ show_Z id)
      | None => collect_entries kind l (<[id := a]> m)
      end
  end.

(** [steps.entry(id).or_insert_with(...)] *)
Definition collect_step (step : DirectJsonStep) (m : gmap string DirectJsonStep) :
  gmap string DirectJsonStep :=
  match m !! step_id step with Some _ => m | None => <[step_id step := step]> m end.

Definition collect_parts (parts : GraphParts) (graph_steps : list DirectJsonStep)
  (c : DirectJsonManifest) : result string DirectJsonManifest :=
  let steps' := foldl (λ m step, collect_step step m) (steps c) graph_steps in
  mappings' ← collect_entries "mapping" (wire_mappings parts) (mappings c);
  conditions' ← collect_entries "condition" (wire_conditions parts) (conditions c);
  splits' ← collect_entries "Split" (wire_splits parts) (splits c);
  whiles' ← collect_entries "While" (wire_whiles parts) (whiles c);
  filters' ← collect_entries "Filter" (wire_filters parts) (filters c);
  switches' ← collect_entries "Switch" (wire_switches parts) (switches c);
  group_bys' ← collect_entries "GroupBy" (wire_group_bys parts) (group_bys c);
  delays' ← collect_entries "Delay" (wire_delays parts) (delays c);
  logs' ← collect_entries "Log" (wire_logs parts) (logs c);
  errors' ← collect_entries "Error" (wire_errors parts) (errors c);
  agents' ← collect_entries "Agent" (wire_agents parts) (agents c);
  Ok {| steps := steps'; child_workflows := child_workflows c; mappings := mappings';
        conditions := conditions'; splits := splits'; whiles := whiles'; filters := filters';
        switches := switches'; group_bys := group_bys'; delays := delays'; logs := logs';
        errors := errors'; agents := agents' |}.

Fixpoint collect_graph_manifest (graph : GraphWire) (c : DirectJsonManifest) {struct graph} :
  result string DirectJsonManifest :=
  match graph with
  | Wire parts wire_steps =>
      c ← collect_parts parts (List.map fst wire_steps) c;
      (fix each_step (l : list (DirectJsonStep * list GraphWire)) (c : DirectJsonManifest) :=
         match l with
         | [] => Ok c
         | (_, nested) :: l =>
             c ← (fix each_graph (l : list GraphWire) (c : DirectJsonManifest) :=
                    match l with
                    | [] => Ok c
                    | graph :: l => c ← collect_graph_manifest graph c; each_graph l c
                    end) nested c;
             each_step l c
         end) wire_steps c
  end.

Definition graph_parts (graph : GraphWire) : GraphParts :=
  match graph with Wire parts _ => parts end.

Fixpoint collect_children (children : list ChildWorkflowWire) (c : DirectJsonManifest) :
  result string DirectJsonManifest :=
  match children with
  | [] => Ok c
  | child :: children =>
      match child_workflows c !! cw_step_id child with
      | Some _ =>
          Err ("duplicate direct child workflow step id '" +:+ cw_step_id child +:+ "'")
      | None =>
          let entry :=
            {| child_step_id := cw_step_id child; child_workflow_id := cw_workflow_id child;
               child_variables := wire_variables (graph_parts (cw_graph child));
               child_input_schema := wire_input_schema (graph_parts (cw_graph child)) |} in
          c ← collect_graph_manifest (cw_graph child)
                {| (c) with child_workflows := <[cw_step_id child := entry]> (child_workflows c) |};
          collect_children children c
      end
  end.

(** [DirectJsonManifest::parse] of a decoded manifest. *)
Definition parse_manifest (manifest : ManifestWire) : result string DirectJsonManifest :=
  c ← collect_graph_manifest (mw_graph manifest) no_collections;
  collect_children (mw_child_workflows manifest) c.

(** ** Bytes *)

(** The texts of serde_json's errors, and [String::from_utf8_lossy]. *)
Class SerdeText := {
  from_slice_error : bytes → string;
  to_vec_error : json → string;
  from_utf8_lossy : bytes → string }.

Section bytes.
Context `{Ext, SerdeText}.

(** [serde_json::from_slice] and [serde_json::to_vec], with the message of the caller. *)
Definition from_slice (what : string) (b : bytes) : result string json :=
  match json_from_slice b with
  | Some v => Ok v
  | None => Err ("failed to parse " +:+ what +:+ ": " +:+ from_slice_error b)
  end.

Definition to_vec (what : string) (v : json) : result string bytes :=
  match json_to_vec v with
  | Some b => Ok b
  | None => Err ("failed to serialize " +:+ what +:+ ": " +:+ to_vec_error v)
  end.
End bytes.

(** [self.table.get(&id).ok_or_else(...)] *)
Definition get_entry {A} (kind : string) (id : Z) (m : gmap Z A) : result string A :=
  match m !! id with
  | Some a => Ok a
  | None => Err ("unknown direct " +:+ kind +:+ " id " +:+ show_Z id)
  end.

(** [self.table.values().find(...)] *)
Definition find_value {A} (p : A → bool) (m : gmap Z A) : option A :=
  List.find p (order_by fst (map_to_list m)).*2.

Definition finish_mapping (M : DirectJsonManifest) (id : string) : option DirectJsonMapping :=
  find_value (λ x, bool_decide (mapping_step_id x = id)
                   && bool_decide (mapping_purpose x = "finish.inputMapping")) (mappings M).

Definition embed_workflow_mapping (M : DirectJsonManifest) (id : string) : option DirectJsonMapping :=
  find_value (λ x, bool_decide (mapping_step_id x = id)
                   && bool_decide (mapping_purpose x = "embedWorkflow.inputMapping")) (mappings M).

Definition conditional_condition (M : DirectJsonManifest) (id : string) : option json :=
  condition_value <$>
    find_value (λ x, bool_decide (condition_owner_id x = id)
                     && bool_decide (condition_purpose x = "conditional.condition")) (conditions M).

Definition config_by_step (table : gmap Z DirectJsonConfig) (id : string) : option DirectJsonConfig :=
  find_value (λ x, bool_decide (config_step_id x = id)) table.

Definition split_by_step (M : DirectJsonManifest) (id : string) : option DirectJsonSplit :=
  find_value (λ x, bool_decide (split_step_id x = id)) (splits M).

Definition while_by_step (M : DirectJsonManifest) (id : string) : option DirectJsonWhile :=
  find_value (λ x, bool_decide (while_step_id x = id)) (whiles M).

Definition delay_by_step (M : DirectJsonManifest) (id : string) : option DirectJsonDelay :=
  find_value (λ x, bool_decide (delay_step_id x = id)) (delays M).

Definition agent_by_step (M : DirectJsonManifest) (id : string) : option DirectJsonAgent :=
  find_value (λ x, bool_decide (agent_step_id x = id)) (agents M).

(** A step that must have the type [kind]. *)
Definition typed_step (M : DirectJsonManifest) (kind id : string) : result string DirectJsonStep :=
  match steps M !! id with
  | None => Err ("unknown direct " +:+ kind +:+ " step '" +:+ id +:+ "'")
  | Some step =>
      if decide (step_type step = kind) then Ok step
      else Err ("direct step '" +:+ id +:+ "' is " +:+ step_type step +:+ ", not " +:+ kind)
  end.

Definition wait_step (M : DirectJsonManifest) (id : string) : result string DirectJsonStep :=
  typed_step M "WaitForSignal" id.

Definition embed_workflow_step (M : DirectJsonManifest) (id : string) :
  result string DirectJsonStep := typed_step M "EmbedWorkflow" id.

Definition child_workflow (M : DirectJsonManifest) (id : string) :
  result string DirectJsonChildWorkflow :=
  match child_workflows M !! id with
  | Some child => Ok child
  | None => Err ("missing direct child workflow graph for step '" +:+ id +:+ "'")
  end.

(** ** Step outputs *)

Definition opt_str (s : option string) : json := default JNull (JString <$> s).

Definition default_step_name (type : string) : string :=
  if decide (type = "Finish") then "Finish" else "Unnamed".

Definition step_output_envelope (step : DirectJsonStep) (output : json) (route : option string) : json :=
  json_object
    ([("stepId", JString (step_id step));
      ("stepName", JString (default (default_step_name (step_type step)) (step_name step)));
      ("stepType", JString (step_type step));
      ("outputs", output)]
     ++ option_list ((λ r, ("route", JString r)) <$> route)).

(** [source.get(k).and_then(Value::as_object).cloned().unwrap_or_default()] *)
Definition object_or_empty (k : string) (source : json) : list (string * json) :=
  default [] (json_get k source ≫= as_object).

Definition insert_step_output (source : json) (id : string) (name : option string)
  (type : string) (output : json) (route : option string) : list (string * json) :=
  let step := {| step_id := id; step_type := type; step_name := name; step_body := JNull |} in
  assoc_set id (step_output_envelope step output route) (object_or_empty "steps" source).

(** ** References nested in agent inputs *)

Definition has_value_type (kind : string) (m : list (string * json)) : bool :=
  bool_decide (assoc_get "valueType" m ≫= as_str = Some kind).

Definition is_reference_envelope (m : list (string * json)) : bool :=
  has_value_type "reference" m && bool_decide (is_Some (assoc_get "value" m ≫= as_str)).

Definition is_qualified_workflow_path (path : string) : bool :=
  bool_decide (head (split_char "."%char path) ∈
    (Some <$> ["data"; "variables"; "workflow"; "steps"; "loop"; "item"; "iteration"])).

Definition is_unqualified_reference_envelope (m : list (string * json)) : bool :=
  match assoc_get "value" m ≫= as_str with
  | None => false
  | Some path => is_reference_envelope m && negb (is_qualified_workflow_path path)
  end.

Definition ascii_upper (c : Ascii.ascii) : Ascii.ascii :=
  if is_ascii_lowercase c then chr (Ascii.N_of_ascii c - 32) else c.

Fixpoint to_ascii_uppercase (s : string) : string :=
  match s with
  | EmptyString => EmptyString
  | String c r => String (ascii_upper c) (to_ascii_uppercase r)
  end.

Definition is_field_argument_operator (op : string) : bool :=
  bool_decide (to_ascii_uppercase op ∈
    ["EQ"; "NE"; "GT"; "GTE"; "LT"; "LTE"; "STARTS_WITH"; "ENDS_WITH"; "CONTAINS"; "IN"; "NOT_IN";
     "IS_DEFINED"; "IS_EMPTY"; "IS_NOT_EMPTY"; "SIMILARITY_GTE"; "MATCH"; "COSINE_DISTANCE_LTE";
     "L2_DISTANCE_LTE"]).

(** The value of [k] replaced in place ([map.get_mut(k)]). *)
Definition assoc_update (k : string) (v : json) (m : list (string * json)) : list (string * json) :=
  List.map (λ kv, (kv.1, if decide (kv.1 = k) then v else kv.2)) m.

Section nested.
Context `{Ext, JsonDisplay} (st : ValueStore) (source : json).

(** [None] when the recursion is deeper than [fuel]. *)
Fixpoint resolve_nested_references (fuel : nat) (value : json) : option json :=
  match fuel with
  | O => None
  | S fuel =>
      match value with
      | JObject map =>
          if is_reference_envelope map then
            let resolved := match apply_reference st map source with Ok v => v | Err _ => JNull end in
            inner ← resolve_nested_references fuel resolved;
            Some (json_object [("valueType", JString "immediate"); ("value", inner)])
          else if has_value_type "immediate" map then
            match assoc_get "value" map with
            | None => Some value
            | Some inner =>
                inner ← resolve_nested_references fuel inner;
                Some (JObject (assoc_update "value" inner map))
            end
          else
            let arguments := assoc_get "arguments" map ≫= as_array in
            match assoc_get "fn" map ≫= as_str, arguments with
            | Some _, Some args =>
                args ← mapM (λ arg,
                  if default false (is_unqualified_reference_envelope <$> as_object arg)
                  then Some arg else resolve_nested_references fuel arg) args;
                Some (JObject (assoc_update "arguments" (JArray args) map))
            | _, _ =>
                match assoc_get "op" map ≫= as_str, arguments with
                | Some op, Some args =>
                    args ← mapM (λ '(index, arg),
                      if bool_decide (index = 0%nat) && is_field_argument_operator op
                         && default false (is_reference_envelope <$> as_object arg)
                      then Some arg else resolve_nested_references fuel arg)
                      (imap pair args);
                    Some (JObject (assoc_update "arguments" (JArray args) map))
                | _, _ =>
                    m ← mapM (λ kv, pair kv.1 <$> resolve_nested_references fuel kv.2) map;
                    Some (JObject m)
                end
            end
      | JArray items => JArray <$> mapM (resolve_nested_references fuel) items
      | _ => Some value
      end
  end.
End nested.

Definition unwrap_top_level_immediate_envelopes (value : json) : json :=
  match value with
  | JObject m =>
      JObject (List.map (λ kv,
        (kv.1,
         match kv.2 with
         | JObject child =>
             if has_value_type "immediate" child then default kv.2 (assoc_get "value" child)
             else kv.2
         | _ => kv.2
         end)) m)
  | _ => value
  end.

Definition unwrap_finish_outputs (output : json) : json :=
  match output with
  | JObject [(k, v)] => if decide (k = "outputs") then v else output
  | _ => output
  end.

(** ** Conditions and mappings, compiled once *)

Section methods.
Context `{Ext, SerdeText, JsonDisplay, Minijinja} (st : ValueStore) (M : DirectJsonManifest).

Record Caches := {
  compiled_conditions : gmap string CompiledCondition;
  compiled_mappings : gmap Z CompiledInputMapping }.

Definition no_caches : Caches := {| compiled_conditions := ∅; compiled_mappings := ∅ |}.

Definition compiled_condition (key : string) (raw : json) (caches : Caches) :
  CompiledCondition * Caches :=
  match compiled_conditions caches !! key with
  | Some compiled => (compiled, caches)
  | None =>
      let compiled := compile_condition raw in
      (compiled, {| (caches) with compiled_conditions := <[key := compiled]> (compiled_conditions caches) |})
  end.

Definition compiled_mapping (id : Z) (raw : json) (caches : Caches) :
  CompiledInputMapping * Caches :=
  match compiled_mappings caches !! id with
  | Some compiled => (compiled, caches)
  | None =>
      let compiled := compile_input_mapping raw in
      (compiled, {| (caches) with compiled_mappings := <[id := compiled]> (compiled_mappings caches) |})
  end.

(** A method that fails before it touches the caches. *)
Definition with_caches {A B} (r : result string A) (caches : Caches)
  (f : A → result string B * Caches) : result string B * Caches :=
  match r with Err e => (Err e, caches) | Ok a => f a end.

(** [apply_mapping]; [None] when the nested references are deeper than [fuel]. *)
Definition mapped_output (fuel : nat) (mapping : DirectJsonMapping) (source output : json) :
  option json :=
  let output :=
    if decide (mapping_purpose mapping = "finish.inputMapping") then unwrap_finish_outputs output
    else output in
  if decide (mapping_purpose mapping = "agent.inputMapping") then
    unwrap_top_level_immediate_envelopes <$> resolve_nested_references st source fuel output
  else Some output.

Definition apply_mapping (fuel : nat) (mapping_id : Z) (source : bytes) (caches : Caches) :
  option (result string bytes) * Caches :=
  match from_slice "mapping source" source with
  | Err e => (Some (Err e), caches)
  | Ok source =>
      match get_entry "mapping" mapping_id (mappings M) with
      | Err e => (Some (Err e), caches)
      | Ok mapping =>
          let '(compiled, caches) := compiled_mapping mapping_id (mapping_value mapping) caches in
          (match CompiledInputMapping_eval st compiled source with
           | Err e => Some (Err e)
           | Ok output => to_vec "mapping output" <$> mapped_output fuel mapping source output
           end, caches)
      end
  end.

Definition eval_condition (condition_id : Z) (source : bytes) (caches : Caches) :
  result string bool * Caches :=
  with_caches (from_slice "condition source" source) caches (λ source,
  with_caches (get_entry "condition" condition_id (conditions M)) caches (λ condition,
    let '(compiled, caches) :=
      compiled_condition ("c" +:+ show_Z condition_id) (condition_value condition) caches in
    (CompiledCondition_eval st compiled source, caches))).

Definition while_condition (while_id : Z) (source : bytes) (caches : Caches) :
  result string bool * Caches :=
  with_caches (from_slice "While condition source" source) caches (λ source,
  with_caches (get_entry "While" while_id (whiles M)) caches (λ while_step,
    let '(compiled, caches) :=
      compiled_condition ("w" +:+ show_Z while_id) (while_condition_raw while_step) caches in
    (CompiledCondition_eval st compiled source, caches))).

(** ** Filter, Switch, GroupBy and Delay *)

(** [config.get("value").ok_or_else(...).and_then(apply_mapping_value)] *)
Definition configured_value (kind : string) (config source : json) : result string json :=
  match json_get "value" config with
  | None => Err (kind +:+ " config missing value")
  | Some value => apply_mapping_value st value source
  end.

Definition filter_step (filter_id : Z) (source : bytes) (caches : Caches) :
  result string bytes * Caches :=
  with_caches (from_slice "filter source" source) caches (λ source,
  with_caches (get_entry "Filter" filter_id (filters M)) caches (λ config,
  with_caches (configured_value "Filter" (config_value config) source) caches (λ input,
    match json_get "condition" (config_value config) with
    | None => (Err "Filter config missing condition", caches)
    | Some raw =>
        let '(compiled, caches) := compiled_condition ("f" +:+ show_Z filter_id) raw caches in
        (output ← apply_filter_compiled st input compiled source;
         to_vec "filter steps context"
           (JObject (insert_step_output source (config_step_id config) (config_name config)
                       "Filter" output None)), caches)
    end))).

Definition switch_is_routing (config : json) : bool :=
  match json_get "cases" config ≫= as_array with
  | None => false
  | Some cases => existsb (λ case, bool_decide (is_Some (json_get "route" case))) cases
  end.

Definition process_switch (switch_id : Z) (source : bytes) : result string string :=
  source ← from_slice "process-switch source" source;
  config ← get_entry "Switch" switch_id (switches M);
  switch_route <$> apply_switch st (config_value config) source.

Definition value_switch (switch_id : Z) (source : bytes) : result string bytes :=
  source ← from_slice "value-switch source" source;
  config ← get_entry "Switch" switch_id (switches M);
  result ← apply_switch st (config_value config) source;
  let route :=
    if switch_is_routing (config_value config) then Some (switch_route result) else None in
  to_vec "value-switch steps context"
    (JObject (insert_step_output source (config_step_id config) (config_name config) "Switch"
                (switch_output result) route)).

(** [serde_json::Value::pointer] *)
Definition pointer_index (token : string) : option Z :=
  match token with
  | String "+" _ => None
  | String "0" (String _ _) => None
  | _ => parse_u64 token
  end.

Fixpoint pointer_walk (value : json) (tokens : list string) : option json :=
  match tokens with
  | [] => Some value
  | token :: tokens =>
      next ← match value with
             | JObject m => assoc_get token m
             | JArray items => pointer_index token ≫= get_item items
             | _ => None
             end;
      pointer_walk next tokens
  end.

Definition json_pointer (value : json) (pointer : string) : option json :=
  match pointer with
  | EmptyString => Some value
  | String "/" _ =>
      pointer_walk value (unescape_pointer_segment <$> drop 1 (split_char "/"%char pointer))
  | _ => None
  end.

Definition group_key_string (value : json) : string :=
  match value with
  | JString s => s
  | JNumber n => json_display (JNumber n)
  | JBool b => show_bool b
  | JNull => "_null"
  | _ => json_display value
  end.

(** [groups] and [counts] as maps from keys to what the entries hold. *)
Fixpoint group_items (pointer : string) (items : list json)
  (groups : gmap string (list json)) (counts : gmap string Z) :
  gmap string (list json) * gmap string Z :=
  match items with
  | [] => (groups, counts)
  | item :: items =>
      let key := group_key_string (default JNull (json_pointer item pointer)) in
      group_items pointer items
        (<[key := default [] (groups !! key) ++ [item]]> groups)
        (<[key := default 0 (counts !! key) + 1]> counts)
  end.

Definition apply_group_by (config source : json) : result string json :=
  input ← configured_value "GroupBy" config source;
  let items := default [] (as_array input) in
  match json_get "key" config ≫= as_str with
  | None => Err "GroupBy config missing key"
  | Some key =>
      let expected := omap as_str (default [] (json_get "expectedKeys" config ≫= as_array)) in
      let groups := foldl (λ m k, match m !! k with Some _ => m | None => <[k := []]> m end) ∅ expected in
      let counts := foldl (λ m k, match m !! k with Some _ => m | None => <[k := 0]> m end) ∅ expected in
      let '(groups, counts) := group_items (path_to_json_pointer key) items groups counts in
      Ok (json_object [("groups", map_object JArray groups);
                       ("counts", map_object num counts);
                       ("total_groups", num_nat (size groups))])
  end.

Definition group_by (group_id : Z) (source : bytes) : result string bytes :=
  source ← from_slice "group-by source" source;
  config ← get_entry "GroupBy" group_id (group_bys M);
  output ← apply_group_by (config_value config) source;
  to_vec "group-by steps context"
    (JObject (insert_step_output source (config_step_id config) (config_name config) "GroupBy"
                output None)).

(** [value.as_u64().or_else(|| value.as_f64().map(|ms| ms as u64))] *)
Definition milliseconds (value : json) : option Z :=
  match as_u64 value with
  | Some ms => Some ms
  | None => f64_as_u64 <$> as_f64 value
  end.

Definition delay_duration_ms (delay_id : Z) (source : bytes) : result string Z :=
  source ← from_slice "delay source" source;
  delay ← get_entry "Delay" delay_id (delays M);
  duration ← apply_mapping_value st (duration_ms delay) source;
  match milliseconds duration with
  | Some ms => Ok ms
  | None => Err ("Delay step '" +:+ delay_step_id delay +:+ "': duration_ms must be a number, got: "
                 +:+ json_display duration)
  end.

Definition delay_step_value (delay : DirectJsonDelay) (ms : Z) : json :=
  json_object [("stepId", JString (delay_step_id delay));
               ("stepName", JString (default "Unnamed" (delay_name delay)));
               ("stepType", JString "Delay"); ("duration_ms", num ms)].

Definition delay (delay_id : Z) (source : bytes) (ms : Z) : result string bytes :=
  source ← from_slice "delay source" source;
  delay ← get_entry "Delay" delay_id (delays M);
  to_vec "delay steps context"
    (JObject (assoc_set (delay_step_id delay) (delay_step_value delay ms)
                (object_or_empty "steps" source))).
End methods.
