(* ===== verification/GuestKeys.v ===== *)
(** * runtara-workflow-stdlib: the keys of durable state

    [direct_json.rs]: every key under which a workflow stores a checkpoint or waits for a
    signal is made from the site of the step: the workflow, the chain of embeddings, the
    step and the indices of the enclosing loops. *)

From S2P Require Import Prelude.
From S2P Require Import Json.
From S2P Require Import Text.
From S2P Require Import InstanceHandlers.
From S2P Require Import GuestPaths.
From S2P Require Import GuestManifest.

(** [source.get("variables").and_then(Value::as_object)], and one of them *)
Definition source_variables (source : json) : option (list (string * json)) :=
  json_get "variables" source ≫= as_object.

Definition variable (k : string) (source : json) : option json :=
  source_variables source ≫= assoc_get k.

(** [_loop_indices], when it is an array. *)
Definition loop_indices (source : json) : option (list json) :=
  variable "_loop_indices" source ≫= as_array.

Definition workflow_id (source : json) : string :=
  default "root" (variable "_workflow_id" source ≫= as_str).

(** A prefix that is missing or empty counts as none. *)
Definition source_cache_key_prefix (source : json) : option string :=
  prefix ← variable "_cache_key_prefix" source ≫= as_str;
  if is_empty_str prefix then None else Some prefix.

(** [before ++ indices ++ after], or nothing when there are no indices. *)
Definition indices_suffix `{JsonDisplay} (before after : string) (source : json) : string :=
  match loop_indices source with
  | Some ((_ :: _) as indices) => before +:+ join "," (json_display <$> indices) +:+ after
  | _ => ""
  end.

(** [_loop_indices] as the numbers in it, with underscores. *)
Definition plain_indices (source : json) : string :=
  join "_" (show_Z <$> omap as_u64 (default [] (loop_indices source))).

(** [{prefix}::{base}], or [base] without a prefix *)
Definition scoped (source : json) (base : string) : string :=
  match source_cache_key_prefix source with
  | Some prefix => prefix +:+ "::" +:+ base
  | None => base
  end.

(** A key of a step: scoped by the prefix of the site, else by the workflow. *)
Definition site_key (source : json) (base : string) : string :=
  default (workflow_id source) (source_cache_key_prefix source) +:+ "::" +:+ base.

Section keys.
Context `{Ext, SerdeText, JsonDisplay} (M : DirectJsonManifest).

Definition agent_cache_key (agent : DirectJsonAgent) (source : json) : string :=
  site_key source
    ("agent::" +:+ agent_id agent +:+ "::" +:+ capability_id agent +:+ "::" +:+ agent_step_id agent
     +:+ indices_suffix "::[" "]" source).

Definition split_cache_key (split : DirectJsonSplit) (source : json) : string :=
  site_key source ("split::" +:+ split_step_id split +:+ indices_suffix "::[" "]" source).

Definition embed_workflow_cache_key (id : string) (source : json) : string :=
  scoped source ("embed_workflow::" +:+ id +:+ indices_suffix "::[" "]" source).

(** The scope of a child invoked at step [id]. *)
Definition child_cache_prefix (id : string) (source : json) : string :=
  match source_cache_key_prefix source with
  | Some prefix => prefix +:+ "__" +:+ id +:+ indices_suffix "[" "]" source
  | None => workflow_id source +:+ "::" +:+ id +:+ indices_suffix "[" "]" source
  end.

Definition with_indices (id : string) (source : json) : string :=
  if is_empty_str (plain_indices source) then id else id +:+ "::" +:+ plain_indices source.

(** The methods, on bytes. *)

Definition known_step (what id : string) : result string unit :=
  match steps M !! id with
  | Some _ => Ok tt
  | None => Err ("unknown direct " +:+ what +:+ " step '" +:+ id +:+ "'")
  end.

Definition breakpoint_key (id : string) (source : bytes) : result string string :=
  source ← from_slice "breakpoint-key source" source;
  _ ← known_step "breakpoint" id;
  Ok (scoped source ("breakpoint::" +:+ with_indices id source)).

Definition delay_sleep_key (id : string) (source : bytes) : result string string :=
  source ← from_slice "delay-sleep-key source" source;
  _ ← known_step "delay" id;
  Ok (scoped source (with_indices id source)).

Definition wait_loop_indices_suffix (source : json) : string := indices_suffix "/[" "]" source.

Definition wait_signal_id (id instance_id : string) (source : bytes) : result string string :=
  source ← from_slice "wait-signal-id source" source;
  _ ← wait_step M id;
  Ok (instance_id +:+ "/" +:+ workflow_id source +:+ "/" +:+ scoped source id
      +:+ wait_loop_indices_suffix source).

Definition ai_wait_tool_signal_id (id instance_id label : string) (call_counter : Z) (source : bytes) :
  result string string :=
  source ← from_slice "ai-wait-tool-signal-id source" source;
  Ok (instance_id +:+ "/" +:+ workflow_id source +:+ "/" +:+ scoped source id +:+ ".tool."
      +:+ label +:+ "." +:+ show_Z call_counter +:+ wait_loop_indices_suffix source).

Definition manifest_agent_cache_key (id : Z) (source : bytes) : result string string :=
  source ← from_slice "Agent cache-key source" source;
  agent ← get_entry "Agent" id (agents M);
  Ok (agent_cache_key agent source).

Definition manifest_split_cache_key (id : Z) (source : bytes) : result string string :=
  source ← from_slice "Split cache-key source" source;
  split ← get_entry "Split" id (splits M);
  Ok (split_cache_key split source).

Definition manifest_embed_workflow_cache_key (id : string) (source : bytes) : result string string :=
  source ← from_slice "EmbedWorkflow source" source;
  _ ← embed_workflow_step M id;
  Ok (embed_workflow_cache_key id source).

(** Retries of a step store under its own key. *)
Definition retry_sleep_key (checkpoint_id : string) (attempt_number : Z) : string :=
  checkpoint_id +:+ "::retry_sleep::" +:+ show_Z attempt_number.

Definition agent_attempt_result_key (checkpoint_id : string) (attempt_number : Z) : string :=
  checkpoint_id +:+ "::attempt::" +:+ show_Z attempt_number.

(** The input of a composed workflow: the data, and the scope of the call. *)
Definition scoped_envelope (site : string) (input source : json) : json :=
  JObject [("data", input);
           ("variables", JObject [("_cache_key_prefix", JString (child_cache_prefix site source))])].

Definition agent_scope_input (id : Z) (input source : bytes) : result string bytes :=
  agent ← get_entry "Agent" id (agents M);
  input ← from_slice "Agent input for scoping" input;
  source ← from_slice "source for Agent scoping" source;
  to_vec "scoped Agent input" (scoped_envelope (agent_step_id agent) input source).

Definition agent_tool_scope_input (ai_step_id label : string) (call_counter : Z)
  (input source : bytes) : result string bytes :=
  input ← from_slice "tool input for scoping" input;
  source ← from_slice "source for tool scoping" source;
  to_vec "scoped tool input"
    (scoped_envelope (ai_step_id +:+ ".tool." +:+ label +:+ "." +:+ show_Z call_counter) input source).
End keys.
