(* ===== verification/GuestLoops.v ===== *)
(** * runtara-workflow-stdlib: Split and While

    [direct_json.rs]: the items of a Split, the variables of an iteration, the checks of
    its inputs and outputs and the accumulator of its results; the state of a While. *)

From S2P Require Import Prelude.
From S2P Require Import Json.
From S2P Require Import Text.
From S2P Require Import InstanceHandlers.
From S2P Require Import GuestStore.
From S2P Require Import GuestPaths.
From S2P Require Import GuestExpr.
From S2P Require Import GuestSteps.
From S2P Require Import GuestManifest.
From S2P Require Import GuestKeys.
From S2P Require Import ValidationBase.

(** ** Items *)

Definition split_bool_config (config : json) (key : string) : bool :=
  default false (json_get key config ≫= as_bool).

(** [n as usize] of a 32-bit component *)
Definition as_usize (n : Z) : Z := n mod 2 ^ 32.

(** [items.chunks(size)] for a size that is not 0; [fuel] bounds the number of chunks. *)
Fixpoint chunks_within (fuel : nat) (size : nat) (items : list json) : list (list json) :=
  match fuel, items with
  | S fuel, _ :: _ => take size items :: chunks_within fuel size (drop size items)
  | _, _ => []
  end.

Definition chunks (size : nat) (items : list json) : list (list json) :=
  chunks_within (length items) size items.

Section loops.
Context `{Ext, SerdeText, JsonDisplay, Minijinja} (st : ValueStore) (M : DirectJsonManifest).

(** The input as a list. *)
Definition split_input (split : DirectJsonSplit) (input : json) : result string (list json) :=
  match input with
  | JArray items => Ok items
  | JNull =>
      if split_bool_config (split_value split) "allowNull" then Ok []
      else Err ("Split step '" +:+ split_step_id split +:+ "' received null value. Set "
                +:+ "'allowNull: true' to allow empty iterations, or use 'transform/ensure-array' agent.")
  | other =>
      if split_bool_config (split_value split) "convertSingleValue" then Ok [other]
      else Err ("Split step '" +:+ split_step_id split +:+ "' expected array, got "
                +:+ json_type_name other +:+ ". Set 'convertSingleValue: true' to auto-wrap, or use "
                +:+ "'transform/ensure-array' agent.")
  end.

Definition batch_size (split : DirectJsonSplit) : Z :=
  as_usize (default 0 (json_get "batchSize" (split_value split) ≫= as_u64)).

Definition split_items (split : DirectJsonSplit) (source : json) : result string (list json) :=
  match json_get "value" (split_value split) with
  | None => Err ("Split step '" +:+ split_step_id split +:+ "' config missing value")
  | Some value =>
      input ← apply_mapping_value st value source;
      items ← split_input split input;
      Ok (if 0 <? batch_size split then JArray <$> chunks (Z.to_nat (batch_size split)) items else items)
  end.

Definition manifest_split_items (split_id : Z) (source : bytes) : result string bytes :=
  source ← from_slice "split source" source;
  split ← get_entry "Split" split_id (splits M);
  items ← split_items split source;
  to_vec "Split items" (JArray items).

Definition split_item_count (split_id : Z) (source : bytes) : result string Z :=
  source ← from_slice "split source" source;
  split ← get_entry "Split" split_id (splits M);
  items ← split_items split source;
  let count := Z.of_nat (length items) in
  if count <? 2 ^ 32 then Ok count
  else Err ("Split step '" +:+ split_step_id split
            +:+ "' produced too many iteration items for direct Wasm").

Definition split_item (split_id : Z) (source : bytes) (index : Z) : result string bytes :=
  source ← from_slice "split source" source;
  split ← get_entry "Split" split_id (splits M);
  items ← split_items split source;
  match get_item items index with
  | Some item => to_vec "Split item" item
  | None => Err ("Split step '" +:+ split_step_id split +:+ "' item index " +:+ show_Z index
                 +:+ " is out of bounds for " +:+ show_Z (Z.of_nat (length items)) +:+ " item(s)")
  end.

(** ** Variables of an iteration *)

(** [map.remove(k)] *)
Definition assoc_remove (k : string) (m : list (string * json)) : list (string * json) :=
  filter (λ kv, kv.1 ≠ k) m.

(** [variables.extend(extra)] *)
Definition assoc_extend (extra m : list (string * json)) : list (string * json) :=
  foldl (λ m kv, assoc_set kv.1 kv.2 m) m extra.

(** The variables of the scope, with the authored ones of the step. *)
Definition authored_variables (config source : json) (variables : list (string * json)) :
  result string (list (string * json)) :=
  match json_get "variables" config with
  | None => Ok variables
  | Some mapping =>
      extra ← apply_input_mapping st mapping source;
      Ok (match extra with JObject extra => assoc_extend extra variables | _ => variables end)
  end.

(** A binding of the parent scope put back, or removed when it had none. *)
Definition restore (k : string) (v : option json) (m : list (string * json)) : list (string * json) :=
  match v with Some v => assoc_set k v m | None => assoc_remove k m end.

(** [_parent_scope_id] and [_scope_id] of the iteration [index] of the step [id]. *)
Definition enter_scope (id : string) (index : Z) (variables : list (string * json)) :
  list (string * json) :=
  let parent := default JNull (assoc_get "_scope_id" variables) in
  let scope_id :=
    match as_str parent with
    | Some parent => parent +:+ "_" +:+ id +:+ "_" +:+ show_Z index
    | None => "sc_" +:+ id +:+ "_" +:+ show_Z index
    end in
  assoc_set "_scope_id" (JString scope_id) (assoc_set "_parent_scope_id" parent variables).

Definition parent_indices (variables : list (string * json)) : list json :=
  default [] (assoc_get "_loop_indices" variables ≫= as_array).

Definition split_iteration_variables (split : DirectJsonSplit) (source item : json) (index : Z) :
  result string (list (string * json)) :=
  let scope := object_or_empty "variables" source in
  variables ← authored_variables (split_value split) source scope;
  let variables := restore "_loop" (assoc_get "_loop" scope) variables in
  let variables := assoc_set "_loop_indices" (JArray (parent_indices scope ++ [num index])) variables in
  let variables := assoc_set "_item" item (assoc_set "_index" (num index) variables) in
  Ok (enter_scope (split_step_id split) index variables).

Definition manifest_split_iteration_variables (split_id : Z) (source item : bytes) (index : Z) :
  result string bytes :=
  source ← from_slice "split source" source;
  item ← from_slice "Split item" item;
  split ← get_entry "Split" split_id (splits M);
  variables ← split_iteration_variables split source item index;
  to_vec "Split iteration variables" (JObject variables).

(** ** Checks of inputs and outputs *)

Definition split_schema_type_matches (field_type : string) (value : json) : bool :=
  if decide (field_type = "string") then is_string value
  else if decide (field_type = "integer") then is_integer value
  else if decide (field_type = "number") then is_number value
  else if decide (field_type = "boolean") then is_boolean value
  else if decide (field_type = "array") then is_array value
  else if decide (field_type = "object") then is_object value
  else true.

Definition field_required (field_schema : json) : bool :=
  default false (json_get "required" field_schema ≫= as_bool).
Definition field_type_name (field_schema : json) : string :=
  default "" (json_get "type" field_schema ≫= as_str).

Definition missing_fields (schema value : list (string * json)) : list string :=
  omap (λ '(name, field), match assoc_get name value with
                          | None => if field_required field then Some name else None
                          | Some _ => None
                          end) schema.

Definition mistyped_fields (schema value : list (string * json)) : list string :=
  omap (λ '(name, field),
    actual ← assoc_get name value;
    let field_type := field_type_name field in
    if negb (is_empty_str field_type) && negb (is_null actual)
       && negb (split_schema_type_matches field_type actual)
    then Some ("'" +:+ name +:+ "' (expected " +:+ field_type +:+ ", got " +:+ json_type_name actual
               +:+ ")")
    else None) schema.

Definition validate_split_schema (value schema : json) (ctx : string) : result string unit :=
  match as_object schema with
  | None | Some [] => Ok tt
  | Some schema =>
      match as_object value with
      | None => Err (ctx +:+ ": expected object, got " +:+ json_type_name value)
      | Some object =>
          let missing := missing_fields schema object in
          let wrong_type := mistyped_fields schema object in
          if bool_decide (missing = []) && bool_decide (wrong_type = []) then Ok tt
          else
            let parts :=
              (if decide (missing = []) then []
               else ["required field(s) [" +:+ join ", " missing +:+ "] missing (got fields: ["
                     +:+ join ", " (sorted object.*1) +:+ "])"])
              ++ (if decide (wrong_type = []) then []
                  else ["type mismatches: " +:+ join ", " wrong_type]) in
            Err (ctx +:+ ": " +:+ join "; " parts)
      end
  end.

Definition iteration_label (split : DirectJsonSplit) (index : Z) (what : string) : string :=
  "Split '" +:+ split_step_id split +:+ "' iteration " +:+ show_Z index +:+ ": " +:+ what.

Definition split_validate_input (split_id : Z) (item : bytes) (index : Z) : result string unit :=
  item ← from_slice "Split item" item;
  split ← get_entry "Split" split_id (splits M);
  validate_split_schema item (split_input_schema split) (iteration_label split index "input").

Definition split_validate_output (split_id : Z) (output : bytes) (index : Z) : result string unit :=
  output ← from_slice "Split iteration output" output;
  split ← get_entry "Split" split_id (splits M);
  validate_split_schema output (split_output_schema split) (iteration_label split index "output").

(** ** Results of a Split *)

Definition split_dont_stop_on_failed (split : DirectJsonSplit) : bool :=
  split_bool_config (split_value split) "dontStopOnFailed".

Definition initial_results (split : DirectJsonSplit) : json :=
  if split_dont_stop_on_failed split then
    json_object [("success", JArray []); ("error", JArray []); ("aborted", JArray []);
                 ("unknown", JArray []); ("skipped", JArray [])]
  else JArray [].

Definition accumulator_error (split : DirectJsonSplit) (what : string) : string :=
  "Split step '" +:+ split_step_id split +:+ "' internal result accumulator must " +:+ what.

(** [split_accumulator_array_mut(results, split, key)?.push(value)] *)
Definition accumulate (split : DirectJsonSplit) (key : string) (value results : json) :
  result string json :=
  match results with
  | JObject object =>
      match assoc_get key object ≫= as_array with
      | Some items => Ok (JObject (assoc_update key (JArray (items ++ [value])) object))
      | None => Err (accumulator_error split ("contain a '" +:+ key +:+ "' array"))
      end
  | _ => Err (accumulator_error split ("contain a '" +:+ key +:+ "' array"))
  end.

(** The body of [split_append_output] and of [split_append_error]. *)
Definition append_output (split : DirectJsonSplit) (results output : json) : result string json :=
  if split_dont_stop_on_failed split then accumulate split "success" output results
  else
    match results with
    | JArray items => Ok (JArray (items ++ [output]))
    | _ => Err (accumulator_error split "be an array")
    end.

Definition append_error (split : DirectJsonSplit) (results : json) (error : string) (index : Z) :
  result string json :=
  accumulate split "error" (json_object [("error", JString error); ("index", num index)]) results.

Definition split_initial_results (split_id : Z) : result string bytes :=
  split ← get_entry "Split" split_id (splits M);
  to_vec "Split result accumulator" (initial_results split).

Definition split_append_output (split_id : Z) (results output : bytes) : result string bytes :=
  split ← get_entry "Split" split_id (splits M);
  results ← from_slice "Split results" results;
  output ← from_slice "Split iteration output" output;
  results ← append_output split results output;
  to_vec "Split result accumulator" results.

Definition split_append_error (split_id : Z) (results : bytes) (error : string) (index : Z) :
  result string bytes :=
  split ← get_entry "Split" split_id (splits M);
  if negb (split_dont_stop_on_failed split) then
    Err ("Split step '" +:+ split_step_id split
         +:+ "' cannot append errors when dontStopOnFailed is false")
  else
    results ← from_slice "Split results" results;
    results ← append_error split results error index;
    to_vec "Split result accumulator" results.

(** One of the arrays of the accumulator. *)
Definition bucket (key : string) (object : list (string * json)) : option (list json) :=
  assoc_get key object ≫= as_array.

Definition split_dont_stop_result (split : DirectJsonSplit) (source results : json) :
  result string json :=
  match as_object results with
  | None => Err (accumulator_error split "be an object")
  | Some object =>
      match bucket "success" object with
      | None => Err (accumulator_error split "contain a 'success' array")
      | Some success =>
          match bucket "error" object with
          | None => Err (accumulator_error split "contain an 'error' array")
          | Some error =>
              let aborted := default [] (bucket "aborted" object) in
              let unknown := default [] (bucket "unknown" object) in
              let skipped := default [] (bucket "skipped" object) in
              items ← split_items split source;
              Ok (json_object
                [("stepId", JString (split_step_id split));
                 ("stepName", JString (default "Unnamed" (split_name split)));
                 ("stepType", JString "Split");
                 ("data", json_object
                    [("success", JArray success); ("error", JArray error);
                     ("aborted", JArray aborted); ("unknown", JArray unknown);
                     ("skipped", JArray skipped)]);
                 ("stats", json_object
                    [("success", num_nat (length success)); ("error", num_nat (length error));
                     ("aborted", num_nat (length aborted)); ("unknown", num_nat (length unknown));
                     ("skipped", num_nat (length skipped)); ("total", num_nat (length items))]);
                 ("hasFailures", JBool (bool_decide (error ≠ [])));
                 ("outputs", JArray success)])
          end
      end
  end.

Definition split_result (split : DirectJsonSplit) (source results : json) : result string json :=
  if split_dont_stop_on_failed split then split_dont_stop_result split source results
  else
    Ok (step_output_envelope
          {| step_id := split_step_id split; step_type := "Split"; step_name := split_name split;
             step_body := JNull |} results None).

Definition manifest_split_result (split_id : Z) (source results : bytes) : result string bytes :=
  source ← from_slice "Split result source" source;
  results ← from_slice "Split results" results;
  split ← get_entry "Split" split_id (splits M);
  result ← split_result split source results;
  to_vec "Split step result" result.

Definition split_output (split_id : Z) (source results : bytes) : result string bytes :=
  source ← from_slice "split source" source;
  results ← from_slice "Split results" results;
  split ← get_entry "Split" split_id (splits M);
  steps ←
    (if split_dont_stop_on_failed split then
       result ← split_dont_stop_result split source results;
       Ok (assoc_set (split_step_id split) result (object_or_empty "steps" source))
     else
       Ok (insert_step_output source (split_step_id split) (split_name split) "Split" results None));
  to_vec "Split steps context" (JObject steps).

Definition split_output_from_result (split_id : Z) (source step_result : bytes) :
  result string bytes :=
  source ← from_slice "Split output source" source;
  step_result ← from_slice "Split step result" step_result;
  split ← get_entry "Split" split_id (splits M);
  to_vec "Split steps context"
    (JObject (assoc_set (split_step_id split) step_result (object_or_empty "steps" source))).

(** ** While *)

Record DirectJsonWhileState := {
  ws_index : Z;
  ws_outputs : json }.

Definition while_state_value (state : DirectJsonWhileState) : json :=
  json_object [("index", num (ws_index state)); ("outputs", ws_outputs state)].

Definition while_loop_context (state : DirectJsonWhileState) : json := while_state_value state.

Definition while_max_iterations (while_step : DirectJsonWhile) : result string Z :=
  match json_get "maxIterations" (while_value while_step) with
  | None => Ok 10
  | Some max =>
      match as_u64 max with
      | None => Err ("While step '" +:+ while_step_id while_step
                     +:+ "' maxIterations must be an unsigned integer")
      | Some n =>
          if n <? 2 ^ 32 then Ok n
          else Err ("While step '" +:+ while_step_id while_step
                    +:+ "' maxIterations exceeds u32 range")
      end
  end.

Definition manifest_while_max_iterations (while_id : Z) : result string Z :=
  while_step ← get_entry "While" while_id (whiles M);
  while_max_iterations while_step.

(** [parse_while_state] of a parsed value. *)
Definition read_while_state (while_step : DirectJsonWhile) (state : json) :
  result string DirectJsonWhileState :=
  let failed (what : string) := "While step '" +:+ while_step_id while_step +:+ "' internal state " +:+ what in
  match as_object state with
  | None => Err (failed "must be a JSON object")
  | Some state =>
      match assoc_get "index" state ≫= as_u64 with
      | None => Err (failed "missing numeric index")
      | Some index =>
          if index <? 2 ^ 32 then
            Ok {| ws_index := index; ws_outputs := default JNull (assoc_get "outputs" state) |}
          else Err (failed "index exceeds u32 range")
      end
  end.

Definition parse_while_state (while_step : DirectJsonWhile) (state : bytes) :
  result string DirectJsonWhileState :=
  state ← from_slice "While state" state;
  read_while_state while_step state.

Definition initial_while_state : DirectJsonWhileState := {| ws_index := 0; ws_outputs := JNull |}.

Definition while_initial_state (while_id : Z) : result string bytes :=
  _ ← get_entry "While" while_id (whiles M);
  to_vec "While initial state" (while_state_value initial_while_state).

(** The source of the condition: the loop and iteration contexts are those of the state. *)
Definition condition_source (while_step : DirectJsonWhile) (source : json)
  (state : DirectJsonWhileState) : result string json :=
  match source with
  | JObject source =>
      let source := assoc_set "loop" (while_loop_context state) source in
      let variables := object_or_empty "variables" (JObject source) in
      let iteration :=
        json_object [("index", num (ws_index state));
                     ("indices", JArray (parent_indices variables ++ [num (ws_index state)]));
                     ("item", default JNull (assoc_get "_item" variables))] in
      Ok (JObject (assoc_set "iteration" iteration source))
  | _ => Err ("While step '" +:+ while_step_id while_step
              +:+ "' condition source must be a JSON object")
  end.

Definition while_condition_source (while_id : Z) (source state : bytes) : result string bytes :=
  while_step ← get_entry "While" while_id (whiles M);
  source ← from_slice "While condition source" source;
  state ← parse_while_state while_step state;
  source ← condition_source while_step source state;
  to_vec "While condition source" source.

Definition while_iteration_variables (while_step : DirectJsonWhile) (source : json)
  (state : DirectJsonWhileState) : result string (list (string * json)) :=
  let scope := object_or_empty "variables" source in
  variables ← authored_variables (while_value while_step) source scope;
  let variables := restore "_item" (assoc_get "_item" scope) variables in
  let variables :=
    assoc_set "_index" (num (ws_index state))
      (assoc_set "_loop_indices" (JArray (parent_indices scope ++ [num (ws_index state)])) variables) in
  let variables := assoc_remove "_previousOutputs" variables in
  let variables :=
    if is_null (ws_outputs state) then variables
    else assoc_set "_previousOutputs" (ws_outputs state) variables in
  let variables := assoc_set "_loop" (while_loop_context state) variables in
  Ok (enter_scope (while_step_id while_step) (ws_index state) variables).

Definition manifest_while_iteration_variables (while_id : Z) (source state : bytes) :
  result string bytes :=
  while_step ← get_entry "While" while_id (whiles M);
  source ← from_slice "While source" source;
  state ← parse_while_state while_step state;
  variables ← while_iteration_variables while_step source state;
  to_vec "While iteration variables" (JObject variables).

Definition advance_while_state (while_step : DirectJsonWhile) (state : DirectJsonWhileState)
  (output : json) : result string DirectJsonWhileState :=
  if ws_index state + 1 <? 2 ^ 32 then
    Ok {| ws_index := ws_index state + 1; ws_outputs := output |}
  else Err ("While step '" +:+ while_step_id while_step +:+ "' iteration index overflowed u32").

Definition while_advance_state (while_id : Z) (state output : bytes) : result string bytes :=
  while_step ← get_entry "While" while_id (whiles M);
  state ← parse_while_state while_step state;
  output ← from_slice "While iteration output" output;
  state ← advance_while_state while_step state output;
  to_vec "While state" (while_state_value state).

Definition while_output (while_id : Z) (source state : bytes) : result string bytes :=
  source ← from_slice "While source" source;
  while_step ← get_entry "While" while_id (whiles M);
  state ← parse_while_state while_step state;
  let output := json_object [("iterations", num (ws_index state)); ("outputs", ws_outputs state)] in
  to_vec "While steps context"
    (JObject (insert_step_output source (while_step_id while_step) (while_name while_step) "While"
                output None)).
End loops.
