(* ===== verification/GuestSource.v ===== *)
(** * runtara-workflow-stdlib: the scope of a step

    [direct_json.rs]: [build_source], which makes the scope that mappings and conditions
    read from the data, the variables and the outputs of the steps; the scope of an error
    handler; and the scope, inputs and results of embedded workflows. *)

From S2P Require Import Prelude.
From S2P Require Import Json.
From S2P Require Import Text.
From S2P Require Import InstanceHandlers.
From S2P Require Import GuestStore.
From S2P Require Import GuestPaths.
From S2P Require Import GuestSteps.
From S2P Require Import GuestManifest.
From S2P Require Import GuestKeys.

(** ** build_source *)

Section source.
Context `{Ext, ContentHash, SerdeText}.

(** [RUNTARA_INSTANCE_ID] and [TENANT_ID] of the process *)
Definition inject_runtime_identity_variables (instance_env tenant_env : option string)
  (variables : json) : json :=
  match variables with
  | JObject m =>
      JObject (assoc_or_insert "_tenant_id" (JString (default "unknown" tenant_env))
                 (assoc_or_insert "_instance_id" (JString (default "unknown" instance_env)) m))
  | _ => variables
  end.

(** Runtime variables override the declared ones, except the private ones. *)
Definition overridable (key : string) : bool :=
  negb (starts_with_underscore key) || bool_decide (key = "_cache_key_prefix").

Definition merge_variables (runtime defaults : list (string * json)) : list (string * json) :=
  foldl (λ m kv, if overridable kv.1 then assoc_set kv.1 kv.2 m else m) defaults runtime.

(** The start input in its envelope, if it is one. *)
Definition unwrap_envelope (data variables : json) : json * json :=
  match data with
  | JObject envelope =>
      match assoc_get "data" envelope with
      | Some inner =>
          (inner,
           match assoc_get "variables" envelope, variables with
           | Some (JObject runtime), JObject defaults => JObject (merge_variables runtime defaults)
           | _, _ => variables
           end)
      | None => (data, variables)
      end
  | _ => (data, variables)
  end.

(** [intern_scope_entries] of a value that may be an object *)
Definition intern_scope (value : json) (st : ValueStore) : json * ValueStore :=
  match value with
  | JObject m => let '(m, st) := intern_scope_entries m st in (JObject m, st)
  | _ => (value, st)
  end.

Definition iteration_context (variables : json) : option json :=
  variables ← as_object variables;
  indices ← assoc_get "_loop_indices" variables ≫= as_array;
  index ← match assoc_get "_index" variables with Some i => Some i | None => last indices end;
  Some (json_object [("index", index); ("indices", JArray indices);
                     ("item", default JNull (assoc_get "_item" variables))]).

(** The scope made of interned parts. *)
Definition assemble_source (data variables steps : json) : json :=
  let error := json_get "__error" steps in
  json_object
    ([("data", data); ("variables", variables); ("steps", steps)]
     ++ option_list ((λ e, ("__error", e)) <$> error)
     ++ option_list ((λ e, ("error", e)) <$> error)
     ++ [("workflow", json_object
            [("inputs", json_object [("data", data); ("variables", variables)])])]
     ++ option_list ((λ i, ("iteration", i)) <$> iteration_context variables)
     ++ option_list ((λ l, ("loop", l)) <$> json_get "_loop" variables)
     ++ option_list ((λ i, ("item", i)) <$> json_get "_item" variables)).

(** [build_source] on values *)
Definition build_source_value (instance_env tenant_env : option string) (data variables steps : json)
  (st : ValueStore) : json * ValueStore :=
  let '(data, variables) := unwrap_envelope data variables in
  let variables := inject_runtime_identity_variables instance_env tenant_env variables in
  let '(data, st) := intern_scope data st in
  let '(variables, st) := intern_scope variables st in
  let '(steps, st) := intern_scope steps st in
  (assemble_source data variables steps, st).

Definition build_source (instance_env tenant_env : option string) (data variables steps : bytes)
  (st : ValueStore) : result string bytes * ValueStore :=
  match from_slice "data" data with
  | Err e => (Err e, st)
  | Ok data =>
      match from_slice "variables" variables with
      | Err e => (Err e, st)
      | Ok variables =>
          match from_slice "steps" steps with
          | Err e => (Err e, st)
          | Ok steps =>
              let '(source, st) := build_source_value instance_env tenant_env data variables steps st in
              (to_vec "source" source, st)
          end
      end
  end.
End source.

(** ** Errors *)

Section errors.
Context `{Ext, SerdeText, JsonDisplay}.

(** [serde_json::from_str] *)
Definition json_from_str (s : string) : option json := json_from_slice (String.list_byte_of_string s).

Definition ensure_step_id (object : list (string * json)) (id : string) : json :=
  JObject (match assoc_get "stepId" object with
           | Some _ => object
           | None => assoc_set "stepId" (JString id) object
           end).

(** [text[text.find('{')?..]] *)
Fixpoint from_brace (text : string) : option string :=
  match text with
  | EmptyString => None
  | String c rest => if Ascii.eqb c "{"%char then Some text else from_brace rest
  end.

Definition parse_error_envelope (error : bytes) (id : string) : json :=
  match json_from_slice error with
  | Some (JObject object) => ensure_step_id object id
  | _ =>
      let text := from_utf8_lossy error in
      match from_brace text ≫= λ rest, json_from_str (trim rest) with
      | Some (JObject object) => ensure_step_id object id
      | _ =>
          json_object [("message", JString text); ("stepId", JString id); ("code", JNull);
                       ("category", JString "unknown"); ("severity", JString "error")]
      end
  end.

Definition error_steps (id : string) (error steps : bytes) : result string bytes :=
  steps ← from_slice "error steps context" steps;
  match as_object steps with
  | None => Err "error steps context must be a JSON object"
  | Some steps =>
      let error := parse_error_envelope error id in
      to_vec "error steps context"
        (JObject (assoc_set "error" error (assoc_set "__error" error steps)))
  end.
End errors.

(** ** Embedded workflows *)

Section embed.
Context `{Ext, SerdeText, JsonDisplay} (M : DirectJsonManifest).

(** The declared variables of a child; a private name is skipped, an inherited one kept. *)
Definition declare_variables (defaults variables : list (string * json)) : list (string * json) :=
  foldl (λ m '(name, variable),
           if starts_with_underscore name then m
           else assoc_or_insert name (default variable (json_get "value" variable)) m)
        variables defaults.

(** [parent_variables.and_then(|vars| vars.get(k))] inserted when it is there *)
Definition inherit (k : string) (v : option json) (m : list (string * json)) : list (string * json) :=
  match v with Some v => assoc_set k v m | None => m end.

Definition embed_child_variables (id : string) (child : DirectJsonChildWorkflow) (source : json) :
  list (string * json) :=
  let scope_id :=
    match variable "_scope_id" source ≫= as_str with
    | Some parent => parent +:+ "_" +:+ id
    | None => "sc_" +:+ id
    end in
  let variables := assoc_set "_scope_id" (JString scope_id) [] in
  let variables :=
    inherit "_workflow_id" (JString <$> (variable "_workflow_id" source ≫= as_str)) variables in
  let variables := inherit "_instance_id" (variable "_instance_id" source) variables in
  let variables := inherit "_tenant_id" (variable "_tenant_id" source) variables in
  let variables :=
    assoc_set "_cache_key_prefix" (JString (child_cache_prefix id source)) variables in
  declare_variables (default [] (as_object (child_variables child))) variables.

(** Why a required field of the child is missing. *)
Definition missing_reason (input : option (list (string * json))) (name : string) : option string :=
  match input ≫= assoc_get name with
  | None => Some "not provided"
  | Some JNull => Some "was null"
  | Some _ => None
  end.

Definition missing_line (input : option (list (string * json))) (name : string) (field : json) :
  option string :=
  if default false (json_get "required" field ≫= as_bool) then
    reason ← missing_reason input name;
    Some ("  - " +:+ name +:+ " (" +:+ default "unknown" (json_get "type" field ≫= as_str) +:+ ")"
          +:+ match json_get "description" field ≫= as_str with
              | Some d => ": " +:+ d
              | None => ""
              end
          +:+ " [" +:+ reason +:+ "]" +:+ newline)
  else None.

Definition validate_embed_child_inputs (child : DirectJsonChildWorkflow) (child_input : json) :
  result string unit :=
  let missing :=
    omap (λ '(name, field), missing_line (as_object child_input) name field)
      (default [] (as_object (child_input_schema child))) in
  if decide (missing = []) then Ok tt
  else Err ("EmbedWorkflow step '" +:+ child_step_id child
            +:+ "' is missing required inputs for child workflow '" +:+ child_workflow_id child
            +:+ "':" +:+ newline +:+ concat_str missing).

Definition embed_workflow_step_value (step : DirectJsonStep) (child : DirectJsonChildWorkflow)
  (output : json) : json :=
  json_object [("stepId", JString (step_id step));
               ("stepName", JString (default "Unnamed" (step_name step)));
               ("stepType", JString "EmbedWorkflow");
               ("childWorkflowId", JString (child_workflow_id child)); ("outputs", output)].

Definition embed_workflow_error_value (step : DirectJsonStep) (child : DirectJsonChildWorkflow)
  (child_error : json) : json :=
  json_object
    [("stepId", JString (step_id step));
     ("stepName", JString (default "Unnamed" (step_name step)));
     ("stepType", JString "EmbedWorkflow"); ("code", JString "CHILD_WORKFLOW_FAILED");
     ("message", JString ("Child workflow " +:+ child_workflow_id child +:+ " failed"));
     ("category", JString (default "transient" (json_get "category" child_error ≫= as_str)));
     ("severity", JString (default "error" (json_get "severity" child_error ≫= as_str)));
     ("childWorkflowId", JString (child_workflow_id child)); ("childError", child_error)].

Definition embed_workflow_variables (id : string) (source child_input : bytes) :
  result string bytes :=
  source ← from_slice "EmbedWorkflow source" source;
  child_input ← from_slice "EmbedWorkflow child input" child_input;
  child ← child_workflow M id;
  _ ← validate_embed_child_inputs child child_input;
  to_vec "EmbedWorkflow child variables" (JObject (embed_child_variables id child source)).

Definition embed_workflow_result (id : string) (child_output : bytes) : result string bytes :=
  child_output ← from_slice "EmbedWorkflow child output" child_output;
  step ← embed_workflow_step M id;
  child ← child_workflow M id;
  to_vec "EmbedWorkflow result" (embed_workflow_step_value step child child_output).

Definition embed_workflow_output_from_result (id : string) (source step_result : bytes) :
  result string bytes :=
  source ← from_slice "EmbedWorkflow source" source;
  step_result ← from_slice "EmbedWorkflow result" step_result;
  _ ← embed_workflow_step M id;
  to_vec "EmbedWorkflow steps context"
    (JObject (assoc_set id step_result (object_or_empty "steps" source))).

Definition embed_workflow_error (id : string) (child_error : bytes) : result string bytes :=
  child_error ← from_slice "EmbedWorkflow child error" child_error;
  step ← embed_workflow_step M id;
  child ← child_workflow M id;
  to_vec "EmbedWorkflow child error" (embed_workflow_error_value step child child_error).
End embed.
