(* ===== verification/GuestCalls.v ===== *)
(** * runtara-workflow-stdlib: waits, logs, errors, agents and turns of AI agents

    [direct_json.rs] and [agent_input_validation.rs]: what the compiled workflow asks the
    library around a call: the inputs checked and scoped, the result stored, the error
    wrapped and classified for a retry, the state of an AI agent between its turns.
    [timestamp_ms] is an argument; the payloads of debug events are left out. *)

From S2P Require Import Prelude.
From S2P Require Import Json.
From S2P Require Import Text.
From S2P Require Import InstanceHandlers.
From S2P Require Import GuestStore.
From S2P Require Import GuestPaths.
From S2P Require Import GuestExpr.
From S2P Require Import GuestSteps.
From S2P Require Import GuestManifest.
From S2P Require Import GuestKeys.
From S2P Require Import GuestSource.

Section calls.
Context `{Ext, SerdeText, JsonDisplay, Minijinja} (st : ValueStore) (M : DirectJsonManifest).

(** ** WaitForSignal *)

Definition ai_wait_tool_result (signal_payload : bytes) : result string bytes :=
  payload ← from_slice "ai-wait-tool-result payload" signal_payload;
  to_vec "ai-wait-tool-result"
    (json_object [("status", JString "received"); ("human_response", payload)]).

Definition wait_timeout_ms (id : string) (source : bytes) : result string (option Z) :=
  source ← from_slice "wait-timeout source" source;
  step ← wait_step M id;
  match json_get "timeoutMs" (step_body step) with
  | None => Ok None
  | Some mapping =>
      timeout ← apply_mapping_value st mapping source;
      match timeout with
      | JNull => Ok None
      | JNumber _ => Ok (milliseconds timeout)
      | other => Err ("WaitForSignal step '" +:+ id +:+ "': timeout_ms must be a number, got: "
                      +:+ json_display other)
      end
  end.

Definition wait_timeout_text (id signal_id : string) (ms : Z) : string :=
  "WaitForSignal step '" +:+ id +:+ "' timed out after " +:+ show_Z ms +:+ "ms waiting for signal '"
  +:+ signal_id +:+ "'".

Definition wait_timeout_error (id signal_id : string) (ms : Z) : result string string :=
  _ ← wait_step M id; Ok (wait_timeout_text id signal_id ms).

Definition wait_timeout_error_envelope (id signal_id : string) (ms : Z) : result string bytes :=
  _ ← wait_step M id;
  to_vec "wait-timeout envelope"
    (json_object [("code", JString "WAIT_TIMEOUT");
                  ("message", JString (wait_timeout_text id signal_id ms));
                  ("category", JString "timeout"); ("severity", JString "error")]).

Definition wait_on_wait_variables (id instance_id signal_id : string) (source : bytes) :
  result string bytes :=
  _ ← wait_step M id;
  source ← from_slice "wait-on-wait source" source;
  to_vec "wait-on-wait variables"
    (JObject (assoc_set "_instance_id" (JString instance_id)
                (assoc_set "_signal_id" (JString signal_id) (object_or_empty "variables" source)))).

Definition wait_on_wait_error (id : string) (error : bytes) : result string string :=
  _ ← wait_step M id;
  Ok ("WaitForSignal step '" +:+ id +:+ "' on_wait failed: " +:+ from_utf8_lossy error).

Definition wait_poll_interval_ms (id : string) : result string Z :=
  step ← wait_step M id;
  match json_get "pollIntervalMs" (step_body step) with
  | None => Ok 1000
  | Some (JNumber n) =>
      match as_u64 (JNumber n) with
      | Some ms => Ok ms
      | None => Err ("WaitForSignal step '" +:+ id
                     +:+ "': poll_interval_ms must be a non-negative integer")
      end
  | Some other => Err ("WaitForSignal step '" +:+ id +:+ "': poll_interval_ms must be a number, got: "
                       +:+ json_display other)
  end.

Definition wait_action_mapping (action : option (list (string * json))) (field : string) (source : json) :
  result string json :=
  match action ≫= assoc_get field with
  | None => Ok (JObject [])
  | Some mapping => apply_input_mapping st mapping source
  end.

Definition wait_action (step : DirectJsonStep) : option (list (string * json)) :=
  json_get "action" (step_body step) ≫= as_object.

(** A key that is blank counts as none. *)
Definition wait_action_key (step : DirectJsonStep) : json :=
  match (action ← wait_action step; assoc_get "key" action) ≫= as_str with
  | Some key => if is_empty_str (trim key) then JNull else JString key
  | None => JNull
  end.

Definition wait_event (id signal_id : string) (source : bytes) : result string bytes :=
  source ← from_slice "wait-event source" source;
  step ← wait_step M id;
  correlation ← wait_action_mapping (wait_action step) "correlation" source;
  context ← wait_action_mapping (wait_action step) "context" source;
  to_vec "wait event payload"
    (json_object
      [("type", JString "external_input_requested"); ("signal_id", JString signal_id);
       ("step_id", JString (step_id step));
       ("step_name", JString (default "Unnamed" (step_name step)));
       ("response_schema", default JNull (json_get "responseSchema" (step_body step)));
       ("action_key", wait_action_key step); ("correlation", correlation); ("context", context)]).

Definition wait_step_value (step : DirectJsonStep) (signal_id : string) (payload : json) : json :=
  json_object [("stepId", JString (step_id step));
               ("stepName", JString (default "Unnamed" (step_name step)));
               ("stepType", JString "WaitForSignal"); ("signal_id", JString signal_id);
               ("outputs", payload)].

(** A payload that is not JSON is kept as text. *)
Definition json_or_text (b : bytes) : json := default (JString (from_utf8_lossy b)) (json_from_slice b).

Definition wait_output (id signal_id : string) (signal_payload source : bytes) : result string bytes :=
  source ← from_slice "wait-output source" source;
  step ← wait_step M id;
  to_vec "wait steps context"
    (JObject (assoc_set (step_id step) (wait_step_value step signal_id (json_or_text signal_payload))
                (object_or_empty "steps" source))).

(** ** Log and Error *)

(** The context of the step: its mapping, unless that is missing or empty. *)
Definition configured_context (config source : json) : result string json :=
  match json_get "context" config ≫= as_object with
  | Some ((_ :: _) as context) => apply_input_mapping st (JObject context) source
  | _ => Ok (JObject [])
  end.

Definition config_text (k : string) (config : json) : option string := json_get k config ≫= as_str.

Record DirectLogResult := {
  log_level : string;
  log_message : string;
  log_context : json }.

Definition apply_log (config source : json) : result string DirectLogResult :=
  match config_text "message" config with
  | None => Err "Log step missing message"
  | Some message =>
      context ← configured_context config source;
      Ok {| log_level := default "info" (config_text "level" config); log_message := message;
            log_context := context |}
  end.

Record DirectErrorResult := {
  error_category : string;
  error_code : string;
  error_message : string;
  error_severity : string;
  error_context : json }.

Definition apply_error (config source : json) : result string DirectErrorResult :=
  match config_text "code" config with
  | None => Err "Error step missing code"
  | Some code =>
      match config_text "message" config with
      | None => Err "Error step missing message"
      | Some message =>
          context ← configured_context config source;
          Ok {| error_category := default "permanent" (config_text "category" config);
                error_code := code; error_message := message;
                error_severity := default "error" (config_text "severity" config);
                error_context := context |}
      end
  end.

Definition log_event (now : Z) (log_id : Z) (source : bytes) : result string bytes :=
  source ← from_slice "log-event source" source;
  log ← get_entry "Log" log_id (logs M);
  details ← apply_log (config_value log) source;
  to_vec "log event payload"
    (json_object [("step_id", JString (config_step_id log));
                  ("step_name", JString (default "Unnamed" (config_name log)));
                  ("level", JString (log_level details)); ("message", JString (log_message details));
                  ("context", log_context details); ("timestamp_ms", number_of_i64 now)]).

Definition log (log_id : Z) (source : bytes) : result string bytes :=
  source ← from_slice "log source" source;
  log ← get_entry "Log" log_id (logs M);
  details ← apply_log (config_value log) source;
  to_vec "log steps context"
    (JObject (insert_step_output source (config_step_id log) (config_name log) "Log"
                (json_object [("level", JString (log_level details));
                              ("message", JString (log_message details))]) None)).

Definition error_event (now : Z) (error_id : Z) (source : bytes) : result string bytes :=
  source ← from_slice "error-event source" source;
  error ← get_entry "Error" error_id (errors M);
  details ← apply_error (config_value error) source;
  to_vec "error event payload"
    (json_object [("step_id", JString (config_step_id error));
                  ("step_name", JString (default "Unnamed" (config_name error)));
                  ("category", JString (error_category details)); ("code", JString (error_code details));
                  ("message", JString (error_message details));
                  ("severity", JString (error_severity details));
                  ("context", error_context details); ("timestamp_ms", number_of_i64 now)]).

Definition error_payload (error : DirectJsonConfig) (details : DirectErrorResult) : json :=
  json_object [("stepId", JString (config_step_id error));
               ("stepName", JString (default "Unnamed" (config_name error)));
               ("category", JString (error_category details)); ("code", JString (error_code details));
               ("message", JString (error_message details));
               ("severity", JString (error_severity details)); ("context", error_context details)].

Definition error (error_id : Z) (source : bytes) : result string bytes :=
  source ← from_slice "error source" source;
  error ← get_entry "Error" error_id (errors M);
  details ← apply_error (config_value error) source;
  to_vec "error failure payload" (error_payload error details).

(** ** Agents *)

Inductive AgentInputMissingReason := NotProvided | WasNull.

Definition missing_code (reason : AgentInputMissingReason) : string :=
  match reason with
  | NotProvided => "STEP_REQUIRED_INPUT_MISSING"
  | WasNull => "STEP_REQUIRED_INPUT_NULL"
  end.

Definition missing_text (reason : AgentInputMissingReason) : string :=
  match reason with NotProvided => "not provided" | WasNull => "was null" end.

Definition input_reason (input : option (list (string * json))) (name : string) :
  option AgentInputMissingReason :=
  match input ≫= assoc_get name with
  | None => Some NotProvided
  | Some JNull => Some WasNull
  | Some _ => None
  end.

(** The required inputs that are missing, with the reason. *)
Definition missing_inputs (agent : DirectJsonAgent) (input : json) :
  list (DirectJsonRequiredAgentInput * AgentInputMissingReason) :=
  omap (λ field, pair field <$> input_reason (as_object input) (required_name field))
    (required_inputs agent).

(** [Display] of [AgentInputValidationError], and its JSON. *)
Definition validation_text (agent : DirectJsonAgent)
  (missing : list (DirectJsonRequiredAgentInput * AgentInputMissingReason)) : string :=
  "Agent step '" +:+ agent_step_id agent +:+ "' is missing required inputs for '" +:+ agent_id agent
  +:+ ":" +:+ capability_id agent +:+ "':" +:+ newline
  +:+ concat_str ((λ '(field, reason),
        "  - " +:+ required_name field +:+ " (" +:+ required_field_type field +:+ ")"
        +:+ match required_description field with Some d => ": " +:+ d | None => "" end
        +:+ " [" +:+ missing_text reason +:+ "]" +:+ newline) <$> missing).

Definition validation_error (agent : DirectJsonAgent)
  (missing : list (DirectJsonRequiredAgentInput * AgentInputMissingReason)) : json :=
  json_object
    [("code", JString (default "STEP_REQUIRED_INPUT_MISSING"
                         ((λ '(_, reason), missing_code reason) <$> head missing)));
     ("message", JString (validation_text agent missing)); ("category", JString "permanent");
     ("severity", JString "error"); ("stepId", JString (agent_step_id agent));
     ("stepName", opt_str (agent_name agent)); ("stepType", JString "Agent");
     ("agentId", JString (agent_id agent)); ("capabilityId", JString (capability_id agent));
     ("missingInputs", JArray ((λ '(field, reason),
        json_object [("field", JString (required_name field));
                     ("expectedType", JString (required_field_type field));
                     ("description", opt_str (required_description field));
                     ("reason", JString (missing_text reason));
                     ("code", JString (missing_code reason))]) <$> missing))].

(** No text when the inputs are complete. *)
Definition agent_validate_input (id : Z) (input : bytes) : result string (option json) :=
  input ← from_slice "Agent input" input;
  agent ← get_entry "Agent" id (agents M);
  let missing := missing_inputs agent input in
  Ok (if decide (missing = []) then None else Some (validation_error agent missing)).

(** A camel-case key of the descriptor renamed, unless the other is there. *)
Definition rename_key (snake camel : string) (m : list (string * json)) : list (string * json) :=
  match assoc_get snake m, assoc_get camel m with
  | None, Some v => assoc_set snake v (filter (λ kv, kv.1 ≠ camel) m)
  | _, _ => m
  end.

Definition agent_connection_input (id : Z) (input descriptor : bytes) : result string bytes :=
  _ ← get_entry "Agent" id (agents M);
  input ← from_slice "Agent input for connection" input;
  descriptor ← from_slice "resolved connection descriptor" descriptor;
  match as_object descriptor with
  | None => Err "resolved connection descriptor must be a JSON object"
  | Some d =>
      let d := rename_key "connection_id" "connectionId" d in
      let d := rename_key "integration_id" "integrationId" d in
      let d := rename_key "connection_subtype" "connectionSubtype" d in
      match assoc_get "connection_id" d ≫= as_str with
      | None | Some EmptyString =>
          Err "resolved connection descriptor has no non-empty connection_id"
      | Some connection_id =>
          let d := assoc_set "parameters" (JObject []) d in
          to_vec "Agent input"
            (match input with
             | JObject m =>
                 JObject (assoc_set "_connection" (JObject d)
                            (assoc_set "connection_id" (JString connection_id) m))
             | _ => input
             end)
      end
  end.

(** The id, empty when there is no connection. *)
Definition resolve_connection_id (id : Z) (source : bytes) : result string string :=
  agent ← get_entry "Agent" id (agents M);
  match agent_connection_ref agent with
  | Some ref =>
      source ← from_slice "source for connection resolution" source;
      resolved ← apply_mapping_value st ref source;
      match resolved with
      | JString id => Ok id
      | JNull => Ok ""
      | other => Err ("connection_ref for Agent " +:+ show_Z id
                      +:+ " must resolve to a string id, got " +:+ json_display other)
      end
  | None => Ok (default "" (agent_connection_id agent))
  end.

Definition agent_output (id : Z) (source output : bytes) : result string bytes :=
  source ← from_slice "agent-output source" source;
  output ← from_slice "Agent output" output;
  agent ← get_entry "Agent" id (agents M);
  to_vec "Agent steps context"
    (JObject (insert_step_output source (agent_step_id agent) (agent_name agent) "Agent" output None)).

(** *** Errors of agents *)

Definition agent_error_code_is_rate_limited (code : string) : bool := contains code "RATE_LIMITED".

Definition agent_error_info_envelope (code message category severity : string) (retryable : bool)
  (retry_after_ms : option Z) (attributes : option string) : json :=
  json_object
    ([("code", JString code); ("message", JString message); ("category", JString category);
      ("severity", JString severity); ("retryable", JBool retryable)]
     ++ option_list ((λ ms, ("retryAfterMs", num ms)) <$> retry_after_ms)
     ++ option_list ((λ v, ("attributes", v)) <$> (attributes ≫= json_from_str))).

(** [DirectJsonAgentRetryError]; its payload is the text of a value. *)
Record AgentRetryError := {
  retry_payload : json;
  retry_retryable : bool;
  retry_rate_limited : bool }.

Definition agent_retry_error_info (code message category severity : string) (retryable : bool)
  (retry_after_ms : option Z) (attributes : option string) : AgentRetryError :=
  {| retry_payload :=
       agent_error_info_envelope code message category severity retryable retry_after_ms attributes;
     retry_retryable := retryable && bool_decide (category ≠ "permanent");
     retry_rate_limited := agent_error_code_is_rate_limited code |}.

Definition failure_text (agent : DirectJsonAgent) (raw : string) : string :=
  "Step " +:+ agent_step_id agent +:+ " failed: Agent " +:+ agent_id agent +:+ "::"
  +:+ capability_id agent +:+ ": " +:+ raw.

Definition agent_error (id : Z) (code message category severity : string) (retryable : bool)
  (retry_after_ms : option Z) (attributes : option string) : result string string :=
  agent ← get_entry "Agent" id (agents M);
  Ok (failure_text agent (json_display
    (agent_error_info_envelope code message category severity retryable retry_after_ms attributes))).

Record WorkflowRetryInfo := {
  info_retryable : bool;
  info_rate_limited : bool;
  info_retry_after_ms : option Z }.

(** [AUTO_RETRY_ON_429], parsed as a boolean, true by default *)
Definition auto_retry (env : option string) : bool :=
  match env with
  | Some s => if decide (s = "true") then true else if decide (s = "false") then false else true
  | None => true
  end.

Definition workflow_retry_info (env : option string) (error : bytes) : WorkflowRetryInfo :=
  match json_from_slice error with
  | None => {| info_retryable := true; info_rate_limited := false; info_retry_after_ms := None |}
  | Some parsed =>
      let code := default "" (config_text "code" parsed) in
      let rate_limited :=
        agent_error_code_is_rate_limited code || bool_decide (code = "HTTP_RATE_LIMITED") in
      {| info_retryable :=
           bool_decide (config_text "category" parsed ≠ Some "permanent")
           && (negb rate_limited || auto_retry env);
         info_rate_limited := rate_limited;
         info_retry_after_ms := json_get "retryAfterMs" parsed ≫= as_u64 |}
  end.

Record DirectInvokeErrorFields := {
  ie_code : string;
  ie_message : string;
  ie_category : string;
  ie_severity : string;
  ie_retryable : bool;
  ie_retry_after_ms : option Z;
  ie_attributes : option string }.

Definition invoke_error_fields (error : bytes) : DirectInvokeErrorFields :=
  let raw := from_utf8_lossy error in
  match json_from_slice error with
  | Some (JObject envelope) =>
      let field (name : string) := default "" (config_text name (JObject envelope)) in
      {| ie_code :=
           if decide (field "code" = "__rt_suspended__") then "__rt_suspended__:user" else field "code";
         ie_message := default raw (config_text "message" (JObject envelope));
         ie_category := field "category"; ie_severity := field "severity";
         ie_retryable := default false (assoc_get "retryable" envelope ≫= as_bool);
         ie_retry_after_ms := assoc_get "retryAfterMs" envelope ≫= as_u64;
         ie_attributes :=
           value ← match assoc_get "attributes" envelope with
                   | Some v => Some v
                   | None => assoc_get "context" envelope
                   end;
           if is_null value then None else Some (json_display value) |}
  | _ =>
      {| ie_code := ""; ie_message := raw; ie_category := ""; ie_severity := "";
         ie_retryable := false; ie_retry_after_ms := None; ie_attributes := None |}
  end.

(** The result of one attempt: four bytes, the delay in eight, the payload. *)
Definition byte_of_bool (b : bool) : Byte.byte := if b then Byte.x01 else Byte.x00.
Definition byte_of_Z (n : Z) : Byte.byte := default Byte.x00 (Byte.of_N (Z.to_N (n mod 256))).

Fixpoint to_le_bytes (count : nat) (n : Z) : bytes :=
  match count with
  | O => []
  | S count => byte_of_Z n :: to_le_bytes count (n / 256)
  end.

Definition agent_attempt_envelope (tag : Byte.byte) (retryable rate_limited retry_after_tag : bool)
  (retry_after_ms : Z) (payload : bytes) : bytes :=
  [tag; byte_of_bool retryable; byte_of_bool rate_limited; byte_of_bool retry_after_tag]
  ++ to_le_bytes 8 retry_after_ms ++ payload.

Definition agent_error_from_info (not_utf8 : bytes → string) (id : Z) (error_info : bytes) :
  result string string :=
  agent ← get_entry "Agent" id (agents M);
  match from_utf8 error_info with
  | Some raw => Ok (failure_text agent raw)
  | None => Err ("Agent error-info JSON was not UTF-8: " +:+ not_utf8 error_info)
  end.

(** ** Turns of an AI agent *)

Definition extract_ai_final_text (choice : json) : string :=
  default "" (head (omap (config_text "text") (default [] (as_array choice)))).

Definition ai_outputs (response iterations tool_calls : json) : json :=
  json_object [("response", response); ("iterations", iterations); ("toolCalls", tool_calls)].

Definition ai_agent_output (id : Z) (source output : bytes) : result string bytes :=
  source ← from_slice "ai-agent-output source" source;
  output ← from_slice "AiAgent output" output;
  agent ← get_entry "Agent" id (agents M);
  let text := JString (extract_ai_final_text (default JNull (json_get "choice" output))) in
  let response :=
    match json_get "structured_output" output with
    | Some value => if is_null value then text else value
    | None => text
    end in
  to_vec "AiAgent steps context"
    (JObject (insert_step_output source (agent_step_id agent) (agent_name agent) "AiAgent"
                (ai_outputs response (num 1) (JArray [])) None)).

Definition ai_turn_next_input (base turn_out pending : bytes) : result string bytes :=
  base ← from_slice "ai-turn base" base;
  turn_out ← from_slice "ai-turn output" turn_out;
  pending ← from_slice "ai-turn pending" pending;
  let input := default [] (as_object base) in
  let input := assoc_set "chat_history" (default (JArray []) (json_get "chat_history" turn_out)) input in
  let input := assoc_set "iterations" (default (num 0) (json_get "iterations" turn_out)) input in
  let input := assoc_set "tool_call_log" (default (JArray []) (json_get "tool_call_log" turn_out)) input in
  to_vec "ai-turn input" (JObject (assoc_set "pending_tool_results" pending input)).

Definition ai_turn_cache_key (id : string) (iteration : Z) (source : bytes) : result string string :=
  source ← from_slice "ai-turn-cache-key source" source;
  Ok (scoped source (id +:+ ".turn." +:+ show_Z iteration +:+ wait_loop_indices_suffix source)).

Definition ai_turn_snapshot (state pending : bytes) (tool_calls : Z) (complete : bool) :
  result string bytes :=
  state ← from_slice "ai-turn snapshot state" state;
  pending ← from_slice "ai-turn snapshot pending" pending;
  to_vec "ai-turn snapshot"
    (json_object [("state", state); ("pending", pending); ("toolCalls", num tool_calls);
                  ("complete", JBool complete)]).

Definition ai_turn_snapshot_part (snapshot : bytes) (part : Z) : result string bytes :=
  snapshot ← from_slice "ai-turn snapshot" snapshot;
  if part =? 0 then to_vec "ai-turn snapshot part" (default JNull (json_get "state" snapshot))
  else if part =? 1 then
    to_vec "ai-turn snapshot part" (default (JArray []) (json_get "pending" snapshot))
  else Err ("unknown ai-turn snapshot part " +:+ show_Z part).

(** [n as u32] *)
Definition as_u32 (n : Z) : Z := n mod 2 ^ 32.

Definition ai_turn_snapshot_tool_calls (snapshot : bytes) : result string Z :=
  snapshot ← from_slice "ai-turn snapshot" snapshot;
  Ok (as_u32 (default 0 (json_get "toolCalls" snapshot ≫= as_u64))).

Definition ai_turn_snapshot_complete (snapshot : bytes) : result string bool :=
  snapshot ← from_slice "ai-turn snapshot" snapshot;
  Ok (default false (json_get "complete" snapshot ≫= as_bool)).

Definition ai_turn_is_complete (turn_out : bytes) : result string bool :=
  turn_out ← from_slice "ai-turn output" turn_out;
  Ok (bool_decide (config_text "action" turn_out = Some "complete")).

Definition turn_calls (turn_out : json) : list json :=
  default [] (json_get "tool_calls" turn_out ≫= as_array).

Definition turn_call (turn_out : json) (index : Z) : option json := get_item (turn_calls turn_out) index.

Definition ai_turn_tool_count (turn_out : bytes) : result string Z :=
  turn_out ← from_slice "ai-turn output" turn_out;
  Ok (as_u32 (Z.of_nat (length (turn_calls turn_out)))).

Definition ai_turn_tool_args (turn_out : bytes) (index : Z) : result string bytes :=
  turn_out ← from_slice "ai-turn output" turn_out;
  to_vec "ai-turn tool args"
    (default (JObject []) (turn_call turn_out index ≫= json_get "arguments")).

Definition ai_tool_args_with_timeout (args : bytes) (timeout_ms : Z) : result string bytes :=
  args ← from_slice "ai tool args" args;
  to_vec "ai tool args with timeout"
    (match args with JObject m => JObject (assoc_set "timeout_ms" (num timeout_ms) m) | _ => args end).

Definition ai_turn_tool_index (turn_out : bytes) (index : Z) : result string Z :=
  turn_out ← from_slice "ai-turn output" turn_out;
  Ok (default (2 ^ 32 - 1)
        (as_u32 <$> ((call ← turn_call turn_out index; json_get "tool_index" call) ≫= as_u64))).

Definition ai_turn_add_result (not_a_list : json → string) (pending turn_out : bytes) (index : Z)
  (result_ : bytes) : result string bytes :=
  pending ← from_slice "ai-turn pending" pending;
  match pending with
  | JArray items =>
      turn_out ← from_slice "ai-turn output" turn_out;
      let id := default JNull (turn_call turn_out index ≫= json_get "tool_call_id") in
      to_vec "ai-turn pending"
        (JArray (items ++ [json_object [("tool_call_id", id); ("content", json_or_text result_)]]))
  | other => Err ("failed to parse ai-turn pending: " +:+ not_a_list other)
  end.

Definition ai_memory_initial_state (load_output : bytes) : result string bytes :=
  load ← from_slice "load-memory output" load_output;
  to_vec "ai-memory state"
    (json_object [("chat_history", default (JArray []) (json_get "messages" load));
                  ("iterations", num 0); ("tool_call_log", JArray [])]).

Definition ai_memory_save_input (conversation final_state : bytes) : result string bytes :=
  conversation ← from_slice "ai-memory conversation" conversation;
  state ← from_slice "ai-memory state" final_state;
  to_vec "ai-memory save input"
    (json_object [("conversation_id", default JNull (json_get "conversation_id" conversation));
                  ("messages", default (JArray []) (json_get "chat_history" state))]).

(** The last [max] messages. *)
Definition compact_sliding (state : json) (max : nat) : json :=
  match state, json_get "chat_history" state ≫= as_array with
  | JObject m, Some history =>
      JObject (assoc_update "chat_history" (JArray (drop (length history - max) history)) m)
  | _, _ => state
  end.

Definition ai_memory_compact_sliding (state : bytes) (max_messages : Z) : result string bytes :=
  state ← from_slice "ai-memory state" state;
  to_vec "ai-memory state" (compact_sliding state (Z.to_nat max_messages)).

Definition ai_summarize_input (base state : bytes) (max_messages : Z) : result string bytes :=
  base ← from_slice "ai-summarize base" base;
  state ← from_slice "ai-summarize state" state;
  let model := match json_get "model" base with
               | Some v => if is_null v then [] else [("model", v)]
               | None => []
               end in
  to_vec "ai-summarize input"
    (json_object (model ++ [("max_messages", num max_messages); ("state", state)])).

Definition ai_summarize_output (result_ : bytes) : result string bytes :=
  result_ ← from_slice "summarize-memory output" result_;
  to_vec "ai-summarize state" (default (JObject []) (json_get "state" result_)).

Definition ai_turn_output (id : Z) (source turn_out : bytes) : result string bytes :=
  source ← from_slice "ai-turn source" source;
  turn_out ← from_slice "ai-turn output" turn_out;
  agent ← get_entry "Agent" id (agents M);
  to_vec "AiAgent steps context"
    (JObject (insert_step_output source (agent_step_id agent) (agent_name agent) "AiAgent"
                (ai_outputs (default JNull (json_get "response" turn_out))
                            (default (num 0) (json_get "iterations" turn_out))
                            (default (JArray []) (json_get "tool_call_log" turn_out))) None)).
End calls.
