(* ===== verification/AgentCall.v ===== *)
(** * runtara-workflows: the call of an agent in the emitted code

    [compile/agent.rs] (the lines from the cache key to the step's output),
    [compile/agent_retry.rs], [compile/checkpoint.rs]: the instructions emitted for a
    call of an agent, as the program they run.  A durable call looks its result up under
    its cache key, and calls the agent only where there is none; every failed attempt is
    stored before the wait for the next one, so that a run that starts over goes on with
    the attempt it was in.

    The locals of the function that a call writes are the record [AgentLocals]; they are
    shared by all calls of a run, and are zero when it starts.  A loop of the emitted code
    takes a number of rounds. *)

From S2P Require Import Prelude.
From S2P Require Import CoreTypes.
From S2P Require Import Json.
From S2P Require Import Text.
From S2P Require Import Persistence.
From S2P Require Import EnvTables.
From S2P Require Import Effects.
From S2P Require Import InstanceHandlers.
From S2P Require Import RuntimeHost.
From S2P Require Import GuestStore.
From S2P Require Import GuestPaths.
From S2P Require Import GuestExpr.
From S2P Require Import GuestSteps.
From S2P Require Import GuestManifest.
From S2P Require Import GuestKeys.
From S2P Require Import GuestCalls.

(** What the plan says of a call. *)
Record AgentCall := {
  call_component : string;
  call_capability_id : string;
  (** the value of [agent-cache-key] *)
  call_key : string;
  call_durable : bool;
  call_max_retries : Z;
  call_retry_delay_ms : Z;
  call_rate_limit_budget_ms : Z;
  (** the agent is a workflow compiled as an agent *)
  call_is_workflow : bool;
  (** what the injection of the connection makes of the input *)
  call_connection_input : bytes → result string bytes }.

Record AgentLocals := {
  attempt : Z;
  error_info : bytes;
  sleep_tag : bool;
  retryable : bool;
  rate_limited : bool;
  sleep_ms : Z;
  wait_total : Z;
  hit_flag : bool;
  err_flag : bool;
  (** the slot a parallel launch has filled with the result of the first attempt *)
  memo : option (result ErrorInfo bytes) }.

Definition zero_locals : AgentLocals :=
  {| attempt := 0; error_info := []; sleep_tag := false; retryable := false;
     rate_limited := false; sleep_ms := 0; wait_total := 0; hit_flag := false;
     err_flag := false; memo := None |}.

(** How a call ends other than with an output: the error goes to the error route of the
    step; the function returns with the instance suspended, or with an error. *)
Inductive CallStop :=
| StepError (locals : AgentLocals) (error_info : bytes)
| Suspended
| Returned (error : string)
(** a stored attempt that was no failure: never written *)
| NotAFailure
| OutOfRounds.

Definition AGENT_SUSPEND_SENTINEL_CODE : string := "__rt_suspended__".
Definition DIRECT_AGENT_RATE_LIMIT_WAIT : bytes := list_byte_of_string "rate_limit_wait".

(** [emit_get_checkpoint_has_value]: a failed lookup counts as no value. *)
Definition has_value (looked_up : result string (option bytes)) : option bytes :=
  match looked_up with Ok value => value | Err _ => None end.

(** ** Envelopes of attempts *)

Definition envelope_of (l : AgentLocals) : bytes :=
  agent_attempt_envelope Byte.x01 (retryable l) (rate_limited l) (sleep_tag l) (sleep_ms l)
    (error_info l).

(** A load of a byte tested for not zero, and of a little-endian [i64]. *)
Definition load_flag (env : bytes) (offset : nat) : bool :=
  bool_decide (default Byte.x00 (env !! offset) ≠ Byte.x00).

Fixpoint from_le_bytes (b : bytes) : Z :=
  match b with
  | [] => 0
  | x :: b => Z.of_N (Byte.to_N x) + 256 * from_le_bytes b
  end.

(** [emit_agent_attempt_decode] *)
Definition attempt_decode (env : bytes) (l : AgentLocals) : AgentLocals :=
  {| l with
     err_flag := load_flag env 0;
     retryable := load_flag env 1;
     rate_limited := load_flag env 2;
     sleep_tag := load_flag env 3;
     sleep_ms := from_le_bytes (take 8 (drop 4 env));
     error_info := drop 12 env |}.

(** ** Retries *)

(** [emit_agent_retry_condition] *)
Definition retry_condition (c : AgentCall) (l : AgentLocals) : AgentLocals * bool :=
  if retryable l then
    if rate_limited l then
      let total :=
        wrap_u64 (wait_total l + (if sleep_tag l then sleep_ms l else call_retry_delay_ms c)) in
      ({| l with wait_total := total |}, total <=? call_rate_limit_budget_ms c)
    else (l, attempt l <=? call_max_retries c)
  else (l, false).

(** [emit_agent_advance_retry_attempt] *)
Definition advance_attempt (l : AgentLocals) : AgentLocals :=
  {| l with attempt := wrap_u32 (attempt l + 1) |}.

(** [emit_agent_retry_delay] *)
Definition next_delay (c : AgentCall) (l : AgentLocals) : AgentLocals :=
  {| l with sleep_ms :=
       retry_delay_ms (attempt l) (wrap_u32 (call_max_retries c + 1)) (call_retry_delay_ms c)
         (call_rate_limit_budget_ms c) (if sleep_tag l then Some (sleep_ms l) else None) |}.

Section call.
Context `{Ext, JsonDisplay} (host : PersistenceRuntimeHost) (c : AgentCall).

(** The text of the error envelope. *)
Definition error_info_payload (info : ErrorInfo) : bytes :=
  list_byte_of_string (json_display
    (agent_error_info_envelope (ei_code info) (ei_message info) (ei_category info)
       (ei_severity info) (ei_retryable info) (ei_retry_after_ms info) (ei_attributes info))).

(** [emit_agent_capture_retry_sleep] and [emit_agent_retry_error_info] *)
Definition classify (info : ErrorInfo) (l : AgentLocals) : AgentLocals :=
  let retry :=
    agent_retry_error_info (ei_code info) (ei_message info) (ei_category info)
      (ei_severity info) (ei_retryable info) (ei_retry_after_ms info) (ei_attributes info) in
  {| l with
     sleep_tag := bool_decide (is_Some (ei_retry_after_ms info));
     sleep_ms := default (sleep_ms l) (ei_retry_after_ms info);
     error_info := list_byte_of_string (json_display (retry_payload retry));
     retryable := retry_retryable retry;
     rate_limited := retry_rate_limited retry |}.

(** [emit_agent_invoke]: the input with the connection, and the answer.  A composed
    workflow that suspended suspends this one too. *)
Definition agent_invoke (input : bytes) :
  prog (result CallStop (bytes * result ErrorInfo bytes)) :=
  match call_connection_input c input with
  | Err e =>
      let! _ := host_fail host (list_byte_of_string e) in
      err (Returned e)
  | Ok input =>
      let! answer :=
        trigger (InvokeAgent (host_instance_id host) (call_component c) (call_capability_id c)
                   input) in
      match answer with
      | Err info =>
          if call_is_workflow c && bool_decide (ei_code info = AGENT_SUSPEND_SENTINEL_CODE)
          then err Suspended else ok (input, answer)
      | Ok _ => ok (input, answer)
      end
  end.

(** A filled slot is taken once, in place of the call. *)
Definition agent_answer (input : bytes) (l : AgentLocals) :
  prog (result CallStop (AgentLocals * bytes * result ErrorInfo bytes)) :=
  match memo l with
  | Some answer => ok ({| l with memo := None |}, input, answer)
  | None =>
      let? (input, answer) := agent_invoke input in
      ok (l, input, answer)
  end.

(** [emit_agent_retry_sleep]: the key of the wait is built in the locals of the error. *)
Definition retry_sleep (l : AgentLocals) : prog (result CallStop AgentLocals) :=
  let slept (l : AgentLocals) (r : result string unit) : result CallStop AgentLocals :=
    match r with Ok _ => Ok l | Err e => Err (Returned e) end in
  if call_durable c then
    if sleep_tag l then
      let key := retry_sleep_key (call_key c) (attempt l) in
      let l := {| l with error_info := list_byte_of_string key |} in
      let! r := durable_sleep_checkpoint host key DIRECT_AGENT_RATE_LIMIT_WAIT (sleep_ms l) in
      Ret (slept l r)
    else
      let! r := durable_sleep host (sleep_ms l) in
      Ret (slept l r)
  else
    let! r := blocking_sleep (sleep_ms l) in
    Ret (slept l r).

(** The wait before the next attempt, and its audit record. *)
Definition backoff (l : AgentLocals) : prog (result CallStop AgentLocals) :=
  let? l := retry_sleep (next_delay c l) in
  if call_durable c then
    let! r :=
      record_retry_attempt host (call_key c) (attempt l)
        (Some (string_of_list_byte (error_info l))) in
    Ret (match r with Ok _ => Ok l | Err e => Err (Returned e) end)
  else ok l.

(** ** Attempts *)

(** One attempt, run or replayed: the locals, the input, and the output if it succeeded. *)
Definition run_attempt (input : bytes) (l : AgentLocals) :
  prog (result CallStop (AgentLocals * bytes * option bytes)) :=
  let? (l, input, answer) := agent_answer input l in
  match answer with
  | Ok output => ok ({| l with err_flag := false |}, input, Some output)
  | Err info => ok (classify info {| l with err_flag := true |}, input, None)
  end.

Definition durable_attempt (input : bytes) (l : AgentLocals) :
  prog (result CallStop (AgentLocals * bytes * option bytes)) :=
  let key := agent_attempt_result_key (call_key c) (attempt l) in
  let! looked_up := get_checkpoint host key in
  match has_value looked_up with
  | Some env => ok (attempt_decode env {| l with hit_flag := true |}, input, None)
  | None =>
      let? (l, input, output) := run_attempt input {| l with hit_flag := false |} in
      if err_flag l then
        let! saved := checkpoint host key (envelope_of l) in
        match saved with
        | Ok _ => ok (l, input, output)
        | Err e => err (Returned e)
        end
      else ok (l, input, output)
  end.

Fixpoint attempts (rounds : nat) (input : bytes) (l : AgentLocals) :
  prog (result CallStop (AgentLocals * bytes)) :=
  match rounds with
  | O => err OutOfRounds
  | S rounds =>
      let? (l, input, output) :=
        if call_durable c then durable_attempt input l else run_attempt input l in
      if err_flag l then
        let (l, again) := retry_condition c l in
        if again then
          let l := advance_attempt l in
          let? l := if call_durable c && hit_flag l then ok l else backoff l in
          attempts rounds input l
        else err (StepError l (error_info l))
      else
        match output with
        | Some output => ok (l, output)
        | None => err NotAFailure
        end
  end.

(** The call: with a loop of attempts, or a single one. *)
Definition invoke_with_retries (rounds : nat) (input : bytes) (l : AgentLocals) :
  prog (result CallStop (AgentLocals * bytes)) :=
  if 0 <? call_max_retries c then attempts rounds input {| l with attempt := 1 |}
  else
    let? (l, _, answer) := agent_answer input l in
    match answer with
    | Ok output => ok (l, output)
    | Err info => err (StepError l (error_info_payload info))
    end.

(** ** Checkpoints *)

(** [emit_checkpoint_save]: a failed save is ignored; a pending signal may stop the run. *)
Definition checkpoint_save (l : AgentLocals) (output : bytes) :
  prog (result CallStop (AgentLocals * bytes)) :=
  let! saved := checkpoint host (call_key c) output in
  match saved with
  | Ok {| rcr_pending_signal := Some signal |} =>
      let! (_, handled) := handle_checkpoint_signal host (rsi_signal_type signal) in
      Ret (match handled with
           | Ok true => Err Suspended
           | Ok false => Ok (l, output)
           | Err e => Err (Returned e)
           end)
  | _ => ok (l, output)
  end.

Definition agent_call (rounds : nat) (input : bytes) (l : AgentLocals) :
  prog (result CallStop (AgentLocals * bytes)) :=
  if call_durable c then
    let! looked_up := get_checkpoint host (call_key c) in
    match has_value looked_up with
    | Some output => ok (l, output)
    | None =>
        let? (l, output) := invoke_with_retries rounds input l in
        checkpoint_save l output
    end
  else invoke_with_retries rounds input l.
End call.

(** ** A run

    The calls of a workflow without branches, one after the other; the input of each is
    made of the outputs before it. *)
Fixpoint run_calls `{Ext, JsonDisplay} (host : PersistenceRuntimeHost) (rounds : nat)
  (input_of : AgentCall → list bytes → bytes) (calls : list AgentCall) (outputs : list bytes)
  (l : AgentLocals) : prog (result CallStop (list bytes)) :=
  match calls with
  | [] => ok outputs
  | c :: calls =>
      let? (l, output) := agent_call host c rounds (input_of c outputs) l in
      run_calls host rounds input_of calls (outputs ++ [output]) l
  end.
