(* ===== verification/AgentCallProperties.v ===== *)
(** * Calls of agents across crashes

    A run of a workflow can be cut off at any point, by a crash, a kill or a drain, and is
    started over from the beginning.  The theorems of this file follow all the lives of an
    instance together: how often its agents are called in total, and what a later life
    sees of a call that an earlier one has finished. *)

From S2P Require Import Prelude.
From S2P Require Import CoreTypes.
From S2P Require Import Json.
From S2P Require Import Text.
From S2P Require Import Persistence.
From S2P Require Import EnvTables.
From S2P Require Import Effects.
From S2P Require Import Protocols.
From S2P Require Import InstanceHandlers.
From S2P Require Import DbInvariants.
From S2P Require Import Scenarios.
From S2P Require Import CoreProperties.
From S2P Require Import RuntimeHost.
From S2P Require Import GuestStore.
From S2P Require Import GuestPaths.
From S2P Require Import GuestExpr.
From S2P Require Import GuestSteps.
From S2P Require Import GuestManifest.
From S2P Require Import GuestKeys.
From S2P Require Import GuestCalls.
From S2P Require Import AgentCall.

(** ** Vocabulary of the statements *)

Definition invokes (i : string) (o : obs) : bool :=
  match o with Invoked j _ _ _ => bool_decide (j = i) | _ => false end.

(** Calls of agents for the instance [i] so far. *)
Definition invocations (i : string) (w : world) : Z :=
  Z.of_nat (length (filter (λ o, invokes i o = true) (w_log w))).

Definition attempt_key (c : AgentCall) (a : Z) : string :=
  agent_attempt_result_key (call_key c) a.

(** Where the results of a call are stored: the call's own key, and one for every attempt. *)
Definition call_keys (c : AgentCall) : list string :=
  call_key c :: (attempt_key c <$> seqZ 1 (call_max_retries c + 1)).

(** What a call writes beside them: waits and audit records. *)
Definition side_keys (c : AgentCall) : list string :=
  DURABLE_SLEEP_CHECKPOINT_ID ::
  concat ((λ n, [retry_checkpoint_id (call_key c) (wrap_i32 n); retry_sleep_key (call_key c) n])
            <$> seqZ 2 (call_max_retries c)).

Definition all_keys (calls : list AgentCall) : list string := concat (call_keys <$> calls).

(** How often the agents of the calls may be called in one uninterrupted run. *)
Definition planned_attempts (calls : list AgentCall) : Z :=
  foldr (λ c n, call_max_retries c + 1 + n) 0 calls.

(** The stored results of the calls are untouched, and no agent was called. *)
Definition kept (i : string) (calls : list AgentCall) (w w' : world) : Prop :=
  (∀ k, k ∈ all_keys calls →
     checkpoints (w_db w') !! (i, k) = checkpoints (w_db w) !! (i, k)) ∧
  invocations i w' = invocations i w.

(** What the tasks beside a life of the instance may do: all but that, or stop it. *)
Definition alongside (i : string) (calls : list AgentCall) (w w' : world) : Prop :=
  kept i calls w w' ∧ (running i (w_db w) → running i (w_db w')).

(** No fault, and the agent answers with an output, or an error that is no rate limit. *)
Definition plain (t : tick) : Prop :=
  calm t ∧
  match t_answer t with
  | Ok output => output ≠ []
  | Err info => agent_error_code_is_rate_limited (ei_code info) = false
  end.

(** [calls] have keys of their own and are all durable. *)
Record durable_calls (calls : list AgentCall) : Prop := {
  dc_durable c : c ∈ calls → call_durable c = true;
  dc_retries c : c ∈ calls → 0 ≤ call_max_retries c < 2 ^ 32 - 1;
  dc_keys : NoDup (all_keys calls);
  dc_side c k : c ∈ calls → k ∈ side_keys c → k ∉ all_keys calls }.

Section lives.
Context `{Ext, JsonDisplay} (host : PersistenceRuntimeHost) (rounds : nat).
Context (input_of : AgentCall → list bytes → bytes) (calls : list AgentCall).
#[local] Abbreviation i := (host_instance_id host).

(** [lives w0 n w]: from [w0], the instance was launched [n] times and ended up in [w].
    Every life runs the calls from the start, beside any tasks, and is left anywhere;
    between two lives the instance is made running again. *)
Inductive lives (w0 : world) : nat → world → Prop :=
| lives_none : lives w0 0 w0
| lives_next n w w1 l p l' w' :
    lives w0 n w → kept i calls w w1 → running i (w_db w1) →
    Forall (all_effs (λ _, Guarantees (alongside i calls))) l →
    rtc (focus_step plain) (run_calls host rounds input_of calls [] zero_locals, l, w1) (p, l', w') →
    lives w0 (S n) w'.
End lives.

(** ** Effects that leave the results of calls alone *)

Definition same_checkpoint (key : string * string) (db db' : Db) : Prop :=
  checkpoints db' !! key = checkpoints db !! key.

#[export] Instance same_checkpoint_preorder key : PreOrder (same_checkpoint key).
Proof. split; [done|]. intros ??? H1 H2. unfold same_checkpoint in *. congruence. Qed.

Lemma untouched_op key {A} (o : pop A) :
  ¬ writes_checkpoint key o → DbGuarantees (same_checkpoint key) o.
Proof.
  intros Hw c db. unfold same_checkpoint.
  assert (Hupd : ∀ i f, checkpoints (update_instance i f db).2 = checkpoints db).
  { intros i f. by rewrite update_instance_db. }
  destruct o; simpl in *; try done; unfold_ops;
    repeat (case_goal; simplify_eq/=; try done);
    try (by rewrite Hupd);
    try (match goal with H : update_instance ?i ?f db = _ |- _ =>
           by rewrite <-(Hupd i f), H end);
    try (rewrite lookup_insert_ne; [done|]; intros Heq; by apply Hw).
  rewrite map_lookup_filter. destruct (checkpoints db !! key) as [r|]; [|done].
  simpl. by rewrite option_guard_True.
Qed.

(** The operations that leave the status of a running instance. *)
Definition leaves_status (i : string) {A} (o : pop A) : Prop :=
  match o with
  | RegisterInstance _ _ | UpdateInstanceStatus _ _ _ | CompleteInstance _ | MarkForRecovery _ _ _
  | ClaimSleepingInstance _ | DeleteInstancesBatch _ => False
  | _ => True
  end.

Lemma running_update i j f db :
  (∀ r, i_status (f r) = i_status r) → running i db → running i (update_instance j f db).2.
Proof.
  intros Hf (r & Hr & Hs). rewrite update_instance_db. unfold running. simpl.
  destruct (decide (j = i)) as [->|Hne].
  - exists (f r). rewrite lookup_alter_eq, Hr. by rewrite Hf.
  - exists r. by rewrite lookup_alter_ne.
Qed.

Lemma status_op i {A} (o : pop A) :
  leaves_status i o → DbGuarantees (preserving (running i)) o.
Proof.
  intros Hw c db Hr.
  destruct o; simpl in *; try done; unfold_ops;
    repeat (case_goal; simplify_eq/=; try done);
    try (by apply running_update);
    try (match goal with H : update_instance ?j ?f db = _ |- _ =>
           pose proof (running_update i j f db ltac:(done) Hr) as Hk; by rewrite H in Hk end).
Qed.

#[export] Instance kept_preorder i calls : PreOrder (kept i calls).
Proof.
  split; [done|]. intros w1 w2 w3 [H1 E1] [H2 E2].
  split; [|congruence]. intros k Hk. rewrite H2, H1 by done. done.
Qed.

#[export] Instance alongside_preorder i calls : PreOrder (alongside i calls).
Proof.
  split; [done|]. intros w1 w2 w3 [H1 E1] [H2 E2]. split; [by etrans|]. naive_solver.
Qed.

(** Effects of other kinds than calls of agents leave the count. *)
Lemma invocations_perform i t w {X} (e : eff X) :
  match e with InvokeAgent _ _ _ _ => False | _ => True end →
  invocations i (perform t w e).2 = invocations i w.
Proof.
  unfold perform, invocations. destruct e; try done; intros _; simpl;
    repeat case_goal; simplify_eq/=; try done;
    by rewrite filter_app, filter_cons_False, filter_nil, app_nil_r by done.
Qed.

Definition untouched (i : string) (calls : list AgentCall) {A} (o : pop A) : Prop :=
  ∀ k, k ∈ all_keys calls → ¬ writes_checkpoint (i, k) o.

(** An effect that leaves the results of the calls. *)
Definition beside_keys (i : string) (calls : list AgentCall) (X : Type) (e : eff X) : Prop :=
  match e with
  | Pers o => untouched i calls o
  | InvokeAgent _ _ _ _ => False
  | _ => True
  end.

(** ... and the status of running instances. *)
Definition beside_life (i : string) (calls : list AgentCall) (X : Type) (e : eff X) : Prop :=
  match e with
  | Pers o => untouched i calls o ∧ leaves_status i o
  | InvokeAgent _ _ _ _ => False
  | _ => True
  end.

Lemma beside_keys_kept i calls X (e : eff X) : beside_keys i calls X e → Guarantees (kept i calls) e.
Proof.
  intros He t w. split; [|apply invocations_perform; by destruct e].
  intros k Hk. change (same_checkpoint (i, k) (w_db w) (w_db (perform t w e).2)).
  eapply (guarantees_op_class (λ A o, ¬ writes_checkpoint (i, k) o) (same_checkpoint (i, k)));
    [apply _|intros A o; apply untouched_op|].
  destruct e; try done. by apply He.
Qed.

Lemma beside_life_alongside i calls X (e : eff X) :
  beside_life i calls X e → Guarantees (alongside i calls) e.
Proof.
  intros He t w. split.
  - apply beside_keys_kept. destruct e; try done. by apply He.
  - eapply (guarantees_op_class (λ A o, leaves_status i o) (preserving (running i)));
      [apply _|intros A o; apply status_op|].
    destruct e; try done. by apply He.
Qed.

(** ** The host's calls in a life *)

Section host_calls.
Context `{Ext} (host : PersistenceRuntimeHost) (calls : list AgentCall).
Context (J : world → Prop) (HJ : stable (kept (host_instance_id host) calls) J).
#[local] Abbreviation i := (host_instance_id host).
#[local] Abbreviation life := (wpi (alongside i calls) plain J).

Lemma stable_alongside (I : world → Prop) : stable (kept i calls) I → stable (alongside i calls) I.
Proof. intros HI w w' [Hk _]. by apply HI. Qed.

#[local] Hint Resolve stable_alongside : core.

(** From a point [w] on, only other tasks have moved. *)
Definition after (w w' : world) : Prop := alongside i calls w w' ∧ running i (w_db w').

Lemma after_stable w : stable (alongside i calls) (after w).
Proof. intros w1 w2 H12 [H1 Hr]. split; [by etrans|]. by apply H12. Qed.

#[local] Hint Resolve after_stable : core.

Lemma after_here w : running i (w_db w) → after w w.
Proof. by split. Qed.

Lemma after_trans w w1 w2 : after w w1 → after w1 w2 → after w w2.
Proof. intros [H1 _] [H2 Hr]. split; [by etrans|done]. Qed.

Lemma after_keeps w w' : J w → after w w' → J w'.
Proof. intros Hw [[Hk _] _]. by eapply HJ. Qed.

Lemma after_lookup w w' k :
  after w w' → k ∈ all_keys calls →
  checkpoints (w_db w') !! (i, k) = checkpoints (w_db w) !! (i, k).
Proof. intros [[[Hk _] _] _]. apply Hk. Qed.

(** An effect that moves as the other tasks do. *)
Lemma after_effect w {X} (e : eff X) t :
  beside_life i calls X e → running i (w_db w) → after w (perform t w e).2.
Proof.
  intros He Hr. pose proof (beside_life_alongside i calls X e He t w) as Ha.
  split; [done|by apply Ha].
Qed.

(** One effect of the life, whose tick has no fault. *)
Lemma life_vis {X B} (e : eff X) (k : X → prog B) Q w w0 :
  J w → after w0 w →
  (∀ w1 t, after w0 w1 → J w1 → plain t →
     life (k (perform t w1 e).1) Q (perform t w1 e).2) →
  life (Vis e k) Q w.
Proof.
  intros Hw H0 Hk. eapply (wpi_vis _ plain J (stable_alongside J HJ) (after w0)); auto.
Qed.

(** A database call that only reads, or writes what no call's result is stored in. *)
Lemma life_pers {A B} (o : pop A) (k : result CoreError A → prog B) Q w0 w :
  untouched i calls o → leaves_status i o → J w → after w0 w →
  (∀ w1 w2 c, after w0 w1 → after w0 w2 → J w2 →
     life (k (exec_pop c o (w_db w1)).1) Q w2) →
  life (Vis (Pers o) k) Q w.
Proof.
  intros Ho Hs Hw H0 Hk. eapply life_vis; [done|done|].
  intros w1 t H1 Hw1 [Hcalm _].
  assert (H2 : after w0 (perform t w1 (Pers o)).2).
  { eapply after_trans; [done|]. apply after_effect; [done|apply H1]. }
  assert (E : (perform t w1 (Pers o)).1 = (exec_pop (stmt_of t (advance t w1)) o (w_db w1)).1).
  { unfold perform. simpl. rewrite Hcalm. simpl. by destruct (exec_pop _ o (w_db w1)). }
  rewrite E. apply Hk; [done|done|]. apply after_keeps with w1; [done|].
  apply after_effect; [done|apply H1].
Qed.

Lemma life_ret {A} (a : A) (Q : A → world → Prop) w :
  J w → stable (alongside i calls) (Q a) → Q a w → life (Ret a) Q w.
Proof. intros Hw. by apply wpi_ret. Qed.

Lemma get_checkpoint_life k w :
  k ∈ all_keys calls → J w → running i (w_db w) →
  life (get_checkpoint host k)
    (λ r w', after w w' ∧ r = Ok (c_state <$> checkpoints (w_db w) !! (i, k))) w.
Proof.
  intros Hk Hw Hr. unfold get_checkpoint, handle_get_checkpoint, bind_ok. simpl.
  eapply life_pers; [intros ? _ []|done|done|by apply after_here|].
  intros w1 w2 c [_ (r & Hr1 & _)] H2 Hw2. simpl. unfold op_get_instance. rewrite Hr1. simpl.
  eapply life_pers; [intros ? _ []|done|done|exact H2|].
  intros w3 w4 c' H3 H4 Hw4. simpl. unfold op_load_checkpoint.
  rewrite (after_lookup _ _ _ H3 Hk).
  destruct (checkpoints (w_db w) !! (i, k)) as [row|]; simpl; (apply life_ret; [done| |done]);
    intros w5 w6 H56 [H5 E]; (split; [|done]); by eapply after_stable.
Qed.

(** The result [s] has been stored under the fresh key [k], and nothing else happened. *)
Record stores (k : string) (s : bytes) (w w' : world) : Prop := {
  st_fresh : checkpoints (w_db w) !! (i, k) = None;
  st_here : holds_state (i, k) s (w_db w');
  st_others k' : k' ∈ all_keys calls → k' ≠ k →
    checkpoints (w_db w') !! (i, k') = checkpoints (w_db w) !! (i, k');
  st_count : invocations i w' = invocations i w }.

Lemma stores_after k s w w1 w2 :
  k ∈ all_keys calls → stores k s w w1 → after w1 w2 → stores k s w w2.
Proof.
  intros Hk [Hf (row & Hrow & Hs) Ho Hc] Ha. split; [done| | |].
  - exists row. split; [|done]. by rewrite (after_lookup _ _ _ Ha Hk).
  - intros k' Hk' Hne. rewrite (after_lookup _ _ _ Ha Hk'). by apply Ho.
  - destruct Ha as [[[_ ->] _] _]. done.
Qed.

Lemma after_stores k s w w1 w2 :
  k ∈ all_keys calls → after w w1 → stores k s w1 w2 → stores k s w w2.
Proof.
  intros Hk Ha [Hf Hh Ho Hc]. split.
  - by rewrite <-(after_lookup _ _ _ Ha Hk).
  - done.
  - intros k' Hk' Hne. rewrite <-(after_lookup _ _ _ Ha Hk'). by apply Ho.
  - rewrite Hc. destruct Ha as [[[_ ->] _] _]. done.
Qed.

Lemma save_stores k s w t :
  running i (w_db w) → checkpoints (w_db w) !! (i, k) = None → calm t →
  let '(r, w') := perform t w (Pers (SaveCheckpoint i k s)) in
  r = Ok tt ∧ stores k s w w' ∧ running i (w_db w').
Proof.
  intros (r & Hr & Hs) Hno Hcalm. unfold perform. simpl. rewrite Hcalm.
  unfold op_save_checkpoint. simpl. rewrite Hr, Hno. simpl.
  split; [done|]. split; [|by exists r]. split; simpl; [done| | |done].
  - eexists. split; [apply lookup_insert_eq|done].
  - intros k' _ Hne. rewrite lookup_insert_ne; [done|]. congruence.
Qed.

Lemma checkpoint_life k s w :
  k ∈ all_keys calls → checkpoints (w_db w) !! (i, k) = None → s ≠ [] →
  J w → running i (w_db w) → (∀ w', stores k s w w' → J w') →
  life (checkpoint host k s)
    (λ r w', stores k s w w' ∧ running i (w_db w') ∧ ∃ resp, r = Ok resp) w.
Proof.
  intros Hk Hno Hne Hw Hr Hst. unfold checkpoint, handle_checkpoint, bind_ok. simpl.
  eapply life_pers; [intros ? _ []|done|done|by apply after_here|].
  intros w1 w2 c [_ (r & Hr1 & Hs1)] H2 Hw2. simpl. unfold op_get_instance. rewrite Hr1. simpl.
  rewrite bool_decide_true by done. simpl.
  eapply life_pers; [intros ? _ []|done|done|exact H2|].
  intros w3 w4 c' H3 H4 Hw4. simpl. unfold op_load_checkpoint.
  rewrite (after_lookup _ _ _ H3 Hk), Hno. simpl. rewrite bool_decide_false by done.
  eapply life_vis; [done|exact H4|]. intros w5 t H5 Hw5 [Hcalm _].
  pose proof (save_stores k s w5 t (proj2 H5)
    ltac:(by rewrite (after_lookup _ _ _ H5 Hk)) Hcalm) as Hsave.
  destruct (perform t w5 (Pers (SaveCheckpoint i k s))) as [x w6]. simpl.
  destruct Hsave as (-> & Hst6 & Hr6). apply (after_stores k s w) in Hst6; [|done|done].
  assert (Hw6 : J w6) by by apply Hst.
  eapply life_pers; [intros ? _ []|done|done|by apply after_here|].
  intros w7 w8 c8 [_ (r7 & Hr7 & _)] H8 Hw8. simpl. unfold op_update_instance_checkpoint.
  rewrite (instances_update _ _ _ r7) by done. simpl.
  eapply life_pers; [intros ? _ []|done|done|exact H8|]. intros v9 w9 c9 _ H9 Hw9. simpl.
  eapply life_pers; [intros ? _ []|done|done|exact H9|]. intros v10 w10 c10 _ H10 Hw10.
  simpl. unfold op_take_pending_custom_signal. simpl.
  apply life_ret; [done| |].
  - intros w11 w12 H1112 (H11 & Hr11 & resp & E). split; [|split; [by apply H1112|by exists resp]].
    eapply stores_after; [done|exact H11|]. split; [done|by apply H1112].
  - split; [by eapply stores_after|]. split; [apply H10|]. by eexists.
Qed.
End host_calls.

(** ** Filters *)

Lemma filter_ext_elem {A} (P Q : A → Prop) `{∀ x, Decision (P x), ∀ x, Decision (Q x)} (l : list A) :
  (∀ x, x ∈ l → P x ↔ Q x) → filter P l = filter Q l.
Proof.
  induction l as [|x l IH]; intros HPQ; [done|]. rewrite !filter_cons.
  rewrite IH by (intros y Hy; apply HPQ; by right).
  pose proof (HPQ x ltac:(left)) as Hx. by repeat case_decide; naive_solver.
Qed.

Lemma filter_map {A B} (f : A → B) (P : B → Prop) `{∀ x, Decision (P x)} (l : list A) :
  filter P (f <$> l) = f <$> filter (P ∘ f) l.
Proof.
  induction l as [|x l IH]; [done|]. rewrite fmap_cons, !filter_cons. unfold compose at 1.
  case_decide; [by rewrite fmap_cons, IH|done].
Qed.

(** ** What is stored of a call

    The failures of a call are stored from the first attempt on without a gap, and its
    result after fewer failures than it has attempts. *)

(** A stored attempt that a replay reads as a failure without a rate limit. *)
Definition plain_failure (env : bytes) : Prop := load_flag env 0 = true ∧ load_flag env 2 = false.

Record recorded (i : string) (c : AgentCall) (m : Z) (w : world) : Prop := {
  rec_range : 0 ≤ m ≤ call_max_retries c + 1;
  rec_single : call_max_retries c = 0 → m = 0;
  rec_attempts a : 1 ≤ a ≤ call_max_retries c + 1 →
    match checkpoints (w_db w) !! (i, attempt_key c a) with
    | Some row => a ≤ m ∧ plain_failure (c_state row)
    | None => m < a
    end;
  rec_result : is_Some (checkpoints (w_db w) !! (i, call_key c)) → m ≤ call_max_retries c }.

(** How many of [keys] have a row. *)
Definition stored (i : string) (keys : list string) (w : world) : Z :=
  Z.of_nat (length (filter (λ k, is_Some (checkpoints (w_db w) !! (i, k))) keys)).

Lemma stored_app i k1 k2 w : stored i (k1 ++ k2) w = stored i k1 w + stored i k2 w.
Proof. unfold stored. rewrite filter_app, length_app. lia. Qed.

Lemma stored_cons i k keys w : stored i (k :: keys) w = stored i [k] w + stored i keys w.
Proof. apply (stored_app i [k]). Qed.

Lemma stored_same i keys w w' :
  (∀ k, k ∈ keys → checkpoints (w_db w') !! (i, k) = checkpoints (w_db w) !! (i, k)) →
  stored i keys w' = stored i keys w.
Proof.
  intros Hk. unfold stored. do 2 f_equal. apply filter_ext_elem. intros k Hin. by rewrite Hk.
Qed.

Lemma length_filter_le (m n : Z) :
  0 ≤ m ≤ n → Z.of_nat (length (filter (λ a, a ≤ m) (seqZ 1 n))) = m.
Proof.
  intros Hm. replace n with (m + (n - m)) by lia. rewrite seqZ_app, filter_app by lia.
  rewrite (filter_all _ (seqZ 1 m)), (filter_none _ (seqZ (1 + m) _)).
  - rewrite app_nil_r, length_seqZ. lia.
  - intros a Ha%elem_of_seqZ. lia.
  - intros a Ha%elem_of_seqZ. lia.
Qed.

Lemma recorded_attempts i c m w :
  recorded i c m w →
  stored i (attempt_key c <$> seqZ 1 (call_max_retries c + 1)) w = m.
Proof.
  intros [Hm _ Ha _]. rewrite <-(length_filter_le m (call_max_retries c + 1)) by done.
  unfold stored. rewrite filter_map, length_fmap. do 2 f_equal.
  apply filter_ext_elem. intros a Hin%elem_of_seqZ. unfold compose. specialize (Ha a ltac:(lia)).
  destruct (checkpoints _ !! _); simpl.
  - split; [lia|]. intros _. by eexists.
  - split; [by intros [? [=]]|lia].
Qed.

(** A call has stored as many results as it has attempts at most, and fewer while an
    attempt and the result are open. *)
Lemma recorded_stored i c m w :
  recorded i c m w → stored i (call_keys c) w ≤ call_max_retries c + 1.
Proof.
  intros Hrec. unfold call_keys. rewrite stored_cons.
  rewrite (recorded_attempts _ _ _ _ Hrec). unfold stored. rewrite filter_cons, filter_nil.
  case_decide as E; simpl; [|apply Hrec]. pose proof (rec_result _ _ _ _ Hrec E). lia.
Qed.

Lemma recorded_open i c m w a :
  recorded i c m w → checkpoints (w_db w) !! (i, call_key c) = None →
  1 ≤ a ≤ call_max_retries c + 1 → checkpoints (w_db w) !! (i, attempt_key c a) = None →
  stored i (call_keys c) w < call_max_retries c + 1.
Proof.
  intros Hrec Hno Ha Hnoa. unfold call_keys. rewrite stored_cons.
  rewrite (recorded_attempts _ _ _ _ Hrec). unfold stored.
  rewrite filter_cons_False, filter_nil by (by rewrite Hno; intros [? ?]). simpl.
  pose proof (rec_attempts _ _ _ _ Hrec a Ha) as Hm. rewrite Hnoa in Hm. lia.
Qed.

Section accounts.
Context (host : PersistenceRuntimeHost) (calls : list AgentCall) (Hcalls : durable_calls calls).
Context (base : Z).
#[local] Abbreviation i := (host_instance_id host).

Definition records (w : world) : Prop := ∀ c, c ∈ calls → ∃ m, recorded i c m w.

(** The result of [c] is not stored, nor that of some attempt. *)
Definition open_call (c : AgentCall) (w : world) : Prop :=
  checkpoints (w_db w) !! (i, call_key c) = None ∧
  ∃ a, 1 ≤ a ≤ call_max_retries c + 1 ∧
    checkpoints (w_db w) !! (i, attempt_key c a) = None.

(** All answers of agents are stored; the last one may not be; and what holds always. *)
Definition settled (w : world) : Prop :=
  records w ∧ invocations i w ≤ base + stored i (all_keys calls) w.

Definition unsettled (c : AgentCall) (w : world) : Prop :=
  records w ∧ invocations i w ≤ base + stored i (all_keys calls) w + 1 ∧ open_call c w.

Definition accounted (w : world) : Prop :=
  records w ∧ invocations i w ≤ base + stored i (all_keys calls) w + 1 ∧
  invocations i w ≤ base + planned_attempts calls.

Lemma call_key_in c : c ∈ calls → call_key c ∈ all_keys calls.
Proof. intros Hc. apply list_elem_of_In, in_concat. exists (call_keys c). split.
  - apply list_elem_of_In. by apply list_elem_of_fmap_2.
  - left. done.
Qed.

Lemma attempt_key_in c a :
  c ∈ calls → 1 ≤ a ≤ call_max_retries c + 1 → attempt_key c a ∈ all_keys calls.
Proof.
  intros Hc Ha. apply list_elem_of_In, in_concat. exists (call_keys c). split.
  - apply list_elem_of_In. by apply list_elem_of_fmap_2.
  - right. apply list_elem_of_In. apply list_elem_of_fmap_2. apply elem_of_seqZ. lia.
Qed.

Lemma recorded_same c m w w' :
  c ∈ calls →
  (∀ k, k ∈ all_keys calls → checkpoints (w_db w') !! (i, k) = checkpoints (w_db w) !! (i, k)) →
  recorded i c m w → recorded i c m w'.
Proof.
  intros Hc Hk [Hr Hs Ha Hres]. split; [done|done| |].
  - intros a Hin. rewrite Hk by by apply attempt_key_in. by apply Ha.
  - rewrite Hk by by apply call_key_in. done.
Qed.

Lemma accounted_stable : stable (kept i calls) accounted.
Proof.
  intros w w' [Hk Hc] (Hr & H1 & H2). unfold accounted. rewrite Hc, (stored_same _ _ _ _ Hk).
  split; [|done]. intros c Hin. destruct (Hr c Hin) as [m Hm]. exists m. by eapply recorded_same.
Qed.

Lemma settled_stable : stable (kept i calls) settled.
Proof.
  intros w w' [Hk Hc] (Hr & H1). unfold settled. rewrite Hc, (stored_same _ _ _ _ Hk).
  split; [|done]. intros c Hin. destruct (Hr c Hin) as [m Hm]. exists m. by eapply recorded_same.
Qed.

Lemma unsettled_stable c : c ∈ calls → stable (kept i calls) (unsettled c).
Proof.
  intros Hin w w' [Hk Hc] (Hr & H1 & Hno & a & Ha & Hnoa). unfold unsettled.
  rewrite Hc, (stored_same _ _ _ _ Hk).
  split; [|split; [done|]].
  - intros c' Hc'. destruct (Hr c' Hc') as [m Hm]. exists m. by eapply recorded_same.
  - split; [by rewrite Hk by by apply call_key_in|]. exists a. split; [done|].
    by rewrite Hk by by apply attempt_key_in.
Qed.

Lemma stored_calls c cs w :
  stored i (all_keys (c :: cs)) w = stored i (call_keys c) w + stored i (all_keys cs) w.
Proof. apply stored_app. Qed.

Lemma planned_cons c cs : planned_attempts (c :: cs) = call_max_retries c + 1 + planned_attempts cs.
Proof. done. Qed.

Lemma stored_planned w cs :
  (∀ c, c ∈ cs → ∃ m, recorded i c m w) → stored i (all_keys cs) w ≤ planned_attempts cs.
Proof.
  induction cs as [|c cs IH]; intros Hr; [done|]. rewrite stored_calls, planned_cons.
  destruct (Hr c ltac:(left)) as [m Hm]. pose proof (recorded_stored _ _ _ _ Hm).
  pose proof (IH ltac:(intros c' Hc'; apply Hr; by right)). lia.
Qed.

Lemma stored_open w cs c :
  (∀ c, c ∈ cs → ∃ m, recorded i c m w) → c ∈ cs → open_call c w →
  stored i (all_keys cs) w < planned_attempts cs.
Proof.
  intros Hr Hc [Hno (a & Ha & Hnoa)].
  induction cs as [|c' cs IH]; [by apply not_elem_of_nil in Hc|].
  rewrite stored_calls, planned_cons. destruct (Hr c' ltac:(left)) as [m Hm].
  assert (Hr' : ∀ c, c ∈ cs → ∃ m, recorded i c m w) by (intros ? ?; apply Hr; by right).
  apply elem_of_cons in Hc as [->|Hc].
  - pose proof (recorded_open _ _ _ _ a Hm Hno Ha Hnoa).
    pose proof (stored_planned w cs Hr'). lia.
  - pose proof (recorded_stored _ _ _ _ Hm). pose proof (IH Hr' Hc). lia.
Qed.

Lemma settled_accounted w : settled w → accounted w.
Proof.
  intros [Hr Hle]. split; [done|]. pose proof (stored_planned w calls Hr). lia.
Qed.

Lemma unsettled_accounted c w : c ∈ calls → unsettled c w → accounted w.
Proof.
  intros Hc (Hr & Hle & Ho). split; [done|]. pose proof (stored_open w calls c Hr Hc Ho). lia.
Qed.

(** A fresh key among the keys of the calls adds one. *)
Lemma stored_insert k s w w' :
  stores host calls k s w w' → k ∈ all_keys calls →
  stored i (all_keys calls) w' = stored i (all_keys calls) w + 1.
Proof.
  intros Hst Hk. pose proof (dc_keys _ Hcalls) as Hnd.
  apply list_elem_of_split in Hk as (k1 & k2 & Hkeys). rewrite Hkeys in Hnd.
  assert (Ho : ∀ k', k' ∈ k1 ++ k2 →
    checkpoints (w_db w') !! (i, k') = checkpoints (w_db w) !! (i, k')).
  { intros k' Hk'. apply (st_others _ _ _ _ _ _ Hst).
    - rewrite Hkeys. set_solver.
    - intros ->. rewrite <-Permutation_middle in Hnd. by apply NoDup_cons in Hnd as [? _]. }
  rewrite Hkeys, !stored_app, !(stored_cons i k k2).
  rewrite (stored_same i k1 w w'), (stored_same i k2 w w') by (intros; apply Ho; set_solver).
  unfold stored at 2 5. destruct (st_here _ _ _ _ _ _ Hst) as (row & Hrow & _).
  rewrite filter_cons_True by (rewrite Hrow; by eexists).
  rewrite filter_cons_False by (rewrite (st_fresh _ _ _ _ _ _ Hst); by intros [? ?]).
  simpl. lia.
Qed.

(** Calls that share a key are the same call. *)
Lemma shared_key c c' k :
  c ∈ calls → c' ∈ calls → k ∈ call_keys c → k ∈ call_keys c' → c = c'.
Proof.
  intros [j Hj]%list_elem_of_lookup [j' Hj']%list_elem_of_lookup Hk Hk'.
  assert (j = j') as <-; [|congruence].
  eapply concat_index; [apply (dc_keys _ Hcalls)| | |exact Hk|exact Hk'];
    rewrite list_lookup_fmap; [by rewrite Hj|by rewrite Hj'].
Qed.

Lemma call_keys_nodup c : c ∈ calls → NoDup (call_keys c).
Proof.
  intros Hc. pose proof (dc_keys _ Hcalls) as Hnd. unfold all_keys in Hnd.
  apply list_elem_of_split in Hc as (l1 & l2 & E). rewrite E, fmap_app, concat_app in Hnd.
  apply NoDup_app in Hnd as (_ & _ & Hnd). by apply NoDup_app in Hnd as (Hnd & _).
Qed.

Lemma NoDup_fmap_inj {A B} (f : A → B) l x y :
  NoDup (f <$> l) → x ∈ l → y ∈ l → f x = f y → x = y.
Proof.
  induction l as [|z l IH]; intros Hnd Hx Hy E; [by apply not_elem_of_nil in Hx|].
  rewrite fmap_cons in Hnd. apply NoDup_cons in Hnd as [Hz Hnd].
  apply elem_of_cons in Hx as [->|Hx]; apply elem_of_cons in Hy as [->|Hy]; try done.
  - exfalso. apply Hz. rewrite E. by apply list_elem_of_fmap_2.
  - exfalso. apply Hz. rewrite <-E. by apply list_elem_of_fmap_2.
  - by apply IH.
Qed.

Lemma attempt_key_inj c a b :
  c ∈ calls → 1 ≤ a ≤ call_max_retries c + 1 → 1 ≤ b ≤ call_max_retries c + 1 →
  attempt_key c a = attempt_key c b → a = b.
Proof.
  intros Hc Ha Hb. pose proof (call_keys_nodup c Hc) as [_ Hnd]%NoDup_cons.
  eapply NoDup_fmap_inj; [exact Hnd|apply elem_of_seqZ; lia..].
Qed.

Lemma attempt_not_result c a :
  c ∈ calls → 1 ≤ a ≤ call_max_retries c + 1 → attempt_key c a ≠ call_key c.
Proof.
  intros Hc Ha E. pose proof (call_keys_nodup c Hc) as [Hn _]%NoDup_cons. apply Hn.
  rewrite <-E. apply list_elem_of_fmap_2, elem_of_seqZ. lia.
Qed.

(** The record of a call whose keys were left alone. *)
Lemma recorded_other c m k s w w' :
  c ∈ calls → stores host calls k s w w' → k ∉ call_keys c →
  recorded i c m w → recorded i c m w'.
Proof.
  intros Hc Hst Hk [Hr Hs Ha Hres]. split; [done|done| |].
  - intros a Hin. rewrite (st_others _ _ _ _ _ _ Hst); [by apply Ha|by apply attempt_key_in|].
    intros <-. apply Hk. right. apply list_elem_of_fmap_2, elem_of_seqZ. lia.
  - rewrite (st_others _ _ _ _ _ _ Hst); [done|by apply call_key_in|].
    intros <-. apply Hk. left.
Qed.

(** A step of one call leaves the records of the others. *)
Lemma records_step c k s w w' :
  c ∈ calls → k ∈ call_keys c → stores host calls k s w w' → records w →
  (∃ m, recorded i c m w') → records w'.
Proof.
  intros Hc Hk Hst Hr Hm c' Hc'.
  destruct (decide (k ∈ call_keys c')) as [Hk'|Hk'].
  - by rewrite <-(shared_key c c' k).
  - destruct (Hr c' Hc') as [m' Hm']. exists m'. by eapply recorded_other.
Qed.

(** The failure of the first attempt that is not stored. *)
Lemma settle_attempt c a env w w' :
  c ∈ calls → 0 < call_max_retries c → 1 ≤ a ≤ call_max_retries c + 1 →
  (∀ b, 1 ≤ b < a → is_Some (checkpoints (w_db w) !! (i, attempt_key c b))) →
  checkpoints (w_db w) !! (i, call_key c) = None → plain_failure env →
  records w → invocations i w ≤ base + stored i (all_keys calls) w + 1 →
  stores host calls (attempt_key c a) env w w' → settled w'.
Proof.
  intros Hc Hmax Ha Hb Hno Hpf Hr Hle Hst.
  assert (Hk : attempt_key c a ∈ call_keys c).
  { right. apply list_elem_of_fmap_2, elem_of_seqZ. lia. }
  split.
  - eapply records_step; [done|done|done|done|]. destruct (Hr c Hc) as [m Hm]. exists a.
    assert (m = a - 1) as ->.
    { pose proof (rec_attempts _ _ _ _ Hm a Ha) as H1. rewrite (st_fresh _ _ _ _ _ _ Hst) in H1.
      destruct (decide (a = 1)) as [->|]; [pose proof (rec_range _ _ _ _ Hm); lia|].
      pose proof (rec_attempts _ _ _ _ Hm (a - 1) ltac:(lia)) as H2.
      destruct (Hb (a - 1) ltac:(lia)) as [row E]. rewrite E in H2. lia. }
    split; [lia|lia| |].
    + intros b Hin. destruct (decide (b = a)) as [->|Hne].
      * destruct (st_here _ _ _ _ _ _ Hst) as (row & -> & ->). by split; [lia|].
      * rewrite (st_others _ _ _ _ _ _ Hst); [|by apply attempt_key_in|].
        -- pose proof (rec_attempts _ _ _ _ Hm b Hin) as H1.
           revert H1. destruct (checkpoints (w_db w) !! (i, attempt_key c b)); [intros [? ?]; split; [lia|done]|lia].
        -- intros E. apply Hne. by eapply attempt_key_inj.
    + rewrite (st_others _ _ _ _ _ _ Hst), Hno; [by intros [? ?]|by apply call_key_in|].
      intros E. by apply (attempt_not_result c a).
  - rewrite (st_count _ _ _ _ _ _ Hst), (stored_insert _ _ _ _ Hst); [lia|].
    by apply attempt_key_in.
Qed.

(** The result of a call. *)
Lemma settle_result c s w w' :
  c ∈ calls → unsettled c w → stores host calls (call_key c) s w w' → settled w'.
Proof.
  intros Hc (Hr & Hle & Hno & a & Ha & Hnoa) Hst. split.
  - eapply records_step; [done|left|done|done|]. destruct (Hr c Hc) as [m Hm]. exists m.
    split; [apply Hm|apply Hm| |].
    + intros b Hin. rewrite (st_others _ _ _ _ _ _ Hst); [by apply (rec_attempts _ _ _ _ Hm)
        |by apply attempt_key_in|by apply attempt_not_result].
    + intros _. pose proof (rec_attempts _ _ _ _ Hm a Ha) as H1. rewrite Hnoa in H1. lia.
  - rewrite (st_count _ _ _ _ _ _ Hst), (stored_insert _ _ _ _ Hst); [lia|].
    by apply call_key_in.
Qed.
End accounts.

(** ** A life of the calls *)

Section life.
Context `{Ext, JsonDisplay} (host : PersistenceRuntimeHost) (calls : list AgentCall).
Context (Hcalls : durable_calls calls) (base : Z).
#[local] Abbreviation i := (host_instance_id host).
#[local] Abbreviation J := (accounted host calls base).
#[local] Abbreviation HJ := (accounted_stable host calls base).
#[local] Abbreviation R := (alongside i calls).
#[local] Abbreviation life := (wpi R plain J).
#[local] Abbreviation settled := (settled host calls base).
#[local] Abbreviation unsettled := (unsettled host calls base).

Lemma J_stable : stable R J.
Proof. apply stable_alongside, HJ. Qed.

(** Two steps in a row: the first meets [P], the second goes on from there. *)
Lemma life_seq {A B} (p : prog A) (f : A → prog B) P Q w :
  life p P w → (∀ a w', J w' → P a w' → life (f a) Q w') → life (bind p f) Q w.
Proof.
  intros Hp Hf. apply (wpi_bind R plain J).
  revert w Hp. induction p as [a|X e k IH]; intros w [Hw Hp]; (split; [done|]).
  - intros w' HR. apply Hf; [by eapply J_stable|by apply Hp].
  - intros w1 t H1 Ht. apply IH. by apply Hp.
Qed.

Lemma life_seq_ok {E A B} (p : prog (result E A)) (f : A → prog (result E B)) P
  (Q : result E B → world → Prop) w :
  life p P w → (∀ e, stable R (Q (Err e))) → (∀ e w', J w' → P (Err e) w' → Q (Err e) w') →
  (∀ a w', J w' → P (Ok a) w' → life (f a) Q w') → life (bind_ok p f) Q w.
Proof.
  intros Hp Hst He Hf. eapply life_seq; [exact Hp|]. intros [a|e] w' Hw' HP; [by apply Hf|].
  apply wpi_ret; [done|apply Hst|by apply He].
Qed.

(** Programs that write beside the keys of the calls, with a fact about the result. *)
Lemma side_life {A} (p : prog A) (P : A → Prop) (I : world → Prop) w :
  all_effs (beside_life i calls) p → returns P p → stable R I → J w → I w →
  life p (λ a w', P a ∧ I w') w.
Proof.
  intros Hp HP HI Hw HIw. eapply (wpi_stable R plain J J_stable R); try done.
  - apply J_stable.
  - eapply all_effs_impl; [|exact Hp]. apply beside_life_alongside.
Qed.

Lemma side_untouched c k : c ∈ calls → k ∈ side_keys c → ∀ A (o : pop A),
  (∀ k', writes_checkpoint (i, k') o → k' = k) → untouched i calls o.
Proof.
  intros Hc Hk A o Ho k' Hk' Hw. rewrite (Ho k' Hw) in Hk'.
  by apply (dc_side _ Hcalls c k).
Qed.

Lemma sleep_key_side c : DURABLE_SLEEP_CHECKPOINT_ID ∈ side_keys c.
Proof. left. Qed.

Lemma attempt_side_keys c n :
  2 ≤ n ≤ call_max_retries c + 1 →
  retry_checkpoint_id (call_key c) (wrap_i32 n) ∈ side_keys c ∧
  retry_sleep_key (call_key c) n ∈ side_keys c.
Proof.
  intros Hn. split; right; apply list_elem_of_In, in_concat;
    exists [retry_checkpoint_id (call_key c) (wrap_i32 n); retry_sleep_key (call_key c) n];
    (split; [apply list_elem_of_In; apply (list_elem_of_fmap_2 (λ n,
      [retry_checkpoint_id (call_key c) (wrap_i32 n); retry_sleep_key (call_key c) n]));
      apply elem_of_seqZ; lia|simpl; tauto]).
Qed.

Lemma durable_sleep_effs c k s ms :
  c ∈ calls → k ∈ side_keys c → all_effs (beside_life i calls) (durable_sleep_checkpoint host k s ms).
Proof.
  intros Hc Hk. unfold durable_sleep_checkpoint, handle_sleep. solve_effs; simpl.
  - split; [|done]. eapply side_untouched; [done|done|]. simpl. by intros k' [=].
  - split; [|done]. intros ? _ [].
  - done.
Qed.

(** What a wait keeps of the locals. *)
Definition waited (l : AgentLocals) (r : result CallStop AgentLocals) : Prop :=
  match r with Ok l' => attempt l' = attempt l ∧ memo l' = memo l | Err e => e ≠ OutOfRounds end.

Lemma retry_sleep_effs c l :
  c ∈ calls → 2 ≤ attempt l ≤ call_max_retries c + 1 →
  all_effs (beside_life i calls) (retry_sleep host c l).
Proof.
  intros Hc Hl. destruct (attempt_side_keys c (attempt l) Hl) as [_ Hsl].
  unfold retry_sleep. rewrite (dc_durable _ Hcalls c Hc). destruct (sleep_tag l).
  - apply all_effs_bind; [|done]. by eapply durable_sleep_effs.
  - apply all_effs_bind; [|done]. eapply durable_sleep_effs; [done|apply sleep_key_side].
Qed.

Lemma retry_sleep_returns c l : returns (waited l) (retry_sleep host c l).
Proof.
  unfold retry_sleep. repeat case_goal; (eapply returns_bind; [apply returns_any|]);
    intros [?|?] _; simpl; done.
Qed.

Lemma record_effs c l n :
  c ∈ calls → 2 ≤ n ≤ call_max_retries c + 1 →
  all_effs (beside_life i calls) (record_retry_attempt host (call_key c) n l).
Proof.
  intros Hc Hn. destruct (attempt_side_keys c n Hn) as [Hrec _].
  unfold record_retry_attempt, handle_retry_attempt. solve_effs; simpl; [done|].
  split; [|done]. eapply side_untouched; [done|exact Hrec|]. simpl. by intros k' [=].
Qed.

Lemma backoff_life c l (I : world → Prop) w :
  c ∈ calls → 2 ≤ attempt l ≤ call_max_retries c + 1 → stable R I → J w → I w →
  life (backoff host c l) (λ r w', waited l r ∧ J w' ∧ I w') w.
Proof.
  intros Hc Hl HI Hw HIw. unfold backoff. apply (wpi_bind_ok R plain J).
  { intros e w1 w2 H12 (Hwt & H1 & H2). split; [done|]. split; [by eapply J_stable|by eapply HI]. }
  set (l1 := next_delay c l).
  eapply wpi_mono; [|eapply (side_life _ (waited l1) (λ w', J w' ∧ I w'))].
  - intros [l'|e] w' [Hwt [Hw' HI']]; [|done]. destruct Hwt as [Ha Hm].
    rewrite (dc_durable _ Hcalls c Hc). apply (wpi_bind R plain J).
    eapply wpi_mono; [|eapply (side_life _ (λ _, True) (λ w', J w' ∧ I w'))].
    + intros [?|e] w2 [_ [Hw2 HI2]]; (apply wpi_ret; [done| |by split_and!]);
        intros w3 w4 H34 (Hwt & H3 & H4); (split; [done|]); split;
        [by eapply J_stable|by eapply HI|by eapply J_stable|by eapply HI].
    + apply record_effs; [done|]. rewrite Ha. done.
    + apply returns_any.
    + intros w1 w2 H12 [H1 H2]. split; [by eapply J_stable|by eapply HI].
    + done.
    + done.
  - by apply retry_sleep_effs.
  - apply retry_sleep_returns.
  - intros w1 w2 H12 [H1 H2]. split; [by eapply J_stable|by eapply HI].
  - done.
  - done.
Qed.

(** Programs that end the life: they may change the status of the instance. *)
Lemma last_life {A} (p : prog A) (P : A → Prop) w :
  all_effs (beside_keys i calls) p → returns P p → J w → life p (λ a w', P a ∧ J w') w.
Proof.
  intros Hp HP Hw. eapply (wpi_stable R plain J J_stable (kept i calls)); try done.
  - apply HJ.
  - apply HJ.
  - apply J_stable.
  - eapply all_effs_impl; [|exact Hp]. apply beside_keys_kept.
Qed.

(** *** A call of the agent *)

Lemma invocations_invoke t w a cap x :
  invocations i (perform t w (InvokeAgent i a cap x)).2 = invocations i w + 1.
Proof.
  unfold perform, invocations. simpl.
  rewrite filter_app, filter_cons_True, filter_nil, length_app by (simpl; by rewrite bool_decide_true).
  simpl. lia.
Qed.

Lemma invoke_unsettled c t w a cap x :
  c ∈ calls → settled w → open_call host c w →
  unsettled c (perform t w (InvokeAgent i a cap x)).2.
Proof.
  intros Hc [Hr Hle] Ho. unfold unsettled. rewrite invocations_invoke.
  split; [|split; [|exact Ho]].
  { intros c' Hc'. destruct (Hr c' Hc') as [m Hm]. exists m. by apply (recorded_same host calls c' m w). }
  change (invocations i w + 1 ≤ base + stored i (all_keys calls) w + 1). lia.
Qed.

(** An event without a checkpoint stores no checkpoint. *)
Lemma event_effs ty payload subtype :
  all_effs (beside_keys i calls) (host_event host ty None payload subtype).
Proof.
  unfold host_event, handle_instance_event, event_status_update, suspend_if_running.
  destruct ty; simpl; (split; [done|]); solve_effs; simpl; try done; by intros ? _ [].
Qed.

(** The results of the calls are those of [w0]. *)
Definition unmoved (w0 w : world) : Prop :=
  ∀ k, k ∈ all_keys calls → checkpoints (w_db w) !! (i, k) = checkpoints (w_db w0) !! (i, k).

Lemma unmoved_stable w0 : stable R (unmoved w0).
Proof. intros w w' [[Hk _] _] Hu k Hin. rewrite Hk by done. by apply Hu. Qed.

(** What an answer says of the world it came in. *)
Definition answered (c : AgentCall) (w0 : world)
  (r : result CallStop (bytes * result ErrorInfo bytes)) (w : world) : Prop :=
  match r with
  | Ok (_, answer) =>
      unmoved w0 w ∧ unsettled c w ∧ running i (w_db w) ∧
      match answer with
      | Ok output => output ≠ []
      | Err info => agent_error_code_is_rate_limited (ei_code info) = false
      end
  | Err e => J w ∧ e ≠ OutOfRounds
  end.

Lemma answered_stable c w0 r : c ∈ calls → stable R (answered c w0 r).
Proof.
  intros Hc w w' HR. destruct r as [[x answer]|e]; simpl;
    [|intros [Hw He]; split; [by eapply J_stable|done]].
  intros (Hm & Hu & Hr & Ha). split_and!; [by eapply unmoved_stable| |by apply HR|done].
  eapply unsettled_stable; [done| |exact Hu]. apply HR.
Qed.

Lemma agent_invoke_life c input w :
  c ∈ calls → settled w → open_call host c w → running i (w_db w) →
  life (agent_invoke host c input) (answered c w) w.
Proof.
  intros Hc Hs Ho Hr. assert (Hw : J w) by by apply settled_accounted.
  unfold agent_invoke. destruct (call_connection_input c input) as [x|e].
  - eapply (life_vis host calls J HJ _ _ _ w w); [done|by apply after_here|].
    intros w1 t H1 Hw1 Ht.
    assert (Hs1 : settled w1) by (eapply settled_stable; [apply H1|done]).
    assert (Ho1 : open_call host c w1).
    { destruct Ho as [Hno (a & Ha & Hnoa)].
      split; [by rewrite (after_lookup _ _ _ _ _ H1) by by apply call_key_in|].
      exists a. split; [done|]. by rewrite (after_lookup _ _ _ _ _ H1) by by apply attempt_key_in. }
    pose proof (invoke_unsettled c t w1 (call_component c) (call_capability_id c) x Hc Hs1 Ho1) as Hu.
    assert (Hr2 : running i (w_db (perform t w1 (InvokeAgent i (call_component c)
      (call_capability_id c) x)).2)) by apply H1.
    assert (Hm : unmoved w (perform t w1 (InvokeAgent i (call_component c)
      (call_capability_id c) x)).2) by exact (proj1 (proj1 (proj1 H1))).
    revert Hu Hr2 Hm. set (w2 := (perform t w1 _).2). intros Hu Hr2 Hm.
    assert (Hw2 : J w2) by by eapply unsettled_accounted.
    change ((perform t w1 (InvokeAgent i (call_component c) (call_capability_id c) x)).1)
      with (t_answer t).
    destruct Ht as [_ Hans]. destruct (t_answer t) as [o|info] eqn:E; [|destruct (_ && _)];
      (apply wpi_ret; [done|by apply answered_stable|done]).
  - apply (wpi_bind R plain J). eapply wpi_mono; [|eapply (last_life _ (λ _, True))].
    + intros a w' [_ Hw']. apply wpi_ret; [done|by apply answered_stable|done].
    + apply event_effs.
    + apply returns_any.
    + done.
Qed.

(** *** Attempts *)

(** All attempts before the [a]-th have failed and are stored; the call is not done. *)
Definition before_attempt (c : AgentCall) (a : Z) (w : world) : Prop :=
  settled w ∧ running i (w_db w) ∧ checkpoints (w_db w) !! (i, call_key c) = None ∧
  ∀ b, 1 ≤ b < a → is_Some (checkpoints (w_db w) !! (i, attempt_key c b)).

(** The agent has answered with an output that is not stored yet. *)
Definition done_call (c : AgentCall) (w : world) : Prop :=
  unsettled c w ∧ running i (w_db w).

Lemma before_attempt_stable c a :
  c ∈ calls → a ≤ call_max_retries c + 2 → stable R (before_attempt c a).
Proof.
  intros Hc Ha w w' HR (Hs & Hr & Hno & Hb).
  destruct HR as [Hkept Hrun]. pose proof (proj1 Hkept) as Hk. split_and!; [|by apply Hrun| |].
  - by eapply settled_stable.
  - by rewrite Hk by by apply call_key_in.
  - intros b Hin. rewrite Hk; [by apply Hb|]. apply attempt_key_in; [done|lia].
Qed.

Lemma done_call_stable c : c ∈ calls → stable R (done_call c).
Proof.
  intros Hc w w' HR [Hu Hr]. split; [|by apply HR]. eapply unsettled_stable; [done| |done]. apply HR.
Qed.

Definition attempted (c : AgentCall) (a : Z)
  (r : result CallStop (AgentLocals * bytes * option bytes)) (w : world) : Prop :=
  match r with
  | Ok (l, _, output) =>
      attempt l = a ∧ memo l = None ∧
      if err_flag l then rate_limited l = false ∧ before_attempt c (a + 1) w
      else done_call c w ∧ from_option (λ o, o ≠ []) True output
  | Err e => e ≠ OutOfRounds
  end.

Lemma attempted_stable c a r :
  c ∈ calls → a ≤ call_max_retries c + 1 → stable R (attempted c a r).
Proof.
  intros Hc Ha w w' HR. destruct r as [[[l x] o]|e]; simpl; [|done].
  intros (H1 & H2 & H3). split_and!; [done|done|]. destruct (err_flag l).
  - destruct H3 as [H3 H4]. split; [done|].
    eapply (before_attempt_stable c (a + 1)); [done|lia|done|done].
  - destruct H3 as [H3 H4]. split; [|done]. by eapply done_call_stable.
Qed.

Lemma envelope_plain l : rate_limited l = false → plain_failure (envelope_of l).
Proof. intros E. unfold plain_failure, envelope_of. rewrite E. by destruct (retryable l). Qed.

(** An attempt that was run and is not stored. *)
Definition ran (c : AgentCall) (l0 : AgentLocals) (w0 : world)
  (r : result CallStop (AgentLocals * bytes * option bytes)) (w : world) : Prop :=
  match r with
  | Ok (l, _, output) =>
      unmoved w0 w ∧ done_call c w ∧ attempt l = attempt l0 ∧ memo l = None ∧
      if err_flag l then rate_limited l = false else from_option (λ o, o ≠ []) False output
  | Err e => e ≠ OutOfRounds
  end.

Lemma ran_stable c l0 w0 r : c ∈ calls → stable R (ran c l0 w0 r).
Proof.
  intros Hc w w' HR. destruct r as [[[l x] o]|e]; simpl; [|done].
  intros (H1 & H2 & H3). split; [by eapply unmoved_stable|]. split; [|done].
  by eapply done_call_stable.
Qed.

Lemma run_attempt_life c input l w :
  c ∈ calls → settled w → open_call host c w → running i (w_db w) → memo l = None →
  life (run_attempt host c input l) (ran c l w) w.
Proof.
  intros Hc Hs Ho Hr Em. unfold run_attempt, agent_answer. rewrite Em.
  eapply (life_seq_ok _ _ (λ r w', match r with
    | Ok (l', x, answer) => l' = l ∧ answered c w (Ok (x, answer)) w'
    | Err e => e ≠ OutOfRounds end)).
  - eapply life_seq_ok; [by apply agent_invoke_life|by intros ????|by intros e w' _ [_ He]|].
    intros [x answer] w' Hw' Ha. apply wpi_ret; [done| |done].
    intros w1 w2 H12 [E H1]. split; [done|]. by eapply answered_stable.
  - by intros; apply ran_stable.
  - by intros.
  - intros [[l' x] answer] w' Hw' [-> (Hm & Hu & Hr' & Hans)].
    destruct answer as [o|info]; (apply wpi_ret; [done|by apply ran_stable|]); by split_and!.
Qed.

(** A failed attempt is stored. *)
Lemma store_attempt_life c a l w :
  c ∈ calls → 0 < call_max_retries c → 1 ≤ a ≤ call_max_retries c + 1 →
  unsettled c w → running i (w_db w) → checkpoints (w_db w) !! (i, call_key c) = None →
  checkpoints (w_db w) !! (i, attempt_key c a) = None →
  (∀ b, 1 ≤ b < a → is_Some (checkpoints (w_db w) !! (i, attempt_key c b))) →
  rate_limited l = false →
  life (checkpoint host (attempt_key c a) (envelope_of l))
    (λ _ w', before_attempt c (a + 1) w') w.
Proof.
  intros Hc Hmax Ha Hu Hr Hno Hnoa Hb Hrl.
  assert (Hset : ∀ w', stores host calls (attempt_key c a) (envelope_of l) w w' → settled w').
  { intros w' Hst. eapply settle_attempt; try done; [by apply envelope_plain|apply Hu|apply Hu]. }
  eapply wpi_mono; [|apply (checkpoint_life host calls J HJ); try done].
  - intros r w' (Hst & Hr' & _). split_and!; [by apply Hset|done| |].
    + rewrite (st_others _ _ _ _ _ _ Hst); [done|by apply call_key_in|].
      intros E. by apply (attempt_not_result calls Hcalls c a).
    + intros b Hin. destruct (decide (b = a)) as [->|].
      * destruct (st_here _ _ _ _ _ _ Hst) as (row & -> & _). by eexists.
      * rewrite (st_others _ _ _ _ _ _ Hst); [apply Hb; lia|apply attempt_key_in; [done|lia]|].
        intros E. assert (b = a); [|done]. eapply (attempt_key_inj calls Hcalls); [done| |done|done]. lia.
  - by apply attempt_key_in.
  - by eapply unsettled_accounted.
  - intros w' Hst. by apply settled_accounted, Hset.
Qed.

Lemma durable_attempt_life c a input l w :
  c ∈ calls → 0 < call_max_retries c → 1 ≤ a ≤ call_max_retries c + 1 →
  attempt l = a → memo l = None → before_attempt c a w →
  life (durable_attempt host c input l) (attempted c a) w.
Proof.
  intros Hc Hmax Ha El Em Hbef. assert (Hw : J w) by apply settled_accounted, Hbef.
  unfold durable_attempt. rewrite El. fold (attempt_key c a).
  assert (Hk : attempt_key c a ∈ all_keys calls) by by apply attempt_key_in.
  eapply life_seq; [apply (get_checkpoint_life host calls J HJ); [done|done|apply Hbef]|].
  intros r w1 Hw1 [H1 ->]. unfold has_value.
  eapply before_attempt_stable in Hbef; [|done| |apply H1]; [|lia].
  rewrite <-(after_lookup _ _ _ _ _ H1 Hk). destruct Hbef as (Hs1 & Hr1 & Hno1 & Hb1).
  destruct (checkpoints (w_db w1) !! (i, attempt_key c a)) as [row|] eqn:Erow;
    cbn [fmap option_fmap option_map].
  - destruct (proj1 Hs1 c Hc) as [m Hm].
    pose proof (rec_attempts _ _ _ _ Hm a Ha) as Hrow. rewrite Erow in Hrow.
    destruct Hrow as [_ [Hf0 Hf2]].
    apply wpi_ret; [done|apply attempted_stable; [done|lia]|].
    simpl. rewrite Hf0. split_and!; [done|done|done|]. split_and!; [done|done|done|].
    intros b Hin. destruct (decide (b = a)) as [->|]; [|apply Hb1; lia]. by rewrite Erow.
  - eapply life_seq_ok; [apply run_attempt_life; [done|done|split; [done|by exists a]|done|done]
      |by intros; apply attempted_stable; [|lia]|by intros|].
    intros [[l2 x] o] w2 Hw2 (Hm & [Hu2 Hr2] & Ea & Em2 & Hans). simpl in Ea.
    destruct (err_flag l2) eqn:Eerr.
    + eapply life_seq; [apply store_attempt_life; try done|].
      * by rewrite Hm by by apply call_key_in.
      * by rewrite Hm.
      * intros b Hin. rewrite Hm; [by apply Hb1|]. apply attempt_key_in; [done|lia].
      * intros [r|e] w3 Hw3 Hbef; (apply wpi_ret; [done|apply attempted_stable; [done|lia]|]); [|done].
        simpl. rewrite Eerr. by split_and!; [congruence|..].
    + apply wpi_ret; [done|apply attempted_stable; [done|lia]|]. simpl. rewrite Eerr.
      split_and!; [congruence|done|done|]. by destruct o.
Qed.

(** The loop of attempts ends with an output to store, or ends the life. *)
Definition called (c : AgentCall) (enough : Prop) (r : result CallStop (AgentLocals * bytes))
  (w : world) : Prop :=
  match r with
  | Ok (l, output) => memo l = None ∧ done_call c w ∧ output ≠ []
  | Err e => enough → e ≠ OutOfRounds
  end.

Lemma called_stable c enough r : c ∈ calls → stable R (called c enough r).
Proof.
  intros Hc w w' HR. destruct r as [[l o]|e]; simpl; [|done].
  intros (H1 & H2 & H3). split_and!; [done| |done]. by eapply done_call_stable.
Qed.

Lemma retry_condition_plain c l :
  rate_limited l = false →
  retry_condition c l = (l, retryable l && (attempt l <=? call_max_retries c)).
Proof. intros E. unfold retry_condition. rewrite E. by destruct (retryable l). Qed.

Lemma attempts_life c rounds a input l w :
  c ∈ calls → 0 < call_max_retries c → 1 ≤ a ≤ call_max_retries c + 1 →
  attempt l = a → memo l = None → before_attempt c a w →
  life (attempts host c rounds input l) (called c (call_max_retries c + 1 < Z.of_nat rounds + a)) w.
Proof.
  intros Hc Hmax. revert a input l w.
  induction rounds as [|rounds IH]; intros a input l w Ha El Em Hbef;
    (assert (Hw : J w) by apply settled_accounted, Hbef); [apply wpi_ret; [done|by apply called_stable|simpl; lia]|].
  simpl. rewrite (dc_durable _ Hcalls c Hc).
  eapply life_seq_ok; [by apply (durable_attempt_life c a)|by intros; apply called_stable|intros e w' _ He _; exact He|].
  intros [[l1 x] output] w1 Hw1 (Ea & Em1 & Hatt). destruct (err_flag l1).
  - destruct Hatt as [Hrl Hbef1]. rewrite (retry_condition_plain c l1 Hrl).
    destruct (retryable l1 && _) eqn:Eagain; [|apply wpi_ret; [done|by apply called_stable|done]].
    apply andb_prop in Eagain as [_ Eagain]. apply Z.leb_le in Eagain.
    pose proof (dc_retries _ Hcalls c Hc) as Hlim.
    assert (Enext : attempt (advance_attempt l1) = a + 1).
    { simpl. unfold wrap_u32. rewrite Z.mod_small by lia. lia. }
    eapply (life_seq_ok _ _ (λ r w', waited (advance_attempt l1) r ∧ J w' ∧ before_attempt c (a + 1) w')).
    + destruct (true && hit_flag _).
      * apply wpi_ret; [done| |by split_and!].
        intros w2 w3 H23 (H2 & H3 & H4). split_and!; [done|by eapply J_stable|].
        eapply (before_attempt_stable c (a + 1)); [done|lia|done|done].
      * apply backoff_life; [done|lia| |done|done]. apply before_attempt_stable; [done|lia].
    + by intros; apply called_stable.
    + intros e w2 _ (He & _) _. exact He.
    + intros l2 w2 Hw2 ([Ea2 Em2] & _ & Hbef2).
      eapply wpi_mono; [|apply (IH (a + 1)); [lia|by rewrite Ea2|by rewrite Em2|done]].
      intros [[l3 o]|e] w3; [done|]. simpl. intros He Hn. apply He. lia.
  - destruct Hatt as [Hdone Ho]. destruct output as [o|].
    + apply wpi_ret; [done|by apply called_stable|by split_and!].
    + apply wpi_ret; [done|by apply called_stable|done].
Qed.

Lemma single_open c w :
  c ∈ calls → call_max_retries c = 0 → settled w →
  checkpoints (w_db w) !! (i, call_key c) = None → open_call host c w.
Proof.
  intros Hc Hmax [Hr _] Hno. split; [done|]. exists 1. split; [lia|].
  destruct (Hr c Hc) as [m Hm]. pose proof (rec_attempts _ _ _ _ Hm 1 ltac:(lia)) as H1.
  pose proof (rec_single _ _ _ _ Hm Hmax).
  destruct (checkpoints (w_db w) !! (i, attempt_key c 1)); [lia|done].
Qed.

Lemma invoke_with_retries_life c rounds input l w :
  c ∈ calls → memo l = None → settled w → running i (w_db w) →
  checkpoints (w_db w) !! (i, call_key c) = None →
  life (invoke_with_retries host c rounds input l) (called c (call_max_retries c < Z.of_nat rounds)) w.
Proof.
  intros Hc Em Hs Hr Hno. assert (Hw : J w) by by apply settled_accounted.
  pose proof (dc_retries _ Hcalls c Hc) as Hlim. unfold invoke_with_retries.
  destruct (0 <? call_max_retries c) eqn:Emax.
  - eapply wpi_mono; [|apply (attempts_life c rounds 1); [done|lia|lia|done|done|]].
    + intros [[l3 o]|e] w3; [done|]. simpl. intros He Hn. apply He. lia.
    + split_and!; [done|done|done|lia].
  - unfold agent_answer. rewrite Em.
    eapply (life_seq_ok _ _ (λ r w', match r with
      | Ok (l', x, answer) => l' = l ∧ answered c w (Ok (x, answer)) w'
    | Err e => e ≠ OutOfRounds end)).
    + eapply life_seq_ok; [apply agent_invoke_life; [done|done|apply single_open; [done|lia|done|done]|done]
        |by intros ????|by intros e w' _ [_ He]|].
      intros [x answer] w' Hw' Ha. apply wpi_ret; [done| |done].
      intros w1 w2 H12 [E H1]. split; [done|]. by eapply answered_stable.
    + by intros; apply called_stable.
    + intros e w' _ He _. exact He.
    + intros [[l' x] answer] w' Hw' [-> (Hm & Hu & Hr' & Hans)].
      destruct answer as [o|info]; (apply wpi_ret; [done|by apply called_stable|]); [by split_and!|done].
Qed.

(** *** Saving the result *)

Lemma obey_effs ty : all_effs (beside_keys i calls) (obey_signal host ty).
Proof.
  assert (Hack : ∀ h s, all_effs (beside_keys i calls) (ack_signal h s)).
  { intros h s. unfold ack_signal, handle_signal_ack. solve_effs; simpl; try done; by intros ? _ []. }
  unfold obey_signal, suspend_for. destruct ty; try done.
  - apply all_effs_bind; [apply Hack|done].
  - apply all_effs_bind; [apply Hack|]. intros _. apply all_effs_bind; [apply event_effs|done].
  - apply all_effs_bind; [apply Hack|]. intros _. apply all_effs_bind; [|done].
    apply (event_effs EventSuspended [] None).
Qed.

Lemma obey_returns ty : ty ≠ SignalResume → returns (λ x, x.2 ≠ Ok false) (obey_signal host ty).
Proof.
  intros Hty. unfold obey_signal, suspend_for. destruct ty; try done;
    (eapply returns_bind; [apply returns_any|]); intros _ _; [done| |];
    (eapply returns_bind; [apply returns_any|]); by intros [?|?] _.
Qed.

(** The call is over, and its result stored. *)
Definition finished (enough : Prop) (r : result CallStop (AgentLocals * bytes)) (w : world) : Prop :=
  match r with
  | Ok (l, _) => memo l = None ∧ settled w ∧ running i (w_db w)
  | Err e => enough → e ≠ OutOfRounds
  end.

Lemma finished_stable enough r : stable R (finished enough r).
Proof.
  intros w w' HR. destruct r as [[l o]|e]; simpl; [|done].
  intros (H1 & H2 & H3). split_and!; [done| |by apply HR]. eapply settled_stable; [apply HR|done].
Qed.

Lemma signal_life enough l output signal w :
  memo l = None → settled w → running i (w_db w) →
  life (let! (_, handled) := handle_checkpoint_signal host signal in
        Ret (match handled with
             | Ok true => Err Suspended
             | Ok false => Ok (l, output)
             | Err e => Err (Returned e)
             end)) (finished enough) w.
Proof.
  intros Em Hs Hr. assert (Hw : J w) by by apply settled_accounted.
  assert (Hobey : ∀ ty, ty ≠ SignalResume →
    life (let! (_, handled) := obey_signal host ty in
          Ret (match handled with
               | Ok true => Err Suspended
               | Ok false => Ok (l, output)
               | Err e => Err (Returned e)
               end)) (finished enough) w).
  { intros ty Hty. eapply life_seq; [apply last_life; [apply obey_effs|by apply obey_returns|done]|].
    intros [h [[|]|e]] w' Hw' [Hx _]; try done; (apply wpi_ret; [done|apply finished_stable|done]). }
  unfold handle_checkpoint_signal. repeat case_decide; try by apply Hobey.
  apply wpi_ret; [done|apply finished_stable|by split_and!].
Qed.

Lemma checkpoint_save_life c enough l output w :
  c ∈ calls → memo l = None → output ≠ [] → done_call c w →
  life (checkpoint_save host c l output) (finished enough) w.
Proof.
  intros Hc Em Hne [Hu Hr]. unfold checkpoint_save.
  assert (Hset : ∀ w', stores host calls (call_key c) output w w' → settled w').
  { intros w' Hst. by eapply settle_result. }
  eapply life_seq; [apply (checkpoint_life host calls J HJ); try done|].
  - by apply call_key_in.
  - apply Hu.
  - by eapply unsettled_accounted.
  - intros w' Hst. by apply settled_accounted, Hset.
  - intros r w' Hw' (Hst & Hr' & resp & ->). destruct resp as [f st [signal|] cs].
    + apply signal_life; [done|by apply Hset|done].
    + apply wpi_ret; [done|apply finished_stable|]. by split_and!; [|apply Hset|].
Qed.

Lemma agent_call_life c rounds input l w :
  c ∈ calls → memo l = None → settled w → running i (w_db w) →
  life (agent_call host c rounds input l) (finished (call_max_retries c < Z.of_nat rounds)) w.
Proof.
  intros Hc Em Hs Hr. assert (Hw : J w) by by apply settled_accounted.
  assert (Hk : call_key c ∈ all_keys calls) by by apply call_key_in.
  unfold agent_call. rewrite (dc_durable _ Hcalls c Hc).
  eapply life_seq; [by apply (get_checkpoint_life host calls J HJ)|].
  intros r w1 Hw1 [H1 ->]. unfold has_value. rewrite <-(after_lookup _ _ _ _ _ H1 Hk).
  assert (Hs1 : settled w1) by (eapply settled_stable; [apply H1|done]).
  destruct (checkpoints (w_db w1) !! (i, call_key c)) as [row|] eqn:Erow;
    cbn [fmap option_fmap option_map].
  - apply wpi_ret; [done|apply finished_stable|]. by split_and!; [| |apply H1].
  - eapply life_seq_ok; [apply invoke_with_retries_life; [done|done|done|apply H1|done]
      |by intros; apply finished_stable|intros e w' _ He Hn; exact (He Hn)|].
    intros [l2 o] w2 Hw2 (Em2 & Hdone & Ho). by apply checkpoint_save_life.
Qed.

Lemma run_calls_life rounds input_of cs outputs l w :
  (∀ c, c ∈ cs → c ∈ calls) → memo l = None → settled w → running i (w_db w) →
  life (run_calls host rounds input_of cs outputs l)
    (λ r _, (∀ c, c ∈ cs → call_max_retries c < Z.of_nat rounds) → r ≠ Err OutOfRounds) w.
Proof.
  revert outputs l w. induction cs as [|c cs IH]; intros outputs l w Hcs Em Hs Hr;
    (assert (Hw : J w) by by apply settled_accounted); [by apply wpi_ret|].
  simpl. eapply life_seq_ok; [apply agent_call_life; [apply Hcs; left|done|done|done]|by intros ????| |].
  { intros e w' _ He Hn [= ->]. by apply He; [apply Hn; left|]. }
  intros [l1 o] w1 Hw1 (Em1 & Hs1 & Hr1).
  eapply wpi_mono; [|apply IH; [|done|done|done]; intros c' Hc'; apply Hcs; by right].
  intros r w2 Hr2 Hn. apply Hr2. intros c' Hc'. apply Hn. by right.
Qed.
End life.

(** ** Theorems *)

Section theorems.
Context `{Ext, JsonDisplay} (host : PersistenceRuntimeHost) (rounds : nat).
Context (input_of : AgentCall → list bytes → bytes) (calls : list AgentCall).
#[local] Abbreviation i := (host_instance_id host).

Lemma fresh_records w :
  durable_calls calls → (∀ k, k ∈ all_keys calls → checkpoints (w_db w) !! (i, k) = None) →
  records host calls w.
Proof.
  intros Hcalls Hfresh c Hc. pose proof (dc_retries _ Hcalls c Hc). exists 0. split; [lia|done| |lia].
  intros a Ha. rewrite Hfresh by by apply attempt_key_in. lia.
Qed.

(** One more life, from a world whose answers are all accounted for. *)
Lemma life_accounts base w w1 l p l' w' :
  durable_calls calls → settled host calls base w → kept i calls w w1 → running i (w_db w1) →
  Forall (all_effs (λ _, Guarantees (alongside i calls))) l →
  rtc (focus_step plain) (run_calls host rounds input_of calls [] zero_locals, l, w1) (p, l', w') →
  wpi (alongside i calls) plain (accounted host calls base) p
    (λ r _, (∀ c, c ∈ calls → call_max_retries c < Z.of_nat rounds) → r ≠ Err OutOfRounds) w'.
Proof.
  intros Hcalls Hs Hk Hr Hl Hsteps.
  eapply (focus_interrupted (alongside i calls) plain); [|exact Hsteps|exact Hl|].
  - apply J_stable.
  - apply run_calls_life; [done|done|done| |done]. by eapply settled_stable.
Qed.

Lemma lives_accounted w0 n w :
  durable_calls calls →
  (∀ k, k ∈ all_keys calls → checkpoints (w_db w0) !! (i, k) = None) →
  lives host rounds input_of calls w0 n w →
  settled host calls (invocations i w0 + Z.of_nat n) w ∧
  invocations i w ≤ invocations i w0 + planned_attempts calls + Z.max 0 (Z.of_nat n - 1).
Proof.
  intros Hcalls Hfresh Hlives.
  induction Hlives as [|n w w1 l p l' w' Hlives [IH _] Hk Hr Hl Hsteps].
  - pose proof (fresh_records w0 Hcalls Hfresh) as Hrec.
    pose proof (stored_planned host w0 calls Hrec). unfold settled, stored in *. split; [|lia].
    split; [done|lia].
  - pose proof (life_accounts _ _ _ _ _ _ _ Hcalls IH Hk Hr Hl Hsteps) as Hacc.
    apply wpi_left in Hacc as (Hrec & H1 & H2). split; [split; [done|]|]; lia.
Qed.

(** C1: Crash safety of agent calls.  A straight line of agent calls, all durable and with
    checkpoint keys of their own, is run again from the start after every crash, in any
    number of lives.  Each life is beside any tasks that leave its checkpoints and its
    running status alone, and is cut off after any effect.  No statement of the guest's own
    checkpoint traffic fails, and the agents answer with a non-empty output or with an error
    that is no rate limit (where this does not hold, see [failed_lookup_calls_again] and
    [zero_wait_never_ends]).  Then all lives together call agents at most as often as one
    uninterrupted run may (once and [max_retries] more for every call),
    and once more for every relaunch. *)
Theorem relaunch_repeats_one_call w0 n w :
  durable_calls calls →
  (∀ k, k ∈ all_keys calls → checkpoints (w_db w0) !! (i, k) = None) →
  lives host rounds input_of calls w0 n w →
  invocations i w ≤ invocations i w0 + planned_attempts calls + Z.max 0 (Z.of_nat n - 1).
Proof. intros Hcalls Hfresh Hlives. by apply lives_accounted. Qed.

(** The rounds of the loops are enough: a life that was not cut off did not run out of them. *)
Lemma rounds_suffice w0 n w w1 l r l' w' :
  durable_calls calls →
  (∀ k, k ∈ all_keys calls → checkpoints (w_db w0) !! (i, k) = None) →
  (∀ c, c ∈ calls → call_max_retries c < Z.of_nat rounds) →
  lives host rounds input_of calls w0 n w → kept i calls w w1 → running i (w_db w1) →
  Forall (all_effs (λ _, Guarantees (alongside i calls))) l →
  rtc (focus_step plain) (run_calls host rounds input_of calls [] zero_locals, l, w1) (Ret r, l', w') →
  r ≠ Err OutOfRounds.
Proof.
  intros Hcalls Hfresh Hrounds Hlives Hk Hr Hl Hsteps.
  destruct (lives_accounted w0 n w Hcalls Hfresh Hlives) as [Hs _].
  destruct (life_accounts _ _ _ _ _ _ _ Hcalls Hs Hk Hr Hl Hsteps) as [_ Hret].
  by apply (Hret w').
Qed.
End theorems.

(** *** Envelopes *)

Lemma byte_of_Z_value n : Z.of_N (Byte.to_N (byte_of_Z n)) = n mod 256.
Proof.
  unfold byte_of_Z. pose proof (Z.mod_pos_bound n 256 ltac:(lia)) as Hm.
  destruct (Byte.of_N (Z.to_N (n mod 256))) as [b|] eqn:E.
  - simpl. apply Byte.to_of_N in E. rewrite E. lia.
  - apply Byte.of_N_None_iff in E. lia.
Qed.

Lemma from_to_le_bytes count n : 0 ≤ n < 256 ^ Z.of_nat count → from_le_bytes (to_le_bytes count n) = n.
Proof.
  revert n. induction count as [|count IH]; intros n Hn; simpl; [lia|].
  rewrite byte_of_Z_value, IH.
  - pose proof (Z.div_mod n 256 ltac:(lia)). lia.
  - rewrite Nat2Z.inj_succ, Z.pow_succ_r in Hn by lia. split; [apply Z.div_pos; lia|].
    apply Z.div_lt_upper_bound; lia.
Qed.

Lemma length_to_le_bytes count n : length (to_le_bytes count n) = count.
Proof. revert n. induction count; intros n; simpl; [done|by f_equal]. Qed.

(** A replayed failure gives the retry the locals the failure had: the same decision follows. *)
Lemma attempt_replayed l0 l :
  0 ≤ sleep_ms l < 2 ^ 64 →
  attempt_decode (envelope_of l) l0 =
    {| l0 with err_flag := true; retryable := retryable l; rate_limited := rate_limited l;
               sleep_tag := sleep_tag l; sleep_ms := sleep_ms l; error_info := error_info l |}.
Proof.
  intros Hms. unfold attempt_decode, envelope_of, agent_attempt_envelope.
  set (tail := to_le_bytes 8 (sleep_ms l) ++ error_info l).
  assert (E8 : take 8 tail = to_le_bytes 8 (sleep_ms l)).
  { unfold tail. by rewrite take_app_length' by by rewrite length_to_le_bytes. }
  assert (Ed : drop 8 tail = error_info l).
  { unfold tail. by rewrite drop_app_length' by by rewrite length_to_le_bytes. }
  clearbody tail.
  change (drop 12 _) with (drop 8 tail). change (drop 4 _) with tail.
  rewrite E8, Ed, from_to_le_bytes by done.
  by destruct (retryable l), (rate_limited l), (sleep_tag l).
Qed.

(** *** Replay of a finished call *)

Lemma returns_wp T {A} (P : A → Prop) (p : prog A) w : returns P p → wp T p (λ a _, P a) w.
Proof.
  revert w. induction p as [a|X e k IH]; intros w Hp; [done|]. intros t Ht. by apply IH.
Qed.

(** A fallible step of a program that promises nothing of its errors. *)
Definition on_ok {E A} (Q : A → world → Prop) (r : result E A) (w : world) : Prop :=
  match r with Ok a => Q a w | Err _ => True end.

Lemma wp_on_ok T {E A B} (p : prog (result E A)) (f : A → prog (result E B)) P Q w :
  wp T p (on_ok P) w → (∀ a w', P a w' → wp T (f a) (on_ok Q) w') → wp T (bind_ok p f) (on_ok Q) w.
Proof.
  intros Hp Hf. apply wp_bind. eapply wp_mono; [|exact Hp]. intros [a|e] w' HP; [by apply Hf|done].
Qed.

Lemma longer_text s suffix : suffix ≠ "" → s +:+ suffix ≠ s.
Proof. intros Hs. induction s as [|x s IH]; [done|]. intros [= E]. by apply IH. Qed.

Section replay.
Context `{Ext, JsonDisplay} (host : PersistenceRuntimeHost) (c : AgentCall).
Context (Hdurable : call_durable c = true) (Hkey : call_key c ≠ DURABLE_SLEEP_CHECKPOINT_ID).
#[local] Abbreviation i := (host_instance_id host).

(** The instance runs, and the result of the call is not stored. *)
Definition still_open (db : Db) : Prop :=
  running i db ∧ checkpoints db !! (i, call_key c) = None.

Definition keeps_open (X : Type) (e : eff X) : Prop :=
  match e with
  | Pers o => ¬ writes_checkpoint (i, call_key c) o ∧ leaves_status i o
  | _ => True
  end.

Lemma keeps_open_wp {A} (p : prog A) w :
  all_effs keeps_open p → still_open (w_db w) → wp calm p (λ _ w', still_open (w_db w')) w.
Proof.
  intros Hp Hw. eapply (wp_guarantee (on_db (preserving still_open))); [by intros w1 w2 HR| |done].
  eapply all_effs_impl; [|exact Hp]. intros X e.
  apply (guarantees_op_class (λ A o, ¬ writes_checkpoint (i, call_key c) o ∧ leaves_status i o)); [apply _|].
  intros A' o [Ho Hs] st db [Hr Hn]. split; [by apply status_op|].
  pose proof (untouched_op (i, call_key c) o Ho st db) as E. unfold same_checkpoint in E. congruence.
Qed.

Lemma longer_key suffix : suffix ≠ "" → (call_key c +:+ suffix) ≠ call_key c.
Proof. apply longer_text. Qed.

Lemma sleep_keeps_open k s ms : k ≠ call_key c → all_effs keeps_open (durable_sleep_checkpoint host k s ms).
Proof.
  intros Hk. unfold durable_sleep_checkpoint, handle_sleep. solve_effs; simpl; try done;
    (split; [|done]); first [by intros []|by intros [=]].
Qed.

Lemma backoff_keeps_open l : all_effs keeps_open (backoff host c l).
Proof.
  unfold backoff, retry_sleep. rewrite Hdurable. apply all_effs_bind_ok.
  - destruct (sleep_tag _); (apply all_effs_bind; [|done]); apply sleep_keeps_open;
      [by apply longer_key|done].
  - intros l'. unfold record_retry_attempt, handle_retry_attempt. solve_effs; simpl; [done|].
    split; [|done]. intros [= E]. by apply (longer_key ("::retry::" +:+ show_Z (wrap_i32 (attempt l')))).
Qed.

Lemma store_keeps_open k s : k ≠ call_key c → all_effs keeps_open (checkpoint host k s).
Proof.
  intros Hk. unfold checkpoint, handle_checkpoint, get_pending_signal. solve_effs; simpl; try done;
    (split; [|done]); first [by intros []|by intros [=]].
Qed.

Lemma get_keeps_open k : all_effs keeps_open (get_checkpoint host k).
Proof. unfold get_checkpoint, handle_get_checkpoint. solve_effs; by split; [intros []|]. Qed.

Lemma agent_answer_wp input l w :
  still_open (w_db w) →
  wp calm (agent_answer host c input l) (on_ok (λ _ w', still_open (w_db w'))) w.
Proof.
  intros Hw. unfold agent_answer. destruct (memo l); [done|].
  eapply (wp_on_ok _ _ _ (λ _ w', still_open (w_db w'))); [|by intros [x answer] w' H'].
  unfold agent_invoke. destruct (call_connection_input c input) as [x|e].
  - intros t Ht. simpl. destruct (t_answer t); [|destruct (_ && _)]; done.
  - apply wp_bind. eapply wp_mono; [|apply returns_wp, returns_any]. done.
Qed.

Lemma run_attempt_wp input l w :
  still_open (w_db w) →
  wp calm (run_attempt host c input l) (on_ok (λ _ w', still_open (w_db w'))) w.
Proof.
  intros Hw. eapply wp_on_ok; [by apply agent_answer_wp|].
  intros [[l' x] [o|info]] w' Hw'; done.
Qed.

Lemma durable_attempt_wp input l w :
  still_open (w_db w) →
  wp calm (durable_attempt host c input l) (on_ok (λ _ w', still_open (w_db w'))) w.
Proof.
  intros Hw. unfold durable_attempt. apply wp_bind.
  eapply wp_mono; [|apply keeps_open_wp; [apply get_keeps_open|done]].
  intros r w1 Hw1. destruct (has_value r); [done|].
  eapply wp_on_ok; [by apply run_attempt_wp|]. intros [[l' x] o] w2 Hw2.
  destruct (err_flag l'); [|done]. apply wp_bind.
  eapply wp_mono; [|apply keeps_open_wp; [|exact Hw2]].
  - intros [resp|e] w3 Hw3; done.
  - apply store_keeps_open. by apply longer_key.
Qed.

Lemma attempts_wp rounds input l w :
  still_open (w_db w) →
  wp calm (attempts host c rounds input l) (on_ok (λ _ w', still_open (w_db w'))) w.
Proof.
  revert input l w. induction rounds as [|rounds IH]; intros input l w Hw; [done|].
  simpl. rewrite Hdurable. eapply wp_on_ok; [by apply durable_attempt_wp|].
  intros [[l1 x] output] w1 Hw1. destruct (err_flag l1); [|by destruct output].
  destruct (retry_condition c l1) as [l2 again]. destruct again; [|done].
  eapply (wp_on_ok _ _ _ (λ _ w', still_open (w_db w'))).
  - destruct (true && _); [done|].
    eapply wp_mono; [|apply keeps_open_wp; [apply backoff_keeps_open|done]]. by intros [?|?].
  - intros l3 w3 Hw3. by apply IH.
Qed.

Lemma invoke_with_retries_wp rounds input l w :
  still_open (w_db w) →
  wp calm (invoke_with_retries host c rounds input l) (on_ok (λ _ w', still_open (w_db w'))) w.
Proof.
  intros Hw. unfold invoke_with_retries. destruct (0 <? call_max_retries c).
  - by apply attempts_wp.
  - eapply wp_on_ok; [by apply agent_answer_wp|]. intros [[l' x] [o|info]] w' Hw'; done.
Qed.

(** The output is stored under the key of the call. *)
Definition kept_output (r : AgentLocals * bytes) (w : world) : Prop :=
  r.2 ≠ [] → holds_state (i, call_key c) r.2 (w_db w).

Lemma checkpoint_save_returns l output :
  returns (λ r : result CallStop (AgentLocals * bytes), ∀ x, r = Ok x → x.2 = output) (checkpoint_save host c l output).
Proof.
  unfold checkpoint_save. eapply returns_bind; [apply returns_any|].
  intros [[f st [signal|] cs]|e] _; try by intros x [= <-].
  eapply returns_bind; [apply returns_any|]. intros [h [[|]|e]] _; simpl; by intros x [= <-].
Qed.

Lemma signal_keeps_state s signal w :
  holds_state (i, call_key c) s (w_db w) →
  wp calm (handle_checkpoint_signal host signal)
    (λ _ w', holds_state (i, call_key c) s (w_db w')) w.
Proof.
  intros (row & Hrow & Hs). eapply wp_mono; [intros a w' Hw'; exists row; exact (conj Hw' Hs)|].
  eapply (wp_guarantee (on_db (preserving (λ db, checkpoints db !! (i, call_key c) = Some row))));
    [by intros w1 w2 HR| |done].
  eapply all_effs_impl; [intros X e; apply leaves_checkpoint_guarantees|].
  assert (Hobey : ∀ ty, all_effs (leaves_checkpoint (i, call_key c)) (obey_signal host ty)).
  { intros ty. eapply all_effs_impl; [|apply (obey_effs host [c])].
    intros X e. destruct e; try done. intros Ho. apply Ho. left. }
  unfold handle_checkpoint_signal. repeat case_decide; try apply Hobey. done.
Qed.

Lemma checkpoint_save_wp l output w :
  still_open (w_db w) → wp calm (checkpoint_save host c l output) (on_ok kept_output) w.
Proof.
  intros [(r & Hr & Hrun) Hno]. destruct (decide (output = [])) as [->|Hne].
  { eapply wp_mono; [|apply returns_wp, checkpoint_save_returns].
    intros [x|e] w' Hx; [|done]. intros Hne. by rewrite (Hx x eq_refl) in Hne. }
  eapply wp_mono; [|eapply (wp_conj _ _ _ (λ _ w', holds_state (i, call_key c) output (w_db w')));
    [apply returns_wp, checkpoint_save_returns|]].
  { intros a w' [Hx HQ]. destruct a as [x|e]; [|done]. intros _. rewrite (Hx x eq_refl).
    exact HQ. }
  unfold checkpoint_save. apply wp_bind. unfold checkpoint. apply wp_bind.
  eapply wp_mono; [|by eapply (checkpoint_fresh_wp {| cr_instance_id := i;
    cr_checkpoint_id := call_key c; cr_state := output |})].
  intros res w1 ((resp & -> & _) & Hst & _). apply wp_ret. simpl in *. unfold checkpoint_result.
  destruct (cresp_pending_signal resp) as [signal|]; simpl; [|exact Hst].
  apply wp_bind. eapply wp_mono; [|by apply signal_keeps_state]. by intros [h r2] w2 Hw2.
Qed.

Lemma get_checkpoint_wp w :
  is_Some (instances (w_db w) !! i) →
  wp calm (get_checkpoint host (call_key c))
    (λ r w', r = Ok (c_state <$> checkpoints (w_db w) !! (i, call_key c)) ∧
       w_db w' = w_db w ∧ w_log w' = w_log w) w.
Proof.
  intros [r Hr]. unfold get_checkpoint, handle_get_checkpoint, bind_ok. simpl.
  step_calm. unfold op_get_instance. rewrite Hr. simpl. step_calm. unfold op_load_checkpoint.
  by destruct (checkpoints (w_db w) !! (i, call_key c)).
Qed.

Lemma agent_call_stores rounds input l w :
  running i (w_db w) → wp calm (agent_call host c rounds input l) (on_ok kept_output) w.
Proof.
  intros Hrun. unfold agent_call. rewrite Hdurable. apply wp_bind.
  eapply wp_mono; [|apply get_checkpoint_wp; destruct Hrun as (r & Hr & _); by exists r].
  intros r w1 (-> & Hdb & _). unfold has_value. rewrite <-Hdb in *.
  destruct (checkpoints (w_db w1) !! (i, call_key c)) as [row|] eqn:Erow.
  - intros _. simpl. by exists row.
  - eapply wp_on_ok; [by apply invoke_with_retries_wp|]. intros [l' o] w2 Hw2.
    by apply checkpoint_save_wp.
Qed.

Lemma agent_call_replays rounds input l w s :
  is_Some (instances (w_db w) !! i) → holds_state (i, call_key c) s (w_db w) →
  wp calm (agent_call host c rounds input l)
    (λ r w', r = Ok (l, s) ∧ w_db w' = w_db w ∧ w_log w' = w_log w) w.
Proof.
  intros Hi (row & Hrow & <-). unfold agent_call. rewrite Hdurable. apply wp_bind.
  eapply wp_mono; [|by apply get_checkpoint_wp]. rewrite Hrow. by intros r w1 (-> & Hdb & Hlog).
Qed.

End replay.

(** ** Concrete runs *)

From S2P Require Import GuestScenarios.
#[local] Existing Instance plain_display.

Definition demo_host : PersistenceRuntimeHost := host_new "i" false.

Definition demo_call : AgentCall :=
  {| call_component := "mail"; call_capability_id := "send"; call_key := "k"; call_durable := true;
     call_max_retries := 1; call_retry_delay_ms := 10; call_rate_limit_budget_ms := 1000;
     call_is_workflow := false; call_connection_input := Ok |}.

Definition other_call : AgentCall := {| demo_call with call_key := "k2" |}.

Definition answers (answer : result ErrorInfo bytes) : tick := {| quiet with t_answer := answer |}.

Definition failure (code : string) (retry_after : option Z) : result ErrorInfo bytes :=
  Err {| ei_code := code; ei_message := ""; ei_category := "transient"; ei_severity := "error";
         ei_retryable := true; ei_retry_after_ms := retry_after; ei_attributes := None |}.

(** Ticks that answer the first calls with [answer] and the others with an output. *)
Definition answers_first (n : nat) (answer : result ErrorInfo bytes) : nat → tick :=
  λ k, if decide (k < n)%nat then answers answer else answers (Ok ["1"%byte]).

(** A first life that crashes after the agent has answered, and a second one. *)
Definition own (n : nat) (ts : nat → tick) : list (option nat * tick) := (λ k, (None, ts k)) <$> seq 0 n.

Definition demo_life (n : nat) (ts : nat → tick) (w : world) :=
  run_focus (own n ts) (run_calls demo_host 5 (λ _ _, []) [demo_call] [] zero_locals, [], w).

Definition demo_first := demo_life 5 (answers_first 5 (failure "TIMEOUT" None)) running_world.
Definition demo_second := demo_life 40 (answers_first 18 (failure "TIMEOUT" None)) demo_first.2.

Lemma demo_durable : durable_calls [demo_call].
Proof.
  split.
  - intros c ->%list_elem_of_singleton. done.
  - intros c ->%list_elem_of_singleton. simpl. lia.
  - apply (bool_decide_unpack _). vm_compute. done.
  - intros c k ->%list_elem_of_singleton. revert k. apply Forall_forall.
    apply (bool_decide_unpack _). vm_compute. done.
Qed.

Lemma demo_running w : i_status <$> instances (w_db w) !! "i" = Some "running" → running "i" (w_db w).
Proof.
  destruct (instances (w_db w) !! "i") as [r|] eqn:E; [|done]. intros [= Hr]. by exists r.
Qed.

Lemma demo_life_lives n k ts w :
  lives demo_host 5 (λ _ _, []) [demo_call] running_world k w →
  i_status <$> instances (w_db w) !! "i" = Some "running" → (∀ m, plain (ts m)) →
  lives demo_host 5 (λ _ _, []) [demo_call] running_world (S k) (demo_life n ts w).2.
Proof.
  intros Hl Hr Ht. unfold demo_life. set (c0 := (run_calls _ _ _ _ _ _, _, _)).
  assert (Hsteps : rtc (focus_step plain) c0 (run_focus (own n ts) c0)).
  { apply run_focus_reachable. apply Forall_forall. intros [o t] (m & [= -> ->] & _)%list_elem_of_fmap.
    intros _. apply Ht. }
  destruct (run_focus (own n ts) c0) as [[p l'] w'].
  eapply (lives_next _ _ _ _ _ _ w w); [done|done|by apply demo_running| |exact Hsteps]. constructor.
Qed.

Lemma answers_first_plain n code retry_after m :
  agent_error_code_is_rate_limited code = false →
  plain (answers_first n (failure code retry_after) m).
Proof. intros Hc. unfold answers_first. by case_decide; split. Qed.

Lemma relaunch_repeats_one_call_witness :
  lives demo_host 5 (λ _ _, []) [demo_call] running_world 2 demo_second.2 ∧
  invocations "i" demo_second.2 = 3 ∧ invocations "i" demo_second.2 ≤ 0 + 2 + 1.
Proof.
  assert (Hl : lives demo_host 5 (λ _ _, []) [demo_call] running_world 2 demo_second.2).
  { apply demo_life_lives; [apply demo_life_lives; [constructor| |]| |];
      [reflexivity|intros m; by apply answers_first_plain
      |vm_compute; reflexivity|intros m; by apply answers_first_plain]. }
  split; [exact Hl|]. split; [vm_compute; reflexivity|].
  apply (relaunch_repeats_one_call demo_host 5 (λ _ _, []) [demo_call] running_world 2 demo_second.2);
    [apply demo_durable| |exact Hl].
  apply Forall_forall. apply (bool_decide_unpack _). vm_compute. exact I.
Defined.

Definition one_answer : nat → tick := λ _, answers (Ok ["1"%byte]).


(** The budget of rate-limit waits is kept in a local that no call resets: of two calls that
    each wait 600 ms of the 1000 ms they may, the second one fails. *)
Lemma rate_limit_budget_shared :
  (run (agent_call demo_host other_call 5 [] zero_locals)
     (answers_first 5 (failure "RATE_LIMITED" (Some 600))) running_world).1 =
    Ok ({| zero_locals with attempt := 2; error_info := list_byte_of_string "k2::retry_sleep::2";
           sleep_tag := true; retryable := true; rate_limited := true; sleep_ms := 600;
           wait_total := 600 |}, ["1"%byte]) ∧
  match (run (agent_call demo_host other_call 5 [] {| zero_locals with wait_total := 600 |})
           (answers_first 5 (failure "RATE_LIMITED" (Some 600))) running_world).1 with
  | Err (StepError _ _) => True
  | _ => False
  end.
Proof. split; vm_compute; reflexivity || exact I. Qed.

(** The audit record of an attempt that waited for a rate limit carries the key of the wait in
    place of the error. *)
Lemma audit_record_loses_error :
  c_error_message <$>
    checkpoints (w_db (run (agent_call demo_host demo_call 5 [] zero_locals)
      (answers_first 5 (failure "RATE_LIMITED" (Some 600))) running_world).2) !! ("i", "k::retry::2") =
  Some (Some "k::retry_sleep::2").
Proof. vm_compute. reflexivity. Qed.

(** A lookup that fails counts as a miss: the agent is called again although its result is
    stored. *)
Lemma failed_lookup_calls_again :
  let first := run (agent_call demo_host demo_call 5 [] zero_locals) one_answer running_world in
  let again := run (agent_call demo_host demo_call 5 [] zero_locals)
                 (λ n, if decide (n = O) then {| quiet with t_fault := Rejected |}
                       else answers (Ok ["2"%byte])) first.2 in
  invocations "i" first.2 = 1 ∧ invocations "i" again.2 = 2 ∧
  match again.1 with Ok (_, output) => output = ["2"%byte] | _ => False end.
Proof. vm_compute. by split_and!. Qed.

(** An agent that always asks to come back after 0 ms is called without end. *)
Lemma zero_wait_never_ends rounds input l w :
  memo l = None → wait_total l = 0 →
  wp (λ t, t_answer t = failure "RATE_LIMITED" (Some 0))
    (attempts demo_host {| demo_call with call_durable := false |} rounds input l)
    (λ r _, r = Err OutOfRounds) w.
Proof.
  revert input l w. induction rounds as [|rounds IH]; intros input l w Em Ew; [done|].
  unfold attempts; fold attempts. simpl. unfold run_attempt, agent_answer. rewrite Em. simpl.
  intros t Ht. simpl. rewrite Ht. simpl.
  unfold retry_condition. simpl. rewrite Ew. simpl.
  intros t' Ht'. simpl. apply IH; [done|]. reflexivity.
Qed.
