(* ===== verification/GuestKeyProperties.v ===== *)
(** * runtara-workflow-stdlib: keys of durable state identify their site

    Two uses of a key are the same execution of the same step: the key of a call
    determines the scope, the agent, the capability, the step and the loop indices, and
    the iterations of a loop never share one. *)

From S2P Require Import Prelude.
From S2P Require Import Json.
From S2P Require Import Text.
From S2P Require Import Recovery.
From S2P Require Import InstanceHandlers.
From S2P Require Import GuestStore.
From S2P Require Import GuestPaths.
From S2P Require Import GuestStepProperties.
From S2P Require Import GuestExpr.
From S2P Require Import GuestSteps.
From S2P Require Import GuestScenarios.
From S2P Require Import GuestManifest.
From S2P Require Import GuestKeys.
From S2P Require Import GuestLoops.
From S2P Require Import GuestSource.
From S2P Require Import Validation.

(** ** Texts in parts *)

Lemma split_char_cons c s : ∃ p ps, split_char c s = p :: ps.
Proof. destruct s as [|d s]; simpl; [eauto|]. destruct (Ascii.eqb d c); [eauto|]. destruct (split_char c s); eauto. Qed.

Lemma split_append c s t : split_char c (s +:+ String c t) = split_char c s ++ split_char c t.
Proof.
  induction s as [|d s IH].
  - change ("" +:+ ?x) with x. simpl. by rewrite Ascii.eqb_refl.
  - change (String d s +:+ ?x) with (String d (s +:+ x)). cbn [split_char]. rewrite IH.
    destruct (Ascii.eqb d c); [done|]. by destruct (split_char_cons c s) as (p & ps & ->).
Qed.

Lemma join_split c s : join (String c "") (split_char c s) = s.
Proof.
  induction s as [|d s IH]; [done|]. cbn [split_char].
  destruct (split_char_cons c s) as (p & ps & Hs). rewrite Hs in *.
  destruct (Ascii.eqb_spec d c) as [->|Hd].
  - change (join (String c "") ("" :: p :: ps)) with (String c (join (String c "") (p :: ps))).
    by rewrite IH.
  - destruct ps as [|q ps]; cbn [join] in *; by rewrite <-IH.
Qed.

(** The parts behind a scope are determined, and so is the scope. *)
Lemma parts_determined c S S' l l' :
  forallb (lacks c) l = true → forallb (lacks c) l' = true → l ≠ [] → length l = length l' →
  S +:+ String c (join (String c "") l) = S' +:+ String c (join (String c "") l') →
  S = S' ∧ l = l'.
Proof.
  intros Hl Hl' Hne Hlen Heq. apply (f_equal (split_char c)) in Heq.
  assert (l' ≠ []) by (intros ->; by destruct l).
  rewrite !split_append, !split_join in Heq by done.
  apply app_inj_2 in Heq as [HS ->]; [|done]. split; [|done].
  rewrite <-(join_split c S), <-(join_split c S'). by rewrite HS.
Qed.

Lemma last_part_determined c S S' l l' :
  forallb (lacks c) l = true → forallb (lacks c) l' = true → l ≠ [] → l' ≠ [] →
  S +:+ String c (join (String c "") l) = S' +:+ String c (join (String c "") l') →
  last l = last l'.
Proof.
  intros Hl Hl' Hne Hne' Heq. apply (f_equal (split_char c)) in Heq.
  rewrite !split_append, !split_join in Heq by done.
  assert (Hlast : ∀ (k m : list string), m ≠ [] → last (k ++ m) = last m)
    by (intros k m Hm; rewrite last_app; destruct m; [done|]; by destruct (last_is_Some (s :: m)) as [_ [? ->]]).
  by rewrite <-(Hlast (split_char c S) l), <-(Hlast (split_char c S') l'), Heq.
Qed.

Lemma append_inj_r a b c : a +:+ c = b +:+ c → a = b.
Proof.
  assert (Hlen : ∀ x y, String.length (x +:+ y) = (String.length x + String.length y)%nat).
  { induction x as [|d x IH]; intros y; [done|]. change (String d x +:+ y) with (String d (x +:+ y)). simpl. by rewrite IH. }
  revert b. induction a as [|d a IH]; intros b Heq.
  - destruct b as [|e b]; [done|]. apply (f_equal String.length) in Heq. rewrite !Hlen in Heq. simpl in Heq. lia.
  - destruct b as [|e b].
    + apply (f_equal String.length) in Heq. rewrite !Hlen in Heq. simpl in Heq. lia.
    + change (String d (a +:+ c) = String e (b +:+ c)) in Heq. injection Heq as -> Heq. f_equal. by apply IH.
Qed.

(** ** Numbers *)

Definition u32 (n : Z) : Prop := 0 ≤ n < 2 ^ 32.

Lemma show_Z_inj m n : u32 m → u32 n → show_Z m = show_Z n → m = n.
Proof.
  unfold u32. intros Hm Hn Heq. assert (Hb : 2 ^ 32 ≤ i64_max) by done.
  pose proof (parse_show m ltac:(lia)) as Pm. pose proof (parse_show n ltac:(lia)) as Pn.
  rewrite Heq in Pm. congruence.
Qed.

Lemma show_pos_aux_lacks c fuel n acc :
  digit_val c = None → 0 ≤ n → lacks c acc = true → lacks c (show_pos_aux fuel n acc) = true.
Proof.
  intros Hc. revert n acc. induction fuel as [|fuel IH]; intros n acc Hn Hacc; [done|]. simpl.
  assert (Hd : Ascii.eqb (digit_char (n mod 10)) c = false).
  { apply Ascii.eqb_neq. intros <-. pose proof (Z.mod_pos_bound n 10 ltac:(lia)).
    by rewrite digit_val_char in Hc. }
  destruct (n <? 10); [simpl; by rewrite Hd|]. apply IH; [by apply Z.div_pos|]. simpl. by rewrite Hd.
Qed.

Lemma show_Z_lacks c n : digit_val c = None → 0 ≤ n → lacks c (show_Z n) = true.
Proof.
  intros Hc Hn. unfold show_Z. destruct (Z.ltb_spec n 0); [lia|]. by apply show_pos_aux_lacks.
Qed.

Lemma lacks_join_sep c d parts :
  c ≠ d → forallb (lacks c) parts = true → lacks c (join (String d "") parts) = true.
Proof.
  intros Hcd. induction parts as [|p parts IH]; [done|]. intros [Hp Hps]%andb_prop.
  destruct parts as [|q parts]; [done|].
  change (join (String d "") (p :: q :: parts)) with (p +:+ String d (join (String d "") (q :: parts))).
  rewrite lacks_app, Hp. cbn [lacks]. rewrite IH by done.
  by rewrite (proj2 (Ascii.eqb_neq d c)) by congruence.
Qed.

Lemma joined_numbers_inj ix jx :
  Forall u32 ix → Forall u32 jx → ix ≠ [] → jx ≠ [] →
  join "," (show_Z <$> ix) = join "," (show_Z <$> jx) → ix = jx.
Proof.
  intros Hi Hj Hni Hnj Heq. apply (f_equal (split_char ",")) in Heq.
  assert (Hl : ∀ l, Forall u32 l → forallb (lacks ",") (show_Z <$> l) = true).
  { intros l Hl. apply forallb_forall. intros s (n & <- & Hn)%in_map_iff. apply show_Z_lacks; [done|].
    apply list_elem_of_In in Hn. eapply Forall_forall in Hl; [|done]. apply Hl. }
  change "," with (String ","%char "") in Heq.
  rewrite !split_join in Heq by first [by destruct ix | by destruct jx | by apply Hl].
  clear Hni Hnj. revert jx Hj Heq. induction Hi as [|n ix Hn Hi IH]; intros [|m jx] Hj Heq; try done.
  simpl in Heq. injection Heq as Hnm Heq. apply Forall_cons in Hj as [Hm Hj].
  f_equal; [by apply show_Z_inj|by apply IH].
Qed.

(** ** Keys *)

(** An id without the characters that structure a key. *)
Definition plain_id (s : string) : bool := lacks ":"%char s && lacks "["%char s.

(** The scope of a key: the site of the embedding, or the workflow. *)
Definition key_scope (source : json) : string :=
  default (workflow_id source) (source_cache_key_prefix source).

(** The enclosing loops of the scope are at the iterations [ix]. *)
Definition at_iterations (source : json) (ix : list Z) : Prop :=
  default [] (loop_indices source) = num <$> ix ∧ Forall u32 ix.

Section keys.
Context `{JsonDisplay}.

(** A number is displayed in decimal. *)
Hypothesis display_u32 : ∀ n, u32 n → json_display (num n) = show_Z n.

Lemma suffix_at source ix before after :
  at_iterations source ix →
  indices_suffix before after source =
  if decide (ix = []) then "" else before +:+ join "," (show_Z <$> ix) +:+ after.
Proof.
  intros [Hix Hu]. unfold indices_suffix.
  destruct (loop_indices source) as [[|v l]|]; simpl in Hix.
  - destruct ix; [done|discriminate Hix].
  - destruct ix as [|n ix]; [discriminate Hix|]. rewrite decide_False by done. rewrite Hix.
    do 3 f_equal. rewrite <-list_fmap_compose. apply list_fmap_ext. intros i m Hm.
    apply display_u32. by eapply Forall_lookup in Hu.
  - destruct ix; [done|discriminate Hix].
Qed.

Definition bracketed (ix : list Z) : string := "[" +:+ join "," (show_Z <$> ix) +:+ "]".

(** The parts of the key of a call behind its scope. *)
Definition agent_parts (agent : DirectJsonAgent) (ix : list Z) : list string :=
  [""; "agent"; ""; agent_id agent; ""; capability_id agent; ""; agent_step_id agent]
  ++ (if decide (ix = []) then [] else [""; bracketed ix]).

Lemma agent_key_parts agent source ix :
  at_iterations source ix →
  agent_cache_key agent source = key_scope source +:+ String ":" (join ":" (agent_parts agent ix)).
Proof.
  intros Hix. unfold agent_cache_key, site_key. fold (key_scope source).
  rewrite (suffix_at source ix) by done. unfold agent_parts, bracketed.
  destruct (decide (ix = [])); cbn [app join]; by rewrite ?append_empty.
Qed.

Lemma bracketed_lacks ix : Forall u32 ix → lacks ":"%char (bracketed ix) = true.
Proof.
  intros Hix. unfold bracketed. change ("[" +:+ ?x) with (String "["%char x). cbn [lacks].
  rewrite lacks_app. rewrite (lacks_join_sep ":"%char ","%char); [done|done|].
  apply forallb_forall. intros s (n & <- & Hn)%in_map_iff. apply show_Z_lacks; [done|].
  apply list_elem_of_In in Hn. eapply Forall_forall in Hix; [|done]. apply Hix.
Qed.

Definition plain_agent_ids (agent : DirectJsonAgent) : bool :=
  plain_id (agent_id agent) && plain_id (capability_id agent) && plain_id (agent_step_id agent).

Lemma agent_parts_lack agent ix :
  plain_agent_ids agent = true → Forall u32 ix →
  forallb (lacks ":"%char) (agent_parts agent ix) = true.
Proof.
  unfold plain_agent_ids, plain_id. rewrite !andb_true_iff. intros [[[Ha _] [Hc _]] [Hs _]] Hix.
  unfold agent_parts. rewrite forallb_app. cbn [forallb]. rewrite Ha, Hc, Hs.
  destruct (decide (ix = [])); [done|]. cbn [forallb]. by rewrite bracketed_lacks.
Qed.

Lemma bracketed_inj ix jx :
  Forall u32 ix → Forall u32 jx → ix ≠ [] → jx ≠ [] → bracketed ix = bracketed jx → ix = jx.
Proof.
  intros ? ? ? ? Heq. unfold bracketed in Heq.
  change ("[" +:+ ?x) with (String "["%char x) in Heq. injection Heq as Heq.
  apply append_inj_r in Heq. by apply joined_numbers_inj.
Qed.

(** With the indices of the one empty, those of the other are. *)
Lemma agent_last_part agent ix agent' jx :
  plain_agent_ids agent = true → last (agent_parts agent ix) = last (agent_parts agent' jx) →
  ix = [] → jx = [].
Proof.
  intros Hp Hlast ->. destruct (decide (jx = [])) as [|Hj]; [done|]. exfalso.
  unfold agent_parts in Hlast. rewrite decide_True, decide_False in Hlast by done.
  rewrite last_app in Hlast. simpl in Hlast. injection Hlast as Hlast.
  unfold plain_agent_ids, plain_id in Hp. rewrite !andb_true_iff in Hp.
  destruct Hp as [_ [_ Hp]]. rewrite Hlast in Hp. done.
Qed.

Lemma agent_key_site agent agent' source source' ix jx :
  plain_agent_ids agent = true → plain_agent_ids agent' = true →
  at_iterations source ix → at_iterations source' jx →
  agent_cache_key agent source = agent_cache_key agent' source' →
  key_scope source = key_scope source' ∧ agent_id agent = agent_id agent' ∧
  capability_id agent = capability_id agent' ∧ agent_step_id agent = agent_step_id agent' ∧ ix = jx.
Proof.
  intros Hp Hp' Hix Hjx Heq.
  rewrite (agent_key_parts agent source ix), (agent_key_parts agent' source' jx) in Heq by done.
  pose proof (agent_parts_lack agent ix Hp (proj2 Hix)) as Hl.
  pose proof (agent_parts_lack agent' jx Hp' (proj2 Hjx)) as Hl'.
  pose proof (last_part_determined ":"%char _ _ _ _ Hl Hl' ltac:(done) ltac:(done) Heq) as Hlast.
  assert (Hempty : ix = [] ↔ jx = [])
    by (split; [exact (agent_last_part _ _ _ _ Hp Hlast)|exact (agent_last_part _ _ _ _ Hp' (eq_sym Hlast))]).
  apply parts_determined in Heq as [HS Hparts]; [|done..|].
  2: { unfold agent_parts. rewrite !length_app. do 2 destruct (decide _); naive_solver. }
  unfold agent_parts in Hparts. injection Hparts as Ha Hc Hs Hsuf.
  split_and!; try done. do 2 destruct (decide _); try naive_solver.
  apply bracketed_inj; [apply Hix|apply Hjx|done|done|congruence].
Qed.
End keys.

(** ** The scope of a built source *)

(** What is not set keeps its value. *)
Lemma foldl_set_other k l m :
  k ∉ l.*1 → assoc_get k (foldl (λ m kv, assoc_set kv.1 kv.2 m) m l) = assoc_get k m.
Proof.
  revert m. induction l as [|[k' v] l IH]; intros m Hk; [done|]. simpl.
  rewrite fmap_cons, not_elem_of_cons in Hk. destruct Hk as [Hk Hl]. rewrite IH by done.
  by apply assoc_get_set_ne.
Qed.

Lemma assoc_get_or_insert k k' v m :
  k ≠ k' → assoc_get k (assoc_or_insert k' v m) = assoc_get k m.
Proof. intros Hk. unfold assoc_or_insert. destruct (assoc_get k' m); [done|]. by apply assoc_get_set_ne. Qed.

(** A private variable of the scope is not overridden by the input. *)
Lemma merge_private k runtime defaults :
  overridable k = false → assoc_get k (merge_variables runtime defaults) = assoc_get k defaults.
Proof.
  intros Hk. unfold merge_variables. revert defaults.
  induction runtime as [|[k' v] runtime IH]; intros defaults; [done|]. simpl.
  destruct (overridable k') eqn:Ho; [|apply IH]. rewrite IH. apply assoc_get_set_ne. congruence.
Qed.

Lemma unwrap_private k data variables data' variables' :
  overridable k = false → unwrap_envelope data (JObject variables) = (data', variables') →
  json_get k variables' = assoc_get k variables.
Proof.
  intros Hk. unfold unwrap_envelope. intros Hu.
  destruct data as [| | | | |envelope]; try (by injection Hu as <- <-).
  destruct (assoc_get "data" envelope); [|by injection Hu as <- <-].
  destruct (assoc_get "variables" envelope) as [[| | | | |runtime]|]; injection Hu as <- <-; try done.
  by apply merge_private.
Qed.

Lemma inject_other k ie te variables :
  k ≠ "_instance_id" → k ≠ "_tenant_id" →
  json_get k (inject_runtime_identity_variables ie te variables) = json_get k variables.
Proof.
  intros H1 H2. destruct variables; try done. simpl. by rewrite !assoc_get_or_insert.
Qed.

Section scope.
Context `{Ext, ContentHash}.

Lemma intern_small v st : estimate_json_size v < WFREF_THRESHOLD_BYTES → intern_if_large v st = (v, st).
Proof.
  intros Hs. unfold intern_if_large. rewrite (proj2 (Z.ltb_lt _ _) Hs). by rewrite orb_true_r.
Qed.

(** A small value stays what it is. *)
Lemma intern_scope_small k v value value' st st' :
  json_get k value = Some v → estimate_json_size v < WFREF_THRESHOLD_BYTES →
  intern_scope value st = (value', st') → json_get k value' = Some v.
Proof.
  intros Hk Hs. unfold intern_scope. destruct value as [| | | | |m]; try done. simpl in Hk.
  destruct (intern_scope_entries m st) as [m' st1] eqn:Hm. intros [= <- <-]. simpl.
  revert m' st st1 Hm. induction m as [|[k' u] m IH]; intros m' st st1 Hm; [done|]. simpl in Hm, Hk.
  destruct (intern_if_large u st) as [u' st2] eqn:Hu.
  destruct (intern_scope_entries m st2) as [m2 st3] eqn:Hm2. injection Hm as <- <-. simpl.
  case_decide as Hkk; [|by eapply IH]. injection Hk as ->. rewrite intern_small in Hu by done. congruence.
Qed.

Lemma assembled_variables data variables steps :
  json_get "variables" (assemble_source data variables steps) = Some variables.
Proof.
  unfold assemble_source, json_object. rewrite foldl_app. simpl json_get. rewrite foldl_set_other; [done|].
  destruct (json_get "__error" steps), (iteration_context variables), (json_get "_loop" variables),
    (json_get "_item" variables); simpl; intros Hin;
    repeat (apply elem_of_cons in Hin as [Hin|Hin]; [discriminate Hin|]); by apply elem_of_nil in Hin.
Qed.

(** A small private variable is what the scope of the step gave it. *)
Lemma source_private ie te data variables steps st source st' k v :
  build_source_value ie te data (JObject variables) steps st = (source, st') →
  overridable k = false → k ≠ "_instance_id" → k ≠ "_tenant_id" →
  assoc_get k variables = Some v → estimate_json_size v < WFREF_THRESHOLD_BYTES →
  variable k source = Some v.
Proof.
  unfold build_source_value. intros Hb Hk H1 H2 Hv Hs.
  destruct (unwrap_envelope data (JObject variables)) as [data1 variables1] eqn:Hu.
  apply (unwrap_private k) in Hu; [|done]. rewrite Hv in Hu.
  destruct (intern_scope data1 st) as [data2 st1].
  destruct (intern_scope (inject_runtime_identity_variables ie te variables1) st1) as [variables2 st2] eqn:Hi.
  destruct (intern_scope steps st2) as [steps2 st3]. injection Hb as <- <-.
  apply (intern_scope_small k v) in Hi; [|by rewrite inject_other|done].
  unfold variable, source_variables. rewrite assembled_variables. simpl. by destruct variables2.
Qed.
End scope.

(** ** Iterations *)

Section iterations.
Context `{Ext, ContentHash, JsonDisplay, Minijinja}.

(** [vs] are the variables of iteration [i] of a loop in the scope [source]. *)
Definition loop_iteration (st : ValueStore) (loop : DirectJsonSplit + DirectJsonWhile) (source : json)
  (i : Z) (vs : list (string * json)) : Prop :=
  match loop with
  | inl split => ∃ item, split_iteration_variables st split source item i = Ok vs
  | inr while_step =>
      ∃ state, ws_index state = i ∧ while_iteration_variables st while_step source state = Ok vs
  end.

(** The scope is inside loops at the iterations [ix]; a thousand levels are enough. *)
Definition inside_loops (source : json) (ix : list Z) : Prop :=
  parent_indices (object_or_empty "variables" source) = num <$> ix ∧ Forall u32 ix ∧ (length ix < 1000)%nat.

Lemma enter_scope_other k id index m :
  k ≠ "_scope_id" → k ≠ "_parent_scope_id" → assoc_get k (enter_scope id index m) = assoc_get k m.
Proof. intros ? ?. unfold enter_scope. by rewrite !assoc_get_set_ne. Qed.

Lemma assoc_get_remove_ne k k' m : k ≠ k' → assoc_get k (assoc_remove k' m) = assoc_get k m.
Proof.
  intros Hk. unfold assoc_remove. induction m as [|[k1 v] m IH]; [done|].
  rewrite filter_cons. simpl. case_decide as Hd; simpl; [by rewrite IH|].
  rewrite IH. rewrite decide_False; [done|]. congruence.
Qed.

(** Authored variables cannot rewrite the indices of the loops. *)
Lemma iteration_indices st loop source i vs ix :
  inside_loops source ix → loop_iteration st loop source i vs →
  assoc_get "_loop_indices" vs = Some (JArray (num <$> ix ++ [i])).
Proof.
  intros (Hp & _) Hl. rewrite fmap_app.
  destruct loop as [split|w]; [destruct Hl as [item Hl]|destruct Hl as (state & <- & Hl)].
  - unfold split_iteration_variables in Hl.
    destruct (authored_variables st (split_value split) source _) as [vars|]; [|done].
    injection Hl as <-. rewrite enter_scope_other by done.
    rewrite !assoc_get_set_ne by done. rewrite assoc_get_set_eq. by rewrite Hp.
  - unfold while_iteration_variables in Hl.
    destruct (authored_variables st (while_value w) source _) as [vars|]; [|done].
    injection Hl as <-. rewrite enter_scope_other, assoc_get_set_ne by done.
    destruct (is_null (ws_outputs state)); rewrite ?assoc_get_set_ne, assoc_get_remove_ne,
      assoc_get_set_ne, assoc_get_set_eq by done; by rewrite Hp.
Qed.

Lemma indices_size ix : estimate_json_size (JArray (num <$> ix)) = 2 + 9 * Z.of_nat (length ix).
Proof.
  cbn [estimate_json_size]. f_equal. induction ix as [|i ix IH]; [done|]. unfold sum_Z in *.
  rewrite fmap_cons. cbn [map foldr]. rewrite IH. cbn [length]. simpl (estimate_json_size _). lia.
Qed.

(** The scope of an iteration knows where it is, whatever the data of the step. *)
Lemma iteration_at st loop source i vs ix ie te data steps st1 scope st2 :
  inside_loops source ix → u32 i → loop_iteration st loop source i vs →
  build_source_value ie te data (JObject vs) steps st1 = (scope, st2) → at_iterations scope (ix ++ [i]).
Proof.
  intros Hin Hi Hl Hb. pose proof (iteration_indices st loop source i vs ix Hin Hl) as Hv.
  destruct Hin as (_ & Hu & Hlen).
  apply (source_private _ _ _ _ _ _ _ _ "_loop_indices" _ Hb) in Hv; [|done..|].
  - unfold at_iterations, loop_indices. rewrite Hv. split; [done|]. by rewrite Forall_app, Forall_singleton.
  - rewrite indices_size, length_app. simpl. unfold WFREF_THRESHOLD_BYTES. lia.
Qed.

Definition show_numbers : Prop := ∀ n, u32 n → json_display (num n) = show_Z n.

(** C16: Iterations of a loop never share a checkpoint.  Take two iterations of a Split or
    While, in the same or in different iterations of the loops around it, whatever the
    items, the authored variables and the data of the steps: when a step of the body
    calls an agent in both and the two calls have the same cache key, they are the same
    iteration of the same enclosing iterations.  (Ids without colons and brackets; loops
    nested less than a thousand deep.) *)
Theorem iterations_share_no_key (st : ValueStore) (loop : DirectJsonSplit + DirectJsonWhile)
  (agent : DirectJsonAgent) (source source' : json) (ix jx : list Z) (i j : Z)
  (vs vs' : list (string * json)) (ie te : option string) (data data' steps steps' : json)
  (st1 st1' st2 st2' : ValueStore) (scope scope' : json)
  (display : show_numbers)
  (ids : plain_agent_ids agent = true)
  (around : inside_loops source ix) (around' : inside_loops source' jx)
  (numbers : u32 i ∧ u32 j)
  (first : loop_iteration st loop source i vs) (second : loop_iteration st loop source' j vs')
  (built : build_source_value ie te data (JObject vs) steps st1 = (scope, st2))
  (built' : build_source_value ie te data' (JObject vs') steps' st1' = (scope', st2'))
  (same : agent_cache_key agent scope = agent_cache_key agent scope') :
  ix = jx ∧ i = j.
Proof.
  destruct numbers as [Hi Hj].
  pose proof (iteration_at _ _ _ _ _ _ _ _ _ _ _ _ _ around Hi first built) as Hat.
  pose proof (iteration_at _ _ _ _ _ _ _ _ _ _ _ _ _ around' Hj second built') as Hat'.
  eapply agent_key_site in same as (_ & _ & _ & _ & Heq); [|done..].
  apply app_inj_tail in Heq. tauto.
Qed.

(** C17: A cache key identifies the call up to its scope: for agents whose ids hold no colons
    and brackets, two calls with the same key have the same scope string (the cache key
    prefix an embedding gave the scope, or else the workflow id; different chains of
    embeddings can have the same one, [embedded_sites_share_scope]), call the same capability
    of the same agent at the same step id, and are in the same iterations of the loops around
    them. *)
Theorem cache_key_identifies_call (agent agent' : DirectJsonAgent) (source source' : json)
  (ix jx : list Z)
  (display : show_numbers)
  (ids : plain_agent_ids agent = true ∧ plain_agent_ids agent' = true)
  (place : at_iterations source ix) (place' : at_iterations source' jx)
  (same : agent_cache_key agent source = agent_cache_key agent' source') :
  key_scope source = key_scope source' ∧ agent_id agent = agent_id agent' ∧
  capability_id agent = capability_id agent' ∧ agent_step_id agent = agent_step_id agent' ∧ ix = jx.
Proof. destruct ids. by eapply agent_key_site. Qed.
End iterations.

(** ** Concrete calls *)

Definition number_display : JsonDisplay :=
  λ v, match v with JNumber (PosInt n) => show_Z n | JString s => s | _ => "value" end.

#[local] Existing Instances codec length_hash number_display text_engine.

Definition split_named (id : string) : DirectJsonSplit :=
  {| split_step_id := id; split_name := None; split_value := JObject []; split_input_schema := JNull;
     split_output_schema := JNull |}.

(** The agent of [twin_loops], with the mapping [mapping] of its step. *)
Definition calling_agent (mapping : Z) : DirectJsonAgent :=
  {| agent_step_id := "call"; agent_name := None; agent_id := "http"; capability_id := "request";
     agent_connection_id := None; agent_connection_ref := None; input_mapping_id := mapping;
     required_inputs := [] |}.

(** A workflow that has just started. *)
Definition started : json :=
  JObject [("variables", JObject [("_workflow_id", JString "wf")])].

(** The scope of the body of the Split [id] for [item] at [index]. *)
Definition body_scope (id : string) (item : json) (index : Z) : json :=
  match split_iteration_variables fresh_arena (split_named id) started item index with
  | Ok vs => (build_source_value None None item (JObject vs) (JObject []) fresh_arena).1
  | Err _ => JNull
  end.

Lemma number_display_shows : show_numbers.
Proof. done. Qed.

Lemma iterations_share_no_key_witness :
  agent_cache_key (calling_agent 1) (body_scope "orders" (JString "a") 0) ≠
  agent_cache_key (calling_agent 1) (body_scope "orders" (JString "b") 1).
Proof.
  intros Hkey. assert (H01 : @nil Z = [] ∧ 0 = 1); [|destruct H01; discriminate].
  eapply (iterations_share_no_key fresh_arena (inl (split_named "orders")) (calling_agent 1)
    started started [] [] 0 1 _ _ None None (JString "a") (JString "b") (JObject []) (JObject [])
    fresh_arena fresh_arena); [exact number_display_shows|reflexivity|..|exact Hkey].
  - split; [reflexivity|]. split; [constructor|simpl; lia].
  - split; [reflexivity|]. split; [constructor|simpl; lia].
  - unfold u32; lia.
  - eexists; vm_compute; reflexivity.
  - eexists; vm_compute; reflexivity.
  - exact (surjective_pairing _).
  - exact (surjective_pairing _).
Defined.

Lemma cache_key_identifies_call_witness :
  agent_cache_key (calling_agent 1) (body_scope "orders" (JString "a") 0) =
  agent_cache_key (calling_agent 1) (body_scope "orders" (JString "b") 0) ∧
  key_scope (body_scope "orders" (JString "a") 0) = key_scope (body_scope "orders" (JString "b") 0).
Proof.
  split; [vm_compute; reflexivity|].
  apply (cache_key_identifies_call (calling_agent 1) (calling_agent 1) _ _ [0] [0]
    number_display_shows); [split; reflexivity| | |vm_compute; reflexivity].
  - split; [vm_compute; reflexivity|]. repeat constructor; unfold u32; lia.
  - split; [vm_compute; reflexivity|]. repeat constructor; unfold u32; lia.
Defined.

(** The key does not say in which loop the step is: the validator accepts a workflow whose
    two loops have a step of the same id, and the calls of these different steps share
    their keys, so that the second loop is given the stored results of the first. *)
Lemma sibling_loops_share_key :
  twin_loops_errors = [] ∧
  agent_cache_key (calling_agent 1) (body_scope "orders" (JString "first order") 0) =
  agent_cache_key (calling_agent 2) (body_scope "refunds" (JString "first refund") 0).
Proof. split; [exact twin_loops_accepted|vm_compute; reflexivity]. Qed.

(** The scope of an embedded step [b] inside an embedded step [a] is that of an embedded
    step [a__b]. *)
Lemma embedded_sites_share_scope :
  let inside_a := JObject [("variables", JObject
    [("_cache_key_prefix", JString (child_cache_prefix "a" started)); ("_workflow_id", JString "wf")])] in
  child_cache_prefix "b" inside_a = child_cache_prefix "a__b" started.
Proof. vm_compute. reflexivity. Qed.

(** An item with a [data] key is taken for the envelope of a start input: the body sees
    only what is under the key, and its variables override those of the workflow. *)
Lemma item_with_data_unwrapped :
  let item := JObject [("data", JString "inner"); ("id", num 7);
                       ("variables", JObject [("limit", num 0)])] in
  json_get "data" (body_scope "orders" item 0) = Some (JString "inner") ∧
  variable "limit" (body_scope "orders" item 0) = Some (num 0).
Proof. split; vm_compute; reflexivity. Qed.
