(* ===== verification/GuestLoopProperties.v ===== *)
(** * runtara-workflow-stdlib: what loops and groups return

    The results of a Split are its outcomes in order; batches cut the items without loss;
    the state of a While counts its iterations; the groups of a GroupBy partition the
    items. *)

From S2P Require Import Prelude.
From S2P Require Import Json.
From S2P Require Import Text.
From S2P Require Import InstanceHandlers.
From S2P Require Import GuestStore.
From S2P Require Import GuestPaths.
From S2P Require Import GuestExpr.
From S2P Require Import GuestCompiled.
From S2P Require Import GuestSteps.
From S2P Require Import GuestScenarios.
From S2P Require Import GuestManifest.
From S2P Require Import GuestKeys.
From S2P Require Import GuestLoops.
From S2P Require Import GuestKeyProperties.

(** ** Results of a Split *)

Section results.
Context `{Ext, JsonDisplay, Minijinja} (st : ValueStore) (split : DirectJsonSplit).

(** What the iterations from [index] on end with, an output or an error, stored one by one. *)
Fixpoint record_outcomes (results : json) (index : Z) (outcomes : list (json + string)) :
  result string json :=
  match outcomes with
  | [] => Ok results
  | inl output :: outcomes =>
      results ← append_output split results output;
      record_outcomes results (index + 1) outcomes
  | inr error :: outcomes =>
      results ← append_error split results error index;
      record_outcomes results (index + 1) outcomes
  end.

(** The outputs in order, and the errors with the index of their iteration. *)
Definition outputs_of (outcomes : list (json + string)) : list json :=
  omap (λ o, match o with inl v => Some v | inr _ => None end) outcomes.

Fixpoint errors_of (index : Z) (outcomes : list (json + string)) : list json :=
  match outcomes with
  | [] => []
  | inl _ :: outcomes => errors_of (index + 1) outcomes
  | inr e :: outcomes =>
      JObject [("error", JString e); ("index", num index)] :: errors_of (index + 1) outcomes
  end.

Definition accumulator (success error : list json) : json :=
  JObject [("aborted", JArray []); ("error", JArray error); ("skipped", JArray []);
           ("success", JArray success); ("unknown", JArray [])].

Lemma record_from index outcomes success error :
  split_dont_stop_on_failed split = true →
  record_outcomes (accumulator success error) index outcomes =
  Ok (accumulator (success ++ outputs_of outcomes) (error ++ errors_of index outcomes)).
Proof.
  intros Hd. revert index success error.
  assert (Hout : ∀ s e v, append_output split (accumulator s e) v = Ok (accumulator (s ++ [v]) e))
    by (intros; unfold append_output; by rewrite Hd).
  induction outcomes as [|[v|e] outcomes IH]; intros index success error; cbn [record_outcomes].
  - by rewrite !app_nil_r.
  - rewrite Hout. cbn [mbind result_bind]. rewrite IH. by rewrite <-(assoc_L (++)).
  - change (append_error split (accumulator success error) e index) with
      (@Ok string _ (accumulator success (error ++ [JObject [("error", JString e); ("index", num index)]]))).
    cbn [mbind result_bind]. rewrite IH. by rewrite <-(assoc_L (++)).
Qed.

Lemma outcomes_counted index outcomes :
  (length (outputs_of outcomes) + length (errors_of index outcomes) = length outcomes)%nat.
Proof.
  revert index. induction outcomes as [|[v|e] outcomes IH]; intros index; simpl; [done|..];
    specialize (IH (index + 1)); unfold outputs_of in *; simpl; lia.
Qed.

(** C33: A Split that does not stop on failures loses no iteration.  Whatever the outcomes
    of the iterations, an output or an error each, storing them one after the other and
    closing the step succeeds, and the result has the outputs in order, the errors in
    order with the index of their iteration, the numbers of both, which add up to the
    number of iterations, the number of items, and says whether there were failures. *)
Theorem split_keeps_outcomes (source : json) (items : list json) (outcomes : list (json + string))
  (policy : split_dont_stop_on_failed split = true)
  (resolved : split_items st split source = Ok items) :
  ∃ result data stats,
    (record_outcomes (initial_results split) 0 outcomes ≫= split_result st split source) = Ok result ∧
    json_get "outputs" result = Some (JArray (outputs_of outcomes)) ∧
    json_get "data" result = Some data ∧
    json_get "success" data = Some (JArray (outputs_of outcomes)) ∧
    json_get "error" data = Some (JArray (errors_of 0 outcomes)) ∧
    json_get "stats" result = Some stats ∧
    json_get "success" stats = Some (num_nat (length (outputs_of outcomes))) ∧
    json_get "error" stats = Some (num_nat (length (errors_of 0 outcomes))) ∧
    json_get "total" stats = Some (num_nat (length items)) ∧
    (length (outputs_of outcomes) + length (errors_of 0 outcomes) = length outcomes)%nat ∧
    json_get "hasFailures" result = Some (JBool (bool_decide (errors_of 0 outcomes ≠ []))).
Proof.
  assert (Hi : initial_results split = accumulator [] []) by (unfold initial_results; by rewrite policy).
  rewrite Hi, record_from by done. simpl. unfold split_result. rewrite policy.
  unfold split_dont_stop_result. cbn -[json_object]. rewrite resolved. cbn -[json_object].
  eexists _, _, _. split; [reflexivity|]. split_and!; try reflexivity. apply outcomes_counted.
Qed.
End results.

(** ** Batches *)

Lemma chunks_within_spec fuel size items :
  (0 < size)%nat → (length items ≤ fuel)%nat →
  concat (chunks_within fuel size items) = items ∧
  Forall (λ c, (0 < length c ≤ size)%nat) (chunks_within fuel size items) ∧
  (∀ c cs, chunks_within fuel size items = cs ++ [c] → Forall (λ c, length c = size) cs).
Proof.
  intros Hs. revert items. induction fuel as [|fuel IH]; intros items Hf.
  { destruct items; [|simpl in Hf; lia]. split_and!; [done|constructor|]. by intros c []. }
  destruct items as [|x items]; [split_and!; [done|constructor|]; by intros c []|].
  cbn [chunks_within]. set (all := x :: items) in *.
  destruct (IH (drop size all)) as (Hc & Hl & Hlast); [rewrite length_drop; simpl in *; lia|].
  split_and!.
  - cbn [concat]. rewrite Hc. apply take_drop.
  - constructor; [|done]. rewrite length_take. simpl in *. lia.
  - intros c [|c0 cs] Heq; [constructor|]. simpl in Heq. injection Heq as <- Hrest.
    constructor; [|by eapply Hlast].
    assert (Hne : chunks_within fuel size (drop size all) ≠ []) by (rewrite Hrest; by destruct cs).
    rewrite length_take. destruct (decide (size ≤ length all)%nat); [lia|]. exfalso. apply Hne.
    rewrite drop_ge by lia. by destruct fuel.
Qed.

(** The batches of a Split are the items cut in pieces of the size, the last one perhaps
    shorter. *)
Lemma split_batches `{Ext, JsonDisplay, Minijinja} st split source value input items :
  json_get "value" (split_value split) = Some value →
  apply_mapping_value st value source = Ok input → split_input split input = Ok items →
  0 < batch_size split →
  ∃ batches, split_items st split source = Ok (JArray <$> batches) ∧ concat batches = items ∧
    Forall (λ c, (0 < length c ≤ Z.to_nat (batch_size split))%nat) batches ∧
    (∀ c cs, batches = cs ++ [c] → Forall (λ c, length c = Z.to_nat (batch_size split)) cs).
Proof.
  intros Hv Hi Hit Hb. unfold split_items. rewrite Hv, Hi. cbn [mbind result_bind]. rewrite Hit.
  cbn [mbind result_bind]. rewrite (proj2 (Z.ltb_lt _ _) Hb). eexists. split; [reflexivity|].
  apply chunks_within_spec; lia.
Qed.

(** ** While *)

Section while.
Context (while_step : DirectJsonWhile).

Lemma while_state_roundtrip state :
  u32 (ws_index state) → read_while_state while_step (while_state_value state) = Ok state.
Proof.
  intros [_ Hu]. unfold read_while_state. simpl as_object. cbn [assoc_get]. simpl.
  destruct (Z.ltb_spec (ws_index state) (2 ^ 32)); [by destruct state|lia].
Qed.

(** The state after the iterations with these outputs; between two iterations it is JSON. *)
Fixpoint run_iterations (state : DirectJsonWhileState) (outputs : list json) :
  result string DirectJsonWhileState :=
  match outputs with
  | [] => Ok state
  | output :: outputs =>
      state ← read_while_state while_step (while_state_value state);
      state ← advance_while_state while_step state output;
      run_iterations state outputs
  end.

Lemma run_iterations_from state outputs :
  0 ≤ ws_index state → ws_index state + Z.of_nat (length outputs) < 2 ^ 32 →
  run_iterations state outputs =
  Ok {| ws_index := ws_index state + Z.of_nat (length outputs);
        ws_outputs := default (ws_outputs state) (last outputs) |}.
Proof.
  revert state. induction outputs as [|o outputs IH]; intros state H0 Hlt; simpl run_iterations.
  - destruct state. simpl. do 2 f_equal. lia.
  - simpl length in Hlt. rewrite while_state_roundtrip by (unfold u32; lia). cbn [mbind result_bind].
    unfold advance_while_state. rewrite (proj2 (Z.ltb_lt _ _)) by lia. cbn [mbind result_bind].
    rewrite IH by (simpl; lia). simpl length. simpl ws_index. f_equal. f_equal; [lia|].
    destruct outputs as [|o' outputs]; [done|].
    change (last (o :: o' :: outputs)) with (last (o' :: outputs)).
    by destruct (last_is_Some (o' :: outputs)) as [_ [? ->]].
Qed.

(** C34: The state of a While is exact.  After iterations with any outputs, fewer than 2^32,
    with the state written to JSON and read back between them, the index is the number of
    iterations and the outputs are those of the last one; the iteration after index
    2^32 - 1 is refused instead of wrapping around. *)
Theorem while_counts_iterations (outputs : list json) (state : DirectJsonWhileState) :
  (Z.of_nat (length outputs) < 2 ^ 32 →
   run_iterations initial_while_state outputs =
   Ok {| ws_index := Z.of_nat (length outputs); ws_outputs := default JNull (last outputs) |}) ∧
  (ws_index state = 2 ^ 32 - 1 → ∀ output, ∃ e, advance_while_state while_step state output = Err e).
Proof.
  split.
  - intros Hlt. by rewrite run_iterations_from.
  - intros Hi output. unfold advance_while_state. rewrite Hi. eexists. reflexivity.
Qed.
End while.

(** ** Groups *)

Lemma foldr_set_get {A} (f : A → json) (l : list (string * A)) k :
  NoDup l.*1 →
  assoc_get k (foldr (λ kv acc, assoc_set kv.1 (f kv.2) acc) [] l) = f <$> (list_to_map l : gmap string A) !! k.
Proof.
  induction l as [|[k' a] l IH]; simpl; intros Hnd; [by rewrite lookup_empty|].
  apply NoDup_cons in Hnd as [_ Hnd]. destruct (decide (k = k')) as [->|Hk].
  - by rewrite assoc_get_set_eq, lookup_insert_eq.
  - rewrite assoc_get_set_ne, lookup_insert_ne by done. by apply IH.
Qed.

Lemma map_object_get {A} (f : A → json) (m : gmap string A) k :
  json_get k (map_object f m) = f <$> m !! k.
Proof.
  unfold map_object. simpl. rewrite foldr_set_get by apply NoDup_fst_map_to_list.
  by rewrite list_to_map_to_list.
Qed.

Section groups.
Context `{JsonDisplay}.

Definition item_key (pointer : string) (item : json) : string :=
  group_key_string (default JNull (json_pointer item pointer)).

(** The items with the key, in order. *)
Definition keyed (pointer k : string) (items : list json) : list json :=
  filter (λ item, item_key pointer item = k) items.

Lemma group_items_spec pointer items groups counts groups' counts' :
  group_items pointer items groups counts = (groups', counts') →
  ∀ k,
    groups' !! k = (if decide (k ∈ item_key pointer <$> items)
                    then Some (default [] (groups !! k) ++ keyed pointer k items) else groups !! k) ∧
    counts' !! k = (if decide (k ∈ item_key pointer <$> items)
                    then Some (default 0 (counts !! k) + Z.of_nat (length (keyed pointer k items)))
                    else counts !! k).
Proof.
  revert groups counts. induction items as [|item items IH]; intros groups counts Hg k.
  { injection Hg as <- <-. by rewrite decide_False by set_solver. }
  cbn [group_items] in Hg. fold (item_key pointer item) in Hg.
  destruct (IH _ _ Hg k) as [-> ->]. clear IH Hg.
  rewrite fmap_cons. unfold keyed. rewrite filter_cons.
  destruct (decide (item_key pointer item = k)) as [<-|Hk].
  - rewrite !lookup_insert_eq.
    destruct (decide (_ ∈ _ :: _)) as [_|Hno]; [|exfalso; apply Hno; by left]. simpl.
    destruct (decide _) as [Hin|Hn]; [split; f_equal; [by rewrite <-(assoc_L (++))|lia]|].
    assert (Hnil : filter (λ i, item_key pointer i = item_key pointer item) items = []).
    { apply elem_of_nil_inv. intros x [Hx Hin]%list_elem_of_filter. apply Hn. apply list_elem_of_fmap. eauto. }
    by rewrite Hnil.
  - rewrite !lookup_insert_ne by done.
    destruct (decide (k ∈ item_key pointer <$> items)) as [Hin|Hn];
      [rewrite !decide_True by by right|rewrite !decide_False by set_solver]; done.
Qed.

(** The expected keys, each with the empty value. *)
Lemma expected_lookup {A} (a : A) (expected : list string) k :
  (foldl (λ m k, match m !! k with Some _ => m | None => <[k := a]> m end) ∅ expected : gmap string A) !! k
  = if decide (k ∈ expected) then Some a else None.
Proof.
  enough (Hm : ∀ m : gmap string A, (∀ k b, m !! k = Some b → b = a) →
    foldl (λ m k, match m !! k with Some _ => m | None => <[k := a]> m end) m expected !! k
    = if decide (k ∈ expected) then Some a else m !! k).
  { rewrite Hm; [by rewrite lookup_empty|]. intros ? ?. by rewrite lookup_empty. }
  induction expected as [|x expected IH]; intros m Hm; [by rewrite decide_False by set_solver|].
  simpl. rewrite IH.
  - destruct (decide (k ∈ expected)); [by rewrite decide_True by by right|].
    destruct (decide (k = x)) as [->|Hk].
    + rewrite decide_True by by left. destruct (m !! x) as [b|] eqn:Hx; [rewrite Hx; f_equal; eauto|].
      by rewrite lookup_insert_eq.
    + rewrite decide_False by set_solver. destruct (m !! x); [done|]. by rewrite lookup_insert_ne.
  - intros k' b. destruct (m !! x); [apply Hm|].
    destruct (decide (k' = x)) as [->|]; [rewrite lookup_insert_eq; congruence|].
    rewrite lookup_insert_ne by done. apply Hm.
Qed.
End groups.

(** The keys of a GroupBy: those it expects, and those of the items. *)
Definition group_keys `{JsonDisplay} (config : json) (pointer : string) (items : list json) : list string :=
  omap as_str (default [] (json_get "expectedKeys" config ≫= as_array)) ++ (item_key pointer <$> items).

(** GroupBy partitions the items.  For a list of items and a key, the result has a group
    and a count for exactly the expected keys and the keys of the items; the group of a key
    is the items with that key, in order, and its count is their number; the total is the
    number of groups. *)
Lemma group_by_partitions `{Ext, JsonDisplay, Minijinja} (st : ValueStore) (config source : json)
  (items : list json) (key : string)
  (resolved : configured_value st "GroupBy" config source = Ok (JArray items))
  (keyed_by : json_get "key" config ≫= as_str = Some key) :
  let pointer := path_to_json_pointer key in
  ∃ result groups counts, apply_group_by st config source = Ok result ∧
    json_get "groups" result = Some groups ∧ json_get "counts" result = Some counts ∧
    json_get "total_groups" result = Some (num_nat (size (list_to_set (group_keys config pointer items) : gset string))) ∧
    ∀ k,
      json_get k groups = (if decide (k ∈ group_keys config pointer items)
                           then Some (JArray (keyed pointer k items)) else None) ∧
      json_get k counts = (if decide (k ∈ group_keys config pointer items)
                           then Some (num_nat (length (keyed pointer k items))) else None).
Proof.
  intros pointer. unfold apply_group_by. rewrite resolved. cbn [mbind result_bind]. rewrite keyed_by.
  change (default [] (as_array (JArray items))) with items. fold pointer.
  set (expected := omap as_str _).
  match goal with |- context [group_items ?p ?i ?g ?c] =>
    destruct (group_items p i g c) as [groups counts] eqn:Hg end.
  pose proof (group_items_spec _ _ _ _ _ _ Hg) as Hs.
  assert (Hnone : ∀ k, k ∉ item_key pointer <$> items → keyed pointer k items = []).
  { intros k Hk. apply elem_of_nil_inv. intros x [<- Hx]%list_elem_of_filter. apply Hk, list_elem_of_fmap. eauto. }
  assert (Hgroups : ∀ k, groups !! k = if decide (k ∈ group_keys config pointer items)
                                       then Some (keyed pointer k items) else None).
  { intros k. rewrite (proj1 (Hs k)), !expected_lookup. unfold group_keys. fold expected.
    destruct (decide (k ∈ item_key _ <$> _)) as [Hin|Hn], (decide (k ∈ expected)) as [He|He];
      first [rewrite decide_True by (apply elem_of_app; auto)|rewrite decide_False by (rewrite elem_of_app; tauto)];
      try done. by rewrite Hnone. }
  assert (Hcounts : ∀ k, counts !! k = if decide (k ∈ group_keys config pointer items)
                                       then Some (Z.of_nat (length (keyed pointer k items))) else None).
  { intros k. rewrite (proj2 (Hs k)), !expected_lookup. unfold group_keys. fold expected.
    destruct (decide (k ∈ item_key _ <$> _)) as [Hin|Hn], (decide (k ∈ expected)) as [He|He];
      first [rewrite decide_True by (apply elem_of_app; auto)|rewrite decide_False by (rewrite elem_of_app; tauto)];
      try done. by rewrite Hnone. }
  eexists _, (map_object JArray groups), (map_object num counts).
  split; [reflexivity|]. split; [reflexivity|]. split; [reflexivity|]. split.
  - simpl. do 2 f_equal. rewrite <-size_dom. f_equal. apply set_eq. intros k.
    rewrite elem_of_dom, Hgroups, elem_of_list_to_set. destruct (decide _); [by split|].
    split; [by intros []|done].
  - intros k. rewrite !map_object_get, Hgroups, Hcounts. by destruct (decide _).
Qed.

(** ** Concrete loops *)

#[local] Existing Instances codec length_hash plain_display text_engine.

Definition immediate (v : json) : json := json_object [("valueType", JString "immediate"); ("value", v)].

(** A Split over two items that goes on after failures. *)
Definition tolerant_split : DirectJsonSplit :=
  {| split_step_id := "orders"; split_name := None;
     split_value := json_object [("value", immediate (JArray [JString "a"; JString "b"]));
                                 ("dontStopOnFailed", JBool true)];
     split_input_schema := JNull; split_output_schema := JNull |}.

Lemma split_keeps_outcomes_witness :
  ∃ result, (record_outcomes tolerant_split (initial_results tolerant_split) 0 [inr "boom"; inl (JString "ok")]
             ≫= split_result fresh_arena tolerant_split JNull) = Ok result ∧
    json_get "outputs" result = Some (JArray [JString "ok"]).
Proof.
  destruct (split_keeps_outcomes fresh_arena tolerant_split JNull [JString "a"; JString "b"]
    [inr "boom"; inl (JString "ok")]) as (result & data & stats & Hr & Ho & _);
    [vm_compute; reflexivity|vm_compute; reflexivity|].
  by exists result.
Defined.

Definition any_while : DirectJsonWhile :=
  {| while_step_id := "poll"; while_name := None; while_value := JNull; while_condition_raw := JNull |}.

Lemma while_counts_iterations_witness :
  run_iterations any_while initial_while_state [JString "a"; JString "b"] =
    Ok {| ws_index := 2; ws_outputs := JString "b" |} ∧
  ∃ e, advance_while_state any_while {| ws_index := 2 ^ 32 - 1; ws_outputs := JNull |} JNull = Err e.
Proof.
  split.
  - apply (proj1 (while_counts_iterations any_while [JString "a"; JString "b"] initial_while_state)).
    simpl. lia.
  - apply (proj2 (while_counts_iterations any_while [] {| ws_index := 2 ^ 32 - 1; ws_outputs := JNull |})).
    reflexivity.
Defined.

Definition by_kind : json :=
  json_object [("value", immediate (JArray [json_object [("kind", JString "x")]; JString "none"]));
               ("key", JString "kind"); ("expectedKeys", JArray [JString "y"])].

Lemma group_by_partitions_witness :
  ∃ result groups, apply_group_by fresh_arena by_kind JNull = Ok result ∧
    json_get "groups" result = Some groups ∧
    json_get "x" groups = Some (JArray [json_object [("kind", JString "x")]]) ∧
    json_get "y" groups = Some (JArray []) ∧ json_get "z" groups = None.
Proof.
  destruct (group_by_partitions fresh_arena by_kind JNull [json_object [("kind", JString "x")]; JString "none"]
    "kind") as (result & groups & counts & Hr & Hg & _ & _ & Hk);
    [vm_compute; reflexivity|vm_compute; reflexivity|].
  exists result, groups. split; [done|]. split; [done|].
  rewrite !(proj1 (Hk _)). split_and!; vm_compute; reflexivity.
Defined.
