(* ===== verification/GuestManifestProperties.v ===== *)
(** * runtara-workflow-stdlib: caches and nested references

    The caches of compiled conditions and mappings never change an answer; the rewriting of
    the references nested in agent inputs ends and leaves none behind, unless data refers
    to itself. *)

From S2P Require Import Prelude.
From S2P Require Import Json.
From S2P Require Import Text.
From S2P Require Import InstanceHandlers.
From S2P Require Import GuestStore.
From S2P Require Import GuestPaths.
From S2P Require Import GuestExpr.
From S2P Require Import GuestCompiled.
From S2P Require Import GuestSteps.
From S2P Require Import GuestScenarios.
From S2P Require Import GuestManifest.
From S2P Require Import GuestStepProperties.
From S2P Require Import GuestKeyProperties.
From S2P Require Import Dependencies.
From S2P Require Import DependencyProperties.

(** ** Caches *)

Section caches.
Context `{Ext, SerdeText, JsonDisplay, Minijinja} (st : ValueStore) (M : DirectJsonManifest).

(** The condition a key of the cache stands for. *)
Inductive cached_condition : string → json → Prop :=
| cached_c id c : u32 id → conditions M !! id = Some c →
    cached_condition ("c" +:+ show_Z id) (condition_value c)
| cached_w id w : u32 id → whiles M !! id = Some w →
    cached_condition ("w" +:+ show_Z id) (while_condition_raw w)
| cached_f id f raw : u32 id → filters M !! id = Some f → json_get "condition" (config_value f) = Some raw →
    cached_condition ("f" +:+ show_Z id) raw.

(** Every entry of the caches is the compiled form of what it stands for. *)
Definition caches_ok (K : Caches) : Prop :=
  (∀ key c, compiled_conditions K !! key = Some c → ∃ raw, cached_condition key raw ∧ c = compile_condition raw) ∧
  (∀ id m, compiled_mappings K !! id = Some m →
     ∃ mapping, mappings M !! id = Some mapping ∧ m = compile_input_mapping (mapping_value mapping)).

Lemma cached_unique key raw raw' : cached_condition key raw → cached_condition key raw' → raw = raw'.
Proof.
  intros Hr Hr'. destruct Hr as [id c Hu Hid|id w Hu Hid|id f raw Hu Hid Hraw];
    inversion Hr' as [id' c' Hu' Hid' Heq|id' w' Hu' Hid' Heq|id' f' raw1 Hu' Hid' Hraw' Heq]; subst;
    (assert (id' = id) as -> by (apply show_Z_inj; done)); congruence.
Qed.

Lemma no_caches_ok : caches_ok no_caches.
Proof. split; intros ? ?; simpl; by rewrite lookup_empty. Qed.

Lemma condition_from_cache key raw K :
  cached_condition key raw → caches_ok K →
  (compiled_condition key raw K).1 = compile_condition raw ∧ caches_ok (compiled_condition key raw K).2.
Proof.
  intros Hk [Hc Hm]. unfold compiled_condition.
  destruct (compiled_conditions K !! key) as [c|] eqn:Hl.
  - destruct (Hc _ _ Hl) as (raw' & Hraw' & ->). split; [|done]. simpl. f_equal. by eapply cached_unique.
  - split; [done|]. split; [|done]. simpl. intros key' c'. destruct (decide (key' = key)) as [->|Hne].
    + rewrite lookup_insert_eq. intros [= <-]. eauto.
    + rewrite lookup_insert_ne by done. apply Hc.
Qed.

Lemma mapping_from_cache id mapping K :
  mappings M !! id = Some mapping → caches_ok K →
  (compiled_mapping id (mapping_value mapping) K).1 = compile_input_mapping (mapping_value mapping) ∧
  caches_ok (compiled_mapping id (mapping_value mapping) K).2.
Proof.
  intros Hid [Hc Hm]. unfold compiled_mapping.
  destruct (compiled_mappings K !! id) as [c|] eqn:Hl.
  - destruct (Hm _ _ Hl) as (mapping' & Hm' & ->). split; [|done]. simpl. congruence.
  - split; [done|]. split; [done|]. simpl. intros id' c'. destruct (decide (id' = id)) as [->|Hne].
    + rewrite lookup_insert_eq. intros [= <-]. eauto.
    + rewrite lookup_insert_ne by done. apply Hm.
Qed.

(** A call of a method that uses a cache, and its answer. *)
Inductive call :=
| CallMapping (fuel : nat) (id : Z) (source : bytes)
| CallCondition (id : Z) (source : bytes)
| CallWhile (id : Z) (source : bytes)
| CallFilter (id : Z) (source : bytes).

Inductive answer :=
| Mapped (r : option (result string bytes))
| Decided (r : result string bool)
| Filtered (r : result string bytes).

Definition call_id (c : call) : Z :=
  match c with CallMapping _ id _ | CallCondition id _ | CallWhile id _ | CallFilter id _ => id end.

Definition run_call (c : call) (K : Caches) : answer * Caches :=
  match c with
  | CallMapping fuel id source => let '(r, K) := apply_mapping st M fuel id source K in (Mapped r, K)
  | CallCondition id source => let '(r, K) := eval_condition st M id source K in (Decided r, K)
  | CallWhile id source => let '(r, K) := while_condition st M id source K in (Decided r, K)
  | CallFilter id source => let '(r, K) := filter_step st M id source K in (Filtered r, K)
  end.

Fixpoint run_calls (calls : list call) (K : Caches) : list answer :=
  match calls with
  | [] => []
  | c :: calls => let '(a, K) := run_call c K in a :: run_calls calls K
  end.

Lemma call_step c K :
  u32 (call_id c) → caches_ok K →
  (run_call c K).1 = (run_call c no_caches).1 ∧ caches_ok (run_call c K).2.
Proof.
  intros Hu HK. destruct c as [fuel id source|id source|id source|id source]; simpl in Hu |- *.
  - unfold apply_mapping. destruct (from_slice _ source) as [v|]; [|done]. unfold get_entry.
    destruct (mappings M !! id) as [mapping|] eqn:Hid; [|done].
    destruct (mapping_from_cache id mapping K Hid HK) as [H1' H2'].
    destruct (mapping_from_cache id mapping _ Hid no_caches_ok) as [G1 _].
    destruct (compiled_mapping id _ K), (compiled_mapping id _ no_caches). simpl in *. by subst.
  - unfold eval_condition, with_caches. destruct (from_slice _ source) as [v|]; [|done]. unfold get_entry.
    destruct (conditions M !! id) as [c|] eqn:Hid; [|done].
    pose proof (cached_c id c Hu Hid) as Hc.
    destruct (condition_from_cache _ _ K Hc HK) as [H1' H2'].
    destruct (condition_from_cache _ _ _ Hc no_caches_ok) as [G1 _].
    destruct (compiled_condition _ _ K), (compiled_condition _ _ no_caches). simpl in *. by subst.
  - unfold while_condition, with_caches. destruct (from_slice _ source) as [v|]; [|done]. unfold get_entry.
    destruct (whiles M !! id) as [w|] eqn:Hid; [|done].
    pose proof (cached_w id w Hu Hid) as Hc.
    destruct (condition_from_cache _ _ K Hc HK) as [H1' H2'].
    destruct (condition_from_cache _ _ _ Hc no_caches_ok) as [G1 _].
    destruct (compiled_condition _ _ K), (compiled_condition _ _ no_caches). simpl in *. by subst.
  - unfold filter_step, with_caches. destruct (from_slice _ source) as [v|]; [|done]. unfold get_entry.
    destruct (filters M !! id) as [f|] eqn:Hid; [|done].
    destruct (configured_value st "Filter" (config_value f) v) as [input|]; [|done].
    destruct (json_get "condition" (config_value f)) as [raw|] eqn:Hraw; [|done].
    pose proof (cached_f id f raw Hu Hid Hraw) as Hc.
    destruct (condition_from_cache _ _ K Hc HK) as [H1' H2'].
    destruct (condition_from_cache _ _ _ Hc no_caches_ok) as [G1 _].
    destruct (compiled_condition _ _ K), (compiled_condition _ _ no_caches). simpl in *. by subst.
Qed.

(** C31: Compiling once changes nothing.  Whatever the calls of a run that evaluate mappings
    and conditions, in any order and over any sources, each is answered as if it were
    compiled afresh, so the caches of compiled conditions and mappings never mix up two of
    them. *)
Theorem caches_transparent (calls : list call) (ids : Forall (λ c, u32 (call_id c)) calls) :
  run_calls calls no_caches = (λ c, (run_call c no_caches).1) <$> calls.
Proof.
  enough (∀ K, caches_ok K → run_calls calls K = (λ c, (run_call c no_caches).1) <$> calls) as Hall
    by apply Hall, no_caches_ok.
  induction ids as [|c calls Hu _ IH]; intros K HK; [done|]. simpl.
  destruct (call_step c K Hu HK) as [Ha HK']. destruct (run_call c K) as [a K']. simpl in *.
  by rewrite IH, Ha.
Qed.
End caches.

(** ** Nested references *)

(** The references in a value, at every depth. *)
Fixpoint references (v : json) : list (list (string * json)) :=
  match v with
  | JObject m => (if is_reference_envelope m then [m] else []) ++ concat (List.map (λ kv, references kv.2) m)
  | JArray l => concat (List.map references l)
  | _ => []
  end.

Lemma references_member k v m r : (k, v) ∈ m → r ∈ references v → r ∈ references (JObject m).
Proof.
  intros Hin Hr. simpl. apply elem_of_app. right. apply list_elem_of_In, in_concat.
  exists (references v). split; [|by apply list_elem_of_In].
  apply in_map_iff. exists (k, v). split; [done|by apply list_elem_of_In].
Qed.

Lemma references_item v l r : v ∈ l → r ∈ references v → r ∈ references (JArray l).
Proof.
  intros Hin Hr. simpl. apply list_elem_of_In, in_concat. exists (references v).
  split; [apply in_map|]; by apply list_elem_of_In.
Qed.

Lemma argument_nested m args :
  assoc_get "arguments" m ≫= as_array = Some args → ("arguments", JArray args) ∈ m.
Proof. destruct (assoc_get "arguments" m) as [[]|] eqn:Ha; try done. intros [= ->]. by apply assoc_get_in. Qed.

Lemma assoc_get_update_eq k v m : assoc_get k (assoc_update k v m) = (λ _, v) <$> assoc_get k m.
Proof. induction m as [|[k' x] m IH]; [done|]. simpl. by repeat case_decide. Qed.

Lemma assoc_get_update_ne k k' v m : k ≠ k' → assoc_get k (assoc_update k' v m) = assoc_get k m.
Proof. intros Hk. induction m as [|[k1 x] m IH]; [done|]. simpl. repeat case_decide; congruence. Qed.

Lemma assoc_update_twice k v m : assoc_update k v (assoc_update k v m) = assoc_update k v m.
Proof.
  unfold assoc_update. rewrite List.map_map. apply List.map_ext. intros [k' x]. simpl. by case_decide.
Qed.

Lemma map_returns {A B C} (f : A → option B) (g : list B → C) l :
  (∀ x, x ∈ l → is_Some (f x)) → is_Some (ys ← mapM f l; Some (g ys)).
Proof.
  intros Hl. assert (is_Some (mapM f l)) as [ys ->]; [|by eexists].
  apply mapM_is_Some, Forall_forall, Hl.
Qed.

Lemma imap_pair_member {A} i (x : A) l : (i, x) ∈ imap pair l → x ∈ l.
Proof.
  intros (j & Hj)%list_elem_of_lookup. rewrite list_lookup_imap in Hj.
  apply fmap_Some in Hj as (y & Hy & [= -> ->]). by eapply list_elem_of_lookup_2.
Qed.

Lemma map_idem {A} (f : A → option A) l l' :
  (∀ x y, f x = Some y → f y = Some y) → mapM f l = Some l' → mapM f l' = Some l'.
Proof.
  intros Hf Hl%mapM_Some. apply mapM_Some. induction Hl; constructor; eauto.
Qed.

Lemma imap_idem {A} (f : nat → A → option A) l l' :
  (∀ i x y, f i x = Some y → f i y = Some y) →
  mapM (λ '(i, x), f i x) (imap pair l) = Some l' → mapM (λ '(i, x), f i x) (imap pair l') = Some l'.
Proof.
  intros Hf Hl%mapM_Some. apply mapM_Some. apply Forall2_same_length_lookup_2.
  { apply length_imap. }
  intros i [j x] y Hj Hy. rewrite list_lookup_imap, Hy in Hj. injection Hj as <- <-.
  destruct (Forall2_lookup_r _ _ _ _ _ Hl Hy) as ([j x] & Hx & Hfx).
  rewrite list_lookup_imap in Hx. apply fmap_Some in Hx as (? & _ & [= -> ->]). eauto.
Qed.

(** ** What a resolved value is

    The rewriting as a relation: which references are replaced, by what, and which are
    kept because they name columns. *)

(** The object is a reference to the path [p]. *)
Definition refers_to (m : list (string * json)) (p : string) : Prop :=
  assoc_get "valueType" m = Some (JString "reference") ∧ assoc_get "value" m = Some (JString p).

(** The path starts at a root of the workflow's scope. *)
Definition qualified (p : string) : Prop :=
  ∃ root, root ∈ ["data"; "variables"; "workflow"; "steps"; "loop"; "item"; "iteration"] ∧
    (p = root ∨ ∃ rest, p = root +:+ "." +:+ rest).

(** A reference whose path does not start at a root: a column, in the arguments of a call. *)
Definition column_reference (v : json) : Prop :=
  ∃ m p, v = JObject m ∧ refers_to m p ∧ ¬ qualified p.

(** The operators whose first argument is a column, in any case. *)
Definition column_operator (op : string) : Prop :=
  to_ascii_uppercase op ∈
    ["EQ"; "NE"; "GT"; "GTE"; "LT"; "LTE"; "STARTS_WITH"; "ENDS_WITH"; "CONTAINS"; "IN"; "NOT_IN";
     "IS_DEFINED"; "IS_EMPTY"; "IS_NOT_EMPTY"; "SIMILARITY_GTE"; "MATCH"; "COSINE_DISTANCE_LTE";
     "L2_DISTANCE_LTE"].

(** A call of a function or an application of an operator, with its arguments. *)
Definition calls (m : list (string * json)) (args : list json) : Prop :=
  (∃ f, assoc_get "fn" m = Some (JString f)) ∧ assoc_get "arguments" m = Some (JArray args).

Definition operates (m : list (string * json)) (op : string) (args : list json) : Prop :=
  ¬ (∃ f, assoc_get "fn" m = Some (JString f)) ∧ assoc_get "op" m = Some (JString op) ∧
  assoc_get "arguments" m = Some (JArray args).

(** [m'] is [m] with the value [v] under the key [k]. *)
Definition replaced (k : string) (v : json) (m m' : list (string * json)) : Prop :=
  m'.*1 = m.*1 ∧ ∀ k', assoc_get k' m' = if decide (k' = k) then Some v else assoc_get k' m.

Section settled.
Context `{Ext, JsonDisplay} (st : ValueStore) (source : json).

(** What a reference stands for: what is found, and null where the lookup fails. *)
Definition stands_for (m : list (string * json)) (w : json) : Prop :=
  apply_reference st m source = Ok w ∨ w = JNull ∧ ∃ e, apply_reference st m source = Err e.

(** [settled v w]: [w] is [v] with every reference replaced by the settled value it stands
    for, in an immediate envelope; but a reference without a root in the arguments of a call,
    and a reference as the first argument of a column operator, are kept, and so is all that
    is beside the value of an immediate envelope or beside the arguments of a call or an
    operator. *)
Inductive settled : json → json → Prop :=
| settled_reference m p w w' :
    refers_to m p → stands_for m w → settled w w' →
    settled (JObject m) (JObject [("value", w'); ("valueType", JString "immediate")])
| settled_immediate m m' v v' :
    assoc_get "valueType" m = Some (JString "immediate") → assoc_get "value" m = Some v →
    settled v v' → replaced "value" v' m m' → settled (JObject m) (JObject m')
| settled_empty m :
    assoc_get "valueType" m = Some (JString "immediate") → assoc_get "value" m = None →
    settled (JObject m) (JObject m)
| settled_call m m' args args' :
    (∀ p, ¬ refers_to m p) → assoc_get "valueType" m ≠ Some (JString "immediate") → calls m args →
    length args' = length args →
    (∀ i x y, args !! i = Some x → args' !! i = Some y → column_reference x → y = x) →
    (∀ i x y, args !! i = Some x → args' !! i = Some y → ¬ column_reference x → settled x y) →
    replaced "arguments" (JArray args') m m' → settled (JObject m) (JObject m')
| settled_operation m m' op args args' :
    (∀ p, ¬ refers_to m p) → assoc_get "valueType" m ≠ Some (JString "immediate") →
    operates m op args → length args' = length args →
    (∀ x y r p, column_operator op → args !! 0%nat = Some x → args' !! 0%nat = Some y →
       x = JObject r → refers_to r p → y = x) →
    (∀ i x y, args !! i = Some x → args' !! i = Some y →
       ¬ (i = 0%nat ∧ column_operator op ∧ ∃ r p, x = JObject r ∧ refers_to r p) → settled x y) →
    replaced "arguments" (JArray args') m m' → settled (JObject m) (JObject m')
| settled_object m m' :
    (∀ p, ¬ refers_to m p) → assoc_get "valueType" m ≠ Some (JString "immediate") →
    (∀ args, ¬ calls m args) → (∀ op args, ¬ operates m op args) →
    m'.*1 = m.*1 → (∀ i x y, m.*2 !! i = Some x → m'.*2 !! i = Some y → settled x y) →
    settled (JObject m) (JObject m')
| settled_array l l' :
    length l' = length l → (∀ i x y, l !! i = Some x → l' !! i = Some y → settled x y) →
    settled (JArray l) (JArray l')
| settled_scalar v : (∀ m, v ≠ JObject m) → (∀ l, v ≠ JArray l) → settled v v.

Local Abbreviation resolve := (resolve_nested_references st source).

Lemma reference_exact m : is_reference_envelope m = true ↔ ∃ p, refers_to m p.
Proof.
  unfold is_reference_envelope, has_value_type, refers_to. rewrite andb_true_iff, !bool_decide_eq_true.
  destruct (assoc_get "valueType" m) as [[]|]; simpl; try naive_solver.
  destruct (assoc_get "value" m) as [[]|]; simpl; unfold is_Some; naive_solver.
Qed.

Lemma immediate_exact m :
  has_value_type "immediate" m = true ↔ assoc_get "valueType" m = Some (JString "immediate").
Proof.
  unfold has_value_type. rewrite bool_decide_eq_true.
  destruct (assoc_get "valueType" m) as [[]|]; simpl; naive_solver.
Qed.

Lemma text_exact k m s : assoc_get k m ≫= as_str = Some s ↔ assoc_get k m = Some (JString s).
Proof. destruct (assoc_get k m) as [[]|]; simpl; naive_solver. Qed.

Lemma array_exact k m l : assoc_get k m ≫= as_array = Some l ↔ assoc_get k m = Some (JArray l).
Proof. destruct (assoc_get k m) as [[]|]; simpl; naive_solver. Qed.

Lemma split_char_head c s :
  ∃ h t, split_char c s = h :: t ∧ lacks c h = true ∧ (s = h ∨ ∃ rest, s = h +:+ String c rest).
Proof.
  induction s as [|d s (h & t & Hs & Hl & Hh)]; simpl; [by exists "", []; repeat split; left|].
  destruct (Ascii.eqb_spec d c) as [->|Hne].
  - exists "", (split_char c s). split; [done|]. split; [done|]. right. by exists s.
  - rewrite Hs. exists (String d h), t. split; [done|]. split.
    + simpl. rewrite Hl. by destruct (Ascii.eqb_spec d c).
    + destruct Hh as [->|[rest ->]]; [by left|]. right. by exists rest.
Qed.

Lemma app_lacks_inj c a b x y :
  lacks c a = true → lacks c b = true → a +:+ String c x = b +:+ String c y → a = b.
Proof.
  revert b. induction a as [|d a IH]; intros [|e b]; simpl; try done.
  - intros _ Hb [= <- _]. simpl in Hb. by rewrite Ascii.eqb_refl in Hb.
  - intros Ha _ [= -> _]. simpl in Ha. by rewrite Ascii.eqb_refl in Ha.
  - intros [_ Ha]%andb_prop [_ Hb]%andb_prop [= -> Heq]. f_equal. by apply IH.
Qed.

Lemma qualified_exact p : is_qualified_workflow_path p = true ↔ qualified p.
Proof.
  unfold is_qualified_workflow_path, qualified. rewrite bool_decide_eq_true.
  destruct (split_char_head "."%char p) as (h & t & -> & Hl & Hp). simpl head. split.
  - intros (root & [= ->] & Hin)%list_elem_of_fmap. exists root. split; [done|].
    destruct Hp as [->|[rest ->]]; [by left|right]. by exists rest.
  - intros (root & Hin & Hroot). apply list_elem_of_fmap. exists root. split; [|done].
    symmetry. cbn [head]. f_equal.
    assert (Hlr : lacks "."%char root = true).
    { repeat (apply elem_of_cons in Hin as [->|Hin]; [reflexivity|]). by apply not_elem_of_nil in Hin. }
    destruct Hroot as [->|[rest ->]], Hp as [<-|[rest' Heq]]; try done.
    + subst root. rewrite lacks_app in Hlr. cbn [lacks] in Hlr. by rewrite andb_false_r in Hlr.
    + rewrite lacks_app in Hl. change ("." +:+ rest) with (String "."%char rest) in Hl.
      cbn [lacks] in Hl. by rewrite andb_false_r in Hl.
    + symmetry. change ("." +:+ rest) with (String "."%char rest) in Heq. by eapply app_lacks_inj.
Qed.

Lemma column_exact v :
  default false (is_unqualified_reference_envelope <$> as_object v) = true ↔ column_reference v.
Proof.
  unfold column_reference. destruct v as [| | | | |m]; simpl; try (split; [done|by intros (? & ? & [=] & _)]).
  unfold is_unqualified_reference_envelope.
  destruct (assoc_get "value" m ≫= as_str) as [p|] eqn:Hp.
  - rewrite andb_true_iff, reference_exact, negb_true_iff, <-not_true_iff_false, qualified_exact.
    apply text_exact in Hp. split.
    + intros [[p' Hr] Hq]. exists m, p'. split; [done|]. split; [done|]. destruct Hr as [_ Hv]. congruence.
    + intros (m' & p' & [= <-] & Hr & Hq). split; [by exists p'|]. destruct Hr as [_ Hv]. congruence.
  - split; [done|]. intros (m' & p & [= <-] & [_ Hv] & _). by rewrite Hv in Hp.
Qed.

Lemma first_argument_exact v :
  default false (is_reference_envelope <$> as_object v) = true ↔ ∃ r p, v = JObject r ∧ refers_to r p.
Proof.
  destruct v as [| | | | |m]; simpl; try (split; [done|by intros (? & ? & [=] & _)]).
  rewrite reference_exact. naive_solver.
Qed.

Lemma update_replaced k v m x : assoc_get k m = Some x → replaced k v m (assoc_update k v m).
Proof.
  intros Hk. split.
  - unfold assoc_update. induction m as [|[k' y] m IH]; [done|]. csimpl. f_equal. clear.
    induction m as [|[k' y] m IH]; [done|]. csimpl. by f_equal.
  - intros k'. case_decide as Hd; [subst k'; by rewrite assoc_get_update_eq, Hk|].
    by apply assoc_get_update_ne.
Qed.

Section one_round.
Context (fuel : nat) (IH : ∀ v w, resolve fuel v = Some w → settled v w).

Lemma settled_arguments m args args' :
  (∀ p, ¬ refers_to m p) → assoc_get "valueType" m ≠ Some (JString "immediate") → calls m args →
  mapM (λ arg, if default false (is_unqualified_reference_envelope <$> as_object arg)
               then Some arg else resolve fuel arg) args = Some args' →
  settled (JObject m) (JObject (assoc_update "arguments" (JArray args') m)).
Proof.
  intros Hr Hi Hc Hl%mapM_Some_1. eapply settled_call; [done..| | | |].
  - symmetry. by eapply Forall2_length.
  - intros i x y Hx Hy Hcol%column_exact. pose proof (Forall2_lookup_lr _ _ _ _ _ _ Hl Hx Hy) as Hxy.
    simpl in Hxy. rewrite Hcol in Hxy. by injection Hxy.
  - intros i x y Hx Hy Hcol. pose proof (Forall2_lookup_lr _ _ _ _ _ _ Hl Hx Hy) as Hxy.
    simpl in Hxy. rewrite <-column_exact, not_true_iff_false in Hcol. rewrite Hcol in Hxy. by apply IH.
  - eapply update_replaced, Hc.
Qed.

Lemma settled_operands m op args args' :
  (∀ p, ¬ refers_to m p) → assoc_get "valueType" m ≠ Some (JString "immediate") → operates m op args →
  mapM (λ '(index, arg), if bool_decide (index = 0%nat) && is_field_argument_operator op
                            && default false (is_reference_envelope <$> as_object arg)
                         then Some arg else resolve fuel arg) (imap pair args) = Some args' →
  settled (JObject m) (JObject (assoc_update "arguments" (JArray args') m)).
Proof.
  intros Hr Hi Ho Hl%mapM_Some_1.
  assert (Hat : ∀ i x y, args !! i = Some x → args' !! i = Some y →
    (if bool_decide (i = 0%nat) && is_field_argument_operator op
        && default false (is_reference_envelope <$> as_object x)
     then Some x else resolve fuel x) = Some y).
  { intros i x y Hx Hy. apply (Forall2_lookup_lr _ _ _ i (i, x) y Hl); [|done].
    by rewrite list_lookup_imap, Hx. }
  eapply settled_operation; [done..| | | |].
  - apply Forall2_length in Hl. by rewrite length_imap in Hl.
  - intros x y r p Hop Hx Hy -> Href. specialize (Hat _ _ _ Hx Hy). simpl in Hat.
    unfold is_field_argument_operator in Hat. rewrite (bool_decide_true _ Hop) in Hat. simpl in Hat.
    rewrite (proj2 (reference_exact r)) in Hat by eauto. simpl in Hat. by injection Hat.
  - intros i x y Hx Hy Hno. specialize (Hat _ _ _ Hx Hy). apply IH. revert Hat.
    case_match eqn:Hc; [|done]. exfalso. apply Hno.
    apply andb_prop in Hc as [[Hz%bool_decide_eq_true Hop%bool_decide_eq_true]%andb_prop
                              Href%first_argument_exact]. done.
  - eapply update_replaced, Ho.
Qed.

Lemma settled_members m m' :
  (∀ p, ¬ refers_to m p) → assoc_get "valueType" m ≠ Some (JString "immediate") →
  (∀ args, ¬ calls m args) → (∀ op args, ¬ operates m op args) →
  mapM (λ kv, pair kv.1 <$> resolve fuel kv.2) m = Some m' → settled (JObject m) (JObject m').
Proof.
  intros Hr Hi Hc Ho Hl%mapM_Some_1. apply settled_object; [done..| |].
  - clear -Hl. induction Hl as [|x y l l' (z & _ & ->)%fmap_Some _ IHl]; [done|]. csimpl. by f_equal.
  - intros i x y ([k x'] & -> & Hx)%list_lookup_fmap_Some ([k' y'] & -> & Hy)%list_lookup_fmap_Some.
    pose proof (Forall2_lookup_lr _ _ _ _ _ _ Hl Hx Hy) as (z & Hz & [= -> ->])%fmap_Some.
    simpl in *. by apply IH.
Qed.
End one_round.

(** The recursion rewrites as the relation says. *)
Lemma resolve_settled fuel v w : resolve fuel v = Some w → settled v w.
Proof.
  revert v w. induction fuel as [|fuel IH]; intros v w; [done|].
  destruct v as [| | | |items|m]; try (by intros [= <-]; apply settled_scalar).
  { simpl. intros (l & Hl%mapM_Some_1 & ->)%fmap_Some. apply settled_array.
    - symmetry. by eapply Forall2_length.
    - intros i x y Hx Hy. apply IH. by apply (Forall2_lookup_lr _ _ _ _ _ _ Hl Hx Hy). }
  cbn [resolve_nested_references]. destruct (is_reference_envelope m) eqn:Hr.
  { intros (inner & Hin & [= <-])%bind_Some. apply reference_exact in Hr as [p Hp].
    eapply settled_reference; [exact Hp| |by apply IH, Hin].
    unfold stands_for. destruct (apply_reference st m source); [by left|right]. eauto. }
  assert (Hnr : ∀ p, ¬ refers_to m p) by (intros p Hp; apply not_true_iff_false in Hr; apply Hr, reference_exact; eauto).
  destruct (has_value_type "immediate" m) eqn:Hi.
  { apply immediate_exact in Hi. destruct (assoc_get "value" m) as [v|] eqn:Hv.
    - intros (v' & Hv' & [= <-])%bind_Some. eapply settled_immediate; [done|done|by apply IH|].
      by eapply update_replaced.
    - intros [= <-]. by apply settled_empty. }
  assert (Hni : assoc_get "valueType" m ≠ Some (JString "immediate"))
    by (rewrite <-immediate_exact; congruence).
  destruct (assoc_get "arguments" m ≫= as_array) as [args|] eqn:Hargs.
  - apply array_exact in Hargs. destruct (assoc_get "fn" m ≫= as_str) as [f|] eqn:Hf.
    { apply text_exact in Hf. intros (args' & Hl & [= <-])%bind_Some.
      apply (settled_arguments fuel IH m args args'); [done..| |done]. split; [by exists f|done]. }
    assert (Hnf : ¬ (∃ f, assoc_get "fn" m = Some (JString f)))
      by (intros [f Hf']; by rewrite Hf' in Hf).
    destruct (assoc_get "op" m ≫= as_str) as [op|] eqn:Hop.
    { apply text_exact in Hop. intros (args' & Hl & [= <-])%bind_Some.
      by apply (settled_operands fuel IH m op args args'). }
    intros (m' & Hl & [= <-])%bind_Some. apply (settled_members fuel IH); [done..| | |done].
    + by intros args' [Hf' _].
    + intros op args' (_ & Hop' & _). by rewrite Hop' in Hop.
  - assert (Hna : ∀ args, assoc_get "arguments" m ≠ Some (JArray args))
      by (intros args Ha; by rewrite Ha in Hargs).
    intros Hw. assert (Hl : ∃ m', mapM (λ kv, pair kv.1 <$> resolve fuel kv.2) m = Some m' ∧ w = JObject m').
    { by repeat case_match; apply bind_Some in Hw as (m' & Hl & [= <-]); exists m'. }
    destruct Hl as (m' & Hl & ->). apply (settled_members fuel IH); [done..| | |done].
    + intros args [_ Ha]. by eapply Hna.
    + intros op args (_ & _ & Ha). by eapply Hna.
Qed.
End settled.

Section nested.
Context `{Ext, JsonDisplay} (st : ValueStore) (source : json).
Local Abbreviation resolve := (resolve_nested_references st source).

(** Every reference of the value resolves, if it does, to a value without references of
    depth at most [d]. *)
Definition resolves_flat (d : nat) (v : json) : Prop := ∀ m, m ∈ references v →
  ∀ w, apply_reference st m source = Ok w → references w = [] ∧ (json_depth w ≤ d)%nat.

(** The fuel such a value needs. *)
Definition weight (d : nat) (v : json) : nat :=
  json_depth v + (if decide (references v = []) then 0 else d).

(** A part of a value needs less. *)
Lemma part_less d v w :
  (json_depth v < json_depth w)%nat → (∀ r, r ∈ references v → r ∈ references w) →
  (weight d v < weight d w)%nat ∧ (resolves_flat d w → resolves_flat d v).
Proof.
  intros Hd Hr. split; [|intros Hw m Hm; eauto]. unfold weight.
  destruct (decide (references w = [])) as [Hw|], (decide (references v = [])) as [|Hv]; try lia.
  destruct (references v) as [|r rs]; [done|]. specialize (Hr r ltac:(left)). rewrite Hw in Hr. by apply not_elem_of_nil in Hr.
Qed.

Lemma member_less d k v m :
  (k, v) ∈ m → (weight d v < weight d (JObject m))%nat ∧ (resolves_flat d (JObject m) → resolves_flat d v).
Proof. intros Hin. apply part_less; [by eapply depth_member|]. intros r. by eapply references_member. Qed.

Lemma item_less d v l :
  v ∈ l → (weight d v < weight d (JArray l))%nat ∧ (resolves_flat d (JArray l) → resolves_flat d v).
Proof.
  intros Hin. apply part_less; [|intros r; by eapply references_item].
  simpl. apply le_n_S, list_max_in, list_elem_of_fmap. eauto.
Qed.

Lemma argument_less d v m args :
  assoc_get "arguments" m ≫= as_array = Some args → v ∈ args →
  (weight d v < weight d (JObject m))%nat ∧ (resolves_flat d (JObject m) → resolves_flat d v).
Proof.
  intros Ha%argument_nested Hv. destruct (member_less d _ _ _ Ha), (item_less d _ _ Hv). split; [lia|auto].
Qed.

Lemma resolve_returns d fuel v :
  resolves_flat d v → (weight d v ≤ fuel)%nat → is_Some (resolve fuel v).
Proof.
  revert v. induction fuel as [|fuel IH]; intros v Hd Hf.
  { destruct v; unfold weight in Hf; simpl in Hf; lia. }
  assert (Hpart : ∀ x, (weight d x < weight d v)%nat ∧ (resolves_flat d v → resolves_flat d x) →
    is_Some (resolve fuel x)) by (intros x []; apply IH; [auto|lia]).
  destruct v as [| | | |items|m]; try by eexists.
  - simpl. apply fmap_is_Some, mapM_is_Some, Forall_forall. intros x Hx. by apply Hpart, item_less.
  - cbn [resolve_nested_references].
    destruct (is_reference_envelope m) eqn:Hr.
    { edestruct IH as [w ->]; [..|by eexists]; destruct (apply_reference st m source) as [w|e] eqn:Ha.
      1,3: destruct (Hd m ltac:(simpl; rewrite Hr; left) w Ha) as [Hfree Hdepth].
      1,3: intros x; rewrite ?Hfree; by intros ?%not_elem_of_nil.
      all: revert Hf; unfold weight; simpl references; rewrite Hr, (decide_False (P := _ ++ _ = [])) by done.
      - rewrite Hfree, decide_True by done. simpl. lia.
      - destruct m as [|[k x] m]; [done|]. pose proof (depth_member k x ((k, x) :: m) ltac:(left)).
        destruct x; simpl in *; lia. }
    destruct (has_value_type "immediate" m).
    { destruct (assoc_get "value" m) as [inner|] eqn:Hi; [|by eexists].
      apply assoc_get_in, (member_less d) in Hi. destruct (Hpart inner) as [w ->]; [done|]. by eexists. }
    destruct (assoc_get "fn" m ≫= as_str), (assoc_get "op" m ≫= as_str),
      (assoc_get "arguments" m ≫= as_array) as [args|] eqn:Hargs; apply map_returns.
    all: first [intros [k x] Hx; apply fmap_is_Some; by eapply Hpart, member_less
               |intros x Hx; case (default false _); [by eexists|]; by eapply Hpart, argument_less
               |intros [i x] Hx%imap_pair_member; case (_ && default false _); [by eexists|];
                by eapply Hpart, argument_less].
Qed.

(** Resolving keeps texts and the kinds of values, and leaves no reference at the top. *)
Lemma resolve_shape fuel v w :
  resolve fuel v = Some w →
  as_str w = as_str v ∧ (is_Some (as_array w) ↔ is_Some (as_array v)).
Proof.
  destruct fuel as [|fuel]; [done|]. destruct v as [| | | |items|m]; try by intros [= <-].
  - simpl. intros (l & _ & ->)%fmap_Some. split; [done|]. split; intros _; by eexists.
  - cbn [resolve_nested_references]. intros Hw.
    assert (∃ m', w = JObject m') as [m' ->]; [|by split].
    repeat case_match; try (apply bind_Some in Hw as (? & _ & Hw)); injection Hw as <-; by eexists.
Qed.

(** The same texts and arrays under every key. *)
Definition alike (m m' : list (string * json)) : Prop := ∀ k,
  assoc_get k m' ≫= as_str = assoc_get k m ≫= as_str ∧
  (is_Some (assoc_get k m' ≫= as_array) ↔ is_Some (assoc_get k m ≫= as_array)).

Lemma alike_kind m m' kind : alike m m' → has_value_type kind m' = has_value_type kind m.
Proof. intros Ha. unfold has_value_type. by rewrite (proj1 (Ha _)). Qed.

Lemma alike_reference m m' : alike m m' → is_reference_envelope m' = is_reference_envelope m.
Proof.
  intros Ha. unfold is_reference_envelope. by rewrite (alike_kind _ _ _ Ha), (proj1 (Ha "value")).
Qed.

Lemma alike_update k v v' m :
  assoc_get k m = Some v → as_str v' = as_str v → (is_Some (as_array v') ↔ is_Some (as_array v)) →
  alike m (assoc_update k v' m).
Proof.
  intros Hk Hs Ha k'. destruct (decide (k' = k)) as [->|Hne].
  - rewrite assoc_get_update_eq, Hk. by simpl.
  - by rewrite assoc_get_update_ne.
Qed.

Lemma alike_values fuel m m' :
  mapM (λ kv, pair kv.1 <$> resolve fuel kv.2) m = Some m' → alike m m'.
Proof.
  intros Hm k. revert m' Hm. induction m as [|[k' v] m IH]; intros m' Hm.
  { injection Hm as <-. done. }
  apply mapM_Some_1 in Hm. inversion Hm as [|? [k1 v1] ? m1 Hv Hrest]; subst.
  apply mapM_Some_2 in Hrest. apply fmap_Some in Hv as (? & Hv & [= -> ->]).
  simpl. case_decide; [|by apply IH]. simpl. by eapply resolve_shape.
Qed.

Lemma alike_arguments args args' m :
  assoc_get "arguments" m ≫= as_array = Some args → alike m (assoc_update "arguments" (JArray args') m).
Proof.
  destruct (assoc_get "arguments" m) as [[]|] eqn:Ha; try done. intros _.
  eapply alike_update; [done..|]. simpl. split; intros _; by eexists.
Qed.

Lemma resolve_alike fuel m w :
  is_reference_envelope m = false → resolve (S fuel) (JObject m) = Some w → ∃ m', w = JObject m' ∧ alike m m'.
Proof.
  intros Hr. cbn [resolve_nested_references]. rewrite Hr. case (has_value_type "immediate" m).
  { destruct (assoc_get "value" m) as [inner|] eqn:Hi; [|intros [= <-]; by eexists].
    intros (inner' & Hin & [= <-])%bind_Some. eexists. split; [done|].
    apply resolve_shape in Hin as [Hs Ha]. by eapply alike_update. }
  destruct (assoc_get "fn" m ≫= as_str), (assoc_get "op" m ≫= as_str),
    (assoc_get "arguments" m ≫= as_array) as [args|] eqn:Hargs;
    intros (l & Hl & [= <-])%bind_Some; eexists; (split; [done|]);
    first [by eapply alike_arguments|by eapply alike_values].
Qed.

Lemma resolve_leaves_none fuel v w :
  resolve fuel v = Some w → default false (is_reference_envelope <$> as_object w) = false.
Proof.
  destruct fuel as [|fuel]; [done|]. destruct v as [| | | |items|m]; try by intros [= <-].
  - simpl. by intros (l & _ & ->)%fmap_Some.
  - destruct (is_reference_envelope m) eqn:Hr.
    + cbn [resolve_nested_references]. rewrite Hr. by intros (inner & _ & [= <-])%bind_Some.
    + intros (m' & -> & Ha)%resolve_alike; [|done]. simpl. by rewrite (alike_reference m).
Qed.

Lemma arguments_updated args args' m :
  assoc_get "arguments" m ≫= as_array = Some args →
  assoc_get "arguments" (assoc_update "arguments" (JArray args') m) ≫= as_array = Some args'.
Proof. rewrite assoc_get_update_eq. by destruct (assoc_get "arguments" m). Qed.

Lemma alike_no_array m m' k :
  alike m m' → assoc_get k m ≫= as_array = None → assoc_get k m' ≫= as_array = None.
Proof. intros Ha Hk. apply eq_None_not_Some. rewrite (proj2 (Ha k)), Hk. by intros [? ?]. Qed.

Lemma map_mono {A B} (f g : A → option B) l ys :
  (∀ x y, f x = Some y → g x = Some y) → mapM f l = Some ys → mapM g l = Some ys.
Proof. intros Hfg Hl%mapM_Some. apply mapM_Some. induction Hl; constructor; eauto. Qed.

(** More fuel does not change the result. *)
Lemma resolve_mono fuel fuel' v w :
  (fuel ≤ fuel')%nat → resolve fuel v = Some w → resolve fuel' v = Some w.
Proof.
  revert fuel' v w. induction fuel as [|fuel IH]; intros fuel' v w Hle Hv; [done|].
  destruct fuel' as [|fuel']; [lia|]. specialize (IH fuel').
  assert (Hmono : ∀ x y, resolve fuel x = Some y → resolve fuel' x = Some y) by (intros; apply IH; [lia|done]).
  destruct v as [| | | |items|m]; try done.
  { simpl in *. apply fmap_Some in Hv as (l & Hl & ->). by rewrite (map_mono _ _ _ _ Hmono Hl). }
  revert Hv. cbn [resolve_nested_references].
  case (is_reference_envelope m).
  { intros (inner & Hi & [= <-])%bind_Some. by rewrite (Hmono _ _ Hi). }
  case (has_value_type "immediate" m).
  { destruct (assoc_get "value" m) as [inner|]; [|done].
    intros (inner' & Hi & [= <-])%bind_Some. by rewrite (Hmono _ _ Hi). }
  destruct (assoc_get "fn" m ≫= as_str), (assoc_get "op" m ≫= as_str),
    (assoc_get "arguments" m ≫= as_array) as [args|];
    intros (l & Hl & [= <-])%bind_Some;
    (erewrite map_mono; [reflexivity| |exact Hl]); simpl.
  all: first [by intros [k x] y (z & Hz & ->)%fmap_Some; rewrite (Hmono _ _ Hz)
             |intros [i x] y; case (_ && default false _); auto
             |intros x y; case (default false _); auto].
Qed.

Lemma resolve_wrapped fuel inner :
  resolve (S fuel) (json_object [("valueType", JString "immediate"); ("value", inner)]) =
  (inner ← resolve fuel inner; Some (json_object [("valueType", JString "immediate"); ("value", inner)])).
Proof. reflexivity. Qed.

Lemma guarded_idem fuel (p : json → bool) x y :
  (∀ x y, resolve fuel x = Some y → resolve fuel y = Some y) →
  (∀ x y, resolve fuel x = Some y → p y = false) →
  (if p x then Some x else resolve fuel x) = Some y → (if p y then Some y else resolve fuel y) = Some y.
Proof.
  intros Hf Hp. destruct (p x) eqn:Hx; [intros [= <-]; by rewrite Hx|].
  intros Hy. rewrite (Hp _ _ Hy). eauto.
Qed.

Lemma unqualified_is_reference v :
  default false (is_reference_envelope <$> as_object v) = false →
  default false (is_unqualified_reference_envelope <$> as_object v) = false.
Proof.
  destruct (as_object v) as [m|]; [|done]. simpl. unfold is_unqualified_reference_envelope.
  intros ->. by case_match.
Qed.

Lemma call_idem fuel :
  (∀ x y, resolve fuel x = Some y → resolve fuel y = Some y) →
  ∀ x y, (if default false (is_unqualified_reference_envelope <$> as_object x)
          then Some x else resolve fuel x) = Some y →
         (if default false (is_unqualified_reference_envelope <$> as_object y)
          then Some y else resolve fuel y) = Some y.
Proof.
  intros IH x y. apply (guarded_idem _ (λ x, default false (is_unqualified_reference_envelope <$> as_object x)) _ _ IH).
  intros ? ? Hn%resolve_leaves_none. by apply unqualified_is_reference.
Qed.

Lemma operand_idem fuel op :
  (∀ x y, resolve fuel x = Some y → resolve fuel y = Some y) →
  ∀ i x y, (if bool_decide (i = 0%nat) && is_field_argument_operator op &&
               default false (is_reference_envelope <$> as_object x)
            then Some x else resolve fuel x) = Some y →
           (if bool_decide (i = 0%nat) && is_field_argument_operator op &&
               default false (is_reference_envelope <$> as_object y)
            then Some y else resolve fuel y) = Some y.
Proof.
  intros IH i x y. apply (guarded_idem _ (λ x, bool_decide (i = 0%nat) && is_field_argument_operator op &&
    default false (is_reference_envelope <$> as_object x)) _ _ IH).
  intros ? ? Hn%resolve_leaves_none. by rewrite Hn, andb_false_r.
Qed.

Lemma entry_idem fuel :
  (∀ x y, resolve fuel x = Some y → resolve fuel y = Some y) →
  ∀ x y : string * json, pair x.1 <$> resolve fuel x.2 = Some y → pair y.1 <$> resolve fuel y.2 = Some y.
Proof.
  intros IH [k x] [k' y] (z & Hz & [= -> ->])%fmap_Some. simpl in *. by rewrite (IH _ _ Hz).
Qed.

Lemma resolve_idem fuel v w : resolve fuel v = Some w → resolve fuel w = Some w.
Proof.
  revert v w. induction fuel as [|fuel IH]; intros v w; [done|].
  destruct v as [| | | |items|m]; try by intros [= <-].
  { simpl. intros (l & Hl & ->)%fmap_Some. simpl. by rewrite (map_idem _ _ _ IH Hl). }
  destruct (is_reference_envelope m) eqn:Hr.
  { intros Hw. cbn [resolve_nested_references] in Hw. rewrite Hr in Hw.
    apply bind_Some in Hw as (inner & Hi & [= <-]).
    by rewrite resolve_wrapped, (IH _ _ Hi). }
  intros Hw. destruct (resolve_alike _ _ _ Hr Hw) as (m' & -> & Ha). revert Hw.
  cbn [resolve_nested_references].
  rewrite (alike_reference _ _ Ha), Hr, (alike_kind _ _ _ Ha), !(proj1 (Ha _)).
  case (has_value_type "immediate" m).
  { destruct (assoc_get "value" m) as [inner|] eqn:Hi.
    - intros (inner' & Hin & [= <-])%bind_Some. rewrite assoc_get_update_eq, Hi. simpl.
      rewrite (IH _ _ Hin). cbn [mbind option_bind]. by rewrite assoc_update_twice.
    - intros [= <-]. by rewrite Hi. }
  destruct (assoc_get "fn" m ≫= as_str), (assoc_get "op" m ≫= as_str),
    (assoc_get "arguments" m ≫= as_array) as [args|] eqn:Hargs;
    intros (l & Hl & [= <-])%bind_Some;
    first [rewrite (arguments_updated _ _ _ Hargs)|rewrite (alike_no_array _ _ _ Ha Hargs)|idtac].
  all: first [rewrite (map_idem _ _ _ (call_idem _ IH) Hl)|rewrite (map_idem _ _ _ (entry_idem _ IH) Hl)
             |rewrite (imap_idem _ _ _ (operand_idem _ _ IH) Hl)];
    cbn [mbind option_bind]; by rewrite ?assoc_update_twice.
Qed.

(** C32: Resolving the references nested in an agent's input ends, and replaces exactly what
    it should.  When the references of the value resolve to values without references, of
    depth at most [d], the recursion returns within the depth of the value plus [d].  In the
    result every reference is replaced by the value it stands for, in an immediate envelope,
    except those that name columns (a reference without a root of the scope in the arguments
    of a call, the first argument of a column operator) and those beside the value of an
    immediate envelope or beside the arguments of a call or an operator, which are kept
    ([settled]); and resolving the result again changes nothing. *)
Theorem nested_references_settle (d : nat) (value : json) (flat : resolves_flat d value) :
  ∃ result, resolve (json_depth value + d) value = Some result ∧ settled st source value result ∧
    ∀ fuel out, resolve fuel result = Some out → out = result.
Proof.
  destruct (resolve_returns d (json_depth value + d) value flat) as [result Hr].
  { unfold weight. destruct (decide _); lia. }
  exists result. split; [done|]. split; [by eapply resolve_settled|].
  intros fuel out Ho. apply resolve_idem in Hr.
  set (bound := Nat.max fuel (json_depth value + d)).
  apply (resolve_mono _ bound) in Ho; [|lia]. apply (resolve_mono _ bound) in Hr; [|lia]. congruence.
Qed.
End nested.

(** ** Concrete calls *)

Definition plain_serde : SerdeText :=
  {| from_slice_error := λ _, "expected value"; to_vec_error := λ _, "unsupported value";
     from_utf8_lossy := string_of_list_byte |}.

#[local] Existing Instances codec length_hash plain_display text_engine plain_serde.

(** Data that says it is a reference, to itself. *)
Definition self_reference : json :=
  JObject [("valueType", JString "reference"); ("value", JString "data.x")].

Definition self_source : json := JObject [("data", JObject [("x", self_reference)])].

(** A reference that was found in the data is resolved as if it were part of the mapping, so
    data can make the recursion endless. *)
Lemma nested_self_reference_diverges fuel :
  resolve_nested_references fresh_arena self_source fuel self_reference = None.
Proof.
  induction fuel as [|fuel IH]; [done|]. cbn [resolve_nested_references].
  assert (Ha : apply_reference fresh_arena
    [("valueType", JString "reference"); ("value", JString "data.x")] self_source = Ok self_reference)
    by (vm_compute; reflexivity).
  unfold self_reference at 1. rewrite Ha. by rewrite IH.
Qed.

Definition plain_source : json := JObject [("data", JObject [("x", JString "5")])].

(** A condition on a column, with the other side in the data. *)
Definition column_condition : json :=
  json_object [("op", JString "EQ");
    ("arguments", JArray [json_object [("valueType", JString "reference"); ("value", JString "sku")];
                          json_object [("valueType", JString "reference"); ("value", JString "data.x")]])].

Definition column_condition_resolved : json :=
  json_object [("op", JString "EQ");
    ("arguments", JArray [json_object [("valueType", JString "reference"); ("value", JString "sku")];
                          json_object [("valueType", JString "immediate"); ("value", JString "5")]])].

Lemma nested_references_settle_witness :
  resolve_nested_references fresh_arena plain_source (json_depth column_condition + 1) column_condition
    = Some column_condition_resolved ∧
  ∃ result,
    resolve_nested_references fresh_arena plain_source (json_depth column_condition + 1) column_condition
      = Some result ∧
    settled fresh_arena plain_source column_condition result ∧
    ∀ fuel out, resolve_nested_references fresh_arena plain_source fuel result = Some out → out = result.
Proof.
  split; [vm_compute; reflexivity|].
  apply (nested_references_settle fresh_arena plain_source 1 column_condition).
  intros m Hm w Hw. assert (references w = [] ∧ json_depth w = 1%nat) as [? ->]; [|done].
  vm_compute in Hm. apply elem_of_cons in Hm as [->|Hm]; [|apply list_elem_of_singleton in Hm as ->];
    vm_compute in Hw; by simplify_eq.
Defined.

(** Finding: a reference beside the arguments of an operator or a call is not resolved,
    though it is in none of the positions that name columns. *)
Lemma reference_beside_arguments_kept :
  let note := json_object [("valueType", JString "reference"); ("value", JString "data.x")] in
  let condition := json_object [("op", JString "EQ"); ("arguments", JArray []); ("note", note)] in
  resolve_nested_references fresh_arena plain_source 5 condition = Some condition.
Proof. vm_compute. reflexivity. Qed.

(** A manifest with one mapping, and calls of it. *)
Definition one_mapping : DirectJsonManifest :=
  {| (no_collections) with mappings :=
       {[1 := {| mapping_step_id := "call"; mapping_purpose := "finish.inputMapping";
                 mapping_value := JObject [("outputs", json_object
                   [("valueType", JString "immediate"); ("value", JString "done")])] |}]} |}.

Lemma caches_transparent_witness :
  run_calls fresh_arena one_mapping [CallMapping 9 1 []; CallCondition 1 []; CallMapping 9 1 []] no_caches =
  (λ c, (run_call fresh_arena one_mapping c no_caches).1) <$>
    [CallMapping 9 1 []; CallCondition 1 []; CallMapping 9 1 []] ∧
  run_calls fresh_arena one_mapping [CallMapping 9 1 []] no_caches = [Mapped (Some (Ok (list_byte_of_string "done")))].
Proof.
  split; [|vm_compute; reflexivity].
  apply caches_transparent. repeat constructor; unfold u32; simpl; lia.
Defined.
