(* ===== verification/WorkflowFeatures.v ===== *)
(** * runtara-workflows: the features of a workflow

    [workflow_features.rs]: what the compiler has to know of a workflow before it emits
    it, counted over a graph and its nested graphs.  A [BTreeSet] is a [gset], listed in
    the order of its elements; the visits of the steps of a [HashMap] commute, so they are
    folded over the map. *)

From S2P Require Import Prelude.
From stdpp Require Import finite.
From S2P Require Import Json.
From S2P Require Import Text.
From S2P Require Import Dsl.
From S2P Require Import ValidationBase.

Local Open Scope Z_scope.

Inductive WorkflowFeature :=
| AgentCall | AiAgentFeature | ChildWorkflow | ConditionalBranch | SwitchBranch | SplitSubgraph
| WhileLoop | ConditionExpressionFeature | EdgeCondition | ErrorHandlerEdge | ParallelEdges
| LogEvent | ExplicitError | FilterFeature | GroupByFeature | DelayFeature | WaitForSignalFeature
| SuspendResume | Connection | Durability | RetryPolicy | Timeout | Compensation | Breakpoint
| Variables | InputSchema | OutputSchema.

#[export] Instance workflow_feature_eq_dec : EqDecision WorkflowFeature.
Proof. solve_decision. Defined.

(** The features in the order of their declaration. *)
Definition all_features : list WorkflowFeature :=
  [AgentCall; AiAgentFeature; ChildWorkflow; ConditionalBranch; SwitchBranch; SplitSubgraph;
   WhileLoop; ConditionExpressionFeature; EdgeCondition; ErrorHandlerEdge; ParallelEdges;
   LogEvent; ExplicitError; FilterFeature; GroupByFeature; DelayFeature; WaitForSignalFeature;
   SuspendResume; Connection; Durability; RetryPolicy; Timeout; Compensation; Breakpoint;
   Variables; InputSchema; OutputSchema].

#[export] Program Instance workflow_feature_finite : Finite WorkflowFeature :=
  {| enum := all_features |}.
Next Obligation. apply (bool_decide_unpack _). by vm_compute. Qed.
Next Obligation. intros []; apply (bool_decide_unpack _); by vm_compute. Qed.

#[export] Instance workflow_feature_countable : Countable WorkflowFeature := finite_countable.

Record ChildWorkflowReference := {
  reference_step_id : string;
  reference_workflow_id : string;
  reference_version : string }.

#[export] Instance child_workflow_reference_eq_dec : EqDecision ChildWorkflowReference.
Proof. solve_decision. Defined.

#[export] Program Instance child_workflow_reference_countable : Countable ChildWorkflowReference :=
  inj_countable' (λ r, (reference_step_id r, reference_workflow_id r, reference_version r))
    (λ t, {| reference_step_id := t.1.1; reference_workflow_id := t.1.2; reference_version := t.2 |}) _.
Next Obligation. by intros []. Qed.

Record WorkflowFeatureSummary := {
  total_steps : Z;
  graph_count : Z;
  max_graph_depth : Z;
  root_durable : bool;
  step_type_counts : gmap string Z;
  features : gset WorkflowFeature;
  agent_ids : list string;
  connection_ids : list string;
  feature_children : list ChildWorkflowReference }.

Definition has_feature (self : WorkflowFeatureSummary) (feature : WorkflowFeature) : bool :=
  bool_decide (feature ∈ features self).

(** The features that need imports once composed, and the runtime import. *)
Definition composed_features : list WorkflowFeature :=
  [AgentCall; AiAgentFeature; ChildWorkflow; LogEvent; ExplicitError; FilterFeature;
   GroupByFeature; DelayFeature; WaitForSignalFeature; SuspendResume; Connection; Durability].

Definition requires_composed_imports (self : WorkflowFeatureSummary) : bool :=
  existsb (has_feature self) composed_features.

Definition runtime_features : list WorkflowFeature :=
  [AgentCall; AiAgentFeature; ChildWorkflow; LogEvent; ExplicitError; DelayFeature;
   WaitForSignalFeature; SuspendResume; Durability; RetryPolicy; Timeout; Compensation;
   Breakpoint; Connection].

Definition needs_runtime (self : WorkflowFeatureSummary) (track_events : bool) : bool :=
  track_events || root_durable self || existsb (has_feature self) runtime_features.

(** ** The analyzer *)

Record FeatureAnalyzer := {
  an_total_steps : Z;
  an_graph_count : Z;
  an_max_graph_depth : Z;
  an_step_type_counts : gmap string Z;
  an_features : gset WorkflowFeature;
  an_agent_ids : gset string;
  an_connection_ids : gset string;
  an_child_workflows : gset ChildWorkflowReference }.

Definition no_features : FeatureAnalyzer :=
  {| an_total_steps := 0; an_graph_count := 0; an_max_graph_depth := 0;
     an_step_type_counts := ∅; an_features := ∅; an_agent_ids := ∅; an_connection_ids := ∅;
     an_child_workflows := ∅ |}.

Definition add_feature (f : WorkflowFeature) (a : FeatureAnalyzer) : FeatureAnalyzer :=
  {| (a) with an_features := {[f]} ∪ an_features a |}.

Definition add_if (b : bool) (f : WorkflowFeature) (a : FeatureAnalyzer) : FeatureAnalyzer :=
  if b then add_feature f a else a.

Definition add_connection (c : option string) (a : FeatureAnalyzer) : FeatureAnalyzer :=
  match c with
  | Some c => add_feature Connection {| (a) with an_connection_ids := {[c]} ∪ an_connection_ids a |}
  | None => a
  end.

Definition canonicalize_agent_id (agent_id : string) : string :=
  replace "_" "-" (to_ascii_lowercase agent_id).

Definition child_version_to_string (version : ChildVersion) : string :=
  match version with Latest value => value | Specific value => show_Z value end.

Definition step_type_name (step : Step) : string :=
  match step with
  | Finish _ => "Finish" | Agent _ => "Agent" | Conditional _ => "Conditional"
  | Split _ => "Split" | Switch _ => "Switch" | EmbedWorkflow _ => "EmbedWorkflow"
  | While _ => "While" | Log _ => "Log" | Error _ => "Error" | Filter _ => "Filter"
  | GroupBy _ => "GroupBy" | Delay _ => "Delay" | WaitForSignal _ => "WaitForSignal"
  | AiAgent _ => "AiAgent"
  end.

Definition is_set {A} (o : option A) : bool := bool_decide (is_Some o).

(** [visit_edges] *)
Definition is_default_edge (edge : ExecutionPlanEdge) : bool :=
  bool_decide (default "" (label edge) = "") && negb (is_set (condition edge)).

Definition visit_edge (a : FeatureAnalyzer) (edge : ExecutionPlanEdge) : FeatureAnalyzer :=
  let a := add_if (is_set (condition edge)) ConditionExpressionFeature
             (add_if (is_set (condition edge)) EdgeCondition a) in
  add_if (bool_decide (label edge = Some "onError")) ErrorHandlerEdge a.

Definition visit_edges (graph : ExecutionGraph) (a : FeatureAnalyzer) : FeatureAnalyzer :=
  let a := foldl visit_edge a (execution_plan graph) in
  let sources := from_step <$> filter (λ e, is_default_edge e = true) (execution_plan graph) in
  add_if (negb (bool_decide (NoDup sources))) ParallelEdges a.

(** What [visit_step] does before it looks at the kind of the step. *)
Definition count_step (step : Step) (breakpoint : option bool) (a : FeatureAnalyzer) :
  FeatureAnalyzer :=
  let name := step_type_name step in
  add_if (default false breakpoint) Breakpoint
    {| (a) with an_total_steps := an_total_steps a + 1;
                an_step_type_counts :=
                  <[name := default 0 (an_step_type_counts a !! name) + 1]> (an_step_type_counts a) |}.

(** The part of [visit_step] that does not go into nested graphs. *)
Definition step_features (id : string) (step : Step) (graph_durable : bool) (a : FeatureAnalyzer) :
  FeatureAnalyzer :=
  match step with
  | Finish _ => a
  | Agent s =>
      let a := add_feature AgentCall a in
      let a := {| (a) with an_agent_ids := {[canonicalize_agent_id (agent_id s)]} ∪ an_agent_ids a |} in
      let a := add_connection (agent_connection_id s) a in
      let a := add_if (is_set (agent_max_retries s) || is_set (agent_retry_delay s)) RetryPolicy a in
      let a := add_if (is_set (agent_timeout s)) Timeout a in
      let a := add_if (is_set (compensation s)) Compensation a in
      add_if (graph_durable && default true (agent_durable s)) Durability a
  | Conditional _ => add_feature ConditionExpressionFeature (add_feature ConditionalBranch a)
  | Split s =>
      add_if (graph_durable && default true (split_durable s)) Durability (add_feature SplitSubgraph a)
  | Switch _ => add_feature SwitchBranch a
  | EmbedWorkflow s =>
      let a := add_feature ChildWorkflow a in
      let reference :=
        {| reference_step_id := id; reference_workflow_id := child_workflow_id s;
           reference_version := child_version_to_string (child_version s) |} in
      let a := {| (a) with an_child_workflows := {[reference]} ∪ an_child_workflows a |} in
      let a := add_if (is_set (embed_max_retries s) || is_set (embed_retry_delay s)) RetryPolicy a in
      let a := add_if (is_set (embed_timeout s)) Timeout a in
      add_if (graph_durable && default true (embed_durable s)) Durability a
  | While s =>
      add_if (is_set (while_config s ≫= while_timeout)) Timeout
        (add_feature ConditionExpressionFeature (add_feature WhileLoop a))
  | Log _ => add_feature LogEvent a
  | Error _ => add_feature ExplicitError a
  | Filter _ => add_feature ConditionExpressionFeature (add_feature FilterFeature a)
  | GroupBy _ => add_feature GroupByFeature a
  | Delay s =>
      let durable := graph_durable && default true (delay_durable s) in
      add_if durable SuspendResume (add_if durable Durability (add_feature DelayFeature a))
  | WaitForSignal s =>
      let a := add_feature SuspendResume (add_feature WaitForSignalFeature a) in
      let a := add_if graph_durable Durability a in
      let a := add_if (is_set (timeout_ms s)) Timeout a in
      add_if (is_set (response_schema s)) OutputSchema a
  | AiAgent s =>
      let a := add_connection (ai_connection_id s) (add_feature AiAgentFeature a) in
      add_if (graph_durable && default true (ai_durable s)) Durability a
  end.

Fixpoint visit_graph (graph : ExecutionGraph) (depth : Z) (inherited_durable : bool)
  (a : FeatureAnalyzer) {struct graph} : FeatureAnalyzer :=
  match graph with
  | Graph body =>
      let durable := default inherited_durable (gb_durable body) in
      let a := {| (a) with an_graph_count := an_graph_count a + 1;
                           an_max_graph_depth := an_max_graph_depth a `max` depth |} in
      let a := add_if (negb (bool_decide (gb_variables body = ∅))) Variables a in
      let a := add_if (negb (bool_decide (gb_input_schema body = ∅))) InputSchema a in
      let a := add_if (negb (bool_decide (gb_output_schema body = ∅))) OutputSchema a in
      let a := visit_edges graph a in
      map_fold (λ id step a,
        let a := step_features id step durable (count_step step (gb_breakpoints body !! id) a) in
        match step with
        | Split s => visit_graph (split_subgraph s) (depth + 1) durable a
        | While s => visit_graph (while_subgraph s) (depth + 1) durable a
        | WaitForSignal s =>
            match on_wait s with
            | Some g => visit_graph g (depth + 1) durable a
            | None => a
            end
        | _ => a
        end) a (gb_steps body)
  end.

(** The order of [ChildWorkflowReference]: by its fields. *)
Definition reference_le (x y : ChildWorkflowReference) : Prop :=
  match String.compare (reference_step_id x) (reference_step_id y) with
  | Lt => True
  | Gt => False
  | Eq =>
      match String.compare (reference_workflow_id x) (reference_workflow_id y) with
      | Lt => True
      | Gt => False
      | Eq => String.leb (reference_version x) (reference_version y) = true
      end
  end.

#[export] Instance reference_le_dec : RelDecision reference_le.
Proof. intros x y. unfold reference_le. repeat case_match; apply _. Defined.

Definition analyze_workflow_features (graph : ExecutionGraph) : WorkflowFeatureSummary :=
  let durable := default true (graph_durable graph) in
  let a := visit_graph graph 0 durable no_features in
  {| total_steps := an_total_steps a; graph_count := an_graph_count a;
     max_graph_depth := an_max_graph_depth a; root_durable := durable;
     step_type_counts := an_step_type_counts a; features := an_features a;
     agent_ids := sorted (elements (an_agent_ids a));
     connection_ids := sorted (elements (an_connection_ids a));
     feature_children := merge_sort reference_le (elements (an_child_workflows a)) |}.
