(* ===== verification/DirectManifest.v ===== *)
(** * runtara-workflows: the manifest of a compiled workflow

    [direct_wasm/manifest.rs]: the compiler flattens a graph and the graphs of its child
    workflows into tables, whose entries have ids counted over the whole manifest.

    A step's [id] is its key in the graph.  [serde_json::to_value] does not fail on the
    types of the DSL, so the functions that return a [Result] for it are total, and as the
    objects of [serde_json] list their keys in increasing order, [sort_json] has nothing
    to do.  The serde form of a whole step and of a schema, which hold data of the editor,
    SHA-256 and the encoding of the manifest are parameters.  The ids are [u32] and wrap. *)

From S2P Require Import Prelude.
From S2P Require Import Json.
From S2P Require Import Text.
From S2P Require Import DslJson.
From S2P Require Import ValidationBase.
From S2P Require Import ValidationGraph.
From S2P Require Import ValidationAgents.
From S2P Require Import Schemas.
From S2P Require Import Dsl.
From S2P Require Import WorkflowFeatures.

(** ** Tables *)

Record DirectMappingManifest := {
  dm_id : Z;
  dm_step_id : string;
  dm_step_type : string;
  dm_purpose : string;
  dm_value : json }.

Record DirectConditionManifest := {
  dc_id : Z;
  dc_owner_id : string;
  dc_owner_type : string;
  dc_purpose : string;
  dc_value : json }.

Record DirectSplitManifest := {
  ds_id : Z;
  ds_step_id : string;
  ds_name : option string;
  ds_step_type : string;
  ds_purpose : string;
  ds_durable : bool;
  ds_value : json;
  ds_input_schema : json;
  ds_output_schema : json }.

Record DirectWhileManifest := {
  dw_id : Z;
  dw_step_id : string;
  dw_name : option string;
  dw_step_type : string;
  dw_purpose : string;
  dw_value : json;
  dw_condition : json }.

(** [DirectFilterManifest], [DirectSwitchManifest], [DirectGroupByManifest],
    [DirectLogManifest] and [DirectErrorManifest], which have the same fields. *)
Record DirectConfigManifest := {
  df_id : Z;
  df_step_id : string;
  df_name : option string;
  df_step_type : string;
  df_purpose : string;
  df_value : json }.

Record DirectDelayManifest := {
  dd_id : Z;
  dd_step_id : string;
  dd_name : option string;
  dd_step_type : string;
  dd_purpose : string;
  dd_durable : bool;
  dd_duration_ms : json }.

Record DirectAgentRequiredInputManifest := {
  dr_name : string;
  dr_field_type : string;
  dr_description : option string }.

Record DirectAgentManifest := {
  da_id : Z;
  da_step_id : string;
  da_name : option string;
  da_step_type : string;
  da_purpose : string;
  da_agent_id : string;
  da_capability_id : string;
  da_connection_id : option string;
  da_connection_ref : option json;
  da_durable : bool;
  da_rate_limited : bool;
  da_is_workflow_agent : bool;
  da_input_mapping_id : Z;
  da_required_inputs : list DirectAgentRequiredInputManifest;
  da_max_retries : option Z;
  da_retry_delay : option Z;
  da_timeout : option Z }.

Record DirectEdgeManifest := {
  de_ordinal : Z;
  de_from_step : string;
  de_to_step : string;
  de_label : option string;
  de_condition : option json;
  de_condition_id : option Z;
  de_priority : option Z }.

Record DirectGraphManifestCollections := {
  c_mappings : list DirectMappingManifest;
  c_conditions : list DirectConditionManifest;
  c_splits : list DirectSplitManifest;
  c_whiles : list DirectWhileManifest;
  c_filters : list DirectConfigManifest;
  c_switches : list DirectConfigManifest;
  c_group_bys : list DirectConfigManifest;
  c_delays : list DirectDelayManifest;
  c_logs : list DirectConfigManifest;
  c_errors : list DirectConfigManifest;
  c_agents : list DirectAgentManifest }.

Definition empty_tables : DirectGraphManifestCollections :=
  {| c_mappings := []; c_conditions := []; c_splits := []; c_whiles := []; c_filters := [];
     c_switches := []; c_group_bys := []; c_delays := []; c_logs := []; c_errors := [];
     c_agents := [] |}.

(** ** Graphs *)

(** A step without its nested graphs. *)
Record DirectStepManifest := {
  m_id : string;
  m_step_type : string;
  m_name : option string;
  m_body : json }.

(** The fields of [DirectGraphManifest] other than the steps. *)
Record DirectGraphParts := {
  g_name : option string;
  g_entry_point : string;
  g_durable : bool;
  g_rate_limit_budget_ms : Z;
  g_variables : json;
  g_input_schema : json;
  g_output_schema : json;
  g_tables : DirectGraphManifestCollections;
  g_edges : list DirectEdgeManifest }.

(** Every step with its nested graphs, each under its role ([DirectNestedGraphManifest]). *)
#[warnings="-register-all"]
Inductive DirectGraphManifest :=
| GraphManifest (parts : DirectGraphParts)
    (steps : list (DirectStepManifest * list (string * DirectGraphManifest))).

Definition m_parts (g : DirectGraphManifest) : DirectGraphParts :=
  let 'GraphManifest parts _ := g in parts.
Definition m_steps (g : DirectGraphManifest) :
  list (DirectStepManifest * list (string * DirectGraphManifest)) :=
  let 'GraphManifest _ steps := g in steps.
Definition m_entry_point (g : DirectGraphManifest) : string := g_entry_point (m_parts g).
Definition m_tables (g : DirectGraphManifest) := g_tables (m_parts g).
Definition m_edges (g : DirectGraphManifest) : list DirectEdgeManifest := g_edges (m_parts g).

Record DirectManifestChildWorkflowInput := {
  ci_step_id : string;
  ci_workflow_id : string;
  ci_version_requested : string;
  ci_version_resolved : Z;
  ci_execution_graph : ExecutionGraph }.

Record DirectChildWorkflowGraphManifest := {
  cm_step_id : string;
  cm_workflow_id : string;
  cm_version_requested : string;
  cm_version_resolved : Z;
  cm_graph : DirectGraphManifest;
  cm_feature_summary : WorkflowFeatureSummary }.

Record DirectWorkflowManifest := {
  wm_version : Z;
  wm_template_major_version : string;
  wm_checksum : option string;
  wm_graph : DirectGraphManifest;
  wm_child_workflows : list DirectChildWorkflowGraphManifest;
  wm_feature_summary : WorkflowFeatureSummary }.

Definition DIRECT_WORKFLOW_MANIFEST_VERSION : Z := 2.

(** What the manifest takes from outside: serde on whole steps and schemas, SHA-256 in
    hexadecimal of the encoded manifest, and the version of the package. *)
Class ManifestExternals := {
  step_json : string → option bool → Step → json;
  schema_json : gmap string SchemaField → json;
  manifest_sha256_hex : DirectWorkflowManifest → string;
  template_major_version : string }.

(** ** Ids *)

(** The tables, one counter each. *)
Inductive Kind :=
| KMapping | KCondition | KSplit | KWhile | KFilter | KSwitch | KGroupBy | KDelay | KLog | KError
| KAgent.

#[export] Instance kind_eq_dec : EqDecision Kind.
Proof. solve_decision. Defined.

Record DirectManifestBuildState := {
  next_mapping_id : Z;
  next_condition_id : Z;
  next_split_id : Z;
  next_while_id : Z;
  next_filter_id : Z;
  next_switch_id : Z;
  next_group_by_id : Z;
  next_delay_id : Z;
  next_log_id : Z;
  next_error_id : Z;
  next_agent_id : Z }.

Definition initial_state : DirectManifestBuildState :=
  {| next_mapping_id := 0; next_condition_id := 0; next_split_id := 0; next_while_id := 0;
     next_filter_id := 0; next_switch_id := 0; next_group_by_id := 0; next_delay_id := 0;
     next_log_id := 0; next_error_id := 0; next_agent_id := 0 |}.

Definition counter (k : Kind) (s : DirectManifestBuildState) : Z :=
  match k with
  | KMapping => next_mapping_id s
  | KCondition => next_condition_id s
  | KSplit => next_split_id s
  | KWhile => next_while_id s
  | KFilter => next_filter_id s
  | KSwitch => next_switch_id s
  | KGroupBy => next_group_by_id s
  | KDelay => next_delay_id s
  | KLog => next_log_id s
  | KError => next_error_id s
  | KAgent => next_agent_id s
  end.

(** [allocate_mapping_id] and its ten siblings: the counter after the id given out. *)
Definition allocate (k : Kind) (s : DirectManifestBuildState) : DirectManifestBuildState :=
  let next := wrap_u32 (counter k s + 1) in
  match k with
  | KMapping => {| (s) with next_mapping_id := next |}
  | KCondition => {| (s) with next_condition_id := next |}
  | KSplit => {| (s) with next_split_id := next |}
  | KWhile => {| (s) with next_while_id := next |}
  | KFilter => {| (s) with next_filter_id := next |}
  | KSwitch => {| (s) with next_switch_id := next |}
  | KGroupBy => {| (s) with next_group_by_id := next |}
  | KDelay => {| (s) with next_delay_id := next |}
  | KLog => {| (s) with next_log_id := next |}
  | KError => {| (s) with next_error_id := next |}
  | KAgent => {| (s) with next_agent_id := next |}
  end.

(** The entries of a table. *)
Definition entry (k : Kind) : Type :=
  match k with
  | KMapping => DirectMappingManifest
  | KCondition => DirectConditionManifest
  | KSplit => DirectSplitManifest
  | KWhile => DirectWhileManifest
  | KDelay => DirectDelayManifest
  | KAgent => DirectAgentManifest
  | _ => DirectConfigManifest
  end.

Definition push_entry (k : Kind) : entry k → DirectGraphManifestCollections →
  DirectGraphManifestCollections :=
  match k with
  | KMapping => λ e c, {| (c) with c_mappings := c_mappings c ++ [e] |}
  | KCondition => λ e c, {| (c) with c_conditions := c_conditions c ++ [e] |}
  | KSplit => λ e c, {| (c) with c_splits := c_splits c ++ [e] |}
  | KWhile => λ e c, {| (c) with c_whiles := c_whiles c ++ [e] |}
  | KFilter => λ e c, {| (c) with c_filters := c_filters c ++ [e] |}
  | KSwitch => λ e c, {| (c) with c_switches := c_switches c ++ [e] |}
  | KGroupBy => λ e c, {| (c) with c_group_bys := c_group_bys c ++ [e] |}
  | KDelay => λ e c, {| (c) with c_delays := c_delays c ++ [e] |}
  | KLog => λ e c, {| (c) with c_logs := c_logs c ++ [e] |}
  | KError => λ e c, {| (c) with c_errors := c_errors c ++ [e] |}
  | KAgent => λ e c, {| (c) with c_agents := c_agents c ++ [e] |}
  end.

(** [state] and [collections], the two mutable arguments of [step_manifest]. *)
Record Builder := {
  state : DirectManifestBuildState;
  collections : DirectGraphManifestCollections }.

(** [collections.push(Entry { id: state.allocate_id(), .. })] *)
Definition push (k : Kind) (e : Z → entry k) (b : Builder) : Builder :=
  {| state := allocate k (state b);
     collections := push_entry k (e (counter k (state b))) (collections b) |}.

(** ** The catalog *)

Section catalog.
Context (agent_catalog : option AgentCatalog).

Definition catalog_entry (agent_id capability_id : string) : option CapabilityInfo :=
  agent_catalog ≫= λ catalog, catalog_capability catalog agent_id capability_id.

Definition agent_capability_rate_limited (agent_id capability_id : string) : bool :=
  default false (cap_rate_limited <$> catalog_entry agent_id capability_id).

Definition agent_capability_workflow_agent (agent_id capability_id : string) : bool :=
  default false ((λ capability, bool_decide ("workflow-agent" ∈ cap_tags capability)) <$>
                   catalog_entry agent_id capability_id).

Definition required_agent_inputs (agent_id capability_id : string) :
  list DirectAgentRequiredInputManifest :=
  default [] ((λ capability,
    (λ field, {| dr_name := cf_name field; dr_field_type := cf_type_name field;
                 dr_description := cf_description field |}) <$>
      filter (λ field, cf_required field = true ∧ cf_name field ≠ "_connection")
        (cap_inputs capability)) <$> catalog_entry agent_id capability_id).
End catalog.

(** ** The edges of an AI agent *)

Definition is_tool_label (label : string) : bool :=
  negb (bool_decide (label ∈ ["next"; "onError"; "memory"])) && negb (starts_with label "mcp.").

Definition edges_from (graph : ExecutionGraph) (step_id : string) : list ExecutionPlanEdge :=
  filter (λ e, from_step e = step_id) (execution_plan graph).

Definition ai_agent_tool_edges (graph : ExecutionGraph) (step_id : string) : list (string * string) :=
  omap (λ e, label ← label e; if is_tool_label label then Some (label, to_step e) else None)
    (edges_from graph step_id).

Definition ai_agent_memory_provider (graph : ExecutionGraph) (step_id : string) :
  option (string * option string * option MappingValue) :=
  e ← List.find (λ e, bool_decide (from_step e = step_id) && bool_decide (label e = Some "memory"))
        (execution_plan graph);
  match steps graph !! to_step e with
  | Some (Agent s) => Some (agent_id s, agent_connection_id s, agent_connection_ref s)
  | _ => None
  end.

Record McpEdge := {
  mcp_toolset : string;
  mcp_target : string;
  mcp_connection_id : option string;
  mcp_connection_ref : option MappingValue }.

Definition ai_agent_mcp_edges (graph : ExecutionGraph) (step_id : string) : list McpEdge :=
  omap (λ e,
    label ← label e;
    toolset ← strip_prefix "mcp." label;
    match toolset, steps graph !! to_step e with
    | EmptyString, _ => None
    | _, Some (Agent s) =>
        Some {| mcp_toolset := toolset; mcp_target := to_step e;
                mcp_connection_id := agent_connection_id s;
                mcp_connection_ref := agent_connection_ref s |}
    | _, _ => None
    end) (edges_from graph step_id).

Definition string_property (type description : string) : json :=
  json_object [("type", JString type); ("description", JString description)].

Definition ai_agent_mcp_tool_defs (toolset : string) : list json :=
  [json_object
     [("name", JString (toolset +:+ "_search"));
      ("description", JString ("Search the `" +:+ toolset +:+ "` MCP toolset for tools matching a "
        +:+ "free-text query. Use this before `" +:+ toolset +:+ "_invoke` to discover tool names "
        +:+ "and argument shapes."));
      ("parameters", json_object
        [("type", JString "object");
         ("properties", json_object
           [("query", string_property "string" "Free-text description of what you need.");
            ("limit", string_property "integer" "Maximum number of tools to return (default 5, max 20).")]);
         ("required", JArray [JString "query"])])];
   json_object
     [("name", JString (toolset +:+ "_invoke"));
      ("description", JString ("Invoke a specific tool from the `" +:+ toolset +:+ "` MCP toolset. "
        +:+ "The `tool_name` must be one returned by `" +:+ toolset +:+ "_search`; `args` must "
        +:+ "match its input schema."));
      ("parameters", json_object
        [("type", JString "object");
         ("properties", json_object
           [("tool_name", string_property "string" "Exact tool name from the search result.");
            ("args", string_property "object" "Tool arguments matching the tool's input schema.")]);
         ("required", JArray [JString "tool_name"; JString "args"])])]].

Definition ai_agent_mcp_prompt_addition (toolsets : list string) : string :=
  let names := join ", " ((λ name, "`" +:+ name +:+ "`") <$> toolsets) in
  newline +:+ newline +:+ "External toolsets are available: " +:+ names
  +:+ ". To use one, first call `<toolset>_search` with a description of what you need to find "
  +:+ "available tools, then call `<toolset>_invoke` with the exact tool name and args from the "
  +:+ "search result. Do not guess tool names.".

(** ** Steps *)

Definition immediate_json (value : json) : json :=
  json_object [("valueType", JString "immediate"); ("value", value)].

Definition mapping_or_empty (m : option InputMapping) : json :=
  default (JObject []) (input_mapping_json <$> m).

Definition mapping_entry (step_id step_type purpose : string) (value : json) (id : Z) :
  DirectMappingManifest :=
  {| dm_id := id; dm_step_id := step_id; dm_step_type := step_type; dm_purpose := purpose;
     dm_value := value |}.

Definition condition_entry (owner_id owner_type purpose : string) (value : json) (id : Z) :
  DirectConditionManifest :=
  {| dc_id := id; dc_owner_id := owner_id; dc_owner_type := owner_type; dc_purpose := purpose;
     dc_value := value |}.

Definition config_entry (step_id : string) (name : option string) (step_type purpose : string)
  (value : json) (id : Z) : DirectConfigManifest :=
  {| df_id := id; df_step_id := step_id; df_name := name; df_step_type := step_type;
     df_purpose := purpose; df_value := value |}.

Section steps.
Context `{UnicodeData, ManifestExternals} (agent_catalog : option AgentCatalog).

Definition canonicalize_direct_agent_id (agent_id : string) : string :=
  replace "_" "-" (to_lowercase agent_id).

(** The input mapping of an Agent step, with its timeout. *)
Definition agent_input (s : AgentStep) : json :=
  let input_mapping := mapping_or_empty (agent_input_mapping s) in
  match agent_timeout s, input_mapping with
  | Some timeout, JObject m => JObject (assoc_set "timeout_ms" (immediate_json (num timeout)) m)
  | _, _ => input_mapping
  end.

Definition agent_entries (step_id : string) (s : AgentStep) (inherited_durable : bool) (b : Builder) :
  Builder :=
  let input_mapping_id := counter KMapping (state b) in
  let b := push KMapping (mapping_entry step_id "Agent" "agent.inputMapping" (agent_input s)) b in
  let component := canonicalize_direct_agent_id (agent_id s) in
  push KAgent (λ id,
    {| da_id := id; da_step_id := step_id; da_name := agent_name s; da_step_type := "Agent";
       da_purpose := "agent.config"; da_agent_id := component;
       da_capability_id := capability_id s;
       da_connection_id := agent_connection_id s;
       da_connection_ref := mapping_value_json <$> agent_connection_ref s;
       da_durable := inherited_durable && default true (agent_durable s);
       da_rate_limited := agent_capability_rate_limited agent_catalog component (capability_id s);
       da_is_workflow_agent := agent_capability_workflow_agent agent_catalog component (capability_id s);
       da_input_mapping_id := input_mapping_id;
       da_required_inputs := required_agent_inputs agent_catalog component (capability_id s);
       da_max_retries := agent_max_retries s; da_retry_delay := agent_retry_delay s;
       da_timeout := agent_timeout s |}) b.

(** ** AI agents *)

Definition tool_definition (graph : ExecutionGraph) (tool : string * string) : json :=
  json_object
    [("name", JString tool.1);
     ("description", JString (default tool.1 (steps graph !! tool.2 ≫= step_name)));
     ("parameters", json_object
       [("type", JString "object"); ("properties", JObject []); ("additionalProperties", JBool true)])].

Definition ai_tool_definitions (graph : ExecutionGraph) (step_id : string) : list json :=
  (tool_definition graph <$> ai_agent_tool_edges graph step_id)
  ++ concat ((λ e, ai_agent_mcp_tool_defs (mcp_toolset e)) <$> ai_agent_mcp_edges graph step_id).

Definition ai_has_memory (s : AiAgentStep) : bool := is_set (ai_config s ≫= memory).

Definition ai_is_loop (graph : ExecutionGraph) (step_id : string) (s : AiAgentStep) : bool :=
  negb (bool_decide (ai_agent_tool_edges graph step_id = []))
  || ai_has_memory s
  || negb (bool_decide (length (ai_agent_mcp_edges graph step_id) = 0%nat)).

Definition ai_capability (graph : ExecutionGraph) (step_id : string) (s : AiAgentStep) : string :=
  if ai_is_loop graph step_id s then "chat-turn" else "chat-completion".

(** The input mapping of the capability, as a sequence of insertions. *)
Definition ai_input (graph : ExecutionGraph) (step_id : string) (s : AiAgentStep) : json :=
  let mcp_edges := ai_agent_mcp_edges graph step_id in
  json_object
    (match ai_config s with
     | None => []
     | Some config =>
         [("system_prompt", mapping_value_json (system_prompt config));
          ("user_prompt", mapping_value_json (user_prompt config))]
         ++ field_json (λ schema, immediate_json (dsl_schema_to_json_schema schema)) "output_schema"
              (ai_output_schema config)
         ++ field_json mapping_value_json "model" (model config)
         ++ field_json mapping_value_json "temperature" (temperature config)
         ++ field_json mapping_value_json "max_tokens" (max_tokens config)
         ++ field_json (λ ms, immediate_json (num ms)) "timeout_ms" (turn_timeout config)
     end
     ++ (if ai_is_loop graph step_id s then
           [("tools", immediate_json (JArray (ai_tool_definitions graph step_id)))]
           ++ match mcp_edges with
              | [] => []
              | _ =>
                  [("system_prompt_suffix",
                    immediate_json (JString (ai_agent_mcp_prompt_addition (mcp_toolset <$> mcp_edges))))]
              end
         else [])).

(** An entry of an AI agent: the parts in which they differ. *)
Definition ai_agent_entry (step_id : string) (s : AiAgentStep) (inherited_durable : bool)
  (name : option string) (purpose component capability : string) (connection_id : option string)
  (connection_ref : option MappingValue) (rate_limited : bool) (input_mapping_id : Z) (id : Z) :
  DirectAgentManifest :=
  {| da_id := id; da_step_id := step_id; da_name := name; da_step_type := "AiAgent";
     da_purpose := purpose; da_agent_id := component; da_capability_id := capability;
     da_connection_id := connection_id;
     da_connection_ref := mapping_value_json <$> connection_ref;
     da_durable := inherited_durable && default true (ai_durable s);
     da_rate_limited := rate_limited; da_is_workflow_agent := false;
     da_input_mapping_id := input_mapping_id; da_required_inputs := [];
     da_max_retries := None; da_retry_delay := None; da_timeout := None |}.

Definition uses_summarize (m : AiAgentMemory) : bool :=
  match compaction m ≫= strategy with Some Summarize => true | _ => false end.

(** Conversation memory: the conversation id, the two entries of the provider and, with
    the summarize strategy, one of [ai-tools]. *)
Definition memory_entries (graph : ExecutionGraph) (step_id : string) (s : AiAgentStep)
  (inherited_durable : bool) (b : Builder) : Builder :=
  match ai_config s ≫= memory, ai_agent_memory_provider graph step_id with
  | Some memory, Some (mem_agent, mem_conn, mem_conn_ref) =>
      let conversation_mapping_id := counter KMapping (state b) in
      let b := push KMapping (mapping_entry step_id "AiAgent" "memory.conversation"
                 (json_object [("conversation_id", mapping_value_json (conversation_id memory))])) b in
      let provider purpose capability :=
        ai_agent_entry step_id s inherited_durable None purpose
          (canonicalize_direct_agent_id mem_agent) capability mem_conn mem_conn_ref false
          conversation_mapping_id in
      let b := push KAgent (provider "memory.load" "load-memory") b in
      let b := push KAgent (provider "memory.save" "save-memory") b in
      if uses_summarize memory then
        push KAgent (ai_agent_entry step_id s inherited_durable None "memory.summarize" "ai-tools"
          "summarize-memory" (ai_connection_id s) (ai_connection_ref s)
          (agent_capability_rate_limited agent_catalog "ai-tools" "summarize-memory")
          conversation_mapping_id) b
      else b
  | _, _ => b
  end.

(** The search and the invoke entry of every MCP toolset. *)
Definition mcp_entries (graph : ExecutionGraph) (step_id : string) (s : AiAgentStep)
  (inherited_durable : bool) (input_mapping_id : Z) (b : Builder) : Builder :=
  let provider e role capability :=
    ai_agent_entry step_id s inherited_durable (Some (mcp_toolset e +:+ "_" +:+ role))
      "agent.tool.mcp" "mcp" capability (mcp_connection_id e) (mcp_connection_ref e)
      (agent_capability_rate_limited agent_catalog "mcp" capability) input_mapping_id in
  foldl (λ b e, push KAgent (provider e "invoke" "mcp-tool-invoke")
                  (push KAgent (provider e "search" "mcp-tool-search") b))
    b (ai_agent_mcp_edges graph step_id).

Definition ai_agent_entries (graph : ExecutionGraph) (step_id : string) (s : AiAgentStep)
  (inherited_durable : bool) (b : Builder) : Builder :=
  let capability := ai_capability graph step_id s in
  let input_mapping_id := counter KMapping (state b) in
  let b := push KMapping (mapping_entry step_id "AiAgent" "agent.inputMapping"
             (ai_input graph step_id s)) b in
  let b := push KAgent (λ id,
    {| (ai_agent_entry step_id s inherited_durable (ai_name s) "agent.config" "ai-tools" capability
          (ai_connection_id s) (ai_connection_ref s)
          (agent_capability_rate_limited agent_catalog "ai-tools" capability) input_mapping_id id)
       with da_required_inputs := required_agent_inputs agent_catalog "ai-tools" capability;
            da_max_retries := ai_config s ≫= ai_max_retries;
            da_retry_delay := ai_config s ≫= ai_retry_delay |}) b in
  let b := memory_entries graph step_id s inherited_durable b in
  mcp_entries graph step_id s inherited_durable input_mapping_id b.

(** The entries of a step: [step_manifest] without the nested graphs. *)
Definition step_entries (graph : ExecutionGraph) (id : string) (step : Step)
  (inherited_durable : bool) (b : Builder) : Builder :=
  match step with
  | Finish s =>
      push KMapping (mapping_entry id "Finish" "finish.inputMapping"
                       (mapping_or_empty (finish_input_mapping s))) b
  | Conditional s =>
      push KCondition (condition_entry id "Conditional" "conditional.condition"
                         (condition_json (conditional_condition s))) b
  | Split s =>
      push KSplit (λ i,
        {| ds_id := i; ds_step_id := id; ds_name := split_name s; ds_step_type := "Split";
           ds_purpose := "split.config";
           ds_durable := inherited_durable && default true (split_durable s);
           ds_value := default (JObject []) (split_config_json <$> split_config s);
           ds_input_schema := schema_json (split_input_schema s);
           ds_output_schema := schema_json (split_output_schema s) |}) b
  | Switch s =>
      push KSwitch (config_entry id (switch_name s) "Switch" "switch.config"
                      (default (JObject []) (switch_config_json <$> switch_config s))) b
  | EmbedWorkflow s =>
      push KMapping (mapping_entry id "EmbedWorkflow" "embedWorkflow.inputMapping"
                       (mapping_or_empty (embed_input_mapping s))) b
  | While s =>
      push KWhile (λ i,
        {| dw_id := i; dw_step_id := id; dw_name := while_name s; dw_step_type := "While";
           dw_purpose := "while.config";
           dw_value := default (JObject []) (while_config_json <$> while_config s);
           dw_condition := condition_json (while_condition s) |}) b
  | Filter s => push KFilter (config_entry id (filter_name s) "Filter" "filter.config" (filter_config_json s)) b
  | GroupBy s =>
      push KGroupBy (config_entry id (group_name s) "GroupBy" "groupBy.config" (group_by_config_json s)) b
  | Delay s =>
      push KDelay (λ i,
        {| dd_id := i; dd_step_id := id; dd_name := delay_name s; dd_step_type := "Delay";
           dd_purpose := "delay.config";
           dd_durable := inherited_durable && default true (delay_durable s);
           dd_duration_ms := mapping_value_json (duration_ms s) |}) b
  | Log s =>
      push KLog (config_entry id (log_name s) "Log" "log.config"
                   (log_step_json id (breakpoints graph !! id) s)) b
  | Error s =>
      push KError (config_entry id (error_name s) "Error" "error.config"
                     (error_step_json id (breakpoints graph !! id) s)) b
  | Agent s => agent_entries id s inherited_durable b
  | AiAgent s => ai_agent_entries graph id s inherited_durable b
  | WaitForSignal _ => b
  end.

Definition step_head (graph : ExecutionGraph) (id : string) (step : Step) : DirectStepManifest :=
  {| m_id := id; m_step_type := step_type_name step; m_name := step_name step;
     m_body := step_json id (breakpoints graph !! id) step |}.

(** ** Edges *)

Definition edge_manifest (ordinal : Z) (edge : ExecutionPlanEdge) (b : Builder) :
  DirectEdgeManifest * Builder :=
  let manifest condition_id :=
    {| de_ordinal := ordinal; de_from_step := from_step edge; de_to_step := to_step edge;
       de_label := label edge; de_condition := condition_json <$> condition edge;
       de_condition_id := condition_id; de_priority := priority edge |} in
  match condition edge with
  | Some condition =>
      (manifest (Some (counter KCondition (state b))),
       push KCondition (condition_entry (from_step edge) "Edge" "edge.condition"
                          (condition_json condition)) b)
  | None => (manifest None, b)
  end.

Fixpoint build_edges (ordinal : Z) (edges : list ExecutionPlanEdge) (b : Builder) :
  list DirectEdgeManifest * Builder :=
  match edges with
  | [] => ([], b)
  | edge :: edges =>
      let '(e, b) := edge_manifest ordinal edge b in
      let '(es, b) := build_edges (ordinal + 1) edges b in
      (e :: es, b)
  end.

Definition edge_route_rank (edge : DirectEdgeManifest) : Z :=
  if is_set (de_condition edge) then - default 0 (de_priority edge) else i64_max.

(** [compare_edges]: lexicographic. *)
Definition then_compare (a b : comparison) : comparison := match a with Eq => b | _ => a end.

Definition compare_edges (left right : DirectEdgeManifest) : comparison :=
  then_compare (String.compare (de_from_step left) (de_from_step right))
  (then_compare (String.compare (default "" (de_label left)) (default "" (de_label right)))
  (then_compare (Z.compare (edge_route_rank left) (edge_route_rank right))
  (then_compare (Z.compare (de_ordinal left) (de_ordinal right))
     (String.compare (de_to_step left) (de_to_step right))))).

Definition edge_le (left right : DirectEdgeManifest) : Prop := compare_edges left right ≠ Gt.

#[export] Instance edge_le_dec : RelDecision edge_le.
Proof. intros x y. unfold edge_le. apply _. Defined.

(** ** Graphs *)

(** [sort_by_key(|left| left.id)] on the eleven tables. *)
Definition sort_tables (c : DirectGraphManifestCollections) : DirectGraphManifestCollections :=
  {| c_mappings := order_by dm_id (c_mappings c); c_conditions := order_by dc_id (c_conditions c);
     c_splits := order_by ds_id (c_splits c); c_whiles := order_by dw_id (c_whiles c);
     c_filters := order_by df_id (c_filters c); c_switches := order_by df_id (c_switches c);
     c_group_bys := order_by df_id (c_group_bys c); c_delays := order_by dd_id (c_delays c);
     c_logs := order_by df_id (c_logs c); c_errors := order_by df_id (c_errors c);
     c_agents := order_by da_id (c_agents c) |}.

(** The steps of a graph by id, each with the function that builds its nested graphs. *)
Definition NestedBuilder : Type :=
  DirectManifestBuildState → list (string * DirectGraphManifest) * DirectManifestBuildState.

Definition key_le {A} (x y : string * A) : Prop := str_le x.1 y.1.

#[export] Instance key_le_dec {A} : RelDecision (@key_le A).
Proof. intros x y. unfold key_le. apply _. Defined.

Fixpoint build_steps (graph : ExecutionGraph) (durable : bool)
  (l : list (string * (Step * NestedBuilder))) (b : Builder) :
  list (DirectStepManifest * list (string * DirectGraphManifest)) * Builder :=
  match l with
  | [] => ([], b)
  | (id, (step, nested)) :: l =>
      let b := step_entries graph id step durable b in
      let '(graphs, s) := nested (state b) in
      let '(built, b) := build_steps graph durable l {| state := s; collections := collections b |} in
      ((step_head graph id step, graphs) :: built, b)
  end.

Fixpoint graph_manifest (graph : ExecutionGraph) (inherited_durable : bool)
  (s : DirectManifestBuildState) {struct graph} : DirectGraphManifest * DirectManifestBuildState :=
  match graph with
  | Graph body =>
      let durable := default inherited_durable (gb_durable body) in
      let nested (role : string) (g : ExecutionGraph) (s : DirectManifestBuildState) :=
        let '(m, s) := graph_manifest g durable s in ([(role, m)], s) in
      let step_values := (λ step,
        (step,
         match step return NestedBuilder with
         | Split st => nested "split.subgraph" (split_subgraph st)
         | While st => nested "while.subgraph" (while_subgraph st)
         | WaitForSignal st =>
             match on_wait st with
             | Some g => nested "waitForSignal.onWait" g
             | None => λ s, ([], s)
             end
         | _ => λ s, ([], s)
         end)) <$> gb_steps body in
      let '(steps, b) := build_steps graph durable (merge_sort key_le (map_to_list step_values))
                           {| state := s; collections := empty_tables |} in
      let '(edges, b) := build_edges 0 (gb_execution_plan body)
                           {| (b) with collections := sort_tables (collections b) |} in
      (GraphManifest
         {| g_name := gb_name body; g_entry_point := gb_entry_point body; g_durable := durable;
            g_rate_limit_budget_ms := gb_rate_limit_budget_ms body;
            g_variables := variables_json (gb_variables body);
            g_input_schema := schema_json (gb_input_schema body);
            g_output_schema := schema_json (gb_output_schema body);
            g_tables := collections b; g_edges := merge_sort edge_le edges |} steps,
       state b)
  end.

(** ** The workflow *)

Definition child_compare (left right : DirectManifestChildWorkflowInput) : comparison :=
  then_compare (String.compare (ci_step_id left) (ci_step_id right))
  (then_compare (String.compare (ci_workflow_id left) (ci_workflow_id right))
  (then_compare (Z.compare (ci_version_resolved left) (ci_version_resolved right))
     (String.compare (ci_version_requested left) (ci_version_requested right)))).

Definition child_le (left right : DirectManifestChildWorkflowInput) : Prop :=
  child_compare left right ≠ Gt.

#[export] Instance child_le_dec : RelDecision child_le.
Proof. intros x y. unfold child_le. apply _. Defined.

Fixpoint build_children (children : list DirectManifestChildWorkflowInput)
  (s : DirectManifestBuildState) :
  list DirectChildWorkflowGraphManifest * DirectManifestBuildState :=
  match children with
  | [] => ([], s)
  | child :: children =>
      let graph := ci_execution_graph child in
      let '(manifest, s) := graph_manifest graph (default true (graph_durable graph)) s in
      let '(built, s) := build_children children s in
      ({| cm_step_id := ci_step_id child; cm_workflow_id := ci_workflow_id child;
          cm_version_requested := ci_version_requested child;
          cm_version_resolved := ci_version_resolved child; cm_graph := manifest;
          cm_feature_summary := analyze_workflow_features graph |} :: built, s)
  end.

Definition add_agent_id (id : string) (ids : list string) : list string :=
  if decide (id ∈ ids) then ids else ids ++ [id].

(** The agents a child needs, added to those of the parent. *)
Definition add_child_agents (ids : list string) (child : DirectChildWorkflowGraphManifest) :
  list string :=
  let summary := cm_feature_summary child in
  let ids := foldl (λ ids id, add_agent_id id ids) ids (agent_ids summary) in
  if has_feature summary AiAgentFeature then add_agent_id "ai-tools" ids else ids.

Definition imported_agent_ids (summary : WorkflowFeatureSummary)
  (children : list DirectChildWorkflowGraphManifest) : list string :=
  let ids :=
    if has_feature summary AiAgentFeature && negb (bool_decide ("ai-tools" ∈ agent_ids summary))
    then sorted (agent_ids summary ++ ["ai-tools"]) else agent_ids summary in
  dedup (sorted (foldl add_child_agents ids children)).

Definition build_direct_workflow_manifest_with_child_workflows_and_agent_catalog
  (graph : ExecutionGraph) (children : list DirectManifestChildWorkflowInput) :
  DirectWorkflowManifest :=
  let feature_summary := analyze_workflow_features graph in
  let '(root, s) := graph_manifest graph (default true (graph_durable graph)) initial_state in
  let '(child_workflows, _) := build_children (merge_sort child_le children) s in
  let manifest :=
    {| wm_version := DIRECT_WORKFLOW_MANIFEST_VERSION;
       wm_template_major_version := template_major_version; wm_checksum := None;
       wm_graph := root; wm_child_workflows := child_workflows;
       wm_feature_summary :=
         {| (feature_summary) with agent_ids := imported_agent_ids feature_summary child_workflows |} |} in
  {| (manifest) with wm_checksum := Some (manifest_sha256_hex manifest) |}.
End steps.

Definition build_direct_workflow_manifest_with_agent_catalog
  `{UnicodeData, ManifestExternals} (graph : ExecutionGraph) (agent_catalog : option AgentCatalog) :
  DirectWorkflowManifest :=
  build_direct_workflow_manifest_with_child_workflows_and_agent_catalog agent_catalog graph [].

Definition build_direct_workflow_manifest `{UnicodeData, ManifestExternals} (graph : ExecutionGraph) :
  DirectWorkflowManifest :=
  build_direct_workflow_manifest_with_agent_catalog graph None.
