(* ===== verification/DirectSupport.v ===== *)
(** * runtara-workflows: the support gate

    [direct_wasm/support.rs]: before any emission, the compiler decides whether it can
    lower a graph and the preloaded closure of its child workflows, and otherwise lists
    what it does not support.

    The walk over a graph follows embedded children and nested graphs, so it is recursive
    on a number of rounds; [None] is a walk that needs more of them. *)

From S2P Require Import Prelude.
From S2P Require Import Json.
From S2P Require Import Text.
From S2P Require Import ValidationBase.
From S2P Require Import GraphOrder.
From S2P Require Import Dsl.
From S2P Require Import WorkflowFeatures.
From S2P Require Import DirectManifest.

Local Open Scope nat_scope.

(** ** Children *)

Record DirectSupportChildWorkflows := {
  by_step_id : gmap string ExecutionGraph;
  duplicate_step_ids : gset string;
  child_graphs : list ExecutionGraph }.

Definition no_children : DirectSupportChildWorkflows :=
  {| by_step_id := ∅; duplicate_step_ids := ∅; child_graphs := [] |}.

Definition add_child (c : DirectSupportChildWorkflows) (child : DirectManifestChildWorkflowInput) :
  DirectSupportChildWorkflows :=
  let id := ci_step_id child in
  {| by_step_id := <[id := ci_execution_graph child]> (by_step_id c);
     duplicate_step_ids :=
       match by_step_id c !! id with
       | Some _ => {[id]} ∪ duplicate_step_ids c
       | None => duplicate_step_ids c
       end;
     child_graphs := child_graphs c ++ [ci_execution_graph child] |}.

Definition from_child_workflows (children : list DirectManifestChildWorkflowInput) :
  DirectSupportChildWorkflows := foldl add_child no_children children.

(** [nested_step_graphs] *)
Definition nested_step_graphs (step : Step) : list ExecutionGraph :=
  match step with
  | Split s => [split_subgraph s]
  | While s => [while_subgraph s]
  | WaitForSignal s => match on_wait s with Some g => [g] | None => [] end
  | _ => []
  end.

Fixpoint collect_embed_workflow_step_ids (graph : ExecutionGraph) (step_ids : gset string) : gset string :=
  match graph with
  | Graph body =>
      map_fold (λ id step step_ids,
        match step with
        | EmbedWorkflow _ => {[id]} ∪ step_ids
        | Split s => collect_embed_workflow_step_ids (split_subgraph s) step_ids
        | While s => collect_embed_workflow_step_ids (while_subgraph s) step_ids
        | WaitForSignal s =>
            match on_wait s with
            | Some g => collect_embed_workflow_step_ids g step_ids
            | None => step_ids
            end
        | _ => step_ids
        end) step_ids (gb_steps body)
  end.

Definition embed_workflow_step_ids (graph : ExecutionGraph) : gset string :=
  collect_embed_workflow_step_ids graph ∅.

Definition embed_workflow_step_ids_with_child_workflows (graph : ExecutionGraph)
  (children : DirectSupportChildWorkflows) : gset string :=
  foldl (λ ids g, collect_embed_workflow_step_ids g ids) (embed_workflow_step_ids graph)
    (child_graphs children).

(** The stack never holds an id twice, so its length is bounded by the children; [true]
    without rounds is not reached (DirectSupportProperties). *)
Fixpoint child_closure_has_cycle_inner (fuel : nat) (children : DirectSupportChildWorkflows)
  (step_id : string) (stack : list string) : bool :=
  if decide (step_id ∈ stack) then true
  else
    match by_step_id children !! step_id with
    | None => false
    | Some graph =>
        match fuel with
        | O => true
        | S fuel =>
            existsb (λ child, child_closure_has_cycle_inner fuel children child (stack ++ [step_id]))
              (sorted (elements (embed_workflow_step_ids graph)))
        end
    end.

Definition child_closure_has_cycle (children : DirectSupportChildWorkflows) (step_id : string) : bool :=
  child_closure_has_cycle_inner (size (by_step_id children)) children step_id [].

(** ** Edges *)

(** The edges of the plan with their indices. *)
Definition enumerated (graph : ExecutionGraph) : list (nat * ExecutionPlanEdge) :=
  imap pair (execution_plan graph).

Definition outgoing (graph : ExecutionGraph) (step_id : string) : list (nat * ExecutionPlanEdge) :=
  filter (λ e, from_step e.2 = step_id) (enumerated graph).

Definition support_normal_flow_edges (graph : ExecutionGraph) (step_id : string) :
  list (nat * ExecutionPlanEdge) :=
  filter (λ e, is_normal_flow_edge e.2 = true) (outgoing graph step_id).

Definition support_on_error_edges (graph : ExecutionGraph) (step_id : string) :
  list (nat * ExecutionPlanEdge) :=
  filter (λ e, label e.2 = Some "onError") (outgoing graph step_id).

Definition edge_has_condition (e : ExecutionPlanEdge) : bool := is_set (condition e).

(** ** The backbone *)

Definition step_branches_remerge (step_id : string) (graph : ExecutionGraph) : bool :=
  is_set (find_merge_point_n
    ((λ e, Some (to_step e)) <$>
       filter (λ e, from_step e = step_id ∧ label e ≠ Some "onError") (execution_plan graph)) graph).

(** A step before the last of the order. *)
Definition continues (graph : ExecutionGraph) (step_id : string) : bool :=
  match steps graph !! step_id with
  | None | Some (Finish _) | Some (Error _) => false
  | Some step =>
      if is_branching_step step || has_conditioned_normal_flow_edges step_id graph
      then step_branches_remerge step_id graph
      else negb (bool_decide (support_normal_flow_edges graph step_id = []))
  end.

Definition backbone_topologically_linearizable (graph : ExecutionGraph) : bool :=
  let order := build_execution_order graph in
  forallb (continues graph) (take (length order - 1) order).

(** ** The walk *)

(** What the walk of a graph has marked. *)
Record Walk := {
  reachable : gset string;
  used_edges : gset nat }.

Definition reach (step_id : string) (w : Walk) : Walk :=
  {| (w) with reachable := {[step_id]} ∪ reachable w |}.

Definition use (i : nat) (w : Walk) : Walk := {| (w) with used_edges := {[i]} ∪ used_edges w |}.

Definition uses (edges : list (nat * ExecutionPlanEdge)) (w : Walk) : Walk :=
  foldl (λ w e, use e.1 w) w edges.

(** The answer of a walk and what it has marked. *)
Definition walked : Type := option (bool * Walk).

Definition and_also (p : walked) (q : Walk → walked) : walked :=
  match p with
  | Some (true, w) => q w
  | _ => p
  end.

Definition rejected (w : Walk) : walked := Some (false, w).
Definition accepted (w : Walk) : walked := Some (true, w).

Section visit.
Context (visit : string → Walk → walked).

(** The loops over the targets of edges: all are visited, whatever the answers. *)
Fixpoint visit_targets (edges : list (nat * ExecutionPlanEdge)) (w : Walk) : walked :=
  match edges with
  | [] => accepted w
  | (i, e) :: edges =>
      match visit (to_step e) (use i w) with
      | None => None
      | Some (b, w) =>
          match visit_targets edges w with
          | None => None
          | Some (b', w) => Some (b && b', w)
          end
      end
  end.
End visit.

(** [mark_dead_subgraph_reachable]: the queue is popped at its end, here its head. *)
Fixpoint mark_dead_loop (fuel : nat) (graph : ExecutionGraph) (queue : list string) (w : Walk) :
  option Walk :=
  match queue with
  | [] => Some w
  | step_id :: queue =>
      match fuel with
      | O => None
      | S fuel =>
          if decide (step_id ∈ reachable w) then mark_dead_loop fuel graph queue w
          else
            let edges := outgoing graph step_id in
            mark_dead_loop fuel graph (rev ((λ e, to_step e.2) <$> edges) ++ queue)
              (uses edges (reach step_id w))
      end
  end.

Definition mark_dead_subgraph_reachable (graph : ExecutionGraph) (start : string) (w : Walk) : Walk :=
  default w (mark_dead_loop (rounds graph) graph [start] w).

Definition mark_inert_on_error_edges (graph : ExecutionGraph) (step_id : string) (w : Walk) : Walk :=
  foldl (λ w e, mark_dead_subgraph_reachable graph (to_step e.2) (use e.1 w)) w
    (support_on_error_edges graph step_id).

(** The [for] loop over the edges of a Conditional. *)
Fixpoint conditional_edges_of (edges : list (nat * ExecutionPlanEdge))
  (true_edge false_edge : option (nat * ExecutionPlanEdge)) :
  option (option (nat * ExecutionPlanEdge) * option (nat * ExecutionPlanEdge)) :=
  match edges with
  | [] => Some (true_edge, false_edge)
  | e :: edges =>
      if edge_has_condition e.2 then None
      else if decide (label e.2 = Some "true" ∧ true_edge = None)
      then conditional_edges_of edges (Some e) false_edge
      else if decide (label e.2 = Some "false" ∧ false_edge = None)
      then conditional_edges_of edges true_edge (Some e)
      else None
  end.

(** The [for] loop over the edges of a routing Switch. *)
Fixpoint labeled_edges_of (expected : gset string) (edges : list (nat * ExecutionPlanEdge))
  (labeled : gmap string (nat * ExecutionPlanEdge)) : option (gmap string (nat * ExecutionPlanEdge)) :=
  match edges with
  | [] => Some labeled
  | e :: edges =>
      if edge_has_condition e.2 then None
      else
        match label e.2 with
        | None => None
        | Some l =>
            if decide (l ∈ expected) then
              match labeled !! l with
              | Some _ => None
              | None => labeled_edges_of expected edges (<[l := e]> labeled)
              end
            else None
        end
  end.

Definition expected_labels (config : SwitchConfig) : gset string :=
  {["default"]} ∪ list_to_set (filter (λ l, l ≠ "default") (route_labels config)).

(** ** One round: the functions of the source, over the call [supports_direct_control_step_inner]
    makes *)

Section round.
Context (rec : DirectSupportChildWorkflows → ExecutionGraph → list string → list string → bool →
               string → Walk → walked).

Definition supports_direct_control_graph_inner (children : DirectSupportChildWorkflows)
  (child_stack : list string) (graph : ExecutionGraph) : option bool :=
  if negb (backbone_topologically_linearizable graph) then Some false
  else
    match rec children graph child_stack [] true (entry_point graph)
            {| reachable := ∅; used_edges := ∅ |} with
    | None => None
    | Some (supported, w) =>
        Some (supported && (size (reachable w) =? size (steps graph))
              && (size (used_edges w) =? length (execution_plan graph)))
    end.

Definition supports_direct_control_graph (children : DirectSupportChildWorkflows)
  (graph : ExecutionGraph) : option bool :=
  supports_direct_control_graph_inner children [] graph.

Definition supports_wait_for_signal_step_baseline (children : DirectSupportChildWorkflows)
  (step : WaitForSignalStep ExecutionGraph) : option bool :=
  match on_wait step with
  | None => Some true
  | Some graph => supports_direct_control_graph children graph
  end.

Definition supports_embed_workflow_step_baseline (children : DirectSupportChildWorkflows)
  (child_stack : list string) (step_id : string) : option bool :=
  if decide (step_id ∈ child_stack) then Some false
  else
    match by_step_id children !! step_id with
    | None => Some false
    | Some child => supports_direct_control_graph_inner children (child_stack ++ [step_id]) child
    end.

(** [Iterator::all] *)
Fixpoint all_of {A} (f : A → option bool) (l : list A) : option bool :=
  match l with
  | [] => Some true
  | a :: l =>
      match f a with
      | Some true => all_of f l
      | r => r
      end
  end.

Definition is_mcp_label (l : string) : bool :=
  bool_decide (is_Some (strip_prefix "mcp." l)) && (4 <? String.length l).

Definition is_ai_tool_label (l : string) : bool :=
  bool_decide (l ≠ "next") && bool_decide (l ≠ "onError") && bool_decide (l ≠ "memory")
  && negb (bool_decide (is_Some (strip_prefix "mcp." l))).

Definition labeled_by (p : string → bool) (graph : ExecutionGraph) (step_id : string) :
  list ExecutionPlanEdge :=
  filter (λ e, from_step e = step_id ∧ default false (p <$> label e) = true) (execution_plan graph).

Definition is_agent_target (graph : ExecutionGraph) (step_id : string) : bool :=
  match steps graph !! step_id with Some (Agent _) => true | _ => false end.

Definition supports_ai_agent_step_baseline (children : DirectSupportChildWorkflows)
  (graph : ExecutionGraph) (step_id : string) (step : AiAgentStep) : option bool :=
  match ai_config step with
  | None => Some false
  | Some config =>
      let mcp_targets := labeled_by is_mcp_label graph step_id in
      if negb (forallb (λ e, match steps graph !! to_step e with
                             | Some (Agent a) => bool_decide (agent_id a = "mcp")
                             | _ => false
                             end) mcp_targets) then Some false
      else
        let memory_edge :=
          List.find (λ e, bool_decide (from_step e = step_id) && bool_decide (label e = Some "memory"))
            (execution_plan graph) in
        if negb (bool_decide (is_set (memory config) = is_set memory_edge)) then Some false
        else if match memory_edge with
                | Some e => negb (is_agent_target graph (to_step e))
                | None => false
                end then Some false
        else
          let tool_targets := labeled_by is_ai_tool_label graph step_id in
          all_of (λ e, match steps graph !! to_step e with
                       | Some (Agent _) | Some (WaitForSignal _) => Some true
                       | Some (EmbedWorkflow _) =>
                           supports_embed_workflow_step_baseline children [] (to_step e)
                       | _ => Some false
                       end) tool_targets
  end.

Definition on_error_route_shape_supported (graph : ExecutionGraph) (step_id : string) : option bool :=
  let edges := support_on_error_edges graph step_id in
  let shape :=
    negb (bool_decide (edges = [])) && (length (filter (λ e, edge_has_condition e.2 = false) edges) <=? 1) in
  match steps graph !! step_id with
  | Some (Agent _) | Some (EmbedWorkflow _) | Some (Split _) | Some (While _) | Some (AiAgent _) =>
      Some shape
  | Some (WaitForSignal step) =>
      match supports_wait_for_signal_step_baseline no_children step with
      | None => None
      | Some b => Some (b && shape)
      end
  | _ => Some false
  end.

(** ** Steps *)

Section step.
Context (children : DirectSupportChildWorkflows) (graph : ExecutionGraph) (child_stack : list string)
  (stack : list string) (include_on_error : bool) (step_id : string).

Local Abbreviation visit := (rec children graph child_stack (stack ++ [step_id])).

Definition supports_normal_flow_step (w : Walk) : walked :=
  match support_normal_flow_edges graph step_id with
  | [] => accepted w
  | edges =>
      let conditional_edges := filter (λ e, edge_has_condition e.2 = true) edges in
      let default_edges := filter (λ e, edge_has_condition e.2 = false) edges in
      match conditional_edges, default_edges with
      | [], [] => rejected w
      | [], _ => visit_targets (visit include_on_error) default_edges w
      | _, [default_edge] =>
          visit_targets (visit include_on_error) (conditional_edges ++ [default_edge]) w
      | _, _ => rejected w
      end
  end.

Definition supports_on_error_flow_step (w : Walk) : walked :=
  match support_on_error_edges graph step_id with
  | [] => accepted w
  | edges =>
      match on_error_route_shape_supported graph step_id with
      | None => None
      | Some false => rejected w
      | Some true => visit_targets (visit false) edges w
      end
  end.

Definition on_error_supported_or_inert (w : Walk) : walked :=
  if include_on_error then supports_on_error_flow_step w
  else accepted (mark_inert_on_error_edges graph step_id w).

Definition supports_conditional_step (w : Walk) : walked :=
  match conditional_edges_of (outgoing graph step_id) None None with
  | Some (Some true_edge, Some false_edge) =>
      let w := uses [true_edge; false_edge] w in
      visit_targets (visit include_on_error) [true_edge; false_edge] w
  | _ => rejected w
  end.

Definition supports_routing_switch_step (config : SwitchConfig) (w : Walk) : walked :=
  let expected := expected_labels config in
  match labeled_edges_of expected (outgoing graph step_id) ∅ with
  | None => rejected w
  | Some labeled =>
      if negb (size labeled =? size expected) then rejected w
      else visit_targets (visit include_on_error)
             (omap (λ l, labeled !! l) (sorted (elements expected))) w
  end.

(** A guard of the [match], or the arm [_ => false]. *)
Definition if_supported (guard : option bool) (w : Walk) (body : Walk → walked) : walked :=
  match guard with
  | None => None
  | Some true => body w
  | Some false => rejected w
  end.

Local Abbreviation normal_and_on_error := (λ w, and_also (supports_normal_flow_step w) on_error_supported_or_inert).

(** The [match step] of [supports_direct_control_step_inner]. *)
Definition supports_step_kind (step : Step) (w : Walk) : walked :=
  match step with
  | Finish _ | Error _ => Some (bool_decide (outgoing graph step_id = []), w)
  | Conditional _ => supports_conditional_step w
  | Filter _ | GroupBy _ | Delay _ | Log _ => supports_normal_flow_step w
  | Switch s =>
      match switch_config s with
      | Some config =>
          if is_routing config then supports_routing_switch_step config w else supports_normal_flow_step w
      | None => supports_normal_flow_step w
      end
  | Split s =>
      if_supported (supports_direct_control_graph_inner children child_stack (split_subgraph s)) w normal_and_on_error
  | While s =>
      if_supported (supports_direct_control_graph_inner children child_stack (while_subgraph s)) w normal_and_on_error
  | WaitForSignal s => if_supported (supports_wait_for_signal_step_baseline children s) w normal_and_on_error
  | EmbedWorkflow _ =>
      if_supported (supports_embed_workflow_step_baseline children child_stack step_id) w normal_and_on_error
  | Agent _ => normal_and_on_error w
  | AiAgent s =>
      if_supported (supports_ai_agent_step_baseline children graph step_id s) w (λ w,
        let tools := filter (λ e, default false ((λ l, bool_decide (l ≠ "next") && bool_decide (l ≠ "onError"))
                                                   <$> label e.2) = true) (outgoing graph step_id) in
        normal_and_on_error (foldl (λ w e, reach (to_step e.2) (use e.1 w)) w tools))
  end.

Definition supports_one_step (w : Walk) : walked :=
  if decide (step_id ∈ stack) then rejected w
  else if decide (step_id ∈ reachable w) then accepted w
  else
    match steps graph !! step_id with
    | None => rejected w
    | Some step => supports_step_kind step (reach step_id w)
    end.
End step.
End round.

Fixpoint supports_direct_control_step_inner (fuel : nat) (children : DirectSupportChildWorkflows)
  (graph : ExecutionGraph) (child_stack stack : list string) (include_on_error : bool)
  (step_id : string) (w : Walk) : walked :=
  match fuel with
  | O => None
  | S fuel =>
      supports_one_step (supports_direct_control_step_inner fuel) children graph child_stack stack
        include_on_error step_id w
  end.

(** ** The report *)

Record UnsupportedWorkflowFeature := {
  uf_step_id : option string;
  uf_step_type : option string;
  uf_feature : string;
  uf_reason : string }.

Record DirectWorkflowSupportReport := {
  supported : bool;
  unsupported : list UnsupportedWorkflowFeature;
  feature_summary : WorkflowFeatureSummary }.

(** Features found, or more rounds needed. *)
Definition found : Type := option (list UnsupportedWorkflowFeature).

Definition found_app (x y : found) : found :=
  match x, y with
  | Some x, Some y => Some (x ++ y)
  | _, _ => None
  end.

Fixpoint found_all {A} (f : A → found) (l : list A) : found :=
  match l with
  | [] => Some []
  | a :: l => found_app (f a) (found_all f l)
  end.

Definition feature_of (step_id : string) (type : option string) (feature reason : string) :
  UnsupportedWorkflowFeature :=
  {| uf_step_id := Some step_id; uf_step_type := type; uf_feature := feature; uf_reason := reason |}.

Definition is_dangling (graph : ExecutionGraph) (e : ExecutionPlanEdge) : Prop :=
  steps graph !! from_step e = None ∨ steps graph !! to_step e = None.

#[export] Instance is_dangling_dec graph e : Decision (is_dangling graph e).
Proof. unfold is_dangling. apply _. Defined.

Definition dangling_feature (graph : ExecutionGraph) (e : ExecutionPlanEdge) : UnsupportedWorkflowFeature :=
  let missing := if decide (steps graph !! from_step e = None) then from_step e else to_step e in
  feature_of missing None "execution-plan-unknown-step"
    ("execution plan edge '" +:+ from_step e +:+ "' -> '" +:+ to_step e +:+ "' references step '"
     +:+ missing +:+ "', which does not exist in steps").

Definition type_of (graph : ExecutionGraph) (step_id : string) : option string :=
  step_type_name <$> steps graph !! step_id.

Definition routing_feature (graph : ExecutionGraph) (e : ExecutionPlanEdge) : UnsupportedWorkflowFeature :=
  feature_of (from_step e) (type_of graph (from_step e)) "execution-plan-routing"
    "direct emitter currently lowers only a single entry Finish or Error step, pure Conditional true/false trees, normal Filter/value Switch/GroupBy/Delay/WaitForSignal/Log edges, and routing Switch dispatch trees ending in Finish/Error leaves".

(** The steps by their ids. *)
Definition step_values (graph : ExecutionGraph) : list (string * Step) :=
  merge_sort key_le (map_to_list (steps graph)).

Definition finish_step_ids (graph : ExecutionGraph) : list string :=
  omap (λ s, match s.2 with Finish _ => Some s.1 | _ => None end) (step_values graph).

Definition edge_condition_route_shape_supported (graph : ExecutionGraph) (step_id : string) : bool :=
  match steps graph !! step_id with
  | Some (Filter _) | Some (GroupBy _) | Some (Log _) | Some (Agent _) | Some (Delay _)
  | Some (WaitForSignal _) => true
  | Some (Switch s) => negb (match switch_config s with Some c => is_routing c | None => false end)
  | _ => false
  end
  && (let outgoing_condition_edges := filter (λ e, edge_has_condition e.2 = true) (outgoing graph step_id) in
      negb (bool_decide (outgoing_condition_edges = []))
      && forallb (λ e, is_normal_flow_edge e.2) outgoing_condition_edges)
  && (let edges := support_normal_flow_edges graph step_id in
      (0 <? length (filter (λ e, edge_has_condition e.2 = true) edges))
      && (length (filter (λ e, edge_has_condition e.2 = false) edges) =? 1)).

Definition unsupported_step (step_id : string) (step : Step) (feature reason : string) :
  UnsupportedWorkflowFeature := feature_of step_id (Some (step_type_name step)) feature reason.

Section report.
Context (rec : DirectSupportChildWorkflows → ExecutionGraph → list string → list string → bool →
               string → Walk → walked)
  (children : DirectSupportChildWorkflows).

(** The checks of an edge's condition and of an [onError] edge. *)
Definition edge_features (graph : ExecutionGraph) (e : ExecutionPlanEdge) : found :=
  match steps graph !! from_step e with
  | None => Some []
  | Some step =>
      let is_on_error := bool_decide (label e = Some "onError") in
      let shape :=
        if is_on_error then on_error_route_shape_supported rec graph (from_step e)
        else Some (edge_condition_route_shape_supported graph (from_step e)) in
      match shape with
      | None => None
      | Some shape =>
          let type := Some (step_type_name step) in
          Some
            ((if edge_has_condition e && negb shape then
                [feature_of (from_step e) type "edge-condition"
                   (if is_on_error
                    then "direct emitter supports onError edge conditions only for Agent, AiAgent, EmbedWorkflow, Split, While, and WaitForSignal sources with at most one default fallback"
                    else "direct emitter supports edge-condition routing only for normal/next edges with exactly one default fallback")]
              else []) ++
             (if is_on_error && negb shape then
                [feature_of (from_step e) type "error-handler-edge"
                   "direct onError routing currently supports Agent, AiAgent, EmbedWorkflow, Split, While, and WaitForSignal sources with at most one default handler"]
              else []))
      end
  end.

Definition collect_embed_workflow_step_unsupported (step_id : string) : found :=
  let push feature reason := [feature_of step_id (Some "EmbedWorkflow") feature reason] in
  match by_step_id children !! step_id with
  | None =>
      Some (push "embed-workflow-missing-child"
        "direct EmbedWorkflow lowering requires a preloaded static child graph for this call-site")
  | Some child =>
      if child_closure_has_cycle children step_id then
        Some (push "embed-workflow-child-cycle"
          "static EmbedWorkflow child closures must be acyclic for direct inline lowering")
      else
        match supports_direct_control_graph_inner rec children [step_id] child with
        | None => None
        | Some true => Some []
        | Some false =>
            Some (push "embed-workflow-child-unsupported"
              "the embedded child workflow does not compile on its own (it is not directly-lowerable); compile the child workflow directly to see its specific failure — this is not a problem with the parent's EmbedWorkflow step")
        end
  end.

(** [collect_step_support], over [collect_graph_support_inner] of a nested graph or child. *)
Definition collect_step_support (collect : ExecutionGraph → found) (graph : ExecutionGraph)
  (direct_control : bool) (s : string * Step) : found :=
  let '(id, step) := s in
  let unless feature reason := Some (if direct_control then [] else [unsupported_step id step feature reason]) in
  match step with
  | Finish _ | Agent _ | Delay _ => Some []
  | Conditional _ =>
      unless "conditional" "Conditional steps require stdlib condition evaluation and branch lowering"
  | Filter _ => unless "filter" "Filter steps require stdlib condition evaluation over array items"
  | GroupBy _ => unless "group-by" "GroupBy steps require stdlib grouping semantics"
  | Log _ => unless "log-event" "Log steps require runtime custom-event support"
  | Error _ => unless "explicit-error" "Error steps require runtime failure envelope support"
  | Switch sw =>
      if match switch_config sw with Some c => is_routing c | None => false end
      then unless "switch-routing" "Routing Switch steps require direct route dispatch lowering"
      else unless "switch" "Switch steps require value-switch stdlib lowering"
  | Split s => collect (split_subgraph s)
  | While s => collect (while_subgraph s)
  | EmbedWorkflow _ =>
      match supports_embed_workflow_step_baseline rec children [] id with
      | None => None
      | Some ok =>
          match by_step_id children !! id with
          | Some child => if ok : bool then collect child else collect_embed_workflow_step_unsupported id
          | None => collect_embed_workflow_step_unsupported id
          end
      end
  | WaitForSignal w =>
      match on_wait w with
      | None => Some []
      | Some g =>
          match supports_direct_control_graph rec children g with
          | None => None
          | Some ok =>
              found_app
                (Some (if ok : bool then [] else
                   [feature_of id (Some "WaitForSignal") "wait-for-signal-on-wait-shape"
                      "WaitForSignal onWait subgraphs must use a direct-control supported shape"]))
                (collect g)
          end
      end
  | AiAgent s =>
      match supports_ai_agent_step_baseline rec children graph id s with
      | None => None
      | Some true => Some []
      | Some false =>
          Some [unsupported_step id step "ai-agent"
            ("AiAgent step configuration is not lowerable: config must be present; mcp.* edges must target Agent steps with agentId " +:+ dquote +:+ "mcp" +:+ dquote +:+ "; the memory edge must target an Agent step and match config.memory; tool edges must target Agent steps, compilable EmbedWorkflow steps, or WaitForSignal steps")]
      end
  end.

Definition collect_graph_of (collect : ExecutionGraph → found) (graph : ExecutionGraph) : found :=
  match supports_direct_control_graph rec children graph with
  | None => None
  | Some direct_control =>
      let dangling := filter (is_dangling graph) (execution_plan graph) in
      let cascade_suppressed := negb (bool_decide (dangling = [])) in
      let finishes := finish_step_ids graph in
      found_app (Some
        ((dangling_feature graph <$> dangling) ++
         (if negb direct_control && negb cascade_suppressed
          then routing_feature graph <$> execution_plan graph else []) ++
         (if (1 <? length finishes) && negb direct_control && negb cascade_suppressed
          then (λ id, feature_of id (Some "Finish") "multiple-finish-steps"
                        "direct emitter currently lowers only the entry Finish step") <$> finishes
          else [])))
      (found_app (found_all (edge_features graph) (execution_plan graph))
         (found_all (collect_step_support collect graph (direct_control || cascade_suppressed))
            (step_values graph)))
  end.
End report.

(** [collect_graph_support_inner]; the durability it passes down is not read. *)
Fixpoint collect_graph_support_inner (fuel : nat) (children : DirectSupportChildWorkflows)
  (graph : ExecutionGraph) : found :=
  match fuel with
  | O => None
  | S fuel =>
      collect_graph_of (supports_direct_control_step_inner fuel) children
        (collect_graph_support_inner fuel children) graph
  end.

Definition feature_compare (left right : UnsupportedWorkflowFeature) : comparison :=
  then_compare (String.compare (default "" (uf_step_id left)) (default "" (uf_step_id right)))
  (then_compare (String.compare (default "" (uf_step_type left)) (default "" (uf_step_type right)))
     (String.compare (uf_feature left) (uf_feature right))).

Definition feature_le (left right : UnsupportedWorkflowFeature) : Prop := feature_compare left right ≠ Gt.

#[export] Instance feature_le_dec : RelDecision feature_le.
Proof. intros x y. unfold feature_le. apply _. Defined.

Definition duplicate_feature (step_id : string) : UnsupportedWorkflowFeature :=
  feature_of step_id (Some "EmbedWorkflow") "embed-workflow-duplicate-child"
    "direct EmbedWorkflow lowering requires exactly one preloaded child graph per call-site step id".

Definition analyze_direct_wasm_support_inner (fuel : nat) (graph : ExecutionGraph)
  (children : DirectSupportChildWorkflows) : option DirectWorkflowSupportReport :=
  let embeds := embed_workflow_step_ids_with_child_workflows graph children in
  let duplicates := duplicate_feature <$>
    filter (λ id, id ∈ embeds) (sorted (elements (duplicate_step_ids children))) in
  match found_app (Some duplicates) (collect_graph_support_inner fuel children graph) with
  | None => None
  | Some features =>
      let features := merge_sort feature_le features in
      Some {| supported := bool_decide (features = []); unsupported := features;
              feature_summary := analyze_workflow_features graph |}
  end.

Definition analyze_direct_wasm_support (fuel : nat) (graph : ExecutionGraph) :
  option DirectWorkflowSupportReport :=
  analyze_direct_wasm_support_inner fuel graph no_children.

Definition analyze_direct_wasm_support_with_child_workflows (fuel : nat) (graph : ExecutionGraph)
  (children : list DirectManifestChildWorkflowInput) : option DirectWorkflowSupportReport :=
  analyze_direct_wasm_support_inner fuel graph (from_child_workflows children).
