(* ===== verification/DirectSupportProperties.v ===== *)
(** * What the support gate guarantees

    A graph the gate accepts has no edge that leads nowhere, every step of it is reached
    from the entry, and every edge is one the compiler lowers, or lies behind the error
    handler of an error handler, which is never lowered.  Where there are no such handlers
    and no AI tools, the control flow has no cycle. *)

From S2P Require Import Prelude.
From S2P Require Import Json.
From S2P Require Import Text.
From S2P Require Import ValidationBase.
From S2P Require Import GraphOrder.
From S2P Require Import Dsl.
From S2P Require Import WorkflowFeatures.
From S2P Require Import DirectManifest.
From S2P Require Import DirectSupport.

Local Open Scope nat_scope.

(** ** Edges *)

Definition plan_edge (g : ExecutionGraph) (x y : string) : Prop :=
  ∃ e, e ∈ execution_plan g ∧ from_step e = x ∧ to_step e = y.

Definition is_on_error (e : ExecutionPlanEdge) : Prop := label e = Some "onError".

(** A step of an error handler. *)
Definition in_handler (g : ExecutionGraph) (x : string) : Prop :=
  ∃ e, e ∈ execution_plan g ∧ is_on_error e ∧ rtc (plan_edge g) (to_step e) x.

(** A step behind the error handler of a step of an error handler. *)
Definition in_nested_handler (g : ExecutionGraph) (x : string) : Prop :=
  ∃ e, e ∈ execution_plan g ∧ is_on_error e ∧ in_handler g (from_step e) ∧
    rtc (plan_edge g) (to_step e) x.

(** What the compiler lowers, by the kind of the step an edge leaves. *)
Definition lowered (g : ExecutionGraph) (e : ExecutionPlanEdge) : Prop :=
  match steps g !! from_step e with
  | None | Some (Finish _) | Some (Error _) => False
  | Some (Conditional _) => condition e = None ∧ (label e = Some "true" ∨ label e = Some "false")
  | Some (Filter _) | Some (GroupBy _) | Some (Delay _) | Some (Log _) => is_normal_flow_edge e = true
  | Some (Switch s) =>
      match switch_config s with
      | Some c =>
          if is_routing c then condition e = None ∧ ∃ l, label e = Some l ∧ l ∈ expected_labels c
          else is_normal_flow_edge e = true
      | None => is_normal_flow_edge e = true
      end
  | Some (Split _) | Some (While _) | Some (WaitForSignal _) | Some (EmbedWorkflow _) | Some (Agent _) =>
      is_normal_flow_edge e = true ∨ is_on_error e
  | Some (AiAgent _) => True
  end.

Lemma outgoing_spec g id i e :
  (i, e) ∈ outgoing g id ↔ execution_plan g !! i = Some e ∧ from_step e = id.
Proof.
  unfold outgoing, enumerated. rewrite list_elem_of_filter, elem_of_lookup_imap. simpl. split.
  - intros [Hf (j & e' & [= -> ->] & He)]. done.
  - intros [He Hf]. split; [done|]. by exists i, e.
Qed.

Lemma outgoing_edge g id p : p ∈ outgoing g id → plan_edge g id (to_step p.2).
Proof.
  destruct p as [i e]. intros [He Hf]%outgoing_spec. exists e. split; [|done].
  by eapply list_elem_of_lookup_2.
Qed.

(** ** What every walk keeps *)

Section walk.
Context (g : ExecutionGraph).

Local Abbreviation reaches := (rtc (plan_edge g)).

(** An edge that may be marked. *)
Definition markable (p : nat * ExecutionPlanEdge) : Prop :=
  execution_plan g !! p.1 = Some p.2 ∧ (lowered g p.2 ∨ in_nested_handler g (from_step p.2)).

Record walk_ok (w : Walk) : Prop := {
  ok_reachable x : x ∈ reachable w → reaches (entry_point g) x;
  ok_used i : i ∈ used_edges w → ∃ e, markable (i, e) }.

Definition keeps (x : walked) : Prop := ∀ b w, x = Some (b, w) → walk_ok w.

Lemma keeps_some b w : walk_ok w → keeps (Some (b, w)).
Proof. by intros Hw b' w' [= <- <-]. Qed.

Lemma use_ok p w : markable p → walk_ok w → walk_ok (use p.1 w).
Proof.
  intros Hp [Hr Hu]. split; [done|]. intros i [->%elem_of_singleton|Hi]%elem_of_union; [|by apply Hu].
  exists p.2. by destruct p.
Qed.

Lemma reach_ok x w : reaches (entry_point g) x → walk_ok w → walk_ok (reach x w).
Proof.
  intros Hx [Hr Hu]. split; [|done]. intros y [->%elem_of_singleton|Hy]%elem_of_union; auto.
Qed.

Lemma uses_ok l w : (∀ p, p ∈ l → markable p) → walk_ok w → walk_ok (uses l w).
Proof.
  revert w. induction l as [|p l IH]; intros w Hl Hw; [done|]. simpl. apply IH.
  - intros q Hq. apply Hl. by right.
  - apply use_ok; [apply Hl; left|done].
Qed.

Lemma visit_targets_ok visit l w :
  (∀ p, p ∈ l → markable p) →
  (∀ p w, p ∈ l → walk_ok w → keeps (visit (to_step p.2) w)) →
  walk_ok w → keeps (visit_targets visit l w).
Proof.
  revert w. induction l as [|[i e] l IH]; intros w Hl Hv Hw; [by apply keeps_some|]. simpl.
  assert (Hi : walk_ok (use i w)) by (apply (use_ok (i, e)); [apply Hl; left|done]).
  pose proof (Hv (i, e) _ ltac:(left) Hi) as Hk. simpl in Hk.
  destruct (visit (to_step e) (use i w)) as [[b w1]|]; [|by intros ? ?].
  assert (Hk' : keeps (visit_targets visit l w1)).
  { apply IH; [..|by apply (Hk b)]; intros; [apply Hl|apply Hv]; try done; by right. }
  destruct (visit_targets visit l w1) as [[b' w2]|]; [|by intros ? ?].
  apply keeps_some. by eapply Hk'.
Qed.

(** Dead edges *)
Lemma nested_handler_edge x y : in_nested_handler g x → plan_edge g x y → in_nested_handler g y.
Proof.
  intros (e & He & Ho & Hh & Hx) Hxy. exists e. split; [done|]. split; [done|]. split; [done|]. by eapply rtc_r.
Qed.

Lemma mark_dead_loop_ok fuel queue w w' :
  (∀ x, x ∈ queue → in_nested_handler g x ∧ reaches (entry_point g) x) →
  walk_ok w → mark_dead_loop fuel g queue w = Some w' → walk_ok w'.
Proof.
  revert queue w. induction fuel as [|fuel IH]; intros [|x queue] w Hq Hw Hm; simpl in Hm; try done;
    [by injection Hm as <-..|].
  destruct (Hq x ltac:(left)) as [Hx Hrx]. case_decide.
  - eapply IH; [|exact Hw|exact Hm]. intros y Hy. apply Hq. by right.
  - eapply IH; [| |exact Hm].
    + intros y [Hy|Hy]%elem_of_app; [|apply Hq; by right].
      apply list_elem_of_In, in_rev, list_elem_of_In, list_elem_of_fmap in Hy as (p & -> & Hp%outgoing_edge).
      split; [by eapply nested_handler_edge|by eapply rtc_r].
    + apply uses_ok; [|by apply reach_ok]. intros [i e] [He <-]%outgoing_spec. split; [done|]. by right.
Qed.

Lemma mark_dead_ok x w :
  in_nested_handler g x → reaches (entry_point g) x → walk_ok w →
  walk_ok (mark_dead_subgraph_reachable g x w).
Proof.
  intros Hx Hr Hw. unfold mark_dead_subgraph_reachable.
  destruct (mark_dead_loop _ _ _ _) as [w'|] eqn:Hm; [|done]. simpl.
  eapply mark_dead_loop_ok; [|exact Hw|exact Hm].
  intros y Hy. by apply list_elem_of_singleton in Hy as ->.
Qed.

Lemma mark_inert_ok x w :
  in_handler g x → reaches (entry_point g) x → walk_ok w →
  (∀ p, p ∈ support_on_error_edges g x → markable p) →
  walk_ok (mark_inert_on_error_edges g x w).
Proof.
  intros Hh Hx Hw Hmark. unfold mark_inert_on_error_edges.
  assert (Hall : ∀ p, p ∈ support_on_error_edges g x →
    markable p ∧ in_nested_handler g (to_step p.2) ∧ reaches (entry_point g) (to_step p.2)).
  { intros p Hp. split; [by apply Hmark|]. apply list_elem_of_filter in Hp as [Hl Hp].
    pose proof (outgoing_edge _ _ _ Hp) as Hed. split; [|by eapply rtc_r].
    destruct p as [i e]. apply outgoing_spec in Hp as [He <-]. exists e.
    split; [by eapply list_elem_of_lookup_2|]. split; [done|]. split; [done|apply rtc_refl]. }
  clear Hmark. revert w Hw. induction (support_on_error_edges g x) as [|p l IH]; intros w Hw; [done|].
  simpl. apply IH; [intros q Hq; apply Hall; by right|].
  destruct (Hall p ltac:(left)) as (Hm & Hn & Hr). apply mark_dead_ok; [done..|]. by apply use_ok.
Qed.
End walk.

Lemma normal_markable g id step p :
  steps g !! id = Some step → is_branching_step step = false →
  (match step with Finish _ | Error _ => false | _ => true end) = true →
  p ∈ support_normal_flow_edges g id → markable g p.
Proof.
  destruct p as [i e]. intros Hs Hb Hk [Hn [He <-]%outgoing_spec]%list_elem_of_filter.
  split; [done|]. left. unfold lowered. cbn [snd]. rewrite Hs.
  destruct step as [| | | |s| | | | | | | | |]; try done; try by left.
  simpl in Hb. destruct (switch_config s) as [c|]; [|done]. by rewrite Hb.
Qed.

(** The kinds of steps with error handlers. *)
Definition can_fail (step : Step) : bool :=
  match step with
  | Split _ | While _ | WaitForSignal _ | EmbedWorkflow _ | Agent _ | AiAgent _ => true
  | _ => false
  end.

Lemma on_error_markable g id step p :
  steps g !! id = Some step → can_fail step = true → p ∈ support_on_error_edges g id → markable g p.
Proof.
  destruct p as [i e]. intros Hs Hk [Hn [He <-]%outgoing_spec]%list_elem_of_filter.
  split; [done|]. left. unfold lowered. cbn [snd]. rewrite Hs. destruct step; try done; by right.
Qed.

Lemma conditional_edges_spec edges t f t' f' :
  conditional_edges_of edges t f = Some (t', f') →
  (∀ p, (t' = Some p ∨ f' = Some p) → (t = Some p ∨ f = Some p) ∨ p ∈ edges) ∧
  (∀ p, p ∈ edges → (t' = Some p ∨ f' = Some p) ∧ condition p.2 = None ∧
     (label p.2 = Some "true" ∨ label p.2 = Some "false")) ∧
  (∀ p, t = Some p → t' = Some p) ∧ (∀ p, f = Some p → f' = Some p).
Proof.
  revert t f. induction edges as [|p edges IH]; intros t f Hc; simpl in Hc.
  { injection Hc as <- <-. split; [tauto|]. split; [intros p Hp; by apply not_elem_of_nil in Hp|done]. }
  unfold edge_has_condition, is_set in Hc. case_bool_decide as Hcond; [done|].
  assert (Hnone : condition p.2 = None) by (by apply eq_None_not_Some).
  case_decide as Ht; [|case_decide as Hf; [|done]]; apply IH in Hc as (H1 & H2 & H3 & H4).
  - destruct Ht as [Hl ->]. split; [|split; [|split]].
    + intros q Hq. destruct (H1 q Hq) as [[[= ->]|Hq']|Hq']; [right; left|left; by right|right; by right].
    + intros q [->|Hq]%elem_of_cons; [|by apply H2]. split; [left; by apply H3|]. split; [done|by left].
    + done.
    + done.
  - destruct Hf as [Hl ->]. split; [|split; [|split]].
    + intros q Hq. destruct (H1 q Hq) as [[Hq'|[= ->]]|Hq']; [left; by left|right; left|right; by right].
    + intros q [->|Hq]%elem_of_cons; [|by apply H2]. split; [right; by apply H4|]. split; [done|by right].
    + done.
    + done.
Qed.

Lemma labeled_edges_spec expected edges m m' :
  labeled_edges_of expected edges m = Some m' →
  (∀ l p, m' !! l = Some p → m !! l = Some p ∨
     (p ∈ edges ∧ condition p.2 = None ∧ label p.2 = Some l ∧ l ∈ expected)) ∧
  (∀ p, p ∈ edges → ∃ l, m' !! l = Some p ∧ l ∈ expected) ∧
  (∀ l p, m !! l = Some p → m' !! l = Some p).
Proof.
  revert m. induction edges as [|p edges IH]; intros m Hc; simpl in Hc.
  { injection Hc as <-. split; [auto|]. split; [intros p Hp; by apply not_elem_of_nil in Hp|done]. }
  unfold edge_has_condition, is_set in Hc. case_bool_decide as Hcond; [done|].
  assert (Hnone : condition p.2 = None) by (by apply eq_None_not_Some).
  destruct (label p.2) as [l|] eqn:Hl; [|done]. case_decide as Hin; [|done].
  destruct (m !! l) as [?|] eqn:Hm; [done|]. apply IH in Hc as (H1 & H2 & H3). split; [|split].
  - intros l' q Hq. destruct (H1 l' q Hq) as [Hq'|(Hq' & Hrest)]; [|right; split; [by right|done]].
    apply lookup_insert_Some in Hq' as [[<- <-]|[_ Hq']]; [|by left]. right. split; [left|done].
  - intros q [->|Hq]%elem_of_cons; [|by apply H2]. exists l. split; [|done]. apply H3. apply lookup_insert_eq.
  - intros l' q Hq. apply H3. rewrite lookup_insert_ne; [done|]. intros <-. congruence.
Qed.

Section round.
Context (g : ExecutionGraph)
  (rec : DirectSupportChildWorkflows → ExecutionGraph → list string → list string → bool →
         string → Walk → walked)
  (children : DirectSupportChildWorkflows) (cs : list string).
Hypothesis rec_ok : ∀ stack ioe id w,
  rtc (plan_edge g) (entry_point g) id → (ioe = false → in_handler g id) → walk_ok g w →
  keeps g (rec children g cs stack ioe id w).

Context (stack : list string) (ioe : bool) (id : string).
Hypothesis id_reached : rtc (plan_edge g) (entry_point g) id.
Hypothesis id_handler : ioe = false → in_handler g id.

Lemma targets_ok l w :
  (∀ p, p ∈ l → markable g p ∧ p ∈ outgoing g id) → walk_ok g w →
  keeps g (visit_targets (rec children g cs (stack ++ [id]) ioe) l w).
Proof.
  intros Hl Hw. apply visit_targets_ok; [by intros p [? _]%Hl| |done].
  intros p w' [_ Hp%outgoing_edge]%Hl Hw'. apply rec_ok; [by eapply rtc_r| |done].
  intros (e & He & Ho & Hh)%id_handler. exists e. split; [done|]. split; [done|]. by eapply rtc_r.
Qed.

Lemma normal_flow_ok step w :
  steps g !! id = Some step → is_branching_step step = false →
  (match step with Finish _ | Error _ => false | _ => true end) = true → walk_ok g w →
  keeps g (supports_normal_flow_step rec children g cs stack ioe id w).
Proof.
  intros Hs Hb Hk Hw.
  assert (Hall : ∀ p, p ∈ support_normal_flow_edges g id → markable g p ∧ p ∈ outgoing g id).
  { intros p Hp. split; [by eapply normal_markable|]. by apply list_elem_of_filter in Hp as [_ Hp]. }
  unfold supports_normal_flow_step.
  destruct (support_normal_flow_edges g id) as [|e0 es] eqn:Hedges; [by apply keeps_some|].
  rewrite <-Hedges in *. clear Hedges.
  destruct (filter (λ e, edge_has_condition e.2 = true) _) as [|c cs'] eqn:Hc.
  - destruct (filter (λ e, edge_has_condition e.2 = false) _) as [|d ds] eqn:Hd; [by apply keeps_some|].
    rewrite <-Hd. apply targets_ok; [|done]. intros p [_ Hp]%list_elem_of_filter. by apply Hall.
  - destruct (filter (λ e, edge_has_condition e.2 = false) _) as [|d [|]] eqn:Hd;
      [by apply keeps_some| |by apply keeps_some].
    apply targets_ok; [|done]. intros p [Hp|Hp]%elem_of_app; apply Hall.
    + rewrite <-Hc in Hp. by apply list_elem_of_filter in Hp as [_ Hp].
    + rewrite <-Hd in Hp. by apply list_elem_of_filter in Hp as [_ Hp].
Qed.

Lemma on_error_ok step w :
  steps g !! id = Some step → can_fail step = true → walk_ok g w →
  keeps g (on_error_supported_or_inert rec children g cs stack ioe id w).
Proof.
  intros Hs Hk Hw. unfold on_error_supported_or_inert. destruct ioe.
  - unfold supports_on_error_flow_step.
    destruct (support_on_error_edges g id) as [|e0 es] eqn:Hedges; [by apply keeps_some|].
    rewrite <-Hedges in *. clear Hedges.
    destruct (on_error_route_shape_supported rec g id) as [[]|]; [|by apply keeps_some|by intros ? ?].
    apply visit_targets_ok; [by intros; eapply on_error_markable| |done].
    intros [i e] w' [Ho Hp]%list_elem_of_filter Hw'. pose proof (outgoing_edge _ _ _ Hp) as Hed.
    apply rec_ok; [by eapply rtc_r| |done]. intros _. apply outgoing_spec in Hp as [He _].
    exists e. split; [by eapply list_elem_of_lookup_2|]. split; [done|apply rtc_refl].
  - apply keeps_some, mark_inert_ok; [by apply id_handler|done|done|].
    intros p Hp. by eapply on_error_markable.
Qed.

Lemma both_ok step w :
  steps g !! id = Some step → can_fail step = true → walk_ok g w →
  keeps g (and_also (supports_normal_flow_step rec children g cs stack ioe id w)
             (on_error_supported_or_inert rec children g cs stack ioe id)).
Proof.
  intros Hs Hk Hw.
  assert (Hn : keeps g (supports_normal_flow_step rec children g cs stack ioe id w))
    by (eapply normal_flow_ok; [exact Hs|by destruct step..|done]).
  destruct (supports_normal_flow_step _ _ _ _ _ _ _ _) as [[[] w']|]; [|done..]. simpl.
  eapply on_error_ok; [exact Hs|done|]. by eapply Hn.
Qed.

Lemma if_supported_ok guard w body : walk_ok g w → keeps g (body w) → keeps g (if_supported guard w body).
Proof. intros Hw Hb. destruct guard as [[]|]; [done|by apply keeps_some|by intros ? ?]. Qed.

Lemma one_step_ok w : walk_ok g w → keeps g (supports_one_step rec children g cs stack ioe id w).
Proof.
  intros Hw. unfold supports_one_step. case_decide; [by apply keeps_some|].
  case_decide as Hnew; [by apply keeps_some|]. clear Hnew.
  destruct (steps g !! id) as [step|] eqn:Hs; [|by apply keeps_some].
  apply (reach_ok g id) in Hw; [|done]. revert Hw. generalize (reach id w) as w'. clear w. intros w Hw.
  destruct step as [| | | |s| | | | | | | | |s] eqn:Hstep; simpl;
    try (by apply keeps_some); try (by eapply normal_flow_ok);
    try (apply if_supported_ok; [done|]); try (by eapply both_ok).
  - unfold supports_conditional_step.
    destruct (conditional_edges_of _ _ _) as [[[t|] [f|]]|] eqn:Hc; try (by apply keeps_some).
    apply conditional_edges_spec in Hc as (H1 & H2 & _).
    assert (Hall : ∀ p, p ∈ [t; f] → markable g p ∧ p ∈ outgoing g id).
    { intros p Hp. assert (Hin : p ∈ outgoing g id).
      { destruct (H1 p) as [[|]|]; [|done..]. apply elem_of_cons in Hp as [->| ->%list_elem_of_singleton]; auto. }
      split; [|done]. destruct (H2 p Hin) as (_ & Hn & Hl). destruct p as [i e].
      apply outgoing_spec in Hin as [He Hf]. split; [done|]. left. unfold lowered. cbn [snd]. simpl in Hf.
      rewrite Hf, Hs. done. }
    apply targets_ok; [done|]. apply uses_ok; [|done]. by intros p [? _]%Hall.
  - destruct (switch_config s) as [c|] eqn:Hcfg; [destruct (is_routing c) eqn:Hr|];
      try (eapply normal_flow_ok; [exact Hs|simpl; by rewrite Hcfg, ?Hr|done|done]).
    unfold supports_routing_switch_step.
    destruct (labeled_edges_of _ _ _) as [m|] eqn:Hm; [|by apply keeps_some].
    case_match; [by apply keeps_some|]. apply labeled_edges_spec in Hm as (H1 & _).
    apply targets_ok; [|done]. intros p (l & _ & Hl)%list_elem_of_omap.
    destruct (H1 l p Hl) as [Hno|(Hin & Hn & Hlab & Hexp)]; [by rewrite lookup_empty in Hno|].
    split; [|done]. destruct p as [i e]. apply outgoing_spec in Hin as [He Hf]. split; [done|]. left.
    unfold lowered. cbn [snd]. simpl in Hf. rewrite Hf, Hs, Hcfg, Hr. eauto.
  - eapply both_ok; [exact Hs|done|].
    set (tools := filter _ (outgoing g id)).
    assert (Htools : ∀ p, p ∈ tools → markable g p ∧ plan_edge g id (to_step p.2)).
    { intros p [_ Hp]%list_elem_of_filter. split; [|by apply outgoing_edge].
      destruct p as [i e]. apply outgoing_spec in Hp as [He Hf]. split; [done|]. left.
      unfold lowered. cbn [snd]. by rewrite Hf, Hs. }
    clearbody tools. revert w Hw. induction tools as [|p tools IH]; intros w Hw; [done|]. simpl.
    destruct (Htools p ltac:(left)) as [Hp Hed].
    apply IH; [intros q Hq; apply Htools; by right|]. apply reach_ok; [by eapply rtc_r|]. by apply use_ok.
Qed.
End round.

(** Every walk of a graph marks only what it may. *)
Lemma walk_keeps fuel g children cs stack ioe id w :
  rtc (plan_edge g) (entry_point g) id → (ioe = false → in_handler g id) → walk_ok g w →
  keeps g (supports_direct_control_step_inner fuel children g cs stack ioe id w).
Proof.
  revert stack ioe id w. induction fuel as [|fuel IH]; intros stack ioe id w Hid Hh Hw; [by intros ? ?|].
  simpl. apply one_step_ok; try done.
Qed.

(** ** Accepted graphs *)

Lemma found_app_nil x y : found_app x y = Some [] → x = Some [] ∧ y = Some [].
Proof. destruct x as [x|], y as [y|]; simpl; try done. by intros [= [-> ->]%app_eq_nil]. Qed.

(** What a report without features says of the graph itself. *)
Lemma report_accepts fuel g cs r :
  analyze_direct_wasm_support_with_child_workflows fuel g cs = Some r → supported r = true →
  execution_plan g ≠ [] →
  (∀ e, e ∈ execution_plan g → is_Some (steps g !! from_step e) ∧ is_Some (steps g !! to_step e)) ∧
  ∃ fuel', supports_direct_control_graph (supports_direct_control_step_inner fuel')
             (from_child_workflows cs) g = Some true.
Proof.
  intros Hr Hs Hplan. unfold analyze_direct_wasm_support_with_child_workflows, analyze_direct_wasm_support_inner in Hr.
  destruct (found_app _ _) as [features|] eqn:Hf; [|done]. injection Hr as <-. simpl in Hs.
  apply bool_decide_eq_true in Hs.
  assert (features = []) as ->.
  { apply Permutation_nil. rewrite <-Hs. apply merge_sort_Permutation. }
  apply found_app_nil in Hf as [_ Hf]. destruct fuel as [|fuel]; [done|]. simpl in Hf.
  unfold collect_graph_of in Hf.
  destruct (supports_direct_control_graph _ _ _) as [dc|] eqn:Hdc; [|done].
  apply found_app_nil in Hf as [Hf _]. injection Hf as Hf.
  apply app_eq_nil in Hf as [Hdang Hf]. apply app_eq_nil in Hf as [Hrout _].
  apply fmap_nil_inv in Hdang. rewrite bool_decide_true in Hrout by done. simpl in Hrout.
  destruct dc; [|by apply fmap_nil_inv in Hrout]. split; [|by exists fuel].
  intros e He. assert (Hn : ¬ is_dangling g e).
  { intros Hd. assert (Hin : e ∈ filter (is_dangling g) (execution_plan g)) by (by apply list_elem_of_filter).
    rewrite Hdang in Hin. by apply not_elem_of_nil in Hin. }
  rewrite <-!not_eq_None_Some. unfold is_dangling in Hn. tauto.
Qed.

(** The walk behind an accepted graph. *)
Lemma control_graph_walk rec children cs g :
  supports_direct_control_graph_inner rec children cs g = Some true →
  ∃ w, rec children g cs [] true (entry_point g) {| reachable := ∅; used_edges := ∅ |} = Some (true, w) ∧
    size (reachable w) = size (steps g) ∧ size (used_edges w) = length (execution_plan g).
Proof.
  unfold supports_direct_control_graph_inner. case_match; [done|].
  destruct (rec _ _ _ _ _ _ _) as [[b w]|]; [|done]. intros [= [[-> H1]%andb_true_iff H2]%andb_true_iff].
  exists w. split; [done|]. by split; apply Nat.eqb_eq.
Qed.

Lemma start_ok g : walk_ok g {| reachable := ∅; used_edges := ∅ |}.
Proof. by split. Qed.

Lemma entry_known fuel children cs g w :
  supports_direct_control_step_inner fuel children g cs [] true (entry_point g)
    {| reachable := ∅; used_edges := ∅ |} = Some (true, w) → is_Some (steps g !! entry_point g).
Proof.
  intros Hwalk. destruct fuel as [|fuel]; [done|]. simpl in Hwalk.
  unfold supports_one_step in Hwalk. simpl in Hwalk.
  rewrite decide_False in Hwalk by apply not_elem_of_empty.
  by destruct (steps g !! entry_point g).
Qed.

(** All steps are reached and all edges marked. *)
Lemma walk_covers fuel children cs g w :
  (∀ e, e ∈ execution_plan g → is_Some (steps g !! from_step e) ∧ is_Some (steps g !! to_step e)) →
  supports_direct_control_step_inner fuel children g cs [] true (entry_point g)
    {| reachable := ∅; used_edges := ∅ |} = Some (true, w) →
  size (reachable w) = size (steps g) → size (used_edges w) = length (execution_plan g) →
  reachable w = dom (steps g) ∧ used_edges w = set_seq 0 (length (execution_plan g)).
Proof.
  intros Hdang Hwalk Hr Hu.
  pose proof (walk_keeps fuel g children cs [] true (entry_point g) _ (rtc_refl _ _) ltac:(done) (start_ok g)
                true w Hwalk) as [Hreach Hused].
  pose proof (entry_known _ _ _ _ _ Hwalk) as Hentry.
  split; apply set_subseteq_size_eq.
  - intros x Hx. apply elem_of_dom. destruct (rtc_inv_r _ _ (Hreach x Hx)) as [<-|(y & _ & e & He & _ & <-)]; [done|].
    by apply Hdang.
  - by rewrite size_dom, Hr.
  - intros i (e & [Hi _])%Hused. apply elem_of_set_seq. simpl in Hi. apply lookup_lt_Some in Hi. lia.
  - by rewrite size_set_seq, Hu.
Qed.

(** The edges of an accepted graph. *)
Lemma accepted_covers fuel children g :
  (∀ e, e ∈ execution_plan g → is_Some (steps g !! from_step e) ∧ is_Some (steps g !! to_step e)) →
  supports_direct_control_graph (supports_direct_control_step_inner fuel) children g = Some true →
  is_Some (steps g !! entry_point g) ∧
  (∀ id, is_Some (steps g !! id) → rtc (plan_edge g) (entry_point g) id) ∧
  (∀ e, e ∈ execution_plan g → lowered g e ∨ in_nested_handler g (from_step e)).
Proof.
  intros Hdang Hacc. destruct (control_graph_walk _ _ _ _ Hacc) as (w & Hwalk & Hsize & Husize).
  destruct (walk_covers _ _ _ _ _ Hdang Hwalk Hsize Husize) as [Hall Hused].
  pose proof (walk_keeps fuel g _ [] [] true _ _ (rtc_refl _ _) ltac:(done) (start_ok g)
                true w Hwalk) as [Hreach Hmark].
  split; [by eapply entry_known|]. split.
  - intros id Hid. apply Hreach. by rewrite Hall, elem_of_dom.
  - intros e He. apply list_elem_of_lookup in He as [i Hi].
    destruct (Hmark i) as (e' & Hi' & Hl).
    { rewrite Hused. apply elem_of_set_seq. apply lookup_lt_Some in Hi. lia. }
    simpl in Hi', Hl. by simplify_eq.
Qed.

(** C11: total coverage.  Where the support gate accepts a workflow with edges, no edge
    names an unknown step, every step is reached from the entry along the plan, and every
    edge is of a form the compiler lowers for the step it leaves, or lies behind the error
    handler of an error handler (which is never lowered). *)
Theorem gate_covers_graph fuel g cs r :
  analyze_direct_wasm_support_with_child_workflows fuel g cs = Some r → supported r = true →
  execution_plan g ≠ [] →
  (∀ id, is_Some (steps g !! id) → rtc (plan_edge g) (entry_point g) id) ∧
  (∀ e, e ∈ execution_plan g → is_Some (steps g !! to_step e) ∧
     (lowered g e ∨ in_nested_handler g (from_step e))).
Proof.
  intros Hr Hs Hplan. destruct (report_accepts _ _ _ _ Hr Hs Hplan) as [Hdang [fuel' Hacc]].
  destruct (accepted_covers _ _ _ Hdang Hacc) as (_ & Hreach & Hlow). split; [done|].
  intros e He. split; [by apply Hdang|by apply Hlow].
Qed.

(** ** No cycles *)

(** The edges of the control flow: all that leave a branching step, and the normal flow. *)
Definition control (g : ExecutionGraph) (x y : string) : Prop :=
  ∃ e step, e ∈ execution_plan g ∧ from_step e = x ∧ to_step e = y ∧ steps g !! x = Some step ∧
    (is_branching_step step = true ∨ is_normal_flow_edge e = true).

(** No handlers of handlers, and no tools of AI agents. *)
Record flat (g : ExecutionGraph) : Prop := {
  flat_handlers x : ¬ in_nested_handler g x;
  flat_tools e s : e ∈ execution_plan g → steps g !! from_step e = Some (AiAgent s) →
    label e = None ∨ label e = Some "next" ∨ label e = Some "onError" }.

(** Between two visits: the steps that are finished, each before the steps it leads to,
    and those on the stack. *)
Record finished (g : ExecutionGraph) (done stack : list string) (w : Walk) : Prop := {
  fin_reachable x : x ∈ reachable w ↔ x ∈ done ∨ x ∈ stack;
  fin_disjoint x : x ∈ done → x ∉ stack;
  fin_nodup : NoDup done;
  fin_topo pre x post : done = pre ++ x :: post → ∀ y, control g x y → y ∈ post }.

Section explore.
Context (g : ExecutionGraph) (Hflat : flat g)
  (rec : DirectSupportChildWorkflows → ExecutionGraph → list string → list string → bool →
         string → Walk → walked)
  (children : DirectSupportChildWorkflows) (cs : list string).

Definition explored (done stack : list string) (targets : string → Prop) (x : walked) : Prop :=
  ∀ w, x = Some (true, w) → ∃ done', suffix done done' ∧ finished g done' stack w ∧
    ∀ y, targets y → y ∈ done'.

Hypothesis rec_explores : ∀ stack ioe id w done,
  rtc (plan_edge g) (entry_point g) id → (ioe = false → in_handler g id) → finished g done stack w →
  explored done stack (λ y, y = id) (rec children g cs stack ioe id w).

Lemma explored_none done stack (targets : string → Prop) w :
  finished g done stack w → (∀ y, ¬ targets y) → explored done stack targets (Some (true, w)).
Proof. intros Hf Hn w' [= <-]. exists done. split; [done|]. split; [done|]. by intros y Hy%Hn. Qed.

Lemma explored_false done stack targets w : explored done stack targets (rejected w).
Proof. by intros w' [=]. Qed.

Lemma use_finished done stack i w : finished g done stack w → finished g done stack (use i w).
Proof. intros [H1 H2 H3 H4]. by split. Qed.

Lemma uses_finished done stack l w : finished g done stack w → finished g done stack (uses l w).
Proof. revert w. induction l as [|p l IH]; intros w Hw; [done|]. by apply IH, use_finished. Qed.

Lemma visit_targets_explored visit done stack l w :
  (∀ p w done, p ∈ l → finished g done stack w →
     explored done stack (λ y, y = to_step p.2) (visit (to_step p.2) w)) →
  finished g done stack w →
  explored done stack (λ y, ∃ p, p ∈ l ∧ to_step p.2 = y) (visit_targets visit l w).
Proof.
  revert w done. induction l as [|[i e] l IH]; intros w done Hv Hw.
  { apply explored_none; [done|]. intros y (p & Hp & _). by apply not_elem_of_nil in Hp. }
  intros w' Hx. simpl in Hx.
  destruct (visit (to_step e) (use i w)) as [[b w1]|] eqn:H1; [|done].
  destruct (visit_targets visit l w1) as [[b' w2]|] eqn:H2; [|done].
  injection Hx as [-> ->]%andb_true_iff ->.
  destruct (Hv (i, e) _ _ ltac:(left) (use_finished _ _ i _ Hw) _ H1) as (d1 & Hs1 & Hf1 & Ht1).
  destruct (IH w1 d1 (λ p w d Hp, Hv p w d (list_elem_of_further _ _ _ Hp)) Hf1 w' H2)
    as (d2 & Hs2 & Hf2 & Ht2).
  exists d2. split; [by trans d1|]. split; [done|].
  intros y (p & [->|Hp]%elem_of_cons & <-); [|apply Ht2; by exists p].
  eapply elem_of_suffix; [|exact Hs2]. by apply Ht1.
Qed.

Context (stack : list string) (ioe : bool) (id : string).
Hypothesis id_reached : rtc (plan_edge g) (entry_point g) id.
Hypothesis id_handler : ioe = false → in_handler g id.

Local Abbreviation explores := (λ done x, explored done (stack ++ [id]) (control g id) x).

Lemma explored_weaken done st (P Q : string → Prop) x :
  (∀ y, Q y → P y) → explored done st P x → explored done st Q x.
Proof. intros HPQ Hx w Hw. destruct (Hx w Hw) as (d & ? & ? & Ht). exists d. eauto. Qed.

Lemma targets_explored done l w :
  (∀ p, p ∈ l → p ∈ outgoing g id) → finished g done (stack ++ [id]) w →
  explored done (stack ++ [id]) (λ y, ∃ p, p ∈ l ∧ to_step p.2 = y)
    (visit_targets (rec children g cs (stack ++ [id]) ioe) l w).
Proof.
  intros Hl Hw. apply visit_targets_explored; [|done].
  intros p w' d Hp Hw'. apply Hl, outgoing_edge in Hp. apply rec_explores; [by eapply rtc_r| |done].
  intros (e & He & Ho & Hh)%id_handler. exists e. split; [done|]. split; [done|]. by eapply rtc_r.
Qed.

(** The control flow of a step that does not branch. *)
Lemma control_normal step y :
  steps g !! id = Some step → is_branching_step step = false → control g id y →
  ∃ p, p ∈ support_normal_flow_edges g id ∧ to_step p.2 = y.
Proof.
  intros Hs Hb (e & step' & He & Hf & Ht & Hs' & Hc). simplify_eq. destruct Hc as [Hc|Hn]; [congruence|].
  apply list_elem_of_lookup in He as [i Hi]. exists (i, e). split; [|done].
  apply list_elem_of_filter. split; [done|]. by apply outgoing_spec.
Qed.

Lemma normal_flow_explored step done w :
  steps g !! id = Some step → is_branching_step step = false → finished g done (stack ++ [id]) w →
  explores done (supports_normal_flow_step rec children g cs stack ioe id w).
Proof.
  intros Hs Hb Hw. apply (explored_weaken _ _ (λ y, ∃ p, p ∈ support_normal_flow_edges g id ∧ to_step p.2 = y));
    [by intros y; apply (control_normal step)|].
  assert (Hout : ∀ p, p ∈ support_normal_flow_edges g id → p ∈ outgoing g id)
    by (by intros p [_ Hp]%list_elem_of_filter).
  unfold supports_normal_flow_step.
  destruct (support_normal_flow_edges g id) as [|e0 es] eqn:Hedges.
  { apply explored_none; [done|]. intros y (p & Hp & _). by apply not_elem_of_nil in Hp. }
  rewrite <-Hedges in *. clear Hedges.
  assert (Hsplit : ∀ p, p ∈ support_normal_flow_edges g id →
    p ∈ filter (λ e, edge_has_condition e.2 = true) (support_normal_flow_edges g id) ∨
    p ∈ filter (λ e, edge_has_condition e.2 = false) (support_normal_flow_edges g id)).
  { intros p Hp. destruct (edge_has_condition p.2) eqn:Hc; [left|right]; by apply list_elem_of_filter. }
  assert (Hsub : ∀ b p, p ∈ filter (λ e, edge_has_condition e.2 = b) (support_normal_flow_edges g id) → p ∈ outgoing g id)
    by (intros b p [_ Hp]%list_elem_of_filter; by apply Hout).
  destruct (filter (λ e, edge_has_condition e.2 = true) _) as [|c cs'] eqn:Hc.
  - destruct (filter (λ e, edge_has_condition e.2 = false) _) as [|d ds] eqn:Hd; [apply explored_false|].
    eapply explored_weaken; [|apply targets_explored; [|done]].
    + intros y (p & Hp & Ht). exists p. split; [|done]. destruct (Hsplit p Hp) as [Hno|]; [|done].
      by apply not_elem_of_nil in Hno.
    + intros p Hp. apply (Hsub false). by rewrite Hd.
  - destruct (filter (λ e, edge_has_condition e.2 = false) _) as [|d [|]] eqn:Hd;
      [apply explored_false| |apply explored_false].
    eapply explored_weaken; [|apply targets_explored; [|done]].
    + intros y (p & Hp & Ht). exists p. split; [|done]. apply elem_of_app. by apply Hsplit.
    + intros p [Hp|Hp]%elem_of_app; [apply (Hsub true); by rewrite Hc|apply (Hsub false); by rewrite Hd].
Qed.

(** The handlers of a step, after its control flow. *)
Lemma on_error_explored done w :
  finished g done (stack ++ [id]) w → (∀ y, control g id y → y ∈ done) →
  explores done (on_error_supported_or_inert rec children g cs stack ioe id w).
Proof.
  intros Hw Hdone. unfold on_error_supported_or_inert.
  assert (Hstay : explores done (accepted w)).
  { intros w' [= <-]. exists done. split; [done|]. by split. }
  assert (Hkeep : ∀ x, explored done (stack ++ [id]) (λ _, False) x → explores done x).
  { intros x Hx w' Hw'. destruct (Hx w' Hw') as (d & Hd & Hf & _). exists d. split; [done|].
    split; [done|]. intros y Hy%Hdone. by eapply elem_of_suffix. }
  destruct ioe eqn:Hioe.
  - unfold supports_on_error_flow_step.
    destruct (support_on_error_edges g id) as [|e0 es] eqn:Hedges; [done|].
    rewrite <-Hedges in *. clear Hedges.
    destruct (on_error_route_shape_supported rec g id) as [[]|]; [|apply explored_false|by intros ? ?].
    apply Hkeep. eapply explored_weaken; [by intros y []|]. apply visit_targets_explored; [|done].
    intros [i e] w' d [Ho Hp]%list_elem_of_filter Hw'. pose proof (outgoing_edge _ _ _ Hp) as Hed.
    apply rec_explores; [by eapply rtc_r| |done]. intros _. apply outgoing_spec in Hp as [He _].
    exists e. split; [by eapply list_elem_of_lookup_2|]. split; [done|apply rtc_refl].
  - unfold mark_inert_on_error_edges.
    destruct (support_on_error_edges g id) as [|[i e] es] eqn:Hedges; [done|exfalso].
    assert (Hin : (i, e) ∈ support_on_error_edges g id) by (rewrite Hedges; left).
    apply list_elem_of_filter in Hin as [Ho [He Hf]%outgoing_spec].
    apply (flat_handlers _ Hflat (to_step e)). exists e. split; [by eapply list_elem_of_lookup_2|].
    split; [done|]. split; [rewrite Hf; by apply id_handler|apply rtc_refl].
Qed.

Lemma both_explored step done w :
  steps g !! id = Some step → is_branching_step step = false → finished g done (stack ++ [id]) w →
  explores done (and_also (supports_normal_flow_step rec children g cs stack ioe id w)
                   (on_error_supported_or_inert rec children g cs stack ioe id)).
Proof.
  intros Hs Hb Hw. pose proof (normal_flow_explored step done w Hs Hb Hw) as Hn.
  destruct (supports_normal_flow_step _ _ _ _ _ _ _ _) as [[[] w1]|]; [|by intros ? ?..].
  destruct (Hn w1 eq_refl) as (d1 & Hs1 & Hf1 & Ht1). simpl.
  intros w2 Hx. destruct (on_error_explored d1 w1 Hf1 Ht1 w2 Hx) as (d2 & Hs2 & Hrest).
  exists d2. split; [by trans d1|done].
Qed.

Lemma if_supported_explored guard done w body : explores done (body w) → explores done (if_supported guard w body).
Proof. intros Hb. destruct guard as [[]|]; [done|apply explored_false|by intros ? ?]. Qed.

Lemma control_outgoing y : control g id y → ∃ p, p ∈ outgoing g id ∧ to_step p.2 = y.
Proof.
  intros (e & step & He & Hf & Ht & _). apply list_elem_of_lookup in He as [i Hi].
  exists (i, e). split; [|done]. by apply outgoing_spec.
Qed.

Lemma kind_explored step done w :
  steps g !! id = Some step → finished g done (stack ++ [id]) w →
  explores done (supports_step_kind rec children g cs stack ioe id step w).
Proof.
  intros Hs Hw.
  destruct step as [| | | |s| | | | | | | | |s]; simpl;
    try (by eapply normal_flow_explored); try (apply if_supported_explored); try (by eapply both_explored).
  - case_bool_decide as Ho; [|apply explored_false]. apply explored_none; [done|].
    intros y (p & Hp & _)%control_outgoing. rewrite Ho in Hp. by apply not_elem_of_nil in Hp.
  - unfold supports_conditional_step.
    destruct (conditional_edges_of _ _ _) as [[[t|] [f|]]|] eqn:Hc; try apply explored_false.
    apply conditional_edges_spec in Hc as (H1 & H2 & _).
    eapply explored_weaken; [|apply targets_explored; [|by apply uses_finished]].
    + intros y (p & Hp & Ht)%control_outgoing. exists p. split; [|done].
      destruct (H2 p Hp) as ([[= ->]|[= ->]] & _); set_solver.
    + intros p Hp. destruct (H1 p) as [[|]|]; [|done..].
      apply elem_of_cons in Hp as [->| ->%list_elem_of_singleton]; auto.
  - destruct (switch_config s) as [c|] eqn:Hcfg; [destruct (is_routing c) eqn:Hr|];
      try (eapply normal_flow_explored; [exact Hs|simpl; by rewrite Hcfg, ?Hr|done]).
    unfold supports_routing_switch_step.
    destruct (labeled_edges_of _ _ _) as [m|] eqn:Hm; [|apply explored_false].
    case_match; [apply explored_false|]. apply labeled_edges_spec in Hm as (H1 & H2 & _).
    eapply explored_weaken; [|apply targets_explored; [|done]].
    + intros y (p & Hp & Ht)%control_outgoing. exists p. split; [|done].
      destruct (H2 p Hp) as (l & Hl & Hin). apply list_elem_of_omap. exists l. split; [|done].
      unfold sorted. rewrite merge_sort_Permutation. by apply elem_of_elements.
    + intros p (l & _ & Hl)%list_elem_of_omap.
      destruct (H1 l p Hl) as [Hno|(Hin & _)]; [by rewrite lookup_empty in Hno|done].
  - case_bool_decide as Ho; [|apply explored_false]. apply explored_none; [done|].
    intros y (p & Hp & _)%control_outgoing. rewrite Ho in Hp. by apply not_elem_of_nil in Hp.
  - rewrite filter_none.
    + by eapply both_explored.
    + intros [i e] [He Hf]%outgoing_spec. simpl.
      destruct (flat_tools _ Hflat e s) as [->|[->| ->]]; [by eapply list_elem_of_lookup_2|by rewrite Hf|done..].
Qed.

Lemma reach_finished done w :
  id ∉ stack → id ∉ reachable w → finished g done stack w → finished g done (stack ++ [id]) (reach id w).
Proof.
  intros Hst Hre [H1 H2 H3 H4]. split; [|..|done|done].
  - intros x. simpl. rewrite elem_of_union, elem_of_singleton, elem_of_app, list_elem_of_singleton, H1. tauto.
  - intros x Hx [Hs|Hs]%elem_of_app; [by apply (H2 x)|]. apply list_elem_of_singleton in Hs as ->.
    apply Hre, H1. by left.
Qed.

(** A step whose control flow is finished is finished. *)
Lemma step_finished done w :
  id ∉ stack → finished g done (stack ++ [id]) w → (∀ y, control g id y → y ∈ done) →
  finished g (id :: done) stack w.
Proof.
  intros Hst [H1 H2 H3 H4] Ht.
  assert (Hid : id ∉ done) by (intros Hin; apply (H2 id Hin); apply elem_of_app; right; left).
  split.
  - intros x. rewrite H1, elem_of_app, list_elem_of_singleton, elem_of_cons. tauto.
  - intros x [->|Hx]%elem_of_cons; [done|]. intros Hs. apply (H2 x Hx). apply elem_of_app. by left.
  - by constructor.
  - intros [|a pre] x post Heq y Hy; injection Heq as -> Heq; [subst; by apply Ht|by eapply H4].
Qed.

Lemma one_step_explored done w :
  finished g done stack w →
  explored done stack (λ y, y = id) (supports_one_step rec children g cs stack ioe id w).
Proof.
  intros Hw. unfold supports_one_step. case_decide as Hst; [apply explored_false|].
  case_decide as Hre.
  { intros w' [= <-]. exists done. split; [done|]. split; [done|]. intros y ->.
    by apply (fin_reachable _ _ _ _ Hw) in Hre as [|]. }
  destruct (steps g !! id) as [step|] eqn:Hs; [|apply explored_false].
  intros w' Hx. destruct (kind_explored step done _ Hs (reach_finished _ _ Hst Hre Hw) w' Hx)
    as (d & Hd & Hf & Ht).
  exists (id :: d). split; [by apply suffix_cons_r|]. split; [by apply step_finished|].
  intros y ->. left.
Qed.
End explore.

Lemma walk_explores fuel g children cs stack ioe id w done :
  flat g → rtc (plan_edge g) (entry_point g) id → (ioe = false → in_handler g id) →
  finished g done stack w →
  explored g done stack (λ y, y = id) (supports_direct_control_step_inner fuel children g cs stack ioe id w).
Proof.
  intros Hflat. revert stack ioe id w done.
  induction fuel as [|fuel IH]; intros stack ioe id w done Hid Hh Hw; [by intros ? ?|].
  simpl. apply one_step_explored; done.
Qed.

(** Finished steps lie on no cycle. *)
Lemma finished_acyclic g done w x : finished g done [] w → x ∈ done → ¬ tc (control g) x x.
Proof.
  intros [_ _ Hnd Ht] Hx Hc.
  assert (Hafter : ∀ x y, tc (control g) x y → ∀ pre post, done = pre ++ x :: post → y ∈ post).
  { clear Hx Hc x. intros x y Hxy. induction Hxy as [x y Hxy|x y z Hxy _ IH]; intros pre post Hd; [by eapply Ht|].
    assert (Hy : y ∈ post) by (by eapply Ht).
    apply list_elem_of_split in Hy as (l1 & l2 & ->).
    assert (Hz : z ∈ l2).
    { apply (IH (pre ++ x :: l1) l2). by rewrite Hd, <-(assoc_L (++)). }
    apply elem_of_app. right. by right. }
  apply list_elem_of_split in Hx as (pre & post & Hd). pose proof (Hafter x x Hc pre post Hd) as Hin.
  rewrite Hd in Hnd. apply NoDup_app in Hnd as (_ & _ & [Hn _]%NoDup_cons). done.
Qed.

(** Where the gate accepts a graph, its control flow has no cycle. *)
Lemma accepted_acyclic fuel children g :
  flat g →
  (∀ e, e ∈ execution_plan g → is_Some (steps g !! from_step e) ∧ is_Some (steps g !! to_step e)) →
  supports_direct_control_graph (supports_direct_control_step_inner fuel) children g = Some true →
  ∀ x, ¬ tc (control g) x x.
Proof.
  intros Hflat Hdang Hacc x Hx.
  destruct (control_graph_walk _ _ _ _ Hacc) as (w & Hwalk & Hsize & Husize).
  destruct (walk_covers _ _ _ _ _ Hdang Hwalk Hsize Husize) as [Hall _].
  destruct (walk_explores fuel g children [] [] true (entry_point g) {| reachable := ∅; used_edges := ∅ |} []
              Hflat (rtc_refl _ _) ltac:(done)) with (w := w) as (fin & _ & Hf & _); [|done|].
  { split; [set_solver|set_solver|constructor|]. by intros [|] ? ? ?. }
  assert (Hstep : is_Some (steps g !! x)).
  { assert (Hout : ∃ y, control g x y) by (inversion Hx; eauto).
    destruct Hout as (y & e & s & _ & _ & _ & Hs & _). by rewrite Hs. }
  apply (finished_acyclic g fin w x Hf); [|done].
  apply elem_of_dom in Hstep. rewrite <-Hall in Hstep.
  apply (fin_reachable _ _ _ _ Hf) in Hstep as [|Hno]; [done|]. by apply not_elem_of_nil in Hno.
Qed.
