(* ===== verification/DirectManifestProperties.v ===== *)
(** * The manifest of the compiler as the guest reads it

    The compiler writes a [DirectWorkflowManifest] as JSON and the guest reads it with its
    own structures ([direct_json.rs], lines 6816 to 7118), which have the same field names
    and keep a part of the fields: the translation from the one to the other, and what
    the guest finds in the tables it gets this way. *)

From S2P Require Import Prelude.
From S2P Require Import Json.
From S2P Require Import GuestManifest.
From S2P Require Import DirectManifest.

Definition mapping_wire (e : DirectMappingManifest) : Z * DirectJsonMapping :=
  (dm_id e, {| mapping_step_id := dm_step_id e; mapping_purpose := dm_purpose e;
               mapping_value := dm_value e |}).

Definition condition_wire (e : DirectConditionManifest) : Z * DirectJsonCondition :=
  (dc_id e, {| condition_owner_id := dc_owner_id e; condition_purpose := dc_purpose e;
               condition_value := dc_value e |}).

Definition split_wire (e : DirectSplitManifest) : Z * DirectJsonSplit :=
  (ds_id e, {| split_step_id := ds_step_id e; split_name := ds_name e; split_value := ds_value e;
               split_input_schema := ds_input_schema e; split_output_schema := ds_output_schema e |}).

Definition while_wire (e : DirectWhileManifest) : Z * DirectJsonWhile :=
  (dw_id e, {| while_step_id := dw_step_id e; while_name := dw_name e; while_value := dw_value e;
               while_condition_raw := dw_condition e |}).

Definition config_wire (e : DirectConfigManifest) : Z * DirectJsonConfig :=
  (df_id e, {| config_step_id := df_step_id e; config_name := df_name e; config_value := df_value e |}).

Definition delay_wire (e : DirectDelayManifest) : Z * DirectJsonDelay :=
  (dd_id e, {| delay_step_id := dd_step_id e; delay_name := dd_name e; duration_ms := dd_duration_ms e |}).

Definition agent_wire (e : DirectAgentManifest) : Z * DirectJsonAgent :=
  (da_id e,
   {| agent_step_id := da_step_id e; agent_name := da_name e; agent_id := da_agent_id e;
      capability_id := da_capability_id e; agent_connection_id := da_connection_id e;
      agent_connection_ref := da_connection_ref e; input_mapping_id := da_input_mapping_id e;
      required_inputs := (λ r, {| required_name := dr_name r; required_field_type := dr_field_type r;
                                  required_description := dr_description r |}) <$> da_required_inputs e |}).

Definition step_wire (s : DirectStepManifest) : DirectJsonStep :=
  {| step_id := m_id s; step_type := m_step_type s; step_name := m_name s; step_body := m_body s |}.

Definition parts_wire (p : DirectGraphParts) : GraphParts :=
  let c := g_tables p in
  {| wire_variables := g_variables p; wire_input_schema := g_input_schema p;
     wire_mappings := mapping_wire <$> c_mappings c;
     wire_conditions := condition_wire <$> c_conditions c;
     wire_splits := split_wire <$> c_splits c; wire_whiles := while_wire <$> c_whiles c;
     wire_filters := config_wire <$> c_filters c; wire_switches := config_wire <$> c_switches c;
     wire_group_bys := config_wire <$> c_group_bys c; wire_delays := delay_wire <$> c_delays c;
     wire_logs := config_wire <$> c_logs c; wire_errors := config_wire <$> c_errors c;
     wire_agents := agent_wire <$> c_agents c |}.

Fixpoint graph_wire (g : DirectGraphManifest) : GraphWire :=
  match g with
  | GraphManifest parts steps =>
      Wire (parts_wire parts)
        (List.map (λ s, (step_wire s.1, List.map (λ n, graph_wire n.2) s.2)) steps)
  end.

Definition child_wire (c : DirectChildWorkflowGraphManifest) : ChildWorkflowWire :=
  {| cw_step_id := cm_step_id c; cw_workflow_id := cm_workflow_id c; cw_graph := graph_wire (cm_graph c) |}.

Definition manifest_wire (m : DirectWorkflowManifest) : ManifestWire :=
  {| mw_graph := graph_wire (wm_graph m); mw_child_workflows := child_wire <$> wm_child_workflows m |}.

(** ** The tables of both sides by kind *)

Definition gentry (k : Kind) : Type :=
  match k with
  | KMapping => DirectJsonMapping
  | KCondition => DirectJsonCondition
  | KSplit => DirectJsonSplit
  | KWhile => DirectJsonWhile
  | KDelay => DirectJsonDelay
  | KAgent => DirectJsonAgent
  | _ => DirectJsonConfig
  end.

(** The table of the guest's manifest. *)
Definition gtable (k : Kind) (M : DirectJsonManifest) : gmap Z (gentry k) :=
  match k return gmap Z (gentry k) with
  | KMapping => mappings M
  | KCondition => conditions M
  | KSplit => splits M
  | KWhile => whiles M
  | KFilter => filters M
  | KSwitch => switches M
  | KGroupBy => group_bys M
  | KDelay => delays M
  | KLog => logs M
  | KError => errors M
  | KAgent => agents M
  end.

Definition wire_table (k : Kind) (p : GraphParts) : list (Z * gentry k) :=
  match k return list (Z * gentry k) with
  | KMapping => wire_mappings p
  | KCondition => wire_conditions p
  | KSplit => wire_splits p
  | KWhile => wire_whiles p
  | KFilter => wire_filters p
  | KSwitch => wire_switches p
  | KGroupBy => wire_group_bys p
  | KDelay => wire_delays p
  | KLog => wire_logs p
  | KError => wire_errors p
  | KAgent => wire_agents p
  end.

(** The table of a graph of the compiler, the id and the step of an entry, and what the
    guest keeps of it. *)
Definition table (k : Kind) (c : DirectGraphManifestCollections) : list (entry k) :=
  match k return list (entry k) with
  | KMapping => c_mappings c
  | KCondition => c_conditions c
  | KSplit => c_splits c
  | KWhile => c_whiles c
  | KFilter => c_filters c
  | KSwitch => c_switches c
  | KGroupBy => c_group_bys c
  | KDelay => c_delays c
  | KLog => c_logs c
  | KError => c_errors c
  | KAgent => c_agents c
  end.

Definition entry_id (k : Kind) : entry k → Z :=
  match k with
  | KMapping => dm_id
  | KCondition => dc_id
  | KSplit => ds_id
  | KWhile => dw_id
  | KDelay => dd_id
  | KAgent => da_id
  | _ => df_id
  end.

Definition entry_owner (k : Kind) : entry k → string :=
  match k with
  | KMapping => dm_step_id
  | KCondition => dc_owner_id
  | KSplit => ds_step_id
  | KWhile => dw_step_id
  | KDelay => dd_step_id
  | KAgent => da_step_id
  | _ => df_step_id
  end.

Definition entry_wire (k : Kind) : entry k → Z * gentry k :=
  match k with
  | KMapping => mapping_wire
  | KCondition => condition_wire
  | KSplit => split_wire
  | KWhile => while_wire
  | KDelay => delay_wire
  | KAgent => agent_wire
  | _ => config_wire
  end.

Definition gentry_owner (k : Kind) : gentry k → string :=
  match k with
  | KMapping => mapping_step_id
  | KCondition => condition_owner_id
  | KSplit => split_step_id
  | KWhile => while_step_id
  | KDelay => delay_step_id
  | KAgent => agent_step_id
  | _ => config_step_id
  end.

(** The entries of a graph and of the graphs nested in it. *)
Fixpoint tree_entries (k : Kind) (g : DirectGraphManifest) : list (entry k) :=
  match g with
  | GraphManifest parts steps =>
      table k (g_tables parts)
      ++ List.concat (List.map (λ s, List.concat (List.map (λ n, tree_entries k n.2) s.2)) steps)
  end.

(** The entries of a workflow. *)
Definition all_entries (k : Kind) (m : DirectWorkflowManifest) : list (entry k) :=
  tree_entries k (wm_graph m)
  ++ List.concat ((λ c, tree_entries k (cm_graph c)) <$> wm_child_workflows m).

Lemma entry_wire_id k (e : entry k) : (entry_wire k e).1 = entry_id k e.
Proof. by destruct k. Qed.

Lemma entry_wire_owner k (e : entry k) : gentry_owner k (entry_wire k e).2 = entry_owner k e.
Proof. by destruct k. Qed.

Lemma wire_table_parts k p : wire_table k (parts_wire p) = entry_wire k <$> table k (g_tables p).
Proof. by destruct k. Qed.

(** * The guest finds what the compiler wrote

    Every graph of a manifest gets ids that no other graph has, so the guest accepts the
    manifest and finds every entry under its id. *)

From S2P Require Import Prelude.
From S2P Require Import Json.
From S2P Require Import GuestManifest.
From S2P Require Import ValidationLemmas.
From S2P Require Import Dsl.
From S2P Require Import ValidationBase.
From S2P Require Import DirectManifest.

Local Open Scope Z_scope.

(** ** The guest's tables *)

(** [collect_entries] succeeds on fresh ids, and adds the entries. *)
Lemma collect_entries_fresh {A} kind (l : list (Z * A)) m :
  NoDup l.*1 → (∀ i, i ∈ l.*1 → m !! i = None) →
  collect_entries kind l m = Ok (list_to_map l ∪ m).
Proof.
  revert m. induction l as [|[i a] l IH]; intros m Hnd Hfresh; simpl; [by rewrite (left_id_L ∅ (∪))|].
  apply NoDup_cons in Hnd as [Hi Hnd]. rewrite (Hfresh i) by left. rewrite IH; [|done|].
  - f_equal. rewrite <-insert_union_l, insert_union_r; [done|]. by apply not_elem_of_list_to_map_1.
  - intros j Hj. rewrite lookup_insert_ne by (by intros ->). apply Hfresh. by right.
Qed.

(** The graphs of a tree in the order in which the guest collects them. *)
Fixpoint preorder (g : GraphWire) : list (GraphParts * list DirectJsonStep) :=
  match g with
  | Wire parts steps =>
      (parts, List.map fst steps)
      :: List.concat (List.map (λ s, List.concat (List.map preorder s.2)) steps)
  end.

Fixpoint collect_all (l : list (GraphParts * list DirectJsonStep)) (c : DirectJsonManifest) :
  result string DirectJsonManifest :=
  match l with
  | [] => Ok c
  | (parts, steps) :: l => c ← collect_parts parts steps c; collect_all l c
  end.

Lemma collect_all_app l l' c :
  collect_all (l ++ l') c = (c ← collect_all l c; collect_all l' c).
Proof.
  revert c. induction l as [|[p s] l IH]; intros c; [done|]. simpl.
  destruct (collect_parts p s c); [|done]. apply IH.
Qed.

Fixpoint collect_preorder (g : GraphWire) : ∀ c, collect_graph_manifest g c = collect_all (preorder g) c.
Proof.
  destruct g as [parts steps]. intros c. simpl.
  destruct (collect_parts parts (List.map fst steps) c) as [c'|e]; [|done]. cbn [mbind result_bind].
  clear parts c. revert c'. induction steps as [|[s nested] steps IH]; intros c; [done|].
  simpl. rewrite collect_all_app. simpl.
  assert (Hnested : ∀ c, (fix each_graph (l : list GraphWire) (c : DirectJsonManifest) :=
       match l with
       | [] => Ok c
       | graph :: l => c ← collect_graph_manifest graph c; each_graph l c
       end) nested c = collect_all (List.concat (List.map preorder nested)) c).
  { clear IH. induction nested as [|g nested IHn]; intros c'; [done|]. simpl.
    rewrite collect_preorder, collect_all_app.
    destruct (collect_all (preorder g) c'); [|done]. apply IHn. }
  rewrite Hnested. destruct (collect_all _ c); [|done]. apply IH.
Qed.

(** What the tables of a list of graphs add. *)
Definition parts_entries (k : Kind) (l : list (GraphParts * list DirectJsonStep)) : list (Z * gentry k) :=
  List.concat ((λ p, wire_table k p.1) <$> l).

Definition fresh_in (c : DirectJsonManifest) (l : ∀ k, list (Z * gentry k)) : Prop :=
  ∀ k, NoDup (l k).*1 ∧ ∀ i, i ∈ (l k).*1 → gtable k c !! i = None.

Definition extends (c c' : DirectJsonManifest) (l : ∀ k, list (Z * gentry k)) : Prop :=
  child_workflows c' = child_workflows c ∧ ∀ k, gtable k c' = list_to_map (l k) ∪ gtable k c.

Lemma collect_parts_fresh parts steps c :
  fresh_in c (λ k, wire_table k parts) →
  ∃ c', collect_parts parts steps c = Ok c' ∧ extends c c' (λ k, wire_table k parts).
Proof.
  intros H. unfold collect_parts.
  pose proof (λ k kind, collect_entries_fresh kind _ _ (proj1 (H k)) (proj2 (H k))) as Hk.
  rewrite (Hk KMapping), (Hk KCondition), (Hk KSplit), (Hk KWhile), (Hk KFilter), (Hk KSwitch),
    (Hk KGroupBy), (Hk KDelay), (Hk KLog), (Hk KError), (Hk KAgent).
  eexists. split; [done|]. split; [done|]. by intros [].
Qed.

Lemma fresh_in_app c l l' :
  fresh_in c (λ k, l k ++ l' k) →
  fresh_in c l ∧
  ∀ c', (∀ k, gtable k c' = list_to_map (l k) ∪ gtable k c) → fresh_in c' l'.
Proof.
  intros H. split.
  - intros k. destruct (H k) as [Hnd Hf]. rewrite fmap_app in Hnd, Hf.
    apply NoDup_app in Hnd as (? & _ & _). split; [done|]. intros i Hi. apply Hf. set_solver.
  - intros c' Htab k. destruct (H k) as [Hnd Hf]. rewrite fmap_app in Hnd, Hf.
    apply NoDup_app in Hnd as (_ & Hdis & ?). split; [done|]. intros i Hi.
    rewrite Htab. apply lookup_union_None. split; [|apply Hf; set_solver].
    apply not_elem_of_list_to_map_1. intros Hw. by apply (Hdis i).
Qed.

Lemma list_to_map_app_union {A} (l l' : list (Z * A)) (m : gmap Z A) :
  NoDup (l ++ l').*1 → list_to_map l' ∪ (list_to_map l ∪ m) = (list_to_map (l ++ l') : gmap Z A) ∪ m.
Proof.
  intros Hnd. rewrite (assoc_L (∪)), list_to_map_app. f_equal. apply map_union_comm.
  apply map_disjoint_spec. intros i x y Hx Hy.
  apply elem_of_list_to_map_2, (list_elem_of_fmap_2 fst) in Hx.
  apply elem_of_list_to_map_2, (list_elem_of_fmap_2 fst) in Hy.
  rewrite fmap_app in Hnd. apply NoDup_app in Hnd as (_ & Hdis & _). by apply (Hdis i).
Qed.

Lemma collect_all_fresh l c :
  fresh_in c (λ k, parts_entries k l) →
  ∃ c', collect_all l c = Ok c' ∧ extends c c' (λ k, parts_entries k l).
Proof.
  revert c. induction l as [|[p s] l IH]; intros c H.
  { exists c. split; [done|]. split; [done|]. intros k.
    unfold parts_entries. simpl. by rewrite (left_id_L ∅ (∪)). }
  apply (fresh_in_app c (λ k, wire_table k p) (λ k, parts_entries k l)) in H as Hpl.
  destruct Hpl as [Hp Hl]. destruct (collect_parts_fresh p s c Hp) as (c1 & Hc1 & Hch & Htab).
  destruct (IH c1 (Hl c1 Htab)) as (c2 & Hc2 & Hch2 & Htab2).
  exists c2. simpl. rewrite Hc1. split; [done|]. split; [congruence|]. intros k.
  rewrite Htab2, Htab. apply list_to_map_app_union, (H k).
Qed.

Lemma parts_entries_app k l l' : parts_entries k (l ++ l') = parts_entries k l ++ parts_entries k l'.
Proof. unfold parts_entries. by rewrite fmap_app, concat_app. Qed.

Lemma parts_entries_cons k p l : parts_entries k (p :: l) = wire_table k p.1 ++ parts_entries k l.
Proof. done. Qed.

#[local] Arguments parts_entries : simpl never.

(** The tables of a graph of the compiler, as the guest collects them. *)
Fixpoint preorder_tree k (g : DirectGraphManifest) :
  parts_entries k (preorder (graph_wire g)) = entry_wire k <$> tree_entries k g.
Proof.
  destruct g as [parts steps]. simpl. rewrite parts_entries_cons, fmap_app. f_equal.
  { apply wire_table_parts. }
  induction steps as [|[s nested] steps IH]; [done|]. simpl.
  rewrite parts_entries_app, IH, fmap_app. f_equal. clear IH.
  induction nested as [|[r g] nested IH]; [done|]. simpl.
  by rewrite parts_entries_app, IH, fmap_app, preorder_tree.
Qed.

(** ** The compiler's ids *)

(** The [n]-th id and its successors. *)
Definition ids_from (n : Z) (len : nat) : list Z := wrap_u32 <$> seqZ n (Z.of_nat len).

Lemma wrap_u32_succ n : wrap_u32 (wrap_u32 n + 1) = wrap_u32 (n + 1).
Proof. unfold wrap_u32. by rewrite Zplus_mod_idemp_l. Qed.

Lemma ids_from_app n a b : ids_from n (a + b) = ids_from n a ++ ids_from (n + Z.of_nat a) b.
Proof.
  unfold ids_from. rewrite <-fmap_app, Nat2Z.inj_add, seqZ_app by lia. done.
Qed.

Lemma ids_from_NoDup n len : Z.of_nat len ≤ 2 ^ 32 → NoDup (ids_from n len).
Proof.
  intros Hlen. apply NoDup_fmap_2_strong, NoDup_seqZ.
  intros x y Hx%elem_of_seqZ Hy%elem_of_seqZ Heq. unfold wrap_u32 in Heq.
  apply Z.cong_iff_0 in Heq. apply Z.mod_divide in Heq as [q Hq]; [|done]. nia.
Qed.

(** A builder step that adds entries satisfying [P], under consecutive ids, to each table. *)
Definition adds (P : ∀ k, entry k → Prop) (b b' : Builder) : Prop :=
  ∀ k n, counter k (state b) = wrap_u32 n →
    ∃ l, table k (collections b') = table k (collections b) ++ l ∧
         entry_id k <$> l = ids_from n (length l) ∧
         counter k (state b') = wrap_u32 (n + Z.of_nat (length l)) ∧ Forall (P k) l.

Lemma adds_refl P b : adds P b b.
Proof.
  intros k n Hn. exists []. rewrite app_nil_r. repeat split; [|constructor]. by rewrite Z.add_0_r.
Qed.

Lemma adds_trans P b1 b2 b3 : adds P b1 b2 → adds P b2 b3 → adds P b1 b3.
Proof.
  intros H12 H23 k n Hn. destruct (H12 k n Hn) as (l & Ht & Hi & Hc & HP).
  destruct (H23 k _ Hc) as (l' & Ht' & Hi' & Hc' & HP'). exists (l ++ l').
  rewrite Ht', Ht, fmap_app, Hi, Hi', length_app, ids_from_app, (assoc_L (++)).
  repeat split; [|by apply Forall_app]. rewrite Hc'. f_equal. lia.
Qed.

Lemma counter_allocate k s : counter k (allocate k s) = wrap_u32 (counter k s + 1).
Proof. by destruct k. Qed.

Lemma counter_allocate_ne k k' s : k ≠ k' → counter k' (allocate k s) = counter k' s.
Proof. by destruct k, k'. Qed.

Lemma table_push k e c : table k (push_entry k e c) = table k c ++ [e].
Proof. by destruct k. Qed.

Lemma table_push_ne k k' e c : k ≠ k' → table k' (push_entry k e c) = table k' c.
Proof. by destruct k, k'. Qed.

Lemma adds_push (P : ∀ k, entry k → Prop) k e b :
  (∀ i, entry_id k (e i) = i ∧ P k (e i)) → adds P b (push k e b).
Proof.
  intros He k' n Hn. unfold push; simpl. destruct (decide (k = k')) as [<-|Hne].
  - exists [e (counter k (state b))]. rewrite table_push, counter_allocate, Hn, wrap_u32_succ.
    destruct (He (wrap_u32 n)) as [Hi HP]. repeat split; [|by constructor]. simpl. by rewrite Hi.
  - exists []. rewrite table_push_ne, counter_allocate_ne, Hn, app_nil_r by done.
    repeat split; [|constructor]. by rewrite Z.add_0_r.
Qed.

Section compiler.
Context `{UnicodeData, ManifestExternals} (agent_catalog : option ValidationAgents.AgentCatalog).

(** The entries of a step belong to it. *)
Definition owned_by (id : string) (k : Kind) (e : entry k) : Prop := entry_owner k e = id.

Ltac adds := cbv zeta; repeat (eapply adds_trans; [|by apply adds_push]); try by apply adds_refl.

Lemma mcp_entries_adds graph id s d i b :
  adds (owned_by id) b (mcp_entries agent_catalog graph id s d i b).
Proof.
  unfold mcp_entries. revert b.
  induction (ai_agent_mcp_edges graph id) as [|e l IH]; intros b; [apply adds_refl|].
  simpl. eapply adds_trans; [|apply IH]. adds.
Qed.

Lemma memory_entries_adds graph id s d b :
  adds (owned_by id) b (memory_entries agent_catalog graph id s d b).
Proof.
  unfold memory_entries. destruct (ai_config s ≫= memory) as [m|]; [|apply adds_refl].
  destruct (ai_agent_memory_provider graph id) as [[[? ?] ?]|]; [|apply adds_refl].
  destruct (uses_summarize m); adds.
Qed.

Lemma step_entries_adds graph id step d b :
  adds (owned_by id) b (step_entries agent_catalog graph id step d b).
Proof.
  destruct step; simpl; unfold agent_entries; adds.
  unfold ai_agent_entries. eapply adds_trans; [|apply mcp_entries_adds].
  eapply adds_trans; [|apply memory_entries_adds]. adds.
Qed.
Lemma edge_manifest_adds n e b :
  adds (owned_by (from_step e)) b (edge_manifest n e b).2.
Proof. unfold edge_manifest. destruct (condition e); simpl; adds. Qed.

Definition anything (k : Kind) (e : entry k) : Prop := True.

Lemma adds_weaken P Q b b' : (∀ k e, P k e → Q k e) → adds P b b' → adds Q b b'.
Proof.
  intros HPQ H12 k n Hn. destruct (H12 k n Hn) as (l & Ht & Hi & Hc & HP). exists l.
  repeat split; [done..|]. eapply Forall_impl; [done|]. apply HPQ.
Qed.

Lemma build_edges_adds n l b : adds anything b (build_edges n l b).2.
Proof.
  revert n b. induction l as [|e l IH]; intros n b; simpl; [apply adds_refl|].
  pose proof (edge_manifest_adds n e b) as He. destruct (edge_manifest n e b) as [m b1].
  pose proof (IH (n + 1) b1) as Hl. destruct (build_edges (n + 1) l b1) as [ms b2].
  eapply adds_trans; [|exact Hl]. by eapply adds_weaken.
Qed.

(** The ids a graph takes: those that follow the counters, over its whole tree. *)
Definition counts (l : ∀ k, list (entry k)) (s s' : DirectManifestBuildState) : Prop :=
  ∀ k n, counter k s = wrap_u32 n →
    entry_id k <$> l k ≡ₚ ids_from n (length (l k)) ∧
    counter k s' = wrap_u32 (n + Z.of_nat (length (l k))).

Definition nested_entries (k : Kind) (l : list (string * DirectGraphManifest)) : list (entry k) :=
  List.concat (List.map (λ n, tree_entries k n.2) l).

Lemma tree_entries_unfold k parts built :
  tree_entries k (GraphManifest parts built)
  = table k (g_tables parts) ++ List.concat (List.map (λ s, nested_entries k s.2) built).
Proof. done. Qed.

Lemma build_steps_counts graph d l b :
  (∀ id step f, (id, (step, f)) ∈ l →
     ∀ s, counts (λ k, nested_entries k (f s).1) s (f s).2) →
  let r := build_steps agent_catalog graph d l b in
  ∀ k n, counter k (state b) = wrap_u32 n →
    ∃ own, table k (collections r.2) = table k (collections b) ++ own ∧
      let all := own ++ List.concat (List.map (λ s, nested_entries k s.2) r.1) in
      entry_id k <$> all ≡ₚ ids_from n (length all) ∧
      counter k (state r.2) = wrap_u32 (n + Z.of_nat (length all)).
Proof.
  revert b. induction l as [|[id [step f]] l IH]; intros b Hf r k n Hn.
  { exists []. simpl. rewrite app_nil_r. repeat split; [done|]. by rewrite Z.add_0_r. }
  subst r. cbn [build_steps].
  destruct (step_entries_adds graph id step d b k n Hn) as (l1 & Ht1 & Hi1 & Hc1 & _).
  set (b1 := step_entries agent_catalog graph id step d b) in *.
  destruct (Hf id step f ltac:(left) (state b1) k _ Hc1) as [Hi2 Hc2].
  destruct (f (state b1)) as [graphs s2]. simpl in Hi2, Hc2.
  specialize (IH {| state := s2; collections := collections b1 |} ltac:(set_solver)). simpl in IH.
  destruct (IH k _ Hc2) as (l3 & Ht3 & Hi3 & Hc3).
  destruct (build_steps agent_catalog graph d l _) as [built b3]. simpl in *.
  exists (l1 ++ l3). rewrite Ht3, Ht1, (assoc_L (++)). split; [done|].
  rewrite !length_app in *. split.
  - rewrite !fmap_app in *. rewrite Hi1.
    trans ((ids_from n (length l1) ++ (entry_id k <$> nested_entries k graphs))
            ++ ((entry_id k <$> l3) ++ (entry_id k <$> List.concat (List.map (λ s, nested_entries k s.2) built)))).
    { solve_Permutation. }
    rewrite Hi2, Hi3, <-ids_from_app, <-Z.add_assoc, <-Nat2Z.inj_add, <-ids_from_app.
    apply reflexive_eq. f_equal. lia.
  - rewrite Hc3. f_equal. lia.
Qed.
(** The nested graphs of a step. *)
Definition nested_builder (durable : bool) (step : Step) : NestedBuilder :=
  let nested (role : string) g s :=
    let '(m, s) := graph_manifest agent_catalog g durable s in ([(role, m)], s) in
  match step with
  | Split st => nested "split.subgraph" (split_subgraph st)
  | While st => nested "while.subgraph" (while_subgraph st)
  | WaitForSignal st =>
      match on_wait st with Some g => nested "waitForSignal.onWait" g | None => λ s, ([], s) end
  | _ => λ s, ([], s)
  end.

Definition step_list (durable : bool) (g : ExecutionGraph) : list (string * (Step * NestedBuilder)) :=
  merge_sort key_le (map_to_list ((λ step, (step, nested_builder durable step)) <$> steps g)).

Definition sorted_builder (b : Builder) : Builder :=
  {| state := state b; collections := sort_tables (collections b) |}.

Lemma graph_manifest_unfold g inherited s :
  let durable := default inherited (graph_durable g) in
  let r := build_steps agent_catalog g durable (step_list durable g)
             {| state := s; collections := empty_tables |} in
  let r' := build_edges 0 (execution_plan g) (sorted_builder r.2) in
  graph_manifest agent_catalog g inherited s
  = (GraphManifest
       {| g_name := graph_name g; g_entry_point := entry_point g; g_durable := durable;
          g_rate_limit_budget_ms := rate_limit_budget_ms g;
          g_variables := DslJson.variables_json (variables g);
          g_input_schema := schema_json (input_schema g);
          g_output_schema := schema_json (output_schema g);
          g_tables := collections r'.2; g_edges := merge_sort edge_le r'.1 |} r.1,
     state r'.2).
Proof.
  destruct g as [body]. intros durable r r'. subst r'. simpl.
  change (build_steps _ _ _ _ _) with r. destruct r as [built b]. simpl.
  change {| state := state b; collections := sort_tables (collections b) |} with (sorted_builder b).
  by destruct (build_edges 0 _ _) as [edges b'].
Qed.

Lemma step_list_lookup (durable : bool) (g : ExecutionGraph) id step f :
  (id, (step, f)) ∈ step_list durable g → steps g !! id = Some step ∧ f = nested_builder durable step.
Proof.
  unfold step_list. rewrite merge_sort_Permutation. intros Hin%elem_of_map_to_list.
  rewrite lookup_fmap in Hin. apply fmap_Some in Hin as (st & Hst & [= -> ->]). done.
Qed.

Lemma table_sort k c : table k (sort_tables c) ≡ₚ table k c.
Proof. destruct k; apply merge_sort_Permutation. Qed.

(** What the graphs nested in a step take. *)
Lemma nested_counts g id step durable s :
  steps g !! id = Some step →
  (∀ h, inner_graph g h → ∀ d s,
     counts (λ k, tree_entries k (graph_manifest agent_catalog h d s).1) s
       (graph_manifest agent_catalog h d s).2) →
  counts (λ k, nested_entries k (nested_builder durable step s).1) s (nested_builder durable step s).2.
Proof.
  intros Hstep IH.
  assert (Hnone : counts (λ k, nested_entries k []) s s).
  { intros k n Hn. split; [done|]. simpl. by rewrite Z.add_0_r. }
  assert (Hone : ∀ role h, inner_graph g h →
    let r := (let '(m, s) := graph_manifest agent_catalog h durable s in ([(role, m)], s)) in
    counts (λ k, nested_entries k r.1) s r.2).
  { intros role h Hh r k n Hn. subst r. specialize (IH h Hh durable s k n Hn).
    destruct (graph_manifest agent_catalog h durable s) as [m s']. unfold nested_entries. simpl in *.
    by rewrite app_nil_r. }
  destruct step; simpl; try done; [apply Hone; eauto..|].
  destruct (on_wait s0) eqn:Hw; [|done]. apply Hone. eauto.
Qed.

Lemma graph_manifest_counts g inherited s :
  counts (λ k, tree_entries k (graph_manifest agent_catalog g inherited s).1) s
    (graph_manifest agent_catalog g inherited s).2.
Proof.
  revert inherited s. induction g as [g IH] using graph_ind. intros inherited s k n Hn.
  rewrite (graph_manifest_unfold g inherited s).
  set (durable := default inherited (graph_durable g)).
  pose proof (build_steps_counts g durable (step_list durable g)
    {| state := s; collections := empty_tables |}) as Hsteps.
  destruct (build_steps _ _ _ _ _) as [built b]. simpl in Hsteps.
  destruct Hsteps with (k := k) (n := n) as (own & Ht & Hi & Hc); [|done|].
  { intros id step f [Hid ->]%step_list_lookup s'. by eapply nested_counts. }
  destruct (build_edges_adds 0 (execution_plan g) (sorted_builder b) k _ Hc)
    as (conds & Ht' & Hi' & Hc' & _).
  cbn [fst snd]. rewrite tree_entries_unfold. cbn [g_tables].
  assert (Hnil : table k empty_tables = []) by (by destruct k). rewrite Hnil in Ht.
  rewrite Ht'. cbn [sorted_builder collections]. rewrite table_sort, Ht. cbn [app].
  rewrite !length_app. split.
  - rewrite !fmap_app. rewrite !fmap_app in Hi. rewrite Hi'.
    trans ((entry_id k <$> own ++ List.concat (List.map (λ s, nested_entries k s.2) built))
            ++ ids_from (n + Z.of_nat (length (own ++ List.concat (List.map (λ s, nested_entries k s.2) built))))
                 (length conds)).
    { rewrite fmap_app. solve_Permutation. }
    rewrite fmap_app, Hi, <-ids_from_app. apply reflexive_eq. f_equal. rewrite length_app. lia.
  - rewrite Hc'. f_equal. rewrite length_app. lia.
Qed.
Definition children_entries (k : Kind) (l : list DirectChildWorkflowGraphManifest) : list (entry k) :=
  List.concat ((λ c, tree_entries k (cm_graph c)) <$> l).

Lemma counts_app l l' s1 s2 s3 :
  counts l s1 s2 → counts l' s2 s3 → counts (λ k, l k ++ l' k) s1 s3.
Proof.
  intros H12 H23 k n Hn. destruct (H12 k n Hn) as [Hi Hc]. destruct (H23 k _ Hc) as [Hi' Hc'].
  rewrite fmap_app, length_app, ids_from_app, Hi, Hi'. split; [done|]. rewrite Hc'. f_equal. lia.
Qed.

Lemma build_children_counts l s :
  counts (λ k, children_entries k (build_children agent_catalog l s).1) s
    (build_children agent_catalog l s).2.
Proof.
  revert s. induction l as [|c l IH]; intros s.
  { intros k n Hn. split; [done|]. simpl. by rewrite Z.add_0_r. }
  simpl. set (d := default true _).
  pose proof (graph_manifest_counts (ci_execution_graph c) d s) as Hg.
  destruct (graph_manifest _ _ _ _) as [m s1].
  specialize (IH s1). destruct (build_children agent_catalog l s1) as [built s2].
  exact (counts_app _ _ _ _ _ Hg IH).
Qed.

Lemma build_children_step_ids l s :
  cm_step_id <$> (build_children agent_catalog l s).1 = ci_step_id <$> l.
Proof.
  revert s. induction l as [|c l IH]; intros s; [done|]. simpl.
  destruct (graph_manifest _ _ _ _) as [m s1]. specialize (IH s1).
  destruct (build_children agent_catalog l s1). by apply (f_equal (cons (ci_step_id c))).
Qed.

(** The ids of a workflow are distinct as long as no table has more than 2^32 entries. *)
Lemma workflow_ids_nodup graph children k :
  let m := build_direct_workflow_manifest_with_child_workflows_and_agent_catalog
             agent_catalog graph children in
  Z.of_nat (length (all_entries k m)) ≤ 2 ^ 32 → NoDup (entry_id k <$> all_entries k m).
Proof.
  cbv zeta. unfold build_direct_workflow_manifest_with_child_workflows_and_agent_catalog, all_entries.
  pose proof (graph_manifest_counts graph (default true (graph_durable graph)) initial_state) as Hg.
  destruct (graph_manifest _ _ _ _) as [root s].
  pose proof (build_children_counts (merge_sort child_le children) s) as Hc.
  destruct (build_children _ _ s) as [built s']. simpl. intros Hlen.
  destruct (counts_app _ _ _ _ _ Hg Hc k 0) as [Hi _]; [by destruct k|].
  rewrite Hi. by apply ids_from_NoDup.
Qed.
End compiler.

(** ** The children in the guest *)

Definition child_entry (child : ChildWorkflowWire) : DirectJsonChildWorkflow :=
  {| child_step_id := cw_step_id child; GuestManifest.child_workflow_id := cw_workflow_id child;
     child_variables := wire_variables (graph_parts (cw_graph child));
     child_input_schema := wire_input_schema (graph_parts (cw_graph child)) |}.

Definition children_wire (k : Kind) (l : list ChildWorkflowWire) : list (Z * gentry k) :=
  List.concat ((λ c, parts_entries k (preorder (cw_graph c))) <$> l).

Lemma collect_children_fresh l c :
  NoDup (cw_step_id <$> l) → (∀ child, child ∈ l → child_workflows c !! cw_step_id child = None) →
  fresh_in c (λ k, children_wire k l) →
  ∃ c', collect_children l c = Ok c' ∧
    (∀ k, gtable k c' = list_to_map (children_wire k l) ∪ gtable k c) ∧
    (∀ child, child ∈ l → child_workflows c' !! cw_step_id child = Some (child_entry child)) ∧
    (∀ id, id ∉ cw_step_id <$> l → child_workflows c' !! id = child_workflows c !! id).
Proof.
  revert c. induction l as [|child l IH]; intros c Hnd Hnew Hfresh.
  { exists c. split_and!; [done| |set_solver|done]. intros k.
    unfold children_wire. simpl. by rewrite (left_id_L ∅ (∪)). }
  apply NoDup_cons in Hnd as [Hchild Hnd]. cbn [collect_children].
  rewrite Hnew by left. rewrite collect_preorder. fold (child_entry child).
  set (c0 := {| (c) with child_workflows := _ |}).
  assert (H0 : ∀ k, gtable k c0 = gtable k c) by (by intros []).
  assert (Hfresh0 : fresh_in c0 (λ k, children_wire k (child :: l))).
  { intros k. rewrite H0. apply Hfresh. }
  apply fresh_in_app in Hfresh0 as [Hg Hrest].
  destruct (collect_all_fresh _ _ Hg) as (c1 & Hc1 & Hch1 & Htab1). rewrite Hc1. cbn [mbind result_bind].
  destruct (IH c1) as (c2 & Hc2 & Htab2 & Hin2 & Hout2); [done| |by apply Hrest|].
  { intros ch Hch. rewrite Hch1. simpl. rewrite lookup_insert_ne; [apply Hnew; by right|].
    intros Heq. apply Hchild. rewrite Heq. apply list_elem_of_fmap. by exists ch. }
  exists c2. split; [done|]. split.
  { intros k. rewrite Htab2, Htab1, H0. apply list_to_map_app_union, (Hfresh k). }
  split.
  - intros ch [->|Hch]%elem_of_cons; [|by apply Hin2].
    rewrite Hout2 by done. rewrite Hch1. apply lookup_insert_eq.
  - intros id Hid. rewrite Hout2, Hch1 by set_solver. apply lookup_insert_ne. set_solver.
Qed.

Lemma children_wire_entries k l : children_wire k (child_wire <$> l) = entry_wire k <$> children_entries k l.
Proof.
  unfold children_wire, children_entries. induction l as [|c l IH]; [done|]. simpl.
  rewrite fmap_app. f_equal; [apply preorder_tree|apply IH].
Qed.

Section roundtrip.
Context `{UnicodeData, ManifestExternals}.

(** C10: Round trip from the compiler to the guest: the guest accepts every manifest the
    compiler builds, and finds each entry of each graph, of each kind, under the id the
    compiler gave it; it has no other entries.  Call sites of child workflows must be
    distinct, and no table longer than the 2^32 ids of the counter. *)
Theorem guest_finds_every_entry graph children agent_catalog :
  let m := build_direct_workflow_manifest_with_child_workflows_and_agent_catalog
             agent_catalog graph children in
  NoDup (ci_step_id <$> children) →
  (∀ k, Z.of_nat (length (all_entries k m)) ≤ 2 ^ 32) →
  ∃ M, parse_manifest (manifest_wire m) = Ok M ∧
    (∀ k i g, gtable k M !! i = Some g ↔
       ∃ e, e ∈ all_entries k m ∧ i = entry_id k e ∧ g = (entry_wire k e).2) ∧
    (∀ child, child ∈ wm_child_workflows m →
       child_workflows M !! cm_step_id child = Some (child_entry (child_wire child))).
Proof.
  intros m Hchildren Hlen.
  assert (Hall : ∀ k, NoDup (entry_wire k <$> all_entries k m).*1).
  { intros k. rewrite <-list_fmap_compose.
    rewrite (list_fmap_ext (fst ∘ entry_wire k) (entry_id k)) by (intros; apply entry_wire_id).
    by apply workflow_ids_nodup. }
  assert (Hids : NoDup (cw_step_id <$> (child_wire <$> wm_child_workflows m))).
  { rewrite <-list_fmap_compose. change (cw_step_id ∘ child_wire) with cm_step_id.
    subst m. unfold build_direct_workflow_manifest_with_child_workflows_and_agent_catalog.
    destruct (graph_manifest _ _ _ _) as [root s].
    pose proof (build_children_step_ids agent_catalog (merge_sort child_le children) s) as Hs.
    destruct (build_children _ _ s) as [built s']. simpl in *.
    rewrite Hs, merge_sort_Permutation. done. }
  clearbody m. unfold parse_manifest, manifest_wire. cbn [mw_graph mw_child_workflows].
  rewrite collect_preorder.
  assert (Hsplit : ∀ k, entry_wire k <$> all_entries k m
    = parts_entries k (preorder (graph_wire (wm_graph m)))
      ++ children_wire k (child_wire <$> wm_child_workflows m)).
  { intros k. unfold all_entries. by rewrite fmap_app, children_wire_entries, preorder_tree. }
  assert (Hfresh : fresh_in no_collections (λ k, parts_entries k (preorder (graph_wire (wm_graph m)))
      ++ children_wire k (child_wire <$> wm_child_workflows m))).
  { intros k. rewrite <-Hsplit. split; [done|]. intros i _. by destruct k. }
  apply fresh_in_app in Hfresh as [Hg Hrest].
  destruct (collect_all_fresh _ _ Hg) as (c1 & Hc1 & Hch1 & Htab1). rewrite Hc1. cbn [mbind result_bind].
  destruct (collect_children_fresh (child_wire <$> wm_child_workflows m) c1)
    as (M & HM & HtabM & HinM & _); [done| |by apply Hrest|].
  { intros child _. by rewrite Hch1. }
  exists M. split; [done|]. split.
  - intros k i g. rewrite HtabM, Htab1, list_to_map_app_union by (rewrite <-Hsplit; apply Hall).
    rewrite <-Hsplit. replace (gtable k no_collections) with (∅ : gmap Z (gentry k)) by (by destruct k).
    rewrite (right_id_L ∅ (∪)). rewrite <-elem_of_list_to_map by apply Hall.
    rewrite list_elem_of_fmap. split.
    + intros (e & He & Hin). exists e. split; [done|]. by rewrite <-entry_wire_id, <-He.
    + intros (e & Hin & -> & ->). exists e. split; [|done]. rewrite <-entry_wire_id. by destruct (entry_wire k e).
  - intros child Hchild. apply (HinM (child_wire child)). by apply list_elem_of_fmap_2.
Qed.
End roundtrip.
