(* ===== verification/DirectPlan.v ===== *)
(** * runtara-workflows: the run plan of a compiled workflow

    [direct_wasm/plan.rs]: the compiler turns the graphs of a manifest into a tree of what
    runs in what order.  Branching steps carry a plan for each branch and one for the step
    at which the branches meet; steps without a condition follow the topological order of
    their region; a fan-out whose branches are independent becomes a window of branches.

    The functions that plan a step call one another; the recursion is on a number of
    rounds, one for each call of [step_run_plan_inner], and its result is [None] only when
    they run out ([planned]).  The cache of region orders is a memo of
    [direct_execution_order] for one graph (the last section), so the plan is defined on
    that function.  The stack is an argument: every caller pops what it pushed, and the one
    caller that goes on after an error truncates it. *)

From S2P Require Import Prelude.
From S2P Require Import Json.
From S2P Require Import Text.
From S2P Require Import ValidationBase.
From S2P Require Import Dsl.
From S2P Require Import WorkflowFeatures.
From S2P Require Import DirectManifest.

Local Open Scope Z_scope.

(** ** Plans *)

(** [DirectErrorRoutePlan]: the conditioned branches and the default. *)
Record ErrorRoute (P : Type) := {
  er_branches : list (Z * P);
  er_default : option P }.
Arguments er_branches {P}.
Arguments er_default {P}.

(** [DirectAiToolPlan] *)
Inductive AiToolPlan (P : Type) :=
| AgentTool (agent_id : Z) (agent_component_id label : string) (timeout_ms : option Z)
| EmbedTool (step_id : string) (child_plan : P)
| WaitTool (step_id label : string).
Arguments AgentTool {P}.
Arguments EmbedTool {P}.
Arguments WaitTool {P}.

Record DirectAiSummarizePlan := {
  summarize_agent_id : Z;
  summarize_component_id : string }.

Record DirectAiMemoryPlan := {
  load_agent_id : Z;
  save_agent_id : Z;
  memory_component_id : string;
  conversation_mapping_id : Z;
  memory_max_messages : Z;
  summarize : option DirectAiSummarizePlan }.

(** The fields of the larger variants that are not plans. *)
Record SplitPlan := {
  sp_step_id : string;
  sp_split_id : Z;
  sp_durable : bool;
  sp_breakpoint : bool;
  sp_max_retries : Z;
  sp_retry_delay_ms : Z;
  sp_dont_stop_on_failed : bool;
  sp_parallel_window : option Z;
  sp_timeout_ms : option Z }.

Record WhilePlan := {
  wp_step_id : string;
  wp_while_id : Z;
  wp_breakpoint : bool;
  wp_timeout_ms : option Z }.

Record EmbedPlan := {
  ep_step_id : string;
  ep_input_mapping_id : Z;
  ep_durable : bool;
  ep_breakpoint : bool;
  ep_max_retries : Z;
  ep_retry_delay_ms : Z }.

Record AgentPlan := {
  ap_step_id : string;
  ap_agent_id : Z;
  ap_agent_component_id : string;
  ap_input_mapping_id : Z;
  ap_durable_checkpoint : bool;
  ap_breakpoint : bool }.

(** [DirectRunPlan] *)
#[warnings="-register-all"]
Inductive DirectRunPlan :=
| PFinish (step_id : string) (mapping_id : Z) (breakpoint : bool)
| PFilter (step_id : string) (filter_id : Z) (breakpoint : bool) (next_plan : DirectRunPlan)
| PSwitchValue (step_id : string) (switch_id : Z) (breakpoint : bool) (next_plan : DirectRunPlan)
| PSwitchRoute (step_id : string) (switch_id : Z) (breakpoint : bool)
    (branches : list (string * DirectRunPlan)) (default_plan : DirectRunPlan)
    (merge_plan : option DirectRunPlan)
| PEdgeRoute (branches : list (Z * DirectRunPlan)) (default_plan : DirectRunPlan)
    (merge_plan : option DirectRunPlan)
| PGroupBy (step_id : string) (group_id : Z) (breakpoint : bool) (next_plan : DirectRunPlan)
| PSplit (split : SplitPlan) (nested_plan next_plan : DirectRunPlan)
    (error_plan : option (ErrorRoute DirectRunPlan))
| PWhile (while : WhilePlan) (nested_plan next_plan : DirectRunPlan)
    (error_plan : option (ErrorRoute DirectRunPlan))
| PEmbedWorkflow (embed : EmbedPlan) (child_plan next_plan : DirectRunPlan)
    (error_plan : option (ErrorRoute DirectRunPlan))
| PDelay (step_id : string) (delay_id : Z) (durable breakpoint : bool) (next_plan : DirectRunPlan)
| PWaitForSignal (step_id : string) (breakpoint : bool) (on_wait_plan : option DirectRunPlan)
    (next_plan : DirectRunPlan) (error_plan : option (ErrorRoute DirectRunPlan))
| PLog (step_id : string) (log_id : Z) (breakpoint : bool) (next_plan : DirectRunPlan)
| PAgent (agent : AgentPlan) (max_retries retry_delay_ms rate_limit_budget_ms : Z)
    (next_plan : DirectRunPlan) (error_plan : option (ErrorRoute DirectRunPlan))
| PAiAgent (agent : AgentPlan) (max_retries retry_delay_ms : Z)
    (next_plan : DirectRunPlan) (error_plan : option (ErrorRoute DirectRunPlan))
| PAiAgentLoop (agent : AgentPlan) (max_iterations : Z) (tools : list (AiToolPlan DirectRunPlan))
    (memory : option DirectAiMemoryPlan)
    (next_plan : DirectRunPlan) (error_plan : option (ErrorRoute DirectRunPlan))
| PError (step_id : string) (error_id : Z) (breakpoint : bool)
| PConditional (step_id : string) (condition_id : Z) (breakpoint : bool)
    (true_plan false_plan : DirectRunPlan) (merge_plan : option DirectRunPlan)
| PParallelBranches (branches : list DirectRunPlan) (merge_plan : DirectRunPlan)
| PJoin
| PImplicitFinish.

(** ** Plans read *)

(** The ids along the chain of a branch ([chain_step_ids]). *)
Fixpoint chain_step_ids (plan : DirectRunPlan) : list string :=
  let of_merge (m : option DirectRunPlan) := match m with Some m => chain_step_ids m | None => [] end in
  match plan with
  | PAgent a _ _ _ next _ => ap_step_id a :: chain_step_ids next
  | PLog id _ _ next | PFilter id _ _ next | PSwitchValue id _ _ next | PGroupBy id _ _ next =>
      id :: chain_step_ids next
  | PConditional id _ _ t f merge => id :: chain_step_ids t ++ chain_step_ids f ++ of_merge merge
  | PSwitchRoute id _ _ branches d merge =>
      id :: List.concat (List.map (λ b, chain_step_ids b.2) branches) ++ chain_step_ids d ++ of_merge merge
  | PEdgeRoute branches d merge =>
      List.concat (List.map (λ b, chain_step_ids b.2) branches) ++ chain_step_ids d ++ of_merge merge
  | PWhile w nested next _ => wp_step_id w :: chain_step_ids nested ++ chain_step_ids next
  | PSplit s nested next _ => sp_step_id s :: chain_step_ids nested ++ chain_step_ids next
  | PEmbedWorkflow e child next _ => ep_step_id e :: chain_step_ids child ++ chain_step_ids next
  | PAiAgent a _ _ next _ => ap_step_id a :: chain_step_ids next
  | PAiAgentLoop a _ _ _ next _ => ap_step_id a :: chain_step_ids next
  | PDelay id _ _ _ next => id :: chain_step_ids next
  | PWaitForSignal id _ on_wait next _ => id :: of_merge on_wait ++ chain_step_ids next
  | _ => []
  end.

Definition node_has_breakpoint (node : DirectRunPlan) : bool :=
  match node with
  | PFinish _ _ b | PFilter _ _ b _ | PSwitchValue _ _ b _ | PSwitchRoute _ _ b _ _ _
  | PGroupBy _ _ b _ | PDelay _ _ _ b _ | PWaitForSignal _ b _ _ _ | PLog _ _ b _
  | PError _ _ b | PConditional _ _ b _ _ _ => b
  | PSplit s _ _ _ => sp_breakpoint s
  | PWhile w _ _ _ => wp_breakpoint w
  | PEmbedWorkflow e _ _ _ => ep_breakpoint e
  | PAgent a _ _ _ _ _ => ap_breakpoint a
  | PAiAgent a _ _ _ _ => ap_breakpoint a
  | PAiAgentLoop a _ _ _ _ _ => ap_breakpoint a
  | PEdgeRoute _ _ _ | PParallelBranches _ _ | PJoin | PImplicitFinish => false
  end.

(** [error_route_suspends] and [ai_tool_suspends], over the test of a plan. *)
Section suspends.
Context (suspends : DirectRunPlan → bool).

Definition option_suspends (p : option DirectRunPlan) : bool :=
  match p with Some p => suspends p | None => false end.

Definition error_route_suspends_by (e : option (ErrorRoute DirectRunPlan)) : bool :=
  match e with
  | Some route =>
      List.existsb (λ b, suspends b.2) (er_branches route) || option_suspends (er_default route)
  | None => false
  end.

Definition ai_tool_suspends_by (tool : AiToolPlan DirectRunPlan) : bool :=
  match tool with
  | WaitTool _ _ => true
  | EmbedTool _ child => suspends child
  | AgentTool _ _ _ _ => false
  end.
End suspends.

Fixpoint plan_contains_suspension (plan : DirectRunPlan) : bool :=
  node_has_breakpoint plan ||
  match plan with
  | PWaitForSignal _ _ _ _ _ | PDelay _ _ _ _ _ => true
  | PFinish _ _ _ | PError _ _ _ | PJoin | PImplicitFinish => false
  | PAgent _ _ _ _ next error =>
      plan_contains_suspension next || error_route_suspends_by plan_contains_suspension error
  | PAiAgent _ _ _ next error =>
      plan_contains_suspension next || error_route_suspends_by plan_contains_suspension error
  | PAiAgentLoop _ _ tools _ next error =>
      plan_contains_suspension next || error_route_suspends_by plan_contains_suspension error
      || List.existsb (ai_tool_suspends_by plan_contains_suspension) tools
  | PFilter _ _ _ next | PSwitchValue _ _ _ next | PGroupBy _ _ _ next | PLog _ _ _ next =>
      plan_contains_suspension next
  | PConditional _ _ _ t f merge =>
      plan_contains_suspension t || plan_contains_suspension f
      || option_suspends plan_contains_suspension merge
  | PSwitchRoute _ _ _ branches d merge =>
      List.existsb (λ b, plan_contains_suspension b.2) branches || plan_contains_suspension d
      || option_suspends plan_contains_suspension merge
  | PEdgeRoute branches d merge =>
      List.existsb (λ b, plan_contains_suspension b.2) branches || plan_contains_suspension d
      || option_suspends plan_contains_suspension merge
  | PWhile _ nested next error =>
      plan_contains_suspension nested || plan_contains_suspension next
      || error_route_suspends_by plan_contains_suspension error
  | PSplit _ nested next error =>
      plan_contains_suspension nested || plan_contains_suspension next
      || error_route_suspends_by plan_contains_suspension error
  | PEmbedWorkflow _ child next error =>
      plan_contains_suspension child || plan_contains_suspension next
      || error_route_suspends_by plan_contains_suspension error
  | PParallelBranches branches merge =>
      List.existsb plan_contains_suspension branches || plan_contains_suspension merge
  end.

Definition error_route_suspends := error_route_suspends_by plan_contains_suspension.
Definition ai_tool_suspends := ai_tool_suspends_by plan_contains_suspension.

(** The node itself, without what follows it. *)
Definition node_body_suspends (node : DirectRunPlan) : bool :=
  node_has_breakpoint node ||
  match node with
  | PWaitForSignal _ _ _ _ _ | PDelay _ _ _ _ _ => true
  | PConditional _ _ _ t f _ => plan_contains_suspension t || plan_contains_suspension f
  | PSwitchRoute _ _ _ branches d _ =>
      List.existsb (λ b, plan_contains_suspension b.2) branches || plan_contains_suspension d
  | PEdgeRoute branches d _ =>
      List.existsb (λ b, plan_contains_suspension b.2) branches || plan_contains_suspension d
  | PWhile _ nested _ error | PSplit _ nested _ error =>
      plan_contains_suspension nested || error_route_suspends error
  | PEmbedWorkflow _ child _ error => plan_contains_suspension child || error_route_suspends error
  | PAiAgent _ _ _ _ error => error_route_suspends error
  | PAiAgentLoop _ _ tools _ _ error => List.existsb ai_tool_suspends tools || error_route_suspends error
  | _ => false
  end.

Definition is_join (p : DirectRunPlan) : bool := match p with PJoin => true | _ => false end.

Fixpoint is_linear_chain_branch (plan : DirectRunPlan) : bool :=
  match plan with
  | PAgent _ _ _ _ next error =>
      if is_join next then true
      else if is_set error then false else is_linear_chain_branch next
  | PLog _ _ _ next | PFilter _ _ _ next | PSwitchValue _ _ _ next | PGroupBy _ _ _ next
  | PWhile _ _ next _ | PSplit _ _ next _ | PEmbedWorkflow _ _ next _
  | PAiAgent _ _ _ next _ | PAiAgentLoop _ _ _ _ next _ | PDelay _ _ _ _ next =>
      if is_join next then true else is_linear_chain_branch next
  | PConditional _ _ _ _ _ merge | PSwitchRoute _ _ _ _ _ merge | PEdgeRoute _ _ merge =>
      match merge with Some merge => is_linear_chain_branch merge | None => true end
  | PWaitForSignal _ _ on_wait next error =>
      if option_suspends plan_contains_suspension on_wait || error_route_suspends error then false
      else if is_join next then true else is_linear_chain_branch next
  | _ => false
  end.

(** ** Steps, edges and configurations *)

Definition Nested : Type := list (string * DirectGraphManifest).

Definition find_step (graph : DirectGraphManifest) (step_id : string) :
  option (DirectStepManifest * Nested) :=
  List.find (λ s, bool_decide (m_id s.1 = step_id)) (m_steps graph).

Definition find_typed_step (graph : DirectGraphManifest) (step_id type : string) :
  option (DirectStepManifest * Nested) :=
  List.find (λ s, bool_decide (m_id s.1 = step_id) && bool_decide (m_step_type s.1 = type))
    (m_steps graph).

Definition step_breakpoint_enabled (graph : DirectGraphManifest) (step : DirectStepManifest) : bool :=
  g_durable (m_parts graph) && default false (json_get "breakpoint" (m_body step) ≫= as_bool).

Definition is_normal_label (label : option string) : bool :=
  match label with
  | None => true
  | Some label => bool_decide (label = "") || bool_decide (label = "next")
  end.

Definition normal_flow_edges (graph : DirectGraphManifest) (from : string) : list DirectEdgeManifest :=
  filter (λ e, de_from_step e = from ∧ is_normal_label (de_label e) = true) (m_edges graph).

Definition on_error_edges (graph : DirectGraphManifest) (from : string) : list DirectEdgeManifest :=
  filter (λ e, de_from_step e = from ∧ de_label e = Some "onError") (m_edges graph).

Definition branch_target (graph : DirectGraphManifest) (from label : string) : result string string :=
  match List.find (λ e, bool_decide (de_from_step e = from) && bool_decide (de_label e = Some label))
          (m_edges graph) with
  | Some e => Ok (de_to_step e)
  | None => Err ("missing '" +:+ label +:+ "' branch for Conditional step '" +:+ from +:+ "'")
  end.

(** An entry of a table that must be there, for a step that must have the right type. *)
Definition ok_or {A} (o : option A) (e : string) : result string A :=
  match o with Some a => Ok a | None => Err e end.

Definition require_type (graph : DirectGraphManifest) (step_id type article : string) :
  result string unit :=
  match find_typed_step graph step_id type with
  | Some _ => Ok ()
  | None => Err ("direct step '" +:+ step_id +:+ "' is not " +:+ article +:+ " " +:+ type +:+ " step")
  end.

Definition missing_config (type step_id : string) : string :=
  "missing " +:+ type +:+ " config for step '" +:+ step_id +:+ "'".

Definition find_config (table : list DirectConfigManifest) (step_id purpose : string) :
  option DirectConfigManifest :=
  List.find (λ c, bool_decide (df_step_id c = step_id) && bool_decide (df_purpose c = purpose)) table.

Definition find_mapping (graph : DirectGraphManifest) (step_id purpose : string) :
  option DirectMappingManifest :=
  List.find (λ m, bool_decide (dm_step_id m = step_id) && bool_decide (dm_purpose m = purpose))
    (c_mappings (m_tables graph)).

Definition find_agent (graph : DirectGraphManifest) (step_id purpose : string) :
  option DirectAgentManifest :=
  List.find (λ a, bool_decide (da_step_id a = step_id) && bool_decide (da_purpose a = purpose))
    (c_agents (m_tables graph)).

(** [filter_id], [group_by_id], [log_id], [error_id] *)
Definition typed_config_id (graph : DirectGraphManifest) (table : list DirectConfigManifest)
  (step_id type article purpose : string) : result string Z :=
  _ ← require_type graph step_id type article;
  config ← ok_or (find_config table step_id purpose) (missing_config type step_id);
  Ok (df_id config).

Definition filter_id (graph : DirectGraphManifest) (step_id : string) : result string Z :=
  typed_config_id graph (c_filters (m_tables graph)) step_id "Filter" "a" "filter.config".
Definition switch_id (graph : DirectGraphManifest) (step_id : string) : result string Z :=
  typed_config_id graph (c_switches (m_tables graph)) step_id "Switch" "a" "switch.config".
Definition group_by_id (graph : DirectGraphManifest) (step_id : string) : result string Z :=
  typed_config_id graph (c_group_bys (m_tables graph)) step_id "GroupBy" "a" "groupBy.config".
Definition log_id (graph : DirectGraphManifest) (step_id : string) : result string Z :=
  typed_config_id graph (c_logs (m_tables graph)) step_id "Log" "a" "log.config".
Definition error_id (graph : DirectGraphManifest) (step_id : string) : result string Z :=
  typed_config_id graph (c_errors (m_tables graph)) step_id "Error" "an" "error.config".

Definition switch_config (graph : DirectGraphManifest) (step_id : string) : result string json :=
  config ← ok_or (find_config (c_switches (m_tables graph)) step_id "switch.config")
             (missing_config "Switch" step_id);
  Ok (df_value config).

Definition config_cases (config : json) : list json :=
  default [] (json_get "cases" config ≫= as_array).

Definition switch_is_routing (graph : DirectGraphManifest) (step_id : string) : result string bool :=
  config ← switch_config graph step_id;
  Ok (List.existsb (λ case, is_set (json_get "route" case)) (config_cases config)).

Definition switch_route_labels (graph : DirectGraphManifest) (step_id : string) :
  result string (list string) :=
  config ← switch_config graph step_id;
  Ok (dedup (sorted (filter (λ l, l ≠ "default")
        (omap (λ case, json_get "route" case ≫= as_str) (config_cases config))))).

Definition find_split (graph : DirectGraphManifest) (step_id : string) : option DirectSplitManifest :=
  List.find (λ s, bool_decide (ds_step_id s = step_id) && bool_decide (ds_purpose s = "split.config"))
    (c_splits (m_tables graph)).

Definition split_manifest (graph : DirectGraphManifest) (step_id : string) :
  result string DirectSplitManifest :=
  _ ← require_type graph step_id "Split" "a";
  ok_or (find_split graph step_id) (missing_config "Split" step_id).

Definition u32_max : Z := 2 ^ 32 - 1.

(** [u32::try_from] *)
Definition to_u32 (n : Z) : option Z := if decide (n ≤ u32_max) then Some n else None.

Definition positive (n : option Z) : option Z := n ≫= λ n, if decide (0 < n) then Some n else None.

Definition split_parallel_window (value : json) : option Z :=
  window ← json_get "parallelism" value ≫= as_u64;
  let window := if decide (window = 0) then u32_max else default u32_max (to_u32 window) in
  if decide (1 < window) then Some window else None.

Definition split_dont_stop_on_failed (value : json) : bool :=
  default false (json_get "dontStopOnFailed" value ≫= as_bool).

(** [split_timeout_ms] and [while_timeout_ms] *)
Definition config_timeout_ms (value : json) : option Z := positive (json_get "timeout" value ≫= as_u64).

Definition nested_graph (graph : DirectGraphManifest) (step_id type role : string) :
  option DirectGraphManifest :=
  step ← find_typed_step graph step_id type;
  snd <$> List.find (λ n, bool_decide (n.1 = role)) step.2.

Definition split_subgraph (graph : DirectGraphManifest) (step_id : string) :
  result string DirectGraphManifest :=
  ok_or (nested_graph graph step_id "Split" "split.subgraph")
    ("missing Split subgraph for step '" +:+ step_id +:+ "'").

Definition find_while (graph : DirectGraphManifest) (step_id : string) : option DirectWhileManifest :=
  List.find (λ w, bool_decide (dw_step_id w = step_id) && bool_decide (dw_purpose w = "while.config"))
    (c_whiles (m_tables graph)).

Definition while_id (graph : DirectGraphManifest) (step_id : string) : result string Z :=
  _ ← require_type graph step_id "While" "a";
  w ← ok_or (find_while graph step_id) (missing_config "While" step_id);
  Ok (dw_id w).

Definition while_timeout_ms (graph : DirectGraphManifest) (step_id : string) : option Z :=
  find_while graph step_id ≫= λ w, config_timeout_ms (dw_value w).

Definition while_subgraph (graph : DirectGraphManifest) (step_id : string) :
  result string DirectGraphManifest :=
  ok_or (nested_graph graph step_id "While" "while.subgraph")
    ("missing While subgraph for step '" +:+ step_id +:+ "'").

Definition wait_on_wait_subgraph (graph : DirectGraphManifest) (step_id : string) :
  result string (option DirectGraphManifest) :=
  _ ← require_type graph step_id "WaitForSignal" "a";
  Ok (nested_graph graph step_id "WaitForSignal" "waitForSignal.onWait").

Definition delay_config (graph : DirectGraphManifest) (step_id : string) :
  result string DirectDelayManifest :=
  _ ← require_type graph step_id "Delay" "a";
  ok_or (List.find (λ d, bool_decide (dd_step_id d = step_id)
                         && bool_decide (dd_purpose d = "delay.config")) (c_delays (m_tables graph)))
    (missing_config "Delay" step_id).

Definition child_workflow_graph (child_workflows : list DirectChildWorkflowGraphManifest)
  (step_id : string) : result string DirectChildWorkflowGraphManifest :=
  ok_or (List.find (λ c, bool_decide (cm_step_id c = step_id)) child_workflows)
    ("missing direct child workflow graph for EmbedWorkflow step '" +:+ step_id +:+ "'").

Definition agent_config (graph : DirectGraphManifest) (step_id : string) :
  result string DirectAgentManifest :=
  if is_set (find_typed_step graph step_id "Agent") || is_set (find_typed_step graph step_id "AiAgent")
  then ok_or (find_agent graph step_id "agent.config") (missing_config "Agent" step_id)
  else Err ("direct step '" +:+ step_id +:+ "' is not an Agent or AiAgent step").

Definition agent_effective_max_retries (agent : DirectAgentManifest) : Z :=
  default (if da_rate_limited agent then 5 else 3) (da_max_retries agent).

Definition agent_effective_retry_delay_ms (agent : DirectAgentManifest) : Z :=
  default (if da_rate_limited agent then 2000 else 1000) (da_retry_delay agent).

(** [embed_workflow_effective_max_retries], [split_effective_max_retries] and the delays. *)
Definition effective_max_retries (fallback : Z) (value : json) : Z :=
  default fallback ((json_get "maxRetries" value ≫= as_u64) ≫= to_u32).

Definition effective_retry_delay_ms (value : json) : Z :=
  default 1000 (json_get "retryDelay" value ≫= as_u64).

Definition finish_mapping_id (graph : DirectGraphManifest) (step_id : string) : result string Z :=
  match find_typed_step graph step_id "Finish" with
  | None => Err ("direct branch target '" +:+ step_id +:+ "' is not a Finish step")
  | Some _ =>
      m ← ok_or (find_mapping graph step_id "finish.inputMapping")
            ("missing Finish input mapping for step '" +:+ step_id +:+ "'");
      Ok (dm_id m)
  end.

Definition embed_workflow_input_mapping_id (graph : DirectGraphManifest) (step_id : string) :
  result string Z :=
  _ ← require_type graph step_id "EmbedWorkflow" "an";
  m ← ok_or (find_mapping graph step_id "embedWorkflow.inputMapping")
        ("missing EmbedWorkflow input mapping for step '" +:+ step_id +:+ "'");
  Ok (dm_id m).

(** ** Regions *)

Definition direct_is_branching_step (graph : DirectGraphManifest) (step : DirectStepManifest) : bool :=
  if decide (m_step_type step = "Conditional") then true
  else if decide (m_step_type step = "Switch") then
    match switch_is_routing graph (m_id step) with Ok b => b | Err _ => false end
  else false.

Definition direct_has_conditioned_normal_flow_edges (graph : DirectGraphManifest) (step_id : string) :
  bool :=
  List.existsb (λ e, bool_decide (de_from_step e = step_id) && is_normal_label (de_label e)
                     && is_set (de_condition_id e)) (m_edges graph).

(** A region is not followed beyond an unknown or a branching step. *)
Definition region_stops (graph : DirectGraphManifest) (step_id : string) : bool :=
  match find_step graph step_id with
  | None => true
  | Some step =>
      direct_is_branching_step graph step.1 || direct_has_conditioned_normal_flow_edges graph step_id
  end.

(** The [for] loop of the discovery. *)
Fixpoint region_edges (step_id : string) (stop_at : option string) (edges : list DirectEdgeManifest)
  (reachable : gset string) (found : list string) : gset string * list string :=
  match edges with
  | [] => (reachable, found)
  | e :: edges =>
      if bool_decide (de_from_step e = step_id) && is_normal_label (de_label e)
         && bool_decide (Some (de_to_step e) ≠ stop_at) && bool_decide (de_to_step e ∉ reachable)
      then region_edges step_id stop_at edges ({[de_to_step e]} ∪ reachable) (found ++ [de_to_step e])
      else region_edges step_id stop_at edges reachable found
  end.

Fixpoint region_discover (fuel : nat) (graph : DirectGraphManifest) (stop_at : option string)
  (reachable : gset string) (discovery_order queue : list string) :
  option (gset string * list string) :=
  match queue with
  | [] => Some (reachable, discovery_order)
  | step_id :: queue =>
      match fuel with
      | O => None
      | S fuel =>
          if region_stops graph step_id
          then region_discover fuel graph stop_at reachable discovery_order queue
          else
            let '(reachable, found) := region_edges step_id stop_at (m_edges graph) reachable [] in
            region_discover fuel graph stop_at reachable (discovery_order ++ found) (queue ++ found)
      end
  end.

Fixpoint region_indegree (edges : list DirectEdgeManifest) (reachable : gset string)
  (indegree : gmap string nat) : gmap string nat :=
  match edges with
  | [] => indegree
  | e :: edges =>
      region_indegree edges reachable
        (if is_normal_label (de_label e) && bool_decide (de_from_step e ∈ reachable)
            && bool_decide (de_to_step e ∈ reachable)
         then <[de_to_step e := S (default 0%nat (indegree !! de_to_step e))]> indegree
         else indegree)
  end.

Fixpoint region_release (step_id : string) (edges : list DirectEdgeManifest) (reachable : gset string)
  (indegree : gmap string nat) (queued : gset string) (ready : list string) :
  gmap string nat * gset string * list string :=
  match edges with
  | [] => (indegree, queued, ready)
  | e :: edges =>
      if bool_decide (de_from_step e = step_id) && is_normal_label (de_label e)
         && bool_decide (de_to_step e ∈ reachable)
      then
        match indegree !! de_to_step e with
        | None => region_release step_id edges reachable indegree queued ready
        | Some count =>
            let count := Nat.pred count in
            let indegree := <[de_to_step e := count]> indegree in
            if bool_decide (count = 0%nat) && bool_decide (de_to_step e ∉ queued)
            then region_release step_id edges reachable indegree ({[de_to_step e]} ∪ queued)
                   (ready ++ [de_to_step e])
            else region_release step_id edges reachable indegree queued ready
        end
      else region_release step_id edges reachable indegree queued ready
  end.

Fixpoint region_kahn (fuel : nat) (graph : DirectGraphManifest) (reachable : gset string)
  (indegree : gmap string nat) (queued : gset string) (order ready : list string) :
  option (gset string * list string) :=
  match ready with
  | [] => Some (queued, order)
  | step_id :: ready =>
      match fuel with
      | O => None
      | S fuel =>
          if region_stops graph step_id
          then region_kahn fuel graph reachable indegree queued (order ++ [step_id]) ready
          else
            let '(indegree, queued, released) :=
              region_release step_id (m_edges graph) reachable indegree queued [] in
            region_kahn fuel graph reachable indegree queued (order ++ [step_id]) (ready ++ released)
      end
  end.

(** A step enters a queue for one edge that leads to it, or as the root. *)
Definition region_rounds (graph : DirectGraphManifest) : nat := S (length (m_edges graph)).

Definition direct_execution_order (graph : DirectGraphManifest) (root : string)
  (stop_at : option string) : list string :=
  let '(reachable, discovery_order) :=
    default ({[root]}, [root])
      (region_discover (region_rounds graph) graph stop_at {[root]} [root] [root]) in
  let indegree := region_indegree (m_edges graph) reachable
                    (list_to_map ((λ id, (id, 0%nat)) <$> discovery_order)) in
  let '(queued, order) :=
    default (∅, []) (region_kahn (region_rounds graph) graph reachable indegree {[root]} [] [root]) in
  order ++ filter (λ id, id ∉ queued) discovery_order.

(** ** Where branches meet *)

Definition direct_control_successors (graph : DirectGraphManifest) (step_id : string) : list string :=
  match find_step graph step_id with
  | None => []
  | Some (step, _) =>
      if bool_decide (m_step_type step ∈ ["Finish"; "Error"]) then []
      else if direct_is_branching_step graph step then
        de_to_step <$> filter (λ e, de_from_step e = step_id ∧ de_label e ≠ Some "onError") (m_edges graph)
      else de_to_step <$> normal_flow_edges graph step_id
  end.

Fixpoint collect_reachable_loop (fuel : nat) (graph : DirectGraphManifest) (reachable : list string)
  (visited : gset string) (queue : list string) : option (list string) :=
  match queue with
  | [] => Some reachable
  | current :: queue =>
      match fuel with
      | O => None
      | S fuel =>
          if decide (current ∈ visited) then collect_reachable_loop fuel graph reachable visited queue
          else
            let visited := {[current]} ∪ visited in
            collect_reachable_loop fuel graph (reachable ++ [current]) visited
              (queue ++ filter (λ next, next ∉ visited) (direct_control_successors graph current))
      end
  end.

Definition direct_collect_reachable (graph : DirectGraphManifest) (start : string) : list string :=
  default [] (collect_reachable_loop (region_rounds graph) graph [] ∅ [start]).

Definition direct_find_merge_point (graph : DirectGraphManifest) (branch_starts : list (option string)) :
  option string :=
  match direct_collect_reachable graph <$> omap id branch_starts with
  | first :: second :: rest =>
      List.find (λ step_id, forallb (λ set, bool_decide (step_id ∈ set)) (second :: rest)) first
  | _ => None
  end.

(** The merge of the branches unless it is the one around them. *)
Definition local_merge (graph : DirectGraphManifest) (branch_starts : list (option string))
  (stop_at : option string) : option string :=
  merge ← direct_find_merge_point graph branch_starts;
  if decide (Some merge = stop_at) then None else Some merge.

(** ** Fan-outs *)

Definition is_forward (e : DirectEdgeManifest) : bool := negb (bool_decide (de_label e = Some "onError")).

Fixpoint forward_edges (step : string) (stop_at : option string) (edges : list DirectEdgeManifest)
  (reach : gset string) (found : list string) : gset string * list string :=
  match edges with
  | [] => (reach, found)
  | e :: edges =>
      if bool_decide (de_from_step e = step) && is_forward e
         && bool_decide (Some (de_to_step e) ≠ stop_at) && bool_decide (de_to_step e ∉ reach)
      then forward_edges step stop_at edges ({[de_to_step e]} ∪ reach) (found ++ [de_to_step e])
      else forward_edges step stop_at edges reach found
  end.

Fixpoint forward_reach (fuel : nat) (graph : DirectGraphManifest) (stop_at : option string)
  (reach : gset string) (queue : list string) : option (gset string) :=
  match queue with
  | [] => Some reach
  | step :: queue =>
      match fuel with
      | O => None
      | S fuel =>
          let '(reach, found) := forward_edges step stop_at (m_edges graph) reach [] in
          forward_reach fuel graph stop_at reach (queue ++ found)
      end
  end.

Definition region_single_entry (graph : DirectGraphManifest) (from_step : string)
  (stop_at : option string) : bool :=
  let reach := default ∅ (forward_reach (region_rounds graph) graph stop_at ∅ [from_step]) in
  negb (List.existsb (λ e,
    is_forward e && bool_decide (de_to_step e ∈ reach) && bool_decide (de_from_step e ≠ from_step)
    && bool_decide (de_from_step e ∉ reach)) (m_edges graph)).

(** The sets of step ids of the branches, as lists without repetitions. *)
Definition branches_independent (graph : DirectGraphManifest) (from_step : string)
  (branch_id_sets : list (list string)) : bool :=
  bool_decide (NoDup (List.concat branch_id_sets)) &&
  forallb (λ set, forallb (λ step,
    negb (List.existsb (λ e,
      bool_decide (de_to_step e = step) && is_normal_label (de_label e)
      && bool_decide (de_from_step e ≠ from_step) && bool_decide (de_from_step e ∉ set))
      (m_edges graph))) set) branch_id_sets.

(** ** Results *)

(** [None]: out of rounds; otherwise the [Result] of the source. *)
Definition planned (A : Type) : Type := option (result string A).

Definition and_then {A B} (x : planned A) (f : A → planned B) : planned B :=
  match x with
  | None => None
  | Some (Err e) => Some (Err e)
  | Some (Ok a) => f a
  end.

Declare Scope plan_scope.
Delimit Scope plan_scope with plan.
Notation "x '<~' y ; z" := (and_then y (λ x, z))
  (at level 20, y at level 100, z at level 200, only parsing) : plan_scope.
Local Open Scope plan_scope.

Definition done_ {A} (a : A) : planned A := Some (Ok a).
Definition failed {A} (e : string) : planned A := Some (Err e).

Fixpoint plan_each {A B} (f : A → planned B) (l : list A) : planned (list B) :=
  match l with
  | [] => done_ []
  | a :: l => b <~ f a; bs <~ plan_each f l; done_ (b :: bs)
  end.

Definition plan_option {A B} (f : A → planned B) (o : option A) : planned (option B) :=
  match o with
  | Some a => b <~ f a; done_ (Some b)
  | None => done_ None
  end.

(** [(-priority, ordinal, to_step)] *)
Definition priority_compare (left right : DirectEdgeManifest) : comparison :=
  then_compare (Z.compare (- default 0 (de_priority left)) (- default 0 (de_priority right)))
  (then_compare (Z.compare (de_ordinal left) (de_ordinal right))
     (String.compare (de_to_step left) (de_to_step right))).

Definition priority_le (left right : DirectEdgeManifest) : Prop := priority_compare left right ≠ Gt.

#[export] Instance priority_le_dec : RelDecision priority_le.
Proof. intros x y. unfold priority_le. apply _. Defined.

(** [(ordinal, to_step)] *)
Definition ordinal_le (left right : DirectEdgeManifest) : Prop :=
  then_compare (Z.compare (de_ordinal left) (de_ordinal right))
    (String.compare (de_to_step left) (de_to_step right)) ≠ Gt.

#[export] Instance ordinal_le_dec : RelDecision ordinal_le.
Proof. intros x y. unfold ordinal_le. apply _. Defined.

Definition conditioned_edges (edges : list DirectEdgeManifest) : list DirectEdgeManifest :=
  merge_sort priority_le (filter (λ e, is_Some (de_condition_id e)) edges).

Definition unconditioned_edges (edges : list DirectEdgeManifest) : list DirectEdgeManifest :=
  filter (λ e, de_condition_id e = None) edges.

(** The step after [from_step] in the order of its region. *)
Fixpoint successor_in (order : list string) (from_step : string) : option string :=
  match order with
  | [] => None
  | s :: order => if decide (s = from_step) then head order else successor_in order from_step
  end.

Definition topo_successor (graph : DirectGraphManifest) (region_root : string)
  (stop_at : option string) (from_step : string) : option string :=
  successor_in (direct_execution_order graph region_root stop_at) from_step.

(** The names of the tools in the input mapping of an AI agent. *)
Definition tool_names (graph : DirectGraphManifest) (step_id : string) : list string :=
  let defs : option (list json) :=
    m ← find_mapping graph step_id "agent.inputMapping";
    tools ← json_get "tools" (dm_value m);
    value ← json_get "value" tools;
    as_array value in
  match defs with
  | Some defs => omap (λ def, json_get "name" def ≫= as_str) defs
  | None => []
  end.

Definition tool_edges (graph : DirectGraphManifest) (step_id : string) : list DirectEdgeManifest :=
  filter (λ e, de_from_step e = step_id ∧
               default false (is_tool_label <$> de_label e) = true)
    (m_edges graph).

(** A positive number of the step's configuration. *)
Definition config_number (step : DirectStepManifest) (path : list string) (fallback : Z) : Z :=
  let value := foldl (λ v key, v ≫= json_get key) (Some (m_body step)) ("config" :: path) in
  default fallback (positive (wrap_u32 <$> (value ≫= as_u64))).

Section plan.
Context `{UnicodeData} (child_workflows : list DirectChildWorkflowGraphManifest).

(** ** One round: the functions of the source, over the call [step_run_plan_inner] makes *)

Section round.
Context (rec : DirectGraphManifest → string → list string → bool → option string → string →
               planned DirectRunPlan).

(** [step_run_plan]: a graph from a step, with an empty stack and cache. *)
Definition step_run_plan (graph : DirectGraphManifest) (step_id : string) : planned DirectRunPlan :=
  rec graph step_id [] true None step_id.

Definition plan_graph (graph : DirectGraphManifest) : planned DirectRunPlan :=
  step_run_plan graph (m_entry_point graph).

(** A branch and the conditioned branches of a route. *)
Definition plan_route (what : string) (graph : DirectGraphManifest) (from_step : string) (stack : list string)
  (include_on_error : bool) (stop_at : option string) (e : DirectEdgeManifest) :
  planned (Z * DirectRunPlan) :=
  match de_condition_id e with
  | None => failed ("missing " +:+ what +:+ " condition id for direct step '" +:+ from_step +:+ "'")
  | Some condition_id =>
      plan <~ rec graph (de_to_step e) stack include_on_error stop_at (de_to_step e);
      done_ (condition_id, plan)
  end.

(** [plan_branch_diamond] *)
Definition plan_branch (graph : DirectGraphManifest) (merge : string) (stack : list string)
  (include_on_error : bool) (e : DirectEdgeManifest) : planned DirectRunPlan :=
  rec graph (de_to_step e) stack include_on_error (Some merge) (de_to_step e).

(** The branches until one is not eligible. *)
Fixpoint plan_branches (graph : DirectGraphManifest) (merge : string) (stack : list string)
  (include_on_error : bool) (ordered : list DirectEdgeManifest) : planned (option (list DirectRunPlan)) :=
  match ordered with
  | [] => done_ (Some [])
  | e :: ordered =>
      plan <~ plan_branch graph merge stack include_on_error e;
      if negb (is_linear_chain_branch plan) then done_ None
      else if plan_contains_suspension plan && negb (g_durable (m_parts graph)) then done_ None
      else
        rest <~ plan_branches graph merge stack include_on_error ordered;
        done_ (cons plan <$> rest)
  end.

Definition plan_branch_diamond (graph : DirectGraphManifest) (from_step : string)
  (ordered : list DirectEdgeManifest) (merge : string) (stack : list string)
  (include_on_error : bool) (stop_at : option string) : planned (option DirectRunPlan) :=
  branches <~ plan_branches graph merge stack include_on_error ordered;
  match branches with
  | None => done_ None
  | Some branches =>
      if negb (branches_independent graph from_step (remove_dups ∘ chain_step_ids <$> branches))
      then done_ None
      else
        merge_plan <~ rec graph merge stack include_on_error stop_at merge;
        done_ (Some (PParallelBranches branches merge_plan))
  end.

(** An error of [plan_branch_diamond] is a decline ([built.unwrap_or(None)]). *)
Definition try_parallel_branches (graph : DirectGraphManifest) (from_step : string)
  (default_edges : list DirectEdgeManifest) (stack : list string) (include_on_error : bool)
  (stop_at : option string) : planned (option DirectRunPlan) :=
  let ordered := merge_sort ordinal_le default_edges in
  match local_merge graph ((λ e, Some (de_to_step e)) <$> ordered) stop_at with
  | None => done_ None
  | Some merge =>
      if negb (region_single_entry graph from_step stop_at) then done_ None
      else
        match plan_branch_diamond graph from_step ordered merge (stack ++ [from_step])
                include_on_error stop_at with
        | None => None
        | Some (Ok built) => done_ built
        | Some (Err _) => done_ None
        end
  end.

(** A region has a second way out. *)
Definition never_reconverges (graph : DirectGraphManifest) (region_root : string)
  (stop_at : option string) : bool :=
  let hard_terminals :=
    length (filter (λ s, normal_flow_edges graph s = [])
      (direct_execution_order graph region_root stop_at)) in
  (2 <=? hard_terminals)%nat || (is_set stop_at && (1 <=? hard_terminals)%nat).

(** A step without conditioned edges: the next step of its region, or its end. *)
Definition sequential_plan (graph : DirectGraphManifest) (from_step : string) (stack : list string)
  (include_on_error : bool) (stop_at : option string) (region_root : string) :
  planned DirectRunPlan :=
  let edges := normal_flow_edges graph from_step in
  match topo_successor graph region_root stop_at from_step with
  | Some next => rec graph next (stack ++ [from_step]) include_on_error stop_at region_root
  | None =>
      if bool_decide (length edges = 0%nat) then done_ PImplicitFinish
      else if is_set stop_at && forallb (λ e, bool_decide (Some (de_to_step e) = stop_at)) edges
      then done_ PJoin
      else failed ("direct run plan contains a cycle at step '" +:+ from_step +:+ "'")
  end.

(** A step with conditioned edges. *)
Definition edge_route_plan (graph : DirectGraphManifest) (from_step : string) (stack : list string)
  (include_on_error : bool) (stop_at : option string) : planned DirectRunPlan :=
  let edges := normal_flow_edges graph from_step in
  let conditional_edges := conditioned_edges edges in
  match unconditioned_edges edges with
  | [default_edge] =>
      let starts := ((λ e, Some (de_to_step e)) <$> conditional_edges) ++ [Some (de_to_step default_edge)] in
      let merge := local_merge graph starts stop_at in
      let branch_stop := union merge stop_at in
      let stack := stack ++ [from_step] in
      branches <~ plan_each (plan_route "edge" graph from_step stack include_on_error branch_stop) conditional_edges;
      default_plan <~ rec graph (de_to_step default_edge) stack include_on_error branch_stop
                        (de_to_step default_edge);
      merge_plan <~ plan_option (λ m, rec graph m stack include_on_error stop_at m) merge;
      done_ (PEdgeRoute branches default_plan merge_plan)
  | _ =>
      failed ("direct step '" +:+ from_step
              +:+ "' conditional edge routing requires exactly one default branch")
  end.

Definition normal_flow_plan (graph : DirectGraphManifest) (from_step : string) (stack : list string)
  (include_on_error : bool) (stop_at : option string) (region_root : string) :
  planned DirectRunPlan :=
  let edges := normal_flow_edges graph from_step in
  let default_edges := unconditioned_edges edges in
  match conditioned_edges edges with
  | [] =>
      if (1 <? length default_edges)%nat then
        parallel <~ try_parallel_branches graph from_step default_edges stack include_on_error stop_at;
        match parallel with
        | Some plan => done_ plan
        | None =>
            if never_reconverges graph region_root stop_at then
              failed ("direct step '" +:+ from_step
                      +:+ "' fans out to parallel branches that never re-converge")
            else sequential_plan graph from_step stack include_on_error stop_at region_root
        end
      else sequential_plan graph from_step stack include_on_error stop_at region_root
  | _ => edge_route_plan graph from_step stack include_on_error stop_at
  end.

(** [on_error_plan]; the handlers have no handlers of their own. *)
Definition on_error_plan (graph : DirectGraphManifest) (from_step : string) (stack : list string) :
  planned (option (ErrorRoute DirectRunPlan)) :=
  match on_error_edges graph from_step with
  | [] => done_ None
  | edges =>
      match unconditioned_edges edges with
      | _ :: _ :: _ =>
          failed ("direct step '" +:+ from_step +:+ "' onError routing supports at most one default branch")
      | default_edges =>
          let stack := stack ++ [from_step] in
          branches <~ plan_each (plan_route "onError" graph from_step stack false None) (conditioned_edges edges);
          default_plan <~ plan_option (λ e, rec graph (de_to_step e) stack false None (de_to_step e))
                            (head default_edges);
          done_ (Some {| er_branches := branches; er_default := default_plan |})
      end
  end.

Definition error_plan_of (graph : DirectGraphManifest) (from_step : string) (stack : list string)
  (include_on_error : bool) : planned (option (ErrorRoute DirectRunPlan)) :=
  if include_on_error then on_error_plan graph from_step stack else done_ None.

(** ** The kinds of steps *)

Section step.
Context (graph : DirectGraphManifest) (step : DirectStepManifest) (step_id : string)
  (stack : list string) (include_on_error : bool) (stop_at : option string) (region_root : string).

Local Abbreviation breakpoint := (step_breakpoint_enabled graph step).
Local Abbreviation next :=
  (normal_flow_plan graph step_id stack include_on_error stop_at region_root).
Local Abbreviation on_error := (error_plan_of graph step_id stack include_on_error).

(** The plan of a branch that starts at [target]. *)
Definition branch_plan (branch_stop : option string) (target : string) : planned DirectRunPlan :=
  rec graph target (stack ++ [step_id]) include_on_error branch_stop target.

Definition merge_point_plan (merge : option string) : planned (option DirectRunPlan) :=
  plan_option (λ m, rec graph m (stack ++ [step_id]) include_on_error stop_at m) merge.

Definition switch_plan : planned DirectRunPlan :=
  switch_id <~ Some (switch_id graph step_id);
  routing <~ Some (switch_is_routing graph step_id);
  if (routing : bool) then
    labels <~ Some (switch_route_labels graph step_id);
    let start label := match branch_target graph step_id label with Ok t => Some t | Err _ => None end in
    let merge := local_merge graph ((start <$> labels) ++ [start "default"]) stop_at in
    let branch_stop := union merge stop_at in
    branches <~ plan_each (λ label,
                  target <~ Some (branch_target graph step_id label);
                  plan <~ branch_plan branch_stop target; done_ (label, plan)) labels;
    default_target <~ Some (branch_target graph step_id "default");
    default_plan <~ branch_plan branch_stop default_target;
    merge_plan <~ merge_point_plan merge;
    done_ (PSwitchRoute step_id switch_id breakpoint branches default_plan merge_plan)
  else
    next_plan <~ next; done_ (PSwitchValue step_id switch_id breakpoint next_plan).

Definition split_plan : planned DirectRunPlan :=
  split <~ Some (split_manifest graph step_id);
  nested <~ Some (split_subgraph graph step_id);
  nested_plan <~ plan_graph nested;
  next_plan <~ next;
  error_plan <~ on_error;
  done_ (PSplit
    {| sp_step_id := step_id; sp_split_id := ds_id split; sp_durable := ds_durable split;
       sp_breakpoint := breakpoint; sp_max_retries := effective_max_retries 0 (ds_value split);
       sp_retry_delay_ms := effective_retry_delay_ms (ds_value split);
       sp_dont_stop_on_failed := split_dont_stop_on_failed (ds_value split);
       sp_parallel_window := split_parallel_window (ds_value split);
       sp_timeout_ms := config_timeout_ms (ds_value split) |} nested_plan next_plan error_plan).

Definition while_plan : planned DirectRunPlan :=
  while_id <~ Some (while_id graph step_id);
  nested <~ Some (while_subgraph graph step_id);
  nested_plan <~ plan_graph nested;
  next_plan <~ next;
  error_plan <~ on_error;
  done_ (PWhile
    {| wp_step_id := step_id; wp_while_id := while_id; wp_breakpoint := breakpoint;
       wp_timeout_ms := while_timeout_ms graph step_id |} nested_plan next_plan error_plan).

Definition embed_plan : planned DirectRunPlan :=
  child <~ Some (child_workflow_graph child_workflows step_id);
  child_plan <~ plan_graph (cm_graph child);
  next_plan <~ next;
  error_plan <~ on_error;
  input_mapping_id <~ Some (embed_workflow_input_mapping_id graph step_id);
  done_ (PEmbedWorkflow
    {| ep_step_id := step_id; ep_input_mapping_id := input_mapping_id;
       ep_durable := g_durable (m_parts graph)
                     && default true (json_get "durable" (m_body step) ≫= as_bool);
       ep_breakpoint := breakpoint; ep_max_retries := effective_max_retries 3 (m_body step);
       ep_retry_delay_ms := effective_retry_delay_ms (m_body step) |} child_plan next_plan error_plan).

Definition wait_plan : planned DirectRunPlan :=
  on_wait <~ Some (wait_on_wait_subgraph graph step_id);
  on_wait_plan <~ plan_option plan_graph on_wait;
  next_plan <~ next;
  error_plan <~ on_error;
  done_ (PWaitForSignal step_id breakpoint on_wait_plan next_plan error_plan).

(** The fields of an agent's entry that a plan carries. *)
Definition agent_plan (agent : DirectAgentManifest) : AgentPlan :=
  {| ap_step_id := step_id; ap_agent_id := da_id agent;
     ap_agent_component_id := canonicalize_direct_agent_id (da_agent_id agent);
     ap_input_mapping_id := da_input_mapping_id agent;
     ap_durable_checkpoint := da_durable agent; ap_breakpoint := breakpoint |}.

Definition tool_agent (agent : DirectAgentManifest) (name : string) : AiToolPlan DirectRunPlan :=
  AgentTool (da_id agent) (canonicalize_direct_agent_id (da_agent_id agent)) name (da_timeout agent).

Definition find_mcp_agent (name : string) : option DirectAgentManifest :=
  List.find (λ a, bool_decide (da_step_id a = step_id) && bool_decide (da_purpose a = "agent.tool.mcp")
                  && bool_decide (da_name a = Some name)) (c_agents (m_tables graph)).

Definition tool_plan (name : string) : planned (AiToolPlan DirectRunPlan) :=
  match List.find (λ e, bool_decide (de_label e = Some name)) (tool_edges graph step_id) with
  | Some e =>
      let target := de_to_step e in
      if List.existsb (λ c, bool_decide (cm_step_id c = target)) child_workflows then
        child <~ Some (child_workflow_graph child_workflows target);
        child_plan <~ plan_graph (cm_graph child);
        done_ (EmbedTool target child_plan)
      else if is_set (find_typed_step graph target "WaitForSignal") then done_ (WaitTool target name)
      else
        agent <~ Some (ok_or (find_agent graph target "agent.config")
                   ("AiAgent tool target '" +:+ target +:+ "' has no agent config"));
        done_ (tool_agent agent name)
  | None =>
      agent <~ Some (ok_or (find_mcp_agent name)
                 ("AiAgent tool '" +:+ name +:+ "' has no execution-plan edge or MCP provider"));
      done_ (tool_agent agent name)
  end.

Definition memory_plan : option DirectAiMemoryPlan :=
  load ← find_agent graph step_id "memory.load";
  save ← find_agent graph step_id "memory.save";
  conversation ← find_mapping graph step_id "memory.conversation";
  Some {| load_agent_id := da_id load; save_agent_id := da_id save;
          memory_component_id := canonicalize_direct_agent_id (da_agent_id load);
          conversation_mapping_id := dm_id conversation;
          memory_max_messages := config_number step ["memory"; "compaction"; "maxMessages"] 50;
          summarize := (λ a, {| summarize_agent_id := da_id a;
                                summarize_component_id := canonicalize_direct_agent_id (da_agent_id a) |})
                       <$> find_agent graph step_id "memory.summarize" |}.

Definition ai_agent_plan : planned DirectRunPlan :=
  agent <~ Some (agent_config graph step_id);
  if bool_decide (da_capability_id agent = "chat-completion") then
    next_plan <~ next;
    error_plan <~ on_error;
    done_ (PAiAgent (agent_plan agent) (default 0 (da_max_retries agent))
             (default 1000 (da_retry_delay agent)) next_plan error_plan)
  else
    tools <~ plan_each tool_plan (tool_names graph step_id);
    next_plan <~ next;
    error_plan <~ on_error;
    done_ (PAiAgentLoop (agent_plan agent) (config_number step ["maxIterations"] 10) tools memory_plan
             next_plan error_plan).

Definition conditional_id : result string Z :=
  match List.find (λ c, bool_decide (dc_owner_id c = step_id)
                        && bool_decide (dc_purpose c = "conditional.condition"))
          (c_conditions (m_tables graph)) with
  | Some c => Ok (dc_id c)
  | None => Err ("missing Conditional condition for step '" +:+ step_id +:+ "'")
  end.

Definition conditional_plan : planned DirectRunPlan :=
  condition_id <~ Some conditional_id;
  true_step <~ Some (branch_target graph step_id "true");
  false_step <~ Some (branch_target graph step_id "false");
  let merge := local_merge graph [Some true_step; Some false_step] stop_at in
  let branch_stop := union merge stop_at in
  true_plan <~ branch_plan branch_stop true_step;
  false_plan <~ branch_plan branch_stop false_step;
  merge_plan <~ merge_point_plan merge;
  done_ (PConditional step_id condition_id breakpoint true_plan false_plan merge_plan).

Definition agent_step_plan : planned DirectRunPlan :=
  agent <~ Some (agent_config graph step_id);
  next_plan <~ next;
  error_plan <~ on_error;
  done_ (PAgent (agent_plan agent) (agent_effective_max_retries agent)
           (agent_effective_retry_delay_ms agent) (g_rate_limit_budget_ms (m_parts graph))
           next_plan error_plan).

(** The [match step.step_type.as_str()]. *)
Definition typed_plan : planned DirectRunPlan :=
  if decide (m_step_type step = "Finish") then
    id <~ Some (finish_mapping_id graph step_id); done_ (PFinish step_id id breakpoint)
  else if decide (m_step_type step = "Filter") then
    id <~ Some (filter_id graph step_id); next_plan <~ next; done_ (PFilter step_id id breakpoint next_plan)
  else if decide (m_step_type step = "Switch") then switch_plan
  else if decide (m_step_type step = "GroupBy") then
    id <~ Some (group_by_id graph step_id); next_plan <~ next; done_ (PGroupBy step_id id breakpoint next_plan)
  else if decide (m_step_type step = "Split") then split_plan
  else if decide (m_step_type step = "While") then while_plan
  else if decide (m_step_type step = "EmbedWorkflow") then embed_plan
  else if decide (m_step_type step = "Delay") then
    delay <~ Some (delay_config graph step_id); next_plan <~ next;
    done_ (PDelay step_id (dd_id delay) (dd_durable delay) breakpoint next_plan)
  else if decide (m_step_type step = "WaitForSignal") then wait_plan
  else if decide (m_step_type step = "Log") then
    id <~ Some (log_id graph step_id); next_plan <~ next; done_ (PLog step_id id breakpoint next_plan)
  else if decide (m_step_type step = "Agent") then agent_step_plan
  else if decide (m_step_type step = "AiAgent") then ai_agent_plan
  else if decide (m_step_type step = "Error") then
    id <~ Some (error_id graph step_id); done_ (PError step_id id breakpoint)
  else if decide (m_step_type step = "Conditional") then conditional_plan
  else failed ("direct run plan does not support step '" +:+ step_id +:+ "' with type '"
               +:+ m_step_type step +:+ "'").
End step.

(** The checks of [step_run_plan_inner] before it looks at the step. *)
Definition plan_step (graph : DirectGraphManifest) (step_id : string) (stack : list string)
  (include_on_error : bool) (stop_at : option string) (region_root : string) : planned DirectRunPlan :=
  if decide (stop_at = Some step_id) then done_ PJoin
  else if decide (step_id ∈ stack) then
    failed ("direct run plan contains a cycle at step '" +:+ step_id +:+ "'")
  else
    match find_step graph step_id with
    | None => failed ("missing direct step '" +:+ step_id +:+ "'")
    | Some (step, _) =>
        typed_plan graph step step_id stack include_on_error stop_at region_root
    end.
End round.

Fixpoint step_run_plan_inner (fuel : nat) (graph : DirectGraphManifest) (step_id : string)
  (stack : list string) (include_on_error : bool) (stop_at : option string) (region_root : string) :
  planned DirectRunPlan :=
  match fuel with
  | O => None
  | S fuel =>
      plan_step (step_run_plan_inner fuel) graph step_id stack include_on_error stop_at region_root
  end.
End plan.

Definition direct_run_plan `{UnicodeData} (fuel : nat) (manifest : DirectWorkflowManifest) :
  planned DirectRunPlan :=
  let graph := wm_graph manifest in
  match find_step graph (m_entry_point graph) with
  | None => failed ("missing direct entry step '" +:+ m_entry_point graph +:+ "'")
  | Some (entry, _) =>
      if bool_decide (m_step_type entry ∈
           ["Finish"; "Filter"; "Switch"; "GroupBy"; "Split"; "While"; "Delay"; "EmbedWorkflow";
            "WaitForSignal"; "Log"; "Agent"; "AiAgent"; "Error"; "Conditional"])
      then plan_graph (step_run_plan_inner (wm_child_workflows manifest) fuel) graph
      else failed ("direct run plan does not support entry step type '" +:+ m_step_type entry +:+ "'")
  end.

(** ** The cache of region orders *)

Definition RegionOrderCache : Type := gmap (string * option string) (list string).

(** [region_order]: the cached order, or the order computed and cached. *)
Definition region_order (cache : RegionOrderCache) (graph : DirectGraphManifest) (root : string)
  (stop_at : option string) : list string * RegionOrderCache :=
  match cache !! (root, stop_at) with
  | Some order => (order, cache)
  | None =>
      let order := direct_execution_order graph root stop_at in
      (order, <[(root, stop_at) := order]> cache)
  end.

(** A cache that has only been asked about [graph] gives its orders. *)
Definition cache_of (graph : DirectGraphManifest) (cache : RegionOrderCache) : Prop :=
  ∀ root stop_at order, cache !! (root, stop_at) = Some order →
    order = direct_execution_order graph root stop_at.

Lemma region_order_memo cache graph root stop_at :
  cache_of graph cache →
  (region_order cache graph root stop_at).1 = direct_execution_order graph root stop_at ∧
  cache_of graph (region_order cache graph root stop_at).2.
Proof.
  intros Hc. unfold region_order. destruct (cache !! (root, stop_at)) as [order|] eqn:Ho.
  - split; [by apply Hc|done].
  - split; [done|]. simpl. intros r s order Hl.
    apply lookup_insert_Some in Hl as [[[= <- <-] <-]|[_ Hl]]; [done|by apply Hc].
Qed.

(** * What a run plan runs

    The order of the steps of a run in which no step fails, as the emitters lower a plan
    ([compile/dispatcher.rs], [edge_route.rs], [switch_route.rs], [branch_parallel.rs]):
    a step and what follows it; one branch of a branching step, then the plan of the merge
    point; the branches of a window, interleaved, then its merge point.  A Finish step sets
    the output and falls through to what follows the branch it ends; an Error step ends
    the run.  Nested graphs belong to their step. *)

(** A step and the plan that follows it. *)
Definition next_of (plan : DirectRunPlan) : option (string * DirectRunPlan) :=
  match plan with
  | PFilter id _ _ next | PSwitchValue id _ _ next | PGroupBy id _ _ next | PLog id _ _ next
  | PDelay id _ _ _ next | PWaitForSignal id _ _ next _ => Some (id, next)
  | PSplit s _ next _ => Some (sp_step_id s, next)
  | PWhile w _ next _ => Some (wp_step_id w, next)
  | PEmbedWorkflow e _ next _ => Some (ep_step_id e, next)
  | PAgent a _ _ _ next _ => Some (ap_step_id a, next)
  | PAiAgent a _ _ next _ => Some (ap_step_id a, next)
  | PAiAgentLoop a _ _ _ next _ => Some (ap_step_id a, next)
  | _ => None
  end.

(** A choice: the step that makes it, its branches and the merge point. *)
Definition choice_of (plan : DirectRunPlan) :
  option (list string * list DirectRunPlan * option DirectRunPlan) :=
  match plan with
  | PConditional id _ _ t f merge => Some ([id], [t; f], merge)
  | PSwitchRoute id _ _ branches d merge => Some ([id], branches.*2 ++ [d], merge)
  | PEdgeRoute branches d merge => Some ([], branches.*2 ++ [d], merge)
  | _ => None
  end.

(** All the steps of the branches, those of each branch in their order. *)
Definition interleaves (branches : list (list string)) (l : list string) : Prop :=
  l ≡ₚ List.concat branches ∧ Forall (λ b, sublist b l) branches.

(** [runs p l raised]: the plan runs the steps [l] and falls through, or an Error step
    ended the run. *)
#[warnings="-register-all"]
Inductive runs : DirectRunPlan → list string → bool → Prop :=
| run_finish id m b : runs (PFinish id m b) [id] false
| run_error id e b : runs (PError id e b) [id] true
| run_join : runs PJoin [] false
| run_implicit_finish : runs PImplicitFinish [] false
| run_next p id next l raised :
    next_of p = Some (id, next) → runs next l raised → runs p (id :: l) raised
| run_choice_raised p ids branches merge b l :
    choice_of p = Some (ids, branches, merge) → b ∈ branches → runs b l true →
    runs p (ids ++ l) true
| run_choice_end p ids branches b l :
    choice_of p = Some (ids, branches, None) → b ∈ branches → runs b l false →
    runs p (ids ++ l) false
| run_choice_merge p ids branches merge b l l' raised :
    choice_of p = Some (ids, branches, Some merge) → b ∈ branches → runs b l false →
    runs merge l' raised → runs p (ids ++ l ++ l') raised
| run_window branches merge ls l l' raised :
    Forall2 (λ b l, runs b l false) branches ls → interleaves ls l → runs merge l' raised →
    runs (PParallelBranches branches merge) (l ++ l') raised.

(** The steps a plan can run, branches and windows included. *)
Fixpoint plan_steps (plan : DirectRunPlan) : list string :=
  let of_merge (m : option DirectRunPlan) := match m with Some m => plan_steps m | None => [] end in
  match plan with
  | PFinish id _ _ | PError id _ _ => [id]
  | PJoin | PImplicitFinish => []
  | PFilter id _ _ next | PSwitchValue id _ _ next | PGroupBy id _ _ next | PLog id _ _ next
  | PDelay id _ _ _ next | PWaitForSignal id _ _ next _ => id :: plan_steps next
  | PSplit s _ next _ => sp_step_id s :: plan_steps next
  | PWhile w _ next _ => wp_step_id w :: plan_steps next
  | PEmbedWorkflow e _ next _ => ep_step_id e :: plan_steps next
  | PAgent a _ _ _ next _ => ap_step_id a :: plan_steps next
  | PAiAgent a _ _ next _ => ap_step_id a :: plan_steps next
  | PAiAgentLoop a _ _ _ next _ => ap_step_id a :: plan_steps next
  | PConditional id _ _ t f merge => id :: plan_steps t ++ plan_steps f ++ of_merge merge
  | PSwitchRoute id _ _ branches d merge =>
      id :: List.concat (List.map (λ b, plan_steps b.2) branches) ++ plan_steps d ++ of_merge merge
  | PEdgeRoute branches d merge =>
      List.concat (List.map (λ b, plan_steps b.2) branches) ++ plan_steps d ++ of_merge merge
  | PParallelBranches branches merge => List.concat (List.map plan_steps branches) ++ plan_steps merge
  end.

Lemma concat_map_elem {A B} (f : A → list B) l a x : a ∈ l → x ∈ f a → x ∈ List.concat (List.map f l).
Proof.
  intros Ha Hx. apply list_elem_of_In, in_concat. exists (f a).
  split; [|by apply list_elem_of_In]. apply in_map. by apply list_elem_of_In.
Qed.

Lemma next_steps plan id next :
  next_of plan = Some (id, next) → plan_steps plan = id :: plan_steps next.
Proof. intros Hn. destruct plan; try done; simpl in Hn; by injection Hn as <- <-. Qed.

Lemma choice_steps plan ids branches merge :
  choice_of plan = Some (ids, branches, merge) →
  ids ⊆ plan_steps plan ∧ (∀ b, b ∈ branches → plan_steps b ⊆ plan_steps plan) ∧
  (∀ m, merge = Some m → plan_steps m ⊆ plan_steps plan).
Proof.
  intros Hc. destruct plan as [| | |?id ? ? bs d m|bs d m| | | | | | | | | | | |?id ? ? t f m| | |];
    try done; injection Hc as <- <- <-.
  1,2: split; [set_solver|]; split; [|intros m' ->; set_solver];
    intros b [Hb| ->%list_elem_of_singleton]%elem_of_app; [|set_solver];
    apply list_elem_of_fmap in Hb as (b' & -> & Hb); intros x Hx; simpl;
    pose proof (concat_map_elem (λ b, plan_steps b.2) _ _ _ Hb Hx); set_solver.
  split; [set_solver|]. split; [|intros m' ->; set_solver].
  intros b Hb x Hx. simpl. set_solver.
Qed.

(** A run stays within the steps of its plan. *)
Lemma runs_steps plan l raised : runs plan l raised → l ⊆ plan_steps plan.
Proof.
  revert plan l raised. fix IH 4. intros plan l raised Hr.
  destruct Hr as [| | | |p id next l raised Hn Hr|p ids branches merge b l Hc Hb Hr
    |p ids branches b l Hc Hb Hr|p ids branches merge b l l' raised Hc Hb Hr Hr'
    |branches merge ls l l' raised Hall [Hp _] Hr']; try (simpl; set_solver).
  - rewrite (next_steps _ _ _ Hn). apply IH in Hr. set_solver.
  - destruct (choice_steps _ _ _ _ Hc) as (Hi & Hbs & _). apply IH in Hr. specialize (Hbs _ Hb). set_solver.
  - destruct (choice_steps _ _ _ _ Hc) as (Hi & Hbs & _). apply IH in Hr. specialize (Hbs _ Hb). set_solver.
  - destruct (choice_steps _ _ _ _ Hc) as (Hi & Hbs & Hm). apply IH in Hr. apply IH in Hr'.
    specialize (Hbs _ Hb). specialize (Hm _ eq_refl). set_solver.
  - apply IH in Hr'. simpl. intros x [Hx|Hx]%elem_of_app; [|set_solver]. apply elem_of_app. left.
    rewrite Hp in Hx. clear Hp. induction Hall as [|b l0 bs ls Hb Hall IHall]; [set_solver|].
    simpl in *. apply elem_of_app in Hx as [Hx|Hx]; apply elem_of_app; [left|right; by apply IHall].
    by apply (IH _ _ _ Hb).
Qed.
