(* ===== verification/DirectPlanProperties.v ===== *)
(** * Planning ends

    [step_run_plan_inner] of plan.rs goes on with a step that is not on its stack, with a
    nested graph or with an embedded child.  Where the graphs a workflow opens do not open
    each other forever, planning ends with a plan or an error.  The second part is the
    order of the steps of a region. *)

From S2P Require Import Prelude.
From S2P Require Import Json.
From S2P Require Import Text.
From S2P Require Import ValidationBase.
From S2P Require Import Dsl.
From S2P Require Import GraphOrder.
From S2P Require Import GraphOrderProperties.
From S2P Require Import DirectManifest.
From S2P Require Import DirectPlan.

Local Open Scope nat_scope.

(** The call sites of child workflows: EmbedWorkflow steps and targets of tool edges. *)
Definition call_sites (g : DirectGraphManifest) : list string :=
  (m_id ∘ fst <$> filter (λ s, m_step_type s.1 = "EmbedWorkflow") (m_steps g)) ++
  (de_to_step <$> filter (λ e, default false (is_tool_label <$> de_label e) = true) (m_edges g)).

(** The graphs whose plans are part of the plan of [g]. *)
Definition opened (children : list DirectChildWorkflowGraphManifest) (g : DirectGraphManifest) :
  list DirectGraphManifest :=
  List.concat ((λ s, s.2.*2) <$> m_steps g) ++
  omap (λ id, match child_workflow_graph children id with
              | Ok child => Some (cm_graph child)
              | Err _ => None
              end) (call_sites g).

Definition opens (children : list DirectChildWorkflowGraphManifest) (h g : DirectGraphManifest) : Prop :=
  h ∈ opened children g.

(** ** Results that are not out of rounds *)

Definition ends {A} (x : planned A) : Prop := x ≠ None.

Lemma ends_and_then {A B} (x : planned A) (f : A → planned B) :
  ends x → (∀ a, x = Some (Ok a) → ends (f a)) → ends (and_then x f).
Proof. intros Hx Hf. destruct x as [[a|e]|]; simpl; [by apply Hf|done|done]. Qed.

Lemma ends_some {A} (r : result string A) : ends (Some r).
Proof. done. Qed.

Lemma ends_each {A B} (f : A → planned B) l : (∀ a, a ∈ l → ends (f a)) → ends (plan_each f l).
Proof.
  induction l as [|a l IH]; intros Hf; simpl; [done|].
  apply ends_and_then; [apply Hf; left|]. intros b _.
  apply ends_and_then; [|done]. apply IH. intros a' Ha. apply Hf. by right.
Qed.

Lemma ends_option {A B} (f : A → planned B) o : (∀ a, o = Some a → ends (f a)) → ends (plan_option f o).
Proof. intros Hf. destruct o as [a|]; simpl; [|done]. by apply ends_and_then; [apply Hf|]. Qed.

(** Results the steps of a plan are made of. *)
Ltac ends_step :=
  match goal with
  | |- ends (Some _) => apply ends_some
  | |- ends (done_ _) => apply ends_some
  | |- ends (failed _) => apply ends_some
  | |- ends (and_then _ _) => apply ends_and_then; [|intros ? ?]
  | |- ends (plan_each _ _) => apply ends_each; intros ? ?
  | |- ends (plan_option _ _) => apply ends_option; intros ? ?
  | H : ∀ id, _ |- ends (_ _ _ (_ ++ [_]) _ _ _) => apply H
  end.

(** ** One round *)

Section round.
Context `{UnicodeData} (children : list DirectChildWorkflowGraphManifest)
  (rec : DirectGraphManifest → string → list string → bool → option string → string →
         planned DirectRunPlan)
  (g : DirectGraphManifest) (id : string) (stack : list string).
Hypothesis same : ∀ id' ioe stop root, ends (rec g id' (stack ++ [id]) ioe stop root).
Hypothesis others : ∀ h, opens children h g → ends (plan_graph rec h).

Lemma plan_route_ends what ioe stop e : ends (plan_route rec what g id (stack ++ [id]) ioe stop e).
Proof. unfold plan_route. destruct (de_condition_id e); repeat ends_step. Qed.

Lemma sequential_ends ioe stop root : ends (sequential_plan rec g id stack ioe stop root).
Proof.
  unfold sequential_plan. destruct (topo_successor _ _ _ _); [apply same|].
  case_bool_decide; [done|]. case_match; done.
Qed.

Lemma branches_end m ioe ordered : ends (plan_branches rec g m (stack ++ [id]) ioe ordered).
Proof.
  induction ordered as [|e ordered IH]; simpl; [done|]. ends_step; [apply same|].
  case_match; [done|]. case_match; [done|]. repeat ends_step. apply IH.
Qed.

Lemma parallel_ends default_edges ioe stop :
  ends (try_parallel_branches rec g id default_edges stack ioe stop).
Proof.
  unfold try_parallel_branches. destruct (local_merge _ _ _) as [m|]; [|done].
  case_match; [done|].
  assert (Hd : ends (plan_branch_diamond rec g id (merge_sort ordinal_le default_edges) m (stack ++ [id])
                       ioe stop)).
  { unfold plan_branch_diamond. ends_step; [apply branches_end|]. case_match; [|done].
    case_match; [done|]. repeat ends_step. }
  destruct (plan_branch_diamond _ _ _ _ _ _ _ _) as [[?|?]|]; done.
Qed.

Lemma normal_flow_ends ioe stop root : ends (normal_flow_plan rec g id stack ioe stop root).
Proof.
  unfold normal_flow_plan. destruct (conditioned_edges _) as [|e es].
  - case_match; [|apply sequential_ends]. ends_step; [apply parallel_ends|].
    case_match; [done|]. case_match; [done|]. apply sequential_ends.
  - unfold edge_route_plan. destruct (unconditioned_edges _) as [|d [|]]; [done| |done].
    ends_step; [ends_step; apply plan_route_ends|]. repeat ends_step.
Qed.

Lemma error_plan_ends ioe : ends (error_plan_of rec g id stack ioe).
Proof.
  unfold error_plan_of. destruct ioe; [|done]. unfold on_error_plan.
  destruct (on_error_edges g id) as [|e0 es]; [done|].
  destruct (unconditioned_edges _) as [|d [|]]; [..|done].
  all: ends_step; [ends_step; apply plan_route_ends|]; repeat ends_step.
Qed.

Lemma nested_opened type role h : nested_graph g id type role = Some h → opens children h g.
Proof.
  unfold nested_graph. intros Hn. apply bind_Some in Hn as ([step nested] & Hf & Hn).
  apply fmap_Some in Hn as ([role' h'] & Hn & ->).
  apply find_some in Hf as [Hf _]. apply find_some in Hn as [Hn _].
  apply elem_of_app. left. apply list_elem_of_In, in_concat. exists nested.*2. split.
  - apply list_elem_of_In, list_elem_of_fmap. exists (step, nested). split; [done|]. by apply list_elem_of_In.
  - apply list_elem_of_In, list_elem_of_fmap. exists (role', h'). split; [done|]. by apply list_elem_of_In.
Qed.

Lemma child_opened site child :
  site ∈ call_sites g → child_workflow_graph children site = Ok child → opens children (cm_graph child) g.
Proof.
  intros Hs Hc. apply elem_of_app. right. apply list_elem_of_omap. exists site. by rewrite Hc.
Qed.

Lemma tool_ends name : ends (tool_plan children rec g id name).
Proof.
  unfold tool_plan. destruct (List.find _ (tool_edges g id)) as [e|] eqn:Hf; [|repeat ends_step].
  apply find_some in Hf as [He _]. case_match; [|case_match; repeat ends_step].
  apply ends_and_then; [done|]. intros child [= Hc]. repeat ends_step. apply others.
  eapply child_opened; [|exact Hc].
  apply elem_of_app. right. apply list_elem_of_fmap. exists e. split; [done|].
  apply list_elem_of_In, list_elem_of_filter in He as [[_ Hl] He]. by apply list_elem_of_filter.
Qed.

(** Results that need only the plans of the same graph. *)
Ltac ends_more :=
  repeat first
    [ends_step | apply normal_flow_ends; done | apply error_plan_ends; done | apply same].

Lemma typed_plan_ends step nested ioe stop root :
  find_step g id = Some (step, nested) → ends (typed_plan children rec g step id stack ioe stop root).
Proof.
  intros Hf. unfold typed_plan.
  destruct (decide (m_step_type step = "Finish")); [ends_more|].
  destruct (decide (m_step_type step = "Filter")); [ends_more|].
  destruct (decide (m_step_type step = "Switch")).
  { unfold switch_plan, branch_plan, merge_point_plan. do 2 (ends_step; [done|]). case_match; ends_more. }
  destruct (decide (m_step_type step = "GroupBy")); [ends_more|].
  destruct (decide (m_step_type step = "Split")).
  { unfold split_plan. ends_step; [done|]. apply ends_and_then; [done|]. intros h [= Hh]. ends_step.
    - apply others, (nested_opened "Split" "split.subgraph"). unfold split_subgraph, ok_or in Hh.
      by destruct (nested_graph _ _ _ _); [injection Hh as ->|].
    - ends_more. }
  destruct (decide (m_step_type step = "While")).
  { unfold while_plan. ends_step; [done|]. apply ends_and_then; [done|]. intros h [= Hh]. ends_step.
    - apply others, (nested_opened "While" "while.subgraph"). unfold while_subgraph, ok_or in Hh.
      by destruct (nested_graph _ _ _ _); [injection Hh as ->|].
    - ends_more. }
  destruct (decide (m_step_type step = "EmbedWorkflow")) as [Ht|].
  { unfold embed_plan. apply ends_and_then; [done|]. intros child [= Hc]. ends_step.
    - apply others. eapply child_opened; [|exact Hc]. apply elem_of_app. left.
      apply find_some in Hf as [Hin Hid%bool_decide_eq_true]. apply list_elem_of_fmap.
      exists (step, nested). split; [done|]. apply list_elem_of_filter. split; [done|].
      by apply list_elem_of_In.
    - ends_more. }
  destruct (decide (m_step_type step = "Delay")); [ends_more|].
  destruct (decide (m_step_type step = "WaitForSignal")).
  { unfold wait_plan. apply ends_and_then; [done|]. intros h [= Hh]. ends_step.
    - apply ends_option. intros h' ->. apply others, (nested_opened "WaitForSignal" "waitForSignal.onWait").
      unfold wait_on_wait_subgraph in Hh. destruct (require_type _ _ _ _); [by injection Hh|done].
    - ends_more. }
  destruct (decide (m_step_type step = "Log")); [ends_more|].
  destruct (decide (m_step_type step = "Agent")); [unfold agent_step_plan; ends_more|].
  destruct (decide (m_step_type step = "AiAgent")).
  { unfold ai_agent_plan. ends_step; [done|]. case_match; [ends_more|].
    ends_step; [ends_step; apply tool_ends|]. ends_more. }
  destruct (decide (m_step_type step = "Error")); [ends_more|].
  destruct (decide (m_step_type step = "Conditional")); [|done].
  unfold conditional_plan, branch_plan, merge_point_plan. ends_more.
Qed.
End round.

(** ** All rounds *)

Section plan.
Context `{UnicodeData} (children : list DirectChildWorkflowGraphManifest).

Local Abbreviation rec := (step_run_plan_inner children).

Lemma same_graph_ends g N n fuel id stack ioe stop root :
  (∀ fuel h, N ≤ fuel → opens children h g → ends (plan_graph (rec fuel) h)) →
  NoDup stack → stack ⊆ m_id ∘ fst <$> m_steps g →
  length (m_steps g) - length stack ≤ n → N + S n ≤ fuel →
  ends (rec fuel g id stack ioe stop root).
Proof.
  intros Hopen. revert fuel id stack ioe stop root.
  induction n as [|n IH]; intros fuel id stack ioe stop root Hnd Hsub Hlen Hfuel;
    (destruct fuel as [|fuel]; [lia|]); simpl; unfold plan_step;
    (case_decide; [done|]); (case_decide as Hin; [done|]);
    destruct (find_step g id) as [[step nested]|] eqn:Hf; try done.
  all: assert (Hid : id ∈ m_id ∘ fst <$> m_steps g) by
    (apply find_some in Hf as [Hs <-%bool_decide_eq_true]; apply list_elem_of_fmap;
     exists (step, nested); split; [done|]; by apply list_elem_of_In).
  all: assert (Hnd' : NoDup (stack ++ [id])) by
    (apply NoDup_app; split; [done|]; split; [set_solver|apply NoDup_singleton]).
  all: assert (Hsub' : stack ++ [id] ⊆ m_id ∘ fst <$> m_steps g) by set_solver.
  all: assert (Hle : length (stack ++ [id]) ≤ length (m_steps g)) by
    (rewrite <-(length_fmap (m_id ∘ fst) (m_steps g)); by apply submseteq_length, NoDup_submseteq).
  all: rewrite length_app in Hle; simpl in Hle; try lia.
  apply (typed_plan_ends _ _ _ _ _) with (nested := nested); [| |done].
  - intros id' ioe' stop' root'. apply IH; [done|done|rewrite length_app; simpl; lia|lia].
  - intros h Hh. apply Hopen; [lia|done].
Qed.

(** A bound for all of a list. *)
Lemma ends_bound (l : list DirectGraphManifest) :
  (∀ h, h ∈ l → ∃ N, ∀ fuel, N ≤ fuel → ends (plan_graph (rec fuel) h)) →
  ∃ N, ∀ fuel h, N ≤ fuel → h ∈ l → ends (plan_graph (rec fuel) h).
Proof.
  induction l as [|h l IH]; intros Hall; [exists 0; intros fuel h _ Hh; by apply not_elem_of_nil in Hh|].
  destruct (Hall h ltac:(left)) as [N HN].
  destruct IH as [N' HN']; [intros h' Hh'; apply Hall; by right|].
  exists (N `max` N'). intros fuel h' Hfuel [->|Hh']%elem_of_cons; [apply HN; lia|apply HN'; [lia|done]].
Qed.

Lemma graph_ends g :
  Acc (opens children) g → ∃ N, ∀ fuel, N ≤ fuel → ends (plan_graph (rec fuel) g).
Proof.
  induction 1 as [g _ IH]. destruct (ends_bound (opened children g) IH) as [N HN].
  exists (N + S (length (m_steps g))). intros fuel Hfuel. unfold plan_graph, step_run_plan.
  apply (same_graph_ends g N (length (m_steps g))); [done|constructor|set_solver|simpl; lia|lia].
Qed.
End plan.

(** ** The loops within a graph

    The loops over the edges of a graph take steps from a queue.  [region_rounds], one
    round per edge and one for the start, is enough for each of them: a step enters its
    queue for an edge into it, once, or for an edge out of a step visited for the first
    time. *)

(** The targets of edges that are not in a set of steps. *)
Definition targets_left (g : DirectGraphManifest) (R : gset string) : nat :=
  size ((list_to_set (de_to_step <$> m_edges g) : gset string) ∖ R).

Lemma targets_left_bound g R : targets_left g R ≤ length (m_edges g).
Proof.
  unfold targets_left. trans (size (list_to_set (de_to_step <$> m_edges g) : gset string)).
  - apply subseteq_size. set_solver.
  - induction (m_edges g) as [|e l IH]; [done|]. rewrite fmap_cons, list_to_set_cons. simpl length.
    rewrite size_union_alt.
    assert (size ((list_to_set (de_to_step <$> l) : gset string) ∖ {[de_to_step e]})
            ≤ size (list_to_set (de_to_step <$> l) : gset string)) by (apply subseteq_size; set_solver).
    rewrite size_singleton. lia.
Qed.

Lemma targets_left_take g R y :
  y ∈ de_to_step <$> m_edges g → y ∉ R → targets_left g R = S (targets_left g ({[y]} ∪ R)).
Proof.
  intros Hy HR. unfold targets_left.
  rewrite (union_difference_singleton_L y (list_to_set (de_to_step <$> m_edges g) ∖ R)) at 1 by set_solver.
  rewrite size_union, size_singleton by set_solver. simpl. f_equal. f_equal. set_solver.
Qed.

Section loops.
Context (g : DirectGraphManifest).

(** A scan of the edges that puts each new target into the set and into the list. *)
Lemma region_edges_left x stop edges R found R' found' :
  edges ⊆ m_edges g → region_edges x stop edges R found = (R', found') →
  targets_left g R' + length found' = targets_left g R + length found.
Proof.
  revert R found. induction edges as [|e edges IH]; intros R found Hsub He; simpl in He; [by simplify_eq|].
  assert (Hin : de_to_step e ∈ de_to_step <$> m_edges g)
    by (apply list_elem_of_fmap; exists e; split; [done|]; apply Hsub; left).
  assert (Hsub' : edges ⊆ m_edges g) by (intros e' He'; apply Hsub; by right).
  case_match eqn:Hc; [|by apply IH].
  apply andb_prop in Hc as [_ HR%bool_decide_eq_true].
  rewrite (IH _ _ Hsub' He), length_app, (targets_left_take g R _ Hin HR). simpl. lia.
Qed.

Lemma forward_edges_left x stop edges R found R' found' :
  edges ⊆ m_edges g → forward_edges x stop edges R found = (R', found') →
  targets_left g R' + length found' = targets_left g R + length found.
Proof.
  revert R found. induction edges as [|e edges IH]; intros R found Hsub He; simpl in He; [by simplify_eq|].
  assert (Hin : de_to_step e ∈ de_to_step <$> m_edges g)
    by (apply list_elem_of_fmap; exists e; split; [done|]; apply Hsub; left).
  assert (Hsub' : edges ⊆ m_edges g) by (intros e' He'; apply Hsub; by right).
  case_match eqn:Hc; [|by apply IH].
  apply andb_prop in Hc as [_ HR%bool_decide_eq_true].
  rewrite (IH _ _ Hsub' He), length_app, (targets_left_take g R _ Hin HR). simpl. lia.
Qed.

Lemma region_release_left x edges R deg Q ready deg' Q' ready' :
  edges ⊆ m_edges g → region_release x edges R deg Q ready = (deg', Q', ready') →
  targets_left g Q' + length ready' = targets_left g Q + length ready.
Proof.
  revert deg Q ready. induction edges as [|e edges IH]; intros deg Q ready Hsub He; simpl in He;
    [by simplify_eq|].
  assert (Hin : de_to_step e ∈ de_to_step <$> m_edges g)
    by (apply list_elem_of_fmap; exists e; split; [done|]; apply Hsub; left).
  assert (Hsub' : edges ⊆ m_edges g) by (intros e' He'; apply Hsub; by right).
  case_match; [|by eapply IH]. destruct (deg !! de_to_step e); [|by eapply IH].
  case_match eqn:Hc; [|by eapply IH].
  apply andb_prop in Hc as [_ HQ%bool_decide_eq_true].
  rewrite (IH _ _ _ Hsub' He), length_app, (targets_left_take g Q _ Hin HQ). simpl. lia.
Qed.

Lemma region_discover_ends fuel stop R order queue :
  targets_left g R + length queue ≤ fuel → is_Some (region_discover fuel g stop R order queue).
Proof.
  revert R order queue. induction fuel as [|fuel IH]; intros R order [|x queue] Hle; simpl in *;
    [by eexists|lia|by eexists|].
  case_match; [apply IH; lia|]. destruct (region_edges _ _ _ _ _) as [R' found] eqn:He.
  apply IH. pose proof (region_edges_left _ _ _ _ _ _ _ (reflexivity _) He). rewrite length_app.
  simpl in *. lia.
Qed.

Lemma forward_reach_ends fuel stop R queue :
  targets_left g R + length queue ≤ fuel → is_Some (forward_reach fuel g stop R queue).
Proof.
  revert R queue. induction fuel as [|fuel IH]; intros R [|x queue] Hle; simpl in *;
    [by eexists|lia|by eexists|].
  destruct (forward_edges _ _ _ _ _) as [R' found] eqn:He.
  apply IH. pose proof (forward_edges_left _ _ _ _ _ _ _ (reflexivity _) He). rewrite length_app.
  simpl in *. lia.
Qed.

Lemma region_kahn_ends fuel R deg Q order ready :
  targets_left g Q + length ready ≤ fuel → is_Some (region_kahn fuel g R deg Q order ready).
Proof.
  revert deg Q order ready. induction fuel as [|fuel IH]; intros deg Q order [|x ready] Hle; simpl in *;
    [by eexists|lia|by eexists|].
  case_match; [apply IH; lia|]. destruct (region_release _ _ _ _ _ _) as [[deg' Q'] rel] eqn:He.
  apply IH. pose proof (region_release_left _ _ _ _ _ _ _ _ _ (reflexivity _) He). rewrite length_app.
  simpl in *. lia.
Qed.

(** The edges that leave a step outside a set. *)
Definition edges_left (visited : gset string) : nat :=
  length (filter (λ e, de_from_step e ∉ visited) (m_edges g)).

Lemma edges_left_bound visited : edges_left visited ≤ length (m_edges g).
Proof. apply length_filter. Qed.

Lemma successors_bound x :
  length (direct_control_successors g x) ≤ length (filter (λ e, de_from_step e = x) (m_edges g)).
Proof.
  unfold direct_control_successors. destruct (find_step g x) as [[step ?]|]; [|simpl; lia].
  case_match; [simpl; lia|].
  case_match; rewrite length_fmap; unfold normal_flow_edges; apply filter_length_le; tauto.
Qed.

Lemma edges_left_visit visited x :
  x ∉ visited →
  length (direct_control_successors g x) + edges_left ({[x]} ∪ visited) ≤ edges_left visited.
Proof.
  intros Hx. pose proof (successors_bound x). unfold edges_left.
  pose proof (filter_length_split (λ e, de_from_step e = x) (λ e, de_from_step e ∉ {[x]} ∪ visited)
                (λ e, de_from_step e ∉ visited) (m_edges g) ltac:(set_solver) ltac:(set_solver)). lia.
Qed.

Lemma collect_reachable_ends fuel reached visited queue :
  edges_left visited + length queue ≤ fuel →
  is_Some (collect_reachable_loop fuel g reached visited queue).
Proof.
  revert reached visited queue.
  induction fuel as [|fuel IH]; intros reached visited [|x queue] Hle; simpl in *;
    [by eexists|lia|by eexists|].
  case_decide as Hx; [apply IH; lia|]. apply IH. rewrite length_app.
  pose proof (edges_left_visit visited x Hx).
  pose proof (length_filter (λ y, y ∉ {[x]} ∪ visited) (direct_control_successors g x)). lia.
Qed.

(** The rounds the planner gives its loops suffice, for every graph. *)
Definition loops_end : Prop :=
  (∀ start, is_Some (collect_reachable_loop (region_rounds g) g [] ∅ [start])) ∧
  (∀ stop start, is_Some (forward_reach (region_rounds g) g stop ∅ [start])) ∧
  (∀ stop root, is_Some (region_discover (region_rounds g) g stop {[root]} [root] [root])) ∧
  ∀ reachable indegree root, is_Some (region_kahn (region_rounds g) g reachable indegree {[root]} [] [root]).

Lemma all_loops_end : loops_end.
Proof.
  unfold loops_end, region_rounds. split_and!; intros.
  - apply collect_reachable_ends. simpl. pose proof (edges_left_bound ∅). lia.
  - apply forward_reach_ends. simpl. pose proof (targets_left_bound g ∅). lia.
  - apply region_discover_ends. simpl. pose proof (targets_left_bound g {[root]}). lia.
  - apply region_kahn_ends. simpl. pose proof (targets_left_bound g {[root]}). lia.
Qed.
End loops.

(** C12: planning a workflow ends, with a plan or an error, whenever the graphs it opens
    (nested graphs and embedded children) do not open each other forever: the recursion
    over the steps of a graph needs no such hypothesis, and neither do the loops over the
    edges of a graph (merge points, regions and their order), which never run out of the
    rounds they are given. *)
Theorem planning_ends `{UnicodeData} manifest :
  (∀ g, loops_end g) ∧
  (Acc (opens (wm_child_workflows manifest)) (wm_graph manifest) →
   ∃ N, ∀ fuel, N ≤ fuel → ∃ r, direct_run_plan fuel manifest = Some r).
Proof.
  split; [apply all_loops_end|].
  intros Hacc. destruct (graph_ends (wm_child_workflows manifest) _ Hacc) as [N HN].
  exists N. intros fuel Hfuel. specialize (HN fuel Hfuel). unfold direct_run_plan.
  destruct (find_step _ _) as [[entry ?]|]; [|eexists; reflexivity].
  case_bool_decide; [|eexists; reflexivity].
  destruct (plan_graph _ _) as [r|]; [by exists r|done].
Qed.

(** * The order of a region

    [direct_execution_order] of plan.rs is [build_execution_order] of graph_order.rs on
    the unconditional flow of the region, without the edges into the enclosing merge
    point.  So it lists the steps of the region once each, in a topological order. *)

Local Open Scope nat_scope.

(** ** More rounds than enough *)

Lemma discover_loop_more fuel n g R order queue r :
  discover_loop fuel g R order queue = Some r → discover_loop (fuel + n) g R order queue = Some r.
Proof.
  revert R order queue. induction fuel as [|fuel IH]; intros R order [|x queue] Hr; simpl in *;
    try done; [by destruct n|].
  destruct (stops g x); [by apply IH|]. destruct (discover_edges _ _ _ _). by apply IH.
Qed.

Lemma kahn_loop_more fuel n g R deg Q order ready r :
  kahn_loop fuel g R deg Q order ready = Some r → kahn_loop (fuel + n) g R deg Q order ready = Some r.
Proof.
  revert deg Q order ready. induction fuel as [|fuel IH]; intros deg Q order [|x ready] Hr;
    simpl in *; try done; [by destruct n|].
  destruct (stops g x); [by apply IH|]. destruct (release_edges _ _ _ _ _ _) as [[deg' Q'] rel].
  by apply IH.
Qed.

Section region.
Context (g : DirectGraphManifest) (root : string) (stop : option string).

(** An edge the region follows. *)
Definition region_edge (e : DirectEdgeManifest) : Prop :=
  is_normal_label (de_label e) = true ∧ Some (de_to_step e) ≠ stop.

#[local] Instance region_edge_dec e : Decision (region_edge e).
Proof. unfold region_edge. apply _. Defined.

(** The region as a graph of the DSL: steps at which the traversal stops are branching. *)
Definition region_graph : ExecutionGraph :=
  plain_graph
    (list_to_map ((λ s, (m_id s.1, if region_stops g (m_id s.1) then Conditional plain_conditional
                                   else Agent plain_agent)) <$> m_steps g))
    root ((λ e, edge (de_from_step e) (de_to_step e)) <$> filter region_edge (m_edges g)).

Lemma region_graph_step x :
  steps region_graph !! x
  = (λ _, if region_stops g x then Conditional plain_conditional else Agent plain_agent) <$> find_step g x.
Proof.
  change (steps region_graph) with (list_to_map ((λ s : DirectStepManifest * Nested, (m_id s.1,
    if region_stops g (m_id s.1) then Conditional plain_conditional else Agent plain_agent))
    <$> m_steps g) : gmap string Step).
  unfold find_step. generalize (region_stops g) as rs. intros rs.
  induction (m_steps g) as [|s l IH]; [done|]. rewrite fmap_cons, list_to_map_cons. simpl.
  destruct (decide (m_id s.1 = x)) as [<-|Hne].
  - by rewrite lookup_insert_eq, bool_decide_true.
  - by rewrite lookup_insert_ne, bool_decide_false, IH.
Qed.

Lemma region_graph_stops x : stops region_graph x = region_stops g x.
Proof.
  assert (Hcond : has_conditioned_normal_flow_edges x region_graph = false).
  { apply not_true_is_false. intros (e & Hin & He)%existsb_exists.
    apply list_elem_of_In, list_elem_of_fmap in Hin as (e' & -> & _). simpl in He.
    by rewrite andb_false_r in He. }
  unfold stops. rewrite Hcond, region_graph_step.
  destruct (find_step g x) as [s|] eqn:Hs; simpl; [by destruct (region_stops g x)|].
  unfold region_stops. by rewrite Hs.
Qed.

Lemma region_graph_edges x R found :
  discover_edges x (execution_plan region_graph) R found = region_edges x stop (m_edges g) R found.
Proof.
  unfold region_graph, plain_graph, execution_plan; simpl.
  revert R found. induction (m_edges g) as [|e l IH]; intros R found; [done|]. simpl.
  rewrite filter_cons. destruct (decide (region_edge e)) as [[Hn Hs]|Hno]; simpl.
  - rewrite Hn, (bool_decide_true _ Hs), !andb_true_r. unfold is_normal_flow_edge. simpl.
    case_match; apply IH.
  - rewrite IH. unfold region_edge in Hno.
    destruct (is_normal_label (de_label e)); [|by rewrite andb_false_r].
    rewrite (bool_decide_false (Some (de_to_step e) ≠ stop)) by tauto. by rewrite !andb_false_r.
Qed.

Lemma region_graph_discover fuel R order queue :
  region_discover fuel g stop R order queue = discover_loop fuel region_graph R order queue.
Proof.
  revert R order queue. induction fuel as [|fuel IH]; intros R order [|x queue]; simpl; try done.
  rewrite region_graph_stops, region_graph_edges. case_match; [apply IH|].
  destruct (region_edges _ _ _ _ _). apply IH.
Qed.

Hypothesis root_stop : stop ≠ Some root.

(** What the traversal reaches is not the stop. *)
Lemma region_avoids_stop x : in_flow region_graph x → stop ≠ Some x.
Proof.
  intros [<-|(y & _ & [_ (e & He & _ & _ & <-)])]%rtc_inv_r; [done|].
  unfold region_graph, plain_graph, execution_plan in He; simpl in He.
  apply list_elem_of_fmap in He as (e' & -> & [[_ Hs] _]%list_elem_of_filter). simpl. congruence.
Qed.

Lemma region_graph_release x R deg Q rel :
  (∀ y, y ∈ R → stop ≠ Some y) →
  region_release x (m_edges g) R deg Q rel = release_edges x (execution_plan region_graph) R deg Q rel.
Proof.
  intros HR. unfold region_graph, plain_graph, execution_plan; simpl.
  revert deg Q rel. induction (m_edges g) as [|e l IH]; intros deg Q rel; [done|]. simpl.
  rewrite filter_cons. destruct (decide (region_edge e)) as [[Hn Hs]|Hno]; simpl.
  - rewrite Hn, andb_true_r. unfold is_normal_flow_edge. simpl. rewrite orb_false_r.
    rewrite <-negb_andb. case_match; simpl; [|apply IH].
    destruct (deg !! de_to_step e); [|apply IH]. case_match; apply IH.
  - rewrite <-IH. unfold region_edge in Hno.
    destruct (is_normal_label (de_label e)); [|by rewrite andb_false_r].
    rewrite (bool_decide_false (de_to_step e ∈ R)); [by rewrite !andb_false_r|].
    intros Hin%HR. apply Hno. split; [done|congruence].
Qed.

Lemma region_graph_indegree R deg :
  (∀ y, y ∈ R → stop ≠ Some y) →
  region_indegree (m_edges g) R deg = count_indegree (execution_plan region_graph) R deg.
Proof.
  intros HR. unfold region_graph, plain_graph, execution_plan; simpl.
  revert deg. induction (m_edges g) as [|e l IH]; intros deg; [done|]. simpl.
  rewrite filter_cons. destruct (decide (region_edge e)) as [[Hn Hs]|Hno]; simpl.
  - rewrite Hn. apply IH.
  - rewrite <-IH. f_equal. unfold region_edge in Hno.
    destruct (is_normal_label (de_label e)); [|done].
    rewrite (bool_decide_false (de_to_step e ∈ R)); [by rewrite !andb_false_r|].
    intros Hin%HR. apply Hno. split; [done|congruence].
Qed.

Lemma region_graph_kahn fuel R deg Q order ready :
  (∀ y, y ∈ R → stop ≠ Some y) →
  region_kahn fuel g R deg Q order ready = kahn_loop fuel region_graph R deg Q order ready.
Proof.
  intros HR. revert deg Q order ready.
  induction fuel as [|fuel IH]; intros deg Q order [|x ready]; simpl; try done.
  rewrite region_graph_stops, region_graph_release by done. case_match; [apply IH|].
  destruct (release_edges _ _ _ _ _ _) as [[deg' Q'] rel]. apply IH.
Qed.

Lemma region_rounds_more : ∃ n, region_rounds g = rounds region_graph + n.
Proof.
  exists (length (m_edges g) - length (filter region_edge (m_edges g))).
  unfold region_rounds, rounds, region_graph, plain_graph, execution_plan; simpl.
  rewrite length_fmap. pose proof (length_filter region_edge (m_edges g)). lia.
Qed.

(** The two definitions agree. *)
Lemma direct_execution_order_graph :
  direct_execution_order g root stop = build_execution_order region_graph.
Proof.
  destruct region_rounds_more as [n Hn].
  destruct (build_run region_graph) as (R & found & deg & Q & order & [Hd Hk] & -> & _ & HR & _).
  assert (Hloop : discover_loop (rounds region_graph) region_graph {[root]} [root] [root] = Some (R, found)).
  { unfold discover in Hd. change (entry_point region_graph) with root in Hd.
    destruct (discover_loop _ _ _ _ _); simpl in Hd; [by f_equal|]. injection Hd as <- _.
    assert (Hin : root ∈ (∅ : gset string)) by (apply HR, rtc_refl). set_solver. }
  unfold direct_execution_order. rewrite Hn, region_graph_discover, (discover_loop_more _ _ _ _ _ _ _ Hloop).
  cbn [default from_option id].
  assert (Hstop : ∀ y, y ∈ R → stop ≠ Some y) by (intros y Hy%HR; by apply region_avoids_stop).
  rewrite region_graph_indegree, region_graph_kahn by done.
  by rewrite (kahn_loop_more _ _ _ _ _ _ _ _ _ Hk).
Qed.
End region.

(** ** The flow of a region *)

(** A normal-flow edge of the graph. *)
Definition succ (g : DirectGraphManifest) (x y : string) : Prop :=
  ∃ e, e ∈ m_edges g ∧ de_from_step e = x ∧ de_to_step e = y ∧ is_normal_label (de_label e) = true.

(** An edge a region with merge point [stop] follows. *)
Definition step_to (g : DirectGraphManifest) (stop : option string) (x y : string) : Prop :=
  region_stops g x = false ∧ succ g x y ∧ stop ≠ Some y.

Definition in_region (g : DirectGraphManifest) (root : string) (stop : option string) (x : string) : Prop :=
  rtc (step_to g stop) root x.

Lemma region_graph_normal_edge g root stop x y :
  normal_edge (region_graph g root stop) x y ↔ succ g x y ∧ stop ≠ Some y.
Proof.
  unfold normal_edge, region_graph, plain_graph, execution_plan; simpl. split.
  - intros (e & He & _ & <- & <-).
    apply list_elem_of_fmap in He as (e' & -> & [[Hn Hs] Hin]%list_elem_of_filter). simpl.
    split; [by exists e'|congruence].
  - intros [(e & He & <- & <- & Hn) Hs]. exists (edge (de_from_step e) (de_to_step e)).
    split; [|done]. apply list_elem_of_fmap. exists e. split; [done|]. apply list_elem_of_filter.
    split; [|done]. split; [done|congruence].
Qed.

Lemma region_graph_flow g root stop x y :
  flow (region_graph g root stop) x y ↔ step_to g stop x y.
Proof.
  unfold flow, step_to. by rewrite region_graph_stops, region_graph_normal_edge.
Qed.

Lemma region_graph_in_flow g root stop x :
  in_flow (region_graph g root stop) x ↔ in_region g root stop x.
Proof.
  unfold in_flow, in_region. change (entry_point (region_graph g root stop)) with root.
  split; (eapply (rtc_congruence id); intros a b Hab; unfold id; by eapply region_graph_flow).
Qed.

(** The order of a region lists it, the root first. *)
Lemma region_order_complete g root stop :
  stop ≠ Some root →
  let order := direct_execution_order g root stop in
  NoDup order ∧ (∀ x, x ∈ order ↔ in_region g root stop x) ∧ head order = Some root.
Proof.
  intros Hs. cbv zeta. rewrite direct_execution_order_graph by done.
  destruct (order_complete (region_graph g root stop)) as (Hnd & Hin & Hhd).
  split; [done|]. split; [|done]. intros x. rewrite Hin. apply region_graph_in_flow.
Qed.

(** A region without branching steps and cycles is listed in a topological order. *)
Lemma region_order_topological g root stop :
  stop ≠ Some root →
  (∀ x y, in_region g root stop x → in_region g root stop y → succ g x y → region_stops g x = false) →
  (∀ x, in_region g root stop x → ¬ tc (step_to g stop) x x) →
  ∀ x y, in_region g root stop x → in_region g root stop y → succ g x y →
    before (direct_execution_order g root stop) x y.
Proof.
  intros Hs Hun Hac x y Hx Hy Hxy. rewrite direct_execution_order_graph by done.
  assert (Hdep : ∀ x y, depends (region_graph g root stop) x y →
    in_region g root stop x ∧ in_region g root stop y ∧ succ g x y ∧ stop ≠ Some y).
  { intros a b (He & Ha & Hb). apply region_graph_normal_edge in He.
    rewrite region_graph_in_flow in Ha, Hb. naive_solver. }
  assert (Hav : stop ≠ Some y).
  { apply (region_avoids_stop g root stop Hs). by apply region_graph_in_flow. }
  apply order_topological.
  - intros a b (Ha & Hb & Hab & _)%Hdep. rewrite region_graph_stops. eauto.
  - intros a Ha. assert (Hin : in_region g root stop a).
    { inversion Ha as [? ? Hab|? ? ? Hab _]; subst; by apply Hdep in Hab as [? _]. }
    apply (Hac a Hin). revert Ha. apply (tc_congruence id).
    intros b c (Hb & Hc & Hbc & Hne)%Hdep. unfold id. split; [by eapply Hun|done].
  - split; [by apply region_graph_normal_edge|]. by rewrite !region_graph_in_flow.
Qed.
