(* ===== verification/DirectRunProperties.v ===== *)
(** * Every step runs once, after its predecessors

    For a graph without branching steps and cycles, every run of its plan, windows
    included, runs each step reachable from the entry exactly once, after all its
    normal-flow predecessors. *)

From S2P Require Import Prelude.
From S2P Require Import Json.
From S2P Require Import Text.
From S2P Require Import ValidationBase.
From S2P Require Import GraphOrder.
From S2P Require Import GraphOrderProperties.
From S2P Require Import Dsl.
From S2P Require Import WorkflowFeatures.
From S2P Require Import DirectManifest.
From S2P Require Import DirectPlan.
From S2P Require Import DirectPlanProperties.

Local Open Scope nat_scope.

(** ** Lists *)

Lemma before_elem l x y : before l x y → x ∈ l ∧ y ∈ l.
Proof. intros (l1 & l2 & -> & Hx & Hy). rewrite !elem_of_app. auto. Qed.

(** What comes after [y] in a list without repetitions. *)
Lemma before_after pre y post w :
  NoDup (pre ++ y :: post) → before (pre ++ y :: post) y w → w ∈ post.
Proof.
  intros Hnd (l1 & l2 & Heq & Hy & Hw).
  apply list_elem_of_split in Hy as (a & b & ->).
  rewrite <-(assoc_L (++)) in Heq. simpl in Heq.
  assert (Hpost : post = b ++ l2).
  { revert a Heq. clear Hw. induction pre as [|z pre IH]; intros [|z' a] Heq; simpl in *.
    - by injection Heq.
    - injection Heq as <- Heq. exfalso. apply NoDup_cons in Hnd as [Hn _]. apply Hn. subst post.
      apply elem_of_app. right. left.
    - injection Heq as -> Heq. exfalso. apply NoDup_cons in Hnd as [Hn _]. apply Hn.
      apply elem_of_app. right. left.
    - injection Heq as -> Heq. apply NoDup_cons in Hnd as [_ Hnd]. eauto. }
  rewrite Hpost. apply elem_of_app. by right.
Qed.

(** Nothing is before itself, and not both before and after. *)
Lemma before_irrefl l x : NoDup l → ¬ before l x x.
Proof.
  intros Hnd (l1 & l2 & -> & H1 & H2). apply NoDup_app in Hnd as (_ & Hd & _). by apply (Hd x).
Qed.

Lemma before_sublist l l' x y : sublist l l' → before l x y → before l' x y.
Proof.
  intros Hs (l1 & l2 & -> & Hx & Hy). apply sublist_app_l in Hs as (k1 & k2 & -> & H1 & H2).
  exists k1, k2. split; [done|].
  by split; eapply elem_of_submseteq; [done|apply sublist_submseteq| |apply sublist_submseteq].
Qed.

Lemma before_trans l x y z : NoDup l → before l x y → before l y z → before l x z.
Proof.
  intros Hnd (l1 & l2 & -> & Hx & Hy) (k1 & k2 & Heq & Hy' & Hz). exists l1, l2.
  split; [done|]. split; [done|].
  assert (Hzin : z ∈ l1 ++ l2) by (rewrite Heq, elem_of_app; by right).
  apply elem_of_app in Hzin as [Hz1|]; [exfalso|done].
  apply app_eq_inv in Heq as [(k & -> & ->)|(k & -> & ->)].
  - apply NoDup_app in Hnd as (Hnd1 & Hd & _). apply (Hd y); [|done]. apply elem_of_app. by left.
  - rewrite (assoc_L (++)) in Hnd. apply NoDup_app in Hnd as (_ & Hd & _). apply (Hd z); [|done].
    apply elem_of_app. by left.
Qed.

Lemma before_app_r k l x y : before l x y → before (k ++ l) x y.
Proof.
  intros (l1 & l2 & -> & Hx & Hy). exists (k ++ l1), l2. rewrite (assoc_L (++)).
  split; [done|]. split; [|done]. apply elem_of_app. by right.
Qed.

Lemma before_cross l k x y : x ∈ l → y ∈ k → before (l ++ k) x y.
Proof. intros Hx Hy. by exists l, k. Qed.

Lemma successor_in_app pre s post :
  s ∉ pre → successor_in (pre ++ s :: post) s = head post.
Proof.
  induction pre as [|z pre IH]; intros Hs; simpl; [by rewrite decide_True|].
  rewrite decide_False by set_solver. apply IH. set_solver.
Qed.

(** ** One round *)

Lemma and_then_ok {A B} (x : planned A) (f : A → planned B) b :
  and_then x f = Some (Ok b) → ∃ a, x = Some (Ok a) ∧ f a = Some (Ok b).
Proof. destruct x as [[a|e]|]; simpl; [eauto|done|done]. Qed.

(** The results a plan is made of. *)
Ltac plan_inv H := repeat (apply and_then_ok in H as (? & ? & H)).

Ltac end_case Hp Ht :=
  left; plan_inv Hp; injection Hp as <-; rewrite Ht; split; [set_solver|]; split; [done|];
  split; [done|]; intros l r Hr; by inversion Hr.

Ltac next_case Hp := right; plan_inv Hp; injection Hp as <-; eexists; split; [done|eassumption].

Section round.
Context `{UnicodeData} (children : list DirectChildWorkflowGraphManifest)
  (rec : DirectGraphManifest → string → list string → bool → option string → string →
         planned DirectRunPlan).

(** The plan of a step that does not branch: the end of the flow, or the step and the
    plan of what follows. *)
Lemma typed_plan_next g step id stack ioe stop root p :
  direct_is_branching_step g step = false → m_id step = id →
  typed_plan children rec g step id stack ioe stop root = Some (Ok p) →
  (m_step_type step ∈ ["Finish"; "Error"] ∧ is_join p = false ∧ is_linear_chain_branch p = false ∧
   ∀ l r, runs p l r → l = [id]) ∨
  ∃ next, next_of p = Some (id, next) ∧
    normal_flow_plan rec g id stack ioe stop root = Some (Ok next).
Proof.
  intros Hb <- Hp. unfold typed_plan in Hp.
  destruct (decide (m_step_type step = "Finish")) as [Ht|_]; [end_case Hp Ht|].
  destruct (decide (m_step_type step = "Filter")) as [_|_]; [next_case Hp|].
  destruct (decide (m_step_type step = "Switch")) as [Ht|_].
  { unfold switch_plan in Hp.
    apply and_then_ok in Hp as (i & _ & Hp). apply and_then_ok in Hp as (b & Hr & Hp).
    injection Hr as Hr. unfold direct_is_branching_step in Hb. rewrite Ht, Hr in Hb. simpl in Hb.
    subst b. next_case Hp. }
  destruct (decide (m_step_type step = "GroupBy")) as [_|_]; [next_case Hp|].
  destruct (decide (m_step_type step = "Split")) as [_|_]; [unfold split_plan in Hp; next_case Hp|].
  destruct (decide (m_step_type step = "While")) as [_|_]; [unfold while_plan in Hp; next_case Hp|].
  destruct (decide (m_step_type step = "EmbedWorkflow")) as [_|_]; [unfold embed_plan in Hp; next_case Hp|].
  destruct (decide (m_step_type step = "Delay")) as [_|_]; [next_case Hp|].
  destruct (decide (m_step_type step = "WaitForSignal")) as [_|_]; [unfold wait_plan in Hp; next_case Hp|].
  destruct (decide (m_step_type step = "Log")) as [_|_]; [next_case Hp|].
  destruct (decide (m_step_type step = "Agent")) as [_|_]; [unfold agent_step_plan in Hp; next_case Hp|].
  destruct (decide (m_step_type step = "AiAgent")) as [_|_].
  { unfold ai_agent_plan in Hp. apply and_then_ok in Hp as (a & _ & Hp). case_match; next_case Hp. }
  destruct (decide (m_step_type step = "Error")) as [Ht|_]; [end_case Hp Ht|].
  destruct (decide (m_step_type step = "Conditional")) as [Ht|_]; [|done].
  unfold direct_is_branching_step in Hb. by rewrite Ht in Hb.
Qed.

(** A step at which the region goes on. *)
Lemma region_goes_on g id :
  region_stops g id = false →
  ∃ step nested, find_step g id = Some (step, nested) ∧ m_id step = id ∧
    direct_is_branching_step g step = false ∧ direct_has_conditioned_normal_flow_edges g id = false.
Proof.
  unfold region_stops. destruct (find_step g id) as [[step nested]|] eqn:Hf; [|done].
  intros [Hb Hc]%orb_false_elim. exists step, nested. split; [done|].
  apply find_some in Hf as [_ Hid%bool_decide_eq_true]. done.
Qed.

Lemma plan_step_next g id stack ioe stop root p :
  region_stops g id = false → stop ≠ Some id →
  plan_step children rec g id stack ioe stop root = Some (Ok p) →
  (∃ step, find_step g id = Some step ∧ m_step_type step.1 ∈ ["Finish"; "Error"] ∧
     is_join p = false ∧ is_linear_chain_branch p = false ∧ ∀ l r, runs p l r → l = [id]) ∨
  ∃ next, next_of p = Some (id, next) ∧
    normal_flow_plan rec g id stack ioe stop root = Some (Ok next).
Proof.
  intros (step & nested & Hf & Hid & Hb & _)%region_goes_on Hs Hp. unfold plan_step in Hp.
  rewrite decide_False in Hp by done. case_decide; [done|]. rewrite Hf in Hp.
  apply typed_plan_next in Hp as [(Ht & Hj & Hl & Hr)|Hn]; [left|by right|done|done].
  exists (step, nested). auto.
Qed.

Lemma plan_step_join g id stack ioe stop root :
  region_stops g id = false →
  plan_step children rec g id stack ioe stop root = Some (Ok PJoin) → stop = Some id.
Proof.
  intros Hr Hp. destruct (decide (stop = Some id)) as [|Hs]; [done|].
  by apply plan_step_next in Hp as [(? & _ & _ & Hj & _)|(next & Hn & _)].
Qed.

Definition no_conditions (g : DirectGraphManifest) (id : string) : Prop :=
  ∀ e, e ∈ normal_flow_edges g id → de_condition_id e = None.

Lemma no_conditioned_edges g id :
  direct_has_conditioned_normal_flow_edges g id = false →
  conditioned_edges (normal_flow_edges g id) = [] ∧
  unconditioned_edges (normal_flow_edges g id) = normal_flow_edges g id.
Proof.
  intros Hc. assert (Hn : no_conditions g id).
  { intros e ([Hf Hn] & He)%list_elem_of_filter. apply eq_None_not_Some. intros Hcond.
    apply not_true_iff_false in Hc. apply Hc, existsb_exists. exists e.
    split; [by apply list_elem_of_In|]. rewrite Hn, bool_decide_true by done. simpl.
    by apply bool_decide_eq_true. }
  split.
  - apply Permutation_nil. unfold conditioned_edges. rewrite merge_sort_Permutation.
    rewrite filter_none; [done|]. intros e He. rewrite (Hn e He). by apply is_Some_None.
  - by apply filter_all.
Qed.

(** What a window is made of. *)
Record window_of (g : DirectGraphManifest) (id : string) (stack : list string) (ioe : bool)
  (stop : option string) (ordered : list DirectEdgeManifest) (m : string)
  (plans : list DirectRunPlan) (merge_plan : DirectRunPlan) : Prop := {
  win_ordered : ordered ≡ₚ normal_flow_edges g id;
  win_merge : local_merge g ((λ e, Some (de_to_step e)) <$> ordered) stop = Some m;
  win_single : region_single_entry g id stop = true;
  win_plans : Forall2 (λ e p, rec g (de_to_step e) (stack ++ [id]) ioe (Some m) (de_to_step e)
                                = Some (Ok p) ∧ is_linear_chain_branch p = true) ordered plans;
  win_independent :
    branches_independent g id (remove_dups ∘ chain_step_ids <$> plans) = true;
  win_merge_plan : rec g m (stack ++ [id]) ioe stop m = Some (Ok merge_plan) }.

Lemma plan_branches_ok g m stack ioe ordered plans :
  plan_branches rec g m stack ioe ordered = Some (Ok (Some plans)) →
  Forall2 (λ e p, rec g (de_to_step e) stack ioe (Some m) (de_to_step e) = Some (Ok p) ∧
                  is_linear_chain_branch p = true) ordered plans.
Proof.
  revert plans. induction ordered as [|e ordered IH]; intros plans Hp; simpl in Hp.
  { injection Hp as <-. constructor. }
  apply and_then_ok in Hp as (p & Hrec & Hp).
  destruct (is_linear_chain_branch p) eqn:Hlin; [|done]. simpl in Hp.
  destruct (plan_contains_suspension p && _); [done|].
  apply and_then_ok in Hp as ([rest|] & Hrest & Hp); [|done]. injection Hp as <-.
  constructor; [done|]. by apply IH.
Qed.

(** Unconditional flow: a window, or the next step of the region. *)
Lemma normal_flow_next g id stack ioe stop root next :
  region_stops g id = false →
  normal_flow_plan rec g id stack ioe stop root = Some (Ok next) →
  (∃ ordered m plans merge_plan, next = PParallelBranches plans merge_plan ∧
     window_of g id stack ioe stop ordered m plans merge_plan) ∨
  ((1 < length (normal_flow_edges g id) → never_reconverges g root stop = false) ∧
   sequential_plan rec g id stack ioe stop root = Some (Ok next)).
Proof.
  intros (step & nested & _ & _ & _ & Hc)%region_goes_on Hp. unfold normal_flow_plan in Hp.
  apply no_conditioned_edges in Hc as [Hc Hu]. rewrite Hc, Hu in Hp.
  destruct (Nat.ltb_spec 1 (length (normal_flow_edges g id))) as [Hlen|Hlen];
    [|right; split; [lia|done]].
  apply and_then_ok in Hp as ([window|] & Hw & Hp).
  - left. injection Hp as ->. unfold try_parallel_branches in Hw.
    destruct (local_merge _ _ _) as [m|] eqn:Hm; [|done].
    destruct (region_single_entry g id stop) eqn:Hse; [|done]. simpl in Hw.
    destruct (plan_branch_diamond _ _ _ _ _ _ _ _) as [[built|]|] eqn:Hd; [|done..].
    injection Hw as ->. unfold plan_branch_diamond in Hd.
    apply and_then_ok in Hd as ([plans|] & Hb & Hd); [|done].
    destruct (branches_independent _ _ _) eqn:Hi; [|done]. simpl in Hd.
    apply and_then_ok in Hd as (mp & Hmp & Hd). injection Hd as <-.
    exists (merge_sort ordinal_le (normal_flow_edges g id)), m, plans, mp. split; [done|]. split; try done.
    + apply merge_sort_Permutation.
    + by apply plan_branches_ok.
  - right. destruct (never_reconverges g root stop); [done|]. done.
Qed.
End round.

(** What follows a step of a chain. *)
Lemma runs_next p id next l r :
  next_of p = Some (id, next) → runs p l r → ∃ l', l = id :: l' ∧ runs next l' r.
Proof.
  intros Hn Hr. destruct p; try done; simpl in Hn; injection Hn as <- <-;
    inversion Hr as [| | | |? ? ? ? ? Hn' Hr'|? ? ? ? ? ? Hc|? ? ? ? ? Hc|? ? ? ? ? ? ? ? Hc|]; subst;
    try done; injection Hn' as <- <-; eauto.
Qed.

Lemma linear_next p id next :
  next_of p = Some (id, next) → is_linear_chain_branch p = true →
  is_join next = true ∨ is_linear_chain_branch next = true.
Proof.
  intros Hn Hl. destruct p; try done; simpl in Hn; injection Hn as <- <-; simpl in Hl;
    repeat case_match; auto; done.
Qed.

Lemma chain_ids_next p id next :
  next_of p = Some (id, next) → id ∈ chain_step_ids p ∧
  ∀ x, x ∈ chain_step_ids next → x ∈ chain_step_ids p.
Proof.
  intros Hn. destruct p; try done; simpl in Hn; injection Hn as <- <-; simpl;
    (split; [by left|]); intros x Hx; right; rewrite ?elem_of_app; auto.
Qed.

(** ** Regions *)

Lemma succ_edge g x y : succ g x y ↔ ∃ e, e ∈ normal_flow_edges g x ∧ de_to_step e = y.
Proof.
  unfold succ, normal_flow_edges. split.
  - intros (e & He & Hf & Ht & Hn). exists e. split; [|done]. by apply list_elem_of_filter.
  - intros (e & ([Hf Hn] & He)%list_elem_of_filter & Ht). by exists e.
Qed.

Lemma in_region_reach g r stop x : in_region g r stop x → rtc (succ g) r x.
Proof. apply (rtc_congruence id). by intros a b (_ & ? & _). Qed.

Lemma in_region_stop g r stop x : stop ≠ Some r → in_region g r stop x → stop ≠ Some x.
Proof. intros Hr [<-|(y & _ & _ & _ & ?)]%rtc_inv_r; done. Qed.

(** ** Single entry *)

Definition forward (g : DirectGraphManifest) (x y : string) : Prop :=
  ∃ e, e ∈ m_edges g ∧ de_from_step e = x ∧ de_to_step e = y ∧ is_forward e = true.

Definition forward_plan (g : DirectGraphManifest) : list ExecutionPlanEdge :=
  (λ e, edge (de_from_step e) (de_to_step e)) <$> filter (λ e, is_forward e = true) (m_edges g).

Lemma forward_edges_discover g x R found :
  forward_edges x None (m_edges g) R found = discover_edges x (forward_plan g) R found.
Proof.
  unfold forward_plan. revert R found.
  induction (m_edges g) as [|e l IH]; intros R found; [done|]. rewrite filter_cons.
  cbn [forward_edges]. case_decide as Hf.
  - rewrite Hf, fmap_cons. cbn [discover_edges]. rewrite (bool_decide_true (Some _ ≠ None)) by done.
    rewrite !andb_true_r. unfold is_normal_flow_edge. simpl. case_match; apply IH.
  - apply not_true_is_false in Hf. rewrite Hf, andb_false_r. apply IH.
Qed.

Lemma forward_plan_spec g x y :
  forward g x y ↔ ∃ e, e ∈ forward_plan g ∧ from_step e = x ∧ to_step e = y.
Proof.
  unfold forward, forward_plan. split.
  - intros (e & He & Hf & Ht & Hw). exists (edge (de_from_step e) (de_to_step e)). split; [|done].
    apply list_elem_of_fmap. exists e. split; [done|]. by apply list_elem_of_filter.
  - intros (e & (e' & -> & [Hw He]%list_elem_of_filter)%list_elem_of_fmap & Hf & Ht). by exists e'.
Qed.

(** What holds between two rounds of [forward_reach] from [s]. *)
Record spreading (g : DirectGraphManifest) (s : string) (R : gset string) (processed queue : list string) :
  Prop := {
  spread_start : s ∈ processed ++ queue;
  spread_all x : x ∈ R → x ∈ processed ++ queue;
  spread_closed x y : x ∈ processed → forward g x y → y ∈ R;
  spread_queue x : x ∈ processed ++ queue → x = s ∨ x ∈ R;
  spread_sound x : x ∈ R → tc (forward g) s x }.

Lemma forward_reach_exact fuel g s R processed queue :
  spreading g s R processed queue → length queue + edges_to (forward_plan g) R ≤ fuel →
  ∃ R', forward_reach fuel g None R queue = Some R' ∧
    (∀ x y, x = s ∨ x ∈ R' → forward g x y → y ∈ R') ∧ (∀ x, x ∈ R' → tc (forward g) s x).
Proof.
  revert R processed queue. induction fuel as [|fuel IH];
    intros R processed [|x queue] [H1 H2 H3 H4 H5] Hfuel; simpl in Hfuel; try lia.
  1,2: exists R; rewrite app_nil_r in *; (split; [done|]); (split; [|done]);
    intros a b [->|Ha] Hab; eauto.
  simpl. rewrite forward_edges_discover.
  destruct (discover_edges_spec x (forward_plan g) R [])
    as (new & R' & -> & _ & _ & HR & Hcl & Hsound & Hlen). simpl.
  assert (Hx : x = s ∨ x ∈ R) by (apply H4; set_solver).
  apply (IH _ (processed ++ [x])); [|rewrite length_app; lia]. split.
  - set_solver.
  - intros y [Hy%H2|Hy]%HR; set_solver.
  - intros a b [Ha| ->%list_elem_of_singleton]%elem_of_app Hab; [apply HR; left; by eapply H3|].
    apply forward_plan_spec in Hab as (e & He & Hf & <-). apply Hcl; [done..|].
    by apply list_elem_of_fmap in He as (e' & -> & _).
  - intros y Hy. destruct (decide (y ∈ new)) as [Hn|Hn]; [right; apply HR; by right|].
    destruct (H4 y) as [->|Hr]; [set_solver|by left|right; apply HR; by left].
  - intros y [Hy|Hy]%HR; [by apply H5|]. destruct (Hsound y Hy) as (e & He & Hf & _ & Ht).
    assert (Hxy : forward g x y) by (apply forward_plan_spec; by exists e).
    destruct Hx as [->|Hx]; [by apply tc_once|]. by eapply tc_r; [apply H5|].
Qed.

(** The region after a fan-out is entered through it only. *)
Lemma single_entry g s :
  region_single_entry g s None = true →
  (∀ y, tc (forward g) s y → ∀ x, forward g x y → x = s ∨ tc (forward g) s x).
Proof.
  intros Hse. destruct (forward_reach_exact (region_rounds g) g s ∅ [] [s]) as (R & HR & Hcl & Hsound).
  { split; set_solver. }
  { unfold region_rounds, edges_to, forward_plan. simpl. apply le_n_S.
    etrans; [apply length_filter|]. rewrite length_fmap. apply length_filter. }
  assert (Hall : ∀ y, tc (forward g) s y → y ∈ R).
  { apply (tc_ind_r (λ y, y ∈ R)); [intros y Hy; by eapply Hcl; [left|]|].
    intros y z _ Hy Hyz. eapply Hcl; [by right|done]. }
  unfold region_single_entry in Hse. rewrite HR in Hse. cbn [default from_option id] in Hse.
  apply negb_true_iff in Hse. intros y Hy x (e & He & Hf & Ht & Hw).
  destruct (decide (x = s)) as [|Hne]; [by left|]. right. apply Hsound. apply dec_stable. intros Hn.
  apply not_true_iff_false in Hse. apply Hse, existsb_exists. exists e.
  split; [by apply list_elem_of_In|]. rewrite Hw, !bool_decide_true; [done|..]; subst; auto.
Qed.

(** ** The merge point is reached *)

Lemma control_successor g x y : y ∈ direct_control_successors g x → region_stops g x = false → succ g x y.
Proof.
  intros Hy (step & nested & Hf & _ & Hb & _)%region_goes_on.
  unfold direct_control_successors in Hy. rewrite Hf, Hb in Hy.
  case_bool_decide; [by apply not_elem_of_nil in Hy|].
  apply list_elem_of_fmap in Hy as (e & -> & He). apply succ_edge. by exists e.
Qed.

Lemma collect_reachable_sound fuel g start reachable visited queue l :
  (∀ x, rtc (succ g) start x → region_stops g x = false) →
  (∀ x, x ∈ reachable ++ queue → rtc (succ g) start x) →
  collect_reachable_loop fuel g reachable visited queue = Some l →
  ∀ x, x ∈ l → rtc (succ g) start x.
Proof.
  intros Hplain. revert reachable visited queue. induction fuel as [|fuel IH];
    intros reachable visited [|c queue] Hall Hl; simpl in Hl; try done.
  1,2: injection Hl as <-; by rewrite app_nil_r in Hall.
  case_decide; [by eapply IH, Hl; set_solver|].
  assert (Hc : rtc (succ g) start c) by (apply Hall; set_solver).
  eapply IH, Hl. intros x Hx. rewrite !elem_of_app, list_elem_of_filter in Hx.
  destruct Hx as [[Hx| ->%list_elem_of_singleton]|[Hx|[_ Hx]]]; [apply Hall; set_solver|done|
    apply Hall; set_solver|].
  eapply rtc_r; [exact Hc|]. apply control_successor; [done|by apply Hplain].
Qed.

Lemma collect_reachable_reach g start x :
  (∀ x, rtc (succ g) start x → region_stops g x = false) →
  x ∈ direct_collect_reachable g start → rtc (succ g) start x.
Proof.
  intros Hplain Hx. unfold direct_collect_reachable in Hx.
  destruct (collect_reachable_loop _ _ _ _ _) as [l|] eqn:Hl; [|by apply not_elem_of_nil in Hx].
  eapply collect_reachable_sound; [done| |exact Hl|done].
  intros y Hy. simpl in Hy. apply list_elem_of_singleton in Hy as ->. apply rtc_refl.
Qed.

Lemma local_merge_reach g starts stop m :
  (∀ s, s ∈ starts → ∀ x, rtc (succ g) s x → region_stops g x = false) →
  local_merge g (Some <$> starts) stop = Some m →
  (∃ s, s ∈ starts ∧ rtc (succ g) s m) ∧ stop ≠ Some m.
Proof.
  intros Hplain Hm. unfold local_merge in Hm. apply bind_Some in Hm as (m' & Hm & Hst).
  case_decide as Hne; [done|]. injection Hst as ->. split; [|congruence].
  unfold direct_find_merge_point in Hm.
  replace (omap id (Some <$> starts)) with starts in Hm
    by (clear; induction starts as [|s l IH]; [done|]; simpl; by f_equal).
  destruct starts as [|s0 [|s1 rest]]; try done. simpl in Hm.
  apply find_some in Hm as [Hin _]. exists s0. split; [left|].
  apply collect_reachable_reach; [by apply Hplain; left|]. by apply list_elem_of_In.
Qed.

Section linear.
Context `{UnicodeData} (children : list DirectChildWorkflowGraphManifest)
  (g : DirectGraphManifest) (entry : string).

(** The normal flow has no cycle, no step reached from the entry branches, and only
    normal and onError edges leave these steps; Finish and Error steps end the flow. *)
Hypothesis acyclic : ∀ x, ¬ tc (succ g) x x.
Hypothesis plain : ∀ x, rtc (succ g) entry x → region_stops g x = false.
Hypothesis labels : ∀ e, e ∈ m_edges g → rtc (succ g) entry (de_from_step e) →
  is_forward e = true → is_normal_label (de_label e) = true.
Hypothesis ends : ∀ x step, find_step g x = Some step → m_step_type step.1 ∈ ["Finish"; "Error"] →
  normal_flow_edges g x = [].

Local Abbreviation reaches := (rtc (succ g)).

Lemma reach_in_region r x : reaches entry r → reaches r x → in_region g r None x.
Proof.
  intros Hr. apply (rtc_ind_r (in_region g r None) r); [apply rtc_refl|].
  intros y z Hy Hyz IH. unfold in_region. eapply rtc_r; [exact IH|]. split; [|done].
  apply plain. by trans r.
Qed.

(** The order of a region. *)
Lemma region_facts r stop :
  reaches entry r → stop ≠ Some r →
  let order := direct_execution_order g r stop in
  NoDup order ∧ (∀ x, x ∈ order ↔ in_region g r stop x) ∧ head order = Some r ∧
  (∀ x y, x ∈ order → y ∈ order → succ g x y → before order x y).
Proof.
  intros Hr Hs. destruct (region_order_complete g r stop Hs) as (Hnd & Hin & Hhd). cbv zeta.
  split; [done|]. split; [done|]. split; [done|]. intros x y Hx%Hin Hy%Hin Hxy.
  apply region_order_topological; try done.
  - intros a b Ha _ _. apply plain. trans r; [done|]. by eapply in_region_reach.
  - intros a _ Ha. apply (acyclic a). revert Ha. apply (tc_congruence id). by intros b c (_ & ? & _).
Qed.

Lemma reach_before r stop x y :
  reaches entry r → stop ≠ Some r → x ∈ direct_execution_order g r stop →
  rtc (step_to g stop) x y → x ≠ y → before (direct_execution_order g r stop) x y.
Proof.
  intros Hr Hs Hx Hxy. destruct (region_facts r stop Hr Hs) as (Hnd & Hin & _ & Htopo).
  revert Hxy. apply (rtc_ind_r (λ y, x ≠ y → before _ x y)); [done|]. intros y' z Hy Hyz IH Hne.
  assert (Hy' : y' ∈ direct_execution_order g r stop).
  { apply Hin. unfold in_region. trans x; [by apply Hin|done]. }
  assert (Hz' : z ∈ direct_execution_order g r stop).
  { apply Hin. unfold in_region. eapply rtc_r; [by apply Hin|done]. }
  assert (Hb : before (direct_execution_order g r stop) y' z) by (apply Htopo; [done..|apply Hyz]).
  destruct (decide (x = y')) as [->|Hne']; [done|]. eapply before_trans; eauto.
Qed.

(** Every step of the region reaches a step without successors. *)
Lemma reaches_terminal r pre post :
  reaches entry r → direct_execution_order g r None = pre ++ post →
  ∀ x, x ∈ post → ∃ z, z ∈ post ∧ reaches x z ∧ normal_flow_edges g z = [].
Proof.
  intros Hr. destruct (region_facts r None Hr ltac:(done)) as (Hnd & Hin & _ & Htopo).
  revert pre. induction post as [|y post IH]; intros pre Ho x Hx; [by apply not_elem_of_nil in Hx|].
  rewrite Ho in Hnd, Hin, Htopo.
  assert (IH' : ∀ x, x ∈ post → ∃ z, z ∈ y :: post ∧ reaches x z ∧ normal_flow_edges g z = []).
  { intros x' Hx'. destruct (IH (pre ++ [y])) with (x := x') as (z & Hz & Hxz & He);
      [by rewrite <-(assoc_L (++))|done|]. exists z. split; [by right|done]. }
  apply elem_of_cons in Hx as [->|Hx]; [|by apply IH'].
  destruct (normal_flow_edges g y) as [|e es] eqn:He; [exists y; split; [left|done]|].
  assert (Hyw : succ g y (de_to_step e)).
  { apply succ_edge. exists e. rewrite He. split; [left|done]. }
  assert (Hy : y ∈ pre ++ y :: post) by (apply elem_of_app; right; left).
  assert (Hw : de_to_step e ∈ post).
  { apply (before_after pre y post); [done|]. apply Htopo; [done| |done]. apply Hin.
    apply reach_in_region; [done|]. eapply rtc_r; [eapply in_region_reach, Hin, Hy|done]. }
  destruct (IH' _ Hw) as (z & Hz & Hwz & Hez). exists z. split; [done|]. split; [|done].
  by eapply rtc_l.
Qed.

(** ** Chains *)

(** What a sequential plan is, by what is left of the region's order. *)
Lemma sequential_plan_cases rec id stack ioe stop r pre post next :
  NoDup (pre ++ id :: post) → direct_execution_order g r stop = pre ++ id :: post →
  sequential_plan rec g id stack ioe stop r = Some (Ok next) →
  match post with
  | nx :: _ => rec g nx (stack ++ [id]) ioe stop r = Some (Ok next)
  | [] => (next = PImplicitFinish ∧ normal_flow_edges g id = []) ∨
          (next = PJoin ∧ is_Some stop ∧ normal_flow_edges g id ≠ [] ∧
           ∀ y, succ g id y → stop = Some y)
  end.
Proof.
  intros Hnd Ho. unfold sequential_plan, topo_successor. rewrite Ho, successor_in_app.
  2: { apply NoDup_app in Hnd as (_ & Hd & _). intros Hin. apply (Hd id Hin). left. }
  destruct post as [|nx post]; simpl; [|done].
  case_bool_decide as Hl.
  { intros [= <-]. left. split; [done|]. by apply nil_length_inv. }
  destruct (is_set stop && _) eqn:Hj; [|done]. intros [= <-]. right.
  apply andb_true_iff in Hj as [Hs Hall]. split; [done|]. split; [by apply bool_decide_eq_true in Hs|].
  split; [by intros He; rewrite He in Hl|]. intros y (e & He & <-)%succ_edge.
  rewrite forallb_forall in Hall. apply list_elem_of_In, Hall, bool_decide_eq_true in He. done.
Qed.

Lemma no_terminals_of_guard r m :
  never_reconverges g r (Some m) = false →
  ∀ x, x ∈ direct_execution_order g r (Some m) → normal_flow_edges g x ≠ [].
Proof.
  unfold never_reconverges. intros [_ Hz]%orb_false_elim x Hx He.
  assert (Hin : x ∈ filter (λ s, normal_flow_edges g s = []) (direct_execution_order g r (Some m)))
    by (by apply list_elem_of_filter).
  by destruct (filter _ (direct_execution_order g r (Some m))); [apply not_elem_of_nil in Hin|].
Qed.

(** The only successor comes next. *)
Lemma single_successor r stop pre id nx post :
  reaches entry r → stop ≠ Some r →
  direct_execution_order g r stop = pre ++ id :: nx :: post →
  (∀ x, x ∈ nx :: post → in_region g id stop x) → length (normal_flow_edges g id) ≤ 1 →
  ∀ x, x ∈ post → in_region g nx stop x.
Proof.
  intros Hr Hs Ho Hall Hlen.
  destruct (region_facts r stop Hr Hs) as (Hnd & Hin & _ & Htopo). rewrite Ho in Hnd, Hin, Htopo.
  assert (Hvia : ∀ x, x ∈ nx :: post → ∃ y, step_to g stop id y ∧ rtc (step_to g stop) y x).
  { intros x Hx. destruct (Hall x Hx) as [|? y ? Hy Hyx]; [exfalso|by exists y].
    apply NoDup_app in Hnd as (_ & _ & [Hn _]%NoDup_cons). done. }
  assert (Huniq : ∀ y y', step_to g stop id y → step_to g stop id y' → y = y').
  { intros y y' (_ & (e & He & <-)%succ_edge & _) (_ & (e' & He' & <-)%succ_edge & _).
    destruct (normal_flow_edges g id) as [|e0 [|]]; simpl in Hlen; [by apply not_elem_of_nil in He| |lia].
    apply list_elem_of_singleton in He as ->. by apply list_elem_of_singleton in He' as ->. }
  destruct (Hvia nx ltac:(left)) as (y & Hy & Hynx).
  assert (Hid : id ∈ pre ++ id :: nx :: post) by set_solver.
  assert (Hyin : y ∈ nx :: post).
  { apply (before_after pre id (nx :: post)); [done|]. apply Htopo; [done| |apply Hy]. apply Hin.
    unfold in_region. eapply rtc_r; [apply Hin, Hid|done]. }
  assert (y = nx) as ->.
  { apply elem_of_cons in Hyin as [->|Hyin]; [done|].
    destruct (decide (y = nx)) as [|Hne]; [done|exfalso].
    assert (Hb : before (direct_execution_order g r stop) y nx).
    { apply reach_before; [done..| |done|done]. rewrite Ho. set_solver. }
    rewrite Ho in Hb. assert (Hb' : before (pre ++ id :: nx :: post) nx y).
    { exists (pre ++ [id; nx]), post. rewrite <-(assoc_L (++)). set_solver. }
    apply (before_irrefl _ y Hnd). by eapply before_trans. }
  intros x Hx. destruct (Hvia x ltac:(by right)) as (y' & Hy' & Hyx).
  by rewrite (Huniq _ _ Hy Hy').
Qed.

(** A branch of a window is the order of its region, and all of it leads to the merge. *)
Lemma chain_runs fuel r m s stack ioe pre post p :
  reaches entry r → m ≠ r → direct_execution_order g r (Some m) = pre ++ s :: post →
  step_run_plan_inner children fuel g s stack ioe (Some m) r = Some (Ok p) →
  is_linear_chain_branch p = true →
  (∀ l b, runs p l b → l = s :: post ∧ b = false) ∧ (∀ x, x ∈ s :: post → x ∈ chain_step_ids p) ∧
  ((∀ x, x ∈ post → in_region g s (Some m) x) ∨
     (∀ x, x ∈ pre ++ s :: post → normal_flow_edges g x ≠ []) →
   ∀ x, x ∈ s :: post → normal_flow_edges g x ≠ []).
Proof.
  intros Hr Hm. revert s stack pre post p.
  induction fuel as [|fuel IH]; intros s stack pre post p Ho Hp Hlin; [done|]. simpl in Hp.
  destruct (region_facts r (Some m) Hr ltac:(congruence)) as (Hnd & Hin & _). rewrite Ho in Hnd, Hin.
  assert (Hreg : ∀ x, x ∈ pre ++ s :: post → region_stops g x = false ∧ Some m ≠ Some x).
  { intros x Hx%Hin. split; [|eapply in_region_stop; [|exact Hx]; congruence].
    apply plain. trans r; [done|]. by eapply in_region_reach. }
  destruct (Hreg s ltac:(set_solver)) as [Hstop Hsm].
  apply plan_step_next in Hp as [(? & _ & _ & _ & Hno & _)|(next & Hn & Hp)]; [congruence| |done..].
  apply normal_flow_next in Hp as [(? & ? & ? & ? & -> & _)|[Hguard Hp]]; [|clear Hstop|done].
  { by destruct (linear_next _ _ _ Hn Hlin). }
  apply (sequential_plan_cases _ _ _ _ _ _ _ _ _ Hnd Ho) in Hp.
  destruct (chain_ids_next _ _ _ Hn) as [Hid Hids].
  destruct post as [|nx post].
  - destruct Hp as [[-> _]|(-> & _ & He & _)]; [by destruct (linear_next _ _ _ Hn Hlin)|].
    split; [|split].
    + intros l b (l' & -> & Hr')%(runs_next _ _ _ _ _ Hn). by inversion Hr'.
    + by intros x ->%list_elem_of_singleton.
    + by intros _ x ->%list_elem_of_singleton.
  - assert (Ho' : direct_execution_order g r (Some m) = (pre ++ [s]) ++ nx :: post)
      by (by rewrite <-(assoc_L (++))).
    destruct (linear_next _ _ _ Hn Hlin) as [Hj|Hlin'].
    { destruct next; try done. destruct fuel; [done|]. apply plan_step_join in Hp.
      - by destruct (Hreg nx ltac:(set_solver)) as [_ ?].
      - by destruct (Hreg nx ltac:(set_solver)). }
    destruct (IH _ _ _ _ _ Ho' Hp Hlin') as (Hruns & Hchain & Hterm). split; [|split].
    + intros l b (l' & -> & Hr')%(runs_next _ _ _ _ _ Hn). by destruct (Hruns _ _ Hr') as [-> ->].
    + intros x [->|Hx]%elem_of_cons; [done|]. by apply Hids, Hchain.
    + intros HU. assert (Hrest : ∀ x, x ∈ nx :: post → normal_flow_edges g x ≠ []).
      { apply Hterm. rewrite <-(assoc_L (++)). simpl. destruct HU as [HU|HG]; [|by right].
        destruct (decide (1 < length (normal_flow_edges g s))) as [Hl|Hl].
        - right. rewrite <-Ho. by apply no_terminals_of_guard, Hguard.
        - left. eapply single_successor; [done| |done|done|lia]. congruence. }
      intros x [->|Hx]%elem_of_cons; [|by apply Hrest].
      destruct HU as [HU|HG]; [|apply HG; set_solver]. intros He.
      destruct (HU nx ltac:(left)) as [|? y ? (_ & (e & Hine & _)%succ_edge & _) _].
      * apply NoDup_app in Hnd as (_ & _ & [Hn' _]%NoDup_cons). set_solver.
      * rewrite He in Hine. by apply not_elem_of_nil in Hine.
Qed.

(** ** Windows *)

Lemma independent_sets id sets :
  branches_independent g id sets = true →
  NoDup (List.concat sets) ∧ ∀ i set x y, sets !! i = Some set → y ∈ set → succ g x y → x = id ∨ x ∈ set.
Proof.
  unfold branches_independent. intros [Hnd Hall]%andb_true_iff. split; [by apply bool_decide_eq_true in Hnd|].
  intros i set x y Hset Hy (e & He & Hf & Ht & Hn). rewrite forallb_forall in Hall.
  assert (Hin : In set sets) by (apply list_elem_of_In; by eapply list_elem_of_lookup_2).
  specialize (Hall set Hin). rewrite forallb_forall in Hall.
  specialize (Hall y (proj1 (list_elem_of_In _ _) Hy)). apply negb_true_iff, not_true_iff_false in Hall.
  apply dec_stable. intros Hno. apply Hall, existsb_exists. exists e. split; [by apply list_elem_of_In|].
  rewrite Hn, !bool_decide_true; [done|..]; subst; tauto.
Qed.

(** Where all steps of a region have successors, they lead to its merge point. *)
Lemma leads_to_merge b m pre post :
  reaches entry b → m ≠ b → direct_execution_order g b (Some m) = pre ++ post →
  (∀ x, x ∈ post → normal_flow_edges g x ≠ []) → ∀ x, x ∈ post → reaches x m.
Proof.
  intros Hb Hm. destruct (region_facts b (Some m) Hb ltac:(congruence)) as (Hnd & Hin & _ & Htopo).
  revert pre. induction post as [|y post IH]; intros pre Ho Hne x Hx; [by apply not_elem_of_nil in Hx|].
  assert (IH' : ∀ x, x ∈ post → reaches x m).
  { apply (IH (pre ++ [y])); [by rewrite <-(assoc_L (++))|]. intros x' Hx'. apply Hne. by right. }
  apply elem_of_cons in Hx as [->|Hx]; [|by apply IH'].
  destruct (normal_flow_edges g y) as [|e es] eqn:He; [by destruct (Hne y ltac:(left))|].
  assert (Hyw : succ g y (de_to_step e)).
  { apply succ_edge. exists e. rewrite He. split; [left|done]. }
  destruct (decide (de_to_step e = m)) as [<-|Hwm]; [by apply rtc_once|].
  rewrite Ho in Hnd, Hin, Htopo.
  assert (Hy : y ∈ pre ++ y :: post) by (apply elem_of_app; right; left).
  eapply rtc_l; [exact Hyw|]. apply IH', (before_after pre y post); [done|].
  apply Htopo; [done| |done]. apply Hin. unfold in_region. eapply rtc_r; [by apply Hin|].
  split; [|split; [done|congruence]]. apply plain. trans b; [done|]. eapply in_region_reach. by apply Hin.
Qed.

Lemma forward_succ x y : reaches entry x → forward g x y ↔ succ g x y.
Proof.
  intros Hx. split.
  - intros (e & He & <- & Hto & Hw). exists e. split; [done|]. split; [done|]. split; [done|].
    by apply labels.
  - intros (e & He & Hf & Hto & Hn). exists e. split; [done|]. split; [done|]. split; [done|].
    unfold is_forward. rewrite bool_decide_false; [done|]. intros Hl. by rewrite Hl in Hn.
Qed.

Lemma forward_tc s y : reaches entry s → tc (forward g) s y ↔ tc (succ g) s y.
Proof.
  intros Hs. split.
  - revert y. apply (tc_ind_r (λ y, tc (succ g) s y)).
    + intros y Hy. by apply tc_once, forward_succ.
    + intros y w _ Hyw Hy. eapply tc_r; [exact Hy|]. apply forward_succ; [|done].
      trans s; [done|by apply tc_rtc].
  - revert y. apply (tc_ind_r (λ y, tc (forward g) s y)).
    + intros y Hy. by apply tc_once, forward_succ.
    + intros y w Hsy Hyw Hy. eapply tc_r; [exact Hy|]. apply forward_succ; [|done].
      trans s; [done|by apply tc_rtc].
Qed.

(** What comes after a fan-out with a single entry is reached from it. *)
Lemma single_entry_reach r s pre post :
  reaches entry r → direct_execution_order g r None = pre ++ s :: post →
  (∀ x, x ∈ post → reaches s x) ∨ length (filter (λ x, normal_flow_edges g x = []) (pre ++ s :: post)) < 2 →
  region_single_entry g s None = true → normal_flow_edges g s ≠ [] → ∀ x, x ∈ post → reaches s x.
Proof.
  intros Hr Ho HUG Hse Hne t Ht. destruct HUG as [HU|HG]; [by apply HU|].
  destruct (region_facts r None Hr ltac:(done)) as (Hnd & Hin & _ & Htopo).
  assert (Hts : ¬ rtc (step_to g None) t s).
  { intros Hts. assert (Hb : before (direct_execution_order g r None) t s).
    { apply reach_before; [done|done|rewrite Ho; set_solver|done|].
      intros ->. rewrite Ho in Hnd. apply NoDup_app in Hnd as (_ & _ & [? _]%NoDup_cons). done. }
    rewrite Ho in Hb, Hnd. apply (before_irrefl _ s Hnd). eapply before_trans; [done| |exact Hb].
    exists (pre ++ [s]), post. rewrite <-(assoc_L (++)). set_solver. }
  assert (Hent : ∀ x, x ∈ s :: post → reaches entry x).
  { intros x Hx. trans r; [done|]. eapply in_region_reach, Hin. rewrite Ho. apply elem_of_app. by right. }
  destruct (reaches_terminal r pre (s :: post) Hr Ho s ltac:(left)) as (z & Hz & Hsz & Hez).
  destruct (reaches_terminal r pre (s :: post) Hr Ho t ltac:(by right)) as (z' & Hz' & Htz & Hez').
  assert (z' = z) as ->.
  { destruct (decide (z' = z)) as [|Hd]; [done|exfalso].
    assert (Hsub : [z'; z] ⊆+ filter (λ x, normal_flow_edges g x = []) (pre ++ s :: post)).
    { apply NoDup_submseteq; [repeat constructor; set_solver|].
      intros x [->| ->%list_elem_of_singleton]%elem_of_cons; apply list_elem_of_filter; set_solver. }
    apply submseteq_length in Hsub. simpl in Hsub. lia. }
  assert (Hs : reaches entry s) by (apply Hent; left).
  assert (Hback : ∀ x, reaches x z → reaches entry x → tc (forward g) s x ∨ reaches x s).
  { intros x Hxz Hx. induction Hxz as [z|x y z Hxy Hyz IH].
    - left. apply forward_tc; [done|].
      destruct Hsz as [|s w z Hsw Hwz]; [done|]. by eapply tc_rtc_r; [apply tc_once|].
    - destruct IH as [Hsy|Hys]; try done; [by eapply rtc_r| |right; by eapply rtc_l].
      destruct (single_entry g s Hse y Hsy x) as [->|]; [by apply forward_succ|by right|by left]. }
  destruct (Hback t Htz ltac:(apply Hent; by right)) as [Hst|Hts']; [by apply tc_rtc, forward_tc|].
  exfalso. apply Hts. apply reach_in_region; [apply Hent; by right|done].
Qed.

(** The steps [S] run in the order [l]: all of them once, after their predecessors. *)
Definition linearizes (S l : list string) : Prop :=
  l ≡ₚ S ∧ ∀ x y, x ∈ S → y ∈ S → succ g x y → before l x y.

Lemma linearizes_cons s post l :
  (∀ x, x ∈ s :: post → ¬ succ g x s) → linearizes post l → linearizes (s :: post) (s :: l).
Proof.
  intros Hs [Hp Hb]. split; [by constructor|]. intros x y Hx Hy Hxy.
  apply elem_of_cons in Hy as [->|Hy]; [by destruct (Hs x Hx)|].
  apply elem_of_cons in Hx as [->|Hx]; [|by apply (before_app_r [s]), Hb].
  apply (before_cross [s] l); [left|]. by rewrite Hp.
Qed.

(** The branches of a window: the orders of their regions, disjoint, before the merge. *)
Lemma window_branches fuel s stack ioe ordered m plans merge_plan :
  reaches entry s →
  window_of (step_run_plan_inner children fuel) g s stack ioe None ordered m plans merge_plan →
  let sets := (λ e, direct_execution_order g (de_to_step e) (Some m)) <$> ordered in
  tc (succ g) s m ∧
  (∀ ls, Forall2 (λ p l, runs p l false) plans ls → ls = sets) ∧
  NoDup (List.concat sets) ∧
  (∀ i set, sets !! i = Some set → ∃ e, succ g s (de_to_step e) ∧ m ≠ de_to_step e ∧
     set = direct_execution_order g (de_to_step e) (Some m) ∧ ∀ x, x ∈ set → reaches x m) ∧
  (∀ i set x y, sets !! i = Some set → y ∈ set → succ g x y → x ∈ List.concat sets → x ∈ set ∨ x = s) ∧
  (∀ y, succ g s y → m ≠ y ∧ ∃ i, sets !! i = Some (direct_execution_order g y (Some m))).
Proof.
  intros Hs [Hperm Hmerge Hse Hplans Hind _] sets.
  assert (Hedge : ∀ e, e ∈ ordered → succ g s (de_to_step e)).
  { intros e He. apply succ_edge. exists e. by rewrite <-Hperm. }
  assert (Hfrom : ∀ e, e ∈ ordered → reaches entry (de_to_step e)).
  { intros e He. by eapply rtc_r; [|apply Hedge]. }
  replace ((λ e, Some (de_to_step e)) <$> ordered) with (Some <$> (de_to_step <$> ordered)) in Hmerge
    by (by rewrite <-list_fmap_compose).
  apply local_merge_reach in Hmerge as [(b & Hb & Hbm) _].
  2: { intros b (e & -> & He)%list_elem_of_fmap x Hx. apply plain. by etrans; [apply Hfrom|]. }
  apply list_elem_of_fmap in Hb as (e0 & -> & He0).
  assert (Hsm : tc (succ g) s m) by (eapply tc_rtc_r; [apply tc_once, Hedge, He0|done]).
  assert (Hall : Forall2 (λ e p, m ≠ de_to_step e ∧
    (∀ l b, runs p l b → l = direct_execution_order g (de_to_step e) (Some m) ∧ b = false) ∧
    (∀ x, x ∈ direct_execution_order g (de_to_step e) (Some m) → x ∈ chain_step_ids p ∧ reaches x m))
    ordered plans).
  { eapply Forall2_impl_elem; [exact Hplans|]. intros e p He Hp [Hrec Hlin].
    assert (Hne : m ≠ de_to_step e).
    { intros ->. destruct fuel; [done|]. simpl in Hrec. unfold plan_step in Hrec.
      rewrite decide_True in Hrec by done. by injection Hrec as <-. }
    split; [done|].
    destruct (region_facts (de_to_step e) (Some m) (Hfrom e He) ltac:(congruence)) as (Hnd & Hin & Hhd & _).
    destruct (direct_execution_order g (de_to_step e) (Some m)) as [|x post] eqn:Ho; [done|].
    simpl in Hhd. injection Hhd as ->.
    destruct (chain_runs _ _ _ _ _ _ [] post _ (Hfrom e He) Hne Ho Hrec Hlin) as (Hr & Hc & Ht).
    split; [done|]. intros x Hx. split; [by apply Hc|].
    apply (leads_to_merge _ _ [] _ (Hfrom e He) Hne Ho); [|done]. apply Ht. left.
    intros y Hy. apply Hin. by right. }
  apply independent_sets in Hind as [Hnd Hpred].
  assert (Hsets : Forall2 (λ l k, NoDup l ∧ ∀ x, x ∈ l → x ∈ k) sets
                    (remove_dups ∘ chain_step_ids <$> plans)).
  { apply Forall2_fmap. eapply Forall2_impl_elem; [exact Hall|]. intros e p He Hp (Hne & _ & Hc). split.
    - apply region_facts; [by apply Hfrom|congruence].
    - intros x [Hx _]%Hc. by apply elem_of_remove_dups. }
  split_and!; [done| | | | |].
  - intros ls Hls. subst sets. clear -Hls Hall. revert ls Hls.
    induction Hall as [|e p ordered plans (_ & Hr & _) _ IH]; intros ls Hls; inversion Hls; subst; [done|].
    simpl. f_equal; [by apply (Hr _ false)|by apply IH].
  - by eapply concat_sub_NoDup.
  - intros i set Hset. subst sets. apply list_lookup_fmap_Some in Hset as (e & -> & He).
    destruct (Forall2_lookup_l _ _ _ _ _ Hall He) as (p & _ & Hne & _ & Hc).
    exists e. split; [apply Hedge; by eapply list_elem_of_lookup_2|]. split; [done|]. split; [done|].
    intros x Hx. by apply Hc.
  - intros i set x y Hset Hy Hxy (j & k & Hk & Hx)%concat_elem.
    destruct (Forall2_lookup_l _ _ _ _ _ Hsets Hset) as (set' & Hset' & _ & Hsub).
    destruct (Forall2_lookup_l _ _ _ _ _ Hsets Hk) as (k' & Hk' & _ & Hsubk).
    destruct (Hpred i set' x y Hset' (Hsub y Hy) Hxy) as [->|Hx']; [by right|left].
    assert (i = j) as -> by (by eapply (concat_index _ i j set' k' x); eauto).
    congruence.
  - intros y (e & He & <-)%succ_edge. rewrite <-Hperm in He.
    apply list_elem_of_lookup in He as [i Hi].
    destruct (Forall2_lookup_l _ _ _ _ _ Hall Hi) as (p & _ & Hne & _). split; [done|].
    exists i. subst sets. by rewrite list_lookup_fmap, Hi.
Qed.

Lemma before_app_l k l x y : before l x y → before (l ++ k) x y.
Proof.
  intros (l1 & l2 & -> & Hx & Hy). exists l1, (l2 ++ k). rewrite (assoc_L (++)).
  split; [done|]. split; [done|]. apply elem_of_app. by left.
Qed.

Lemma no_return x y : reaches x y → reaches y x → x = y.
Proof.
  intros [|x' z y' Hxz Hzy] Hyx; [done|]. destruct (acyclic x').
  eapply tc_rtc_r; [by apply tc_once|]. by trans y'.
Qed.

(** A path avoids the merge point or goes through it. *)
Lemma through_merge y m x :
  reaches entry y → m ≠ y → reaches y x → in_region g y (Some m) x ∨ reaches m x.
Proof.
  intros Hy Hm. apply (rtc_ind_r (λ x, in_region g y (Some m) x ∨ reaches m x) y); [left; apply rtc_refl|].
  intros z w Hyz Hzw [Hz|Hz]; [|right; by eapply rtc_r].
  destruct (decide (m = w)) as [->|Hne]; [right; apply rtc_refl|left].
  unfold in_region. eapply rtc_r; [exact Hz|]. split; [|split; [done|congruence]].
  apply plain. by trans y.
Qed.

(** What follows a step in the order of its region. *)
Lemma after_in_order r s pre post x :
  reaches entry r → direct_execution_order g r None = pre ++ s :: post →
  reaches s x → s ≠ x → x ∈ post.
Proof.
  intros Hr Ho Hsx Hne. destruct (region_facts r None Hr ltac:(done)) as (Hnd & Hin & _).
  assert (Hs : s ∈ direct_execution_order g r None) by (rewrite Ho; set_solver).
  rewrite Ho in Hnd. apply (before_after pre s post); [done|]. rewrite <-Ho.
  apply reach_before; [done|done|done| |done]. apply reach_in_region; [|done].
  trans r; [done|]. by eapply in_region_reach, Hin.
Qed.

(** The steps of a window and those after its merge point are what follows its fan-out. *)
Lemma window_steps fuel r s pre post stack ioe ordered m plans merge_plan :
  reaches entry r → direct_execution_order g r None = pre ++ s :: post →
  (∀ x, x ∈ post → reaches s x) →
  window_of (step_run_plan_inner children fuel) g s stack ioe None ordered m plans merge_plan →
  let sets := (λ e, direct_execution_order g (de_to_step e) (Some m)) <$> ordered in
  (∀ x, x ∈ List.concat sets → reaches x m) ∧
  (∀ x, x ∈ direct_execution_order g m None ↔ reaches m x) ∧
  post ≡ₚ List.concat sets ++ direct_execution_order g m None.
Proof.
  intros Hr Ho HU Hw. destruct (region_facts r None Hr ltac:(done)) as (Hnd & Hin & _).
  assert (Hs : reaches entry s).
  { trans r; [done|]. eapply in_region_reach, Hin. rewrite Ho. set_solver. }
  rewrite Ho in Hnd. apply NoDup_app in Hnd as (_ & _ & [Hspost Hnd]%NoDup_cons).
  destruct (window_branches _ _ _ _ _ _ _ _ Hs Hw) as (Hsm & _ & Hndc & Hset & _ & Hcover).
  set (sets := (λ e, direct_execution_order g (de_to_step e) (Some m)) <$> ordered) in *.
  assert (Hm : reaches entry m) by (trans s; [done|by apply tc_rtc]).
  destruct (region_facts m None Hm ltac:(done)) as (Hndm & Hinm & _).
  assert (Hinm' : ∀ x, x ∈ direct_execution_order g m None ↔ reaches m x).
  { intros x. rewrite Hinm. split; [apply in_region_reach|by apply reach_in_region]. }
  assert (Hbranch : ∀ x, x ∈ List.concat sets → m ≠ x ∧ reaches x m ∧ tc (succ g) s x).
  { intros x (i & set & Hi & Hx)%concat_elem. destruct (Hset i set Hi) as (e & He & Hne & -> & Hto).
    assert (He' : reaches entry (de_to_step e)) by (eapply rtc_r; [exact Hs|done]).
    destruct (region_facts (de_to_step e) (Some m) He' ltac:(congruence)) as (_ & Hine & _).
    split; [|split; [by apply Hto|]].
    - apply Hine, in_region_stop in Hx; congruence.
    - eapply tc_rtc_r; [by apply tc_once|]. by eapply in_region_reach, Hine. }
  split; [by intros x (_ & ? & _)%Hbranch|]. split; [done|]. apply NoDup_Permutation; [done| |].
  { apply NoDup_app. split; [done|]. split; [|done]. intros x (Hne & Hxm & _)%Hbranch Hx%Hinm'.
    apply Hne. by apply no_return. }
  intros x. rewrite elem_of_app. split; [intros Hx|intros Hx].
  - destruct (rtc_inv _ _ (HU x Hx)) as [->|(y & Hsy & Hyx)]; [done|].
    destruct (Hcover y Hsy) as [Hmy [i Hi]].
    assert (Hy : reaches entry y) by (eapply rtc_r; [exact Hs|done]).
    destruct (through_merge y m x Hy Hmy Hyx) as [Hreg|Hmx]; [left|right; by apply Hinm'].
    apply concat_elem. exists i, (direct_execution_order g y (Some m)). split; [done|].
    apply region_facts; [done|congruence|done].
  - assert (Hsx : tc (succ g) s x).
    { destruct Hx as [(_ & _ & ?)%Hbranch|Hx%Hinm']; [done|by eapply tc_rtc_r]. }
    apply (after_in_order r s pre post x Hr Ho); [by apply tc_rtc|]. intros <-. by apply (acyclic s).
Qed.

(** A window runs what follows its fan-out, when its merge plan runs what follows the
    merge point. *)
Lemma window_linear fuel r s pre post stack ioe ordered m plans merge_plan l b :
  reaches entry r → direct_execution_order g r None = pre ++ s :: post →
  (∀ x, x ∈ post → reaches s x) →
  window_of (step_run_plan_inner children fuel) g s stack ioe None ordered m plans merge_plan →
  (∀ l' b', runs merge_plan l' b' → linearizes (direct_execution_order g m None) l') →
  runs (PParallelBranches plans merge_plan) l b → linearizes post l.
Proof.
  intros Hr Ho HU Hw Hmerge Hrun.
  destruct (window_steps _ _ _ _ _ _ _ _ _ _ _ Hr Ho HU Hw) as (Htom & Hinm & Hpost).
  destruct (region_facts r None Hr ltac:(done)) as (Hnd & Hin & _).
  assert (Hs : reaches entry s).
  { trans r; [done|]. eapply in_region_reach, Hin. rewrite Ho. set_solver. }
  rewrite Ho in Hnd. apply NoDup_app in Hnd as (_ & _ & [Hspost Hnd]%NoDup_cons).
  destruct (window_branches _ _ _ _ _ _ _ _ Hs Hw) as (_ & Hls & _ & Hset & Hpred & _).
  set (sets := (λ e, direct_execution_order g (de_to_step e) (Some m)) <$> ordered) in *.
  inversion Hrun as [| | | |? ? ? ? ? Hn _|? ? ? ? ? ? Hn _ _|? ? ? ? ? Hn _ _|? ? ? ? ? ? ? ? Hn _ _ _|
    ? ? ls l1 l2 ? Hbr [Hperm Hsub] Hmp]; subst; try done.
  apply Hls in Hbr as ->. destruct (Hmerge _ _ Hmp) as [Hp2 Hb2].
  split; [by rewrite Hpost, Hperm, Hp2|].
  intros x y Hx Hy Hxy. assert (Hxs : x ≠ s) by (by intros ->).
  rewrite Hpost, elem_of_app in Hx, Hy. destruct Hx as [Hx|Hx], Hy as [Hy|Hy].
  - apply before_app_l. apply concat_elem in Hy as (i & set & Hi & Hy).
    destruct (Hpred i set x y Hi Hy Hxy Hx) as [Hx'|]; [|done].
    apply (before_sublist set); [by apply (Forall_lookup_1 _ _ _ _ Hsub Hi)|].
    destruct (Hset i set Hi) as (e & He & Hne & -> & _).
    apply region_facts; [eapply rtc_r; [exact Hs|done]|congruence|done..].
  - apply before_cross; [by rewrite Hperm|by rewrite Hp2].
  - exfalso. apply (acyclic x). apply Hinm in Hx.
    eapply tc_rtc_r; [by apply tc_once|]. trans m; [by apply Htom|done].
  - by apply before_app_r, Hb2.
Qed.

(** ** The whole plan *)

Lemma terminals_two pre s post z :
  NoDup (pre ++ s :: post) → normal_flow_edges g s = [] → z ∈ post → normal_flow_edges g z = [] →
  2 ≤ length (filter (λ x, normal_flow_edges g x = []) (pre ++ s :: post)).
Proof.
  intros Hnd Hs Hz He. apply NoDup_app in Hnd as (_ & _ & [Hn _]%NoDup_cons).
  assert (Hsub : [s; z] ⊆+ filter (λ x, normal_flow_edges g x = []) (pre ++ s :: post)).
  { apply NoDup_submseteq; [repeat constructor; set_solver|].
    intros x [->| ->%list_elem_of_singleton]%elem_of_cons; apply list_elem_of_filter; set_solver. }
  by apply submseteq_length in Hsub.
Qed.

(** A step that ends the flow is the last of its region. *)
Lemma last_step r s pre post :
  reaches entry r → direct_execution_order g r None = pre ++ s :: post →
  (∀ x, x ∈ post → reaches s x) ∨ length (filter (λ x, normal_flow_edges g x = []) (pre ++ s :: post)) < 2 →
  normal_flow_edges g s = [] → post = [].
Proof.
  intros Hr Ho HUG Hs. destruct (region_facts r None Hr ltac:(done)) as (Hnd & _). rewrite Ho in Hnd.
  destruct post as [|x post]; [done|exfalso]. destruct HUG as [HU|HG].
  - destruct (rtc_inv _ _ (HU x ltac:(left))) as [->|(y & (e & He & _)%succ_edge & _)].
    + apply NoDup_app in Hnd as (_ & _ & [Hn _]%NoDup_cons). set_solver.
    + rewrite Hs in He. by apply not_elem_of_nil in He.
  - destruct (reaches_terminal r (pre ++ [s]) (x :: post) Hr) with (x := x) as (z & Hz & _ & Hez);
      [by rewrite <-(assoc_L (++))|left|].
    pose proof (terminals_two pre s (x :: post) z Hnd Hs Hz Hez). lia.
Qed.

Lemma plan_linear fuel r s pre post stack ioe p l b :
  reaches entry r → direct_execution_order g r None = pre ++ s :: post →
  (∀ x, x ∈ post → reaches s x) ∨ length (filter (λ x, normal_flow_edges g x = []) (pre ++ s :: post)) < 2 →
  step_run_plan_inner children fuel g s stack ioe None r = Some (Ok p) →
  runs p l b → linearizes (s :: post) l.
Proof.
  revert r s pre post stack p l b.
  induction fuel as [|fuel IH]; intros r s pre post stack p l b Hr Ho HUG Hp Hrun; [done|]. simpl in Hp.
  destruct (region_facts r None Hr ltac:(done)) as (Hnd & Hin & _ & Htopo).
  assert (Hs : reaches entry s).
  { trans r; [done|]. eapply in_region_reach, Hin. rewrite Ho. set_solver. }
  assert (Hfirst : ∀ x, x ∈ s :: post → ¬ succ g x s).
  { intros x Hx Hxs. apply (acyclic s). destruct (decide (s = x)) as [->|Hne]; [by apply tc_once|].
    assert (Hb : before (direct_execution_order g r None) x s) by (apply Htopo; rewrite ?Ho; set_solver).
    exfalso. rewrite Ho in Hb, Hnd. apply (before_irrefl _ s Hnd). eapply before_trans; [done| |exact Hb].
    exists (pre ++ [s]), post. rewrite <-(assoc_L (++)). set_solver. }
  apply plan_step_next in Hp as [(step & Hf & Ht & _ & _ & Hend)|(next & Hn & Hp)]; [|..|by apply plain|done].
  { apply Hend in Hrun as ->. rewrite (last_step r s pre post Hr Ho HUG (ends _ _ Hf Ht)).
    apply (linearizes_cons s [] []); [set_solver|]. by split; [|set_solver]. }
  apply (runs_next _ _ _ _ _ Hn) in Hrun as (l' & -> & Hrun). apply linearizes_cons; [done|].
  apply normal_flow_next in Hp as [(ordered & m & plans & mp & -> & Hw)|[Hguard Hp]]; [| |by apply plain].
  - destruct (window_branches _ _ _ _ _ _ _ _ Hs Hw) as (Hsm & _).
    assert (Hne : normal_flow_edges g s ≠ []).
    { intros He. destruct Hsm as [? ? (e & Hin' & _)%succ_edge|? ? ? (e & Hin' & _)%succ_edge _];
        rewrite He in Hin'; by apply not_elem_of_nil in Hin'. }
    assert (HU : ∀ x, x ∈ post → reaches s x).
    { eapply single_entry_reach; [exact Hr|exact Ho|exact HUG|apply Hw|done]. }
    eapply window_linear; [exact Hr|exact Ho|exact HU|exact Hw| |exact Hrun].
    intros l2 b2 Hrun2.
    assert (Hm : reaches entry m) by (trans s; [done|by apply tc_rtc]).
    destruct (region_facts m None Hm ltac:(done)) as (_ & Hinm & Hhd & _).
    destruct (direct_execution_order g m None) as [|m' postm] eqn:Hom; [done|].
    simpl in Hhd. injection Hhd as ->.
    eapply (IH m m [] postm); [done|done| |apply Hw|exact Hrun2].
    left. intros x Hx. eapply in_region_reach, Hinm. by right.
  - rewrite Ho in Hnd. apply (sequential_plan_cases _ _ _ _ _ _ _ _ _ Hnd Ho) in Hp.
    destruct post as [|nx post].
    { destruct Hp as [[-> _]|(_ & [? ?] & _)]; [|done]. inversion Hrun; subst; try done. by split; [|set_solver]. }
    eapply (IH r nx (pre ++ [s]) post); [done| | |exact Hp|exact Hrun]; rewrite <-(assoc_L (++)); [done|].
    destruct (decide (1 < length (normal_flow_edges g s))) as [Hl|Hl].
    { right. simpl. rewrite <-Ho. apply Hguard, orb_false_elim in Hl as [Hl _].
      by apply Nat.leb_gt in Hl. }
    destruct HUG as [HU|HG]; [left|by right].
    intros x Hx. eapply in_region_reach. eapply (single_successor r None); [done|done|exact Ho| |lia|done].
    intros y Hy. apply reach_in_region; [done|by apply HU].
Qed.
End linear.

(** ** Graphs without choices *)

(** A graph whose normal flow has no cycle and, from the entry, no choice; Finish and Error
    steps end it.  (Such steps have at most onError edges besides normal ones.) *)
Record unbranched (g : DirectGraphManifest) : Prop := {
  flow_acyclic x : ¬ tc (succ g) x x;
  flow_plain x : rtc (succ g) (m_entry_point g) x → region_stops g x = false;
  flow_labels e : e ∈ m_edges g → rtc (succ g) (m_entry_point g) (de_from_step e) →
    is_forward e = true → is_normal_label (de_label e) = true;
  flow_ends x step : find_step g x = Some step → m_step_type step.1 ∈ ["Finish"; "Error"] →
    normal_flow_edges g x = [] }.

(** Every run of the plan of such a graph, however the branches of its parallel windows
    interleave, executes each step reachable from the entry exactly once and after all its
    normal-flow predecessors, and nothing else. *)
Lemma unbranched_runs `{UnicodeData} fuel manifest plan l raised :
  unbranched (wm_graph manifest) →
  direct_run_plan fuel manifest = Some (Ok plan) → runs plan l raised →
  NoDup l ∧
  (∀ x, x ∈ l ↔ rtc (succ (wm_graph manifest)) (m_entry_point (wm_graph manifest)) x) ∧
  (∀ x y, x ∈ l → succ (wm_graph manifest) x y → before l x y).
Proof.
  intros [Hac Hpl Hla Hen] Hplan Hrun. set (g := wm_graph manifest) in *.
  unfold direct_run_plan in Hplan. fold g in Hplan.
  destruct (find_step g (m_entry_point g)) as [[entry ?]|]; [|done].
  case_bool_decide; [|done]. unfold plan_graph, step_run_plan in Hplan.
  destruct (region_facts g _ Hac Hpl (m_entry_point g) None ltac:(reflexivity) ltac:(done))
    as (Hnd & Hin & Hhd & _).
  destruct (direct_execution_order g (m_entry_point g) None) as [|x post] eqn:Ho; [done|].
  simpl in Hhd. injection Hhd as ->.
  destruct (plan_linear (wm_child_workflows manifest) g _ Hac Hpl Hla Hen fuel (m_entry_point g)
    (m_entry_point g) [] post [] true plan l raised ltac:(reflexivity) Ho) as [Hperm Hb]; [|done..|].
  { left. intros y Hy. eapply in_region_reach, Hin. by right. }
  assert (Hiff : ∀ y, y ∈ l ↔ rtc (succ g) (m_entry_point g) y).
  { intros y. rewrite Hperm, Hin. split; [apply in_region_reach|].
    intros Hy. by eapply reach_in_region. }
  split; [by rewrite Hperm|]. split; [done|]. intros y z Hy Hyz.
  apply Hb; [by rewrite <-Hperm..| |done]. rewrite <-Hperm. apply Hiff. apply Hiff in Hy. by eapply rtc_r.
Qed.
