(* ===== verification/DirectPipeline.v ===== *)
(** * From the definition of a workflow to its runs

    The manifest of a graph has its steps and edges; so what the support gate guarantees of
    the definition and what holds of the runs of a plan compose. *)

From S2P Require Import Prelude.
From S2P Require Import Json.
From S2P Require Import Text.
From S2P Require Import ValidationBase.
From S2P Require Import ValidationAgents.
From S2P Require Import GraphOrder.
From S2P Require Import GraphOrderProperties.
From S2P Require Import Dsl.
From S2P Require Import WorkflowFeatures.
From S2P Require Import DirectManifest.
From S2P Require Import DirectManifestProperties.
From S2P Require Import DirectSupport.
From S2P Require Import DirectSupportProperties.
From S2P Require Import DirectPlan.
From S2P Require Import DirectPlanProperties.
From S2P Require Import DirectRunProperties.

Local Open Scope nat_scope.

(** ** The manifest of a graph *)

Section manifest.
Context `{UnicodeData, ManifestExternals} (agent_catalog : option AgentCatalog).

(** An edge and its entry. *)
Definition edge_of (e : ExecutionPlanEdge) (d : DirectEdgeManifest) : Prop :=
  de_from_step d = from_step e ∧ de_to_step d = to_step e ∧ de_label d = label e ∧
  (is_Some (de_condition_id d) ↔ is_Some (condition e)).

Lemma build_edges_of n l b : Forall2 edge_of l (build_edges n l b).1.
Proof.
  revert n b. induction l as [|e l IH]; intros n b; [constructor|]. simpl.
  assert (He : edge_of e (edge_manifest n e b).1).
  { unfold edge_manifest, edge_of. destruct (condition e); simpl; split_and!; try done; by split; eexists. }
  destruct (edge_manifest n e b) as [d b']. specialize (IH (n + 1)%Z b').
  destruct (build_edges (n + 1) l b') as [ds b'']. by constructor.
Qed.

Lemma build_steps_of graph durable l b :
  (build_steps agent_catalog graph durable l b).1.*1 = (λ s, step_head graph s.1 s.2.1) <$> l.
Proof.
  revert b. induction l as [|[id [step nested]] l IH]; intros b; [done|]. simpl.
  destruct (nested _) as [graphs s]. specialize (IH {| state := s; collections :=
    collections (step_entries agent_catalog graph id step durable b) |}).
  destruct (build_steps _ _ _ _ _) as [built b']. cbn [fst fmap list_fmap]. f_equal. exact IH.
Qed.

Section graph.
Context (graph : ExecutionGraph) (inherited : bool) (s : DirectManifestBuildState).
Local Abbreviation m := (graph_manifest agent_catalog graph inherited s).1.

Lemma manifest_entry : m_entry_point m = entry_point graph.
Proof. by rewrite graph_manifest_unfold. Qed.

Lemma manifest_edges : ∃ ds, Forall2 edge_of (execution_plan graph) ds ∧ m_edges m ≡ₚ ds.
Proof.
  rewrite graph_manifest_unfold. eexists. split; [apply build_edges_of|].
  unfold m_edges, m_parts, g_edges. cbn [fst]. apply merge_sort_Permutation.
Qed.

Lemma manifest_edge e : e ∈ execution_plan graph → ∃ d, d ∈ m_edges m ∧ edge_of e d.
Proof.
  destruct manifest_edges as (ds & Hall & Hp). intros [i Hi]%list_elem_of_lookup.
  destruct (Forall2_lookup_l _ _ _ _ _ Hall Hi) as (d & Hd & He). exists d. split; [|done].
  rewrite Hp. by eapply list_elem_of_lookup_2.
Qed.

Lemma plan_of_edge d : d ∈ m_edges m → ∃ e, e ∈ execution_plan graph ∧ edge_of e d.
Proof.
  destruct manifest_edges as (ds & Hall & Hp). rewrite Hp. intros [i Hi]%list_elem_of_lookup.
  destruct (Forall2_lookup_r _ _ _ _ _ Hall Hi) as (e & He & Hd). exists e. split; [|done].
  by eapply list_elem_of_lookup_2.
Qed.

(** The steps of the manifest, by their ids. *)
Lemma manifest_find id step : 
  steps graph !! id = Some step → ∃ nested, find_step m id = Some (step_head graph id step, nested).
Proof.
  intros Hs. rewrite graph_manifest_unfold. cbv zeta. set (d := default inherited _).
  pose proof (build_steps_of graph d (step_list agent_catalog d graph) {| state := s; collections := empty_tables |}) as Hb.
  set (built := build_steps _ _ _ _ _) in *. clearbody built. unfold find_step. cbn [fst m_steps].
  assert (Hin : step_head graph id step ∈ built.1.*1).
  { rewrite Hb. apply list_elem_of_fmap. exists (id, (step, nested_builder agent_catalog d step)).
    split; [done|]. unfold step_list. rewrite merge_sort_Permutation. apply elem_of_map_to_list.
    by rewrite lookup_fmap, Hs. }
  assert (Huniq : ∀ head, head ∈ built.1.*1 → m_id head = id → head = step_head graph id step).
  { intros head Hh Hid. rewrite Hb in Hh. apply list_elem_of_fmap in Hh as ([id' [step' f]] & -> & Hin').
    simpl in *. subst id'. apply step_list_lookup in Hin' as [Hs' _]. by simplify_eq. }
  clear Hb. induction built.1 as [|[head nested] l IH]; [by apply not_elem_of_nil in Hin|]. simpl.
  case_bool_decide as Hid.
  - rewrite <-(Huniq head); [by exists nested|left|done].
  - apply IH.
    + simpl in Hin. apply elem_of_cons in Hin as [<-|]; [done|done].
    + intros h Hh. apply Huniq. by right.
Qed.

Lemma find_manifest id head nested :
  find_step m id = Some (head, nested) →
  ∃ step, steps graph !! id = Some step ∧ head = step_head graph id step.
Proof.
  rewrite graph_manifest_unfold. cbv zeta. set (d := default inherited _).
  pose proof (build_steps_of graph d (step_list agent_catalog d graph) {| state := s; collections := empty_tables |}) as Hb.
  set (built := build_steps _ _ _ _ _) in *. clearbody built. unfold find_step. cbn [fst m_steps].
  intros [Hin Hid%bool_decide_eq_true]%find_some. simpl in Hid.
  assert (Hh : head ∈ built.1.*1).
  { apply list_elem_of_fmap. exists (head, nested). split; [done|]. by apply list_elem_of_In. }
  rewrite Hb in Hh. apply list_elem_of_fmap in Hh as ([id' [step f]] & -> & Hin'). simpl in *. subst id'.
  apply step_list_lookup in Hin' as [Hs _]. by exists step.
Qed.

Lemma normal_label_edge e d : edge_of e d → is_normal_label (de_label d) = is_normal_flow_edge e.
Proof.
  intros (_ & _ & Hl & _). rewrite Hl. unfold is_normal_label, is_normal_flow_edge. by destruct (label e).
Qed.

(** The normal flow of the manifest is that of the graph. *)
Lemma manifest_succ x y : succ m x y ↔ normal_edge graph x y.
Proof.
  split.
  - intros (d & (e & He & Hd)%plan_of_edge & <- & <- & Hn). exists e. destruct Hd as (Hf & Ht & Hl & Hc) eqn:?.
    split; [done|]. by rewrite <-(normal_label_edge e d).
  - intros (e & He & Hn & <- & <-). apply manifest_edge in He as (d & Hd & He). exists d. split; [done|].
    rewrite (normal_label_edge e d) by done. by destruct He as (-> & -> & _).
Qed.
End graph.
End manifest.

(** ** Composition *)

(** A definition without choices: no Conditional or Switch steps and no conditions on the
    normal flow. *)
Record no_choices (g : ExecutionGraph) : Prop := {
  no_branching id step : steps g !! id = Some step →
    match step with Conditional _ | Switch _ => False | _ => True end;
  no_edge_conditions e : e ∈ execution_plan g → is_normal_flow_edge e = true → condition e = None }.

Section compose.
Context `{UnicodeData, ManifestExternals} (agent_catalog : option AgentCatalog) (g : ExecutionGraph)
  (inherited : bool) (s : DirectManifestBuildState).
Hypothesis choices : no_choices g.
Hypothesis Hflat : flat g.
Hypothesis known : ∀ e, e ∈ execution_plan g → is_Some (steps g !! from_step e) ∧ is_Some (steps g !! to_step e).
Context (fuel : nat) (children : DirectSupportChildWorkflows).
Hypothesis accepted :
  supports_direct_control_graph (supports_direct_control_step_inner fuel) children g = Some true.

Local Abbreviation m := (graph_manifest agent_catalog g inherited s).1.

Lemma known_reached x : rtc (normal_edge g) (entry_point g) x → is_Some (steps g !! x).
Proof.
  destruct (accepted_covers _ _ _ known accepted) as (Hentry & _).
  intros [<-|(y & _ & e & He & _ & _ & <-)]%rtc_inv_r; [done|]. by apply known.
Qed.

(** The manifest of an accepted graph without choices is unbranched. *)
Lemma accepted_unbranched : unbranched m.
Proof.
  destruct (accepted_covers _ _ _ known accepted) as (_ & _ & Hlow).
  assert (Hlow' : ∀ e, e ∈ execution_plan g → lowered g e).
  { intros e He. destruct (Hlow e He) as [|Hn]; [done|]. by apply (flat_handlers _ Hflat) in Hn. }
  split.
  - intros x Hx. apply (accepted_acyclic fuel children g Hflat known accepted x). revert Hx.
    apply (tc_congruence id). unfold id. intros a b (e & He & Hn & <- & <-)%manifest_succ.
    destruct (known e He) as [[step Hs] _]. exists e, step. eauto 8.
  - intros x Hx. rewrite manifest_entry in Hx.
    assert (Hk : is_Some (steps g !! x)).
    { apply known_reached. revert Hx. apply (rtc_congruence id). unfold id. intros a b Hab.
      by apply manifest_succ in Hab. }
    destruct Hk as [step Hs]. destruct (manifest_find agent_catalog g inherited s x step Hs) as [nested Hf].
    unfold region_stops. rewrite Hf. apply orb_false_intro.
    + pose proof (no_branching _ choices x step Hs) as Hb. unfold direct_is_branching_step. simpl.
      destruct step; try done; simpl; by rewrite !decide_False by done.
    + apply not_true_is_false. intros (d & Hd & Hc)%existsb_exists.
      apply andb_true_iff in Hc as [[_ Hn]%andb_true_iff Hc%bool_decide_eq_true].
      apply list_elem_of_In, plan_of_edge in Hd as (e & He & Hed).
      rewrite (normal_label_edge e d Hed) in Hn. destruct Hed as (_ & _ & _ & Hcond).
      apply Hcond in Hc. rewrite (no_edge_conditions _ choices e He Hn) in Hc. by apply is_Some_None in Hc.
  - intros d Hd _ Hfw. apply plan_of_edge in Hd as (e & He & Hed). rewrite (normal_label_edge e d Hed).
    pose proof (Hlow' e He) as Hl. unfold is_forward in Hfw. destruct Hed as (_ & _ & Hlab & _).
    rewrite Hlab in Hfw. apply negb_true_iff, bool_decide_eq_false in Hfw.
    unfold lowered in Hl. destruct (steps g !! from_step e) as [step|] eqn:Hs; [|done].
    pose proof (no_branching _ choices _ _ Hs) as Hb.
    destruct step as [| | | | | | | | | | | | |st]; try done; try (by destruct Hl).
    destruct (flat_tools _ Hflat e st He Hs) as [Hn|[Hn|Hn]]; [..|done];
      unfold is_normal_flow_edge; by rewrite Hn.
  - intros x [head nested] Hf Ht. apply find_manifest in Hf as (step & Hs & ->). simpl in Ht.
    destruct (normal_flow_edges m x) as [|d ds] eqn:Hd; [done|exfalso].
    assert (Hin : d ∈ normal_flow_edges m x) by (rewrite Hd; left).
    apply list_elem_of_filter in Hin as [[Hfrom _] (e & He & Hed)%plan_of_edge].
    pose proof (Hlow' e He) as Hl. unfold lowered in Hl. destruct Hed as (Hf & _).
    rewrite <-Hf, Hfrom, Hs in Hl. clear -Hl Ht. destruct step; try done; set_solver.
Qed.
End compose.

