(* ===== verification/DirectScenarios.v ===== *)
(** * The workflow compiler: concrete workflows

    Workflows compiled from their definition: the witnesses of the compiler's theorems, and
    graphs the validator and the support gate accept whose plans do not do what their
    edges say. *)

From S2P Require Import Prelude.
From S2P Require Import Json.
From S2P Require Import Text.
From S2P Require Import GuestManifest.
From S2P Require Import GuestScenarios.
From S2P Require Import ValidationBase.
From S2P Require Import ValidationAgents.
From S2P Require Import Validation.
From S2P Require Import GraphOrder.
From S2P Require Import GraphOrderProperties.
From S2P Require Import Dsl.
From S2P Require Import WorkflowFeatures.
From S2P Require Import DirectManifest.
From S2P Require Import DirectManifestProperties.
From S2P Require Import DirectSupport.
From S2P Require Import DirectPlan.
From S2P Require Import DirectPlanProperties.
From S2P Require Import DirectRunProperties.
From S2P Require Import DirectSupportProperties.
From S2P Require Import DirectPipeline.

Local Open Scope nat_scope.

#[local] Existing Instances text_engine ascii_data Validation.no_references
  Validation.no_conditions.

(** Serializations and the digest, fixed: none of the properties here reads them. *)
Definition plain_externals : ManifestExternals :=
  {| step_json := λ _ _ _, JNull; schema_json := λ _, JNull; manifest_sha256_hex := λ _, "";
     template_major_version := "1" |}.
#[local] Existing Instance plain_externals.

(** A plan made with enough rounds for a small workflow. *)
Definition compiled (graph : ExecutionGraph) : planned DirectRunPlan :=
  direct_run_plan 20 (build_direct_workflow_manifest graph).

(** The validator has no errors and the gate accepts. *)
Definition passes (graph : ExecutionGraph) : bool :=
  bool_decide (errors (validate_workflow graph demo_catalog) = [])
  && match analyze_direct_wasm_support 20 graph with
     | Some report => supported report
     | None => false
     end.

Definition labelled (x y l : string) : ExecutionPlanEdge := {| (edge x y) with label := Some l |}.
Definition agents (ids : list string) : gmap string Step := list_to_map ((λ id, (id, Agent plain_agent)) <$> ids).
Definition choice (id : string) (m : gmap string Step) : gmap string Step := <[id := Conditional plain_conditional]> m.
Definition finish (id : string) (m : gmap string Step) : gmap string Step := <[id := Finish plain_finish]> m.

(** [a] fans out to [b] and [c], which run side by side; [d] follows both. *)
Definition side_by_side : ExecutionGraph :=
  plain_graph (finish "end" (agents ["a"; "b"; "c"; "d"])) "a"
    [edge "a" "b"; edge "a" "c"; edge "b" "d"; edge "c" "d"; edge "d" "end"].

(** A branch that ends the workflow, beside one that goes on. *)
Definition early_finish : ExecutionGraph :=
  plain_graph (choice "check" (choice "again" (finish "stop" (finish "end" (agents ["more"]))))) "check"
    [labelled "check" "again" "true"; labelled "check" "more" "false";
     labelled "again" "more" "true"; labelled "again" "stop" "false"; edge "more" "end"].

(** A fan-out inside a branch whose second arm joins only the merge point of the branch. *)
Definition fan_out_in_branch : ExecutionGraph :=
  plain_graph (choice "check" (finish "end" (agents ["r"; "s"; "s1"; "s2"; "sm"; "t"; "y"]))) "check"
    [labelled "check" "r" "true"; labelled "check" "y" "false"; edge "r" "s"; edge "r" "t";
     edge "s" "s1"; edge "s" "s2"; edge "s1" "sm"; edge "s2" "sm"; edge "sm" "end"; edge "t" "end";
     edge "y" "end"].

(** ** Runs of these plans *)

Lemma side_by_side_passes : passes side_by_side = true.
Proof. vm_compute. reflexivity. Qed.

(** Finding: a Finish step inside a branch does not end the workflow where the branch has a
    merge point: the run goes on with it and ends with the output of the other Finish. *)
Lemma early_finish_goes_on :
  passes early_finish = true ∧
  ∃ plan, compiled early_finish = Some (Ok plan) ∧
    runs plan ["check"; "again"; "stop"; "more"; "end"] false.
Proof.
  split; [vm_compute; reflexivity|]. eexists. split; [vm_compute; reflexivity|].
  eapply (run_choice_merge _ ["check"] _ _ _ ["again"; "stop"] ["more"; "end"]); [reflexivity|left| |].
  - eapply (run_choice_end _ ["again"] _ _ ["stop"]); [reflexivity|right; left|constructor].
  - repeat (econstructor; try reflexivity).
Qed.

(** Finding: a step of a graph the gate accepts that no run of its plan executes. *)
Lemma fan_out_loses_step :
  passes fan_out_in_branch = true ∧
  ∃ plan, compiled fan_out_in_branch = Some (Ok plan) ∧ ∀ l raised, runs plan l raised → "t" ∉ l.
Proof.
  split; [vm_compute; reflexivity|]. eexists. split; [vm_compute; reflexivity|].
  intros l raised Hr Ht. apply (runs_steps _ _ _ Hr) in Ht. revert Ht.
  apply (bool_decide_unpack (_ ∉ _)). vm_compute. exact I.
Qed.

(** ** Witnesses *)

(** No choices, AI agents, labels and conditions. *)
Definition simple_test (g : ExecutionGraph) : bool :=
  forallb (λ s, match s.2 with Conditional _ | Switch _ | AiAgent _ => false | _ => true end)
    (map_to_list (steps g))
  && forallb (λ e, bool_decide (label e = None) && bool_decide (condition e = None)) (execution_plan g).

Lemma simple_test_spec g : simple_test g = true → no_choices g ∧ flat g.
Proof.
  intros [Hsteps Hedges]%andb_true_iff. rewrite forallb_forall in Hsteps, Hedges.
  assert (Hs : ∀ id step, steps g !! id = Some step →
    match step with Conditional _ | Switch _ | AiAgent _ => false | _ => true end = true).
  { intros id step Hid%elem_of_map_to_list. by apply (Hsteps (id, step)), list_elem_of_In. }
  assert (He : ∀ e, e ∈ execution_plan g → label e = None ∧ condition e = None).
  { intros e He. apply list_elem_of_In, Hedges, andb_true_iff in He as [H1 H2].
    by apply bool_decide_eq_true in H1, H2. }
  split; split.
  - intros id step Hid%Hs. by destruct step.
  - intros e Hin _. by apply He.
  - intros x (e & Hin & Ho & _). apply He in Hin as [Hl _]. unfold is_on_error in Ho. congruence.
  - intros e st Hin Hid%Hs. done.
Qed.

Lemma fmap_true {A} (f : A → bool) (o : option A) :
  f <$> o = Some true → ∃ r, o = Some r ∧ f r = true.
Proof. destruct o as [r|]; [|done]. intros [= H]. by exists r. Qed.

Lemma gate_accepts_side_by_side :
  ∃ r, analyze_direct_wasm_support_with_child_workflows 20 side_by_side [] = Some r
       ∧ supported r = true.
Proof. apply fmap_true. vm_compute. reflexivity. Qed.


Lemma planning_ends_witness :
  ∃ N, ∀ fuel, N <= fuel → ∃ r, direct_run_plan fuel (build_direct_workflow_manifest side_by_side) = Some r.
Proof.
  apply (proj2 (planning_ends (build_direct_workflow_manifest side_by_side))). constructor.
  intros h Hh. exfalso.
  assert (Hnone : opened (wm_child_workflows (build_direct_workflow_manifest side_by_side))
                    (wm_graph (build_direct_workflow_manifest side_by_side)) = [])
    by (vm_compute; reflexivity).
  unfold opens in Hh. rewrite Hnone in Hh. by apply not_elem_of_nil in Hh.
Defined.

(** ** A gate that does not end *)

(** Finding: the walk through [onWait] graphs and AI tools starts with an empty stack of
    call sites, so where the id of a call site is used twice it can open the same child
    forever.  Here [a] waits, and its [onWait] graph embeds [b] at call site "e"; the root
    embeds [a] at "a1" and at "e".  No workflow embeds itself. *)
Definition embed (child : string) : Step :=
  EmbedWorkflow {| embed_name := None; child_workflow_id := child; child_version := Specific 1;
                   embed_input_mapping := None; embed_max_retries := None; embed_retry_delay := None;
                   embed_timeout := None; embed_durable := None |}.

Definition child_b : ExecutionGraph := plain_graph (finish "end" ∅) "end" [].

Definition notify : ExecutionGraph :=
  plain_graph {["e" := embed "b"; "done" := Finish plain_finish]} "e" [edge "e" "done"].

Definition child_a : ExecutionGraph :=
  plain_graph
    {["w" := WaitForSignal {| wait_name := None; on_wait := Some notify; timeout_ms := None;
               poll_interval_ms := None; response_schema := None; action := None |};
      "end" := Finish plain_finish]} "w" [edge "w" "end"].

Definition root : ExecutionGraph :=
  plain_graph {["a1" := embed "a"; "e" := embed "a"; "end" := Finish plain_finish]} "a1"
    [edge "a1" "e"; edge "e" "end"].

Definition call (site : string) (id : string) (graph : ExecutionGraph) : DirectManifestChildWorkflowInput :=
  {| ci_step_id := site; ci_workflow_id := id; ci_version_requested := "1"; ci_version_resolved := 1;
     ci_execution_graph := graph |}.

(** In the order of the recursive resolution of the children. *)
Definition loaded : list DirectManifestChildWorkflowInput :=
  [call "a1" "a" child_a; call "e" "b" child_b; call "e" "a" child_a].

Local Abbreviation loaded_children := (from_child_workflows loaded).
Local Abbreviation start := {| reachable := ∅; used_edges := ∅ |}.

(** One embedding, and one wait, of the walk. *)
Lemma embed_round rec graph site child child_stack stack ioe w s :
  steps graph !! site = Some (EmbedWorkflow s) → site ∉ stack → site ∉ reachable w → site ∉ child_stack →
  by_step_id loaded_children !! site = Some child → backbone_topologically_linearizable child = true →
  rec loaded_children child (child_stack ++ [site]) [] true (entry_point child) start = None →
  supports_one_step rec loaded_children graph child_stack stack ioe site w = None.
Proof.
  intros Hs Hst Hw Hcs Hc Hb Hrec. unfold supports_one_step. rewrite !decide_False, Hs by done.
  simpl. unfold supports_embed_workflow_step_baseline, supports_direct_control_graph_inner.
  by rewrite decide_False, Hc, Hb, Hrec by done.
Qed.

Lemma wait_round rec child_stack w :
  "w" ∉ reachable w →
  rec loaded_children notify [] [] true "e" start = None →
  supports_one_step rec loaded_children child_a child_stack [] true "w" w = None.
Proof.
  intros Hw Hrec. unfold supports_one_step.
  rewrite decide_False by apply not_elem_of_nil. rewrite decide_False by done.
  change (steps child_a !! "w") with (Some (WaitForSignal {| wait_name := None; on_wait := Some notify;
    timeout_ms := None; poll_interval_ms := None; response_schema := None; action := None |})).
  cbn [supports_step_kind]. unfold supports_wait_for_signal_step_baseline, supports_direct_control_graph,
    supports_direct_control_graph_inner. cbn [on_wait].
  assert (Hb : backbone_topologically_linearizable notify = true) by (vm_compute; reflexivity).
  rewrite Hb. change (entry_point notify) with "e". cbn [negb]. by rewrite Hrec.
Qed.

Lemma notify_never_ends fuel :
  supports_direct_control_step_inner fuel loaded_children notify [] [] true "e" start = None.
Proof.
  induction fuel as [fuel IH] using lt_wf_ind. destruct fuel as [|[|fuel]]; [done|..].
  all: change (supports_direct_control_step_inner (S ?n)) with (supports_one_step (supports_direct_control_step_inner n)).
  all: eapply embed_round; [vm_compute; reflexivity|set_solver|simpl; set_solver|set_solver
    |vm_compute; reflexivity|vm_compute; reflexivity|].
  - done.
  - apply wait_round; [simpl; set_solver|]. apply IH. lia.
Qed.

(** The gate gives no answer, however long it runs. *)
Lemma gate_never_ends fuel :
  analyze_direct_wasm_support_with_child_workflows fuel root loaded = None.
Proof.
  assert (Hroot : ∀ fuel, supports_direct_control_step_inner fuel loaded_children root [] [] true "a1" start = None).
  { intros [|[|fuel']]; [done|..].
    all: eapply embed_round; [vm_compute; reflexivity|set_solver|simpl; set_solver|set_solver
      |vm_compute; reflexivity|vm_compute; reflexivity|].
    - done.
    - apply wait_round; [simpl; set_solver|]. apply notify_never_ends. }
  unfold analyze_direct_wasm_support_with_child_workflows, analyze_direct_wasm_support_inner.
  destruct fuel as [|fuel]; [done|]. cbn [collect_graph_support_inner].
  unfold collect_graph_of, supports_direct_control_graph, supports_direct_control_graph_inner.
  assert (Hb : backbone_topologically_linearizable root = true) by (vm_compute; reflexivity).
  rewrite Hb. change (entry_point root) with "a1". cbn [negb]. by rewrite Hroot.
Qed.

Lemma gate_covers_graph_witness :
  (∀ id, is_Some (steps side_by_side !! id) → rtc (plan_edge side_by_side) "a" id) ∧
  (∀ e, e ∈ execution_plan side_by_side → is_Some (steps side_by_side !! to_step e) ∧
     (lowered side_by_side e ∨ in_nested_handler side_by_side (from_step e))).
Proof.
  destruct gate_accepts_side_by_side as (r & Hr & Hs).
  exact (gate_covers_graph 20 side_by_side [] r Hr Hs ltac:(discriminate)).
Defined.

(** Finding: without edges, the gate has nothing to report a missing step with. *)
Definition no_edges : ExecutionGraph := plain_graph (agents ["a"; "b"]) "a" [].

Lemma edgeless_graph_accepted :
  (supported <$> analyze_direct_wasm_support 20 no_edges) = Some true ∧
  ¬ rtc (plan_edge no_edges) (entry_point no_edges) "b".
Proof.
  split; [vm_compute; reflexivity|]. intros [Hab|(y & _ & e & He & _)]%rtc_inv_r; [done|].
  by apply not_elem_of_nil in He.
Qed.

(** Finding: what is marked as behind a handler of a handler is not checked where it is
    also on a live path: the edge "odd" of [y] is of no form the compiler lowers. *)
Definition shared_with_dead : ExecutionGraph :=
  plain_graph (choice "check" (finish "end" (agents ["a"; "h"; "y"]))) "check"
    [labelled "check" "a" "true"; labelled "check" "y" "false"; edge "a" "end";
     labelled "a" "h" "onError"; labelled "h" "y" "onError"; edge "y" "end"; labelled "y" "end" "odd"].

Lemma live_step_not_checked :
  (supported <$> analyze_direct_wasm_support 20 shared_with_dead) = Some true ∧
  ¬ lowered shared_with_dead (labelled "y" "end" "odd").
Proof.
  split; [vm_compute; reflexivity|]. intros [Hn|Ho]; [by vm_compute in Hn|by vm_compute in Ho].
Qed.

Lemma guest_finds_every_entry_witness :
  let m := build_direct_workflow_manifest_with_child_workflows_and_agent_catalog None side_by_side [] in
  ∃ M, parse_manifest (manifest_wire m) = Ok M ∧
    (∀ k i g, gtable k M !! i = Some g ↔
       ∃ e, e ∈ all_entries k m ∧ i = entry_id k e ∧ g = (entry_wire k e).2).
Proof.
  cbv zeta. destruct (guest_finds_every_entry side_by_side [] None) as (M & HM & Htab & _).
  - constructor.
  - intros []; vm_compute; discriminate.
  - exists M. split; [exact HM|exact Htab].
Defined.
